(* ===== verification/_CoqProject ===== *)
-Q . S2P
Prelude.v
Code.v
Stream.v
LineTable.v
Polymorphic.v
Padding.v
Mutation.v
SymbolTable.v
Text.v
Lexer.v
Paths.v
Ast.v
Module.v
Link.v
Float64.v
Parser.v
ParserLogic.v
ParserFacts.v
Pratt.v
Parsed.v
Sha256.v
Index.v
Object.v
Detach.v
Tasks.v
StackTyping.v
Compiler.v
CompilerLogic.v
CompilerFacts.v
Holes.v
Compiled.v
FrontEnd.v
HashOrder.v
Numeric.v
Equality.v
Keystream.v
Seal.v
ReplSeal.v
Traceback.v
Machine.v
Operations.v
Vm.v
Parallel.v
VmFacts.v
VmInvariant.v
VmFloor.v
VmLogic.v
VmSafety.v
CompiledRuns.v
