(* ===== verification/Prelude.v ===== *)
(** * Mutant: a verification of the language's front end, middle end and runtime

    Mutant ([src/]) is a scripting language with a bytecode compiler.  A source
    file is lexed ([src/lexer], [src/token]), parsed ([src/parser], [src/ast]), and loaded
    with everything it imports ([src/module]); the modules are linked into one
    source, compiled against a symbol table ([src/compiler/symbol_table.go]) to
    one instruction stream and constant pool ([src/code]), rewritten by a
    polymorphic engine ([src/compiler/polymorphic.go]), sealed with a keystream
    ([src/mutil], [src/security]), and run by a stack machine ([src/vm]) over the
    values of [src/object], which it keeps sealed too.  Line tables ([src/code/linetable.go]) and module
    spans ([src/compiler/compiler.go]) lead from an instruction back to a line
    of a file.

    ** Files

    - [Prelude.v]: machine integers, the panic outcome, tactics, hints and the
      list lemmas the components share.
    - [Code.v]: [src/code/code.go].  [Opcode] and [definitions] are the
      instruction set, [Make], [ReadOperands] and [Instructions_String] the
      encoder, decoder and disassembler.
    - [Stream.v]: streams as lists of instructions ([instr], [encode]), the
      specification side of every pass over bytes, and the theorems of [Code.v].
    - [LineTable.v]: [src/code/linetable.go] and [src/code/lineindex.go].  The
      builder's state is a record, the table its bytes; 64-bit wrap-around is
      written out.
    - [Polymorphic.v]: [src/compiler/polymorphic.go], every pass of [Mutate],
      over a [Rng] class that stands for [math/rand]; the shuffle and the
      opcode permutation, with [normalizeOpcodeMap] and [decodeOpcode] of
      [src/vm/vm.go] on the other side.
    - [Padding.v]: the filler splice.  [layout] describes a padded stream,
      [steps] runs one on a stack machine that fixes the instructions the
      engine splices and quantifies over all others.
    - [Mutation.v]: the passes composed, with the trim of the marker in
      [src/generator/generate.go]: whole programs through [Mutate].
    - [SymbolTable.v]: [src/compiler/symbol_table.go].  A [Chain] is a table
      with the tables around it, [table_step] the operations the compiler
      makes, [lexical] the scoping rule they implement.
    - [Text.v]: positions and tokens ([src/token/token.go]) and the functions
      of [src/lexer/lexer.go] that work on the text of a literal.
    - [Lexer.v]: the rest of [src/lexer/lexer.go], over a [Unicode] class for
      the category tables.
    - [Paths.v]: [src/module/resolve.go] with the path rules of [src/sema], over
      a [Host] class for the file system; [path/filepath] for hosts whose
      separator is the slash.
    - [Ast.v]: the node types of [src/ast] the compiler reads, with their ranges.
    - [Module.v]: [src/module/graph.go].  The walker's state is a record, its
      modules a store keyed by identity; a [Parser] class stands for the parser.
    - [Link.v]: [src/module/link.go] and [src/ast/shift.go], and the lookups and
      [StripDebugInfo] of [src/compiler/compiler.go].
    - [Parser.v]: [src/parser], every parsing function over the lexer of [Lexer.v], in
      a state monad: the two tokens, the error lists, the node ranges and the
      nesting counters are the state, a Go [for] is a [loop].
    - [ParserLogic.v] and [ParserFacts.v]: total-correctness triples for that monad,
      the grammar, and what every parsing function gives; [Pratt.v]: operator
      trees, their printer and how the parser reads it back; [Parsed.v]: what
      follows for whole parses, and what the parser misreads.
    - [StackTyping.v]: what an instruction takes from the operand stack and
      leaves on it, and what it means for a stream, finished or under
      construction, to be typed by stack depths.
    - [Compiler.v]: the code generator, [src/compiler/compiler.go] and
      [struct_fields.go] with the field rule of [src/sema/resolve.go]: a record
      for the compiler's state and a state and error monad for its functions.
    - [CompilerLogic.v] and [CompilerFacts.v]: weakest preconditions for that
      monad and the specification of every function that emits code;
      [Holes.v]: trees with no node missing, of which the compiler never says that
      one is; [Compiled.v]: what follows for whole compilations.
    - [FrontEnd.v]: the parser, the module graph and the code generator together;
      its [text_parser] is the instance of the class [Module.v] asks for.
    - [Float64.v] and [Sha256.v]: IEEE 754 double precision on bit patterns (an
      [Fpu] class chooses the payload of a NaN) and SHA-256, as the source uses
      them.
    - [Index.v], [Object.v], [HashOrder.v], [Numeric.v], [Equality.v]:
      [src/object].  Values are one inductive type, a Go map an association list
      in the order a range visits it; indexing, the order of a hash and its
      cursor, the operators of [infix.go] and [numeric_order.go], and equality.
      A [Rendering] class says how a captured variable prints.
    - [Keystream.v]: [src/security/secure_random.go], over a [Cipher] class for
      the ChaCha20 block function.
    - [Seal.v]: [src/mutil/util.go], values and programs at rest, over a [Gob]
      class for the encoding of errors; [ReplSeal.v]: [src/mutil/repl_seal.go].
    - [Traceback.v]: [src/vm/traceback.go].
    - [Machine.v], [Operations.v], [Vm.v]: [src/vm/vm.go], [frame.go],
      [fault.go], [higher_order.go].  The state is a record (stack, globals,
      frames, cells, cursors; probes; the integrity failures recorded; the
      surroundings), an operation a function
      of a state and error monad, one definition per instruction, [run] the
      dispatch loop.  A [Host] class stands for the builtin registry and the
      probes of the process, a [Storage] class for how values are kept.
    - [VmFacts.v] and [VmInvariant.v]: the machine's theorems; [VmFloor.v]: the lower
      half of its bounds.
    - [VmLogic.v]: a logic of the operations that cannot fault, with what storage,
      builtins and [encoding/gob] must keep of the program's functions as classes;
      [VmSafety.v]: typed streams on the machine; [CompiledRuns.v]: the code
      generator's output, sealed, on the machine.
    - [Detach.v]: [src/vm/detach.go], what a worker machine is handed, over the store
      of captured variables; [Parallel.v]: [src/vm/parallel.go], the worker pool as a
      step relation over the variables its workers share, and the machines in it.
    - [Tasks.v]: [src/builtin/tasks.go], the registry behind [spawn], as a step relation:
      what is done under the lock is one step, the update of the wait counter after it
      another.

    ** What the theorems show

    Instruction set: [make_read_roundtrip], [make_never_truncates] and
    [opcode_table_sound]; the disassembler returns on what the encoder makes
    ([disassembler_total]) and on nothing that holds an undefined byte
    ([disassembler_diverges]).

    Position tables: [line_table_answers], [remap_keeps_positions],
    [line_index_binds_forward].

    Polymorphic engine, for every seed: a program that goes through all of
    [Mutate] runs as before ([mutation_preserves_programs]); of its passes, the
    splice preserves every run and has
    a known layout ([padding_preserves_runs], [padding_layout]), the shuffle
    keeps every reference ([constant_shuffle_keeps_references]), the permutation
    is undone by the VM's fetch ([opcode_permutation_invisible]), debug
    information steers none of it ([stripping_commutes_with_mutation]).
    [declined_splice_drops_tables] records what happens to the tables of a
    stream the splice leaves alone.

    Symbol table: [resolve_is_lexical], [nested_scopes_leave_no_trace],
    [local_slot_names_exact], [builtin_references_stable], [modules_isolated],
    [function_name_captures_found], all over every reachable table.

    Code generator, in every compiler a session or a sequence of modules builds:
    [compilation_ends] (code or a refusal, never an error the source words internal),
    [compiled_streams_are_well_formed] (which is what [Mutation.v] and [VmFacts.v]
    assume of a program) and [compiled_code_is_balanced]; the programs the last
    one leaves out misbehave ([folded_break_unbalances]).

    Lexer: [lexer_terminates], [scans_are_never_cut_short],
    [tokens_are_located], [fragment_positions], [string_literal_roundtrip],
    [float_flag_is_a_point]; literals: [unescape_roundtrip],
    [template_split_roundtrip], [block_template_keeps_text],
    [line_endings_do_not_matter].

    Parser: [parsing_ends], [clean_parse_is_grammatical], [operators_round_trip];
    against its own comments, [else_if_chains_are_not_bounded],
    [stray_brace_is_dropped], [recovery_swallows_the_brace],
    [hole_errors_shift_positions].  Front end as a whole: [text_becomes_code],
    [loaded_files_are_grammatical].

    Modules: [resolver_first_match]; [load_returns], [load_order],
    [graph_is_acyclic], [cycle_error_is_a_cycle], [scope_names_imports];
    [link_rebases_positions], [module_at_finds_the_file],
    [module_line_inverts_module_at].

    Values: [index_in_bounds], [rune_at_is_indexing]; [hash_order_is_definite];
    [numeric_order_exact], [integer_operators], [numeric_infix_typed];
    [values_equal_laws], [joined_marks_keep_classes].

    Sealing: [sealed_bytes_open_anywhere] for the keystream,
    [sealed_values_open] and [sealing_refuses_exactly] for values,
    [sealed_program_reads_as_compiled] for a program,
    [repl_code_opens_on_every_line] for a session of programs.

    Machine: [runs_stay_in_bounds] (both bounds, the lower one between instructions) and
    [callback_leaves_the_caller] hold of every run of every program; [vm_numbers_match_the_evaluator];
    [control_flow_check_is_exact] and [security_scan_is_exact] on sealed
    streams; [grow_size_is_enough].  [typed_programs_never_fault] and
    [compiled_programs_never_fault] prove what [fault.go] says of its faults, from the
    typing of the code generator's streams, and of callbacks too, whose contained faults
    would be recorded; [traceback_collapse_is_faithful] and
    [stamped_error_is_the_same_error] for what a failure reports.

    Workers: [a_worker_gets_its_own_cells] and [the_hoisted_scan_misses_nothing] for
    the boundary; [every_worker_pool_finishes] under any fair schedule,
    [answers_are_in_order], [pmap_is_map]; for tasks, [the_registry_is_bounded] and
    [an_outcome_is_collected_once] over every interleaving of the steps.

    ** Fuel

    A loop over a byte cursor carries the length of what it reads plus one: each
    turn moves the cursor ([scans_are_never_cut_short] proves it for the lexer,
    [disassembler_total] for the disassembler, the round trips for the rest).
    The module walk is bounded by the depth of the import chain, which
    [load_returns] bounds by the number of files.  Varints are ten bytes at most
    ([MaxVarintLen64]).  The parser's recursion is given the levels its own limit
    allows and its loops a turn per byte ([parsing_ends]).  [Compile] recurses to the depth of the tree, and
    [compilation_ends] shows that is enough.  [growSize] doubles at most 63 times
    ([grow_size_is_enough]).  The machine's loop need not end: [run] takes one
    unit of fuel per instruction and per nested call, ends in [OutOfFuel], and
    its theorems hold for every amount.  The walk of the boundary spends fuel on cells
    it has not seen, so the size of the store is enough
    ([a_worker_gets_its_own_cells]).

    ** What is not modelled

    The macro expander with its evaluator (programs are compiled from the tree they are
    handed); the tokens a node of the
    tree keeps, its rendering, cloning and comparison; the wording of the parser's
    and the code generator's diagnostics; the builtin library,
    serialization, the language server, the debug adapter and the command line,
    which are input and output or calls into libraries.  Of the machine: an
    attached debugger and the coverage recorder, the goroutine
    [spawn] starts, [sort_by]'s merge and [with_resource], wrapped globals, the
    clearing of memory after a run, the resolution of builtin names, audit
    records and the wording of decoding errors.  Of the modelled files, the
    wording of lexer and resolver diagnostics and the Windows branches of the
    path rules are left out.  The machine's model stops, in a result of its own, at a
    write into a container that could not be opened, which two slots may share.  Values
    the engine
    shares by pointer (compiled functions in the pool) are modelled by value:
    the compiler allocates one per literal, so no two constants alias. *)

From stdpp Require Import base list list_numbers numbers gmap strings sorting.
From Stdlib Require Import ZArith Lia Ascii.

(* ------------------------------------------------------------------ *)
(** ** Notation scope *)

Declare Scope mutant_scope.
Delimit Scope mutant_scope with mutant.
#[global] Open Scope Z_scope.

(** What a Go function that may panic hands back. *)
Inductive outcome (A : Type) : Type :=
| Ret (a : A)
| Panic.
Arguments Ret {A} a.
Arguments Panic {A}.

Definition outcome_bind {A B : Type} (o : outcome A) (k : A -> outcome B) : outcome B :=
  match o with
  | Ret a => k a
  | Panic => Panic
  end.

Notation "'let!' x := o 'in' k" := (outcome_bind o (fun x => k))
  (at level 10, x pattern, o at level 100, k at level 200)
  : mutant_scope.
#[global] Open Scope mutant_scope.

(* ------------------------------------------------------------------ *)
(** ** Bytes and machine integers *)

(** A Go [byte]. *)
Definition is_byte (b : Z) : Prop := 0 <= b < 256.

(** A Go [[]byte] whose elements are bytes. *)
Definition is_bytes (l : list Z) : Prop := Forall is_byte l.

(** Conversion to [uint8], [uint16], [uint64] and [int64]: truncation to the
    width, two's complement for the signed type. *)
Definition u8 (z : Z) : Z := z mod 2 ^ 8.
Definition u16 (z : Z) : Z := z mod 2 ^ 16.
Definition u64 (z : Z) : Z := z mod 2 ^ 64.
Definition i64 (z : Z) : Z := (z + 2 ^ 63) mod 2 ^ 64 - 2 ^ 63.

Definition is_u64 (z : Z) : Prop := 0 <= z < 2 ^ 64.
Definition is_i64 (z : Z) : Prop := - 2 ^ 63 <= z < 2 ^ 63.

(** [len(l)] as a Go [int]. *)
Definition zlen {A : Type} (l : list A) : Z := Z.of_nat (length l).

(** A byte string spelled out. *)
Fixpoint bytes (s : string) : list Z :=
  match s with
  | EmptyString => []
  | String c s => Z.of_nat (nat_of_ascii c) :: bytes s
  end.

(** A Go string as a name; a byte is a character. *)
Definition of_bytes (l : list Z) : string :=
  foldr (fun b s => String (ascii_of_nat (Z.to_nat b)) s) EmptyString l.

(** Sum of a list of non-negative widths. *)
Definition nsum (l : list nat) : nat := foldr Nat.add 0%nat l.

(* ------------------------------------------------------------------ *)
(** ** Tactics *)

(** Turn every boolean comparison in the context into the proposition it
    decides. *)
Ltac breflect :=
  repeat match goal with
  | H : (_ && _)%bool = true |- _ => apply andb_true_iff in H; destruct H
  | H : (_ || _)%bool = false |- _ => apply orb_false_iff in H; destruct H
  | H : negb _ = true |- _ => apply negb_true_iff in H
  | H : negb _ = false |- _ => apply negb_false_iff in H
  | H : (_ =? _)%Z = true |- _ => apply Z.eqb_eq in H
  | H : (_ =? _)%Z = false |- _ => apply Z.eqb_neq in H
  | H : (_ <? _)%Z = true |- _ => apply Z.ltb_lt in H
  | H : (_ <? _)%Z = false |- _ => apply Z.ltb_ge in H
  | H : (_ <=? _)%Z = true |- _ => apply Z.leb_le in H
  | H : (_ <=? _)%Z = false |- _ => apply Z.leb_gt in H
  | H : (_ =? _)%nat = true |- _ => apply Nat.eqb_eq in H
  | H : (_ =? _)%nat = false |- _ => apply Nat.eqb_neq in H
  | H : (_ <? _)%nat = true |- _ => apply Nat.ltb_lt in H
  | H : (_ <? _)%nat = false |- _ => apply Nat.ltb_ge in H
  | H : (_ <=? _)%nat = true |- _ => apply Nat.leb_le in H
  | H : (_ <=? _)%nat = false |- _ => apply Nat.leb_gt in H
  end.

(** Case on the innermost test of a goal or hypothesis, reflecting it. *)
Ltac bcase :=
  match goal with
  | |- context [if ?b then _ else _] => destruct b eqn:?; breflect
  | H : context [if ?b then _ else _] |- _ => destruct b eqn:?; breflect
  end.

Ltac bcases := repeat (bcase; simplify_eq/=).

(** Arithmetic after unfolding the width predicates. *)
Ltac wide_lia :=
  unfold is_byte, is_u64, is_i64, u8, u16, u64, i64, zlen in *;
  change (2 ^ 8) with 256 in *; change (2 ^ 16) with 65536 in *;
  change (2 ^ 64) with 18446744073709551616 in *;
  change (2 ^ 63) with 9223372036854775808 in *;
  lia.

Create HintDb mutant discriminated.

(* ------------------------------------------------------------------ *)
(** ** Lemmas shared by the components *)

Lemma u8_byte z : is_byte (u8 z).
Proof. unfold u8, is_byte. apply Z.mod_pos_bound. lia. Qed.

Lemma u8_id z : is_byte z -> u8 z = z.
Proof. intros ?. unfold u8, is_byte in *. apply Z.mod_small. lia. Qed.

Lemma u16_range z : 0 <= u16 z < 65536.
Proof. apply Z.mod_pos_bound. lia. Qed.

Lemma u16_id z : 0 <= z < 65536 -> u16 z = z.
Proof. intros. apply Z.mod_small. lia. Qed.

Lemma u64_range z : is_u64 (u64 z).
Proof. apply Z.mod_pos_bound. lia. Qed.

Lemma u64_id z : is_u64 z -> u64 z = z.
Proof. intros. apply Z.mod_small. assumption. Qed.

Lemma i64_range z : is_i64 (i64 z).
Proof. unfold i64, is_i64. pose proof (Z.mod_pos_bound (z + 2 ^ 63) (2 ^ 64)). lia. Qed.

Lemma i64_id z : is_i64 z -> i64 z = z.
Proof. intros. unfold i64, is_i64 in *. rewrite Z.mod_small; lia. Qed.

(** Sign conversion and truncation agree: [int64(uint64(z)) = z]. *)
Lemma i64_u64 z : is_i64 z -> i64 (u64 z) = z.
Proof.
  intros Hz. unfold i64, u64. rewrite Zplus_mod_idemp_l.
  fold (i64 z). by apply i64_id.
Qed.

Lemma i64_mod z z' : z mod 2 ^ 64 = z' mod 2 ^ 64 -> i64 z = i64 z'.
Proof.
  intros H. unfold i64. f_equal.
  rewrite <- (Zplus_mod_idemp_l z), <- (Zplus_mod_idemp_l z'). by rewrite H.
Qed.

Lemma is_bytes_app l k : is_bytes (l ++ k) <-> is_bytes l /\ is_bytes k.
Proof. apply Forall_app. Qed.

Lemma zlen_app {A} (l k : list A) : zlen (l ++ k) = zlen l + zlen k.
Proof. unfold zlen. rewrite length_app. lia. Qed.

Lemma zlen_nonneg {A} (l : list A) : 0 <= zlen l.
Proof. unfold zlen. lia. Qed.

Lemma to_nat_zlen {A} (l : list A) : Z.to_nat (zlen l) = length l.
Proof. apply Nat2Z.id. Qed.

Lemma lookup_app_at {A} (l k : list A) x : (l ++ x :: k) !! length l = Some x.
Proof. by rewrite lookup_app_r, Nat.sub_diag. Qed.

Lemma insert_app_at {A} (l k : list A) x y : <[length l:=y]> (l ++ x :: k) = l ++ y :: k.
Proof. rewrite insert_app_r_alt by lia. by rewrite Nat.sub_diag. Qed.

Lemma drop_app_at {A} (l k : list A) : drop (length l) (l ++ k) = k.
Proof. by rewrite drop_app_length. Qed.

Lemma take_app_at {A} (l k : list A) : take (length l) (l ++ k) = l.
Proof. by rewrite take_app_length. Qed.

(** A decidable property of a byte holds when it holds of all 256. *)
Lemma byte_cases (P : Z -> bool) :
  forallb P (seqZ 0 256) = true -> forall b, is_byte b -> P b = true.
Proof.
  intros H b Hb. rewrite forallb_forall in H. apply H.
  apply list_elem_of_In, elem_of_seqZ. unfold is_byte in Hb. lia.
Qed.

Lemma nsum_app l k : nsum (l ++ k) = (nsum l + nsum k)%nat.
Proof. unfold nsum. induction l; simpl; lia. Qed.

Lemma sorted_lookup_total (l : list Z) i j :
  StronglySorted Z.le l -> (i <= j < length l)%nat -> l !!! i <= l !!! j.
Proof.
  intros Hs. revert i j. induction Hs as [|x l Hs IH Hx]; intros [|i] [|j] Hij; simpl in *; try lia.
  - rewrite Forall_forall in Hx. apply Hx.
    apply list_elem_of_lookup_total_2. lia.
  - apply IH. lia.
Qed.

#[export] Hint Resolve u8_byte u16_range u64_range i64_range zlen_nonneg : mutant.
