(* ===== verification/Code.v ===== *)
(** The instruction set and its encoding: [src/code/code.go].

    [Opcode] is the constant block (a constructor per constant, [opcode_byte]
    its iota value), [definitions] the operand-width table, [Make] the encoder
    with its panic on an operand that does not fit, [ReadOperands] the decoder,
    [String] the disassembler.  [Stream.v] builds the theory of whole
    instruction streams on top of this file. *)

From stdpp Require Import base list list_numbers numbers strings pretty.
From Stdlib Require Import ZArith Lia.
From S2P Require Import Prelude.

(* ------------------------------------------------------------------ *)
(** ** The opcode table *)

(** [type Opcode byte] and its constants, in declaration order. *)
Inductive Opcode : Type :=
| OpConstant | OpPop | OpAdd | OpSub | OpMul | OpDiv | OpMod | OpTrue
| OpFalse | OpEqual | OpUnEqual | OpGreater | OpMinus | OpBang | OpJumpFalse
| OpJump | OpNull | OpGetGlobal | OpSetGlobal | OpGetLocal | OpSetLocal
| OpArray | OpHash | OpIndex | OpCall | OpReturnValue | OpReturn
| OpMultiValue | OpDup | OpDestructure | OpGetBuiltin | OpClosure | OpGetFree
| OpCurrentClosure | OpChkDbg | OpChkSnd | OpBreak | OpContinue
| OpMakeStruct | OpGetField | OpSetField | OpEnumValue | OpGreaterEqual
| OpSetIndex | OpBitAnd | OpBitOr | OpBitXor | OpBitNot | OpShiftLeft
| OpShiftRight | OpGetLocalCell | OpSetLocalCell | OpCaptureLocal
| OpCaptureFree | OpSetFree | OpConcat | OpIterInit | OpIterNext
| OpMatchFail | OpLess | OpLessEqual.

(** The byte each constant stands for ([iota]). *)
Definition opcode_byte (op : Opcode) : Z :=
  match op with
  | OpConstant => 0 | OpPop => 1 | OpAdd => 2 | OpSub => 3 | OpMul => 4
  | OpDiv => 5 | OpMod => 6 | OpTrue => 7 | OpFalse => 8 | OpEqual => 9
  | OpUnEqual => 10 | OpGreater => 11 | OpMinus => 12 | OpBang => 13
  | OpJumpFalse => 14 | OpJump => 15 | OpNull => 16 | OpGetGlobal => 17
  | OpSetGlobal => 18 | OpGetLocal => 19 | OpSetLocal => 20 | OpArray => 21
  | OpHash => 22 | OpIndex => 23 | OpCall => 24 | OpReturnValue => 25
  | OpReturn => 26 | OpMultiValue => 27 | OpDup => 28 | OpDestructure => 29
  | OpGetBuiltin => 30 | OpClosure => 31 | OpGetFree => 32
  | OpCurrentClosure => 33 | OpChkDbg => 34 | OpChkSnd => 35 | OpBreak => 36
  | OpContinue => 37 | OpMakeStruct => 38 | OpGetField => 39 | OpSetField => 40
  | OpEnumValue => 41 | OpGreaterEqual => 42 | OpSetIndex => 43 | OpBitAnd => 44
  | OpBitOr => 45 | OpBitXor => 46 | OpBitNot => 47 | OpShiftLeft => 48
  | OpShiftRight => 49 | OpGetLocalCell => 50 | OpSetLocalCell => 51
  | OpCaptureLocal => 52 | OpCaptureFree => 53 | OpSetFree => 54
  | OpConcat => 55 | OpIterInit => 56 | OpIterNext => 57 | OpMatchFail => 58
  | OpLess => 59 | OpLessEqual => 60
  end.

Definition all_constants : list Opcode :=
  [OpConstant; OpPop; OpAdd; OpSub; OpMul; OpDiv; OpMod; OpTrue; OpFalse;
   OpEqual; OpUnEqual; OpGreater; OpMinus; OpBang; OpJumpFalse; OpJump; OpNull;
   OpGetGlobal; OpSetGlobal; OpGetLocal; OpSetLocal; OpArray; OpHash; OpIndex;
   OpCall; OpReturnValue; OpReturn; OpMultiValue; OpDup; OpDestructure;
   OpGetBuiltin; OpClosure; OpGetFree; OpCurrentClosure; OpChkDbg; OpChkSnd;
   OpBreak; OpContinue; OpMakeStruct; OpGetField; OpSetField; OpEnumValue;
   OpGreaterEqual; OpSetIndex; OpBitAnd; OpBitOr; OpBitXor; OpBitNot;
   OpShiftLeft; OpShiftRight; OpGetLocalCell; OpSetLocalCell; OpCaptureLocal;
   OpCaptureFree; OpSetFree; OpConcat; OpIterInit; OpIterNext; OpMatchFail;
   OpLess; OpLessEqual].

(** [type Definition struct]. *)
Record OpDef : Type := Def { Name : string; OperandWidths : list nat }.

#[export] Instance Opcode_eq_dec : EqDecision Opcode.
Proof. solve_decision. Defined.

Definition definitions (op : Opcode) : OpDef :=
  match op with
  | OpConstant => Def "OpConstant" [2%nat]
  | OpPop => Def "OpPop" []
  | OpAdd => Def "OpAdd" []
  | OpSub => Def "OpSub" []
  | OpMul => Def "OpMul" []
  | OpDiv => Def "OpDiv" []
  | OpMod => Def "OpMod" []
  | OpTrue => Def "OpTrue" []
  | OpFalse => Def "OpFalse" []
  | OpEqual => Def "OpEqual" []
  | OpUnEqual => Def "OpUnEqual" []
  | OpGreater => Def "OpGreater" []
  | OpMinus => Def "OpMinus" []
  | OpBang => Def "OpBang" []
  | OpJumpFalse => Def "OpJumpFalse" [2%nat]
  | OpJump => Def "OpJump" [2%nat]
  | OpNull => Def "OpNull" []
  | OpGetGlobal => Def "OpGetGlobal" [2%nat]
  | OpSetGlobal => Def "OpSetGlobal" [2%nat]
  | OpGetLocal => Def "OpGetLocal" [1%nat]
  | OpSetLocal => Def "OpSetLocal" [1%nat]
  | OpArray => Def "OpArray" [2%nat]
  | OpHash => Def "OpHash" [2%nat]
  | OpIndex => Def "OpIndex" []
  | OpCall => Def "Opcall" [1%nat]
  | OpReturnValue => Def "OpReturnValue" []
  | OpReturn => Def "OpReturn" []
  | OpMultiValue => Def "OpMultiValue" [2%nat]
  | OpDup => Def "OpDup" []
  | OpDestructure => Def "OpDestructure" [2%nat]
  | OpGetBuiltin => Def "OpGetBuiltin" [2%nat]
  | OpClosure => Def "OpClosure" [2%nat; 1%nat]
  | OpGetFree => Def "OpGetFree" [1%nat]
  | OpCurrentClosure => Def "OpCurrentClosure" []
  | OpChkDbg => Def "OpChkDbg" []
  | OpChkSnd => Def "OpChkSnd" []
  | OpBreak => Def "OpBreak" []
  | OpContinue => Def "OpContinue" []
  | OpMakeStruct => Def "OpMakeStruct" [2%nat; 1%nat]
  | OpGetField => Def "OpGetField" [2%nat]
  | OpSetField => Def "OpSetField" [2%nat]
  | OpEnumValue => Def "OpEnumValue" [2%nat; 2%nat]
  | OpGreaterEqual => Def "OpGreaterEqual" []
  | OpSetIndex => Def "OpSetIndex" []
  | OpBitAnd => Def "OpBitAnd" []
  | OpBitOr => Def "OpBitOr" []
  | OpBitXor => Def "OpBitXor" []
  | OpBitNot => Def "OpBitNot" []
  | OpShiftLeft => Def "OpShiftLeft" []
  | OpShiftRight => Def "OpShiftRight" []
  | OpGetLocalCell => Def "OpGetLocalCell" [1%nat]
  | OpSetLocalCell => Def "OpSetLocalCell" [1%nat]
  | OpCaptureLocal => Def "OpCaptureLocal" [1%nat]
  | OpCaptureFree => Def "OpCaptureFree" [1%nat]
  | OpSetFree => Def "OpSetFree" [1%nat]
  | OpConcat => Def "OpConcat" [2%nat]
  | OpIterInit => Def "OpIterInit" []
  | OpIterNext => Def "OpIterNext" [2%nat; 1%nat]
  | OpMatchFail => Def "OpMatchFail" []
  | OpLess => Def "OpLess" []
  | OpLessEqual => Def "OpLessEqual" []
  end.

(** The constant a byte names, when it names one. *)
Definition opcode_of_byte (b : Z) : option Opcode :=
  if b <? 0 then None else all_constants !! Z.to_nat b.

(** [definitions[Opcode(b)]] as every reader of the table performs it. *)
Definition Lookup (b : Z) : option OpDef := definitions <$> opcode_of_byte b.

(** [AllOpcodes]: the loop over 0..0xFF keeping the defined ones. *)
Definition AllOpcodes : list Z :=
  filter (fun op => is_Some (Lookup op)) (seqZ 0 256).

(** [ConstantOperands]: the operand slots that index the constant pool. *)
Definition ConstantOperands (b : Z) : list nat :=
  match opcode_of_byte b with
  | Some OpConstant => [0%nat]
  | Some OpClosure => [0%nat]
  | Some OpMakeStruct => [0%nat]
  | Some OpGetField => [0%nat]
  | Some OpSetField => [0%nat]
  | Some OpEnumValue => [0%nat; 1%nat]
  | _ => []
  end.

(** [JumpOperands]: the operand slots that hold an absolute offset. *)
Definition JumpOperands (b : Z) : list nat :=
  match opcode_of_byte b with
  | Some OpJump => [0%nat]
  | Some OpJumpFalse => [0%nat]
  | Some OpIterNext => [0%nat]
  | _ => []
  end.

Definition BuiltinNameTableFlag : Z := 0x8000.

(* ------------------------------------------------------------------ *)
(** ** Encoding *)

(** [binary.BigEndian.PutUint16(l[at:], v)]. *)
Definition PutUint16 (l : list Z) (at_ : nat) (v : Z) : list Z :=
  <[at_ := v / 256]> (<[S at_ := v mod 256]> l).

(** [binary.BigEndian.Uint16(l[at:])]. *)
Definition Uint16 (l : list Z) (at_ : nat) : Z :=
  256 * (l !!! at_) + (l !!! S at_).

(** [checkOperandFits]: [Panic] is the panic of the source. *)
Definition checkOperandFits (operand : Z) (width : nat) : outcome unit :=
  let check (max : Z) :=
    if (operand <? 0) || (max <? operand) then Panic else Ret tt in
  match width with
  | 1%nat => check 0xFF
  | 2%nat => check 0xFFFF
  | _ => Ret tt
  end.

(** The loop of [Make] over the operands: [i] indexes [OperandWidths], and an
    [i] past its end is Go's index-out-of-range panic. *)
Fixpoint make_loop (def : OpDef) (i : nat) (operands : list Z) (offset : nat)
    (inst : list Z) : outcome (list Z) :=
  match operands with
  | [] => Ret inst
  | o :: rest =>
      match OperandWidths def !! i with
      | None => Panic
      | Some width =>
          let! _ := checkOperandFits o width in
          let inst' :=
            match width with
            | 1%nat => <[offset := u8 o]> inst
            | 2%nat => PutUint16 inst offset (u16 o)
            | _ => inst
            end in
          make_loop def (S i) rest (offset + width) inst'
      end
  end.

(** [Make]. *)
Definition Make (op : Z) (operands : list Z) : outcome (list Z) :=
  match Lookup op with
  | None => Ret []
  | Some def =>
      let inst := op :: replicate (nsum (OperandWidths def)) 0 in
      make_loop def 0 operands 1 inst
  end.

(** [ReadOperands]: the loop stops where an operand runs past the stream, and
    what it did not read keeps the zero of [make([]int, n)]. *)
Fixpoint read_loop (widths : list nat) (ins : list Z) (offset : nat) : list Z * nat :=
  match widths with
  | [] => ([], offset)
  | width :: rest =>
      if (length ins <? offset + width)%nat
      then (replicate (length widths) 0, offset)
      else
        let v :=
          match width with
          | 1%nat => ins !!! offset
          | 2%nat => Uint16 ins offset
          | _ => 0
          end in
        let '(vs, stop) := read_loop rest ins (offset + width) in
        (v :: vs, stop)
  end.

Definition ReadOperands (def : OpDef) (ins : list Z) : list Z * nat :=
  read_loop (OperandWidths def) ins 0.

(* ------------------------------------------------------------------ *)
(** ** Disassembly *)

(** [%04d] of a non-negative number. *)
Definition fmt04 (n : nat) : string :=
  let s := pretty (Z.of_nat n) in
  String.append (String.concat "" (replicate (4 - String.length s) "0"%string)) s.

(** [Instructions.fmtInstruction]. *)
Definition fmtInstruction (def : OpDef) (operands : list Z) : string :=
  if negb (length operands =? length (OperandWidths def))%nat then
    ("ERROR: operand len " +:+ pretty (zlen operands) +:+
     " does not match defined " +:+ pretty (zlen (OperandWidths def)) +:+ "
")%string
  else
    match operands with
    | [] => Name def
    | [a] => (Name def +:+ " " +:+ pretty a)%string
    | [a; b] => (Name def +:+ " " +:+ pretty a +:+ " " +:+ pretty b)%string
    | _ => ("ERROR: unhandled operandCount for " +:+ Name def +:+ "
")%string
    end.

(** The loop of [Instructions.String] at offset [i]; [None] is a loop that has
    not finished within [fuel] turns.  The error arm of the source continues
    without advancing [i], and so does this one. *)
Fixpoint string_loop (fuel : nat) (ins : list Z) (i : nat) (out : string) : option string :=
  match fuel with
  | O => None
  | S fuel =>
      if (i <? length ins)%nat then
        match Lookup (ins !!! i) with
        | None =>
            string_loop fuel ins i
              (out +:+ "ERROR: opcode " +:+ pretty (ins !!! i) +:+ " undefined
")%string
        | Some def =>
            let '(operands, read) := ReadOperands def (drop (S i) ins) in
            string_loop fuel ins (i + (1 + read))
              (out +:+ fmt04 i +:+ " " +:+ fmtInstruction def operands +:+ "
")%string
        end
      else Some out
  end.

(** [Instructions.String]: a turn per byte and one to leave is enough whenever
    the loop ends at all ([string_terminates] below). *)
Definition Instructions_String (ins : list Z) : option string :=
  string_loop (S (length ins)) ins 0 ""%string.

(** The bytes an operand of a given width occupies, and an operand list laid
    out after its opcode: the format [Make] writes, stated without offsets. *)
Definition operand_bytes (width : nat) (o : Z) : list Z :=
  match width with
  | 1%nat => [o]
  | 2%nat => [o / 256; o mod 256]
  | _ => replicate width 0
  end.

Fixpoint operands_bytes (widths : list nat) (operands : list Z) : list Z :=
  match widths, operands with
  | w :: ws, o :: os => operand_bytes w o ++ operands_bytes ws os
  | _, _ => replicate (nsum widths) 0
  end.

(** An operand its encoding can hold. *)
Definition operand_fits (width : nat) (o : Z) : Prop :=
  match width with
  | 1%nat => 0 <= o <= 0xFF
  | 2%nat => 0 <= o <= 0xFFFF
  | _ => True
  end.

(** The operands of an instruction: no more of them than the opcode has slots,
    each fitting its slot. *)
Definition operands_fit (widths : list nat) (operands : list Z) : Prop :=
  (length operands <= length widths)%nat /\
  forall i w o, widths !! i = Some w -> operands !! i = Some o -> operand_fits w o.

(** Every width in the table is one or two bytes. *)
Definition width_ok (w : nat) : Prop := w = 1%nat \/ w = 2%nat.

(* ------------------------------------------------------------------ *)
(** ** Lemmas *)

Lemma opcode_of_byte_byte op : opcode_of_byte (opcode_byte op) = Some op.
Proof. by destruct op. Qed.

Lemma opcode_byte_range op : 0 <= opcode_byte op <= 60.
Proof. destruct op; simpl; lia. Qed.

Lemma opcode_of_byte_Some b op : opcode_of_byte b = Some op -> b = opcode_byte op.
Proof.
  unfold opcode_of_byte. bcase; [done|]. intros H.
  assert (Hb : forall n, all_constants !! n = Some op -> Z.of_nat n = opcode_byte op).
  { intros n Hn. do 61 (destruct n as [|n]; [simplify_eq/=; done|]). done. }
  apply Hb in H. lia.
Qed.

Lemma Lookup_opcode op : Lookup (opcode_byte op) = Some (definitions op).
Proof. unfold Lookup. by rewrite opcode_of_byte_byte. Qed.

Lemma Lookup_Some b def :
  Lookup b = Some def -> exists op, b = opcode_byte op /\ def = definitions op.
Proof.
  unfold Lookup. destruct (opcode_of_byte b) as [op|] eqn:E; [|done].
  intros [= <-]. exists op. split; [by apply opcode_of_byte_Some | done].
Qed.

Lemma Lookup_range b def : Lookup b = Some def -> is_byte b.
Proof.
  intros (op & -> & _)%Lookup_Some. pose proof (opcode_byte_range op).
  unfold is_byte. lia.
Qed.

Lemma widths_ok b def : Lookup b = Some def -> Forall width_ok (OperandWidths def).
Proof.
  intros (op & _ & ->)%Lookup_Some. unfold width_ok.
  destruct op; cbn; repeat (apply Forall_cons; split; [by auto|]); apply Forall_nil_2.
Qed.

Lemma length_operand_bytes w o : length (operand_bytes w o) = w.
Proof. destruct w as [|[|[|w]]]; simpl; rewrite ?length_replicate; done. Qed.

Lemma length_operands_bytes ws os : length (operands_bytes ws os) = nsum ws.
Proof.
  revert os. induction ws as [|w ws IH]; intros [|o os];
    cbn [operands_bytes]; rewrite ?length_replicate; [done..|].
  rewrite length_app, length_operand_bytes, IH. done.
Qed.

Lemma operand_bytes_ok w o : width_ok w -> operand_fits w o -> is_bytes (operand_bytes w o).
Proof.
  intros [->| ->] Ho; simpl in *; repeat constructor; unfold is_byte; try lia.
  all: pose proof (Z.mod_pos_bound o 256); try lia.
  - apply Z.div_pos; lia.
  - apply Z.div_lt_upper_bound; lia.
Qed.

Lemma operands_fit_cons w ws o os :
  operands_fit (w :: ws) (o :: os) <-> operand_fits w o /\ operands_fit ws os.
Proof.
  unfold operands_fit. split.
  - intros [Hl H]. repeat split; [by apply (H 0%nat) | simpl in Hl; lia |].
    intros i. apply (H (S i)).
  - intros (Ho & Hl & H). split; [simpl; lia |].
    intros [|i]; simpl; [intros; by simplify_eq | apply H].
Qed.

Lemma operands_fit_nil ws : operands_fit ws [].
Proof. split; [simpl; lia | done]. Qed.

Lemma operands_bytes_ok ws os :
  Forall width_ok ws -> operands_fit ws os -> is_bytes (operands_bytes ws os).
Proof.
  intros Hw. revert os. induction Hw as [|w ws Hw Hws IH]; intros [|o os] Hf;
    cbn [operands_bytes].
  1-3: apply Forall_replicate; unfold is_byte; lia.
  apply operands_fit_cons in Hf as [Ho Hf].
  apply is_bytes_app; split; [by apply operand_bytes_ok | by apply IH].
Qed.

Lemma checkOperandFits_spec o w :
  width_ok w ->
  checkOperandFits o w = Ret tt /\ operand_fits w o \/
  checkOperandFits o w = Panic /\ ~ operand_fits w o.
Proof.
  intros [->| ->]; unfold checkOperandFits; simpl; bcases; [right|left|right|left];
    (split; [done|]); rewrite ?orb_true_iff in *; breflect; lia.
Qed.

(** The write of one operand at the cursor: it replaces its zero bytes. *)
Lemma write_operand pre w o rest :
  width_ok w -> operand_fits w o ->
  match w with
  | 1%nat => <[length pre := u8 o]> (pre ++ replicate w 0 ++ rest)
  | 2%nat => PutUint16 (pre ++ replicate w 0 ++ rest) (length pre) (u16 o)
  | _ => pre ++ replicate w 0 ++ rest
  end = pre ++ operand_bytes w o ++ rest.
Proof.
  intros [->| ->] Ho; simpl in *.
  - rewrite insert_app_at, u8_id; [done | unfold is_byte; lia].
  - unfold PutUint16. rewrite u16_id by lia.
    change (pre ++ 0 :: 0 :: rest) with (pre ++ [0] ++ 0 :: rest).
    rewrite app_assoc.
    replace (S (length pre)) with (length (pre ++ [0])) by (rewrite length_app; simpl; lia).
    rewrite insert_app_at, <- app_assoc. simpl. by rewrite insert_app_at.
Qed.

Lemma make_loop_spec def os i pre :
  Forall width_ok (OperandWidths def) ->
  operands_fit (drop i (OperandWidths def)) os ->
  make_loop def i os (length pre) (pre ++ replicate (nsum (drop i (OperandWidths def))) 0)
  = Ret (pre ++ operands_bytes (drop i (OperandWidths def)) os).
Proof.
  intros Hw. revert i pre. induction os as [|o os IH]; intros i pre Hf.
  { simpl. destruct (drop i _); done. }
  cbn [make_loop].
  destruct (OperandWidths def !! i) as [w|] eqn:Hi.
  - assert (Hd := drop_S _ _ _ Hi). rewrite Hd in Hf |- *.
    apply operands_fit_cons in Hf as [Ho Hf].
    assert (Hok : width_ok w) by (eapply Forall_lookup_1; eauto).
    destruct (checkOperandFits_spec o w Hok) as [[-> _]|[_ ?]]; [|done].
    cbn [outcome_bind operands_bytes nsum foldr].
    fold (nsum (drop (S i) (OperandWidths def))).
    rewrite replicate_add, write_operand by done.
    rewrite app_assoc.
    replace (length pre + w)%nat with (length (pre ++ operand_bytes w o))
      by (rewrite length_app, length_operand_bytes; done).
    rewrite IH by done. by rewrite <- app_assoc.
  - destruct Hf as [Hl _]. apply lookup_ge_None in Hi.
    rewrite length_drop in Hl. simpl in Hl. lia.
Qed.

Lemma make_loop_panics def os i offset inst :
  Forall width_ok (OperandWidths def) ->
  ~ operands_fit (drop i (OperandWidths def)) os ->
  make_loop def i os offset inst = Panic.
Proof.
  intros Hw. revert i offset inst. induction os as [|o os IH]; intros i offset inst Hf.
  { exfalso. apply Hf, operands_fit_nil. }
  simpl. destruct (OperandWidths def !! i) as [w|] eqn:Hi; [|done].
  rewrite (drop_S _ _ _ Hi), operands_fit_cons in Hf.
  assert (Hok : width_ok w) by (eapply Forall_lookup_1; eauto).
  destruct (checkOperandFits_spec o w Hok) as [[-> ?]|[-> _]]; [|done].
  apply IH. tauto.
Qed.

Lemma Make_spec b def os :
  Lookup b = Some def -> operands_fit (OperandWidths def) os ->
  Make b os = Ret (b :: operands_bytes (OperandWidths def) os).
Proof.
  intros Hb Hf. unfold Make. rewrite Hb.
  apply (make_loop_spec def os 0 [b]); rewrite ?drop_0; eauto using widths_ok.
Qed.

Lemma be16_roundtrip o : 0 <= o <= 0xFFFF -> 256 * (o / 256) + o mod 256 = o.
Proof. intros. symmetry. apply Z.div_mod. lia. Qed.

Lemma be16_byte a b : is_byte a -> is_byte b ->
  (256 * a + b) / 256 = a /\ (256 * a + b) mod 256 = b.
Proof.
  unfold is_byte. intros. split.
  - symmetry. apply (Z.div_unique_pos _ _ _ b); lia.
  - symmetry. apply (Z.mod_unique_pos _ _ a); lia.
Qed.

Lemma read_operand pre w o rest :
  width_ok w -> operand_fits w o ->
  match w with
  | 1%nat => (pre ++ operand_bytes w o ++ rest) !!! length pre
  | 2%nat => Uint16 (pre ++ operand_bytes w o ++ rest) (length pre)
  | _ => 0
  end = o.
Proof.
  intros [->| ->] Ho; simpl in *; unfold Uint16.
  - rewrite lookup_total_app_r, Nat.sub_diag by lia. done.
  - rewrite !lookup_total_app_r by lia.
    rewrite Nat.sub_diag, Nat.sub_succ_l, Nat.sub_diag by lia. simpl.
    by apply be16_roundtrip.
Qed.

Lemma read_loop_spec ws os pre rest :
  Forall width_ok ws -> operands_fit ws os -> length os = length ws ->
  read_loop ws (pre ++ operands_bytes ws os ++ rest) (length pre)
  = (os, (length pre + nsum ws)%nat).
Proof.
  intros Hw. revert os pre. induction Hw as [|w ws Hw Hws IH]; intros [|o os] pre Hf Hl;
    simplify_eq/=; [f_equal; lia|].
  apply operands_fit_cons in Hf as [Ho Hf].
  rewrite <- !app_assoc, read_operand by done.
  bcase.
  { rewrite !length_app, length_operand_bytes in *. lia. }
  rewrite app_assoc.
  replace (length pre + w)%nat with (length (pre ++ operand_bytes w o))
    by (rewrite length_app, length_operand_bytes; done).
  rewrite IH by (done || lia).
  f_equal. rewrite length_app, length_operand_bytes. unfold nsum. simpl. lia.
Qed.
