(* ===== verification/Stream.v ===== *)
(** Instruction streams.

    Several passes of the program walk a [code.Instructions] byte slice
    instruction by instruction, using the operand widths of [code.Lookup]:
    the disassembler, the polymorphic engine's passes, the compiler's cell
    boxing, the VM's boundary map.  This file gives the walks a structured
    counterpart, a list of decoded instructions, and the lemmas that relate a
    byte cursor to a position in that list; the files that model the passes
    state their theorems on the structured side.  It also proves what the
    disassembler of [Code.v] does on whole streams. *)

From stdpp Require Import base list list_numbers numbers sets strings pretty.
From Stdlib Require Import ZArith Lia.
From S2P Require Import Prelude Code.

(* ------------------------------------------------------------------ *)
(** ** Structured streams *)

(** One decoded instruction. *)
Record instr : Type := Instr { iop : Opcode; iargs : list Z }.

Definition iwidths (i : instr) : list nat := OperandWidths (definitions (iop i)).

(** The operands match the opcode's slots and fit them. *)
Definition instr_ok (i : instr) : Prop :=
  length (iargs i) = length (iwidths i) /\ operands_fit (iwidths i) (iargs i).

(** [width := 1; for _, w := range def.OperandWidths { width += w }]. *)
Definition def_width (def : OpDef) : nat := (1 + nsum (OperandWidths def))%nat.

Definition instr_width (i : instr) : nat := def_width (definitions (iop i)).

(** The bytes of an instruction, of a stream, and the offsets the
    instructions of a stream start at. *)
Definition instr_bytes (i : instr) : list Z :=
  opcode_byte (iop i) :: operands_bytes (iwidths i) (iargs i).

Fixpoint encode (is_ : list instr) : list Z :=
  match is_ with
  | [] => []
  | i :: rest => instr_bytes i ++ encode rest
  end.

Fixpoint starts_from (off : nat) (is_ : list instr) : list nat :=
  match is_ with
  | [] => []
  | i :: rest => off :: starts_from (off + instr_width i) rest
  end.

(** The operands a run of operand bytes spells. *)
Fixpoint decode_operands (widths : list nat) (bs : list Z) : list Z :=
  match widths with
  | [] => []
  | w :: ws =>
      match w with
      | 1%nat => bs !!! 0%nat
      | _ => Uint16 bs 0
      end :: decode_operands ws (drop w bs)
  end.

(** The line [Instructions.String] prints for an instruction at [off]. *)
Definition disasm_line (off : nat) (i : instr) : string :=
  (fmt04 off +:+ " " +:+ fmtInstruction (definitions (iop i)) (iargs i) +:+ "
")%string.

Fixpoint disasm (off : nat) (is_ : list instr) (out : string) : string :=
  match is_ with
  | [] => out
  | i :: rest => disasm (off + instr_width i) rest (out +:+ disasm_line off i)%string
  end.

(* ------------------------------------------------------------------ *)
(** ** Lemmas *)

Lemma iwidths_ok i : Forall width_ok (iwidths i).
Proof. eapply widths_ok, Lookup_opcode. Qed.

Lemma length_instr_bytes i : length (instr_bytes i) = instr_width i.
Proof. unfold instr_bytes, instr_width, def_width. simpl. by rewrite length_operands_bytes. Qed.

Lemma instr_width_pos i : (0 < instr_width i)%nat.
Proof. unfold instr_width, def_width. lia. Qed.

Lemma instr_bytes_ok i : instr_ok i -> is_bytes (instr_bytes i).
Proof.
  intros [_ Hf]. constructor.
  - eapply Lookup_range, Lookup_opcode.
  - apply operands_bytes_ok; [apply iwidths_ok | done].
Qed.

Lemma encode_app l k : encode (l ++ k) = encode l ++ encode k.
Proof. induction l as [|i l IH]; cbn [encode app]; [done|]. by rewrite IH, app_assoc. Qed.

Lemma encode_snoc l i : encode (l ++ [i]) = encode l ++ instr_bytes i.
Proof. rewrite encode_app. cbn [encode]. by rewrite app_nil_r. Qed.

Lemma encode_ok l : Forall instr_ok l -> is_bytes (encode l).
Proof.
  induction 1; cbn [encode]; [constructor|].
  rewrite is_bytes_app. auto using instr_bytes_ok.
Qed.

Lemma length_starts_from off l : length (starts_from off l) = length l.
Proof. revert off. induction l as [|i l IH]; intros off; simpl; [done|]. by rewrite IH. Qed.

Lemma starts_from_app off l k :
  starts_from off (l ++ k) = starts_from off l ++ starts_from (off + length (encode l)) k.
Proof.
  revert off. induction l as [|i l IH]; intros off;
    cbn [encode app starts_from length]; [f_equal; lia|].
  rewrite IH, length_app, length_instr_bytes. do 3 f_equal. lia.
Qed.

Lemma starts_from_lookup off l n i :
  l !! n = Some i ->
  starts_from off l !! n = Some (off + length (encode (take n l)))%nat.
Proof.
  revert off n. induction l as [|j l IH]; intros off [|n] H;
    cbn [starts_from take encode length lookup list_lookup] in *; simplify_eq.
  - f_equal. lia.
  - rewrite (IH _ _ H). f_equal. rewrite length_app, length_instr_bytes. lia.
Qed.

Lemma starts_from_range off l s :
  s ∈ starts_from off l -> (off <= s < off + length (encode l))%nat.
Proof.
  revert off. induction l as [|i l IH]; intros off Hs;
    cbn [starts_from encode] in *.
  - by apply not_elem_of_nil in Hs.
  - rewrite length_app, length_instr_bytes. pose proof (instr_width_pos i).
    apply elem_of_cons in Hs as [->|Hs]; [lia|]. apply IH in Hs. lia.
Qed.

(** Reading the stream at an instruction start. *)
Lemma encode_at pre i post :
  (pre ++ instr_bytes i ++ post) !!! length pre = opcode_byte (iop i).
Proof. rewrite lookup_total_app_r, Nat.sub_diag by lia. done. Qed.

Lemma encode_at_lookup pre i post :
  Lookup ((pre ++ instr_bytes i ++ post) !!! length pre) = Some (definitions (iop i)).
Proof. by rewrite encode_at, Lookup_opcode. Qed.

Lemma cursor_next pre i :
  (length pre + instr_width i)%nat = length (pre ++ instr_bytes i).
Proof. by rewrite length_app, length_instr_bytes. Qed.

Lemma cursor_fits pre i post :
  (length pre + instr_width i <= length (pre ++ instr_bytes i ++ post))%nat.
Proof. rewrite !length_app, length_instr_bytes. lia. Qed.

Lemma cursor_inside pre i post :
  (length pre < length (pre ++ instr_bytes i ++ post))%nat.
Proof. pose proof (cursor_fits pre i post). pose proof (instr_width_pos i). lia. Qed.

(** Every run of operand bytes of the right length spells operands. *)
Lemma decode_operands_spec ws bs :
  Forall width_ok ws -> is_bytes bs -> length bs = nsum ws ->
  operands_bytes ws (decode_operands ws bs) = bs /\
  length (decode_operands ws bs) = length ws /\
  operands_fit ws (decode_operands ws bs).
Proof.
  intros Hw. revert bs. induction Hw as [|w ws Hw Hws IH]; intros bs Hb Hl.
  - destruct bs; [|done]. repeat split; [simpl; lia | done].
  - cbn [nsum foldr] in Hl. fold (nsum ws) in Hl.
    assert (Hd : is_bytes (drop w bs)) by (by apply Forall_drop).
    destruct (IH (drop w bs) Hd) as (IH1 & IH2 & IH3); [rewrite length_drop; lia|].
    cbn [decode_operands operands_bytes length].
    destruct Hw as [->| ->].
    + destruct bs as [|b bs]; [simpl in Hl; lia|].
      apply Forall_cons in Hb as [Hb _]. unfold is_byte in Hb. simpl in *.
      rewrite IH1, IH2. split; [done|]. split; [done|].
      apply operands_fit_cons; split; [simpl; lia | done].
    + destruct bs as [|b [|c bs]]; [simpl in Hl; lia..|].
      apply Forall_cons in Hb as [Hb Hc]. apply Forall_cons in Hc as [Hc _].
      unfold Uint16. simpl in *. destruct (be16_byte b c Hb Hc) as [-> ->].
      rewrite IH1, IH2. unfold is_byte in *. split; [done|]. split; [done|].
      apply operands_fit_cons; split; [simpl; lia | done].
Qed.

(** The instruction standing at a cursor, when the opcode is defined and the
    instruction does not run off the end. *)
Lemma decode_instr pre rest def :
  is_bytes rest -> rest <> [] ->
  Lookup (rest !!! 0%nat) = Some def ->
  (def_width def <= length rest)%nat ->
  exists i, instr_ok i /\ def = definitions (iop i) /\
    rest = instr_bytes i ++ drop (def_width def) rest /\
    pre ++ rest = (pre ++ instr_bytes i) ++ drop (def_width def) rest.
Proof.
  intros Hb Hne Hl Hw. destruct rest as [|b rest]; [done|].
  apply Forall_cons in Hb as [_ Hb]. simpl in Hl.
  destruct (Lookup_Some _ _ Hl) as (op & -> & ->).
  unfold def_width in *. simpl in Hw.
  set (ws := OperandWidths (definitions op)) in *.
  destruct (decode_operands_spec ws (take (nsum ws) rest)) as (E & Hlen & Hf).
  { eapply widths_ok, Lookup_opcode. }
  { by apply Forall_take. }
  { rewrite length_take. lia. }
  exists (Instr op (decode_operands ws (take (nsum ws) rest))).
  assert (Hr : opcode_byte op :: rest =
    instr_bytes (Instr op (decode_operands ws (take (nsum ws) rest))) ++ drop (nsum ws) rest).
  { unfold instr_bytes, iwidths. simpl. fold ws. rewrite E. by rewrite take_drop. }
  split; [by split|]. split; [done|]. split; [exact Hr|].
  rewrite <- app_assoc. f_equal. exact Hr.
Qed.

(** The same at a cursor into a whole stream, as the walks meet it. *)
Lemma decode_at ins i def :
  is_bytes ins -> (i < length ins)%nat -> Lookup (ins !!! i) = Some def ->
  (i + def_width def <= length ins)%nat ->
  exists j, instr_ok j /\ def = definitions (iop j) /\
    drop i ins = instr_bytes j ++ drop (i + def_width def) ins.
Proof.
  intros Hb Hi Hl Hw. destruct (decode_instr [] (drop i ins) def) as (j & Hj & -> & Hr & _).
  - by apply Forall_drop.
  - intros E. apply (f_equal length) in E. rewrite length_drop in E. simpl in E. lia.
  - by rewrite lookup_total_drop, Nat.add_0_r.
  - rewrite length_drop. lia.
  - exists j. by rewrite drop_drop in Hr.
Qed.

(** The opcode and the operands of an instruction determine its bytes, and
    conversely: the stream format is a prefix code. *)
Lemma instr_bytes_inj i j r r' :
  instr_ok i -> instr_ok j ->
  instr_bytes i ++ r = instr_bytes j ++ r' -> i = j /\ r = r'.
Proof.
  destruct i as [op a], j as [op' a'].
  intros [Hi Hfi] [Hj Hfj] H. unfold instr_bytes, iwidths in *. simpl in *.
  injection H as Hop H.
  assert (op = op') as <-.
  { apply (inj Some). by rewrite <- !opcode_of_byte_byte, Hop. }
  assert (Ha := read_loop_spec _ a [] r (iwidths_ok (Instr op a)) Hfi Hi).
  assert (Ha' := read_loop_spec _ a' [] r' (iwidths_ok (Instr op a')) Hfj Hj).
  unfold iwidths in *. simpl in *. rewrite H, Ha' in Ha. injection Ha as <-.
  split; [done|]. by apply app_inv_head in H.
Qed.

Lemma instr_bytes_cons_ne i l : instr_bytes i ++ l <> [].
Proof. done. Qed.

Lemma encode_inj l k : Forall instr_ok l -> Forall instr_ok k -> encode l = encode k -> l = k.
Proof.
  intros Hl. revert k. induction Hl as [|i l Hi Hl IH]; intros [|j k] Hk; cbn [encode]; [done..|].
  apply Forall_cons in Hk as [Hj Hk].
  intros [-> E]%instr_bytes_inj; [|done..]. by rewrite (IH k).
Qed.

(** The disassembler on a decodable prefix. *)
Lemma string_loop_encode fuel l pre post out :
  Forall instr_ok l ->
  string_loop (length l + fuel) (pre ++ encode l ++ post) (length pre) out
  = string_loop fuel (pre ++ encode l ++ post) (length (pre ++ encode l))
      (disasm (length pre) l out).
Proof.
  intros Hl. revert pre out. induction Hl as [|i l [Hlen Hf] Hl IH]; intros pre out.
  { simpl. by rewrite app_nil_r. }
  cbn [length Nat.add string_loop encode disasm]. rewrite <- !app_assoc.
  rewrite (proj2 (Nat.ltb_lt _ _) (cursor_inside _ _ _)), encode_at_lookup.
  assert (Hd : drop (S (length pre)) (pre ++ instr_bytes i ++ encode l ++ post)
    = operands_bytes (iwidths i) (iargs i) ++ encode l ++ post).
  { replace (S (length pre)) with (length (pre ++ [opcode_byte (iop i)]))
      by (rewrite length_app; simpl; lia).
    change (instr_bytes i ++ encode l ++ post)
      with ([opcode_byte (iop i)] ++ operands_bytes (iwidths i) (iargs i) ++ encode l ++ post).
    by rewrite app_assoc, drop_app_at. }
  rewrite Hd. unfold ReadOperands. fold (iwidths i).
  pose proof (read_loop_spec _ (iargs i) [] (encode l ++ post) (iwidths_ok i) Hf Hlen) as Hr.
  simpl in Hr. rewrite Hr. clear Hr Hd.
  change (S (nsum (iwidths i))) with (instr_width i).
  rewrite cursor_next, (app_assoc pre), IH.
  by rewrite <- !app_assoc.
Qed.

Lemma string_loop_stuck fuel ins i out :
  (i < length ins)%nat -> Lookup (ins !!! i) = None -> string_loop fuel ins i out = None.
Proof.
  intros Hi Hn. revert out. induction fuel as [|fuel IH]; intros out; [done|].
  simpl. rewrite (proj2 (Nat.ltb_lt _ _) Hi), Hn. apply IH.
Qed.

Lemma string_loop_mono f g ins i o :
  string_loop f ins i o = None \/ string_loop (g + f) ins i o = string_loop f ins i o.
Proof.
  revert i o. induction f as [|f IH]; intros i o; [by left|].
  rewrite Nat.add_succ_r. cbn [string_loop]. bcase; [|by right].
  destruct (Lookup (ins !!! i)); [|apply IH]. destruct (ReadOperands _ _). apply IH.
Qed.

Lemma length_encode_ge l : (length l <= length (encode l))%nat.
Proof.
  induction l as [|i l IH]; cbn [encode length]; [lia|].
  rewrite length_app, length_instr_bytes. pose proof (instr_width_pos i). lia.
Qed.

Lemma string_loop_done fuel ins i out :
  (length ins <= i)%nat -> string_loop (S fuel) ins i out = Some out.
Proof. intros Hi. simpl. by rewrite (proj2 (Nat.ltb_ge _ _) Hi). Qed.

(* ------------------------------------------------------------------ *)
(** ** Properties of the encoder and the disassembler *)

(** For every opcode of the table and every operand list that fills its
    slots within their widths, [Make] produces an instruction whose first byte
    is the opcode and from which [ReadOperands] reads the same operands back,
    consuming exactly the operand bytes whatever follows them. *)
Theorem make_read_roundtrip (op : Opcode) (operands : list Z) (rest : list Z) :
  length operands = length (OperandWidths (definitions op)) ->
  operands_fit (OperandWidths (definitions op)) operands ->
  exists body,
    Make (opcode_byte op) operands = Ret (opcode_byte op :: body) /\
    is_bytes (opcode_byte op :: body) /\
    length body = nsum (OperandWidths (definitions op)) /\
    ReadOperands (definitions op) (body ++ rest) = (operands, length body).
Proof.
  intros Hl Hf. set (i := Instr op operands).
  exists (operands_bytes (iwidths i) operands). repeat split.
  - by apply Make_spec, Hf; apply Lookup_opcode.
  - by apply (instr_bytes_ok i).
  - apply length_operands_bytes.
  - rewrite length_operands_bytes.
    by apply (read_loop_spec _ operands [] rest (iwidths_ok i)).
Qed.

Lemma make_read_roundtrip_witness :
  exists body,
    Make (opcode_byte OpClosure) [513; 7] = Ret (opcode_byte OpClosure :: body) /\
    is_bytes (opcode_byte OpClosure :: body) /\
    length body = nsum (OperandWidths (definitions OpClosure)) /\
    ReadOperands (definitions OpClosure) (body ++ [9]) = ([513; 7], length body).
Proof.
  apply (make_read_roundtrip OpClosure [513; 7] [9]); [reflexivity|].
  split; [simpl; lia|].
  intros [|[|i]] w o; simpl; intros; simplify_eq/=; simpl; lia.
Defined.

(** [Make] never truncates.  On a defined opcode it either returns the
    full-width encoding of operands that all fit, or it panics, and it panics
    exactly when there are more operands than slots or one does not fit. *)
Theorem make_never_truncates (op : Opcode) (operands : list Z) :
  let ws := OperandWidths (definitions op) in
  (operands_fit ws operands /\
   Make (opcode_byte op) operands = Ret (opcode_byte op :: operands_bytes ws operands)) \/
  (~ operands_fit ws operands /\ Make (opcode_byte op) operands = Panic).
Proof.
  intros ws. assert (Hw := widths_ok _ _ (Lookup_opcode op)).
  assert (operands_fit ws operands \/ ~ operands_fit ws operands) as [Hf|Hf].
  { clear Hw. revert operands. induction ws as [|w ws IH]; intros [|o os];
      [left; apply operands_fit_nil | | left; apply operands_fit_nil |].
    { right. intros [Hl _]. simpl in Hl. lia. }
    rewrite operands_fit_cons.
    assert (operand_fits w o \/ ~ operand_fits w o).
    { destruct w as [|[|[|w]]]; simpl; auto; lia. }
    destruct (IH os); tauto. }
  - left. split; [done|]. by apply Make_spec; [apply Lookup_opcode|].
  - right. split; [done|]. unfold Make. rewrite Lookup_opcode.
    by apply make_loop_panics; [|rewrite drop_0].
Qed.

(** The disassembler prints exactly one line per instruction, in order,
    each at the instruction's own offset, and it returns on every stream the
    encoder can produce. *)
Theorem disassembler_total (l : list instr) :
  Forall instr_ok l -> Instructions_String (encode l) = Some (disasm 0 l "").
Proof.
  intros Hl. unfold Instructions_String.
  replace (S (length (encode l)))
    with (length l + S (length (encode l) - length l))%nat
    by (pose proof (length_encode_ge l); lia).
  pose proof (string_loop_encode (S (length (encode l) - length l)) l [] [] ""%string Hl) as H.
  simpl in H. rewrite app_nil_r in H. rewrite H. by apply string_loop_done.
Qed.

Lemma disassembler_total_witness :
  Instructions_String (encode [Instr OpConstant [2]; Instr OpPop []])
  = Some (disasm 0 [Instr OpConstant [2]; Instr OpPop []] "").
Proof.
  apply (disassembler_total [Instr OpConstant [2]; Instr OpPop []]).
  repeat constructor; simpl; try lia; intros [|?] ??; simpl; intros; simplify_eq/=; simpl; lia.
Defined.

(** The disassembler does not return on a stream in which decodable
    instructions are followed by a byte that is no opcode: no number of turns
    of its loop is enough, because the error arm does not advance. *)
Theorem disassembler_diverges (l : list instr) (b : Z) (rest : list Z) :
  Forall instr_ok l -> Lookup b = None ->
  forall fuel, string_loop fuel (encode l ++ b :: rest) 0 "" = None.
Proof.
  intros Hl Hb fuel.
  destruct (string_loop_mono fuel (length l) (encode l ++ b :: rest) 0 "")
    as [|H]; [done|].
  pose proof (string_loop_encode fuel l [] (b :: rest) "" Hl) as E. simpl in E.
  rewrite <- H, E. apply string_loop_stuck.
  - rewrite length_app. simpl. lia.
  - rewrite lookup_total_app_r, Nat.sub_diag by lia. done.
Qed.

Lemma disassembler_diverges_witness :
  string_loop 1000 (encode [Instr OpTrue []] ++ 255 :: [3]) 0 "" = None.
Proof.
  apply (disassembler_diverges [Instr OpTrue []] 255 [3]); [|reflexivity].
  repeat constructor; simpl; try lia; intros ???; simpl; intros; simplify_eq/=.
Defined.

(** Opcode table facts every table reader relies on.  [AllOpcodes] lists
    exactly the bytes the table defines, in ascending order; a slot listed as
    a constant index or a jump target exists and is two bytes wide; and no
    slot is both. *)
Theorem opcode_table_sound :
  AllOpcodes = opcode_byte <$> all_constants /\
  (forall b def k, Lookup b = Some def -> (k ∈ ConstantOperands b \/ k ∈ JumpOperands b) ->
     OperandWidths def !! k = Some 2%nat) /\
  (forall b k, k ∈ ConstantOperands b -> k ∉ JumpOperands b).
Proof.
  split; [vm_compute; reflexivity|]. split.
  - intros b def k (op & -> & ->)%Lookup_Some.
    unfold ConstantOperands, JumpOperands. rewrite opcode_of_byte_byte.
    destruct op; cbn; intros [H|H];
      repeat (apply elem_of_cons in H as [->|H]; [done|]); by apply not_elem_of_nil in H.
  - intros b k. unfold ConstantOperands, JumpOperands.
    destruct (opcode_of_byte b) as [[]|]; set_solver.
Qed.
