(* ===== verification/LineTable.v ===== *)
(** Source positions: [src/code/linetable.go] and [src/code/lineindex.go].

    [Uvarint]/[PutUvarint]/[Varint]/[PutVarint] are Go's [encoding/binary]
    routines on 64-bit words; [forEach], [At], [Remap] and the builder
    operations are the methods of [LineTable] and [LineTableBuilder];
    [BuildLineIndex] and [LineIndex_At] the reverse index a debugger uses.
    Positions are Go [int]s, with the wrap-around of the accumulating decoder
    written out. *)

From stdpp Require Import base list list_numbers numbers gmap sets sorting.
From Stdlib Require Import ZArith Lia.
From S2P Require Import Prelude.

(* ------------------------------------------------------------------ *)
(** ** Varints (encoding/binary) *)

Definition MaxVarintLen64 : nat := 10.

(** [PutUvarint]: the loop over [x >= 0x80]; the buffer holds
    [MaxVarintLen64] bytes, which is the fuel. *)
Fixpoint put_uvarint (fuel : nat) (x : Z) : list Z :=
  match fuel with
  | O => []
  | S fuel =>
      if x <? 0x80 then [u8 x]
      else Z.lor (u8 x) 0x80 :: put_uvarint fuel (Z.shiftr x 7)
  end.

Definition PutUvarint (x : Z) : list Z := put_uvarint MaxVarintLen64 x.

(** [PutVarint]: zig-zag, then [PutUvarint]. *)
Definition zigzag (x : Z) : Z :=
  let ux := u64 (Z.shiftl (u64 x) 1) in
  if x <? 0 then u64 (Z.lnot ux) else ux.

Definition PutVarint (x : Z) : list Z := PutUvarint (zigzag x).

(** [Uvarint]: the value and the number of bytes read, 0 when the buffer ends
    inside the varint, negative on overflow. *)
Fixpoint uvarint_loop (buf : list Z) (i : nat) (x : Z) (s : Z) : Z * Z :=
  match buf with
  | [] => (0, 0)
  | b :: buf =>
      if (i =? MaxVarintLen64)%nat then (0, - (Z.of_nat i + 1))
      else if b <? 0x80 then
        if (i =? MaxVarintLen64 - 1)%nat && (1 <? b) then (0, - (Z.of_nat i + 1))
        else (Z.lor x (u64 (Z.shiftl b s)), Z.of_nat i + 1)
      else
        uvarint_loop buf (S i) (Z.lor x (u64 (Z.shiftl (Z.land b 0x7f) s))) (s + 7)
  end.

Definition Uvarint (buf : list Z) : Z * Z := uvarint_loop buf 0 0 0.

Definition unzigzag (ux : Z) : Z :=
  let x := i64 (Z.shiftr ux 1) in
  if negb (Z.land ux 1 =? 0) then Z.lnot x else x.

Definition Varint (buf : list Z) : Z * Z :=
  let '(ux, n) := Uvarint buf in (unzigzag ux, n).

(* ------------------------------------------------------------------ *)
(** ** The table *)

(** [type lineEntry struct]. *)
Record lineEntry : Type := Entry { e_ip : Z; e_line : Z; e_col : Z }.

(** [LineTable.forEach]: [visit] threads the caller's captured variables and
    answers whether to go on.  Every turn consumes at least three bytes, so
    [length t] turns and one to leave are enough. *)
Fixpoint forEach_loop {A : Type} (fuel : nat) (visit : A -> lineEntry -> A * bool)
    (t : list Z) (pos : nat) (entry : lineEntry) (acc : A) : A :=
  match fuel with
  | O => acc
  | S fuel =>
      if (pos <? length t)%nat then
        let '(ipDelta, n) := Uvarint (drop pos t) in
        if n <=? 0 then acc else
        let pos := (pos + Z.to_nat n)%nat in
        let '(lineDelta, n) := Varint (drop pos t) in
        if n <=? 0 then acc else
        let pos := (pos + Z.to_nat n)%nat in
        let '(colDelta, n) := Varint (drop pos t) in
        if n <=? 0 then acc else
        let pos := (pos + Z.to_nat n)%nat in
        let entry := Entry (i64 (e_ip entry + i64 ipDelta))
                           (i64 (e_line entry + lineDelta))
                           (i64 (e_col entry + colDelta)) in
        let '(acc, more) := visit acc entry in
        if more then forEach_loop fuel visit t pos entry acc else acc
      else acc
  end.

Definition forEach {A : Type} (t : list Z) (visit : A -> lineEntry -> A * bool) (acc : A) : A :=
  forEach_loop (S (length t)) visit t 0 (Entry 0 0 0) acc.

(** [LineTable.Empty]. *)
Definition Empty (t : list Z) : bool := (length t =? 0)%nat.

(** [LineTable.At]: [None] is [ok = false]. *)
Definition At (t : list Z) (ip : Z) : option (Z * Z) :=
  if (length t =? 0)%nat || (ip <? 0) then None
  else
    let visit (acc : Z * Z * bool) (entry : lineEntry) :=
      if ip <? e_ip entry then (acc, false)
      else ((e_line entry, e_col entry, true), true) in
    let '(line, col, found) := forEach t visit (0, 0, false) in
    if negb found || (line <=? 0) then None else Some (line, col).

(** [LineTableBuilder]. *)
Record LineTableBuilder : Type := Builder {
  buf : list Z; lastIP : Z; lastLn : Z; lastCol : Z; started : bool }.

Definition zeroBuilder : LineTableBuilder := Builder [] 0 0 0 false.

(** [add]. *)
Definition add (b : LineTableBuilder) (ip line col : Z) : LineTableBuilder :=
  if ip <? 0 then b
  else if started b && (ip <? lastIP b) then b
  else if started b && ((line =? lastLn b) && (col =? lastCol b)) then b
  else
    Builder (buf b ++ PutUvarint (u64 (ip - lastIP b))
                   ++ PutVarint (i64 (line - lastLn b))
                   ++ PutVarint (i64 (col - lastCol b)))
            ip line col true.

(** [Add] and [AddOrReset]. *)
Definition Add (b : LineTableBuilder) (ip line col : Z) : LineTableBuilder :=
  if line <=? 0 then b else add b ip line col.

Definition AddOrReset (b : LineTableBuilder) (ip line col : Z) : LineTableBuilder :=
  if line <=? 0 then if started b then add b ip 0 0 else b
  else add b ip line col.

(** [Build]: the nil table and the empty one are the same list. *)
Definition Build (b : LineTableBuilder) : list Z := buf b.

(** [Remap]: a nil [offsets] is [None]. *)
Definition Remap (t : list Z) (offsets : option (gmap Z Z)) : list Z :=
  match offsets with
  | None => []
  | Some offsets =>
      if (length t =? 0)%nat then []
      else
        let visit (out : LineTableBuilder) (entry : lineEntry) :=
          (match offsets !! e_ip entry with
           | Some moved => AddOrReset out moved (e_line entry) (e_col entry)
           | None => out
           end, true) in
        Build (forEach t visit zeroBuilder)
  end.

(* ------------------------------------------------------------------ *)
(** ** The reverse index *)

(** [type LineIndex struct]. *)
Record LineIndex : Type := Index { firstIP : gmap Z Z; lines : list Z }.

(** [BuildLineIndex]; [sort.Ints] is the final [merge_sort]. *)
Definition BuildLineIndex (t : list Z) : LineIndex :=
  let visit (index : LineIndex) (entry : lineEntry) :=
    (if e_line entry <=? 0 then index
     else match firstIP index !! e_line entry with
          | Some _ => index
          | None => Index (<[e_line entry := e_ip entry]> (firstIP index))
                          (lines index ++ [e_line entry])
          end, true) in
  let index := forEach t visit (Index ∅ []) in
  Index (firstIP index) (merge_sort Z.le (lines index)).

(** [sort.SearchInts(a, x)], by the halving loop of [sort.Search]; the
    interval shrinks every turn, so its length is fuel enough. *)
Fixpoint search_loop (fuel : nat) (a : list Z) (x : Z) (i j : nat) : nat :=
  match fuel with
  | O => i
  | S fuel =>
      if (i <? j)%nat then
        let h := ((i + j) / 2)%nat in
        if a !!! h <? x then search_loop fuel a x (S h) j
        else search_loop fuel a x i h
      else i
  end.

Definition SearchInts (a : list Z) (x : Z) : nat :=
  search_loop (S (length a)) a x 0 (length a).

(** [LineIndex.At]: the offset and the line it came from. *)
Definition LineIndex_At (ix : LineIndex) (line : Z) : option (Z * Z) :=
  if (length (lines ix) =? 0)%nat || (line <=? 0) then None
  else
    let at_ := SearchInts (lines ix) line in
    if (length (lines ix) <=? at_)%nat then None
    else
      let bound := lines ix !!! at_ in
      Some (default 0 (firstIP ix !! bound), bound).

(** [LineIndex.Lines] and [LineIndex.Empty]. *)
Definition Lines (ix : LineIndex) : list Z := lines ix.
Definition LineIndex_Empty (ix : LineIndex) : bool := (length (lines ix) =? 0)%nat.

(** What the table means.  A call of the compiler is [Add] or [AddOrReset];
    [effect] is what it asks to record: nothing, or a position at an offset,
    where line 0 says the coverage ends. *)
Inductive call : Type :=
| CAdd (ip line col : Z)
| CAddOrReset (ip line col : Z).

Definition run_call (b : LineTableBuilder) (c : call) : LineTableBuilder :=
  match c with
  | CAdd ip line col => Add b ip line col
  | CAddOrReset ip line col => AddOrReset b ip line col
  end.

Definition call_ip (c : call) : Z :=
  match c with CAdd ip _ _ | CAddOrReset ip _ _ => ip end.

Definition call_effect (c : call) : option lineEntry :=
  match c with
  | CAdd ip line col => if line <=? 0 then None else Some (Entry ip line col)
  | CAddOrReset ip line col => Some (if line <=? 0 then Entry ip 0 0 else Entry ip line col)
  end.

Definition call_ok (c : call) : Prop :=
  match c with
  | CAdd ip line col | CAddOrReset ip line col =>
      0 <= ip < 2 ^ 63 /\ is_i64 line /\ is_i64 col
  end.

(** The position in force at [ip]: that of the last entry at or before it. *)
Fixpoint in_force (es : list lineEntry) (ip : Z) (cur : Z * Z) : Z * Z :=
  match es with
  | [] => cur
  | e :: es => in_force es ip (if e_ip e <=? ip then (e_line e, e_col e) else cur)
  end.

(** A position as a reader sees it: line 0 or below is no position. *)
Definition visible (p : Z * Z) : option (Z * Z) :=
  if p.1 <=? 0 then None else Some p.

(** The bytes of one entry after [prev], and of a list of entries. *)
Definition entry_bytes (prev e : lineEntry) : list Z :=
  PutUvarint (u64 (e_ip e - e_ip prev)) ++
  PutVarint (i64 (e_line e - e_line prev)) ++ PutVarint (i64 (e_col e - e_col prev)).

Fixpoint entries_bytes (prev : lineEntry) (es : list lineEntry) : list Z :=
  match es with
  | [] => []
  | e :: es => entry_bytes prev e ++ entries_bytes e es
  end.

(** Entries in emission order, within Go's [int]. *)
Definition entry_ok (e : lineEntry) : Prop :=
  0 <= e_ip e < 2 ^ 63 /\ is_i64 (e_line e) /\ is_i64 (e_col e).

Fixpoint entries_ok (prev : lineEntry) (es : list lineEntry) : Prop :=
  match es with
  | [] => True
  | e :: es => entry_ok e /\ e_ip prev <= e_ip e /\ entries_ok e es
  end.

Definition no_entry : lineEntry := Entry 0 0 0.

(** A visitor run over a list instead of a table. *)
Fixpoint visit_list {A : Type} (visit : A -> lineEntry -> A * bool)
    (es : list lineEntry) (acc : A) : A :=
  match es with
  | [] => acc
  | e :: es => let '(acc, more) := visit acc e in
               if more then visit_list visit es acc else acc
  end.

(* ------------------------------------------------------------------ *)
(** ** Varint lemmas *)

Lemma lor_shift x b s : 0 <= s -> 0 <= x < 2 ^ s -> Z.lor x (Z.shiftl b s) = x + b * 2 ^ s.
Proof.
  intros Hs Hx. rewrite <- Z.shiftl_mul_pow2 by done.
  symmetry. apply Z.add_nocarry_lor, Z.bits_inj'. intros n Hn.
  rewrite Z.land_spec, Z.shiftl_spec, Z.bits_0 by done.
  destruct (Z.lt_ge_cases n s).
  - rewrite (Z.testbit_neg_r b) by lia. apply andb_false_r.
  - rewrite (Z.testbit_eqb x n) by done.
    rewrite Z.div_small; [done|]. split; [lia|].
    apply Z.lt_le_trans with (2 ^ s); [lia|]. apply Z.pow_le_mono_r; lia.
Qed.

Lemma land_127 b : Z.land b 0x7f = b mod 128.
Proof. change 0x7f with (Z.ones 7). by rewrite Z.land_ones. Qed.

Lemma lor_128 x : Z.lor (u8 x) 0x80 = 128 + x mod 128.
Proof.
  unfold u8. change (2 ^ 8) with (128 * 2).
  rewrite Z.rem_mul_r by lia.
  pose proof (Z.mod_pos_bound x 128). pose proof (Z.mod_pos_bound (x / 128) 2).
  assert (Hd : Z.lor (x mod 128) (Z.shiftl ((x / 128) mod 2) 7)
    = x mod 128 + 128 * ((x / 128) mod 2)).
  { rewrite lor_shift by lia. change (2 ^ 7) with 128. lia. }
  rewrite <- Hd, <- Z.lor_assoc.
  assert ((x / 128) mod 2 = 0 \/ (x / 128) mod 2 = 1) as [->| ->] by lia.
  - change (Z.lor (Z.shiftl 0 7) 128) with (Z.shiftl 1 7). rewrite lor_shift; lia.
  - change (Z.lor (Z.shiftl 1 7) 128) with (Z.shiftl 1 7). rewrite lor_shift; lia.
Qed.

(** One turn of the decoder, on the last byte of a varint and before it. *)
Lemma uvarint_stop b x i rest :
  (i <= 9)%nat -> 0 <= b < 128 -> b < 2 ^ (64 - 7 * Z.of_nat i) ->
  0 <= x < 2 ^ (7 * Z.of_nat i) ->
  uvarint_loop (b :: rest) i x (7 * Z.of_nat i)
  = (x + b * 2 ^ (7 * Z.of_nat i), Z.of_nat i + 1).
Proof.
  intros Hi Hb Hb' Hx. cbn [uvarint_loop]. unfold MaxVarintLen64.
  rewrite (proj2 (Nat.eqb_neq i 10)) by lia.
  rewrite (proj2 (Z.ltb_lt b 0x80)) by lia.
  assert (Hfit : is_u64 (Z.shiftl b (7 * Z.of_nat i))).
  { rewrite Z.shiftl_mul_pow2 by lia. unfold is_u64.
    replace 64 with ((64 - 7 * Z.of_nat i) + 7 * Z.of_nat i) by lia.
    rewrite Z.pow_add_r by lia. nia. }
  rewrite u64_id, lor_shift by (done || lia).
  destruct ((i =? 10 - 1)%nat && (1 <? b)) eqn:E; [|done].
  breflect. subst i. change (2 ^ (64 - 7 * Z.of_nat (10 - 1))) with 2 in Hb'. lia.
Qed.

Lemma uvarint_more m x i rest :
  (i <= 8)%nat -> 0 <= m < 128 -> 0 <= x < 2 ^ (7 * Z.of_nat i) ->
  uvarint_loop (128 + m :: rest) i x (7 * Z.of_nat i)
  = uvarint_loop rest (S i) (x + m * 2 ^ (7 * Z.of_nat i)) (7 * Z.of_nat (S i)).
Proof.
  intros Hi Hm Hx. cbn [uvarint_loop]. unfold MaxVarintLen64.
  rewrite (proj2 (Nat.eqb_neq i 10)) by lia.
  rewrite (proj2 (Z.ltb_ge (128 + m) 0x80)) by lia.
  rewrite land_127. replace ((128 + m) mod 128) with m
    by (apply Z.mod_unique_pos with 1; lia).
  assert (Hsmall : 2 ^ (7 * Z.of_nat i) <= 2 ^ 56) by (apply Z.pow_le_mono_r; lia).
  rewrite u64_id, lor_shift by (done || lia || (rewrite Z.shiftl_mul_pow2 by lia;
    unfold is_u64; change (2 ^ 56) with 72057594037927936 in Hsmall;
    change (2 ^ 64) with 18446744073709551616; nia)).
  f_equal. lia.
Qed.

(** One varint read back from the start of what was written, with the loop
    [i] bytes into its shift. *)
Lemma uvarint_put y x i rest :
  (i <= 9)%nat -> 0 <= y < 2 ^ (64 - 7 * Z.of_nat i) -> 0 <= x < 2 ^ (7 * Z.of_nat i) ->
  exists n, length (put_uvarint (10 - i) y) = S n /\
    uvarint_loop (put_uvarint (10 - i) y ++ rest) i x (7 * Z.of_nat i)
    = (x + y * 2 ^ (7 * Z.of_nat i), Z.of_nat (i + S n)).
Proof.
  intros Hi. remember (9 - i)%nat as k eqn:Hk. revert y x i Hi Hk.
  induction k as [|k IH]; intros y x i Hi Hk Hy Hx;
    replace (10 - i)%nat with (S (9 - i)) by lia; cbn [put_uvarint].
  1: assert (i = 9)%nat as -> by lia; change (2 ^ (64 - 7 * Z.of_nat 9)) with 2 in Hy.
  all: destruct (Z.ltb_spec y 0x80) as [Hlt|Hge]; [|try lia].
  1-2: exists 0%nat; split; [done|]; cbn [app]; rewrite u8_id by (unfold is_byte; lia);
    rewrite uvarint_stop by (lia || (simpl; lia)); f_equal; lia.
  assert (Hpow : 2 ^ (64 - 7 * Z.of_nat i) = 128 * 2 ^ (64 - 7 * Z.of_nat (S i))).
  { change 128 with (2 ^ 7). rewrite <- Z.pow_add_r by lia. f_equal. lia. }
  assert (Hpow' : 2 ^ (7 * Z.of_nat (S i)) = 2 ^ (7 * Z.of_nat i) * 128).
  { change 128 with (2 ^ 7). rewrite <- Z.pow_add_r by lia. f_equal. lia. }
  pose proof (Z.mod_pos_bound y 128 ltac:(lia)). pose proof (Z.div_mod y 128 ltac:(lia)).
  rewrite Z.shiftr_div_pow2 by lia. change (2 ^ 7) with 128. rewrite lor_128.
  destruct (IH (y / 128) (x + (y mod 128) * 2 ^ (7 * Z.of_nat i)) (S i)) as (n & Hn & Hr);
    [lia | lia | nia | rewrite Hpow'; nia |].
  replace (10 - S i)%nat with (9 - i)%nat in * by lia.
  exists (S n). split; [simpl; by rewrite Hn|].
  cbn [app]. rewrite uvarint_more, Hr by lia.
  f_equal; [rewrite Hpow'; nia | lia].
Qed.

Lemma Uvarint_PutUvarint x rest :
  is_u64 x -> Uvarint (PutUvarint x ++ rest) = (x, zlen (PutUvarint x)) /\
    0 < zlen (PutUvarint x).
Proof.
  intros Hx. destruct (uvarint_put x 0 0 rest) as (n & Hn & Hr); [lia | | |].
  { exact Hx. } { simpl. lia. }
  unfold Uvarint, PutUvarint, zlen. change MaxVarintLen64 with (10 - 0)%nat.
  change (7 * Z.of_nat 0) with 0 in Hr. rewrite Hn, Hr. split; [f_equal; lia | lia].
Qed.

Lemma zigzag_spec x : is_i64 x -> zigzag x = if x <? 0 then - 2 * x - 1 else 2 * x.
Proof.
  intros Hx. unfold zigzag. rewrite Z.shiftl_mul_pow2 by lia. change (2 ^ 1) with 2.
  unfold Z.lnot. unfold u64, is_i64 in *.
  rewrite Zmult_mod_idemp_l. bcase.
  - assert (E : (x * 2) mod 2 ^ 64 = x * 2 + 2 ^ 64).
    { symmetry. apply Z.mod_unique_pos with (-1); lia. }
    rewrite E. symmetry. apply Z.mod_unique_pos with (-1); lia.
  - rewrite Z.mod_small by lia. lia.
Qed.

Lemma unzigzag_zigzag x : is_i64 x -> unzigzag (zigzag x) = x.
Proof.
  intros Hx. rewrite zigzag_spec by done. unfold unzigzag.
  change (Z.land ?a 1) with (Z.land a (Z.ones 1)). rewrite Z.land_ones by lia.
  change (2 ^ 1) with 2. rewrite Z.shiftr_div_pow2 by lia. change (2 ^ 1) with 2.
  unfold is_i64 in Hx. destruct (Z.ltb_spec x 0) as [Hn|Hn].
  - replace ((-2 * x - 1) mod 2) with 1.
    2:{ apply Z.mod_unique_pos with (- x - 1); lia. }
    replace ((-2 * x - 1) / 2) with (- x - 1).
    2:{ apply Z.div_unique_pos with 1; lia. }
    simpl. rewrite i64_id by (unfold is_i64; lia). unfold Z.lnot. lia.
  - replace ((2 * x) mod 2) with 0.
    2:{ apply Z.mod_unique_pos with x; lia. }
    replace ((2 * x) / 2) with x.
    2:{ apply Z.div_unique_pos with 0; lia. }
    simpl. by rewrite i64_id.
Qed.

Lemma zigzag_range x : is_i64 x -> is_u64 (zigzag x).
Proof.
  intros Hx. rewrite zigzag_spec by done. unfold is_u64, is_i64 in *.
  destruct (Z.ltb_spec x 0); lia.
Qed.

Lemma Varint_PutVarint x rest :
  is_i64 x -> Varint (PutVarint x ++ rest) = (x, zlen (PutVarint x)) /\
    0 < zlen (PutVarint x).
Proof.
  intros Hx. unfold Varint, PutVarint.
  destruct (Uvarint_PutUvarint (zigzag x) rest) as [-> Hp]; [by apply zigzag_range|].
  by rewrite unzigzag_zigzag.
Qed.

(* ------------------------------------------------------------------ *)
(** ** Reading a table back *)

Lemma i64_add_sub a b : is_i64 b -> i64 (a + i64 (b - a)) = b.
Proof.
  intros Hb. transitivity (i64 b); [|by apply i64_id].
  apply i64_mod. unfold i64 at 1.
  replace (a + ((b - a + 2 ^ 63) mod 2 ^ 64 - 2 ^ 63))
    with ((a - 2 ^ 63) + (b - a + 2 ^ 63) mod 2 ^ 64) by lia.
  rewrite Zplus_mod_idemp_r. f_equal. lia.
Qed.

(** One turn of the walk on the bytes of one entry. *)
Lemma forEach_step {A} fuel visit pre prev e rest (acc : A) :
  entry_ok prev -> entry_ok e -> e_ip prev <= e_ip e ->
  forEach_loop (S fuel) visit (pre ++ entry_bytes prev e ++ rest) (length pre) prev acc
  = let '(acc, more) := visit acc e in
    if more then forEach_loop fuel visit (pre ++ entry_bytes prev e ++ rest)
                   (length (pre ++ entry_bytes prev e)) e acc
    else acc.
Proof.
  intros [Hp _] (He & Hl & Hc) Hle.
  set (ud := u64 (e_ip e - e_ip prev)).
  assert (Hud : ud = e_ip e - e_ip prev) by (apply u64_id; unfold is_u64; lia).
  set (ld := i64 (e_line e - e_line prev)). set (cd := i64 (e_col e - e_col prev)).
  assert (Hb : entry_bytes prev e = PutUvarint ud ++ PutVarint ld ++ PutVarint cd) by done.
  rewrite Hb.
  destruct (Uvarint_PutUvarint ud (PutVarint ld ++ PutVarint cd ++ rest)) as [Eu Pu];
    [unfold is_u64; lia|].
  destruct (Varint_PutVarint ld (PutVarint cd ++ rest)) as [El Pl]; [apply i64_range|].
  destruct (Varint_PutVarint cd rest) as [Ec Pc]; [apply i64_range|].
  cbn [forEach_loop]. rewrite (proj2 (Nat.ltb_lt _ _)) by (rewrite !length_app; unfold zlen in *; lia).
  rewrite drop_app_at, <- !app_assoc, Eu.
  rewrite (proj2 (Z.leb_gt _ _) Pu), to_nat_zlen.
  rewrite (app_assoc pre), <- length_app, drop_app_at, El.
  rewrite (proj2 (Z.leb_gt _ _) Pl), to_nat_zlen.
  rewrite (app_assoc (pre ++ _)), <- length_app, drop_app_at, Ec.
  rewrite (proj2 (Z.leb_gt _ _) Pc), to_nat_zlen, <- length_app.
  replace (Entry _ _ _) with e; [by rewrite <- !app_assoc|].
  destruct e as [ip ln co]; simpl in *. f_equal.
  - rewrite Hud. rewrite !i64_id; [lia | unfold is_i64; lia | rewrite i64_id; unfold is_i64; lia].
  - symmetry. by apply i64_add_sub.
  - symmetry. by apply i64_add_sub.
Qed.

Lemma length_entries_bytes prev es : (length es <= length (entries_bytes prev es))%nat.
Proof.
  revert prev. induction es as [|e es IH]; intros prev; simpl; [lia|].
  rewrite length_app. specialize (IH e). unfold entry_bytes. rewrite length_app.
  assert (1 <= length (PutUvarint (u64 (e_ip e - e_ip prev))))%nat; [|lia].
  unfold PutUvarint, MaxVarintLen64. cbn [put_uvarint]. bcase; cbn [length]; lia.
Qed.

Lemma forEach_entries_loop {A} fuel visit pre prev es (acc : A) :
  entry_ok prev -> entries_ok prev es -> (length es < fuel)%nat ->
  forEach_loop fuel visit (pre ++ entries_bytes prev es) (length pre) prev acc
  = visit_list visit es acc.
Proof.
  revert fuel pre prev acc. induction es as [|e es IH]; intros fuel pre prev acc Hp Hok Hf.
  - destruct fuel; [simpl in Hf; lia|]. simpl. rewrite app_nil_r, Nat.ltb_irrefl. done.
  - destruct Hok as (He & Hle & Hok). destruct fuel as [|fuel]; [simpl in Hf; lia|].
    cbn [entries_bytes visit_list]. rewrite forEach_step by done.
    destruct (visit acc e) as [acc' []]; [|done].
    rewrite app_assoc. apply IH; [done..|simpl in Hf; lia].
Qed.

Lemma no_entry_ok : entry_ok no_entry.
Proof. unfold entry_ok, is_i64; simpl; lia. Qed.

(** [forEach] on a table is the visitor run over its entries. *)
Lemma forEach_entries {A} visit es (acc : A) :
  entries_ok no_entry es ->
  forEach (entries_bytes no_entry es) visit acc = visit_list visit es acc.
Proof.
  intros Hok. apply (forEach_entries_loop _ visit []); [apply no_entry_ok | done |].
  pose proof (length_entries_bytes no_entry es). simpl. lia.
Qed.

Lemma visit_list_all {A} (f : A -> lineEntry -> A) es acc :
  visit_list (fun a e => (f a e, true)) es acc = foldl f acc es.
Proof. revert acc. induction es as [|e es IH]; intros acc; simpl; [done|]. apply IH. Qed.

(** Entries past [ip] do not change what is in force there. *)
Lemma in_force_beyond es prev ip cur :
  entries_ok prev es -> ip < e_ip prev -> in_force es ip cur = cur.
Proof.
  revert prev cur. induction es as [|e es IH]; intros prev cur Hok Hlt; simpl; [done|].
  destruct Hok as (_ & Hle & Hok). bcase; [lia|]. apply (IH e); [done | lia].
Qed.

Lemma in_force_snoc es e ip cur :
  in_force (es ++ [e]) ip cur
  = if e_ip e <=? ip then (e_line e, e_col e) else in_force es ip cur.
Proof.
  revert cur. induction es as [|e' es IH]; intros cur; simpl; [by bcase|]. apply IH.
Qed.

(** The walk of [At], which stops at the first entry past [ip], finds what is
    in force. *)
Lemma at_walk es prev ip line col found :
  entries_ok prev es -> (found = false -> line = 0) ->
  let '(line', col', found') :=
    visit_list (fun (acc : Z * Z * bool) entry =>
      if ip <? e_ip entry then (acc, false)
      else ((e_line entry, e_col entry, true), true)) es (line, col, found) in
  in_force es ip (line, col) = (line', col') /\ (found' = false -> line' = 0).
Proof.
  revert prev line col found. induction es as [|e es IH];
    intros prev line col found Hok Hf; simpl; [done|].
  destruct Hok as (_ & _ & Hok).
  destruct (Z.ltb_spec ip (e_ip e)) as [Hlt|Hge].
  - rewrite (proj2 (Z.leb_gt _ _) Hlt). split; [|done].
    by apply (in_force_beyond _ e).
  - rewrite (proj2 (Z.leb_le _ _) Hge). by apply (IH e).
Qed.

Lemma At_entries es ip :
  entries_ok no_entry es -> 0 <= ip ->
  At (entries_bytes no_entry es) ip = visible (in_force es ip (0, 0)).
Proof.
  intros Hok Hip. unfold At. rewrite (proj2 (Z.ltb_ge _ _) Hip), orb_false_r.
  rewrite forEach_entries by done.
  pose proof (at_walk es no_entry ip 0 0 false Hok (fun _ => eq_refl)) as H.
  destruct (visit_list _ _ _) as [[line col] found].
  destruct H as [H Hf]. rewrite H. unfold visible. simpl.
  destruct (Nat.eqb_spec (length (entries_bytes no_entry es)) 0) as [E|_].
  - pose proof (length_entries_bytes no_entry es). destruct es; [|simpl in *; lia].
    injection H as <- <-. done.
  - destruct found; [done|]. rewrite Hf by done. done.
Qed.

(* ------------------------------------------------------------------ *)
(** ** Building a table *)

Definition last_entry (prev : lineEntry) (es : list lineEntry) : lineEntry :=
  default prev (last es).

(** The builder's fields describe the entries written so far. *)
Definition builds (b : LineTableBuilder) (es : list lineEntry) : Prop :=
  buf b = entries_bytes no_entry es /\ entries_ok no_entry es /\
  started b = negb (length es =? 0)%nat /\
  last_entry no_entry es = Entry (lastIP b) (lastLn b) (lastCol b).

Lemma last_entry_snoc prev es e : last_entry prev (es ++ [e]) = e.
Proof. unfold last_entry. by rewrite last_snoc. Qed.

Lemma last_entry_cons prev e es : last_entry prev (e :: es) = last_entry e es.
Proof. unfold last_entry. rewrite last_cons. by destruct (last es). Qed.

Lemma entries_bytes_snoc prev es e :
  entries_bytes prev (es ++ [e]) = entries_bytes prev es ++ entry_bytes (last_entry prev es) e.
Proof.
  revert prev. induction es as [|e' es IH]; intros prev.
  - simpl. by rewrite app_nil_r.
  - cbn [app entries_bytes]. by rewrite IH, last_entry_cons, app_assoc.
Qed.

Lemma entries_ok_snoc prev es e :
  entries_ok prev es -> entry_ok e -> e_ip (last_entry prev es) <= e_ip e ->
  entries_ok prev (es ++ [e]).
Proof.
  revert prev. induction es as [|e' es IH]; intros prev; [by simpl|].
  rewrite last_entry_cons. intros (He' & Hle & Hok) He Hl. cbn [app entries_ok].
  split; [done|]. split; [done|]. by apply IH.
Qed.

Lemma in_force_last prev es ip cur :
  entries_ok prev es -> es <> [] -> e_ip (last_entry prev es) <= ip ->
  in_force es ip cur = (e_line (last_entry prev es), e_col (last_entry prev es)).
Proof.
  intros Hok Hne Hl. destruct (exists_last Hne) as (es' & e & ->).
  rewrite last_entry_snoc in *. rewrite in_force_snoc.
  by rewrite (proj2 (Z.leb_le _ _) Hl).
Qed.

Lemma call_effect_ip c e : call_effect c = Some e -> e_ip e = call_ip c.
Proof. destruct c; simpl; bcase; intros; by simplify_eq. Qed.

Lemma zeroBuilder_builds : builds zeroBuilder [].
Proof. by repeat split. Qed.

(** [add] in order either appends the entry or finds it already in force. *)
Lemma add_builds b es ip line col :
  builds b es -> entry_ok (Entry ip line col) -> lastIP b <= ip ->
  builds (add b ip line col) (es ++ [Entry ip line col]) \/
  (add b ip line col = b /\ es <> [] /\ line = lastLn b /\ col = lastCol b).
Proof.
  intros (Hbuf & Hok & Hst & Hlast) He Hip. unfold add.
  destruct (Z.ltb_spec ip 0) as [Hlt|_]; [destruct He as [He _]; simpl in He; lia|].
  assert (Hnlt : (ip <? lastIP b) = false) by lia. rewrite Hnlt, andb_false_r.
  destruct (started b && _) eqn:E.
  - right. breflect. rewrite Hst in *. split; [done|]. split; [|done].
    intros ->. done.
  - left. split; [|split; [|split]]; simpl.
    + rewrite entries_bytes_snoc, Hlast, Hbuf. unfold entry_bytes. simpl. done.
    + apply entries_ok_snoc; [done..|]. by rewrite Hlast.
    + rewrite length_app. destruct es; done.
    + by rewrite last_entry_snoc.
Qed.

(** What holds between calls: the entries written say, at every offset, what
    the effects so far say, and no call has gone past [m]. *)
Definition builder_inv (b : LineTableBuilder) (es eff : list lineEntry) (m : Z) : Prop :=
  builds b es /\ lastIP b <= m /\ es ⊆ eff /\
  forall ip, visible (in_force es ip (0, 0)) = visible (in_force eff ip (0, 0)).

Lemma add_inv b es eff m ip line col :
  builder_inv b es eff m -> m <= ip -> entry_ok (Entry ip line col) ->
  exists es', builder_inv (add b ip line col) es' (eff ++ [Entry ip line col]) ip.
Proof.
  intros (Hb & Hm & Hsub & Hs) Hip He.
  destruct (add_builds b es ip line col Hb He) as [Hadd|(-> & Hne & -> & ->)]; [lia| |].
  - exists (es ++ [Entry ip line col]). split; [done|]. split.
    + unfold builds in Hadd. rewrite last_entry_snoc in Hadd.
      destruct Hadd as (_ & _ & _ & [= <- _ _]). lia.
    + split; [set_solver|]. intros j. rewrite !in_force_snoc. simpl. by bcase.
  - exists es. split; [done|]. split; [lia|]. split; [set_solver|].
    intros j. rewrite in_force_snoc. simpl. bcase; [|apply Hs].
    destruct Hb as (_ & Hok & _ & Hlast).
    rewrite (in_force_last no_entry) by (done || rewrite Hlast; simpl; lia).
    by rewrite Hlast.
Qed.

Lemma run_call_inv b es eff m c :
  builder_inv b es eff m -> m <= call_ip c -> call_ok c ->
  exists es', builder_inv (run_call b c) es'
    (eff ++ match call_effect c with Some e => [e] | None => [] end) (call_ip c).
Proof.
  intros Hinv Hm Hok. destruct Hinv as (Hb & Hl & Hsub & Hs) eqn:E. clear E.
  destruct c as [ip line col|ip line col]; simpl in *; unfold Add, AddOrReset; bcase.
  - exists es. rewrite app_nil_r. split; [done|]. split; [lia | done].
  - by apply (add_inv b es eff m).
  - destruct (started b) eqn:Hst.
    + apply (add_inv b es eff m); [done..|]. unfold entry_ok, is_i64; simpl; lia.
    + exists es. split; [done|]. split; [lia|]. split; [set_solver|].
      assert (es = []) as ->.
      { destruct Hb as (_ & _ & Hst' & _). rewrite Hst in Hst'. by destruct es. }
      intros j. rewrite in_force_snoc. simpl. bcase; [done | apply Hs].
  - by apply (add_inv b es eff m).
Qed.

Lemma run_calls_inv cs b es eff m :
  builder_inv b es eff m -> Forall (fun c => m <= call_ip c) cs ->
  StronglySorted Z.le (call_ip <$> cs) -> Forall call_ok cs ->
  exists es' m', builder_inv (foldl run_call b cs) es' (eff ++ omap call_effect cs) m'.
Proof.
  revert b es eff m. induction cs as [|c cs IH]; intros b es eff m Hinv Hm Hs Hok.
  - exists es, m. simpl. by rewrite app_nil_r.
  - apply Forall_cons in Hm as [Hm _]. apply Forall_cons in Hok as [Hc Hok].
    cbn [fmap list_fmap] in Hs. apply StronglySorted_inv in Hs as [Hs Hle].
    destruct (run_call_inv b es eff m c) as [es' H]; [done..|].
    destruct (IH _ _ _ _ H) as (es'' & m'' & H''); [|done..|].
    + rewrite Forall_fmap in Hle. exact Hle.
    + exists es'', m''. cbn [foldl omap list_omap].
      destruct (call_effect c); [by rewrite <- app_assoc in H'' | by rewrite app_nil_r in H''].
Qed.

Lemma build_entries cs :
  StronglySorted Z.le (call_ip <$> cs) -> Forall call_ok cs ->
  exists es, Build (foldl run_call zeroBuilder cs) = entries_bytes no_entry es /\
    entries_ok no_entry es /\ es ⊆ omap call_effect cs /\
    forall ip, visible (in_force es ip (0, 0))
               = visible (in_force (omap call_effect cs) ip (0, 0)).
Proof.
  intros Hs Hok.
  destruct (run_calls_inv cs zeroBuilder [] [] 0) as (es & m & (Hb & Ho & _) & _ & Hsub & Hv).
  - split; [apply zeroBuilder_builds|]. split; [simpl; lia|]. done.
  - eapply Forall_impl; [exact Hok|]. intros []; simpl; lia.
  - done.
  - done.
  - by exists es.
Qed.

(* ------------------------------------------------------------------ *)
(** ** Remapping *)

(** A remapping as the passes that move instructions produce one: defined and
    in range on the entries' offsets, order preserved and reflected. *)
Definition monotone_map (f : gmap Z Z) : Prop :=
  forall a b a' b', f !! a = Some a' -> f !! b = Some b' -> a <= b <-> a' <= b'.

Definition moved_call (f : gmap Z Z) (e : lineEntry) : option call :=
  (fun ip => CAddOrReset ip (e_line e) (e_col e)) <$> f !! e_ip e.

Lemma moved_cons f e es ip :
  f !! e_ip e = Some ip ->
  omap (moved_call f) (e :: es)
  = CAddOrReset ip (e_line e) (e_col e) :: omap (moved_call f) es.
Proof. intros Hip. cbn [omap list_omap]. unfold moved_call at 1. by rewrite Hip. Qed.

Lemma remap_fold f es b :
  foldl (fun out entry => match f !! e_ip entry with
    | Some moved => AddOrReset out moved (e_line entry) (e_col entry)
    | None => out end) b es
  = foldl run_call b (omap (moved_call f) es).
Proof.
  revert b. induction es as [|e es IH]; intros b; [done|].
  cbn [foldl omap list_omap]. unfold moved_call at 1. rewrite IH.
  by destruct (f !! e_ip e).
Qed.

Lemma Remap_entries f es :
  entries_ok no_entry es ->
  Remap (entries_bytes no_entry es) (Some f)
  = Build (foldl run_call zeroBuilder (omap (moved_call f) es)).
Proof.
  intros Hok. unfold Remap. rewrite forEach_entries by done.
  rewrite visit_list_all, remap_fold.
  destruct es; [done|]. pose proof (length_entries_bytes no_entry (l :: es)).
  rewrite (proj2 (Nat.eqb_neq _ _)); [done | simpl in *; lia].
Qed.

(** The moved calls are in order and the position in force moves along. *)
Lemma moved_calls_ok f es prev prev' :
  monotone_map f -> entries_ok prev es ->
  (forall e, e ∈ es -> exists ip, f !! e_ip e = Some ip /\ 0 <= ip < 2 ^ 63) ->
  (f !! e_ip prev = Some prev' \/ prev' = 0) ->
  StronglySorted Z.le (call_ip <$> omap (moved_call f) es) /\
  Forall call_ok (omap (moved_call f) es) /\
  Forall (fun c => prev' <= call_ip c) (omap (moved_call f) es).
Proof.
  intros Hmono. revert prev prev'. induction es as [|e es IH];
    intros prev prev' Hok Hdom Hprev; [split; [constructor | split; constructor]|].
  destruct Hok as ((_ & Hl & Hc) & Hle & Hok).
  destruct (Hdom e) as (ip & Hip & Hr); [by constructor|].
  rewrite (moved_cons _ _ _ _ Hip).
  destruct (IH e ip Hok) as (Hs & Hok' & Hge); [intros; apply Hdom; by constructor | by left |].
  assert (Hpi : prev' <= ip).
  { destruct Hprev as [Hp| ->]; [|lia]. by apply (Hmono _ _ _ _ Hp Hip). }
  split; [|split].
  - cbn [fmap list_fmap]. constructor; [done|]. by apply Forall_fmap.
  - constructor; [|done]. simpl. done.
  - constructor; [done|]. eapply Forall_impl; [exact Hge|]. simpl; intros; lia.
Qed.

Lemma moved_in_force f es ip ip' cur cur' :
  monotone_map f -> f !! ip = Some ip' ->
  (forall e, e ∈ es -> is_Some (f !! e_ip e)) -> visible cur = visible cur' ->
  visible (in_force (omap call_effect (omap (moved_call f) es)) ip' cur)
  = visible (in_force es ip cur').
Proof.
  intros Hmono Hip. revert cur cur'. induction es as [|e es IH]; intros cur cur' Hd Hc; [done|].
  destruct (Hd e) as [j Hj]; [by constructor|].
  rewrite (moved_cons _ _ _ _ Hj). cbn [omap list_omap call_effect in_force].
  apply IH; [intros; apply Hd; by constructor|].
  replace (e_ip (if e_line e <=? 0 then Entry j 0 0 else Entry j (e_line e) (e_col e)))
    with j by (by bcase).
  pose proof (Hmono _ _ _ _ Hj Hip) as Hiff.
  destruct (Z.leb_spec (e_ip e) ip), (Z.leb_spec j ip'); try lia; [|done].
  destruct (Z.leb_spec (e_line e) 0); unfold visible; simpl; bcases; done || lia.
Qed.

(* ------------------------------------------------------------------ *)
(** ** The reverse index *)

(** The offset of the first entry recorded for a line. *)
Fixpoint first_ip (es : list lineEntry) (line : Z) : option Z :=
  match es with
  | [] => None
  | e :: es => if e_line e =? line then Some (e_ip e) else first_ip es line
  end.

Definition index_step (index : LineIndex) (entry : lineEntry) : LineIndex :=
  if e_line entry <=? 0 then index
  else match firstIP index !! e_line entry with
       | Some _ => index
       | None => Index (<[e_line entry := e_ip entry]> (firstIP index))
                       (lines index ++ [e_line entry])
       end.

Lemma index_fold es ix :
  (forall l, l ∈ lines ix <-> is_Some (firstIP ix !! l)) ->
  let ix' := foldl index_step ix es in
  (forall l, l ∈ lines ix' <-> is_Some (firstIP ix' !! l)) /\
  forall l, firstIP ix' !! l =
    match firstIP ix !! l with
    | Some ip => Some ip
    | None => if l <=? 0 then None else first_ip es l
    end.
Proof.
  revert ix. induction es as [|e es IH]; intros ix Hix; simpl.
  - split; [done|]. intros l. destruct (firstIP ix !! l); [done|]. by bcase.
  - destruct (IH (index_step ix e)) as [IH1 IH2].
    { unfold index_step. bcase; [done|]. destruct (firstIP ix !! e_line e) eqn:E; [done|].
      intros l. simpl. rewrite elem_of_app, list_elem_of_singleton, Hix, lookup_insert_is_Some'.
      naive_solver. }
    split; [done|]. intros l. rewrite IH2. clear IH IH1 IH2. unfold index_step.
    destruct (Z.leb_spec (e_line e) 0) as [Hle|Hgt].
    + destruct (firstIP ix !! l); [done|]. destruct (Z.leb_spec l 0); [done|].
      destruct (Z.eqb_spec (e_line e) l); [lia | done].
    + destruct (firstIP ix !! e_line e) as [j|] eqn:E; simpl.
      * destruct (firstIP ix !! l) eqn:E'; [done|].
        destruct (Z.leb_spec l 0); [done|].
        destruct (Z.eqb_spec (e_line e) l); [congruence | done].
      * destruct (Z.eqb_spec (e_line e) l) as [<-|Hne].
        -- rewrite lookup_insert_eq, E. destruct (Z.leb_spec (e_line e) 0); [lia | done].
        -- by rewrite lookup_insert_ne.
Qed.

Lemma index_entries es :
  entries_ok no_entry es ->
  let ix := BuildLineIndex (entries_bytes no_entry es) in
  (forall l, firstIP ix !! l = if l <=? 0 then None else first_ip es l) /\
  (forall l, l ∈ lines ix <-> is_Some (firstIP ix !! l)) /\
  StronglySorted Z.le (lines ix).
Proof.
  intros Hok ix. subst ix. unfold BuildLineIndex.
  rewrite forEach_entries by done. fold index_step.
  change (fun (index : LineIndex) (entry : lineEntry) => _)
    with (fun index entry => (index_step index entry, true)).
  rewrite visit_list_all. simpl.
  destruct (index_fold es (Index ∅ [])) as [H1 H2].
  { intros l. simpl. rewrite lookup_empty. split; [by intros ?%not_elem_of_nil | by intros []]. }
  split; [|split].
  - intros l. by rewrite H2.
  - intros l. rewrite <- H1. by rewrite (merge_sort_Permutation _ (lines _)).
  - apply (StronglySorted_merge_sort Z.le).
Qed.

(** The binary search finds the least index holding a value at least [x]. *)
Lemma search_loop_spec fuel a x i j :
  (i <= j <= length a)%nat -> (j - i < fuel)%nat -> StronglySorted Z.le a ->
  (forall k, (k < i)%nat -> a !!! k < x) ->
  (forall k, (j <= k < length a)%nat -> x <= a !!! k) ->
  let r := search_loop fuel a x i j in
  (r <= length a)%nat /\ (forall k, (k < r)%nat -> a !!! k < x) /\
  (forall k, (r <= k < length a)%nat -> x <= a !!! k).
Proof.
  revert i j. induction fuel as [|fuel IH]; intros i j Hij Hf Hs Hlo Hhi; [lia|]. cbn [search_loop].
  destruct (Nat.ltb_spec i j) as [Hlt|Hge].
  2:{ assert (i = j) as <- by lia. split; [lia|]. split; [done|]. done. }
  assert (Hh : (i <= (i + j) / 2 < j)%nat).
  { split; [apply Nat.div_le_lower_bound | apply Nat.Div0.div_lt_upper_bound]; lia. }
  set (h := ((i + j) / 2)%nat) in *.
  destruct (Z.ltb_spec (a !!! h) x) as [Hx|Hx]; apply IH; try lia; try done.
  - intros k Hk. apply Z.le_lt_trans with (a !!! h); [apply sorted_lookup_total; done || lia | done].
  - intros k Hk. apply Z.le_trans with (a !!! h); [done | apply sorted_lookup_total; done || lia].
Qed.

(* ------------------------------------------------------------------ *)
(** ** Properties *)

(** C32: a table answers for every offset exactly what the compiler recorded.
    Whatever sequence of [Add] and [AddOrReset] calls the compiler makes in
    emission order, looking an offset up in the built table gives the position
    of the last effective call at or before it, and nothing where that call
    was a reset or there is none: the delta encoding, the deduplication and
    the dropped leading resets lose no answer. *)
Theorem line_table_answers (cs : list call) (ip : Z) :
  StronglySorted Z.le (call_ip <$> cs) -> Forall call_ok cs -> 0 <= ip ->
  At (Build (foldl run_call zeroBuilder cs)) ip
  = visible (in_force (omap call_effect cs) ip (0, 0)).
Proof.
  intros Hs Hok Hip. destruct (build_entries cs Hs Hok) as (es & -> & He & _ & Hv).
  by rewrite At_entries, Hv.
Qed.

Lemma line_table_answers_witness :
  At (Build (foldl run_call zeroBuilder
    [CAdd 0 3 1; CAddOrReset 4 7 2; CAddOrReset 6 0 9; CAdd 6 0 1])) 5 = Some (7, 2).
Proof.
  rewrite (line_table_answers
    [CAdd 0 3 1; CAddOrReset 4 7 2; CAddOrReset 6 0 9; CAdd 6 0 1] 5).
  - reflexivity.
  - repeat constructor; simpl; lia.
  - repeat constructor; unfold is_i64; simpl; lia.
  - lia.
Defined.

(** Moving instructions keeps their positions.  For a table the builder
    produced and a remapping that is monotone and covers every recorded
    offset, the remapped table answers at the new offset of an instruction
    what the old table answered at the old one. *)
Theorem remap_keeps_positions (cs : list call) (f : gmap Z Z) (ip ip' : Z) :
  StronglySorted Z.le (call_ip <$> cs) -> Forall call_ok cs ->
  monotone_map f -> (forall a a', f !! a = Some a' -> 0 <= a' < 2 ^ 63) ->
  (forall c, c ∈ cs -> is_Some (f !! call_ip c)) ->
  0 <= ip -> f !! ip = Some ip' ->
  let t := Build (foldl run_call zeroBuilder cs) in
  At (Remap t (Some f)) ip' = At t ip.
Proof.
  intros Hs Hok Hmono Hr Hd Hip Hm t. subst t.
  destruct (build_entries cs Hs Hok) as (es & -> & He & Hsub & _).
  assert (Hde : forall e, e ∈ es -> exists j, f !! e_ip e = Some j /\ 0 <= j < 2 ^ 63).
  { intros e (c & Hc & E)%Hsub%list_elem_of_omap. destruct (Hd c Hc) as [j Hj].
    rewrite (call_effect_ip _ _ E). eauto. }
  destruct (moved_calls_ok f es no_entry 0) as (Hms & Hmo & _); [done..| by right |].
  rewrite Remap_entries by done.
  destruct (build_entries _ Hms Hmo) as (es' & -> & He' & _ & Hv').
  rewrite !At_entries by (done || apply (Hr _ _ Hm)). rewrite Hv'.
  apply moved_in_force; [done..| |done].
  intros e (j & Hj & _)%Hde. by exists j.
Qed.

Lemma remap_keeps_positions_witness :
  At (Remap (Build (foldl run_call zeroBuilder [CAdd 0 3 1; CAdd 4 7 2]))
        (Some {[0 := 0; 4 := 9]})) 9 = Some (7, 2).
Proof.
  rewrite (remap_keeps_positions [CAdd 0 3 1; CAdd 4 7 2] {[0 := 0; 4 := 9]} 4 9).
  - reflexivity.
  - repeat constructor; simpl; lia.
  - repeat constructor; unfold is_i64; simpl; lia.
  - intros a b a' b'. rewrite !lookup_insert, !lookup_singleton.
    repeat case_decide; intros; simplify_eq; lia.
  - intros a a'. rewrite !lookup_insert, !lookup_singleton.
    repeat case_decide; intros; simplify_eq; lia.
  - intros c Hc. apply elem_of_cons in Hc as [->|Hc]; [by eexists|].
    apply list_elem_of_singleton in Hc as ->. by eexists.
  - lia.
  - reflexivity.
Defined.

(** The reverse index of a built table answers a breakpoint request for a
    line with the least line at or after it that has code, and with the first
    offset recorded for that line; it refuses exactly when no line at or after
    the request has code. *)
Theorem line_index_binds_forward (es : list lineEntry) (line : Z) :
  entries_ok no_entry es -> 0 < line ->
  match LineIndex_At (BuildLineIndex (entries_bytes no_entry es)) line with
  | Some (ip, bound) =>
      line <= bound /\ first_ip es bound = Some ip /\
      forall l, line <= l < bound -> first_ip es l = None
  | None => forall l, line <= l -> first_ip es l = None
  end.
Proof.
  intros Hok Hl. destruct (index_entries es Hok) as (Hf & Hin & Hs).
  set (ix := BuildLineIndex _) in *. unfold LineIndex_At.
  rewrite (proj2 (Z.leb_gt line 0)) by lia. rewrite orb_false_r.
  assert (Hno : forall l, line <= l -> l ∉ lines ix -> first_ip es l = None).
  { intros l Hle Hni. rewrite Hin, Hf in Hni. destruct (Z.leb_spec l 0); [lia|].
    by apply eq_None_not_Some. }
  destruct (Nat.eqb_spec (length (lines ix)) 0) as [E|E].
  { intros l Hle. apply Hno; [done|]. rewrite (nil_length_inv _ E). apply not_elem_of_nil. }
  destruct (search_loop_spec (S (length (lines ix))) (lines ix) line 0 (length (lines ix)))
    as (Hr & Hlo & Hhi); [lia | lia | done | lia | lia |].
  fold (SearchInts (lines ix) line) in *. set (r := SearchInts _ _) in *.
  assert (Hlow : forall l, l ∈ lines ix -> line <= l -> exists k, (r <= k < length (lines ix))%nat /\ lines ix !!! k = l).
  { intros l (k & Hk)%list_elem_of_lookup Hle. exists k.
    assert (lines ix !!! k = l) by (by apply list_lookup_total_correct).
    apply lookup_lt_Some in Hk. split; [|done].
    destruct (Nat.lt_ge_cases k r) as [Hlt|]; [|lia]. apply Hlo in Hlt. lia. }
  destruct (Nat.leb_spec (length (lines ix)) r) as [Hge|Hlt].
  - intros l Hle. apply Hno; [done|]. intros Hi. destruct (Hlow l Hi Hle) as (k & ? & _). lia.
  - assert (Hb : lines ix !!! r ∈ lines ix) by (by apply list_elem_of_lookup_total_2).
    assert (Hbl : line <= lines ix !!! r) by (apply Hhi; lia).
    split; [done|]. split.
    + apply Hin in Hb as [ip Hip]. rewrite Hip. simpl. rewrite <- Hip, Hf.
      destruct (Z.leb_spec (lines ix !!! r) 0); [lia | done].
    + intros l Hle. apply Hno; [lia|]. intros Hi.
      destruct (Hlow l Hi) as (k & Hk & <-); [lia|].
      pose proof (sorted_lookup_total (lines ix) r k Hs). lia.
Qed.

Lemma line_index_binds_forward_witness :
  match LineIndex_At (BuildLineIndex (entries_bytes no_entry
          [Entry 0 5 1; Entry 3 2 1; Entry 7 5 4])) 3 with
  | Some (ip, bound) =>
      3 <= bound /\ first_ip [Entry 0 5 1; Entry 3 2 1; Entry 7 5 4] bound = Some ip /\
      forall l, 3 <= l < bound -> first_ip [Entry 0 5 1; Entry 3 2 1; Entry 7 5 4] l = None
  | None => forall l, 3 <= l -> first_ip [Entry 0 5 1; Entry 3 2 1; Entry 7 5 4] l = None
  end.
Proof.
  apply (line_index_binds_forward [Entry 0 5 1; Entry 3 2 1; Entry 7 5 4] 3); [|lia].
  unfold entries_ok, entry_ok, is_i64; simpl; lia.
Defined.
