(* ===== verification/Polymorphic.v ===== *)
(** The polymorphic engine: [src/compiler/polymorphic.go].

    Every pass of [PolymorphicEngine.Mutate] is here as the byte-cursor loop
    the source runs: the filler splice with its jump rewrite
    ([padInstructions], [rewriteJumpTargets]), the constant-pool shuffle
    ([randomizeConstantPool], [updateConstantReferences]) and the opcode
    permutation ([mutateOpcodes], [remapOpcodes], [opcodeTables]).  Go's
    [math/rand] generator is an argument: a [Rng] with the documented range of
    [Intn], so that every theorem holds for every seed.  The theorems relate
    the passes to the structured streams of [Stream.v]. *)

From stdpp Require Import base list list_numbers numbers gmap sets strings.
From Stdlib Require Import ZArith Lia.
From S2P Require Import Prelude Code Stream LineTable.

(* ------------------------------------------------------------------ *)
(** ** The generator and the program *)

(** [*math/rand.Rand] with the two draws the engine makes: whether
    [Float64() < level * 1.5 / 100], and [Intn(n)], which Go documents to be
    in [0, n) for a positive [n]. *)
Class Rng (R : Type) : Type := {
  Float64Below : R -> Z -> bool * R;
  Intn : R -> nat -> nat * R;
  Intn_range : forall r n, (0 < n)%nat -> ((Intn r n).1 < n)%nat
}.

(** [object.CompiledFunction]. *)
Record CompiledFunction : Type := Fn {
  fn_Instructions : list Z;
  NumLocals : Z;
  NumParams : Z;
  fn_CapturedLocals : list Z;
  Name : string;
  Params : list string;
  fn_LineTable : list Z;
  fn_MacroTable : list Z;
  fn_EndTable : list Z;
  LocalNames : list string }.

(** A function with another stream and other tables. *)
Definition fn_with (fn : CompiledFunction) (ins lines macros ends : list Z) : CompiledFunction :=
  Fn ins (NumLocals fn) (NumParams fn) (fn_CapturedLocals fn) (Name fn) (Params fn)
     lines macros ends (LocalNames fn).

(** A constant: a compiled function, or an object the engine never looks at. *)
Inductive Constant : Type :=
| CFunction (fn : CompiledFunction)
| COther (value : Z).

(** [ModuleSpan] and [ByteCode] of [src/compiler/compiler.go]; the identifiers
    of a struct definition by name, a Lua patch by its payload. *)
Record ModuleSpan : Type := Span { Path : list Z; StartLine : Z }.

Inductive LegacyRegistry : Type := LegacyRegistryV24 | LegacyRegistryV23.

Record ByteCode : Type := BC {
  Instructions : list Z;
  Constants : list Constant;
  StructDefs : gmap string (list string);
  EnumDefs : gmap string (list string);
  LuaPatches : gmap string (list Z);
  Version : Z;
  BuiltinNames : list string;
  OpcodeMap : option (list Z);
  SourceFile : list Z;
  bc_LineTable : list Z;
  bc_MacroTable : list Z;
  bc_EndTable : list Z;
  SourceText : list Z;
  ModuleSpans : list ModuleSpan;
  bc_GlobalNames : list string;
  legacyRegistry : LegacyRegistry }.

(** A program with another stream, pool, opcode map and tables. *)
Definition bc_with (bc : ByteCode) (ins : list Z) (cs : list Constant) (opcodes : option (list Z))
    (lines macros ends : list Z) : ByteCode :=
  BC ins cs (StructDefs bc) (EnumDefs bc) (LuaPatches bc) (Version bc) (BuiltinNames bc) opcodes
     (SourceFile bc) lines macros ends (SourceText bc) (ModuleSpans bc) (bc_GlobalNames bc)
     (legacyRegistry bc).

(** A program that is only a stream, a pool and its tables. *)
Definition bare_program (ins : list Z) (cs : list Constant) (lines macros ends : list Z) : ByteCode :=
  BC ins cs ∅ ∅ ∅ 0 [] None [] lines macros ends [] [] [] LegacyRegistryV24.

Definition bare_function (ins : list Z) : CompiledFunction :=
  Fn ins 0 0 [] EmptyString [] [] [] [] [].

(** [MutationConfig]. *)
Record MutationConfig : Type := Config {
  InsertNOPs : bool; MutateOpcodes : bool; InsertDeadCode : bool;
  RandomizeConstants : bool; Level : Z }.

(** [NewPolymorphicEngine]: the level clamped to 0..10. *)
Definition clampLevel (level : Z) : Z :=
  let level := if level <? 0 then 0 else level in
  if 10 <? level then 10 else level.

(** [getConfig]. *)
Definition polymorphicSafeStagesEnabled : bool := true.

Definition getConfig (level : Z) : MutationConfig :=
  let active := polymorphicSafeStagesEnabled && (1 <=? level) in
  Config active active active active level.

Definition MaxUint16 : nat := 65535.

(** [containsInt]. *)
Definition containsInt (haystack : list nat) (needle : nat) : bool :=
  existsb (fun v => v =? needle)%nat haystack.

(* ------------------------------------------------------------------ *)
(** ** Boundaries and jump rewriting *)

(** [decodeBoundaries]; each turn advances by at least a byte, so
    [length ins] turns and one to leave are enough. *)
Fixpoint boundaries_loop (fuel : nat) (ins : list Z) (i : nat) (starts widths : list nat)
    : option (list nat * list nat) :=
  match fuel with
  | O => None
  | S fuel =>
      if (i <? length ins)%nat then
        match Lookup (ins !!! i) with
        | None => None
        | Some def =>
            let width := def_width def in
            if (length ins <? i + width)%nat then None
            else boundaries_loop fuel ins (i + width) (starts ++ [i]) (widths ++ [width])
        end
      else Some (starts, widths)
  end.

Definition decodeBoundaries (ins : list Z) : option (list nat * list nat) :=
  boundaries_loop (S (length ins)) ins 0 [] [].

(** [lastPopOffset]: the backwards loop over the starts. *)
Fixpoint last_pop_rev (ins : list Z) (starts_rev : list nat) : nat :=
  match starts_rev with
  | [] => 0
  | s :: rest => if ins !!! s =? opcode_byte OpPop then s else last_pop_rev ins rest
  end.

Definition lastPopOffset (ins : list Z) (starts : list nat) : nat :=
  last_pop_rev ins (rev starts).

(** The operand loop of [rewriteJumpTargets] at one instruction. *)
Fixpoint rewrite_operands (slots : list nat) (remap : gmap nat nat) (ownJumps : gset nat)
    (widths : list nat) (operand offset : nat) (padded : list Z) : option (list Z) :=
  match widths with
  | [] => Some padded
  | w :: rest =>
      if (w =? 2)%nat && containsInt slots operand && negb (bool_decide (offset ∈ ownJumps)) then
        let old := Z.to_nat (Uint16 padded offset) in
        match remap !! old with
        | None => None
        | Some target =>
            if (MaxUint16 <? target)%nat then None
            else rewrite_operands slots remap ownJumps rest (S operand) (offset + w)
                   (PutUint16 padded offset (u16 (Z.of_nat target)))
        end
      else rewrite_operands slots remap ownJumps rest (S operand) (offset + w) padded
  end.

(** [rewriteJumpTargets]: [None] is [false], the padded stream discarded. *)
Fixpoint rewrite_loop (fuel : nat) (padded : list Z) (remap : gmap nat nat)
    (ownJumps : gset nat) (i : nat) : option (list Z) :=
  match fuel with
  | O => None
  | S fuel =>
      if (i <? length padded)%nat then
        match Lookup (padded !!! i) with
        | None => None
        | Some def =>
            let width := def_width def in
            if (length padded <? i + width)%nat then None
            else
              let slots := JumpOperands (padded !!! i) in
              match rewrite_operands slots remap ownJumps (OperandWidths def) 0 (i + 1) padded with
              | None => None
              | Some padded => rewrite_loop fuel padded remap ownJumps (i + width)
              end
        end
      else Some padded
  end.

Definition rewriteJumpTargets (padded : list Z) (remap : gmap nat nat) (ownJumps : gset nat)
    : option (list Z) :=
  rewrite_loop (S (length padded)) padded remap ownJumps 0.

(** [code.Make] where the operands fit: the engine only builds operand-free
    instructions and jumps to 0 this way. *)
Definition make (op : Opcode) (operands : list Z) : list Z :=
  match Make (opcode_byte op) operands with
  | Ret bytes => bytes
  | Panic => []
  end.

Section Engine.
Context {R : Type} `{Rng R}.

(** [generateNOP]. *)
Definition generateNOP (r : R) : list Z * R :=
  let '(k, r) := Intn r 3 in
  let push := match k with 0%nat => OpTrue | 1%nat => OpFalse | _ => OpNull end in
  (make push [] ++ make OpPop [], r).

Definition deadCodeFillers : list Opcode :=
  [OpTrue; OpFalse; OpNull; OpAdd; OpSub; OpMul; OpDiv; OpMod; OpBang; OpMinus; OpPop; OpDup;
   OpEqual; OpUnEqual; OpGreater; OpGreaterEqual; OpBitAnd; OpBitOr; OpBitXor; OpBitNot;
   OpShiftLeft; OpShiftRight].

(** The filler loop of [generateDeadBlock]. *)
Fixpoint dead_fill (n : nat) (r : R) (blk : list Z) : list Z * R :=
  match n with
  | O => (blk, r)
  | S n =>
      let '(k, r) := Intn r (length deadCodeFillers) in
      let op := default OpNull (deadCodeFillers !! k) in
      dead_fill n r (blk ++ make op [])
  end.

(** [generateDeadBlock]: the block and the offsets of its own jump operands. *)
Definition generateDeadBlock (at_ : nat) (r : R) : (list Z * list nat) * R :=
  let '(g, r) := Intn r 2 in
  let guarded := (g =? 0)%nat in
  let blk := if guarded then make OpFalse [] else [] in
  let jumpOp := if guarded then OpJumpFalse else OpJump in
  let operandAt := (length blk + 1)%nat in
  let blk := blk ++ make jumpOp [0] in
  let '(n, r) := Intn r 5 in
  let '(blk, r) := dead_fill (2 + n) r blk in
  let target := (at_ + length blk)%nat in
  if (MaxUint16 <? target)%nat then (([], []), r)
  else ((PutUint16 blk operandAt (u16 (Z.of_nat target)), [operandAt]), r).

(** [padGenerator] and [fillerGenerators]. *)
Definition padGenerator : Type := nat -> R -> (list Z * list nat) * R.

Definition fillerGenerators (config : MutationConfig) : list padGenerator :=
  (if InsertNOPs config
   then [fun _ r => let '(block, r) := generateNOP r in ((block, []), r)] else []) ++
  (if InsertDeadCode config then [generateDeadBlock] else []).

(** The splice loop of [padInstructions]. *)
Fixpoint pad_loop (level : Z) (ins : list Z) (cutoff : nat) (gens : list padGenerator)
    (sw : list (nat * nat)) (remap : gmap nat nat) (padded : list Z) (ownJumps : gset nat)
    (r : R) : gmap nat nat * list Z * gset nat * R :=
  match sw with
  | [] => (remap, padded, ownJumps, r)
  | (start, width) :: rest =>
      let remap := <[start := length padded]> remap in
      let padded := padded ++ take width (drop start ins) in
      if (start <? cutoff)%nat then
        let '(hit, r) := Float64Below r level in
        if hit then
          let '(g, r) := Intn r (length gens) in
          match gens !! g with
          | None => pad_loop level ins cutoff gens rest remap padded ownJumps r
          | Some gen =>
              let '((block, own), r) := gen (length padded) r in
              let ownJumps := foldl (fun s offset => {[(length padded + offset)%nat]} ∪ s) ownJumps own in
              pad_loop level ins cutoff gens rest remap (padded ++ block) ownJumps r
          end
        else pad_loop level ins cutoff gens rest remap padded ownJumps r
      else pad_loop level ins cutoff gens rest remap padded ownJumps r
  end.

(** [padInstructions]: a [None] map is the nil map of the untouched stream. *)
Definition padInstructions (level : Z) (ins : list Z) (protectFinalPop : bool)
    (gens : list padGenerator) (r : R) : (list Z * option (gmap nat nat)) * R :=
  match decodeBoundaries ins with
  | None => ((ins, None), r)
  | Some (starts, widths) =>
      if (length starts =? 0)%nat || (length gens =? 0)%nat then ((ins, None), r)
      else
        let cutoff := if protectFinalPop then lastPopOffset ins starts
                      else default 0%nat (last starts) in
        let '(remap, padded, ownJumps, r) :=
          pad_loop level ins cutoff gens (zip starts widths) ∅ [] ∅ r in
        let remap := <[length ins := length padded]> remap in
        match rewriteJumpTargets padded remap ownJumps with
        | None => ((ins, None), r)
        | Some padded => ((padded, Some remap), r)
        end
  end.

(** The map handed to [LineTable.Remap]. *)
Definition remap_Z (remap : gmap nat nat) : gmap Z Z :=
  list_to_map ((fun p => (Z.of_nat p.1, Z.of_nat p.2)) <$> map_to_list remap).

(** The loop of [spliceFillers] over the constants. *)
Fixpoint splice_constants (level : Z) (gens : list padGenerator) (cs : list Constant) (r : R)
    : list Constant * R :=
  match cs with
  | [] => ([], r)
  | COther v :: cs =>
      let '(cs, r) := splice_constants level gens cs r in (COther v :: cs, r)
  | CFunction fn :: cs =>
      let '((ins, remap), r) := padInstructions level (fn_Instructions fn) false gens r in
      let m := remap_Z <$> remap in
      let fn' := fn_with fn ins (Remap (fn_LineTable fn) m) (Remap (fn_MacroTable fn) m)
                    (Remap (fn_EndTable fn) m) in
      let '(cs, r) := splice_constants level gens cs r in
      (CFunction fn' :: cs, r)
  end.

(** [spliceFillers]. *)
Definition spliceFillers (level : Z) (bytecode : ByteCode) (config : MutationConfig) (r : R)
    : ByteCode * R :=
  let gens := fillerGenerators config in
  if (length gens =? 0)%nat then (bytecode, r)
  else
    let '((ins, remap), r) := padInstructions level (Instructions bytecode) true gens r in
    let m := remap_Z <$> remap in
    let '(cs, r) := splice_constants level gens (Constants bytecode) r in
    (bc_with bytecode ins cs (OpcodeMap bytecode) (Remap (bc_LineTable bytecode) m)
        (Remap (bc_MacroTable bytecode) m) (Remap (bc_EndTable bytecode) m), r).

(* ------------------------------------------------------------------ *)
(** ** The constant pool *)

(** The Fisher-Yates loop, from [i] down to 1. *)
Fixpoint shuffle_loop {A : Type} (i : nat) (l : list A) (r : R) : list A * R :=
  match i with
  | O => (l, r)
  | S i' =>
      let '(j, r) := Intn r (S i) in
      let l := match l !! i, l !! j with
               | Some x, Some y => <[j := x]> (<[i := y]> l)
               | _, _ => l
               end in
      shuffle_loop i' l r
  end.

(** [generateShuffleMapping]. *)
Definition generateShuffleMapping (size : nat) (r : R) : list nat * R :=
  shuffle_loop (size - 1) (seq 0 size) r.

(** The operand loop of [updateConstantReferences]. *)
Fixpoint update_operands (slots : list nat) (mapping : list nat)
    (widths : list nat) (operand offset : nat) (result : list Z) : list Z :=
  match widths with
  | [] => result
  | w :: rest =>
      let result :=
        if (w =? 2)%nat && containsInt slots operand then
          let oldIdx := Z.to_nat (Uint16 result offset) in
          match mapping !! oldIdx with
          | Some new => PutUint16 result offset (u16 (Z.of_nat new))
          | None => result
          end
        else result in
      update_operands slots mapping rest (S operand) (offset + w) result
  end.

(** [updateConstantReferences]: the walk breaks off at a byte it cannot
    decode and keeps what it has. *)
Fixpoint update_loop (fuel : nat) (mapping : list nat) (result : list Z) (i : nat) : list Z :=
  match fuel with
  | O => result
  | S fuel =>
      if (i <? length result)%nat then
        match Lookup (result !!! i) with
        | None => result
        | Some def =>
            let instLen := def_width def in
            if (length result <? i + instLen)%nat then result
            else
              let slots := ConstantOperands (result !!! i) in
              let result := update_operands slots mapping (OperandWidths def) 0 (i + 1) result in
              update_loop fuel mapping result (i + instLen)
        end
      else result
  end.

Definition updateConstantReferences (instructions : list Z) (mapping : list nat) : list Z :=
  update_loop (S (length instructions)) mapping instructions 0.

Definition update_constant (mapping : list nat) (c : Constant) : Constant :=
  match c with
  | CFunction fn =>
      CFunction (fn_with fn (updateConstantReferences (fn_Instructions fn) mapping)
                    (fn_LineTable fn) (fn_MacroTable fn) (fn_EndTable fn))
  | COther v => COther v
  end.

(** [for oldIdx, newIdx := range mapping { newConstants[newIdx] = cs[oldIdx] }],
    from a slice of nils. *)
Fixpoint reorder_loop {A : Type} (mapping : list nat) (cs : list A) (new : list (option A))
    : list (option A) :=
  match mapping, cs with
  | newIdx :: mapping, c :: cs => reorder_loop mapping cs (<[newIdx := Some c]> new)
  | _, _ => new
  end.

Definition reorder {A : Type} (mapping : list nat) (cs : list A) : list (option A) :=
  reorder_loop mapping cs (replicate (length cs) None).

(** [randomizeConstantPool]; the reordered slice has no nil left
    ([reorder_permutes]), so [omap] drops nothing. *)
Definition randomizeConstantPool (bytecode : ByteCode) (r : R) : ByteCode * R :=
  if (length (Constants bytecode) <=? 1)%nat then (bytecode, r)
  else
    let '(mapping, r) := generateShuffleMapping (length (Constants bytecode)) r in
    let newConstants := omap id (reorder mapping (Constants bytecode)) in
    (bc_with bytecode (updateConstantReferences (Instructions bytecode) mapping)
        (update_constant mapping <$> newConstants)
        (OpcodeMap bytecode) (bc_LineTable bytecode) (bc_MacroTable bytecode)
        (bc_EndTable bytecode), r).

(* ------------------------------------------------------------------ *)
(** ** The opcode permutation *)

(** [generateOpcodeMapping], as the list of (original, shuffled) pairs. *)
Definition generateOpcodeMapping (r : R) : list (Z * Z) * R :=
  let '(shuffled, r) := shuffle_loop (length AllOpcodes - 1) AllOpcodes r in
  (zip AllOpcodes shuffled, r).

(** [opcodeTables]: the range over the map writes distinct entries of each
    table, so its order does not matter. *)
Definition opcodeTables (mapping : list (Z * Z)) : list Z * list Z :=
  foldl (fun '(fwd, rv) '(orig, mapped) =>
           (<[Z.to_nat orig := mapped]> fwd, <[Z.to_nat mapped := orig]> rv))
        (seqZ 0 256, seqZ 0 256) mapping.

(** [remapOpcodes]. *)
Fixpoint remap_loop (fuel : nat) (forward ins out : list Z) (i : nat) : option (list Z) :=
  match fuel with
  | O => None
  | S fuel =>
      if (i <? length out)%nat then
        match Lookup (ins !!! i) with
        | None => None
        | Some def =>
            let width := def_width def in
            if (length out <? i + width)%nat then None
            else remap_loop fuel forward ins
                   (<[i := forward !!! Z.to_nat (ins !!! i)]> out) (i + width)
        end
      else Some out
  end.

Definition remapOpcodes (ins forward : list Z) : option (list Z) :=
  remap_loop (S (length ins)) forward ins ins 0.

(** The two loops of [mutateOpcodes] over the constants: every function is
    remapped, or none is. *)
Fixpoint remap_constants (forward : list Z) (cs : list Constant) : option (list Constant) :=
  match cs with
  | [] => Some []
  | COther v :: cs => (fun cs => COther v :: cs) <$> remap_constants forward cs
  | CFunction fn :: cs =>
      match remapOpcodes (fn_Instructions fn) forward with
      | None => None
      | Some ins =>
          (fun cs => CFunction (fn_with fn ins (fn_LineTable fn) (fn_MacroTable fn) (fn_EndTable fn)) :: cs)
          <$> remap_constants forward cs
      end
  end.

(** [mutateOpcodes]. *)
Definition mutateOpcodes (bytecode : ByteCode) (r : R) : ByteCode * R :=
  let '(mapping, r) := generateOpcodeMapping r in
  let '(forward, reverse) := opcodeTables mapping in
  match remapOpcodes (Instructions bytecode) forward with
  | None => (bytecode, r)
  | Some remapped =>
      match remap_constants forward (Constants bytecode) with
      | None => (bytecode, r)
      | Some cs =>
          (bc_with bytecode remapped cs (Some reverse) (bc_LineTable bytecode) (bc_MacroTable bytecode)
              (bc_EndTable bytecode), r)
      end
  end.

(** [AddPolymorphicMarker] and [DetectPolymorphicLevel]. *)
Definition AddPolymorphicMarker (level : Z) (instructions : list Z) : list Z :=
  instructions ++ [0xFF; u8 level].

Definition DetectPolymorphicLevel (instructions : list Z) : Z :=
  let n := length instructions in
  if (n <? 2)%nat then 0
  else if instructions !!! (n - 2)%nat =? 0xFF then
    let level := instructions !!! (n - 1)%nat in
    if level <=? 10 then level else 0
  else 0.

(** [Mutate]. *)
Definition Mutate (level : Z) (bytecode : ByteCode) (r : R) : ByteCode * R :=
  if level =? 0 then (bytecode, r)
  else
    let config := getConfig level in
    let '(bytecode, r) :=
      if InsertNOPs config || InsertDeadCode config
      then spliceFillers level bytecode config r else (bytecode, r) in
    let '(bytecode, r) :=
      if RandomizeConstants config then randomizeConstantPool bytecode r else (bytecode, r) in
    let '(bytecode, r) :=
      if MutateOpcodes config then mutateOpcodes bytecode r else (bytecode, r) in
    (bc_with bytecode (AddPolymorphicMarker level (Instructions bytecode)) (Constants bytecode)
        (OpcodeMap bytecode) (bc_LineTable bytecode) (bc_MacroTable bytecode)
        (bc_EndTable bytecode), r).

End Engine.

(** The VM's side of the permutation: [normalizeOpcodeMap] and [decodeOpcode]
    of [src/vm/vm.go]. *)
Definition normalizeOpcodeMap (reverse : option (list Z)) : option (list Z) :=
  match reverse with
  | Some t => if (length t =? 256)%nat then Some t else None
  | None => None
  end.

Definition decodeOpcode (opcodeReverse : option (list Z)) (b : Z) : Z :=
  match opcodeReverse with
  | None => b
  | Some t => t !!! Z.to_nat b
  end.

(** One instruction read at [ip] the way the VM reads it: the opcode byte
    through the reverse table, the operands as they stand. *)
Definition fetch (opcodeReverse : option (list Z)) (ins : list Z) (ip : nat) : option instr :=
  if (ip <? length ins)%nat then
    match opcode_of_byte (decodeOpcode opcodeReverse (ins !!! ip)) with
    | None => None
    | Some op => Some (Instr op (ReadOperands (definitions op) (drop (S ip) ins)).1)
    end
  else None.

(* ------------------------------------------------------------------ *)
(** ** What the passes do to a decoded stream *)

(** A stream whose opcode bytes went through [fwd] and nothing else. *)
Definition instr_bytes_with (fwd : Z -> Z) (i : instr) : list Z :=
  fwd (opcode_byte (iop i)) :: operands_bytes (iwidths i) (iargs i).

Fixpoint encode_with (fwd : Z -> Z) (l : list instr) : list Z :=
  match l with
  | [] => []
  | i :: l => instr_bytes_with fwd i ++ encode_with fwd l
  end.

(** An instruction with the arguments in [slots] replaced. *)
Fixpoint map_args (slots : list nat) (g : Z -> Z) (k : nat) (args : list Z) : list Z :=
  match args with
  | [] => []
  | a :: args => (if containsInt slots k then g a else a) :: map_args slots g (S k) args
  end.

(** Where the shuffle sends a constant index. *)
Definition const_index (mapping : list nat) (a : Z) : Z :=
  match mapping !! Z.to_nat a with
  | Some new => Z.of_nat new
  | None => a
  end.

Definition repoint (mapping : list nat) (i : instr) : instr :=
  Instr (iop i) (map_args (ConstantOperands (opcode_byte (iop i))) (const_index mapping) 0 (iargs i)).

(* ------------------------------------------------------------------ *)
(** ** Boundaries *)

Lemma boundaries_loop_encode l fuel pre st ws :
  (length l < fuel)%nat ->
  boundaries_loop fuel (pre ++ encode l) (length pre) st ws
  = Some (st ++ starts_from (length pre) l, ws ++ (instr_width <$> l)).
Proof.
  revert fuel pre st ws. induction l as [|i l IH]; intros [|fuel] pre st ws Hf;
    cbn [length] in Hf; try lia; cbn [boundaries_loop encode starts_from].
  - rewrite app_nil_r, Nat.ltb_irrefl. simpl. by rewrite !app_nil_r.
  - rewrite (proj2 (Nat.ltb_lt _ _) (cursor_inside _ _ _)), encode_at_lookup.
    fold (instr_width i). rewrite (proj2 (Nat.ltb_ge _ _) (cursor_fits _ _ _)).
    rewrite app_assoc, cursor_next, IH by lia.
    by rewrite <- !app_assoc.
Qed.

Lemma boundaries_loop_inv fuel ins i st ws r :
  is_bytes ins -> (i <= length ins)%nat ->
  boundaries_loop fuel ins i st ws = Some r ->
  exists l, Forall instr_ok l /\ drop i ins = encode l /\ (length l < fuel)%nat.
Proof.
  intros Hb. revert i st ws. induction fuel as [|fuel IH]; intros i st ws Hi H; [done|].
  cbn [boundaries_loop] in H. destruct (Nat.ltb_spec i (length ins)) as [Hlt|Hge].
  - destruct (Lookup (ins !!! i)) as [def|] eqn:El; [|done].
    destruct (Nat.ltb_spec (length ins) (i + def_width def)) as [|Hw]; [done|].
    apply IH in H as (l & Hl & Hd & Hf); [|done].
    destruct (decode_at ins i def) as (j & Hj & -> & Hr); [done..|].
    exists (j :: l). split; [by constructor|]. split; [|simpl; lia].
    by rewrite Hr, Hd.
  - exists []. split; [constructor|]. split; [|simpl; lia].
    rewrite drop_ge by lia. done.
Qed.

(** A stream decodes exactly when it is a list of well-formed instructions
    laid end to end, and then the boundaries are theirs. *)
Lemma decodeBoundaries_encode l :
  decodeBoundaries (encode l) = Some (starts_from 0 l, instr_width <$> l).
Proof.
  apply (boundaries_loop_encode l _ []). pose proof (length_encode_ge l). simpl. lia.
Qed.

Lemma decodeBoundaries_inv ins r :
  is_bytes ins -> decodeBoundaries ins = Some r ->
  exists l, Forall instr_ok l /\ ins = encode l /\ r = (starts_from 0 l, instr_width <$> l).
Proof.
  intros Hb H. destruct (boundaries_loop_inv _ _ _ _ _ _ Hb (Nat.le_0_l _) H) as (l & Hl & Hd & _).
  rewrite drop_0 in Hd. subst ins. exists l.
  split; [done|]. split; [done|]. rewrite decodeBoundaries_encode in H. by simplify_eq.
Qed.

(* ------------------------------------------------------------------ *)
(** ** The opcode permutation *)

Lemma length_instr_bytes_with fwd i : length (instr_bytes_with fwd i) = instr_width i.
Proof. apply length_instr_bytes. Qed.

Lemma length_encode_with fwd l : length (encode_with fwd l) = length (encode l).
Proof.
  induction l as [|i l IH]; cbn [encode encode_with]; [done|].
  by rewrite !length_app, IH, length_instr_bytes, length_instr_bytes_with.
Qed.

Lemma remap_loop_encode forward l fuel pre pre' :
  (length l < fuel)%nat -> length pre' = length pre ->
  remap_loop fuel forward (pre ++ encode l) (pre' ++ encode l) (length pre)
  = Some (pre' ++ encode_with (fun b => forward !!! Z.to_nat b) l).
Proof.
  revert fuel pre pre'. induction l as [|i l IH]; intros [|fuel] pre pre' Hf Hp;
    cbn [length] in Hf; try lia; cbn [remap_loop encode encode_with].
  - by rewrite !app_nil_r, Hp, Nat.ltb_irrefl.
  - assert (Hl : length (pre' ++ instr_bytes i ++ encode l)
               = length (pre ++ instr_bytes i ++ encode l)) by (by rewrite !length_app, Hp).
    rewrite Hl, (proj2 (Nat.ltb_lt _ _) (cursor_inside _ _ _)), encode_at_lookup, encode_at.
    fold (instr_width i). rewrite (proj2 (Nat.ltb_ge _ _) (cursor_fits _ _ _)).
    set (fwd := fun b => forward !!! Z.to_nat b). fold (fwd (opcode_byte (iop i))).
    rewrite <- Hp at 1. unfold instr_bytes at 2. cbn [app]. rewrite insert_app_at.
    change (fwd (opcode_byte (iop i)) :: operands_bytes (iwidths i) (iargs i) ++ encode l)
      with (instr_bytes_with fwd i ++ encode l).
    rewrite (app_assoc pre), (app_assoc pre'), cursor_next, IH; [by rewrite <- app_assoc | lia |].
    by rewrite !length_app, Hp, length_instr_bytes, length_instr_bytes_with.
Qed.

Lemma remapOpcodes_encode forward l :
  remapOpcodes (encode l) forward = Some (encode_with (fun b => forward !!! Z.to_nat b) l).
Proof.
  apply (remap_loop_encode forward l _ [] []); [|done].
  pose proof (length_encode_ge l). simpl. lia.
Qed.

Lemma remap_loop_inv fuel forward ins out i r :
  is_bytes ins -> length out = length ins -> (i <= length ins)%nat ->
  remap_loop fuel forward ins out i = Some r ->
  exists l, Forall instr_ok l /\ drop i ins = encode l.
Proof.
  intros Hb. revert out i. induction fuel as [|fuel IH]; intros out i Ho Hi H; [done|].
  cbn [remap_loop] in H. rewrite Ho in H. destruct (Nat.ltb_spec i (length ins)) as [Hlt|Hge].
  - destruct (Lookup (ins !!! i)) as [def|] eqn:El; [|done].
    destruct (Nat.ltb_spec (length ins) (i + def_width def)) as [|Hw]; [done|].
    apply IH in H as (l & Hl & Hd); [|by rewrite length_insert|done].
    destruct (decode_at ins i def) as (j & Hj & -> & Hr); [done..|].
    exists (j :: l). split; [by constructor|]. by rewrite Hr, Hd.
  - exists []. split; [constructor|]. by rewrite drop_ge by lia.
Qed.

Lemma remapOpcodes_inv ins forward r :
  is_bytes ins -> remapOpcodes ins forward = Some r ->
  exists l, Forall instr_ok l /\ ins = encode l /\
    r = encode_with (fun b => forward !!! Z.to_nat b) l.
Proof.
  intros Hb H. destruct (remap_loop_inv _ _ _ _ _ _ Hb eq_refl (Nat.le_0_l _) H) as (l & Hl & Hd).
  rewrite drop_0 in Hd. subst ins. exists l. rewrite remapOpcodes_encode in H. by simplify_eq.
Qed.

Lemma shuffle_loop_Permutation {R} `{Rng R} {A} i (l : list A) r :
  (shuffle_loop i l r).1 ≡ₚ l.
Proof.
  revert l r. induction i as [|i IH]; intros l r; [done|]. cbn [shuffle_loop].
  destruct (Intn r (S (S i))) as [j r']. rewrite IH.
  destruct (l !! S i) as [x|] eqn:Ei; [|done]. destruct (l !! j) as [y|] eqn:Ej; [|done].
  by apply Permutation_insert_swap.
Qed.

(** The two tables after writing a list of pairs with distinct sides. *)
Lemma tables_fold mapping fwd rv :
  NoDup mapping.*1 -> NoDup mapping.*2 ->
  (forall p, p ∈ mapping -> is_byte p.1 /\ is_byte p.2) ->
  length fwd = 256%nat -> length rv = 256%nat ->
  let '(fwd', rv') :=
    foldl (fun '(fwd, rv) '(orig, mapped) =>
             (<[Z.to_nat orig := mapped]> fwd, <[Z.to_nat mapped := orig]> rv))
          (fwd, rv) mapping in
  length fwd' = 256%nat /\ length rv' = 256%nat /\
  (forall a s, (a, s) ∈ mapping -> fwd' !!! Z.to_nat a = s /\ rv' !!! Z.to_nat s = a) /\
  (forall b, is_byte b -> b ∉ mapping.*1 -> fwd' !!! Z.to_nat b = fwd !!! Z.to_nat b) /\
  (forall b, is_byte b -> b ∉ mapping.*2 -> rv' !!! Z.to_nat b = rv !!! Z.to_nat b).
Proof.
  revert fwd rv. induction mapping as [|[a s] mapping IH]; intros fwd rv N1 N2 Hr Hf Hv.
  { simpl. repeat split; try done. all: by apply not_elem_of_nil in H. }
  cbn [foldl]. cbn [fmap list_fmap fst snd] in N1, N2.
  apply NoDup_cons in N1 as [Ha N1]. apply NoDup_cons in N2 as [Hs N2].
  destruct (Hr (a, s)) as [Hba Hbs]; [by constructor|]. simpl in Hba, Hbs.
  specialize (IH (<[Z.to_nat a:=s]> fwd) (<[Z.to_nat s:=a]> rv) N1 N2).
  destruct (foldl _ _ _) as [fwd' rv'].
  destruct IH as (L1 & L2 & IH1 & IH2 & IH3);
    [intros; apply Hr; by constructor | by rewrite length_insert | by rewrite length_insert |].
  assert (Hne : forall u v : Z, is_byte u -> is_byte v -> u <> v -> Z.to_nat u <> Z.to_nat v)
    by (unfold is_byte; lia).
  split; [done|]. split; [done|]. split; [|split].
  - intros b t [[= -> ->]|Hin]%elem_of_cons; [|by apply IH1].
    rewrite IH2, IH3 by done. unfold is_byte in *.
    split; apply list_lookup_total_insert_eq; lia.
  - intros b Hb Hni. rewrite IH2 by (done || set_solver).
    apply list_lookup_total_insert_ne, Hne; [done..|set_solver].
  - intros b Hb Hni. rewrite IH3 by (done || set_solver).
    apply list_lookup_total_insert_ne, Hne; [done..|set_solver].
Qed.

Lemma AllOpcodes_NoDup : NoDup AllOpcodes.
Proof. apply NoDup_filter, NoDup_seqZ. Qed.

Lemma elem_of_AllOpcodes b : b ∈ AllOpcodes <-> is_Some (Lookup b).
Proof.
  unfold AllOpcodes. rewrite list_elem_of_filter, elem_of_seqZ. split; [by intros [? _]|].
  intros [def Hd]. split; [by exists def|]. apply Lookup_range in Hd. unfold is_byte in Hd. lia.
Qed.

Lemma seqZ_256 b : is_byte b -> seqZ 0 256 !!! Z.to_nat b = b.
Proof.
  intros Hb. apply list_lookup_total_correct, lookup_seqZ. unfold is_byte in Hb. lia.
Qed.

(** The tables are inverse permutations of the bytes that fix every byte that
    is no opcode. *)
Lemma opcode_tables_inverse {R} `{Rng R} (r : R) :
  let '(forward, reverse) := opcodeTables (generateOpcodeMapping r).1 in
  length forward = 256%nat /\ length reverse = 256%nat /\
  forall b, is_byte b ->
    is_byte (forward !!! Z.to_nat b) /\
    reverse !!! Z.to_nat (forward !!! Z.to_nat b) = b /\
    (Lookup b = None -> forward !!! Z.to_nat b = b).
Proof.
  unfold generateOpcodeMapping, opcodeTables.
  pose proof (shuffle_loop_Permutation (length AllOpcodes - 1) AllOpcodes r) as Hp.
  destruct (shuffle_loop _ _ _) as [sh r']. cbn [fst] in *.
  assert (Hl : length sh = length AllOpcodes) by (by apply Permutation_length).
  assert (H1 : (zip AllOpcodes sh).*1 = AllOpcodes) by (apply fst_zip; lia).
  assert (H2 : (zip AllOpcodes sh).*2 = sh) by (apply snd_zip; lia).
  assert (Hb : forall b, b ∈ AllOpcodes -> is_byte b).
  { intros b (def & Hd)%elem_of_AllOpcodes. by eapply Lookup_range. }
  pose proof (tables_fold (zip AllOpcodes sh) (seqZ 0 256) (seqZ 0 256)) as Ht.
  rewrite H1, H2 in Ht. destruct (foldl _ _ _) as [fwd rv].
  destruct Ht as (L1 & L2 & Hin & Hf & Hv).
  { apply AllOpcodes_NoDup. } { rewrite Hp. apply AllOpcodes_NoDup. }
  { intros [a s] Hz. split; simpl; apply Hb.
    - rewrite <- H1. by apply (list_elem_of_fmap_2 fst) in Hz.
    - rewrite <- Hp, <- H2. by apply (list_elem_of_fmap_2 snd) in Hz. }
  { done. } { done. }
  split; [done|]. split; [done|]. intros b Hbb.
  destruct (decide (b ∈ AllOpcodes)) as [Ho|Ho].
  - rewrite <- H1 in Ho. apply list_elem_of_fmap in Ho as ([a s] & -> & Hz). simpl.
    destruct (Hin a s Hz) as [-> ->]. split; [|split; [done|]].
    + apply Hb. rewrite <- Hp, <- H2. by apply (list_elem_of_fmap_2 snd) in Hz.
    + intros Hn. apply (list_elem_of_fmap_2 fst) in Hz. rewrite H1, elem_of_AllOpcodes in Hz.
      simpl in Hz. rewrite Hn in Hz. by destruct Hz.
  - rewrite Hf, seqZ_256 by done. split; [done|]. split; [|done].
    rewrite Hv, seqZ_256 by (done || by rewrite Hp). done.
Qed.

(** Reading an instruction of a remapped stream through the inverse table. *)
Lemma fetch_with fwd reverse pre i post :
  instr_ok i -> decodeOpcode reverse (fwd (opcode_byte (iop i))) = opcode_byte (iop i) ->
  fetch reverse (pre ++ instr_bytes_with fwd i ++ post) (length pre) = Some i.
Proof.
  intros [Hl Hf] Hd. unfold fetch.
  rewrite (proj2 (Nat.ltb_lt _ _)) by (rewrite !length_app, length_instr_bytes_with;
    pose proof (instr_width_pos i); lia).
  rewrite lookup_total_app_r, Nat.sub_diag by lia. unfold instr_bytes_with at 1. cbn [app].
  cbn [lookup_total list_lookup_total]. rewrite Hd, opcode_of_byte_byte.
  replace (drop _ _) with (operands_bytes (iwidths i) (iargs i) ++ post).
  2:{ replace (S (length pre)) with (length (pre ++ [fwd (opcode_byte (iop i))]))
        by (rewrite length_app; simpl; lia).
      change (instr_bytes_with fwd i ++ post) with
        ([fwd (opcode_byte (iop i))] ++ operands_bytes (iwidths i) (iargs i) ++ post).
      by rewrite app_assoc, drop_app_at. }
  unfold ReadOperands. fold (iwidths i).
  pose proof (read_loop_spec _ (iargs i) [] post (iwidths_ok i) Hf Hl) as Hr.
  simpl in Hr. rewrite Hr. by destruct i.
Qed.

Lemma encode_with_app fwd l k : encode_with fwd (l ++ k) = encode_with fwd l ++ encode_with fwd k.
Proof. induction l as [|i l IH]; cbn [encode_with app]; [done|]. by rewrite IH, app_assoc. Qed.

Lemma encode_with_id l : encode_with id l = encode l.
Proof. induction l as [|i l IH]; cbn [encode_with encode]; [done|]. by rewrite IH. Qed.

Lemma fetch_encode_with fwd reverse l n i :
  Forall instr_ok l -> l !! n = Some i ->
  decodeOpcode reverse (fwd (opcode_byte (iop i))) = opcode_byte (iop i) ->
  fetch reverse (encode_with fwd l) (length (encode (take n l))) = Some i.
Proof.
  intros Hl Hn Hd. rewrite <- (take_drop_middle l n i Hn) at 1.
  rewrite encode_with_app. cbn [encode_with].
  rewrite <- (length_encode_with fwd (take n l)).
  apply fetch_with; [|done]. by eapply Forall_lookup_1.
Qed.

Lemma fetch_encode l n i :
  Forall instr_ok l -> l !! n = Some i ->
  fetch None (encode l) (length (encode (take n l))) = Some i.
Proof. intros Hl Hn. rewrite <- (encode_with_id l). by apply fetch_encode_with. Qed.

(** A remapped stream reads like the original at every instruction. *)
Definition reads_like (reverse : option (list Z)) (s s' : list Z) : Prop :=
  exists l, Forall instr_ok l /\ s = encode l /\ length s' = length s /\
    forall n i, l !! n = Some i ->
      fetch reverse s' (length (encode (take n l))) = Some i /\
      fetch None s (length (encode (take n l))) = Some i.

Lemma remapped_reads_like fwd rv ins out :
  is_bytes ins ->
  (forall b, is_byte b -> rv !!! Z.to_nat (fwd !!! Z.to_nat b) = b) ->
  remapOpcodes ins fwd = Some out -> reads_like (Some rv) ins out.
Proof.
  intros Hb Hinv H. destruct (remapOpcodes_inv _ _ _ Hb H) as (l & Hl & -> & ->).
  exists l. split; [done|]. split; [done|]. split; [apply length_encode_with|].
  intros n i Hn. split; [|by apply fetch_encode].
  apply fetch_encode_with; [done..|]. apply Hinv.
  eapply Lookup_range, Lookup_opcode.
Qed.

Definition constant_bytes (c : Constant) : Prop :=
  match c with CFunction fn => is_bytes (fn_Instructions fn) | COther _ => True end.

Definition constant_reads_like (reverse : option (list Z)) (c c' : Constant) : Prop :=
  match c, c' with
  | CFunction fn, CFunction fn' =>
      reads_like reverse (fn_Instructions fn) (fn_Instructions fn') /\
      fn_LineTable fn' = fn_LineTable fn /\ fn_MacroTable fn' = fn_MacroTable fn /\
      fn_EndTable fn' = fn_EndTable fn
  | COther v, COther v' => v = v'
  | _, _ => False
  end.

Lemma remap_constants_reads_like fwd rv cs cs' :
  Forall constant_bytes cs ->
  (forall b, is_byte b -> rv !!! Z.to_nat (fwd !!! Z.to_nat b) = b) ->
  remap_constants fwd cs = Some cs' -> Forall2 (constant_reads_like (Some rv)) cs cs'.
Proof.
  intros Hb Hinv. revert cs'. induction Hb as [|[fn|v] cs Hc Hcs IH]; intros cs' H; cbn [remap_constants] in H.
  - by simplify_eq.
  - destruct (remapOpcodes (fn_Instructions fn) fwd) as [out|] eqn:E; [|done].
    destruct (remap_constants fwd cs); simplify_eq/=. constructor; [|by apply IH].
    split; [|done]. by eapply remapped_reads_like.
  - destruct (remap_constants fwd cs); simplify_eq/=. constructor; [done|]. by apply IH.
Qed.

(* ------------------------------------------------------------------ *)
(** ** The constant pool *)

Lemma PutUint16_operand pre a v post :
  0 <= v < 65536 ->
  PutUint16 (pre ++ operand_bytes 2 a ++ post) (length pre) (u16 v)
  = pre ++ operand_bytes 2 v ++ post.
Proof.
  intros Hv. unfold PutUint16. rewrite u16_id by done. cbn [operand_bytes app].
  rewrite (cons_middle (a / 256)), app_assoc.
  replace (S (length pre)) with (length (pre ++ [a / 256])) by (rewrite length_app; simpl; lia).
  rewrite insert_app_at, <- app_assoc. cbn [app]. by rewrite insert_app_at.
Qed.

Lemma Uint16_operand pre a post :
  0 <= a < 65536 -> Uint16 (pre ++ operand_bytes 2 a ++ post) (length pre) = a.
Proof. intros. apply (read_operand pre 2 a post); [by right | simpl; lia]. Qed.

(** The operand walk rewrites the wide operands of the slots and leaves the
    rest as they are. *)
Lemma update_operands_spec slots mapping ws args k pre post :
  Forall width_ok ws -> length args = length ws -> operands_fit ws args ->
  (forall j, containsInt slots j = true -> ws !! (j - k)%nat = Some 2%nat \/ (j < k)%nat) ->
  Forall (fun n => Z.of_nat n < 65536) mapping ->
  update_operands slots mapping ws k (length pre) (pre ++ operands_bytes ws args ++ post)
  = pre ++ operands_bytes ws (map_args slots (const_index mapping) k args) ++ post.
Proof.
  intros Hw. revert args k pre. induction Hw as [|w ws Hw Hws IH];
    intros [|a args] k pre Hl Hf Hs Hm; simplify_eq/=; [done|].
  apply operands_fit_cons in Hf as [Ha Hf]. rewrite <- !app_assoc.
  set (a' := if containsInt slots k then const_index mapping a else a).
  assert (Hnext : forall j, containsInt slots j = true ->
    ws !! (j - S k)%nat = Some 2%nat \/ (j < S k)%nat).
  { intros j Hj. destruct (Hs j Hj) as [H|]; [|lia].
    destruct (decide (j < S k)%nat); [by right|left].
    replace (j - k)%nat with (S (j - S k)) in H by lia. done. }
  assert (Hstep : (if (w =? 2)%nat && containsInt slots k then
      match mapping !! Z.to_nat (Uint16 (pre ++ operand_bytes w a ++ operands_bytes ws args ++ post) (length pre)) with
      | Some new => PutUint16 (pre ++ operand_bytes w a ++ operands_bytes ws args ++ post) (length pre) (u16 (Z.of_nat new))
      | None => pre ++ operand_bytes w a ++ operands_bytes ws args ++ post
      end else pre ++ operand_bytes w a ++ operands_bytes ws args ++ post)
    = pre ++ operand_bytes w a' ++ operands_bytes ws args ++ post).
  { subst a'. destruct (containsInt slots k) eqn:Ek; [|by rewrite andb_false_r].
    destruct (Hs k Ek) as [E|?]; [|lia]. rewrite Nat.sub_diag in E. injection E as ->.
    simpl in Ha. cbn [Nat.eqb andb]. rewrite Uint16_operand by lia. unfold const_index.
    destruct (mapping !! Z.to_nat a) as [new|] eqn:En; [|done].
    eapply Forall_lookup_1 in Hm; [|exact En]. apply PutUint16_operand. simpl in Hm. lia. }
  rewrite Hstep, app_assoc.
  replace (length pre + w)%nat with (length (pre ++ operand_bytes w a'))
    by (by rewrite length_app, length_operand_bytes).
  rewrite IH by done. by rewrite <- app_assoc.
Qed.

Lemma length_map_args slots g k args : length (map_args slots g k args) = length args.
Proof. revert k. induction args as [|a args IH]; intros k; simpl; auto. Qed.

(** A slot of the constant table is a two-byte operand of its opcode. *)
Lemma constant_slots_wide op j :
  containsInt (ConstantOperands (opcode_byte op)) j = true ->
  OperandWidths (definitions op) !! j = Some 2%nat.
Proof.
  unfold ConstantOperands. rewrite opcode_of_byte_byte.
  destruct op; simpl; try done; destruct j as [|[|j]]; done.
Qed.

Lemma jump_slots_wide op j :
  containsInt (JumpOperands (opcode_byte op)) j = true ->
  OperandWidths (definitions op) !! j = Some 2%nat.
Proof.
  unfold JumpOperands. rewrite opcode_of_byte_byte.
  destruct op; simpl; try done; destruct j as [|[|j]]; done.
Qed.

Lemma update_loop_spec mapping l fuel pre :
  Forall instr_ok l -> Forall (fun n => Z.of_nat n < 65536) mapping ->
  (length l < fuel)%nat ->
  update_loop fuel mapping (pre ++ encode l) (length pre)
  = pre ++ encode (repoint mapping <$> l).
Proof.
  intros Hl Hm. revert fuel pre. induction Hl as [|i l [Hlen Hf] Hl IH];
    intros [|fuel] pre Hfu; cbn [length] in Hfu; try lia; cbn [update_loop encode fmap list_fmap].
  - by rewrite app_nil_r, Nat.ltb_irrefl.
  - rewrite (proj2 (Nat.ltb_lt _ _) (cursor_inside _ _ _)), encode_at_lookup, encode_at.
    fold (instr_width i). rewrite (proj2 (Nat.ltb_ge _ _) (cursor_fits _ _ _)).
    fold (iwidths i).
    change (pre ++ instr_bytes i ++ encode l) with
      (pre ++ [opcode_byte (iop i)] ++ (operands_bytes (iwidths i) (iargs i) ++ encode l)).
    rewrite app_assoc.
    replace (length pre + 1)%nat with (length (pre ++ [opcode_byte (iop i)]))
      by (rewrite length_app; done).
    rewrite update_operands_spec; [|apply iwidths_ok|done|done| |done].
    2:{ intros j Hj. left. rewrite Nat.sub_0_r. by apply constant_slots_wide. }
    rewrite <- app_assoc.
    change ([opcode_byte (iop i)] ++ operands_bytes (iwidths i) ?a ++ encode l)
      with (instr_bytes (repoint mapping i) ++ encode l).
    rewrite (app_assoc pre). change (instr_width i) with (instr_width (repoint mapping i)).
    rewrite cursor_next, IH by lia. by rewrite <- app_assoc.
Qed.

Lemma updateConstantReferences_encode mapping l :
  Forall instr_ok l -> Forall (fun n => Z.of_nat n < 65536) mapping ->
  updateConstantReferences (encode l) mapping = encode (repoint mapping <$> l).
Proof.
  intros Hl Hm. apply (update_loop_spec mapping l _ []); [done..|].
  pose proof (length_encode_ge l). simpl. lia.
Qed.

Lemma length_reorder_loop {A} mapping (cs : list A) new :
  length (reorder_loop mapping cs new) = length new.
Proof.
  revert cs new. induction mapping as [|m mapping IH]; intros [|c cs] new; simpl; [done..|].
  by rewrite IH, length_insert.
Qed.

Lemma reorder_loop_other {A} mapping (cs : list A) new m :
  m ∉ mapping -> reorder_loop mapping cs new !! m = new !! m.
Proof.
  revert cs new. induction mapping as [|m' mapping IH]; intros [|c cs] new Hm; simpl; [done..|].
  apply not_elem_of_cons in Hm as [Hm Hr]. rewrite IH by done. by apply list_lookup_insert_ne.
Qed.

Lemma reorder_loop_lookup {A} mapping (cs : list A) new i m c :
  NoDup mapping -> (forall m, m ∈ mapping -> (m < length new)%nat) ->
  mapping !! i = Some m -> cs !! i = Some c ->
  reorder_loop mapping cs new !! m = Some (Some c).
Proof.
  revert cs new i. induction mapping as [|m' mapping IH]; intros [|c' cs] new [|i] Hn Hr Hm Hc;
    simplify_eq/=; apply NoDup_cons in Hn as [Hni Hn].
  - rewrite reorder_loop_other by done. apply list_lookup_insert_eq, Hr. by left.
  - apply (IH _ _ i); [done| |done..]. intros k Hk. rewrite length_insert. apply Hr. by right.
Qed.

(** The shuffled pool holds every constant once, at its mapped index. *)
Lemma reorder_permutes {A} mapping (cs : list A) :
  mapping ≡ₚ seq 0 (length cs) ->
  exists new, reorder mapping cs = Some <$> new /\ length new = length cs /\
    forall i m, mapping !! i = Some m -> new !! m = cs !! i.
Proof.
  intros Hp.
  assert (Hn : NoDup mapping) by (rewrite Hp; apply NoDup_seq).
  assert (Hlen : length mapping = length cs) by (rewrite Hp; apply length_seq).
  assert (Hr : forall m, m ∈ mapping -> (m < length (replicate (length cs) (@None A)))%nat).
  { intros m Hm. rewrite Hp in Hm. apply elem_of_seq in Hm. rewrite length_replicate. lia. }
  assert (Hat : forall i m c, mapping !! i = Some m -> cs !! i = Some c ->
    reorder mapping cs !! m = Some (Some c)).
  { intros i m c Hm Hc. by apply (reorder_loop_lookup _ _ _ i). }
  assert (Hl : length (reorder mapping cs) = length cs).
  { unfold reorder. by rewrite length_reorder_loop, length_replicate. }
  destruct (mapM id (reorder mapping cs)) as [new|] eqn:E.
  - apply mapM_Some in E.
    assert (Hnew : reorder mapping cs = Some <$> new).
    { clear -E. induction E as [|x y l k Hxy E IH]; [done|]. simpl in Hxy. by rewrite Hxy, IH. }
    exists new. split; [done|]. rewrite <- Hl, Hnew, length_fmap. split; [done|].
    intros i m Hm. destruct (cs !! i) as [c|] eqn:Ec.
    + pose proof (Hat _ _ _ Hm Ec) as H. rewrite Hnew, list_lookup_fmap in H.
      destruct (new !! m); by simplify_eq/=.
    + apply lookup_ge_None in Ec. apply lookup_lt_Some in Hm. lia.
  - exfalso. apply mapM_None, Exists_exists in E as (o & Ho & En). simpl in En. subst o.
    apply list_elem_of_lookup in Ho as [m Ho].
    assert (Hm : m ∈ mapping).
    { rewrite Hp. apply elem_of_seq. apply lookup_lt_Some in Ho. lia. }
    apply list_elem_of_lookup in Hm as [i Hm].
    destruct (lookup_lt_is_Some_2 cs i) as [c Hc]; [apply lookup_lt_Some in Hm; lia|].
    rewrite (Hat _ _ _ Hm Hc) in Ho. done.
Qed.

Lemma omap_id_Some {A} (l : list A) : omap id (Some <$> l) = l.
Proof. induction l as [|x l IH]; [done|]. simpl. f_equal. exact IH. Qed.

(** The pool after the shuffle, read through the mapped index. *)
Lemma reorder_const_index {A} mapping (cs new : list A) a :
  mapping ≡ₚ seq 0 (length cs) -> length new = length cs ->
  (forall i m, mapping !! i = Some m -> new !! m = cs !! i) ->
  0 <= a -> new !! Z.to_nat (const_index mapping a) = cs !! Z.to_nat a.
Proof.
  intros Hp Hl Hat Ha. unfold const_index.
  assert (Hlen : length mapping = length cs) by (rewrite Hp; apply length_seq).
  destruct (mapping !! Z.to_nat a) as [m|] eqn:E.
  - rewrite Nat2Z.id. by apply Hat.
  - apply lookup_ge_None in E. rewrite !lookup_ge_None_2 by lia. done.
Qed.

(** A program whose streams all decode: what the compiler emits. *)
Definition decodable (s : list Z) : Prop := exists l, Forall instr_ok l /\ s = encode l.

Definition decodable_constant (c : Constant) : Prop :=
  match c with CFunction fn => decodable (fn_Instructions fn) | COther _ => True end.

Lemma remap_constants_total fwd cs :
  Forall decodable_constant cs -> exists cs', remap_constants fwd cs = Some cs'.
Proof.
  induction 1 as [|[fn|v] cs Hc Hcs [cs' IH]]; cbn [remap_constants]; [by eexists| |].
  - destruct Hc as (l & Hl & ->). rewrite remapOpcodes_encode, IH. by eexists.
  - rewrite IH. by eexists.
Qed.

(** [s'] is [s] with every constant index, and nothing else, sent through
    [mapping]. *)
Definition repointed (mapping : list nat) (s s' : list Z) : Prop :=
  exists l, Forall instr_ok l /\ s = encode l /\ s' = encode (repoint mapping <$> l).

Definition repointed_constant (mapping : list nat) (c c' : Constant) : Prop :=
  match c, c' with
  | CFunction fn, CFunction fn' =>
      repointed mapping (fn_Instructions fn) (fn_Instructions fn') /\
      fn_LineTable fn' = fn_LineTable fn /\ fn_MacroTable fn' = fn_MacroTable fn /\
      fn_EndTable fn' = fn_EndTable fn
  | COther v, COther v' => v = v'
  | _, _ => False
  end.

Lemma decodable_repointed mapping s :
  Forall (fun n => Z.of_nat n < 65536) mapping -> decodable s ->
  repointed mapping s (updateConstantReferences s mapping).
Proof.
  intros Hm (l & Hl & ->). exists l. split; [done|]. split; [done|].
  by apply updateConstantReferences_encode.
Qed.

Lemma update_constant_repointed mapping c :
  Forall (fun n => Z.of_nat n < 65536) mapping -> decodable_constant c ->
  repointed_constant mapping c (update_constant mapping c).
Proof. destruct c; simpl; auto using decodable_repointed. Qed.

(** The constant-pool shuffle keeps every reference.  For every generator
    and every program whose streams decode and whose pool a two-byte operand
    can index, there is one permutation of the pool such that the main stream
    and every function body come out with exactly their constant operands sent
    through it, and reading the new pool at a sent operand gives the constant
    the old operand named, its own body sent through the same permutation. *)
Theorem constant_shuffle_keeps_references {R} `{Rng R} (bc : ByteCode) (r : R) :
  (1 < length (Constants bc))%nat -> Z.of_nat (length (Constants bc)) <= 65536 ->
  decodable (Instructions bc) -> Forall decodable_constant (Constants bc) ->
  let bc' := (randomizeConstantPool bc r).1 in
  exists mapping, mapping ≡ₚ seq 0 (length (Constants bc)) /\
    repointed mapping (Instructions bc) (Instructions bc') /\
    length (Constants bc') = length (Constants bc) /\
    OpcodeMap bc' = OpcodeMap bc /\ bc_LineTable bc' = bc_LineTable bc /\
    (forall a c, 0 <= a -> Constants bc !! Z.to_nat a = Some c ->
       exists c', Constants bc' !! Z.to_nat (const_index mapping a) = Some c' /\
                  repointed_constant mapping c c').
Proof.
  intros H1 Hmax Hmain Hcs. unfold randomizeConstantPool.
  rewrite (proj2 (Nat.leb_gt _ _)) by lia. unfold generateShuffleMapping.
  pose proof (shuffle_loop_Permutation (length (Constants bc) - 1) (seq 0 (length (Constants bc))) r) as Hp.
  destruct (shuffle_loop _ _ _) as [mapping r']. cbn [fst] in *.
  destruct (reorder_permutes mapping (Constants bc) Hp) as (new & -> & Hl & Hat).
  rewrite omap_id_Some.
  assert (Hm : Forall (fun n => Z.of_nat n < 65536) mapping).
  { rewrite Hp. apply Forall_forall. intros n Hn%elem_of_seq. lia. }
  exists mapping. split; [done|]. cbn [bc_with Instructions Constants OpcodeMap bc_LineTable].
  split; [by apply decodable_repointed|]. split; [by rewrite length_fmap|].
  split; [done|]. split; [done|]. intros a c Ha Hc.
  exists (update_constant mapping c).
  rewrite list_lookup_fmap, (reorder_const_index mapping (Constants bc)), Hc by done.
  split; [done|]. apply update_constant_repointed; [done|]. by eapply Forall_lookup_1.
Qed.

(** A generator that draws from a counter, for the examples. *)
Lemma counter_draw_range (r n : nat) : (0 < n)%nat -> (r mod Nat.max n 1 < n)%nat.
Proof. intros Hn. rewrite Nat.max_l by lia. apply Nat.mod_upper_bound. lia. Qed.

#[export] Instance counter_rng : Rng nat := {
  Float64Below r _ := (true, S r);
  Intn r n := ((r mod Nat.max n 1)%nat, S r);
  Intn_range := counter_draw_range
}.

Definition sample_main : list instr :=
  [Instr OpConstant [0]; Instr OpConstant [1]; Instr OpAdd []; Instr OpPop []].

Definition sample_body : list instr :=
  [Instr OpConstant [2]; Instr OpReturnValue []].

Definition sample_program : ByteCode :=
  bare_program (encode sample_main)
    [COther 10; COther 20; CFunction (bare_function (encode sample_body))] [] [] [].

Lemma sample_main_ok : Forall instr_ok sample_main.
Proof.
  repeat constructor; simpl; try lia; intros [|?] ??; simpl; intros; simplify_eq/=; simpl; lia.
Qed.

Lemma sample_body_ok : Forall instr_ok sample_body.
Proof.
  repeat constructor; simpl; try lia; intros [|?] ??; simpl; intros; simplify_eq/=; simpl; lia.
Qed.

Lemma sample_constants_decodable : Forall decodable_constant (Constants sample_program).
Proof. repeat constructor. exists sample_body. split; [apply sample_body_ok | done]. Qed.

Lemma constant_shuffle_keeps_references_witness :
  exists mapping, mapping ≡ₚ seq 0 3 /\
    repointed mapping (Instructions sample_program)
      (Instructions (randomizeConstantPool sample_program 1%nat).1).
Proof.
  destruct (constant_shuffle_keeps_references sample_program 1%nat) as (m & Hp & Hr & _).
  - simpl. lia.
  - simpl. lia.
  - exists sample_main. split; [apply sample_main_ok | reflexivity].
  - apply sample_constants_decodable.
  - exists m. split; [exact Hp | exact Hr].
Defined.

(** C25: the opcode permutation is invisible to the VM.  For every generator and
    every program, [mutateOpcodes] either leaves the program as it was, which
    happens only when some stream does not decode, or it installs a reverse
    table the VM accepts ([normalizeOpcodeMap] keeps it) through which every
    instruction of the main stream and of every function body is fetched at
    its old offset with its old opcode and operands. *)
Theorem opcode_permutation_invisible {R} `{Rng R} (bc : ByteCode) (r : R) :
  is_bytes (Instructions bc) -> Forall constant_bytes (Constants bc) ->
  let bc' := (mutateOpcodes bc r).1 in
  (bc' = bc /\ (decodable (Instructions bc) -> ~ Forall decodable_constant (Constants bc))) \/
  exists reverse, OpcodeMap bc' = Some reverse /\
    normalizeOpcodeMap (OpcodeMap bc') = Some reverse /\
    reads_like (Some reverse) (Instructions bc) (Instructions bc') /\
    Forall2 (constant_reads_like (Some reverse)) (Constants bc) (Constants bc') /\
    bc_LineTable bc' = bc_LineTable bc.
Proof.
  intros Hb Hcb. unfold mutateOpcodes. pose proof (opcode_tables_inverse r) as Ht.
  destruct (generateOpcodeMapping r) as [mapping r']. cbn [fst] in Ht.
  destruct (opcodeTables mapping) as [fwd rv]. destruct Ht as (_ & L2 & Hinv).
  assert (Hi : forall b, is_byte b -> rv !!! Z.to_nat (fwd !!! Z.to_nat b) = b) by apply Hinv.
  destruct (remapOpcodes (Instructions bc) fwd) as [out|] eqn:E.
  2:{ left. split; [done|]. intros (l & Hl & Hs). rewrite Hs, remapOpcodes_encode in E. done. }
  destruct (remap_constants fwd (Constants bc)) as [cs|] eqn:Ec.
  - right. exists rv. simpl. split; [done|]. rewrite L2. split; [done|].
    split; [by eapply remapped_reads_like|]. split; [by eapply remap_constants_reads_like|done].
  - left. split; [done|]. intros _ Hd. by eapply remap_constants_total in Hd as [? Hd];
      rewrite Ec in Hd.
Qed.

Lemma opcode_permutation_invisible_witness :
  exists reverse, OpcodeMap (mutateOpcodes sample_program 5%nat).1 = Some reverse /\
    reads_like (Some reverse) (Instructions sample_program)
      (Instructions (mutateOpcodes sample_program 5%nat).1).
Proof.
  destruct (opcode_permutation_invisible sample_program 5%nat) as [[_ Hd]|(rv & Ho & _ & Hr & _)].
  - apply encode_ok, sample_main_ok.
  - constructor; [done|]. constructor; [done|]. constructor; [|done].
    apply encode_ok, sample_body_ok.
  - destruct Hd; [exists sample_main; split; [apply sample_main_ok | reflexivity]|].
    apply sample_constants_decodable.
  - exists rv. split; [exact Ho | exact Hr].
Defined.
