(* ===== verification/Padding.v ===== *)
(** Padding an instruction stream: the correctness of
    [PolymorphicEngine.padInstructions] in [src/compiler/polymorphic.go].

    [Polymorphic.v] has the splice as the byte loop the source runs.  This file
    describes its result on decoded streams (which filler stands after which
    instruction, where every instruction now begins, which jumps were
    repointed) and proves that a run of the padded stream follows the run of
    the original, instruction by instruction. *)

From stdpp Require Import base list list_numbers numbers gmap sets.
From Stdlib Require Import ZArith Lia.
From S2P Require Import Prelude Code Stream LineTable Polymorphic.

(* ------------------------------------------------------------------ *)
(** ** Fillers *)

(** What the generators splice: nothing, a push and a pop, or a jump (behind a
    pushed false, or bare) over junk. *)
Inductive filler : Type :=
| FNone
| FNop (push : Opcode)
| FDead (guarded : bool) (junk : list Opcode).

Definition plain (op : Opcode) : instr := Instr op [].

Definition guard_len (guarded : bool) : nat := if guarded then 1%nat else 0%nat.

(** The bytes a filler takes. *)
Definition flen (f : filler) : nat :=
  match f with
  | FNone => 0
  | FNop _ => 2
  | FDead g junk => guard_len g + 3 + length junk
  end%nat.

(** The instructions of a filler at [at_]: the jump leads past the block. *)
Definition filler_instrs (at_ : nat) (f : filler) : list instr :=
  match f with
  | FNone => []
  | FNop push => [plain push; plain OpPop]
  | FDead g junk =>
      (if g then [plain OpFalse] else []) ++
      Instr (if g then OpJumpFalse else OpJump) [Z.of_nat (at_ + flen f)] :: (plain <$> junk)
  end.

(** Where in the block its own jump operand is. *)
Definition filler_own (f : filler) : list nat :=
  match f with
  | FDead g _ => [(guard_len g + 1)%nat]
  | _ => []
  end.

Definition filler_ok (at_ : nat) (f : filler) : Prop :=
  match f with
  | FNone => True
  | FNop push => push ∈ [OpTrue; OpFalse; OpNull]
  | FDead g junk => Forall (.∈ deadCodeFillers) junk /\ (at_ + flen f <= MaxUint16)%nat
  end.

(** A generator that only ever splices fillers. *)
Definition gen_ok {R} (gen : nat -> R -> (list Z * list nat) * R) : Prop :=
  forall at_ r, exists f, filler_ok at_ f /\
    (gen at_ r).1 = (encode (filler_instrs at_ f), filler_own f).

(* ------------------------------------------------------------------ *)
(** ** Layouts *)

(** The stream before the jumps are repointed: every instruction followed by
    its filler, the engine's own instructions marked. *)
Fixpoint layout (at_ : nat) (l : list instr) (fs : list filler) : list (instr * bool) :=
  match l, fs with
  | i :: l, f :: fs =>
      (i, false) :: ((fun j => (j, true)) <$> filler_instrs (at_ + instr_width i) f) ++
      layout (at_ + instr_width i + flen f) l fs
  | _, _ => []
  end.

(** Where each instruction begins in it. *)
Fixpoint new_starts (at_ : nat) (l : list instr) (fs : list filler) : list nat :=
  match l, fs with
  | i :: l, f :: fs => at_ :: new_starts (at_ + instr_width i + flen f) l fs
  | _, _ => []
  end.

(** One acceptable filler per instruction, none at or after the cutoff. *)
Fixpoint fillers_ok (cutoff off at_ : nat) (l : list instr) (fs : list filler) : Prop :=
  match l, fs with
  | [], [] => True
  | i :: l, f :: fs =>
      filler_ok (at_ + instr_width i) f /\ ((cutoff <= off)%nat -> f = FNone) /\
      fillers_ok cutoff (off + instr_width i) (at_ + instr_width i + flen f) l fs
  | _, _ => False
  end.

(** The jumps the engine wrote itself. *)
Definition own_jump (op : Opcode) : bool :=
  match op with OpJump | OpJumpFalse => true | _ => false end.

Fixpoint own_of (off : nat) (lay : list (instr * bool)) : list nat :=
  match lay with
  | [] => []
  | (i, b) :: lay =>
      (if b && own_jump (iop i) then [(off + 1)%nat] else []) ++ own_of (off + instr_width i) lay
  end.

(** Repointing the jump operands of an instruction, refused as the source
    refuses it. *)
Fixpoint retarget_args (slots : list nat) (remap : gmap nat nat) (k : nat) (args : list Z)
    : option (list Z) :=
  match args with
  | [] => Some []
  | a :: args =>
      if containsInt slots k then
        match remap !! Z.to_nat a with
        | None => None
        | Some t =>
            if (MaxUint16 <? t)%nat then None
            else cons (Z.of_nat t) <$> retarget_args slots remap (S k) args
        end
      else cons a <$> retarget_args slots remap (S k) args
  end.

Definition retarget (remap : gmap nat nat) (i : instr) : option instr :=
  Instr (iop i) <$> retarget_args (JumpOperands (opcode_byte (iop i))) remap 0 (iargs i).

Fixpoint rewrite_layout (remap : gmap nat nat) (lay : list (instr * bool)) : option (list instr) :=
  match lay with
  | [] => Some []
  | (i, true) :: lay => cons i <$> rewrite_layout remap lay
  | (i, false) :: lay =>
      match retarget remap i with
      | None => None
      | Some i' => cons i' <$> rewrite_layout remap lay
      end
  end.

Definition add_pairs (ps : list (nat * nat)) (m : gmap nat nat) : gmap nat nat :=
  foldl (fun m p => <[p.1 := p.2]> m) m ps.

(* ------------------------------------------------------------------ *)
(** ** The generators splice fillers *)

Lemma make_plain op : OperandWidths (definitions op) = [] -> make op [] = encode [plain op].
Proof. intros H. destruct op; done. Qed.

Lemma dead_filler_plain op : op ∈ deadCodeFillers -> OperandWidths (definitions op) = [].
Proof.
  intros H. unfold deadCodeFillers in H.
  repeat (apply elem_of_cons in H as [->|H]; [done|]). by apply not_elem_of_nil in H.
Qed.

Lemma length_encode_plain ops :
  Forall (fun op => OperandWidths (definitions op) = []) ops ->
  length (encode (plain <$> ops)) = length ops.
Proof.
  induction 1 as [|op ops Hop Hops IH]; cbn [fmap list_fmap encode]; [done|].
  rewrite length_app, length_instr_bytes, IH. unfold instr_width, def_width, plain. simpl.
  by rewrite Hop.
Qed.

Lemma length_filler at_ f :
  filler_ok at_ f -> length (encode (filler_instrs at_ f)) = flen f.
Proof.
  destruct f as [|push|g junk]; simpl; [done| |].
  - intros H. repeat (apply elem_of_cons in H as [->|H]; [done|]). by apply not_elem_of_nil in H.
  - intros [Hj _]. rewrite encode_app, length_app. cbn [encode].
    rewrite length_app, length_instr_bytes, length_encode_plain.
    2:{ eapply Forall_impl; [exact Hj|]. apply dead_filler_plain. }
    destruct g; simpl; unfold instr_width; simpl; lia.
Qed.

Section Generators.
Context {R : Type} `{Rng R}.

Lemma generateNOP_ok : gen_ok (fun _ (r : R) => let '(block, r) := generateNOP r in ((block, []), r)).
Proof.
  intros at_ r. unfold generateNOP. destruct (Intn r 3) as [k r'].
  exists (FNop (match k with 0%nat => OpTrue | 1%nat => OpFalse | _ => OpNull end)).
  destruct k as [|[|k]]; simpl; (split; [set_solver | done]).
Qed.

Lemma dead_fill_spec n (r : R) blk :
  exists junk, (dead_fill n r blk).1 = blk ++ encode (plain <$> junk) /\
    length junk = n /\ Forall (.∈ deadCodeFillers) junk.
Proof.
  revert r blk. induction n as [|n IH]; intros r blk; cbn [dead_fill].
  { exists []. by rewrite app_nil_r. }
  destruct (Intn r (length deadCodeFillers)) as [k r'].
  set (op := default OpNull (deadCodeFillers !! k)).
  assert (Hop : op ∈ deadCodeFillers).
  { subst op. destruct (deadCodeFillers !! k) eqn:E; [by eapply list_elem_of_lookup_2|].
    simpl. unfold deadCodeFillers. set_solver. }
  destruct (IH r' (blk ++ make op [])) as (junk & E & Hl & Hj).
  exists (op :: junk). rewrite E, <- app_assoc, make_plain by by apply dead_filler_plain.
  split; [|split; [simpl; lia | by constructor]]. cbn [fmap list_fmap encode].
  by rewrite app_nil_r.
Qed.

Lemma generateDeadBlock_ok : gen_ok (generateDeadBlock (R:=R)).
Proof.
  intros at_ r. unfold generateDeadBlock.
  destruct (Intn r 2) as [g r1]. destruct (Intn r1 5) as [n r2].
  set (guarded := (g =? 0)%nat).
  set (head := (if guarded then make OpFalse [] else []) ++ make (if guarded then OpJumpFalse else OpJump) [0]).
  destruct (dead_fill_spec (2 + n) r2 head) as (junk & E & Hl & Hj).
  destruct (dead_fill (2 + n) r2 head) as [blk r3]. cbn [fst] in E. subst blk.
  assert (Hlen : length (head ++ encode (plain <$> junk)) = flen (FDead guarded junk)).
  { rewrite length_app, length_encode_plain.
    2:{ eapply Forall_impl; [exact Hj|]. apply dead_filler_plain. }
    subst head. by destruct guarded. }
  rewrite Hlen. destruct (Nat.ltb_spec MaxUint16 (at_ + flen (FDead guarded junk))) as [|Hle].
  { by exists FNone. }
  exists (FDead guarded junk). split; [by split|]. cbn [fst].
  assert (Hz : 0 <= Z.of_nat (at_ + flen (FDead guarded junk)) < 65536).
  { assert (Z.of_nat MaxUint16 = 65535) by reflexivity. lia. }
  pose proof (PutUint16_operand
    ((if guarded then make OpFalse [] else []) ++ [opcode_byte (if guarded then OpJumpFalse else OpJump)])
    0 _ (encode (plain <$> junk)) Hz) as HP.
  subst head. f_equal; [|by destruct guarded].
  destruct guarded; exact HP.
Qed.

Lemma fillerGenerators_ok config : Forall gen_ok (fillerGenerators (R:=R) config).
Proof.
  unfold fillerGenerators. apply Forall_app. split; bcase; repeat constructor;
    auto using generateNOP_ok, generateDeadBlock_ok.
Qed.
End Generators.

(* ------------------------------------------------------------------ *)
(** ** The splice loop *)

Lemma encode_marked l (b : bool) : encode ((fun j => (j, b)) <$> l).*1 = encode l.
Proof. f_equal. rewrite <- list_fmap_compose. apply list_fmap_id. Qed.

Lemma encode_layout_cons at_ i l f fs :
  encode (layout at_ (i :: l) (f :: fs)).*1
  = instr_bytes i ++ encode (filler_instrs (at_ + instr_width i) f) ++
    encode (layout (at_ + instr_width i + flen f) l fs).*1.
Proof.
  cbn [layout fmap list_fmap fst encode]. rewrite fmap_app, encode_app.
  by rewrite encode_marked.
Qed.

Lemma own_of_app off lay lay' :
  own_of off (lay ++ lay') = own_of off lay ++ own_of (off + length (encode lay.*1)) lay'.
Proof.
  revert off. induction lay as [|[i b] lay IH]; intros off; cbn [own_of app fmap list_fmap fst encode].
  - simpl. by rewrite Nat.add_0_r.
  - rewrite IH, length_app, length_instr_bytes, app_assoc. do 2 f_equal. lia.
Qed.

Lemma own_of_range off lay x : x ∈ own_of off lay -> (off < x)%nat.
Proof.
  revert off. induction lay as [|[i b] lay IH]; intros off; cbn [own_of].
  - by intros ?%not_elem_of_nil.
  - rewrite elem_of_app. intros [Hx|Hx%IH]; [|lia].
    destruct (b && _); [apply list_elem_of_singleton in Hx; lia | by apply not_elem_of_nil in Hx].
Qed.

Lemma own_of_tail off i b lay x :
  (off + instr_width i <= x)%nat ->
  x ∈ own_of off ((i, b) :: lay) <-> x ∈ own_of (off + instr_width i) lay.
Proof.
  intros Hx. cbn [own_of]. rewrite elem_of_app. split; [|by right]. intros [Hin|]; [|done].
  exfalso. destruct b; [|by apply not_elem_of_nil in Hin].
  unfold instr_width, def_width in Hx.
  destruct (iop i); simpl in *;
    try (apply list_elem_of_singleton in Hin; lia); by apply not_elem_of_nil in Hin.
Qed.

Lemma own_of_plain off ops :
  Forall (.∈ deadCodeFillers) ops -> own_of off ((fun j => (j, true)) <$> (plain <$> ops)) = [].
Proof.
  intros H. revert off. induction H as [|op ops Hop _ IH]; intros off; [done|].
  cbn [fmap list_fmap own_of]. rewrite IH, app_nil_r. unfold plain. cbn [iop].
  unfold deadCodeFillers in Hop.
  repeat (apply elem_of_cons in Hop as [->|Hop]; [done|]). by apply not_elem_of_nil in Hop.
Qed.

Lemma own_of_filler at_ off f :
  filler_ok at_ f ->
  own_of off ((fun j => (j, true)) <$> filler_instrs at_ f) = (fun o => (off + o)%nat) <$> filler_own f.
Proof.
  destruct f as [|push|g junk]; simpl; [done| |].
  - intros H. repeat (apply elem_of_cons in H as [->|H]; [done|]). by apply not_elem_of_nil in H.
  - intros [Hj _]. destruct g; cbn [app fmap list_fmap own_of];
      rewrite own_of_plain by done; simpl; f_equal; unfold instr_width, def_width; simpl; lia.
Qed.

Lemma elem_of_own_fold base own (s : gset nat) x :
  x ∈ foldl (fun s offset => {[(base + offset)%nat]} ∪ s) s own
  <-> x ∈ s \/ x ∈ (fun o => (base + o)%nat) <$> own.
Proof. revert s. induction own as [|o own IH]; intros s; simpl; [set_solver|]. rewrite IH. set_solver. Qed.

Section Splice.
Context {R : Type} `{Rng R} (level : Z) (cutoff : nat) (gens : list (padGenerator (R:=R))).
Context (Hgens : Forall gen_ok gens).

(** One turn: the instruction is copied and a filler, perhaps none, follows. *)
Lemma pad_loop_cons ins start width sw remap padded own r :
  exists f r' own',
    filler_ok (length padded + length (take width (drop start ins))) f /\
    ((cutoff <= start)%nat -> f = FNone) /\
    (forall x, x ∈ own' <-> x ∈ own \/
       x ∈ (fun o => (length padded + length (take width (drop start ins)) + o)%nat) <$> filler_own f) /\
    pad_loop level ins cutoff gens ((start, width) :: sw) remap padded own r
    = pad_loop level ins cutoff gens sw (<[start := length padded]> remap)
        (padded ++ take width (drop start ins) ++
         encode (filler_instrs (length padded + length (take width (drop start ins))) f)) own' r'.
Proof.
  cbn [pad_loop]. set (w := take width (drop start ins)).
  assert (Hnone : forall r0, exists f r' own',
    filler_ok (length padded + length w) f /\ ((cutoff <= start)%nat -> f = FNone) /\
    (forall x, x ∈ own' <-> x ∈ own \/ x ∈ (fun o => (length padded + length w + o)%nat) <$> filler_own f) /\
    pad_loop level ins cutoff gens sw (<[start := length padded]> remap) (padded ++ w) own r0
    = pad_loop level ins cutoff gens sw (<[start := length padded]> remap)
        (padded ++ w ++ encode (filler_instrs (length padded + length w) f)) own' r').
  { intros r0. exists FNone, r0, own. split; [done|]. split; [done|]. split; [set_solver|].
    simpl. by rewrite app_nil_r. }
  destruct (Nat.ltb_spec start cutoff); [|apply Hnone].
  destruct (Float64Below r level) as [[] r1]; [|apply Hnone].
  destruct (Intn r1 (length gens)) as [g r2].
  destruct (gens !! g) as [gen|] eqn:Eg; [|apply Hnone].
  destruct (Forall_lookup_1 _ _ _ _ Hgens Eg (length (padded ++ w)) r2) as (f & Hf & E).
  destruct (gen (length (padded ++ w)) r2) as [[block bown] r3]. cbn [fst] in E. simplify_eq.
  rewrite length_app in *. eexists f, r3, _. split; [done|]. split; [lia|].
  split; [apply elem_of_own_fold|]. by rewrite <- app_assoc.
Qed.

Lemma pad_loop_spec pre l remap padded own r :
  exists fs r' own',
    fillers_ok cutoff (length pre) (length padded) l fs /\
    (forall x, x ∈ own' <-> x ∈ own \/ x ∈ own_of (length padded) (layout (length padded) l fs)) /\
    pad_loop level (pre ++ encode l) cutoff gens
      (zip (starts_from (length pre) l) (instr_width <$> l)) remap padded own r
    = (add_pairs (zip (starts_from (length pre) l) (new_starts (length padded) l fs)) remap,
       padded ++ encode (layout (length padded) l fs).*1, own', r').
Proof.
  revert pre remap padded own r. induction l as [|i l IH]; intros pre remap padded own r.
  { exists [], r, own. split; [done|]. split; [set_solver|]. simpl. by rewrite app_nil_r. }
  cbn [starts_from fmap list_fmap zip zip_with encode].
  assert (Hw : take (instr_width i) (drop (length pre) (pre ++ instr_bytes i ++ encode l)) = instr_bytes i).
  { rewrite drop_app_at, <- length_instr_bytes. apply take_app_at. }
  destruct (pad_loop_cons (pre ++ instr_bytes i ++ encode l) (length pre) (instr_width i)
    (zip (starts_from (length pre + instr_width i) l) (instr_width <$> l)) remap padded own r)
    as (f & r1 & own1 & Hf & Hcut & Hown & E).
  fold (zip (starts_from (length pre + instr_width i) l) (instr_width <$> l)).
  rewrite E, Hw. rewrite Hw, length_instr_bytes in *. clear E.
  rewrite (app_assoc pre), cursor_next.
  destruct (IH (pre ++ instr_bytes i) (<[length pre:=length padded]> remap)
    (padded ++ instr_bytes i ++ encode (filler_instrs (length padded + instr_width i) f)) own1 r1)
    as (fs & r' & own' & Hok & Hown' & E).
  assert (Hlen : length (padded ++ instr_bytes i ++ encode (filler_instrs (length padded + instr_width i) f))
    = (length padded + instr_width i + flen f)%nat).
  { rewrite !length_app, length_instr_bytes, (length_filler _ _ Hf). lia. }
  rewrite Hlen in *. exists (f :: fs), r', own'. split; [|split].
  - rewrite length_app, length_instr_bytes in Hok. done.
  - intros x. rewrite Hown', Hown. cbn [layout own_of andb app].
    rewrite own_of_app, elem_of_app, encode_marked, (length_filler _ _ Hf), (own_of_filler _ _ _ Hf).
    tauto.
  - rewrite E. do 3 f_equal. by rewrite encode_layout_cons, <- !app_assoc.
Qed.
End Splice.

(* ------------------------------------------------------------------ *)
(** ** The jump rewrite *)

Lemma rewrite_operands_spec slots remap own ws args k pre post :
  Forall width_ok ws -> length args = length ws -> operands_fit ws args ->
  (forall j, containsInt slots j = true -> ws !! (j - k)%nat = Some 2%nat \/ (j < k)%nat) ->
  (forall x, (length pre <= x < length pre + nsum ws)%nat -> x ∉ own) ->
  rewrite_operands slots remap own ws k (length pre) (pre ++ operands_bytes ws args ++ post)
  = (fun args' => pre ++ operands_bytes ws args' ++ post) <$> retarget_args slots remap k args.
Proof.
  intros Hw. revert args k pre. induction Hw as [|w ws Hw Hws IH];
    intros [|a args] k pre Hl Hf Hs Hown; simplify_eq/=; [done|].
  apply operands_fit_cons in Hf as [Ha Hf]. rewrite <- !app_assoc. fold (nsum ws) in Hown.
  assert (Hnext : forall j, containsInt slots j = true ->
    ws !! (j - S k)%nat = Some 2%nat \/ (j < S k)%nat).
  { intros j Hj. destruct (Hs j Hj) as [H|]; [|lia].
    destruct (decide (j < S k)%nat); [by right|left].
    replace (j - k)%nat with (S (j - S k)) in H by lia. done. }
  assert (Hgo : forall a', rewrite_operands slots remap own ws (S k) (length pre + w)
      (pre ++ operand_bytes w a' ++ operands_bytes ws args ++ post)
    = (fun args' => pre ++ operands_bytes (w :: ws) args' ++ post)
        <$> (cons a' <$> retarget_args slots remap (S k) args)).
  { intros a'. rewrite app_assoc.
    replace (length pre + w)%nat with (length (pre ++ operand_bytes w a'))
      by (by rewrite length_app, length_operand_bytes).
    rewrite IH; [|done|done|done|].
    - destruct (retarget_args slots remap (S k) args); [|done]. simpl. by rewrite <- !app_assoc.
    - intros x Hx. apply Hown. rewrite length_app, length_operand_bytes in Hx. lia. }
  destruct (containsInt slots k) eqn:Ek; [|by rewrite andb_false_r; apply Hgo].
  destruct (Hs k Ek) as [E|?]; [|lia]. rewrite Nat.sub_diag in E. injection E as ->.
  rewrite bool_decide_eq_false_2 by (apply Hown; lia). cbn [Nat.eqb andb negb].
  simpl in Ha. rewrite Uint16_operand by lia.
  destruct (remap !! Z.to_nat a) as [t|]; [|done].
  destruct (Nat.ltb_spec MaxUint16 t) as [|Hmax]; [done|].
  rewrite PutUint16_operand; [apply Hgo|].
  assert (Z.of_nat MaxUint16 = 65535) by reflexivity. lia.
Qed.

(** The engine's own instructions: operand-free, or a jump with its target. *)
Definition own_shape (i : instr) : Prop :=
  iwidths i = [] \/ own_jump (iop i) = true.

(** Nothing of an engine instruction is rewritten when its jump operand is
    among the own jumps. *)
Lemma rewrite_operands_own remap own i pre post :
  own_shape i -> length (iargs i) = length (iwidths i) ->
  (own_jump (iop i) = true -> length pre ∈ own) ->
  rewrite_operands (JumpOperands (opcode_byte (iop i))) remap own (iwidths i) 0 (length pre)
    (pre ++ operands_bytes (iwidths i) (iargs i) ++ post)
  = Some (pre ++ operands_bytes (iwidths i) (iargs i) ++ post).
Proof.
  intros Hs Hl Hown. destruct Hs as [-> | Hj]; [done|].
  assert (iwidths i = [2%nat]) as -> by (unfold iwidths; destruct (iop i); done).
  cbn [rewrite_operands]. rewrite bool_decide_eq_true_2 by auto. by rewrite andb_false_r.
Qed.

Lemma rewrite_loop_spec remap own lay fuel pre :
  (length lay < fuel)%nat ->
  Forall (fun p => instr_ok p.1 /\ (p.2 = true -> own_shape p.1)) lay ->
  (forall x, (length pre <= x)%nat -> x ∈ own <-> x ∈ own_of (length pre) lay) ->
  rewrite_loop fuel (pre ++ encode lay.*1) remap own (length pre)
  = (fun l' => pre ++ encode l') <$> rewrite_layout remap lay.
Proof.
  intros Hfu Hlay. revert fuel pre Hfu. induction Hlay as [|[i b] lay [[Hlen Hf] Hb] Hlay IH];
    intros [|fuel] pre Hfu Hown; cbn [length] in Hfu; try lia;
    cbn [rewrite_loop encode fmap list_fmap fst rewrite_layout].
  { rewrite app_nil_r, Nat.ltb_irrefl. simpl. by rewrite app_nil_r. }
  cbn [fst snd] in *.
  rewrite (proj2 (Nat.ltb_lt _ _) (cursor_inside _ _ _)), encode_at_lookup, encode_at.
  fold (instr_width i). rewrite (proj2 (Nat.ltb_ge _ _) (cursor_fits _ _ _)). fold (iwidths i).
  change (pre ++ instr_bytes i ++ encode lay.*1) with
    (pre ++ [opcode_byte (iop i)] ++ (operands_bytes (iwidths i) (iargs i) ++ encode lay.*1)).
  rewrite app_assoc.
  replace (length pre + 1)%nat with (length (pre ++ [opcode_byte (iop i)])) in *
    by (rewrite length_app; done).
  assert (Hgo : forall i', iop i' = iop i ->
    rewrite_loop fuel ((pre ++ [opcode_byte (iop i)]) ++ operands_bytes (iwidths i) (iargs i') ++ encode lay.*1)
      remap own (length pre + instr_width i)
    = (fun l' => pre ++ encode l') <$> (cons i' <$> rewrite_layout remap lay)).
  { intros i' Ei. rewrite <- app_assoc.
    assert (Hwi : instr_width i' = instr_width i) by (unfold instr_width; by rewrite Ei).
    replace (pre ++ [opcode_byte (iop i)] ++ operands_bytes (iwidths i) (iargs i') ++ encode lay.*1)
      with ((pre ++ instr_bytes i') ++ encode lay.*1)
      by (rewrite <- app_assoc; unfold instr_bytes, iwidths; by rewrite Ei).
    replace (length pre + instr_width i)%nat with (length (pre ++ instr_bytes i'))
      by (by rewrite <- (cursor_next pre i'), Hwi).
    rewrite IH; [|lia|].
    - destruct (rewrite_layout remap lay); [|done]. simpl. by rewrite <- app_assoc.
    - intros x Hx. rewrite <- (cursor_next pre i'), Hwi in *.
      rewrite Hown by lia. apply own_of_tail. lia. }
  destruct b.
  - rewrite rewrite_operands_own; [by apply Hgo | auto | done |].
    intros Ej. apply Hown; [rewrite length_app; lia|]. cbn [own_of]. rewrite Ej, length_app.
    by left.
  - rewrite rewrite_operands_spec; [|apply iwidths_ok|done|done| |].
    + unfold retarget. destruct (retarget_args _ _ _ _) as [args'|]; [|done].
      by apply (Hgo (Instr (iop i) args')).
    + intros j Hj. left. rewrite Nat.sub_0_r. by apply jump_slots_wide.
    + intros x Hx Hin. rewrite length_app in Hx. simpl in Hx. apply Hown in Hin; [|lia].
      cbn [own_of andb app] in Hin. apply own_of_range in Hin. unfold instr_width, def_width in Hin.
      unfold iwidths in Hx. lia.
Qed.

(* ------------------------------------------------------------------ *)
(** ** Where everything goes *)

(** The offset of the [k]-th instruction of the original stream, and where it
    begins in the padded one ([k = length l] is one past the end). *)
Definition old_pos (l : list instr) (k : nat) : nat := length (encode (take k l)).

Fixpoint new_pos (at_ : nat) (l : list instr) (fs : list filler) (k : nat) : nat :=
  match k, l, fs with
  | S k, i :: l, f :: fs => new_pos (at_ + instr_width i + flen f) l fs k
  | _, _, _ => at_
  end.

(** The table [padInstructions] builds. *)
Definition pad_remap (l : list instr) (fs : list filler) : gmap nat nat :=
  <[length (encode l) := new_pos 0 l fs (length l)]>
    (add_pairs (zip (starts_from 0 l) (new_starts 0 l fs)) ∅).

Lemma add_pairs_cons a b ps m : add_pairs ((a, b) :: ps) m = add_pairs ps (<[a := b]> m).
Proof. done. Qed.

Lemma add_pairs_other ps m k : k ∉ ps.*1 -> add_pairs ps m !! k = m !! k.
Proof.
  revert m. induction ps as [|[a b] ps IH]; intros m Hk; [done|]. rewrite add_pairs_cons.
  cbn [fmap list_fmap fst] in Hk. apply not_elem_of_cons in Hk as [Hne Hk].
  rewrite IH by done. by apply lookup_insert_ne.
Qed.

Lemma add_pairs_lookup ps m k v :
  NoDup ps.*1 -> (k, v) ∈ ps -> add_pairs ps m !! k = Some v.
Proof.
  revert m. induction ps as [|[a b] ps IH]; intros m Hn Hin; [by apply not_elem_of_nil in Hin|].
  cbn [fmap list_fmap fst] in Hn. apply NoDup_cons in Hn as [Ha Hn]. rewrite add_pairs_cons.
  apply elem_of_cons in Hin as [[= -> ->]|Hin]; [|by apply IH].
  rewrite add_pairs_other by done. apply lookup_insert_eq.
Qed.

Lemma add_pairs_inv ps m k v :
  add_pairs ps m !! k = Some v -> (k, v) ∈ ps \/ m !! k = Some v.
Proof.
  revert m. induction ps as [|[a b] ps IH]; intros m H; [by right|]. rewrite add_pairs_cons in H.
  apply IH in H as [H|H]; [left; by right|]. destruct (decide (a = k)) as [->|].
  - rewrite lookup_insert_eq in H. simplify_eq. left. by left.
  - rewrite lookup_insert_ne in H by done. by right.
Qed.

Lemma fillers_ok_length cutoff off at_ l fs : fillers_ok cutoff off at_ l fs -> length fs = length l.
Proof.
  revert off at_ fs. induction l as [|i l IH]; intros off at_ [|f fs] H; simpl in *; try done.
  f_equal. by eapply IH, H.
Qed.

Lemma length_new_starts at_ l fs : length fs = length l -> length (new_starts at_ l fs) = length l.
Proof.
  revert at_ fs. induction l as [|i l IH]; intros at_ [|f fs] H; simplify_eq/=; [done|].
  by rewrite IH.
Qed.

Lemma new_starts_lookup at_ l fs k :
  length fs = length l -> (k < length l)%nat -> new_starts at_ l fs !! k = Some (new_pos at_ l fs k).
Proof.
  revert at_ fs k. induction l as [|i l IH]; intros at_ [|f fs] [|k] H Hk; simplify_eq/=; try lia;
    [done|]. apply IH; [done | lia].
Qed.

Lemma starts_from_NoDup off l : NoDup (starts_from off l).
Proof.
  revert off. induction l as [|i l IH]; intros off; cbn [starts_from]; [constructor|].
  apply NoDup_cons. split; [|done]. intros Hin%starts_from_range.
  pose proof (instr_width_pos i). lia.
Qed.

(** The table holds exactly the instruction starts and the end. *)
Lemma pad_remap_pos l fs k :
  length fs = length l -> (k <= length l)%nat ->
  pad_remap l fs !! old_pos l k = Some (new_pos 0 l fs k).
Proof.
  intros Hl Hk. unfold pad_remap, old_pos. destruct (decide (k = length l)) as [->|Hne].
  { rewrite firstn_all. apply lookup_insert_eq. }
  destruct (lookup_lt_is_Some_2 l k) as [i Hi]; [lia|].
  pose proof (starts_from_lookup 0 l k i Hi) as Hs. simpl in Hs.
  rewrite lookup_insert_ne.
  2:{ apply list_elem_of_lookup_2, starts_from_range in Hs. lia. }
  assert (H1 : (zip (starts_from 0 l) (new_starts 0 l fs)).*1 = starts_from 0 l)
    by (apply fst_zip; rewrite length_starts_from, length_new_starts; lia).
  apply add_pairs_lookup; [rewrite H1; apply starts_from_NoDup|].
  apply list_elem_of_lookup_2 with k. apply lookup_zip_with_Some.
  eexists _, _. split; [done|]. split; [done|]. apply new_starts_lookup; [done | lia].
Qed.

Lemma pad_remap_start l fs : length fs = length l -> pad_remap l fs !! 0%nat = Some 0%nat.
Proof.
  intros Hl. pose proof (pad_remap_pos l fs 0 Hl (Nat.le_0_l _)) as Hp.
  destruct l, fs; exact Hp.
Qed.

Lemma pad_remap_inv l fs o n :
  length fs = length l -> pad_remap l fs !! o = Some n ->
  exists k, (k <= length l)%nat /\ o = old_pos l k /\ n = new_pos 0 l fs k.
Proof.
  intros Hl H. unfold pad_remap in H. destruct (decide (length (encode l) = o)) as [<-|Hne].
  { rewrite lookup_insert_eq in H. simplify_eq. exists (length l). unfold old_pos.
    by rewrite firstn_all. }
  rewrite lookup_insert_ne in H by done. apply add_pairs_inv in H as [H|H]; [|done].
  apply list_elem_of_lookup in H as [k H]. apply lookup_zip_with_Some in H as (s & t & [= -> ->] & Hs & Ht).
  assert (Hk : (k < length l)%nat) by (apply lookup_lt_Some in Hs; by rewrite length_starts_from in Hs).
  destruct (lookup_lt_is_Some_2 l k Hk) as [i Hi].
  rewrite (starts_from_lookup 0 l k i Hi) in Hs. rewrite new_starts_lookup in Ht by done.
  exists k. simplify_eq. split; [lia|]. split; [|done]. done.
Qed.

(* ------------------------------------------------------------------ *)
(** ** The padded stream *)

Lemma retarget_op remap i i' : retarget remap i = Some i' -> iop i' = iop i.
Proof. unfold retarget. destruct (retarget_args _ _ _ _); intros; by simplify_eq/=. Qed.

Lemma retarget_width remap i i' : retarget remap i = Some i' -> instr_width i' = instr_width i.
Proof. intros H%retarget_op. unfold instr_width. by rewrite H. Qed.

(** Repointing a layout repoints the program's instructions and keeps the
    fillers and every offset. *)
Lemma rewrite_layout_app remap js lay :
  rewrite_layout remap (((fun j => (j, true)) <$> js) ++ lay)
  = (fun l => js ++ l) <$> rewrite_layout remap lay.
Proof.
  induction js as [|j js IH]; cbn [fmap list_fmap app rewrite_layout];
    [by destruct (rewrite_layout remap lay)|].
  rewrite IH. by destruct (rewrite_layout remap lay).
Qed.

Lemma rewrite_layout_inv remap at_ l fs l' :
  length fs = length l -> rewrite_layout remap (layout at_ l fs) = Some l' ->
  exists k, Forall2 (fun i j => retarget remap i = Some j) l k /\ l' = (layout at_ k fs).*1.
Proof.
  revert at_ fs l'. induction l as [|i l IH]; intros at_ [|f fs] l' Hl H; simplify_eq/=.
  { by exists []. }
  destruct (retarget remap i) as [i'|] eqn:Ei; [|done]. rewrite rewrite_layout_app in H.
  destruct (rewrite_layout remap _) as [rest|] eqn:Er; simplify_eq/=.
  destruct (IH _ fs rest Hl Er) as (k & Hk & ->). exists (i' :: k).
  split; [by constructor|]. cbn [layout fmap list_fmap fst]. rewrite (retarget_width _ _ _ Ei).
  rewrite fmap_app, <- list_fmap_compose. by rewrite list_fmap_id.
Qed.

Lemma retarget_args_ok slots remap k args ws args' :
  retarget_args slots remap k args = Some args' ->
  (forall j, containsInt slots j = true -> ws !! (j - k)%nat = Some 2%nat \/ (j < k)%nat) ->
  length args = length ws -> operands_fit ws args ->
  length args' = length ws /\ operands_fit ws args'.
Proof.
  revert k ws args'. induction args as [|a args IH]; intros k [|w ws] args' H Hs Hl Hf; simplify_eq/=;
    [by split|].
  apply operands_fit_cons in Hf as [Ha Hf].
  assert (Hnext : forall j, containsInt slots j = true ->
    ws !! (j - S k)%nat = Some 2%nat \/ (j < S k)%nat).
  { intros j Hj. destruct (Hs j Hj) as [E|]; [|lia].
    destruct (decide (j < S k)%nat); [by right|left].
    replace (j - k)%nat with (S (j - S k)) in E by lia. done. }
  assert (Hc : forall v, operand_fits w v ->
    cons v <$> retarget_args slots remap (S k) args = Some args' ->
    length args' = S (length ws) /\ operands_fit (w :: ws) args').
  { intros v Hv E. destruct (retarget_args slots remap (S k) args) as [r|] eqn:Er; simplify_eq/=.
    destruct (IH (S k) ws r) as [-> ?]; [done..|]. split; [done|]. by apply operands_fit_cons. }
  destruct (containsInt slots k) eqn:Ek; [|by eapply Hc].
  destruct (Hs k Ek) as [E|?]; [|lia]. rewrite Nat.sub_diag in E. injection E as ->.
  destruct (remap !! Z.to_nat a) as [t|]; [|done].
  destruct (Nat.ltb_spec MaxUint16 t) as [|Hmax]; [done|]. eapply Hc; [|done]. simpl.
  assert (Z.of_nat MaxUint16 = 65535) by reflexivity. lia.
Qed.

Lemma retarget_ok remap i i' : instr_ok i -> retarget remap i = Some i' -> instr_ok i'.
Proof.
  intros [Hl Hf]. unfold retarget.
  destruct (retarget_args _ _ _ _) as [args'|] eqn:E; intros; simplify_eq/=.
  apply (retarget_args_ok _ _ _ _ (iwidths i)) in E; [done| |done..].
  intros j Hj. left. rewrite Nat.sub_0_r. by apply jump_slots_wide.
Qed.

Lemma retargeted_ok remap l k :
  Forall instr_ok l -> Forall2 (fun i j => retarget remap i = Some j) l k -> Forall instr_ok k.
Proof.
  intros Hl Hk. revert Hl. induction Hk as [|i j l k Hij Hk IH]; [constructor|].
  intros [Hi Hl]%Forall_cons. constructor; [by eapply retarget_ok | by apply IH].
Qed.

Lemma plain_ok op : OperandWidths (definitions op) = [] -> instr_ok (plain op).
Proof. intros H. unfold instr_ok, iwidths. simpl. rewrite H. split; [done | apply operands_fit_nil]. Qed.

Lemma filler_instrs_ok at_ f :
  filler_ok at_ f -> Forall (fun i => instr_ok i /\ own_shape i) (filler_instrs at_ f).
Proof.
  assert (Hp : forall op, OperandWidths (definitions op) = [] -> instr_ok (plain op) /\ own_shape (plain op))
    by (intros op Hop; split; [by apply plain_ok | by left]).
  destruct f as [|push|g junk]; cbn [filler_instrs filler_ok]; [constructor| |].
  - intros H. constructor; [|constructor; [by apply Hp | constructor]].
    repeat (apply elem_of_cons in H as [->|H]; [by apply Hp|]); by apply not_elem_of_nil in H.
  - intros [Hj Hm]. apply Forall_app. split; [destruct g; repeat constructor; by apply Hp|].
    constructor; [|apply Forall_fmap; eapply Forall_impl; [exact Hj|];
      intros op Hop; by apply Hp, dead_filler_plain].
    split; [|right; by destruct g]. unfold instr_ok, iwidths. cbn [iop iargs].
    assert (E : OperandWidths (definitions (if g then OpJumpFalse else OpJump)) = [2%nat]) by by destruct g.
    rewrite E. split; [done|]. apply operands_fit_cons. split; [|apply operands_fit_nil].
    simpl. assert (Z.of_nat MaxUint16 = 65535) by reflexivity. simpl in Hm. lia.
Qed.

Lemma layout_ok cutoff off at_ l fs :
  Forall instr_ok l -> fillers_ok cutoff off at_ l fs ->
  Forall (fun p => instr_ok p.1 /\ (p.2 = true -> own_shape p.1)) (layout at_ l fs).
Proof.
  intros Hl. revert off at_ fs. induction Hl as [|i l Hi Hl IH]; intros off at_ [|f fs] H;
    simpl in H; try done.
  destruct H as (Hf & _ & H). cbn [layout]. constructor; [done|]. apply Forall_app. split.
  - apply Forall_fmap. eapply Forall_impl; [by apply filler_instrs_ok|]. by intros ? [??].
  - by eapply IH.
Qed.

(** Offsets depend on the opcodes only. *)
Lemma new_pos_retarget remap at_ l k fs n :
  Forall2 (fun i j => retarget remap i = Some j) l k -> new_pos at_ k fs n = new_pos at_ l fs n.
Proof.
  intros H. revert at_ fs n. induction H as [|i j l k Hij H IH]; intros at_ fs n; [done|].
  destruct n, fs; [done..|]. cbn [new_pos]. by rewrite IH, (retarget_width _ _ _ Hij).
Qed.

Lemma fillers_ok_retarget remap cutoff off at_ l k fs :
  Forall2 (fun i j => retarget remap i = Some j) l k ->
  fillers_ok cutoff off at_ l fs -> fillers_ok cutoff off at_ k fs.
Proof.
  intros H. revert off at_ fs. induction H as [|i j l k Hij H IH]; intros off at_ [|f fs] Hf; try done.
  cbn [fillers_ok] in *. rewrite (retarget_width _ _ _ Hij). naive_solver.
Qed.

(** The padded stream around its [n]-th program instruction. *)
Lemma layout_split cutoff off at_ l fs n i f :
  fillers_ok cutoff off at_ l fs -> l !! n = Some i -> fs !! n = Some f ->
  exists P Q, (layout at_ l fs).*1
      = P ++ i :: filler_instrs (new_pos at_ l fs n + instr_width i) f ++ Q /\
    (at_ + length (encode P))%nat = new_pos at_ l fs n /\
    new_pos at_ l fs (S n) = (new_pos at_ l fs n + instr_width i + flen f)%nat /\
    filler_ok (new_pos at_ l fs n + instr_width i) f.
Proof.
  revert off at_ fs n. induction l as [|i0 l IH]; intros off at_ [|f0 fs] [|n] Hok Hi Hf;
    simplify_eq/=; destruct Hok as (Hf0 & _ & Hok).
  - exists [], (layout (at_ + instr_width i + flen f) l fs).*1. simpl.
    rewrite fmap_app, <- list_fmap_compose. split; [by rewrite list_fmap_id|].
    split; [lia|]. split; [by destruct l, fs|done].
  - destruct (IH _ _ _ _ Hok Hi Hf) as (P & Q & E & Hp & Hn & Hfo).
    exists (i0 :: filler_instrs (at_ + instr_width i0) f0 ++ P), Q.
    cbn [layout fmap list_fmap fst].
    rewrite fmap_app, <- list_fmap_compose, E. split.
    { cbn [app]. f_equal. rewrite <- app_assoc. f_equal. by rewrite list_fmap_id. }
    split; [|done]. rewrite <- Hp. cbn [encode].
    rewrite encode_app, !length_app, length_instr_bytes, (length_filler _ _ Hf0). lia.
Qed.

Lemma length_layout cutoff off at_ l fs :
  fillers_ok cutoff off at_ l fs ->
  (at_ + length (encode (layout at_ l fs).*1))%nat = new_pos at_ l fs (length l).
Proof.
  revert off at_ fs. induction l as [|i l IH]; intros off at_ [|f fs] H;
    [simpl; lia | done | done |].
  destruct H as (Hf & _ & H). rewrite encode_layout_cons, !length_app, length_instr_bytes.
  rewrite (length_filler _ _ Hf). cbn [length new_pos]. rewrite <- (IH _ _ _ H). lia.
Qed.

(** What the splice leaves: the stream untouched and no table, or one filler
    after each instruction, every program jump sent through the table. *)
Lemma padInstructions_spec {R : Type} `{Rng R} (level : Z) (l : list instr) (protect : bool)
    (gens : list (padGenerator (R:=R))) (r : R) :
  Forall (gen_ok (R:=R)) gens -> Forall instr_ok l ->
  let cutoff := if protect then lastPopOffset (encode l) (starts_from 0 l)
                else default 0%nat (last (starts_from 0 l)) in
  (padInstructions level (encode l) protect gens r).1 = (encode l, None) \/
  exists fs k, fillers_ok cutoff 0 0 l fs /\
    Forall2 (fun i j => retarget (pad_remap l fs) i = Some j) l k /\
    (padInstructions level (encode l) protect gens r).1
    = (encode (layout 0 k fs).*1, Some (pad_remap l fs)).
Proof.
  intros Hg Hl cutoff. unfold padInstructions. rewrite decodeBoundaries_encode.
  fold cutoff. bcase; [by left|].
  destruct (pad_loop_spec level cutoff gens Hg [] l ∅ [] ∅ r) as (fs & r' & own & Hfs & Hown & E).
  simpl in E. rewrite E. clear E. cbn [length] in *.
  assert (Hlen := length_layout _ _ _ _ _ Hfs). rewrite Nat.add_0_l in Hlen.
  rewrite Hlen. fold (pad_remap l fs). unfold rewriteJumpTargets.
  pose proof (rewrite_loop_spec (pad_remap l fs) own (layout 0 l fs)
    (S (length (encode (layout 0 l fs).*1))) []) as Hr. cbn [app length] in Hr. rewrite Hr; clear Hr.
  - destruct (rewrite_layout _ _) as [l'|] eqn:El; [|by left].
    apply rewrite_layout_inv in El as (k & Hk & ->); [|by eapply fillers_ok_length].
    right. exists fs, k. split; [done|]. by split.
  - pose proof (length_encode_ge (layout 0 l fs).*1). rewrite length_fmap in *. lia.
  - by eapply layout_ok.
  - intros x _. rewrite Hown. set_solver.
Qed.

Lemma padInstructions_declined {R : Type} `{Rng R} level ins (protect : bool)
    (gens : list (padGenerator (R:=R))) r :
  (padInstructions level ins protect gens r).1.2 = None ->
  (padInstructions level ins protect gens r).1.1 = ins.
Proof.
  unfold padInstructions. destruct (decodeBoundaries ins) as [[starts widths]|]; [|done].
  bcase; [done|]. destruct (pad_loop _ _ _ _ _ _ _ _ _) as [[[remap padded] own] r'].
  by destruct (rewriteJumpTargets _ _ _).
Qed.

(* ------------------------------------------------------------------ *)
(** ** Running a stream *)

(** The values the engine's own instructions push, and the test of
    [OpJumpFalse]. *)
Class StreamValues (V : Type) : Type := {
  value_true : V;
  value_false : V;
  value_null : V;
  truthy : V -> bool;
  truthy_false : truthy value_false = false
}.

(** How an instruction hands over control: to the next one, to the offset in
    its jump operand, or out of the stream. *)
Inductive flow : Type := FNext | FBranch | FLeave.

Section Machine.
Context {V E : Type} `{StreamValues V}.

(** Every instruction but the six the engine splices; it sees the operands
    that are no jump targets, the stack and the rest of the machine. *)
Context (other : Opcode -> list Z -> list V -> E -> option (list V * E * flow)).

Fixpoint erase_targets (slots : list nat) (k : nat) (args : list Z) : list Z :=
  match args with
  | [] => []
  | a :: args => (if containsInt slots k then 0 else a) :: erase_targets slots (S k) args
  end.

Definition target (i : instr) : option nat :=
  match JumpOperands (opcode_byte (iop i)) with
  | [] => None
  | k :: _ => Z.to_nat <$> iargs i !! k
  end.

(** The dispatch switch of [runInstructions]; [None] is a fault, such as a pop
    with nothing on the stack. *)
Definition exec (i : instr) (st : list V) (env : E) : option (list V * E * flow) :=
  match iop i with
  | OpTrue => Some (value_true :: st, env, FNext)
  | OpFalse => Some (value_false :: st, env, FNext)
  | OpNull => Some (value_null :: st, env, FNext)
  | OpPop => match st with [] => None | _ :: st => Some (st, env, FNext) end
  | OpJump => Some (st, env, FBranch)
  | OpJumpFalse =>
      match st with
      | [] => None
      | v :: st => Some (st, env, if truthy v then FNext else FBranch)
      end
  | op => other op (erase_targets (JumpOperands (opcode_byte op)) 0 (iargs i)) st env
  end.

Inductive config : Type :=
| Running (ip : nat) (st : list V) (env : E)
| Finished (st : list V) (env : E)
| Left (st : list V) (env : E)
| Fault.

(** Where control is after an instruction whose successor is at [next]. *)
Definition continue (i : instr) (next : nat) (o : option (list V * E * flow)) : config :=
  match o with
  | None => Fault
  | Some (st, env, FNext) => Running next st env
  | Some (st, env, FBranch) =>
      match target i with
      | Some ip => Running ip st env
      | None => Fault
      end
  | Some (st, env, FLeave) => Left st env
  end.

Definition step (ins : list Z) (c : config) : config :=
  match c with
  | Running ip st env =>
      if (ip <? length ins)%nat then
        match fetch None ins ip with
        | None => Fault
        | Some i => continue i (ip + instr_width i) (exec i st env)
        end
      else Finished st env
  | c => c
  end.

Fixpoint steps (n : nat) (ins : list Z) (c : config) : config :=
  match n with
  | O => c
  | S n => steps n ins (step ins c)
  end.

(** The same point of both runs. *)
Definition same_point (remap : gmap nat nat) (c c' : config) : Prop :=
  match c, c' with
  | Running ip st env, Running ip' st' env' =>
      remap !! ip = Some ip' /\ st' = st /\ env' = env
  | c, c' => c' = c
  end.

Lemma steps_add n m ins c : steps (n + m) ins c = steps m ins (steps n ins c).
Proof. revert c. induction n as [|n IH]; intros c; simpl; [done|]. apply IH. Qed.

Lemma fetch_split P i Q :
  instr_ok i -> fetch None (encode (P ++ i :: Q)) (length (encode P)) = Some i.
Proof.
  intros Hi. rewrite encode_app. cbn [encode]. change (instr_bytes i) with (instr_bytes_with id i).
  by apply fetch_with.
Qed.

Lemma step_at P i Q st env :
  instr_ok i ->
  step (encode (P ++ i :: Q)) (Running (length (encode P)) st env)
  = continue i (length (encode (P ++ [i]))) (exec i st env).
Proof.
  intros Hi. cbn [step]. rewrite fetch_split by done.
  rewrite (proj2 (Nat.ltb_lt _ _)).
  - rewrite encode_snoc, <- cursor_next. done.
  - rewrite encode_app. cbn [encode]. apply cursor_inside.
Qed.

Lemma target_own op t : own_jump op = true -> target (Instr op [Z.of_nat t]) = Some t.
Proof.
  intros Hop. unfold target, JumpOperands. cbn [iop]. rewrite opcode_of_byte_byte.
  destruct op; try done; cbn; by rewrite Nat2Z.id.
Qed.

(** A filler is a detour: from its first instruction control comes to the
    instruction after it with the stack and the rest unchanged. *)
Lemma filler_detour P f Q at_ st env :
  filler_ok at_ f -> at_ = length (encode P) ->
  exists m, steps m (encode (P ++ filler_instrs at_ f ++ Q)) (Running at_ st env)
            = Running (at_ + flen f) st env.
Proof.
  intros Hf ->. set (at_ := length (encode P)) in *.
  pose proof (filler_instrs_ok _ _ Hf) as Hok.
  destruct f as [|push|g junk].
  - exists 0%nat. simpl. by rewrite Nat.add_0_r.
  - exists 2%nat. cbn [filler_instrs app] in *. cbn [filler_ok] in Hf. cbn [steps].
    apply Forall_cons in Hok as [[Hp _] Hok]. apply Forall_cons in Hok as [[Hpop _] _].
    subst at_. rewrite step_at by done.
    assert (Hex : exists v, exec (plain push) st env = Some (v :: st, env, FNext)).
    { repeat (apply elem_of_cons in Hf as [->|Hf]; [by eexists|]). by apply not_elem_of_nil in Hf. }
    destruct Hex as [v ->]. cbn [continue]. rewrite (cons_middle (plain push)), app_assoc, step_at by done.
    cbn [exec iop plain continue]. f_equal. rewrite !encode_snoc, !length_app, !length_instr_bytes. unfold instr_width.
    assert (OperandWidths (definitions push) = []) as Hw.
    { repeat (apply elem_of_cons in Hf as [->|Hf]; [done|]). by apply not_elem_of_nil in Hf. }
    unfold def_width. simpl. rewrite Hw. simpl. lia.
  - destruct g; cbn [filler_instrs app] in *.
    + exists 2%nat. cbn [steps].
      apply Forall_cons in Hok as [[Hp _] Hok]. apply Forall_cons in Hok as [[Hj _] _].
      subst at_. rewrite step_at by done. cbn [exec iop plain continue].
      rewrite (cons_middle (plain OpFalse)), app_assoc, step_at by done. cbn [exec iop].
      rewrite truthy_false. cbn [continue]. by rewrite target_own.
    + exists 1%nat. cbn [steps]. apply Forall_cons in Hok as [[Hj _] _].
      subst at_. rewrite step_at by done. cbn [exec iop continue].
      by rewrite target_own.
Qed.

(** Repointing leaves what an instruction does alone and moves where it jumps. *)
Lemma erase_retarget slots remap k args args' :
  retarget_args slots remap k args = Some args' ->
  erase_targets slots k args' = erase_targets slots k args.
Proof.
  revert k args'. induction args as [|a args IH]; intros k args' Ha; simplify_eq/=; [done|].
  destruct (containsInt slots k) eqn:Ek.
  - destruct (remap !! _); [|done]. destruct (_ <? _)%nat; [done|].
    destruct (retarget_args slots remap (S k) args) eqn:Er; simplify_eq/=. rewrite Ek. f_equal. by apply IH.
  - destruct (retarget_args slots remap (S k) args) eqn:Er; simplify_eq/=. rewrite Ek. f_equal. by apply IH.
Qed.

Lemma exec_retarget remap i i' st env :
  retarget remap i = Some i' -> exec i' st env = exec i st env.
Proof.
  unfold retarget. destruct (retarget_args _ _ _ _) as [args'|] eqn:Er; intros; simplify_eq/=.
  unfold exec. cbn [iop iargs].
  destruct (iop i); try done; by rewrite (erase_retarget _ _ _ _ _ Er).
Qed.

Lemma target_retarget remap i i' :
  retarget remap i = Some i' ->
  match target i with
  | Some t => exists t', remap !! t = Some t' /\ target i' = Some t'
  | None => target i' = None
  end.
Proof.
  unfold retarget, target, JumpOperands. destruct i as [op args]. cbn [iop iargs].
  rewrite opcode_of_byte_byte.
  destruct (retarget_args _ _ _ _) as [args'|] eqn:Er; intros; simplify_eq/=.
  rewrite opcode_of_byte_byte.
  destruct op; cbn [containsInt existsb Nat.eqb orb] in *; try done;
    (destruct args as [|a args]; simplify_eq/=; [done|]);
    destruct (remap !! Z.to_nat a) as [t'|]; try done; destruct (_ <? t')%nat; try done;
    destruct (retarget_args _ _ _ _); simplify_eq/=; exists t'; by rewrite Nat2Z.id.
Qed.

Lemma step_orig l n i st env :
  l !! n = Some i -> instr_ok i ->
  step (encode l) (Running (old_pos l n) st env) = continue i (old_pos l (S n)) (exec i st env).
Proof.
  intros Hi Hok. rewrite <- (take_drop_middle l n i Hi) at 1. unfold old_pos.
  rewrite step_at by done. by rewrite (take_S_r _ _ _ Hi).
Qed.

Section Simulation.
Context (cutoff : nat) (l k : list instr) (fs : list filler).
Context (Hl : Forall instr_ok l) (Hf : fillers_ok cutoff 0 0 l fs).
Context (Hk : Forall2 (fun i j => retarget (pad_remap l fs) i = Some j) l k).

Lemma padded_length : length (encode (layout 0 k fs).*1) = new_pos 0 l fs (length l).
Proof.
  pose proof (length_layout _ _ _ _ _ (fillers_ok_retarget _ _ _ _ _ _ _ Hk Hf)) as H1.
  by rewrite (new_pos_retarget _ _ _ _ _ _ Hk), <- (Forall2_length _ _ _ Hk) in H1.
Qed.

(** At an instruction: the padded stream runs it and then its filler. *)
Lemma padded_instr n i st env :
  l !! n = Some i ->
  exists m i', retarget (pad_remap l fs) i = Some i' /\
    steps (S m) (encode (layout 0 k fs).*1) (Running (new_pos 0 l fs n) st env)
    = continue i' (new_pos 0 l fs (S n)) (exec i st env).
Proof.
  intros Hi. destruct (Forall2_lookup_l _ _ _ _ _ Hk Hi) as (i' & Hi' & Hr).
  destruct (lookup_lt_is_Some_2 fs n) as [f Hfn].
  { apply lookup_lt_Some in Hi. by rewrite (fillers_ok_length _ _ _ _ _ Hf). }
  destruct (layout_split _ _ _ _ _ n i' f (fillers_ok_retarget _ _ _ _ _ _ _ Hk Hf) Hi' Hfn)
    as (P & Q & Hlay & Hp & Hnext & Hfo).
  rewrite !(new_pos_retarget _ _ _ _ _ _ Hk) in *. rewrite Hlay, <- Hp, Nat.add_0_l in *.
  assert (Hok : instr_ok i') by (eapply retarget_ok; [by eapply Forall_lookup_1 | done]).
  assert (Hat : (length (encode P) + instr_width i')%nat = length (encode (P ++ [i'])))
    by (by rewrite encode_snoc, length_app, length_instr_bytes).
  rewrite <- (exec_retarget _ _ _ st env Hr).
  destruct (exec i' st env) as [[[st1 env1] []]|] eqn:Ee;
    [|exists 0%nat, i'; cbn [steps]; by rewrite step_at, Ee..].
  destruct (filler_detour (P ++ [i']) f Q _ st1 env1 Hfo Hat) as [m Hm].
  exists m, i'. split; [done|]. cbn [steps]. rewrite step_at, Ee by done. cbn [continue].
  rewrite <- Hat, Hnext, <- Hm. by rewrite <- app_assoc.
Qed.

(** One step of the original is one or more of the padded stream. *)
Lemma padded_step c c' :
  same_point (pad_remap l fs) c c' ->
  exists m, same_point (pad_remap l fs) (step (encode l) c) (steps (S m) (encode (layout 0 k fs).*1) c').
Proof.
  intros Hc. pose proof (fillers_ok_length _ _ _ _ _ Hf) as Hlen.
  destruct c as [ip st env|st env|st env|]; destruct c' as [ip' st' env'|st' env'|st' env'|];
    try (by inversion Hc); try (exists 0%nat; exact Hc).
  destruct Hc as (Hip & -> & ->).
  apply pad_remap_inv in Hip as (n & Hn & -> & ->); [|done].
  destruct (decide (n = length l)) as [->|Hne].
  { exists 0%nat. cbn [steps step]. unfold old_pos.
    by rewrite firstn_all, padded_length, !Nat.ltb_irrefl. }
  destruct (lookup_lt_is_Some_2 l n) as [i Hi]; [lia|].
  destruct (padded_instr n i st env Hi) as (m & i' & Hr & Hs). exists m. rewrite Hs.
  rewrite (step_orig _ _ _ _ _ Hi) by by eapply Forall_lookup_1.
  destruct (exec i st env) as [[[st1 env1] []]|]; cbn [continue]; [| |done|done].
  - split; [|done]. apply pad_remap_pos; [done|]. apply lookup_lt_Some in Hi. lia.
  - pose proof (target_retarget _ _ _ Hr) as Ht.
    destruct (target i) as [t|]; [destruct Ht as (t' & Ht & ->) | by rewrite Ht].
    by split.
Qed.

Lemma padded_steps n c c' :
  same_point (pad_remap l fs) c c' ->
  exists m, (n <= m)%nat /\
    same_point (pad_remap l fs) (steps n (encode l) c) (steps m (encode (layout 0 k fs).*1) c').
Proof.
  revert c c'. induction n as [|n IH]; intros c c' Hc; [by exists 0%nat|].
  destruct (padded_step c c' Hc) as [m1 Hc1]. destruct (IH _ _ Hc1) as (m & Hm & Hc2).
  exists (S m1 + m)%nat. split; [lia|]. rewrite steps_add. exact Hc2.
Qed.
End Simulation.
End Machine.

(* ------------------------------------------------------------------ *)
(** ** Order *)

Lemma new_pos_lt cutoff off at_ l fs a b :
  fillers_ok cutoff off at_ l fs -> (a < b <= length l)%nat ->
  (new_pos at_ l fs a < new_pos at_ l fs b)%nat.
Proof.
  intros Hf [Hab Hb]. induction b as [|b IH]; [lia|].
  destruct (lookup_lt_is_Some_2 l b) as [i Hi]; [lia|].
  destruct (lookup_lt_is_Some_2 fs b) as [f Hfb]; [rewrite (fillers_ok_length _ _ _ _ _ Hf); lia|].
  destruct (layout_split _ _ _ _ _ b i f Hf Hi Hfb) as (_ & _ & _ & _ & -> & _).
  pose proof (instr_width_pos i). destruct (decide (a = b)) as [->|]; [lia|].
  assert (new_pos at_ l fs a < new_pos at_ l fs b)%nat by (apply IH; lia). lia.
Qed.

Lemma old_pos_le l a b : (a <= b)%nat -> (old_pos l a <= old_pos l b)%nat.
Proof.
  intros Hab. unfold old_pos. replace (take a l) with (take a (take b l)) by (rewrite take_take; f_equal; lia).
  rewrite <- (take_drop a (take b l)) at 2. rewrite encode_app, length_app. lia.
Qed.

Lemma pad_remap_mono cutoff l fs o1 o2 n1 n2 :
  fillers_ok cutoff 0 0 l fs ->
  pad_remap l fs !! o1 = Some n1 -> pad_remap l fs !! o2 = Some n2 ->
  (o1 < o2)%nat -> (n1 < n2)%nat.
Proof.
  intros Hf H1 H2 Ho. pose proof (fillers_ok_length _ _ _ _ _ Hf) as Hl.
  apply pad_remap_inv in H1 as (a & Ha & -> & ->); [|done].
  apply pad_remap_inv in H2 as (b & Hb & -> & ->); [|done].
  eapply new_pos_lt; [done|]. split; [|done].
  destruct (decide (a < b)%nat); [done|]. assert (Hba : (b <= a)%nat) by lia.
  apply (old_pos_le l) in Hba. lia.
Qed.

Lemma fillers_after_cutoff cutoff off at_ l fs n f :
  fillers_ok cutoff off at_ l fs -> fs !! n = Some f ->
  (cutoff <= off + old_pos l n)%nat -> f = FNone.
Proof.
  revert off at_ fs n. induction l as [|i l IH]; intros off at_ [|f0 fs] [|n] Hf Hn Hc;
    try done; destruct Hf as (_ & Hcut & Hf).
  - unfold old_pos in Hc. simpl in *. simplify_eq. apply Hcut. lia.
  - eapply IH; [exact Hf|done|]. unfold old_pos in *. cbn [take encode] in Hc.
    rewrite length_app, length_instr_bytes in Hc. lia.
Qed.

(* ------------------------------------------------------------------ *)
(** ** Properties *)

(** C7: splicing fillers does not change what a stream computes.  For every
    byte stream, seed, level and filler configuration, [padInstructions] either
    hands the stream back untouched with no table, or returns a stream and a
    table such that, from any stack and any machine, every number of steps of
    the original is matched by at least as many steps of the padded stream that
    reach the same point: the same stack and machine, at the table's image of
    the original's offset, or the same end (off the stream's end, a return, a
    fault).  The theorem holds whatever the other instructions do. *)
Theorem padding_preserves_runs {R : Type} `{Rng R} {V E : Type} `{StreamValues V}
    (other : Opcode -> list Z -> list V -> E -> option (list V * E * flow))
    (level : Z) (config : MutationConfig) (ins : list Z) (protect : bool) (r : R) :
  is_bytes ins ->
  let '(out, table) := (padInstructions level ins protect (fillerGenerators config) r).1 in
  (out = ins /\ table = None) \/
  exists remap, table = Some remap /\ decodable ins /\
    forall n st env, exists m, (n <= m)%nat /\
      same_point remap (steps other n ins (Running 0 st env))
                       (steps other m out (Running 0 st env)).
Proof.
  intros Hb. destruct (decodeBoundaries ins) as [sw|] eqn:Ed.
  2:{ unfold padInstructions. rewrite Ed. by left. }
  apply decodeBoundaries_inv in Ed as (l & Hl & -> & _); [|done].
  destruct (padInstructions_spec level l protect _ r (fillerGenerators_ok config) Hl)
    as [->|(fs & k & Hf & Hk & ->)]; [by left|].
  right. exists (pad_remap l fs). split; [done|]. split; [by exists l|].
  intros n st env. eapply padded_steps; [done..|].
  split; [|done]. apply pad_remap_start. by eapply fillers_ok_length.
Qed.

(** What a padded stream looks like.  When the splice goes through, the new
    stream decodes end to end; every instruction of the original stands at the
    table's image of its old offset with its opcode and its jump operands, and
    nothing else, sent through the table; the table is strictly increasing; and
    from the protected offset on (the main stream's final [OpPop], a function's
    last instruction) nothing is spliced between the instructions. *)
Theorem padding_layout {R : Type} `{Rng R} (level : Z) (config : MutationConfig)
    (l : list instr) (protect : bool) (r : R) (out : list Z) (remap : gmap nat nat) :
  Forall instr_ok l ->
  (padInstructions level (encode l) protect (fillerGenerators config) r).1 = (out, Some remap) ->
  let cutoff := if protect then lastPopOffset (encode l) (starts_from 0 l)
                else default 0%nat (last (starts_from 0 l)) in
  decodable out /\ remap !! length (encode l) = Some (length out) /\
  (forall o1 o2 n1 n2, remap !! o1 = Some n1 -> remap !! o2 = Some n2 -> (o1 < o2)%nat -> (n1 < n2)%nat) /\
  (forall n i, l !! n = Some i ->
     exists p i', remap !! old_pos l n = Some p /\ fetch None out p = Some i' /\
       retarget remap i = Some i' /\
       ((cutoff <= old_pos l n)%nat -> remap !! old_pos l (S n) = Some (p + instr_width i)%nat)).
Proof.
  intros Hl Hpad cutoff.
  destruct (padInstructions_spec level l protect _ r (fillerGenerators_ok config) Hl)
    as [E|(fs & k & Hf & Hk & E)]; [by rewrite E in Hpad|].
  rewrite E in Hpad. simplify_eq. fold cutoff in Hf.
  pose proof (fillers_ok_length _ _ _ _ _ Hf) as Hlen.
  assert (Hk' := fillers_ok_retarget _ _ _ _ _ _ _ Hk Hf).
  assert (Hok := retargeted_ok _ _ _ Hl Hk).
  split; [|split; [|split]].
  - exists (layout 0 k fs).*1. split; [|done]. apply Forall_fmap.
    eapply Forall_impl; [by eapply layout_ok|]. by intros ? [? _].
  - rewrite (padded_length _ _ _ _ Hf Hk). pose proof (pad_remap_pos l fs (length l) Hlen) as Hp.
    unfold old_pos in Hp. rewrite firstn_all in Hp. by apply Hp.
  - intros ????. by eapply pad_remap_mono.
  - intros n i Hi. assert (Hn := lookup_lt_Some _ _ _ Hi).
    destruct (Forall2_lookup_l _ _ _ _ _ Hk Hi) as (i' & Hi' & Hr).
    destruct (lookup_lt_is_Some_2 fs n) as [f Hfn]; [lia|].
    destruct (layout_split _ _ _ _ _ n i' f Hk' Hi' Hfn) as (P & Q & Hlay & Hp & Hnext & _).
    rewrite !(new_pos_retarget _ _ _ _ _ _ Hk) in *.
    exists (new_pos 0 l fs n), i'. split; [apply pad_remap_pos; lia|].
    split; [|split; [done|]].
    + rewrite Hlay, <- Hp, Nat.add_0_l. apply fetch_split. by eapply Forall_lookup_1.
    + intros Hc. rewrite pad_remap_pos by lia. rewrite Hnext, (retarget_width _ _ _ Hr).
      rewrite (fillers_after_cutoff _ _ _ _ _ _ _ Hf Hfn Hc). simpl. by rewrite Nat.add_0_r.
Qed.

Definition padded_main : list instr :=
  [Instr OpTrue []; Instr OpJumpFalse [8]; Instr OpConstant [0]; Instr OpPop [];
   Instr OpChkDbg []; Instr OpChkSnd []].

Lemma padded_main_ok : Forall instr_ok padded_main.
Proof.
  repeat constructor; simpl; try lia; intros [|?] ??; simpl; intros; simplify_eq/=; simpl; lia.
Qed.

(** A small machine for the examples: booleans on the stack, and every other
    instruction pushes. *)
#[export] Instance bool_values : StreamValues bool := {
  value_true := true; value_false := false; value_null := false;
  truthy b := b; truthy_false := eq_refl
}.

Definition push_other (op : Opcode) (args : list Z) (st : list bool) (env : nat)
    : option (list bool * nat * flow) := Some (true :: st, S env, FNext).

Lemma padding_preserves_runs_witness :
  exists out remap,
    (padInstructions 10 (encode padded_main) true (fillerGenerators (getConfig 10)) 3%nat).1
    = (out, Some remap) /\
    exists m, (6 <= m)%nat /\
      same_point remap (steps push_other 6 (encode padded_main) (Running 0 [] 0%nat))
                       (steps push_other m out (Running 0 [] 0%nat)).
Proof.
  pose proof (padding_preserves_runs push_other 10 (getConfig 10) (encode padded_main) true 3%nat
    (encode_ok _ padded_main_ok)) as Hp.
  destruct (padInstructions 10 (encode padded_main) true (fillerGenerators (getConfig 10)) 3%nat).1
    as [out table] eqn:Eo.
  destruct Hp as [[_ ->]|(remap & -> & _ & Hp)]; [vm_compute in Eo; discriminate Eo|].
  exists out, remap. split; [reflexivity|]. apply Hp.
Defined.

Lemma padding_layout_witness :
  exists out remap,
    (padInstructions 10 (encode padded_main) true (fillerGenerators (getConfig 10)) 3%nat).1
    = (out, Some remap) /\ decodable out /\ remap !! 10%nat = Some (length out).
Proof.
  destruct (padInstructions 10 (encode padded_main) true (fillerGenerators (getConfig 10)) 3%nat).1
    as [out [remap|]] eqn:Eo; [|vm_compute in Eo; discriminate Eo].
  exists out, remap. split; [reflexivity|].
  destruct (padding_layout 10 (getConfig 10) padded_main true 3%nat out remap padded_main_ok Eo)
    as (Hd & He & _).
  split; [exact Hd | exact He].
Defined.

(** When the splice declines, the program keeps its instructions and loses
    its position tables.  [padInstructions] hands back a nil map with the
    untouched stream, and [LineTable.Remap] of a nil map is the empty table, so
    the line, macro and end tables of a stream nothing was done to come out
    empty. *)
Theorem declined_splice_drops_tables {R : Type} `{Rng R} (level : Z) (config : MutationConfig)
    (bc : ByteCode) (r : R) :
  InsertNOPs config = true ->
  (padInstructions level (Instructions bc) true (fillerGenerators config) r).1.2 = None ->
  let bc' := (spliceFillers level bc config r).1 in
  Instructions bc' = Instructions bc /\
  bc_LineTable bc' = [] /\ bc_MacroTable bc' = [] /\ bc_EndTable bc' = [].
Proof.
  intros Hn Hp. unfold spliceFillers.
  assert (Hg : (length (fillerGenerators (R:=R) config) =? 0)%nat = false)
    by (unfold fillerGenerators; by rewrite Hn).
  rewrite Hg. pose proof (padInstructions_declined level (Instructions bc) true _ r Hp) as Hi.
  destruct (padInstructions _ _ _ _ _) as [[out table] r']. simpl in Hp, Hi. subst.
  destruct (splice_constants _ _ _ _). done.
Qed.

(** A program with a jump into the middle of an instruction, and a line table. *)
Definition declined_program : ByteCode :=
  bare_program (encode [Instr OpJump [1]; Instr OpPop []]) [] (Build (Add zeroBuilder 0 7 1)) [] [].

Lemma declined_splice_drops_tables_witness :
  At (bc_LineTable declined_program) 0 = Some (7, 1) /\
  bc_LineTable (spliceFillers 5 declined_program (getConfig 5) 0%nat).1 = [].
Proof.
  split; [reflexivity|].
  apply (declined_splice_drops_tables 5 (getConfig 5) declined_program 0%nat); reflexivity.
Defined.
