(* ===== verification/Mutation.v ===== *)
(** The whole of [PolymorphicEngine.Mutate] ([src/compiler/polymorphic.go]) and
    the trim of its marker ([encode] of [src/generator/generate.go]).

    [Padding.v] and [Polymorphic.v] treat the passes one at a time.  Here a
    program is taken through all of them and run: the mutated stream is fetched
    through the shipped opcode table, its constant operands index the shuffled
    pool, and it reaches every point the original reaches. *)

From stdpp Require Import base list list_numbers numbers gmap sets strings.
From Stdlib Require Import ZArith Lia.
From S2P Require Import Prelude Code Stream LineTable Polymorphic Padding.

(** The trim in [encode]: the marker's two bytes, when a level was applied. *)
Definition trim_marker (polymorphicLevel : Z) (bc : ByteCode) : ByteCode :=
  if (0 <? polymorphicLevel) && (2 <=? length (Instructions bc))%nat
  then bc_with bc (take (length (Instructions bc) - 2) (Instructions bc)) (Constants bc) (OpcodeMap bc)
         (bc_LineTable bc) (bc_MacroTable bc) (bc_EndTable bc)
  else bc.

(* ------------------------------------------------------------------ *)
(** ** Streams whose jumps land on instructions *)

Definition boundary (l : list instr) (ip : nat) : Prop := exists n, (n <= length l)%nat /\ ip = old_pos l n.

Definition well_targeted (l : list instr) : Prop :=
  forall i t, i ∈ l -> target i = Some t -> boundary l t.

(** A stream that decodes and whose jumps land on instructions. *)
Definition stream_ok (s : list Z) : Prop :=
  exists l, Forall instr_ok l /\ s = encode l /\ well_targeted l.

Definition constant_ok (c : Constant) : Prop :=
  match c with CFunction fn => stream_ok (fn_Instructions fn) | COther _ => True end.

Lemma boundary_here P i Q : boundary (P ++ i :: Q) (length (encode P)).
Proof.
  exists (length P). rewrite length_app. split; [lia|]. unfold old_pos. by rewrite take_app_length.
Qed.

Lemma boundary_end l : boundary l (length (encode l)).
Proof. exists (length l). split; [done|]. unfold old_pos. by rewrite firstn_all. Qed.

(** Every offset the splice gives an instruction is one. *)
Lemma new_pos_boundary cutoff l fs n :
  fillers_ok cutoff 0 0 l fs -> (n <= length l)%nat -> boundary (layout 0 l fs).*1 (new_pos 0 l fs n).
Proof.
  intros Hf Hn. destruct (decide (n = length l)) as [->|Hne].
  - rewrite <- (length_layout _ _ _ _ _ Hf). apply boundary_end.
  - destruct (lookup_lt_is_Some_2 l n) as [i Hi]; [lia|].
    destruct (lookup_lt_is_Some_2 fs n) as [f Hfn]; [rewrite (fillers_ok_length _ _ _ _ _ Hf); lia|].
    destruct (layout_split _ _ _ _ _ n i f Hf Hi Hfn) as (P & Q & -> & Hp & _). rewrite <- Hp. apply boundary_here.
Qed.

Lemma elem_of_layout at_ l fs j :
  j ∈ (layout at_ l fs).*1 ->
  exists n i f, l !! n = Some i /\ fs !! n = Some f /\
    (j = i \/ j ∈ filler_instrs (new_pos at_ l fs n + instr_width i) f).
Proof.
  revert at_ fs. induction l as [|i l IH]; intros at_ [|f fs] Hj; try (by apply elem_of_nil in Hj).
  cbn [layout fmap list_fmap fst] in Hj. apply elem_of_cons in Hj as [->|Hj]; [by exists 0%nat, i, f; auto|].
  rewrite fmap_app, <- list_fmap_compose in Hj. apply elem_of_app in Hj as [Hj|Hj].
  - exists 0%nat, i, f. split; [done|]. split; [done|]. right. cbn [new_pos].
    rewrite list_fmap_id in Hj. exact Hj.
  - destruct (IH _ _ Hj) as (n & i' & f' & Hi & Hf & Hor). by exists (S n), i', f'.
Qed.

Lemma target_plain op : target (plain op) = None.
Proof. unfold target, plain. cbn [iop iargs]. by destruct (JumpOperands _) as [|[|k] ?]. Qed.

Lemma target_filler at_ f j t : j ∈ filler_instrs at_ f -> target j = Some t -> t = (at_ + flen f)%nat.
Proof.
  destruct f as [|push|g junk]; cbn [filler_instrs].
  - by intros ?%elem_of_nil.
  - intros Hj. rewrite !elem_of_cons, elem_of_nil in Hj. destruct Hj as [->|[->|[]]]; by rewrite target_plain.
  - intros [Hj|[->|Hj]%elem_of_cons]%elem_of_app.
    + destruct g; [|by apply elem_of_nil in Hj]. apply list_elem_of_singleton in Hj as ->. by rewrite target_plain.
    + rewrite target_own by by destruct g. by intros [= <-].
    + apply list_elem_of_fmap in Hj as (op & -> & _). by rewrite target_plain.
Qed.

(** Whatever the jumps of the original do, those of the padded stream land on
    instructions. *)
Lemma padded_well_targeted cutoff l k fs :
  fillers_ok cutoff 0 0 l fs -> Forall2 (fun i j => retarget (pad_remap l fs) i = Some j) l k ->
  well_targeted (layout 0 k fs).*1.
Proof.
  intros Hf Hk j t Hj Ht. pose proof (fillers_ok_retarget _ _ _ _ _ _ _ Hk Hf) as Hfk.
  destruct (elem_of_layout _ _ _ _ Hj) as (n & i' & f & Hi' & Hfn & Hor).
  assert (Hn : (n < length k)%nat) by by eapply lookup_lt_Some.
  destruct Hor as [->|Hfill].
  - destruct (Forall2_lookup_r _ _ _ _ _ Hk Hi') as (i & Hi & Hr). pose proof (target_retarget _ _ _ Hr) as Htr.
    destruct (target i) as [t0|]; [|congruence]. destruct Htr as (t' & Hmap & E). simplify_eq.
    apply pad_remap_inv in Hmap as (m & Hm & _ & ->); [|by eapply fillers_ok_length].
    rewrite <- (new_pos_retarget _ _ _ _ _ _ Hk). eapply new_pos_boundary; [done|].
    by rewrite <- (Forall2_length _ _ _ Hk).
  - apply (target_filler _ _ _ _ Hfill) in Ht as ->.
    destruct (layout_split _ _ _ _ _ n i' f Hfk Hi' Hfn) as (_ & _ & _ & _ & <- & _).
    eapply new_pos_boundary; [done|lia].
Qed.

(* ------------------------------------------------------------------ *)
(** ** A stream whose constants were renumbered and opcodes permuted *)

(** The index a renumbered operand stood for. *)
Definition const_back (mapping : list nat) (b : Z) : Z :=
  match list_find (eq (Z.to_nat b)) mapping with
  | Some (old, _) => Z.of_nat old
  | None => b
  end.

Lemma const_back_index mapping n a : mapping ≡ₚ seq 0 n -> 0 <= a -> const_back mapping (const_index mapping a) = a.
Proof.
  intros Hp Ha. unfold const_back, const_index. assert (Hn : NoDup mapping) by (rewrite Hp; apply NoDup_seq).
  assert (Hlen : length mapping = n) by (rewrite Hp; apply length_seq).
  destruct (mapping !! Z.to_nat a) as [m|] eqn:E.
  - rewrite Nat2Z.id. destruct (list_find (eq m) mapping) as [[old m']|] eqn:Ef.
    + apply list_find_Some in Ef as (Hold & <- & _). rewrite (NoDup_lookup _ _ _ _ Hn Hold E). lia.
    + apply list_find_None in Ef. rewrite Forall_forall in Ef. exfalso. apply (Ef m); [|done].
      by eapply list_elem_of_lookup_2.
  - destruct (list_find (eq (Z.to_nat a)) mapping) as [[old m']|] eqn:Ef; [|done].
    apply list_find_Some in Ef as (Hold & <- & _). apply list_elem_of_lookup_2 in Hold. rewrite Hp in Hold.
    apply elem_of_seq in Hold. apply lookup_ge_None in E. lia.
Qed.

Lemma constant_not_jump op k :
  containsInt (ConstantOperands (opcode_byte op)) k = true -> containsInt (JumpOperands (opcode_byte op)) k = false.
Proof.
  unfold ConstantOperands, JumpOperands. rewrite opcode_of_byte_byte.
  destruct op; cbn; try done; by destruct k as [|[|k]].
Qed.

Lemma map_args_lookup slots g k args j :
  map_args slots g k args !! j = (fun a => if containsInt slots (k + j) then g a else a) <$> args !! j.
Proof.
  revert k j. induction args as [|a args IH]; intros k [|j]; cbn [map_args lookup list_lookup]; try done.
  - by rewrite Nat.add_0_r.
  - rewrite IH. by rewrite Nat.add_succ_r.
Qed.

Lemma erase_targets_lookup slots k args j :
  erase_targets slots k args !! j = (fun a => if containsInt slots (k + j) then 0 else a) <$> args !! j.
Proof.
  revert k j. induction args as [|a args IH]; intros k [|j]; cbn [erase_targets lookup list_lookup]; try done.
  - by rewrite Nat.add_0_r.
  - rewrite IH. by rewrite Nat.add_succ_r.
Qed.

Lemma repoint_ok mapping i :
  Forall (fun n => Z.of_nat n < 65536) mapping -> instr_ok i -> instr_ok (repoint mapping i).
Proof.
  intros Hm [Hl [_ Hf]]. unfold instr_ok, iwidths, repoint. cbn [iop iargs]. rewrite length_map_args.
  split; [done|]. split; [rewrite length_map_args; unfold iwidths in Hl; lia|].
  intros j w o Hw Ho. rewrite map_args_lookup in Ho. apply fmap_Some in Ho as (a & Ha & ->).
  specialize (Hf j w a Hw Ha). cbn [Nat.add]. destruct (containsInt _ j) eqn:Ej; [|done].
  unfold const_index. destruct (mapping !! Z.to_nat a) as [n|] eqn:E; [|done].
  eapply Forall_lookup_1 in Hm; [|exact E]. apply constant_slots_wide in Ej. rewrite Ej in Hw. simplify_eq.
  cbn in *. lia.
Qed.

Lemma old_pos_repoint mapping l n : old_pos (repoint mapping <$> l) n = old_pos l n.
Proof.
  unfold old_pos. rewrite <- fmap_take. induction (take n l) as [|i k IH]; [done|].
  cbn [fmap list_fmap encode]. rewrite !length_app, !length_instr_bytes. f_equal. exact IH.
Qed.

Lemma target_repoint mapping i : target (repoint mapping i) = target i.
Proof.
  unfold target, repoint. cbn [iop iargs]. destruct (JumpOperands (opcode_byte (iop i))) as [|k ks] eqn:E; [done|].
  rewrite map_args_lookup. cbn [Nat.add].
  destruct (containsInt (ConstantOperands (opcode_byte (iop i))) k) eqn:Ek; [|by destruct (iargs i !! k)].
  apply constant_not_jump in Ek. rewrite E in Ek. cbn in Ek. by rewrite Nat.eqb_refl in Ek.
Qed.

Section Lockstep.
Context {V E : Type} `{StreamValues V}.
Context (other : Opcode -> list Z -> list V -> E -> option (list V * E * flow)).

(** The fetch loop with an opcode table, as [Padding.step] is without. *)
Definition vm_step (reverse : option (list Z)) (ins : list Z) (c : config) : config :=
  match c with
  | Running ip st env =>
      if (ip <? length ins)%nat then
        match fetch reverse ins ip with
        | None => Fault
        | Some i => continue i (ip + instr_width i) (exec other i st env)
        end
      else Finished st env
  | c => c
  end.

Fixpoint vm_steps (n : nat) (reverse : option (list Z)) (ins : list Z) (c : config) : config :=
  match n with
  | O => c
  | S n => vm_steps n reverse ins (vm_step reverse ins c)
  end.

Definition at_boundary (l : list instr) (c : @config V E) : Prop :=
  match c with Running ip _ _ => boundary l ip | _ => True end.

Lemma step_boundary l c :
  Forall instr_ok l -> well_targeted l -> at_boundary l c -> at_boundary l (step other (encode l) c).
Proof.
  intros Hl Hw Hc. destruct c as [ip st env|st env|st env|]; try done. destruct Hc as (n & Hn & ->).
  destruct (decide (n = length l)) as [->|Hne].
  { cbn [step]. unfold old_pos. by rewrite firstn_all, Nat.ltb_irrefl. }
  destruct (lookup_lt_is_Some_2 l n) as [i Hi]; [lia|].
  rewrite (step_orig _ _ _ _ _ _ Hi) by by eapply Forall_lookup_1.
  destruct (exec other i st env) as [[[st' env'] []]|]; cbn [continue]; try done.
  - exists (S n). split; [lia|done].
  - destruct (target i) as [t|] eqn:Et; [|done]. eapply Hw; [|exact Et]. by eapply list_elem_of_lookup_2.
Qed.

Lemma steps_boundary n l c :
  Forall instr_ok l -> well_targeted l -> at_boundary l c -> at_boundary l (steps other n (encode l) c).
Proof.
  intros Hl Hw. revert c. induction n as [|n IH]; intros c Hc; [done|]. cbn [steps]. by apply IH, step_boundary.
Qed.
End Lockstep.

(** The other instructions of the mutated program: the same, with a constant
    operand standing for the constant it was renumbered from. *)
Definition renamed {V E : Type} (mapping : list nat)
    (other : Opcode -> list Z -> list V -> E -> option (list V * E * flow))
    (op : Opcode) (args : list Z) (st : list V) (env : E) : option (list V * E * flow) :=
  other op (map_args (ConstantOperands (opcode_byte op)) (const_back mapping) 0 args) st env.

Section Renumbered.
Context {V E : Type} `{StreamValues V}.
Context (other : Opcode -> list Z -> list V -> E -> option (list V * E * flow)).
Context (mapping : list nat) (size : nat) (Hperm : mapping ≡ₚ seq 0 size).

Lemma renamed_args i :
  instr_ok i ->
  map_args (ConstantOperands (opcode_byte (iop i))) (const_back mapping) 0
    (erase_targets (JumpOperands (opcode_byte (iop i))) 0 (iargs (repoint mapping i)))
  = erase_targets (JumpOperands (opcode_byte (iop i))) 0 (iargs i).
Proof.
  intros [Hl [_ Hf]]. apply list_eq. intros j. cbn [repoint iargs].
  rewrite map_args_lookup, !erase_targets_lookup, map_args_lookup. cbn [Nat.add].
  destruct (iargs i !! j) as [a|] eqn:Ha; [|done]. cbn.
  destruct (containsInt (ConstantOperands (opcode_byte (iop i))) j) eqn:Ej; [|done].
  rewrite (constant_not_jump _ _ Ej). f_equal. apply (const_back_index _ size); [done|].
  pose proof (constant_slots_wide _ _ Ej) as Hw. specialize (Hf j _ a Hw Ha). cbn in Hf. lia.
Qed.

Lemma exec_repoint i st env :
  instr_ok i -> exec (renamed mapping other) (repoint mapping i) st env = exec other i st env.
Proof.
  intros Hi. pose proof (renamed_args i Hi) as Ha. unfold exec, renamed.
  change (iop (repoint mapping i)) with (iop i). destruct (iop i); try done; by rewrite Ha.
Qed.

(** A stream that reads, through an opcode table, as the renumbered one. *)
Definition reads_as (reverse : option (list Z)) (l : list instr) (s : list Z) : Prop :=
  length s = length (encode l) /\
  forall n i, l !! n = Some i -> fetch reverse s (old_pos l n) = Some (repoint mapping i).

Lemma lockstep reverse l s c :
  Forall instr_ok l -> reads_as reverse l s -> at_boundary l c ->
  vm_step (renamed mapping other) reverse s c = step other (encode l) c.
Proof.
  intros Hl [Hlen Hr] Hc. destruct c as [ip st env|st env|st env|]; try done. destruct Hc as (n & Hn & ->).
  destruct (decide (n = length l)) as [->|Hne].
  { cbn [step vm_step]. unfold old_pos. by rewrite firstn_all, Hlen, Nat.ltb_irrefl. }
  destruct (lookup_lt_is_Some_2 l n) as [i Hi]; [lia|].
  assert (Hok : instr_ok i) by by eapply Forall_lookup_1.
  rewrite (step_orig _ _ _ _ _ _ Hi) by done. cbn [vm_step]. rewrite (Hr n i Hi).
  assert (Hnext : (old_pos l n + instr_width i)%nat = old_pos l (S n)).
  { unfold old_pos. by rewrite (take_S_r _ _ _ Hi), encode_snoc, length_app, length_instr_bytes. }
  assert (Hlt : (old_pos l n < length s)%nat).
  { rewrite Hlen. pose proof (instr_width_pos i). pose proof (old_pos_le l (S n) (length l) ltac:(lia)) as Hle.
    unfold old_pos at 2 in Hle. rewrite firstn_all in Hle. lia. }
  rewrite (proj2 (Nat.ltb_lt _ _) Hlt), exec_repoint by done.
  change (instr_width (repoint mapping i)) with (instr_width i). rewrite Hnext.
  unfold continue. by rewrite target_repoint.
Qed.

Lemma lockstep_steps n reverse l s c :
  Forall instr_ok l -> well_targeted l -> reads_as reverse l s -> at_boundary l c ->
  vm_steps (renamed mapping other) n reverse s c = steps other n (encode l) c.
Proof.
  intros Hl Hw Hr. revert c. induction n as [|n IH]; intros c Hc; [done|]. cbn [vm_steps steps].
  rewrite (lockstep reverse l s c) by done. apply IH. by apply step_boundary.
Qed.
End Renumbered.

(* ------------------------------------------------------------------ *)
(** ** One stream through the passes *)

(** What a run of a stream from its start comes to, matched by another's. *)
Definition matched (s : list Z) (next : forall V E, StreamValues V ->
    (Opcode -> list Z -> list V -> E -> option (list V * E * flow)) -> nat -> @config V E -> @config V E) : Prop :=
  exists remap, remap !! 0%nat = Some 0%nat /\
    forall V E (vals : StreamValues V) other n st env, exists m, (n <= m)%nat /\
      same_point remap (steps other n s (Running 0 st env)) (next V E vals other m (Running 0 st env)).

(** The splice: another stream, run the same way. *)
Definition padded_from (s s1 : list Z) : Prop :=
  exists l1, Forall instr_ok l1 /\ s1 = encode l1 /\ well_targeted l1 /\
    matched s (fun V E vals other m c => steps other m s1 c).

(** All of it: run with the opcode table and the renumbered constants. *)
Definition runs_alike (mapping : list nat) (reverse : list Z) (s s' : list Z) : Prop :=
  matched s (fun V E vals other m c => vm_steps (renamed mapping other) m (Some reverse) s' c).

Lemma padded_from_refl s : stream_ok s -> padded_from s s.
Proof.
  intros (l & Hl & -> & Hw). exists l. split; [done|]. split; [done|]. split; [done|].
  exists (list_to_map ((fun n => (n, n)) <$> seq 0 (S (length (encode l))))).
  assert (Hid : forall n, (n <= length (encode l))%nat ->
    (list_to_map ((fun n => (n, n)) <$> seq 0 (S (length (encode l)))) : gmap nat nat) !! n = Some n).
  { intros n Hn. apply elem_of_list_to_map_1.
    - rewrite <- list_fmap_compose. cbn. rewrite list_fmap_id. exact (NoDup_seq 0 (S (length (encode l)))).
    - apply list_elem_of_fmap. exists n. split; [done|]. apply elem_of_seq. lia. }
  split; [apply Hid; lia|]. intros V E vals other n st env. exists n. split; [done|].
  assert (Hb : at_boundary l (steps other n (encode l) (Running 0 st env))).
  { apply steps_boundary; [done|done|]. exists 0%nat. split; [lia|done]. }
  destruct (steps other n (encode l) (Running 0 st env)) as [ip st' env'| | |]; try done.
  destruct Hb as (k & Hk & ->). split; [|done]. apply Hid.
  pose proof (old_pos_le l k (length l) Hk) as Hle. unfold old_pos at 2 in Hle. by rewrite firstn_all in Hle.
Qed.

Lemma pad_stream {R : Type} `{Rng R} level config s protect (r : R) :
  stream_ok s -> padded_from s (padInstructions level s protect (fillerGenerators config) r).1.1.
Proof.
  intros Hs. pose proof Hs as (l & Hl & -> & Hw).
  destruct (padInstructions_spec level l protect _ r (fillerGenerators_ok config) Hl)
    as [E|(fs & k & Hf & Hk & E)]; rewrite E; cbn [fst]; [by apply padded_from_refl|].
  exists (layout 0 k fs).*1. split; [|split; [done|split; [by eapply padded_well_targeted|]]].
  - apply Forall_fmap. eapply Forall_impl.
    + eapply layout_ok; [by eapply retargeted_ok|by eapply fillers_ok_retarget].
    + intros p [Hp _]. exact Hp.
  - exists (pad_remap l fs). pose proof (fillers_ok_length _ _ _ _ _ Hf) as Hlen.
    split; [by apply pad_remap_start|]. intros V E' vals other n st env.
    eapply padded_steps; [done..|]. split; [|done]. by apply pad_remap_start.
Qed.

Lemma matched_runs mapping size reverse s l1 s3 :
  mapping ≡ₚ seq 0 size -> Forall instr_ok l1 -> well_targeted l1 -> reads_as mapping (Some reverse) l1 s3 ->
  matched s (fun V E vals other m c => steps other m (encode l1) c) -> runs_alike mapping reverse s s3.
Proof.
  intros Hp Hl Hw Hr (remap & H0 & Hm). exists remap. split; [done|]. intros V E vals other n st env.
  destruct (Hm V E vals other n st env) as (m & Hnm & Hs). exists m. split; [done|].
  rewrite (lockstep_steps other mapping size Hp m (Some reverse) l1 s3); [done..|].
  exists 0%nat. split; [lia|done].
Qed.

(** The last two passes of a stream, from the padded one. *)
Lemma permuted_reads_as mapping (fwd reverse : list Z) l1 :
  Forall (fun n => Z.of_nat n < 65536) mapping -> Forall instr_ok l1 ->
  (forall b, is_byte b -> reverse !!! Z.to_nat (fwd !!! Z.to_nat b) = b) ->
  reads_as mapping (Some reverse) l1 (encode_with (fun b => fwd !!! Z.to_nat b) (repoint mapping <$> l1)).
Proof.
  intros Hm Hl Hinv. assert (Hok : Forall instr_ok (repoint mapping <$> l1)).
  { apply Forall_fmap. eapply Forall_impl; [exact Hl|]. intros i. by apply repoint_ok. }
  assert (Hpos : forall n, length (encode (take n (repoint mapping <$> l1))) = old_pos l1 n)
    by (intros n; apply old_pos_repoint).
  split.
  - rewrite length_encode_with. pose proof (Hpos (length l1)) as Hp. rewrite take_ge in Hp by by rewrite length_fmap.
    rewrite Hp. unfold old_pos. by rewrite firstn_all.
  - intros n i Hi. rewrite <- Hpos. apply fetch_encode_with; [done| |].
    + by rewrite list_lookup_fmap, Hi.
    + apply Hinv. unfold is_byte. pose proof (opcode_byte_range (iop (repoint mapping i))). lia.
Qed.

(* ------------------------------------------------------------------ *)
(** ** A program through the passes *)

(** What the engine leaves of a function besides its stream and tables. *)
Definition same_shape (fn fn' : CompiledFunction) : Prop :=
  NumLocals fn' = NumLocals fn /\ NumParams fn' = NumParams fn /\ fn_CapturedLocals fn' = fn_CapturedLocals fn.

(** Two constants whose streams are related. *)
Definition lifted (rel : list Z -> list Z -> Prop) (c c' : Constant) : Prop :=
  match c, c' with
  | CFunction fn, CFunction fn' => rel (fn_Instructions fn) (fn_Instructions fn') /\ same_shape fn fn'
  | COther v, COther v' => v' = v
  | _, _ => False
  end.

Lemma lifted_trans (r1 r2 r3 : list Z -> list Z -> Prop) a b c :
  (forall s t u, r1 s t -> r2 t u -> r3 s u) -> lifted r1 a b -> lifted r2 b c -> lifted r3 a c.
Proof.
  intros Hr. destruct a as [fa|va], b as [fb|vb], c as [fc|vc]; cbn; try done.
  - intros [H1 (E1 & E2 & E3)] [H2 (F1 & F2 & F3)]. split; [by eapply Hr|]. unfold same_shape. intuition congruence.
  - congruence.
Qed.

Definition program_ok (bc : ByteCode) : Prop :=
  stream_ok (Instructions bc) /\ Forall constant_ok (Constants bc).

Section Passes.
Context {R : Type} `{Rng R}.

Lemma splice_constants_spec level config cs (r : R) :
  Forall constant_ok cs ->
  Forall2 (lifted padded_from) cs (splice_constants level (fillerGenerators config) cs r).1.
Proof.
  intros Hcs. revert r. induction Hcs as [|[fn|v] cs Hc _ IH]; intros r; cbn [splice_constants]; [done| |].
  - pose proof (pad_stream level config (fn_Instructions fn) false r Hc) as Hp.
    destruct (padInstructions _ _ _ _ _) as [[ins remap] r1]. cbn [fst] in Hp.
    specialize (IH r1). destruct (splice_constants _ _ _ _) as [cs' r2]. constructor; [|done]. done.
  - specialize (IH r). destruct (splice_constants _ _ _ _) as [cs' r2]. by constructor.
Qed.

Lemma spliceFillers_spec level config bc (r : R) :
  program_ok bc ->
  padded_from (Instructions bc) (Instructions (spliceFillers level bc config r).1) /\
  Forall2 (lifted padded_from) (Constants bc) (Constants (spliceFillers level bc config r).1).
Proof.
  intros [Hs Hcs]. unfold spliceFillers. destruct (_ =? 0)%nat.
  - split; [by apply padded_from_refl|]. cbn [fst]. induction Hcs as [|[fn|v] cs Hc _ IH]; constructor; try done.
    split; [by apply padded_from_refl|done].
  - pose proof (pad_stream level config (Instructions bc) true r Hs) as Hp.
    destruct (padInstructions _ _ _ _ _) as [[ins remap] r1]. cbn [fst] in Hp.
    pose proof (splice_constants_spec level config (Constants bc) r1 Hcs) as Hc.
    by destruct (splice_constants _ _ _ _) as [cs' r2].
Qed.

(** The shuffle of one stream. *)
Definition renumbered (mapping : list nat) (s s' : list Z) : Prop :=
  forall l, Forall instr_ok l -> s = encode l -> s' = encode (repoint mapping <$> l).

Lemma repoint_id n i : instr_ok i -> repoint (seq 0 n) i = i.
Proof.
  intros [_ [_ Hf]]. destruct i as [op args]. unfold repoint. cbn [iop iargs] in *. f_equal.
  apply list_eq. intros j. rewrite map_args_lookup. cbn [Nat.add]. destruct (args !! j) as [a|] eqn:Ea; [|done]. cbn.
  destruct (containsInt _ j) eqn:Ej; [|done]. f_equal. unfold const_index.
  apply constant_slots_wide in Ej. specialize (Hf j _ a Ej Ea). cbn in Hf.
  destruct (seq 0 n !! Z.to_nat a) as [m|] eqn:Em; [|done]. apply lookup_seq in Em as [-> _]. lia.
Qed.

Lemma renumbered_id n s : renumbered (seq 0 n) s s.
Proof.
  intros l Hl ->. f_equal. symmetry. rewrite <- (list_fmap_id l) at 2. apply list_fmap_ext. intros j i Hi.
  apply repoint_id. by eapply Forall_lookup_1.
Qed.

Lemma lifted_renumbered_id n c : lifted (renumbered (seq 0 n)) c c.
Proof. destruct c; cbn; [split; [apply renumbered_id|done]|done]. Qed.

Lemma randomizeConstantPool_spec bc (r : R) :
  Z.of_nat (length (Constants bc)) <= 65536 ->
  let bc' := (randomizeConstantPool bc r).1 in
  exists mapping, mapping ≡ₚ seq 0 (length (Constants bc)) /\
    renumbered mapping (Instructions bc) (Instructions bc') /\
    length (Constants bc') = length (Constants bc) /\
    (forall a c, 0 <= a -> Constants bc !! Z.to_nat a = Some c ->
       exists c', Constants bc' !! Z.to_nat (const_index mapping a) = Some c' /\ lifted (renumbered mapping) c c').
Proof.
  intros Hmax. unfold randomizeConstantPool. destruct (_ <=? 1)%nat.
  { exists (seq 0 (length (Constants bc))). cbn [fst]. split; [done|]. split; [apply renumbered_id|]. split; [done|].
    intros a c Ha Hc. exists c. split; [|apply lifted_renumbered_id]. unfold const_index.
    pose proof (lookup_lt_Some _ _ _ Hc). rewrite (proj2 (lookup_seq 0 _ (Z.to_nat a) (Z.to_nat a))) by lia.
    by rewrite Nat2Z.id. }
  unfold generateShuffleMapping.
  pose proof (shuffle_loop_Permutation (length (Constants bc) - 1) (seq 0 (length (Constants bc))) r) as Hp.
  destruct (shuffle_loop _ _ _) as [mapping r']. cbn [fst] in *.
  destruct (reorder_permutes mapping (Constants bc) Hp) as (new & -> & Hl & Hat). rewrite omap_id_Some.
  assert (Hm : Forall (fun n => Z.of_nat n < 65536) mapping).
  { rewrite Hp. apply Forall_forall. intros n Hn%elem_of_seq. lia. }
  assert (Hren : forall s, renumbered mapping s (updateConstantReferences s mapping)).
  { intros s l Hok ->. by apply updateConstantReferences_encode. }
  exists mapping. split; [done|]. cbn [bc_with Instructions Constants].
  split; [apply Hren|]. split; [by rewrite length_fmap|]. intros a c Ha Hc. exists (update_constant mapping c).
  rewrite list_lookup_fmap, (reorder_const_index mapping (Constants bc)), Hc by done.
  split; [done|]. destruct c; cbn; [split; [apply Hren|done]|done].
Qed.

(** The permutation of one stream. *)
Definition permuted (fwd : list Z) (s s' : list Z) : Prop :=
  forall l, s = encode l -> s' = encode_with (fun b => fwd !!! Z.to_nat b) l.

Lemma remap_constants_spec fwd cs :
  Forall decodable_constant cs ->
  exists cs', remap_constants fwd cs = Some cs' /\ Forall2 (lifted (permuted fwd)) cs cs'.
Proof.
  induction 1 as [|[fn|v] cs Hc Hcs (cs' & IH & Hf)]; cbn [remap_constants]; [by exists []| |].
  - destruct Hc as (l & Hl & E). pose proof (remapOpcodes_encode fwd l) as H1. rewrite <- E in H1.
    rewrite H1, IH. eexists. split; [done|].
    constructor; [|done]. split; [|done]. intros l' E'. rewrite E', remapOpcodes_encode in H1. by injection H1.
  - rewrite IH. eexists. split; [done|]. by constructor.
Qed.

Lemma mutateOpcodes_spec bc (r : R) :
  decodable (Instructions bc) -> Forall decodable_constant (Constants bc) ->
  let bc' := (mutateOpcodes bc r).1 in
  exists fwd reverse, OpcodeMap bc' = Some reverse /\ length reverse = 256%nat /\
    (forall b, is_byte b -> reverse !!! Z.to_nat (fwd !!! Z.to_nat b) = b) /\
    permuted fwd (Instructions bc) (Instructions bc') /\
    Forall2 (lifted (permuted fwd)) (Constants bc) (Constants bc').
Proof.
  intros (l & Hl & E) Hcs. unfold mutateOpcodes. pose proof (opcode_tables_inverse r) as Ht.
  destruct (generateOpcodeMapping r) as [mapping r']. cbn [fst] in Ht.
  destruct (opcodeTables mapping) as [fwd rv]. destruct Ht as (_ & L2 & Hinv).
  destruct (remap_constants_spec fwd _ Hcs) as (cs' & Ec & Hf).
  pose proof (remapOpcodes_encode fwd l) as H1. rewrite <- E in H1. rewrite H1, Ec. cbn [fst]. exists fwd, rv. split; [done|]. split; [done|].
  split; [intros b Hb; by apply Hinv|]. split; [|done]. cbn [bc_with Instructions]. intros l' E'.
  rewrite E', remapOpcodes_encode in H1. by injection H1.
Qed.
End Passes.

(** One stream through all three. *)
Lemma passes_run mapping size (fwd reverse : list Z) s s1 s2 s3 :
  mapping ≡ₚ seq 0 size -> Z.of_nat size <= 65536 ->
  (forall b, is_byte b -> reverse !!! Z.to_nat (fwd !!! Z.to_nat b) = b) ->
  padded_from s s1 -> renumbered mapping s1 s2 -> permuted fwd s2 s3 -> runs_alike mapping reverse s s3.
Proof.
  intros Hp Hsize Hinv (l1 & Hl & -> & Hw & Hm) Hren Hper. rewrite (Hper _ (Hren l1 Hl eq_refl)).
  eapply matched_runs; [exact Hp|exact Hl|exact Hw| |exact Hm]. apply permuted_reads_as; [|done|done].
  rewrite Hp. apply Forall_forall. intros n Hn%elem_of_seq. lia.
Qed.

Lemma renumbered_decodable mapping s s1 s2 :
  Forall (fun n => Z.of_nat n < 65536) mapping -> padded_from s s1 -> renumbered mapping s1 s2 -> decodable s2.
Proof.
  intros Hm (l1 & Hl & -> & _) Hren. exists (repoint mapping <$> l1). split; [|by apply Hren].
  apply Forall_fmap. eapply Forall_impl; [exact Hl|]. intros i. by apply repoint_ok.
Qed.

(** Every constant of a shuffled pool is one of the pool it was shuffled from. *)
Lemma shuffled_from {A : Type} mapping (cs cs' : list A) (rel : A -> A -> Prop) :
  mapping ≡ₚ seq 0 (length cs) -> length cs' = length cs ->
  (forall a c, 0 <= a -> cs !! Z.to_nat a = Some c ->
     exists c', cs' !! Z.to_nat (const_index mapping a) = Some c' /\ rel c c') ->
  Forall (fun c' => exists c, c ∈ cs /\ rel c c') cs'.
Proof.
  intros Hp Hlen Hat. apply Forall_forall. intros c' [b Hb]%list_elem_of_lookup.
  assert (Hin : b ∈ mapping). { rewrite Hp, elem_of_seq. apply lookup_lt_Some in Hb. lia. }
  apply list_elem_of_lookup in Hin as [a Ha].
  assert (Hl : (a < length cs)%nat) by (apply lookup_lt_Some in Ha; by rewrite Hp, length_seq in Ha).
  destruct (lookup_lt_is_Some_2 _ _ Hl) as [c Hc]. destruct (Hat (Z.of_nat a) c) as (c2 & Hc2 & Hr); [lia|by rewrite Nat2Z.id|].
  unfold const_index in Hc2. rewrite Nat2Z.id, Ha, Nat2Z.id in Hc2. simplify_eq.
  exists c. split; [by eapply list_elem_of_lookup_2|done].
Qed.

Lemma Mutate_stages {R : Type} `{Rng R} level bc (r : R) :
  1 <= level ->
  exists r1 r2, let config := getConfig level in
    let bc1 := (spliceFillers level bc config r).1 in
    let bc2 := (randomizeConstantPool bc1 r1).1 in
    let bc3 := (mutateOpcodes bc2 r2).1 in
    Instructions (trim_marker level (Mutate level bc r).1) = Instructions bc3 /\
    Constants (trim_marker level (Mutate level bc r).1) = Constants bc3 /\
    OpcodeMap (trim_marker level (Mutate level bc r).1) = OpcodeMap bc3.
Proof.
  intros Hl. unfold Mutate. rewrite (proj2 (Z.eqb_neq level 0)) by lia.
  unfold getConfig, polymorphicSafeStagesEnabled. rewrite (proj2 (Z.leb_le 1 level) Hl). cbn [andb orb InsertNOPs InsertDeadCode RandomizeConstants MutateOpcodes].
  destruct (spliceFillers _ _ _ _) as [bc1 r1]. exists r1.
  destruct (randomizeConstantPool bc1 r1) as [bc2 r2] eqn:E2. exists r2. cbn [fst].
  rewrite E2. cbn [fst]. destruct (mutateOpcodes bc2 r2) as [bc3 r3]. cbn [fst].
  unfold trim_marker. cbn [bc_with Instructions]. rewrite (proj2 (Z.ltb_lt 0 level)) by lia.
  unfold AddPolymorphicMarker. rewrite length_app. cbn [length].
  rewrite (proj2 (Nat.leb_le _ _)) by lia. cbn [andb bc_with Instructions Constants OpcodeMap].
  rewrite Nat.add_sub. by rewrite take_app_length.
Qed.

(** C1: mutation preserves programs.  For every level from 1, every seed and
    every program whose streams decode and jump to instructions, the program
    that ships (mutated, its marker trimmed) carries an opcode table the VM
    accepts, and there is a renumbering of the constant pool such that the main
    stream, and every function of the pool at its new index, read through that
    table and with constants read through that renumbering, reaches every point
    the original reaches, with the same stack and machine, whatever the
    instructions other than the spliced ones do; functions keep their frame
    sizes and captured slots, other constants are untouched. *)
Theorem mutation_preserves_programs {R : Type} `{Rng R} (level : Z) (bc : ByteCode) (r : R) :
  1 <= level -> program_ok bc -> Z.of_nat (length (Constants bc)) <= 65536 ->
  let bc' := trim_marker level (Mutate level bc r).1 in
  exists mapping reverse, mapping ≡ₚ seq 0 (length (Constants bc)) /\
    normalizeOpcodeMap (OpcodeMap bc') = Some reverse /\
    runs_alike mapping reverse (Instructions bc) (Instructions bc') /\
    (forall a c, 0 <= a -> Constants bc !! Z.to_nat a = Some c ->
       exists c', Constants bc' !! Z.to_nat (const_index mapping a) = Some c' /\
                  lifted (runs_alike mapping reverse) c c').
Proof.
  intros Hlevel Hok Hmax. cbv zeta. destruct (Mutate_stages level bc r Hlevel) as (r1 & r2 & Hst).
  cbv zeta in Hst. destruct Hst as (-> & -> & ->). set (bc1 := (spliceFillers level bc (getConfig level) r).1).
  destruct (spliceFillers_spec level (getConfig level) bc r Hok) as [Hs1 Hc1]. fold bc1 in Hs1, Hc1.
  pose proof (Forall2_length _ _ _ Hc1) as Hlen.
  destruct (randomizeConstantPool_spec bc1 r1) as (mapping & Hp & Hs2 & Hl2 & Hc2); [lia|].
  set (bc2 := (randomizeConstantPool bc1 r1).1) in *. rewrite <- Hlen in Hp.
  assert (Hm : Forall (fun n => Z.of_nat n < 65536) mapping).
  { rewrite Hp. apply Forall_forall. intros n Hn%elem_of_seq. lia. }
  destruct (mutateOpcodes_spec bc2 r2) as (fwd & reverse & Ho & Hr & Hinv & Hs3 & Hc3).
  { by eapply renumbered_decodable. }
  { eapply Forall_impl; [apply (shuffled_from mapping (Constants bc1) _ _ ltac:(by rewrite <- Hlen) Hl2 Hc2)|].
    intros [fn2|v2] ([fn1|v1] & Hin & Hrel); try done. destruct Hrel as [Hren _].
    apply list_elem_of_lookup in Hin as [j Hj]. destruct (Forall2_lookup_r _ _ _ _ _ Hc1 Hj) as ([fn0|v0] & _ & Hpad); [|done].
    eapply renumbered_decodable; [done|apply Hpad|done]. }
  exists mapping, reverse. split; [done|]. rewrite Ho. unfold normalizeOpcodeMap. rewrite Hr. split; [done|].
  split; [by eapply passes_run|]. intros a c Ha Hc.
  destruct (Forall2_lookup_l _ _ _ _ _ Hc1 Hc) as (c1 & Hc1' & Hrel1).
  destruct (Hc2 a c1 Ha Hc1') as (c2 & Hc2' & Hrel2).
  destruct (Forall2_lookup_l _ _ _ _ _ Hc3 Hc2') as (c3 & Hc3' & Hrel3). exists c3. split; [done|].
  eapply (lifted_trans (fun s s2 => exists s1, padded_from s s1 /\ renumbered mapping s1 s2) (permuted fwd)); [| |exact Hrel3].
  - intros s s2 s3 (s1 & Hpad & Hren) Hper. by eapply passes_run.
  - eapply (lifted_trans padded_from (renumbered mapping)); [|exact Hrel1|exact Hrel2]. eauto.
Qed.

(** A program with a jump and a function, for the example. *)
Definition jumping_main : list instr :=
  [Instr OpTrue []; Instr OpJumpFalse [8]; Instr OpConstant [0]; Instr OpPop []].

Definition jumping_program : ByteCode :=
  bare_program (encode jumping_main)
    [COther 10; COther 20; CFunction (bare_function (encode sample_body))] [] [] [].

Lemma jumping_main_ok : Forall instr_ok jumping_main.
Proof.
  repeat constructor; simpl; try lia; intros [|?] ??; simpl; intros; simplify_eq/=; simpl; lia.
Qed.

Lemma jumping_program_ok : program_ok jumping_program.
Proof.
  split.
  - exists jumping_main. split; [apply jumping_main_ok|]. split; [done|]. intros i t Hi Ht.
    unfold jumping_main in Hi. rewrite !elem_of_cons, elem_of_nil in Hi.
    destruct Hi as [->|[->|[->|[->|[]]]]]; vm_compute in Ht; simplify_eq. exists 4%nat. split; [done|reflexivity].
  - repeat constructor. exists sample_body. split; [apply sample_body_ok|]. split; [done|]. intros i t Hi Ht.
    unfold sample_body in Hi. rewrite !elem_of_cons, elem_of_nil in Hi.
    destruct Hi as [->|[->|[]]]; vm_compute in Ht; simplify_eq.
Qed.

Lemma mutation_preserves_programs_witness :
  let bc' := trim_marker 5 (Mutate 5 jumping_program 0%nat).1 in
  Instructions bc' <> Instructions jumping_program /\
  exists mapping reverse, normalizeOpcodeMap (OpcodeMap bc') = Some reverse /\
    runs_alike mapping reverse (Instructions jumping_program) (Instructions bc').
Proof.
  split; [vm_compute; discriminate|].
  destruct (mutation_preserves_programs 5 jumping_program 0%nat) as (mapping & reverse & _ & Ho & Hr & _).
  - lia.
  - exact jumping_program_ok.
  - vm_compute. discriminate.
  - exists mapping, reverse. exact (conj Ho Hr).
Defined.
