(* ===== verification/SymbolTable.v ===== *)
(** The compiler's symbol table: [src/compiler/symbol_table.go].

    A chain of tables, one per function being compiled and the root for the
    program, each a name map with slots, captures and open blocks.  The
    operations are the methods of [SymbolTable]; a method that reaches outward
    ([Resolve] marking a capture in an enclosing table) threads the whole chain.
    The theorems give the chain a specification, lexical lookup, and show that
    [Resolve] implements it and that a closed block leaves no trace in it. *)

From stdpp Require Import base list numbers gmap strings sorting.
From Stdlib Require Import ZArith Lia.
From S2P Require Import Prelude.

(* ------------------------------------------------------------------ *)
(** ** Data *)

Inductive SymbolScope : Type :=
| GlobalScope | LocalScope | BuiltinScope | FreeScope | FunctionScope.

#[export] Instance SymbolScope_eq_dec : EqDecision SymbolScope.
Proof. solve_decision. Defined.

Record Symbol : Type := Sym { Name : string; Scope : SymbolScope; Index : nat }.

#[export] Instance Symbol_eq_dec : EqDecision Symbol.
Proof. solve_decision. Defined.

(** [shadowed]: [previous] and [existed] as one option. *)
Record shadowed : Type := Shadowed { sh_key : string; sh_previous : option Symbol }.

(** [blockFrame]: the undo records, the latest first. *)
Definition blockFrame : Type := list shadowed.

(** [SymbolTable] without its [Outer] pointer; [blocks] innermost first. *)
Record SymbolTable : Type := Table {
  store : gmap string Symbol;
  numDefinitions : nat;
  FreeSymbols : list Symbol;
  blocks : list blockFrame;
  capturedLocals : gset nat;
  builtinRefs : list string;
  builtinRef : gmap string nat;
  currentModule : string;
  moduleNamespaces : gmap string (gmap string string) }.

(** A table and the tables its [Outer] pointers lead to. *)
Inductive Chain : Type :=
| Root (t : SymbolTable)
| Enclosed (t : SymbolTable) (outer : Chain).

Definition head (c : Chain) : SymbolTable :=
  match c with Root t => t | Enclosed t _ => t end.

Definition set_head (t : SymbolTable) (c : Chain) : Chain :=
  match c with Root _ => Root t | Enclosed _ o => Enclosed t o end.

Definition is_root (c : Chain) : bool :=
  match c with Root _ => true | Enclosed _ _ => false end.

(** [root]: the walk out to the table that owns the compilation unit. *)
Fixpoint root (c : Chain) : SymbolTable :=
  match c with Root t => t | Enclosed _ o => root o end.

Fixpoint set_root (t : SymbolTable) (c : Chain) : Chain :=
  match c with Root _ => Root t | Enclosed t' o => Enclosed t' (set_root t o) end.

(** Field updates. *)
Definition with_store (s : gmap string Symbol) (t : SymbolTable) : SymbolTable :=
  Table s (numDefinitions t) (FreeSymbols t) (blocks t) (capturedLocals t) (builtinRefs t)
    (builtinRef t) (currentModule t) (moduleNamespaces t).

Definition with_blocks (b : list blockFrame) (t : SymbolTable) : SymbolTable :=
  Table (store t) (numDefinitions t) (FreeSymbols t) b (capturedLocals t) (builtinRefs t)
    (builtinRef t) (currentModule t) (moduleNamespaces t).

Definition with_slot (key : string) (s : Symbol) (t : SymbolTable) : SymbolTable :=
  Table (<[key := s]> (store t)) (S (numDefinitions t)) (FreeSymbols t) (blocks t)
    (capturedLocals t) (builtinRefs t) (builtinRef t) (currentModule t) (moduleNamespaces t).

(* ------------------------------------------------------------------ *)
(** ** Operations *)

(** [moduleSeparator], a NUL. *)
Definition moduleSeparator : string := String Ascii.zero EmptyString.

Definition qualify (module name : string) : string :=
  if decide (module = "") then name else module +:+ moduleSeparator +:+ name.

Definition IsModulePrivate (name : string) : bool := String.prefix "_" name.

Definition NewSymbolTable : SymbolTable := Table ∅ 0 [] [] ∅ [] ∅ "" ∅.

Definition NewEnclosedSymbolTable (outer : Chain) : Chain := Enclosed NewSymbolTable outer.

Definition OpenBlock (c : Chain) : Chain :=
  set_head (with_blocks ([] :: blocks (head c)) (head c)) c.

(** The undo loop of [CloseBlock]. *)
Definition undo_one (s : gmap string Symbol) (entry : shadowed) : gmap string Symbol :=
  match sh_previous entry with
  | Some previous => <[sh_key entry := previous]> s
  | None => delete (sh_key entry) s
  end.

Definition undo_frame (frame : blockFrame) (s : gmap string Symbol) : gmap string Symbol :=
  foldl undo_one s frame.

#[global] Arguments undo_frame : simpl never.

Definition close_table (t : SymbolTable) : SymbolTable :=
  match blocks t with
  | [] => t
  | frame :: rest => with_blocks rest (with_store (undo_frame frame (store t)) t)
  end.

Definition CloseBlock (c : Chain) : Chain := set_head (close_table (head c)) c.

Definition noteShadowed (key : string) (t : SymbolTable) : SymbolTable :=
  match blocks t with
  | [] => t
  | frame :: rest => with_blocks ((Shadowed key (store t !! key) :: frame) :: rest) t
  end.

(** The store key and the scope of a declaration in the innermost table. *)
Definition decl_key (c : Chain) (name : string) : string :=
  if is_root c then qualify (currentModule (head c)) name else name.

Definition decl_scope (c : Chain) : SymbolScope :=
  if is_root c then GlobalScope else LocalScope.

Definition Define (name : string) (c : Chain) : Chain * Symbol :=
  let symbol := Sym name (decl_scope c) (numDefinitions (head c)) in
  let key := decl_key c name in
  (set_head (with_slot key symbol (noteShadowed key (head c))) c, symbol).

Definition DefineInternal (key : string) (c : Chain) : Chain * Symbol :=
  let symbol := Sym "" (decl_scope c) (numDefinitions (head c)) in
  (set_head (with_slot (decl_key c key) symbol (head c)) c, symbol).

Definition ResolveInternal (key : string) (c : Chain) : option Symbol :=
  store (head c) !! decl_key c key.

(** [own], with the test for the root as an argument. *)
Definition own_in (at_root : bool) (t : SymbolTable) (name : string) : option Symbol :=
  if at_root && negb (bool_decide (currentModule t = "")) then
    match store t !! qualify (currentModule t) name with
    | Some obj => Some obj
    | None => store t !! name
    end
  else store t !! name.

Definition own (c : Chain) (name : string) : option Symbol := own_in (is_root c) (head c) name.

Definition mark_table (index : nat) (t : SymbolTable) : SymbolTable :=
  Table (store t) (numDefinitions t) (FreeSymbols t) (blocks t) ({[index]} ∪ capturedLocals t)
    (builtinRefs t) (builtinRef t) (currentModule t) (moduleNamespaces t).

Definition markCaptured (index : nat) (c : Chain) : Chain := set_head (mark_table index (head c)) c.

Definition defineFree (original : Symbol) (t : SymbolTable) : SymbolTable * Symbol :=
  let symbol := Sym (Name original) FreeScope (length (FreeSymbols t)) in
  (Table (<[Name original := symbol]> (store t)) (numDefinitions t) (FreeSymbols t ++ [original])
     (blocks t) (capturedLocals t) (builtinRefs t) (builtinRef t) (currentModule t)
     (moduleNamespaces t), symbol).

Fixpoint Resolve (name : string) (c : Chain) : Chain * option Symbol :=
  match own c name with
  | Some obj => (c, Some obj)
  | None =>
      match c with
      | Root _ => (c, None)
      | Enclosed t outer =>
          let '(outer, res) := Resolve name outer in
          match res with
          | None => (Enclosed t outer, None)
          | Some obj =>
              match Scope obj with
              | GlobalScope | BuiltinScope => (Enclosed t outer, Some obj)
              | _ =>
                  let outer := match Scope obj with
                               | LocalScope => markCaptured (Index obj) outer
                               | _ => outer
                               end in
                  let '(t, free) := defineFree obj t in
                  (Enclosed t outer, Some free)
              end
          end
      end
  end.

Definition SetCurrentModule (key : string) (c : Chain) : Chain :=
  let r := root c in
  set_root (Table (store r) (numDefinitions r) (FreeSymbols r) (blocks r) (capturedLocals r)
    (builtinRefs r) (builtinRef r) key (moduleNamespaces r)) c.

Definition CurrentModule (c : Chain) : string := currentModule (root c).

Definition BindNamespace (namespace key : string) (c : Chain) : Chain :=
  let r := root c in
  let bindings := default ∅ (moduleNamespaces r !! currentModule r) in
  set_root (Table (store r) (numDefinitions r) (FreeSymbols r) (blocks r) (capturedLocals r)
    (builtinRefs r) (builtinRef r) (currentModule r)
    (<[currentModule r := <[namespace := key]> bindings]> (moduleNamespaces r))) c.

Definition LookupNamespace (namespace : string) (c : Chain) : option string :=
  let r := root c in moduleNamespaces r !! currentModule r ≫= fun b => b !! namespace.

Definition ResolveIn (key name : string) (c : Chain) : option Symbol :=
  store (root c) !! qualify key name.

(** [ModuleNames]: the visible top-level names of a module, sorted. *)
Definition ModuleNames (key : string) (c : Chain) : list string :=
  let visible (p : string * Symbol) : option string :=
    if bool_decide (Scope p.2 = GlobalScope) && String.prefix (qualify key "") p.1
       && negb (IsModulePrivate (Name p.2))
    then Some (Name p.2) else None in
  merge_sort String.le (omap visible (map_to_list (store (root c)))).

Definition ReferenceBuiltin (name : string) (c : Chain) : Chain * nat :=
  let r := root c in
  match builtinRef r !! name with
  | Some index => (c, index)
  | None =>
      let index := length (builtinRefs r) in
      (set_root (Table (store r) (numDefinitions r) (FreeSymbols r) (blocks r) (capturedLocals r)
         (builtinRefs r ++ [name]) (<[name := index]> (builtinRef r)) (currentModule r)
         (moduleNamespaces r)) c, index)
  end.

Definition ReferencedBuiltins (c : Chain) : list string := builtinRefs (root c).

Definition DefineBuiltin (index : nat) (name : string) (c : Chain) : Chain * Symbol :=
  let symbol := Sym name BuiltinScope index in
  (set_head (with_store (<[name := symbol]> (store (head c))) (head c)) c, symbol).

Definition DefineFunctionName (name : string) (c : Chain) : Chain * Symbol :=
  let symbol := Sym name FunctionScope 0 in
  (set_head (with_store (<[name := symbol]> (store (head c))) (head c)) c, symbol).

Definition CapturedLocals (t : SymbolTable) : list nat := merge_sort le (elements (capturedLocals t)).

Definition IsCaptured (index : nat) (t : SymbolTable) : bool := bool_decide (index ∈ capturedLocals t).

Definition GlobalNames (t : SymbolTable) : list string :=
  merge_sort String.le
    (omap (fun p => if bool_decide (Scope p.2 = GlobalScope) then Some (Name p.2) else None)
       (map_to_list (store t))).

(** [slotNames]; [None] is the nil slice of a table with nothing to report. *)
Definition slot_step (scope : SymbolScope) (count : nat) (acc : list string * bool)
    (symbol : Symbol) : list string * bool :=
  if negb (bool_decide (Scope symbol = scope)) || (count <=? Index symbol)%nat then acc
  else if bool_decide (Name symbol = "") then acc
  else (<[Index symbol := Name symbol]> acc.1, true).

Definition slotNames (s : gmap string Symbol) (scope : SymbolScope) (count : nat)
    : option (list string) :=
  let '(names, populated) :=
    foldl (slot_step scope count) (replicate count "", false) (map_to_list s).*2 in
  if populated then Some names else None.

Definition LocalSlotNames (c : Chain) : option (list string) :=
  if is_root c || (numDefinitions (head c) =? 0)%nat then None
  else slotNames (store (head c)) LocalScope (numDefinitions (head c)).

Definition GlobalSlotNames (c : Chain) : option (list string) :=
  if (numDefinitions (root c) =? 0)%nat then None
  else slotNames (store (root c)) GlobalScope (numDefinitions (root c)).

Definition freeOriginal (index : nat) (t : SymbolTable) : option Symbol := FreeSymbols t !! index.

Fixpoint freeCapturesFunctionName (index : nat) (c : Chain) : bool :=
  match freeOriginal index (head c) with
  | None => false
  | Some original =>
      match Scope original with
      | FreeScope =>
          match c with
          | Root _ => false
          | Enclosed _ outer => freeCapturesFunctionName (Index original) outer
          end
      | FunctionScope => true
      | _ => false
      end
  end.

(* ------------------------------------------------------------------ *)
(** ** Lexical scope *)

(** A name a source line can spell: it has no NUL and does not begin with the
    space the compiler's own slots begin with. *)
Fixpoint no_nul (s : string) : bool :=
  match s with
  | EmptyString => true
  | String c s => negb (Ascii.eqb c Ascii.zero) && no_nul s
  end.

Definition ident (name : string) : Prop :=
  no_nul name = true /\ String.prefix " " name = false.

(** The number of tables outside the innermost one. *)
Fixpoint height (c : Chain) : nat :=
  match c with Root _ => 0%nat | Enclosed _ o => S (height o) end.

(** What a name means in the end: a global slot, a builtin, a slot of the frame
    of the function at a height, or that function itself. *)
Inductive binding : Type :=
| BGlobal (index : nat)
| BBuiltin (index : nat)
| BLocal (level index : nat)
| BFunction (level : nat).

(** What a resolved symbol refers to: a capture is followed through the tables
    it was handed along. *)
Fixpoint denote (c : Chain) (s : Symbol) : option binding :=
  match Scope s with
  | GlobalScope => Some (BGlobal (Index s))
  | BuiltinScope => Some (BBuiltin (Index s))
  | LocalScope => Some (BLocal (height c) (Index s))
  | FunctionScope => Some (BFunction (height c))
  | FreeScope =>
      match c with
      | Root _ => None
      | Enclosed t o =>
          match FreeSymbols t !! Index s with
          | Some original => denote o original
          | None => None
          end
      end
  end.

(** The specification: the innermost declaration, captures not counted. *)
Fixpoint lexical (c : Chain) (name : string) : option binding :=
  let outward := match c with Root _ => None | Enclosed _ o => lexical o name end in
  match own c name with
  | Some s => match Scope s with FreeScope => outward | _ => denote c s end
  | None => outward
  end.

(** The table at a height. *)
Fixpoint table_at (c : Chain) (level : nat) : SymbolTable :=
  match c with
  | Root t => t
  | Enclosed t o => if (level =? height c)%nat then t else table_at o level
  end.

(** The stores a table shows now and after closing one, two, ... of its open
    blocks. *)
Fixpoint views (bs : list blockFrame) (s : gmap string Symbol) : list (gmap string Symbol) :=
  s :: match bs with [] => [] | f :: bs => views bs (undo_frame f s) end.

Definition table_views (t : SymbolTable) : list (gmap string Symbol) := views (blocks t) (store t).

Definition all_keys (bs : list blockFrame) : list string := sh_key <$> concat bs.

(** The store key of a source name. *)
Definition tkey (at_root : bool) (module name : string) : string :=
  if at_root then qualify module name else name.

(** Every name an open block displaced is bound while the block is open. *)
Fixpoint present (bs : list blockFrame) (s : gmap string Symbol) : Prop :=
  match bs with
  | [] => True
  | f :: bs => (forall e, e ∈ f -> is_Some (s !! sh_key e)) /\ present bs (undo_frame f s)
  end.

(* ------------------------------------------------------------------ *)
(** ** The invariant *)

(** Two names never share a slot. *)
Definition slots_inj (sc : SymbolScope) (s : gmap string Symbol) : Prop :=
  forall k1 k2 y1 y2, s !! k1 = Some y1 -> s !! k2 = Some y2 ->
    Scope y1 = sc -> Scope y2 = sc -> Index y1 = Index y2 -> k1 = k2.

Definition root_store (n : nat) (s : gmap string Symbol) : Prop :=
  slots_inj GlobalScope s /\
  forall k y, s !! k = Some y ->
    match Scope y with
    | GlobalScope => (Index y < n)%nat
    | BuiltinScope => True
    | _ => False
    end.

Definition enclosed_store (n : nat) (free : list Symbol) (s : gmap string Symbol) : Prop :=
  slots_inj LocalScope s /\
  forall k y, s !! k = Some y ->
    (ident k -> Name y = k) /\
    match Scope y with
    | LocalScope => (Index y < n)%nat
    | FunctionScope => True
    | FreeScope => ident k /\ exists original, free !! Index y = Some original /\ Name original = k
    | _ => False
    end.

(** A capture names what its name means one table out, and the slot it reaches
    there, when it is one, is marked as captured. *)
Definition free_ok (o : Chain) (original : Symbol) : Prop :=
  ident (Name original) /\
  match Scope original with LocalScope | FreeScope | FunctionScope => True | _ => False end /\
  is_Some (denote o original) /\ denote o original = lexical o (Name original) /\
  (Scope original = LocalScope -> Index original ∈ capturedLocals (head o)).

Definition blocks_ok (at_root : bool) (t : SymbolTable) : Prop :=
  present (blocks t) (store t) /\
  forall k, k ∈ all_keys (blocks t) -> exists n, ident n /\ k = tkey at_root (currentModule t) n.

Fixpoint wf (c : Chain) : Prop :=
  match c with
  | Root t =>
      blocks_ok true t /\ FreeSymbols t = [] /\ Forall (root_store (numDefinitions t)) (table_views t)
  | Enclosed t o =>
      blocks_ok false t /\
      Forall (enclosed_store (numDefinitions t) (FreeSymbols t)) (table_views t) /\
      Forall (free_ok o) (FreeSymbols t) /\ wf o
  end.

(* ------------------------------------------------------------------ *)
(** ** Blocks *)

Lemma undo_frame_cons e f s : undo_frame (e :: f) s = undo_frame f (undo_one s e).
Proof. done. Qed.

Lemma undo_frame_other f s k : k ∉ sh_key <$> f -> undo_frame f s !! k = s !! k.
Proof.
  revert s. induction f as [|[k' p] f IH]; intros s Hk; [done|].
  cbn [fmap list_fmap sh_key] in Hk. apply not_elem_of_cons in Hk as [Hne Hk].
  rewrite undo_frame_cons, IH by done.
  unfold undo_one. cbn [sh_key sh_previous].
  destruct p; [by apply lookup_insert_ne | by apply lookup_delete_ne].
Qed.

Lemma undo_frame_insert f s k v :
  k ∉ sh_key <$> f -> undo_frame f (<[k := v]> s) = <[k := v]> (undo_frame f s).
Proof.
  revert s. induction f as [|[k' p] f IH]; intros s Hk; [done|].
  cbn [fmap list_fmap sh_key] in Hk. apply not_elem_of_cons in Hk as [Hne Hk].
  rewrite !undo_frame_cons, <- IH by done. f_equal.
  unfold undo_one. cbn [sh_key sh_previous].
  destruct p; [by apply insert_insert_ne | by apply delete_insert_ne].
Qed.

Lemma views_insert bs s k v :
  k ∉ all_keys bs -> views bs (<[k := v]> s) = insert k v <$> views bs s.
Proof.
  revert s. induction bs as [|f bs IH]; intros s Hk; [done|].
  unfold all_keys in *. cbn [concat] in Hk. rewrite fmap_app in Hk.
  apply not_elem_of_app in Hk as [Hf Hk]. cbn [views fmap list_fmap].
  by rewrite undo_frame_insert, IH.
Qed.

(** Undoing a declaration first leaves nothing of it. *)
Lemma undo_one_insert s k v : undo_one (<[k := v]> s) (Shadowed k (s !! k)) = s.
Proof.
  unfold undo_one. cbn [sh_key sh_previous]. destruct (s !! k) as [p|] eqn:E.
  - rewrite insert_insert_eq. by apply insert_id.
  - rewrite delete_insert_eq. by apply delete_id.
Qed.

Lemma undo_frame_dom f s k :
  (forall e, e ∈ f -> is_Some (s !! sh_key e)) -> is_Some (undo_frame f s !! k) -> is_Some (s !! k).
Proof.
  intros Hf Hk. destruct (decide (k ∈ sh_key <$> f)) as [Hin|Hin].
  - apply list_elem_of_fmap in Hin as (e & -> & He). by apply Hf.
  - by rewrite undo_frame_other in Hk.
Qed.

Lemma present_keys bs s k : present bs s -> k ∈ all_keys bs -> is_Some (s !! k).
Proof.
  revert s. induction bs as [|f bs IH]; intros s Hp Hk; [by apply not_elem_of_nil in Hk|].
  destruct Hp as [Hf Hp]. unfold all_keys in Hk. cbn [concat] in Hk.
  rewrite fmap_app, elem_of_app in Hk. destruct Hk as [Hk|Hk].
  - apply list_elem_of_fmap in Hk as (e & -> & He). by apply Hf.
  - eapply undo_frame_dom; [done|]. by apply IH.
Qed.

Lemma present_insert bs s k v : present bs s -> k ∉ all_keys bs -> present bs (<[k := v]> s).
Proof.
  revert s. induction bs as [|f bs IH]; intros s Hp Hk; [done|]. destruct Hp as [Hf Hp].
  unfold all_keys in Hk. cbn [concat] in Hk. rewrite fmap_app, not_elem_of_app in Hk.
  destruct Hk as [Hkf Hk]. split.
  - intros e He. destruct (decide (k = sh_key e)) as [->|]; [rewrite lookup_insert_eq; by eexists|].
    rewrite lookup_insert_ne by done. by apply Hf.
  - rewrite undo_frame_insert by done. by apply IH.
Qed.

(* ------------------------------------------------------------------ *)
(** ** Captures only add *)

Definition keeps (s s' : gmap string Symbol) : Prop :=
  forall k, s' !! k = s !! k \/ (s !! k = None /\ exists y, s' !! k = Some y /\ Scope y = FreeScope).

#[export] Instance keeps_preorder : PreOrder keeps.
Proof.
  split; [intros s k; by left|]. intros s1 s2 s3 H12 H23 k.
  destruct (H12 k) as [E|[E (y & Hy & Hs)]], (H23 k) as [E'|[E' (y' & Hy' & Hs')]].
  - left. congruence.
  - right. split; [congruence | eauto].
  - right. split; [done|]. exists y. split; [congruence | done].
  - congruence.
Qed.

Record tab_ext (t t' : SymbolTable) : Prop := {
  ext_blocks : blocks t' = blocks t;
  ext_slots : numDefinitions t' = numDefinitions t;
  ext_module : currentModule t' = currentModule t;
  ext_free : FreeSymbols t `prefix_of` FreeSymbols t';
  ext_captured : capturedLocals t ⊆ capturedLocals t';
  ext_views : Forall2 keeps (table_views t) (table_views t') }.

(** Two root tables that differ in the builtin references or the namespaces. *)
Definition same_scope (t t' : SymbolTable) : Prop :=
  store t' = store t /\ numDefinitions t' = numDefinitions t /\ FreeSymbols t' = FreeSymbols t /\
  blocks t' = blocks t /\ capturedLocals t' = capturedLocals t /\ currentModule t' = currentModule t.

(** Two chains that differ in the captures recorded in the enclosed tables, or
    in what the root keeps beside its scope. *)
Fixpoint ext (c c' : Chain) : Prop :=
  match c, c' with
  | Root t, Root t' => same_scope t t'
  | Enclosed t o, Enclosed t' o' => tab_ext t t' /\ ext o o'
  | _, _ => False
  end.

Lemma Forall2_keeps_refl l : Forall2 keeps l l.
Proof. induction l; constructor; by auto || reflexivity. Qed.

Lemma Forall2_keeps_trans l1 l2 l3 : Forall2 keeps l1 l2 -> Forall2 keeps l2 l3 -> Forall2 keeps l1 l3.
Proof.
  intros H1. revert l3. induction H1 as [|s1 s2 l1 l2 Hs H1 IH]; intros l3 H2; inversion H2; subst;
    constructor; [by etrans | by apply IH].
Qed.

#[export] Instance tab_ext_preorder : PreOrder tab_ext.
Proof.
  split; [intros t; split; auto using Forall2_keeps_refl; done|].
  intros t1 t2 t3 [] []. split; try congruence; by etrans.
Qed.

#[export] Instance ext_preorder : PreOrder ext.
Proof.
  split.
  - intros c. induction c as [t|t o IH]; simpl; [done|]. split; [reflexivity | done].
  - intros c1. induction c1 as [t|t o IH]; intros [t2|t2 o2] [t3|t3 o3]; simpl; try done.
    + unfold same_scope. intuition congruence.
    + intros [H1 H2] [H3 H4]. split; [by etrans | by eapply IH].
Qed.

Lemma ext_height c c' : ext c c' -> height c' = height c.
Proof.
  revert c'. induction c as [t|t o IH]; intros [t'|t' o'] H; simpl in *; try done.
  destruct H as [_ H]. by rewrite (IH o').
Qed.

Lemma table_views_head t : exists vs, table_views t = store t :: vs.
Proof. unfold table_views. destruct (blocks t); by eexists. Qed.

Lemma tab_ext_store t t' : tab_ext t t' -> keeps (store t) (store t').
Proof.
  intros []. destruct (table_views_head t) as [vs E], (table_views_head t') as [vs' E'].
  rewrite E, E' in *. by inversion ext_views0.
Qed.

Lemma ext_denote c c' s b : ext c c' -> denote c s = Some b -> denote c' s = Some b.
Proof.
  revert c' s. induction c as [t|t o IH]; intros [t'|t' o'] s H Hd; simpl in H;
    [done|done|done|].
  destruct H as [Ht Ho]. cbn [denote height] in *. rewrite (ext_height _ _ Ho).
  destruct (Scope s); try done.
  destruct (FreeSymbols t !! Index s) as [orig|] eqn:E; [|done].
  rewrite (prefix_lookup_Some _ _ _ _ E (ext_free _ _ Ht)). by apply IH.
Qed.

Lemma ext_lexical c c' n : ext c c' -> lexical c' n = lexical c n.
Proof.
  revert c'. induction c as [t|t o IH]; intros [t'|t' o'] H; simpl in H; [|done|done|].
  { destruct H as (Hs & _ & _ & _ & _ & Hm). cbn [lexical]. unfold own, own_in. simpl.
    by rewrite Hs, Hm. }
  destruct H as [Ht Ho]. cbn [lexical own own_in is_root head andb].
  rewrite (IH _ Ho).
  destruct (tab_ext_store _ _ Ht n) as [->|[-> (y & -> & ->)]]; [|done].
  destruct (store t !! n) as [y|]; [|done]. cbn [denote height].
  rewrite (ext_height _ _ Ho). by destruct (Scope y).
Qed.

(* ------------------------------------------------------------------ *)
(** ** Resolving *)

Lemma free_ok_ext o o' y : ext o o' -> (capturedLocals (head o) ⊆ capturedLocals (head o')) ->
  free_ok o y -> free_ok o' y.
Proof.
  intros He Hc (Hi & Hs & [b Hb] & Hl & Hcap). split; [done|]. split; [done|].
  pose proof (ext_denote _ _ _ _ He Hb) as Hb'. rewrite Hb'. split; [by eexists|].
  split; [by rewrite (ext_lexical _ _ _ He), <- Hl|]. intros E. by apply Hc, Hcap.
Qed.

Lemma ext_head_captured o o' : ext o o' -> capturedLocals (head o) ⊆ capturedLocals (head o').
Proof.
  destruct o, o'; simpl; try done.
  - by intros (_ & _ & _ & _ & -> & _).
  - intros [Ht _]. by apply ext_captured.
Qed.

(** Marking a slot of an enclosed table. *)
Lemma mark_ext i c : ext c (match c with Root t => c | Enclosed _ _ => markCaptured i c end).
Proof.
  destruct c as [t|t o]; [reflexivity|]. simpl. split; [|reflexivity].
  split; try done. simpl. set_solver.
Qed.

Lemma mark_wf i c : wf c -> wf (markCaptured i c).
Proof. destruct c; done. Qed.

Lemma present_absent bs s k : present bs s -> s !! k = None -> k ∉ all_keys bs.
Proof. intros Hp Hn Hk. destruct (present_keys _ _ _ Hp Hk). congruence. Qed.

Lemma views_absent bs s k :
  k ∉ all_keys bs -> s !! k = None -> Forall (fun s => s !! k = None) (views bs s).
Proof.
  revert s. induction bs as [|f bs IH]; intros s Hk Hn; cbn [views]; [by repeat constructor|].
  constructor; [done|]. unfold all_keys in Hk. cbn [concat] in Hk.
  rewrite fmap_app, not_elem_of_app in Hk. apply IH; [apply Hk|].
  rewrite undo_frame_other; [done|apply Hk].
Qed.

(** Recording a capture of a name the table does not hold. *)
Lemma defineFree_ext y t :
  present (blocks t) (store t) -> store t !! Name y = None -> tab_ext t (defineFree y t).1.
Proof.
  intros Hp Hn. split; try done; [by apply prefix_app_r|].
  assert (Hk := present_absent _ _ _ Hp Hn).
  unfold table_views. cbn [defineFree fst blocks store]. rewrite views_insert by done.
  induction (views_absent _ _ _ Hk Hn) as [|s l Hs Hv IH]; cbn [fmap list_fmap]; [constructor|].
  constructor; [|done].
  intros k. destruct (decide (k = Name y)) as [->|]; [|left; by apply lookup_insert_ne].
  right. split; [done|]. rewrite lookup_insert_eq. by eexists.
Qed.

Lemma enclosed_store_free n fr y s :
  enclosed_store n fr s -> s !! Name y = None -> ident (Name y) ->
  enclosed_store n (fr ++ [y]) (<[Name y := Sym (Name y) FreeScope (length fr)]> s).
Proof.
  intros [Hinj Hs] Hn Hi. split.
  - intros k1 k2 y1 y2 H1 H2 S1 S2 E.
    apply lookup_insert_Some in H1 as [[<- <-]|[_ H1]]; [done|].
    apply lookup_insert_Some in H2 as [[<- <-]|[_ H2]]; [done|]. by eapply Hinj.
  - intros k z Hz. apply lookup_insert_Some in Hz as [[<- <-]|[Hne Hz]].
    + simpl. split; [done|]. split; [done|]. exists y. by rewrite lookup_app_at.
    + destruct (Hs k z Hz) as [Hname Hsc]. split; [done|]. destruct (Scope z); try done.
      destruct Hsc as (Hk & orig & Ho & En). split; [done|]. exists orig.
      by rewrite (lookup_app_l_Some _ _ _ _ Ho).
Qed.

Lemma defineFree_wf y t o o' :
  wf (Enclosed t o) -> ext o o' -> wf o' -> free_ok o' y -> store t !! Name y = None ->
  wf (Enclosed (defineFree y t).1 o').
Proof.
  intros ((Hp & Hkeys) & Hv & Hfree & _) He Hw Hy Hn.
  assert (Hk := present_absent _ _ _ Hp Hn). assert (Hi : ident (Name y)) by apply Hy.
  split; [split|split; [|split; [|done]]].
  - by apply present_insert.
  - done.
  - unfold table_views. cbn [defineFree fst blocks store numDefinitions FreeSymbols].
    rewrite views_insert by done. apply Forall_fmap. pose proof (views_absent _ _ _ Hk Hn) as Ha.
    eapply Forall_impl; [apply Forall_and; split; [exact Hv | exact Ha]|].
    intros s [Hs Hsn]. by apply enclosed_store_free.
  - cbn [defineFree fst FreeSymbols]. apply Forall_app. split; [|by constructor].
    eapply Forall_impl; [exact Hfree|]. intros z. apply free_ok_ext; [done|].
    by apply ext_head_captured.
Qed.

Lemma wf_ext_outer t o o' : wf (Enclosed t o) -> ext o o' -> wf o' -> wf (Enclosed t o').
Proof.
  intros (Hb & Hv & Hfree & _) He Hw. split; [done|]. split; [done|]. split; [|done].
  eapply Forall_impl; [exact Hfree|]. intros z. apply free_ok_ext; [done|].
  by apply ext_head_captured.
Qed.

Lemma wf_store_head t o : wf (Enclosed t o) -> enclosed_store (numDefinitions t) (FreeSymbols t) (store t).
Proof.
  intros (_ & Hv & _). destruct (table_views_head t) as [vs E]. rewrite E in Hv. by inversion Hv.
Qed.

Lemma wf_root_head t : wf (Root t) -> root_store (numDefinitions t) (store t).
Proof.
  intros (_ & _ & Hv). destruct (table_views_head t) as [vs E]. rewrite E in Hv. by inversion Hv.
Qed.

Lemma own_root_store t n y : own (Root t) n = Some y -> exists k, store t !! k = Some y.
Proof.
  unfold own, own_in. simpl. bcase; [|eauto]. destruct (store t !! qualify _ n) eqn:E; naive_solver.
Qed.

(** What [Resolve] promises of its answer. *)
Definition resolved (c c' : Chain) (name : string) (res : option Symbol) : Prop :=
  wf c' /\ ext c c' /\
  match res with
  | None => lexical c name = None
  | Some y =>
      is_Some (denote c' y) /\ denote c' y = lexical c name /\
      match c' with
      | Root _ => Scope y = GlobalScope \/ Scope y = BuiltinScope
      | Enclosed _ _ => Scope y = GlobalScope \/ Scope y = BuiltinScope \/ Name y = name
      end
  end.

Lemma resolved_own c name y : wf c -> ident name -> own c name = Some y -> resolved c c name (Some y).
Proof.
  intros Hw Hi Ho. split; [done|]. split; [reflexivity|].
  assert (Hl : lexical c name = match Scope y with FreeScope =>
     match c with Root _ => None | Enclosed _ o => lexical o name end | _ => denote c y end)
    by (destruct c; cbn [lexical]; by rewrite Ho).
  destruct c as [t|t o].
  - destruct (own_root_store _ _ _ Ho) as [k Hk]. destruct (wf_root_head _ Hw) as [_ Hs].
    specialize (Hs _ _ Hk). rewrite Hl. unfold denote.
    destruct (Scope y); try done; split; by eauto.
  - cbn [own own_in is_root head andb] in Ho. destruct (wf_store_head _ _ Hw) as [_ Hs].
    destruct (Hs _ _ Ho) as [Hn Hsc]. specialize (Hn Hi). rewrite Hl. cbn [denote].
    destruct (Scope y) eqn:Es; try done; try (split; [by eexists | split; [done | by auto]]).
    destruct Hsc as (_ & orig & Eo & En). destruct Hw as (_ & _ & Hfree & _). rewrite Eo.
    eapply Forall_lookup_1 in Hfree as (_ & _ & Hd & Hdl & _); [|exact Eo].
    rewrite Hdl, En in *. split; [done|]. split; [done|]. auto.
Qed.

Lemma resolved_capture t o o' y name :
  wf (Enclosed t o) -> ext o o' -> wf o' -> ident name -> store t !! name = None ->
  is_Some (denote o' y) -> denote o' y = lexical o name -> Name y = name ->
  match Scope y with LocalScope | FreeScope | FunctionScope => True | _ => False end ->
  (Scope y = LocalScope -> Index y ∈ capturedLocals (head o')) ->
  let '(t', free) := defineFree y t in
  resolved (Enclosed t o) (Enclosed t' o') name (Some free).
Proof.
  intros Hw He Hw' Hi Hn Hd Hdl <- Hs Hc.
  assert (Hf : free_ok o' y).
  { split; [done|]. split; [done|]. split; [done|]. by rewrite (ext_lexical _ _ _ He). }
  assert (Hlex : lexical (Enclosed t o) (Name y) = lexical o (Name y)).
  { cbn [lexical own own_in is_root head andb]. by rewrite Hn. }
  split; [by apply (defineFree_wf y t o o')|].
  split; [split; [by apply defineFree_ext; [apply Hw|]|done]|].
  cbn [denote Scope Index FreeSymbols Name]. rewrite lookup_app_at, Hlex.
  split; [done|]. split; [done|]. auto.
Qed.

Lemma Resolve_resolved name c :
  wf c -> ident name -> let '(c', res) := Resolve name c in resolved c c' name res.
Proof.
  intros Hw Hi. induction c as [t|t o IH]; cbn [Resolve].
  - destruct (own (Root t) name) as [y|] eqn:Eo; [by apply resolved_own|].
    split; [done|]. split; [reflexivity|]. cbn [lexical]. by rewrite Eo.
  - destruct (own (Enclosed t o) name) as [y|] eqn:Eo; [by apply resolved_own|].
    assert (Hlex : lexical (Enclosed t o) name = lexical o name) by (cbn [lexical]; by rewrite Eo).
    cbn [own own_in is_root head andb] in Eo.
    destruct (Resolve name o) as [o' res]. destruct IH as (Hw' & He & Hr); [apply Hw|].
    assert (Ht : wf (Enclosed t o')) by (by eapply wf_ext_outer).
    destruct res as [y|].
    2:{ split; [done|]. split; [by split|]. by rewrite Hlex. }
    destruct Hr as (Hd & Hdl & Hname). rewrite <- Hlex in Hdl.
    assert (Hkeep : Scope y = GlobalScope \/ Scope y = BuiltinScope ->
      resolved (Enclosed t o) (Enclosed t o') name (Some y)).
    { intros Hs. split; [done|]. split; [by split|].
      replace (denote (Enclosed t o') y) with (denote o' y) by (destruct Hs as [E|E], o'; cbn [denote]; by rewrite E).
      split; [done|]. split; [done|]. tauto. }
    assert (Hcap : forall o'', ext o' o'' -> wf o'' ->
      match Scope y with LocalScope | FreeScope | FunctionScope => True | _ => False end ->
      (Scope y = LocalScope -> Index y ∈ capturedLocals (head o'')) ->
      let '(t', free) := defineFree y t in
      resolved (Enclosed t o) (Enclosed t' o'') name (Some free)).
    { intros o'' He' Hw'' Hs Hc. destruct Hd as [b Hb]. rewrite Hlex, Hb in Hdl.
      apply resolved_capture; [done|by etrans|done|done|done| | | |done|done].
      - rewrite (ext_denote _ _ _ _ He' Hb). by eexists.
      - by rewrite (ext_denote _ _ _ _ He' Hb).
      - destruct o'; destruct (Scope y); naive_solver. }
    destruct (Scope y) eqn:Es; [apply Hkeep; by left| |apply Hkeep; by right| |].
    + destruct o' as [t1|t1 o1]; [naive_solver|].
      apply (Hcap (markCaptured (Index y) (Enclosed t1 o1))); [apply (mark_ext _ (Enclosed t1 o1))|by apply mark_wf|done|].
      intros _. simpl. set_solver.
    + by apply (Hcap o').
    + by apply (Hcap o').
Qed.

Lemma table_at_height c : table_at c (height c) = head c.
Proof. destruct c; simpl; [done|]. by rewrite Nat.eqb_refl. Qed.

(** A capture that reaches a slot reaches a slot of an outer function, and that
    function's table has it marked. *)
Lemma capture_marked c y level i :
  wf c -> Scope y = FreeScope -> denote c y = Some (BLocal level i) ->
  (level < height c)%nat /\ i ∈ capturedLocals (table_at c level).
Proof.
  revert y. induction c as [t|t o IH]; intros y Hw Hs Hd; cbn [denote] in Hd; rewrite Hs in Hd; [done|].
  destruct (FreeSymbols t !! Index y) as [orig|] eqn:Eo; [|done].
  destruct Hw as (_ & _ & Hfree & Hw). eapply Forall_lookup_1 in Hfree as (_ & Hsc & _ & _ & Hc); [|exact Eo].
  assert (Hlow : (level < height o)%nat /\ i ∈ capturedLocals (table_at o level) ->
    (level < S (height o))%nat /\ i ∈ capturedLocals (table_at (Enclosed t o) level)).
  { intros [Hlt Hin]. split; [lia|]. cbn [table_at height].
    rewrite (proj2 (Nat.eqb_neq _ _)) by lia. done. }
  cbn [height]. destruct (Scope orig) eqn:Es; try done.
  - assert (Hd' : denote o orig = Some (BLocal (height o) (Index orig)))
      by (destruct o; cbn [denote]; by rewrite Es).
    rewrite Hd' in Hd. simplify_eq. split; [lia|]. cbn [table_at height].
    rewrite (proj2 (Nat.eqb_neq _ _)), table_at_height by lia. by apply Hc.
  - apply Hlow. by eapply IH.
  - destruct o; cbn [denote] in Hd; by rewrite Es in Hd.
Qed.

(* ------------------------------------------------------------------ *)
(** ** Declaring *)

(** A store predicate of either kind of table. *)
Definition store_ok (at_root : bool) (n : nat) (free : list Symbol) (s : gmap string Symbol) : Prop :=
  if at_root then root_store n s else enclosed_store n free s.

Definition views_ok (at_root : bool) (t : SymbolTable) : Prop :=
  Forall (store_ok at_root (numDefinitions t) (FreeSymbols t)) (table_views t).

(** The part of the invariant that is about the innermost table. *)
Definition table_ok (at_root : bool) (t : SymbolTable) : Prop :=
  blocks_ok at_root t /\ views_ok at_root t.

Lemma wf_table c : wf c -> table_ok (is_root c) (head c).
Proof. destruct c; [by intros (? & _ & ?)|by intros (? & ? & _)]. Qed.

(** A change of the innermost table that keeps its captures keeps the rest. *)
Lemma wf_set_head c t :
  wf c -> table_ok (is_root c) t -> FreeSymbols t = FreeSymbols (head c) -> wf (set_head t c).
Proof.
  destruct c as [t0|t0 o]; simpl; intros Hw [Hb Hv] Hf.
  - destruct Hw as (_ & Hf0 & _). split; [done|]. split; [congruence|done].
  - destruct Hw as (_ & _ & Hfree & Hw). rewrite Hf. split; [done|]. split; [|done].
    unfold views_ok in Hv. by rewrite Hf in Hv.
Qed.

Lemma slots_inj_insert sc n s k y :
  slots_inj sc s -> (forall k z, s !! k = Some z -> Scope z = sc -> (Index z < n)%nat) ->
  Index y = n -> slots_inj sc (<[k := y]> s).
Proof.
  intros Hinj Hlt Hy k1 k2 y1 y2 H1 H2 S1 S2 E.
  apply lookup_insert_Some in H1 as [[<- <-]|[N1 H1]], H2 as [[<- <-]|[N2 H2]].
  - done.
  - specialize (Hlt _ _ H2 S2). lia.
  - specialize (Hlt _ _ H1 S1). lia.
  - by eapply Hinj.
Qed.

(** A declaration takes the next slot. *)
Lemma store_ok_slot at_root n free s k name :
  store_ok at_root n free s -> (ident k -> at_root = false -> name = k) ->
  store_ok at_root (S n) free
    (<[k := Sym name (if at_root then GlobalScope else LocalScope) n]> s).
Proof.
  destruct at_root; intros [Hinj Hs] Hname; (split;
    [eapply slots_inj_insert; [done| |done]; intros k' z Hz Hsc; specialize (Hs _ _ Hz);
     rewrite Hsc in Hs; naive_solver|]);
    intros k' z Hz; apply lookup_insert_Some in Hz as [[<- <-]|[_ Hz]]; simpl; try lia.
  - specialize (Hs _ _ Hz). destruct (Scope z); naive_solver lia.
  - split; [|lia]. intros Hk. by apply Hname.
  - destruct (Hs _ _ Hz) as [Hn Hsc]. split; [done|]. destruct (Scope z); naive_solver lia.
Qed.

Lemma store_ok_mono at_root n free s : store_ok at_root n free s -> store_ok at_root (S n) free s.
Proof.
  destruct at_root; intros [Hinj Hs]; (split; [done|]); intros k z Hz; specialize (Hs _ _ Hz).
  - destruct (Scope z); naive_solver lia.
  - destruct Hs as [Hn Hsc]. split; [done|]. destruct (Scope z); naive_solver lia.
Qed.

(** The views after a declaration: the new binding on top, nothing new below. *)
Lemma define_views k y t :
  table_views (with_slot k y (noteShadowed k t))
  = <[k := y]> (store t) :: drop 1 (table_views t).
Proof.
  unfold table_views, with_slot, noteShadowed. destruct (blocks t) as [|f bs] eqn:Eb; simpl.
  { by rewrite Eb. }
  by rewrite undo_frame_cons, undo_one_insert, drop_0.
Qed.

Lemma define_blocks_ok at_root t n y :
  blocks_ok at_root t -> ident n ->
  let k := tkey at_root (currentModule t) n in
  blocks_ok at_root (with_slot k y (noteShadowed k t)).
Proof.
  intros [Hp Hk] Hn k. unfold blocks_ok, with_slot, noteShadowed.
  destruct (blocks t) as [|f bs] eqn:Eb; cbn [blocks store currentModule with_blocks] in *.
  { rewrite Eb. split; [done|]. intros k' Hk'. by apply not_elem_of_nil in Hk'. }
  split.
  - split.
    + intros e [->|He]%elem_of_cons; [simpl; rewrite lookup_insert_eq; by eexists|].
      destruct (decide (k = sh_key e)) as [->|]; [rewrite lookup_insert_eq; by eexists|].
      rewrite lookup_insert_ne by done. by apply Hp.
    + rewrite undo_frame_cons, undo_one_insert. apply Hp.
  - intros k' Hk'. unfold all_keys in *. cbn [concat fmap list_fmap app] in Hk'.
    apply elem_of_cons in Hk' as [->|Hk']; [|by apply Hk]. by exists n.
Qed.

Lemma decl_key_tkey c n : decl_key c n = tkey (is_root c) (currentModule (head c)) n.
Proof. done. Qed.

Lemma Define_wf n c : wf c -> ident n -> wf (Define n c).1.
Proof.
  intros Hw Hn. destruct (wf_table _ Hw) as [Hb Hv]. cbn [Define fst].
  apply wf_set_head; [done| |by unfold noteShadowed; destruct (blocks (head c))].
  split; [by apply define_blocks_ok|]. unfold views_ok. rewrite define_views, decl_key_tkey.
  assert (Hnd : numDefinitions (with_slot (tkey (is_root c) (currentModule (head c)) n)
      (Sym n (decl_scope c) (numDefinitions (head c)))
      (noteShadowed (tkey (is_root c) (currentModule (head c)) n) (head c)))
    = S (numDefinitions (head c))) by (unfold noteShadowed; by destruct (blocks (head c))).
  assert (Hfs : FreeSymbols (with_slot (tkey (is_root c) (currentModule (head c)) n)
      (Sym n (decl_scope c) (numDefinitions (head c)))
      (noteShadowed (tkey (is_root c) (currentModule (head c)) n) (head c)))
    = FreeSymbols (head c)) by (unfold noteShadowed; by destruct (blocks (head c))).
  rewrite Hnd, Hfs. unfold views_ok in Hv. destruct (table_views_head (head c)) as [vs E].
  rewrite E in *. apply Forall_cons in Hv as [Hh Hvs]. constructor.
  - unfold decl_scope. apply store_ok_slot; [done|]. intros _ Hr. unfold tkey. by rewrite Hr.
  - eapply Forall_impl; [exact Hvs|]. apply store_ok_mono.
Qed.

Lemma string_app_inj (a b c : string) : a +:+ b = a +:+ c -> b = c.
Proof. induction a as [|x a IH]; simpl; [done|]. intros [= H]. by apply IH. Qed.

Lemma qualify_inj_name m a b : qualify m a = qualify m b -> a = b.
Proof.
  unfold qualify. destruct (decide (m = "")); [done|].
  intros H%string_app_inj%string_app_inj. done.
Qed.

Lemma tkey_inj r m a b : tkey r m a = tkey r m b -> a = b.
Proof. destruct r; simpl; [apply qualify_inj_name | done]. Qed.

Lemma no_nul_app a b : no_nul (a +:+ b) = no_nul a && no_nul b.
Proof. induction a as [|x a IH]; simpl; [done|]. by rewrite IH, andb_assoc. Qed.

Lemma no_nul_qualify m n : m <> "" -> no_nul (qualify m n) = false.
Proof.
  intros Hm. unfold qualify. rewrite decide_False by done.
  by rewrite !no_nul_app, andb_false_r.
Qed.

(** The compiler's own keys begin with a space. *)
Definition internal_key (k : string) : Prop := String.prefix " " k = true.

Lemma internal_not_ident k : internal_key k -> ~ ident k.
Proof. unfold internal_key, ident. intros -> [_ ?]. done. Qed.

Lemma internal_not_block r t k :
  blocks_ok r t -> internal_key k -> tkey r (currentModule t) k ∉ all_keys (blocks t).
Proof.
  intros [_ Hk] Hi Hin. destruct (Hk _ Hin) as (n & Hn & E%tkey_inj). subst n.
  by eapply internal_not_ident.
Qed.

Lemma DefineInternal_wf k c : wf c -> internal_key k -> wf (DefineInternal k c).1.
Proof.
  intros Hw Hi. destruct (wf_table _ Hw) as [[Hp Hk] Hv]. cbn [DefineInternal fst].
  rewrite decl_key_tkey. set (key := tkey (is_root c) (currentModule (head c)) k).
  assert (Hni : key ∉ all_keys (blocks (head c))) by by apply internal_not_block.
  apply wf_set_head; [done| |done]. split; [split; [by apply present_insert|done]|].
  unfold views_ok, table_views. cbn [with_slot store blocks numDefinitions FreeSymbols].
  rewrite views_insert by done. apply Forall_fmap. eapply Forall_impl; [exact Hv|].
  intros s Hs. apply store_ok_slot; [done|]. intros Hid Hr. exfalso.
  eapply internal_not_ident; [exact Hi|]. subst key. by rewrite Hr in Hid.
Qed.

Lemma OpenBlock_views t : table_views (with_blocks ([] :: blocks t) t) = store t :: table_views t.
Proof. done. Qed.

Lemma OpenBlock_wf c : wf c -> wf (OpenBlock c).
Proof.
  intros Hw. destruct (wf_table _ Hw) as [[Hp Hk] Hv]. apply wf_set_head; [done| |done].
  split; [split|].
  - split; [|done]. intros e He. by apply not_elem_of_nil in He.
  - done.
  - unfold views_ok. rewrite OpenBlock_views. constructor; [|done].
    unfold views_ok in Hv. destruct (table_views_head (head c)) as [vs E]. rewrite E in Hv.
    by inversion Hv.
Qed.

Lemma close_views t : blocks t <> [] -> table_views (close_table t) = drop 1 (table_views t).
Proof.
  intros Hb. unfold close_table, table_views. destruct (blocks t) as [|f bs]; [done|].
  cbn. by rewrite drop_0.
Qed.

Lemma CloseBlock_wf c : wf c -> wf (CloseBlock c).
Proof.
  intros Hw. destruct (wf_table _ Hw) as [[Hp Hk] Hv].
  assert (Hf : FreeSymbols (close_table (head c)) = FreeSymbols (head c) /\
    numDefinitions (close_table (head c)) = numDefinitions (head c))
    by (unfold close_table; by destruct (blocks (head c))).
  destruct Hf as [Hf Hn]. apply wf_set_head; [done| |done]. split; [|].
  - unfold blocks_ok, close_table. destruct (blocks (head c)) as [|f bs] eqn:Eb.
    { rewrite Eb. by split. }
    cbn [with_blocks with_store blocks store currentModule]. destruct Hp as [_ Hp].
    split; [done|]. intros k Hin. apply Hk. unfold all_keys in *. cbn [concat].
    rewrite fmap_app, elem_of_app. by right.
  - unfold views_ok. rewrite Hf, Hn. destruct (blocks (head c)) as [|f bs] eqn:Eb.
    + unfold close_table. by rewrite Eb.
    + rewrite close_views by by rewrite Eb. by apply Forall_drop.
Qed.

(* ------------------------------------------------------------------ *)
(** ** Every table the compiler can build *)

(** [enterScope]: a fresh table for a function literal, its own name first when
    it has one. *)
Definition enter (fname : option string) (c : Chain) : Chain :=
  match fname with
  | None => NewEnclosedSymbolTable c
  | Some n => (DefineFunctionName n (NewEnclosedSymbolTable c)).1
  end.

Inductive table_step : Chain -> Chain -> Prop :=
| step_define n c : ident n -> table_step c (Define n c).1
| step_internal k c : internal_key k -> table_step c (DefineInternal k c).1
| step_resolve n c : ident n -> table_step c (Resolve n c).1
| step_open c : table_step c (OpenBlock c)
| step_close c : table_step c (CloseBlock c)
| step_enter fname c : (forall n, fname = Some n -> ident n) -> table_step c (enter fname c)
| step_leave t o : table_step (Enclosed t o) o
| step_builtin index n t :
    blocks t = [] -> table_step (Root t) (DefineBuiltin index n (Root t)).1
| step_module m t : blocks t = [] -> table_step (Root t) (SetCurrentModule m (Root t))
| step_reference n c : table_step c (ReferenceBuiltin n c).1
| step_namespace ns k c : table_step c (BindNamespace ns k c).

Definition reachable (c : Chain) : Prop := rtc table_step (Root NewSymbolTable) c.

Lemma new_table_ok r : table_ok r NewSymbolTable.
Proof.
  split; [split; [done|]|].
  - intros k Hk. by apply not_elem_of_nil in Hk.
  - unfold views_ok, table_views. cbn. constructor; [|constructor].
    destruct r; split; by intros ???.
Qed.

Lemma enter_wf fname c : wf c -> (forall n, fname = Some n -> ident n) -> wf (enter fname c).
Proof.
  intros Hw Hn. assert (Hnew : wf (NewEnclosedSymbolTable c)).
  { destruct (new_table_ok false). split; [done|]. split; [done|]. by split. }
  destruct fname as [n|]; [|done]. cbn [enter DefineFunctionName fst].
  apply wf_set_head; [done| |done]. split; [split; [done|]|].
  - intros k Hk. by apply not_elem_of_nil in Hk.
  - unfold views_ok, table_views. cbn. constructor; [|constructor]. split.
    + intros k1 k2 y1 y2 H1 H2 S1 S2 _. apply lookup_singleton_Some in H1 as [<- <-]. done.
    + intros k y Hy. apply lookup_singleton_Some in Hy as [<- <-]. done.
Qed.

Lemma DefineBuiltin_wf index n t : blocks t = [] -> wf (Root t) -> wf (DefineBuiltin index n (Root t)).1.
Proof.
  intros Hb Hw. destruct (wf_root_head _ Hw) as [Hinj Hs]. destruct Hw as ((_ & Hk) & Hf & _).
  cbn. split; [split|split; [done|]].
  - cbn. by rewrite Hb.
  - done.
  - unfold table_views. cbn. rewrite Hb. constructor; [|constructor]. split.
    + intros k1 k2 y1 y2 H1 H2 S1 S2 E.
      apply lookup_insert_Some in H1 as [[<- <-]|[_ H1]]; [done|].
      apply lookup_insert_Some in H2 as [[<- <-]|[_ H2]]; [done|]. by eapply Hinj.
    + intros k y Hy. apply lookup_insert_Some in Hy as [[<- <-]|[_ Hy]]; [done|]. by eapply Hs.
Qed.

Lemma SetCurrentModule_wf m t : blocks t = [] -> wf (Root t) -> wf (SetCurrentModule m (Root t)).
Proof.
  intros Hb ((_ & _) & Hf & Hv). split; [split; cbn; rewrite Hb|done].
  - done.
  - intros k Hk. by apply not_elem_of_nil in Hk.
Qed.

(** Changing what the root keeps beside its scope. *)
Lemma wf_set_root c t : wf c -> same_scope (root c) t -> wf (set_root t c) /\ ext c (set_root t c).
Proof.
  intros Hw Ht. induction c as [t0|t0 o IH]; cbn [root set_root] in *.
  - split; [|done]. destruct Ht as (Es & En & Ef & Eb & _ & Em).
    destruct Hw as ((Hp & Hk) & Hf & Hv). split; [|split; [congruence|]].
    + split; [by rewrite Es, Eb|]. by rewrite Eb, Em.
    + unfold table_views. by rewrite Es, En, Eb.
  - destruct IH as [Hwo Heo]; [apply Hw|done|]. split; [by eapply wf_ext_outer|].
    split; [reflexivity|done].
Qed.

Lemma ReferenceBuiltin_scope n c : wf c -> wf (ReferenceBuiltin n c).1 /\ ext c (ReferenceBuiltin n c).1.
Proof.
  intros Hw. unfold ReferenceBuiltin. destruct (builtinRef (root c) !! n); [by split|].
  by apply wf_set_root.
Qed.

Lemma table_step_wf c c' : table_step c c' -> wf c -> wf c'.
Proof.
  intros [n ? Hn|k ? Hk|n ? Hn|?|?|f ? Hf|t o|i n t Hb|m t Hb|n ?|ns k ?] Hw.
  - by apply Define_wf.
  - by apply DefineInternal_wf.
  - pose proof (Resolve_resolved n c0 Hw Hn) as H. by destruct (Resolve n c0), H.
  - by apply OpenBlock_wf.
  - by apply CloseBlock_wf.
  - by apply enter_wf.
  - apply Hw.
  - by apply DefineBuiltin_wf.
  - by apply SetCurrentModule_wf.
  - by apply ReferenceBuiltin_scope.
  - by apply wf_set_root.
Qed.

Lemma table_steps_wf c c' : rtc table_step c c' -> wf c -> wf c'.
Proof. induction 1 as [|c1 c2 c3 Hs _ IH]; [done|]. intros Hw. by eapply IH, table_step_wf. Qed.

Lemma reachable_wf c : reachable c -> wf c.
Proof.
  intros H. eapply table_steps_wf; [exact H|].
  destruct (new_table_ok true). split; [done|]. by split.
Qed.

(* ------------------------------------------------------------------ *)
(** ** Scopes as the compiler nests them *)

(** What compiling a statement does to the table: declarations, the compiler's
    own slots, uses, and the two constructs that nest. *)
Inductive action : Type :=
| ADeclare (name : string)
| AInternal (key : string)
| AUse (name : string)
| ABlock (body : list action)
| AFunction (fname : option string) (body : list action).

Definition leave (c : Chain) : Chain :=
  match c with Root _ => c | Enclosed _ o => o end.

Fixpoint act (a : action) (c : Chain) : Chain :=
  match a with
  | ADeclare n => (Define n c).1
  | AInternal k =>
      match ResolveInternal k c with
      | Some _ => c
      | None => (DefineInternal k c).1
      end
  | AUse n => (Resolve n c).1
  | ABlock body => CloseBlock (foldl (fun c a => act a c) (OpenBlock c) body)
  | AFunction fname body => leave (foldl (fun c a => act a c) (enter fname c) body)
  end.

Fixpoint action_ok (a : action) : Prop :=
  match a with
  | ADeclare n | AUse n => ident n
  | AInternal k => internal_key k
  | ABlock body => foldr (fun a P => action_ok a /\ P) True body
  | AFunction fname body =>
      (forall n, fname = Some n -> ident n) /\ foldr (fun a P => action_ok a /\ P) True body
  end.

(** The store keys a source name is looked up under. *)
Definition visible (r : bool) (m k : string) : Prop := exists n, ident n /\ (k = tkey r m n \/ k = n).

Definition keeps_on (V : string -> Prop) (s s' : gmap string Symbol) : Prop :=
  forall k, V k -> s' !! k = s !! k \/ (s !! k = None /\ exists y, s' !! k = Some y /\ Scope y = FreeScope).

Lemma keeps_on_trans V s1 s2 s3 : keeps_on V s1 s2 -> keeps_on V s2 s3 -> keeps_on V s1 s3.
Proof.
  intros H12 H23 k Hk.
  destruct (H12 k Hk) as [E|[E (y & Hy & Hs)]], (H23 k Hk) as [E'|[E' (y' & Hy' & Hs')]].
  - left. congruence.
  - right. split; [congruence | eauto].
  - right. split; [done|]. exists y. split; [congruence | done].
  - congruence.
Qed.

Lemma Forall2_keeps_on_trans V l1 l2 l3 :
  Forall2 (keeps_on V) l1 l2 -> Forall2 (keeps_on V) l2 l3 -> Forall2 (keeps_on V) l1 l3.
Proof.
  intros H1. revert l3. induction H1 as [|s1 s2 l1 l2 Hs H1 IH]; intros l3 H2; inversion H2; subst;
    constructor; [by eapply keeps_on_trans | by apply IH].
Qed.

(** [n] blocks from the top on, two tables show the same names. *)
Definition agree (r : bool) (n : nat) (t t' : SymbolTable) : Prop :=
  currentModule t' = currentModule t /\
  Forall2 (keeps_on (visible r (currentModule t))) (drop n (table_views t)) (drop n (table_views t')).

(** The chain after compiling something: the innermost table agrees from its
    [n]-th view on, the outer ones only gained captures. *)
Definition grown (n : nat) (c c' : Chain) : Prop :=
  agree (is_root c) n (head c) (head c') /\
  match c, c' with
  | Root _, Root _ => True
  | Enclosed _ o, Enclosed _ o' => ext o o'
  | _, _ => False
  end.

Lemma grown_trans n c1 c2 c3 : grown n c1 c2 -> grown n c2 c3 -> grown n c1 c3.
Proof.
  intros [[M1 F1] S1] [[M2 F2] S2]. split.
  - split; [congruence|]. rewrite M1 in F2.
    assert (E : is_root c2 = is_root c1) by (by destruct c1, c2). rewrite E in F2.
    by eapply Forall2_keeps_on_trans.
  - destruct c1, c2, c3; try done. by etrans.
Qed.

Lemma keeps_on_of V s s' : keeps s s' -> keeps_on V s s'.
Proof. intros H k _. apply H. Qed.

Lemma grown_ext c c' n : ext c c' -> grown n c c'.
Proof.
  intros H. destruct c as [t|t o], c' as [t'|t' o']; simpl in H; try done.
  - destruct H as (Es & _ & _ & Eb & _ & Em). split; [|done]. split; [done|]. simpl.
    unfold table_views. rewrite Es, Eb. eapply Forall2_impl; [apply Forall2_keeps_refl|].
    intros ??. apply keeps_on_of.
  - destruct H as [Ht Ho]. split; [|done]. split; [by apply ext_module|]. simpl.
    eapply Forall2_impl; [apply Forall2_drop, (ext_views _ _ Ht)|]. intros ??. apply keeps_on_of.
Qed.

Lemma grown_weaken c c' : grown 0 c c' -> grown 1 c c'.
Proof.
  intros [[M F] S]. split; [|done]. split; [done|].
  rewrite !drop_0 in F. by apply Forall2_drop.
Qed.

Lemma grown_head c t :
  agree (is_root c) 1 (head c) t -> grown 1 c (set_head t c).
Proof. intros H. split; [by destruct c|]. destruct c; simpl; [done|reflexivity]. Qed.

Lemma define_grown n c : grown 1 c (Define n c).1.
Proof.
  apply grown_head. split.
  - unfold noteShadowed. by destruct (blocks (head c)).
  - rewrite define_views. destruct (table_views_head (head c)) as [vs ->].
    cbn [drop]. eapply Forall2_impl; [apply Forall2_keeps_refl|]. intros ??. apply keeps_on_of.
Qed.

Lemma internal_not_visible r m k : internal_key k -> ~ visible r m (tkey r m k).
Proof.
  intros Hk (n & Hn & [E%tkey_inj|E]); [subst; by eapply internal_not_ident|].
  destruct r; simpl in E; [|subst; by eapply internal_not_ident].
  destruct (decide (m = "")) as [->|Hm].
  - unfold qualify in E. rewrite decide_True in E by done. subst. by eapply internal_not_ident.
  - destruct Hn as [Hn _]. rewrite <- E, no_nul_qualify in Hn; done.
Qed.

Lemma internal_grown k c : wf c -> internal_key k -> grown 1 c (DefineInternal k c).1.
Proof.
  intros Hw Hk. destruct (wf_table _ Hw) as [Hb _]. apply grown_head. split; [done|].
  unfold table_views. cbn [with_slot store blocks]. rewrite decl_key_tkey, views_insert
    by by apply internal_not_block.
  rewrite <- fmap_drop. induction (drop 1 _) as [|s l IH]; cbn [fmap list_fmap]; constructor; [|done].
  intros k' Hk'. left. apply lookup_insert_ne. intros <-. by eapply internal_not_visible.
Qed.

Lemma action_nested_ind (P : action -> Prop) :
  (forall n, P (ADeclare n)) -> (forall k, P (AInternal k)) -> (forall n, P (AUse n)) ->
  (forall body, Forall P body -> P (ABlock body)) ->
  (forall fname body, Forall P body -> P (AFunction fname body)) ->
  forall a, P a.
Proof.
  intros H1 H2 H3 H4 H5. fix IH 1. intros [n|k|n|body|fname body]; [apply H1|apply H2|apply H3| |].
  - apply H4. induction body as [|a body IHb]; constructor; [apply IH | exact IHb].
  - apply H5. induction body as [|a body IHb]; constructor; [apply IH | exact IHb].
Qed.

Definition sound_at (n : nat) (c c' : Chain) : Prop := wf c' /\ grown n c c'.

Lemma acts_sound body c :
  Forall (fun a => forall c, action_ok a -> wf c -> sound_at 1 c (act a c)) body ->
  foldr (fun a P => action_ok a /\ P) True body -> wf c ->
  sound_at 1 c (foldl (fun c a => act a c) c body).
Proof.
  intros Hb. revert c. induction Hb as [|a body Ha Hb IH]; intros c Hok Hw; cbn [foldl foldr] in *.
  - split; [done|]. apply grown_ext. reflexivity.
  - destruct Hok as [Hoka Hok]. destruct (Ha c Hoka Hw) as [Hw1 Hg1].
    destruct (IH _ Hok Hw1) as [Hw2 Hg2]. split; [done|]. by eapply grown_trans.
Qed.

Lemma use_sound n c : wf c -> ident n -> sound_at 0 c (Resolve n c).1.
Proof.
  intros Hw Hn. pose proof (Resolve_resolved n c Hw Hn) as H.
  destruct (Resolve n c) as [c' res]. destruct H as (Hw' & He & _). split; [done|]. by apply grown_ext.
Qed.

(** Opening a block, compiling its body and closing it. *)
Lemma block_sound c c1 : wf c -> sound_at 1 (OpenBlock c) c1 -> sound_at 0 c (CloseBlock c1).
Proof.
  intros Hw [Hw1 [[Hm Hv] Hs]]. split; [by apply CloseBlock_wf|].
  assert (Hh : head (OpenBlock c) = with_blocks ([] :: blocks (head c)) (head c)) by by destruct c.
  rewrite Hh in *. rewrite OpenBlock_views in Hv. cbn [drop with_blocks currentModule] in *.
  assert (Hr : is_root (OpenBlock c) = is_root c) by by destruct c. rewrite Hr in Hv.
  assert (Hb : blocks (head c1) <> []).
  { intros E. apply Forall2_length in Hv. unfold table_views in Hv. rewrite E in Hv.
    destruct (blocks (head c)); simpl in Hv; lia. }
  assert (Hc : head (CloseBlock c1) = close_table (head c1)) by by destruct c1.
  split; [split|].
  - rewrite Hc. unfold close_table. destruct (blocks (head c1)); [done|]. exact Hm.
  - rewrite Hc, close_views by done. rewrite !drop_0 in *. exact Hv.
  - by destruct c, c1.
Qed.

Lemma function_sound fname c c1 :
  sound_at 1 (enter fname c) c1 -> sound_at 0 c (leave c1).
Proof.
  intros [Hw [_ Hs]]. destruct c1 as [t1|t1 o1]; [by destruct fname|].
  assert (He : ext c o1) by by destruct fname.
  split; [apply Hw|]. by apply grown_ext.
Qed.

Lemma act_sound a : forall c, action_ok a -> wf c -> sound_at 1 c (act a c).
Proof.
  induction a as [n|k|n|body IH|fname body IH] using action_nested_ind; intros c Hok Hw; cbn [act action_ok] in *.
  - split; [by apply Define_wf | apply define_grown].
  - destruct (ResolveInternal k c).
    + split; [done|]. apply grown_ext. reflexivity.
    + split; [by apply DefineInternal_wf | by apply internal_grown].
  - destruct (use_sound n c Hw Hok). split; [done|]. by apply grown_weaken.
  - destruct (block_sound c (foldl (fun c a => act a c) (OpenBlock c) body) Hw) as [H1 H2].
    { apply acts_sound; [done..|]. by apply OpenBlock_wf. }
    split; [done|]. by apply grown_weaken.
  - destruct Hok as [Hn Hok].
    destruct (function_sound fname c (foldl (fun c a => act a c) (enter fname c) body)) as [H1 H2].
    { apply acts_sound; [done..|]. by apply enter_wf. }
    split; [done|]. by apply grown_weaken.
Qed.

(** Nested scopes and uses keep every name. *)
Lemma nested_sound a c :
  action_ok a -> wf c ->
  match a with ABlock _ | AFunction _ _ | AUse _ => sound_at 0 c (act a c) | _ => True end.
Proof.
  intros Hok Hw. assert (Hall : forall l, Forall (fun a => forall c, action_ok a -> wf c -> sound_at 1 c (act a c)) l)
    by (intros l; apply Forall_forall; intros; by apply act_sound).
  destruct a as [n|k|n|body|fname body]; cbn [act action_ok] in *; [done|done| | |].
  - by apply use_sound.
  - apply block_sound; [done|]. apply acts_sound; [done..|]. by apply OpenBlock_wf.
  - destruct Hok as [Hn Hok]. apply (function_sound fname). apply acts_sound; [done..|]. by apply enter_wf.
Qed.

Lemma grown_lexical c c' n : wf c' -> grown 0 c c' -> ident n -> lexical c' n = lexical c n.
Proof.
  intros Hw [[Hm Hv] Hs] Hn. rewrite !drop_0 in Hv.
  destruct (table_views_head (head c)) as [vs E], (table_views_head (head c')) as [vs' E'].
  rewrite E, E' in Hv. inversion Hv as [|? ? ? ? Hk _]; subst. clear Hv E E' vs vs'.
  destruct c as [t|t o], c' as [t'|t' o']; cbn [head is_root] in *; try done.
  - assert (Hsame : forall k, visible true (currentModule t) k -> store t' !! k = store t !! k).
    { intros k Hvis. destruct (Hk k Hvis) as [|[_ (y & Hy & Hf)]]; [done|].
      destruct (wf_root_head _ Hw) as [_ Hst]. specialize (Hst _ _ Hy). by rewrite Hf in Hst. }
    cbn [lexical]. unfold own, own_in. cbn [is_root head]. rewrite Hm.
    rewrite !(Hsame n) by (exists n; auto).
    rewrite (Hsame (qualify (currentModule t) n)) by (exists n; auto). done.
  - cbn [lexical own own_in is_root head andb]. rewrite (ext_lexical _ _ _ Hs).
    destruct (Hk n) as [->|[-> (y & -> & ->)]]; [exists n; auto| |done].
    destruct (store t !! n) as [y|]; [|done]. cbn [denote height].
    rewrite (ext_height _ _ Hs). by destruct (Scope y).
Qed.

(* ------------------------------------------------------------------ *)
(** ** Modules, builtins and slots *)

Lemma nul_app_inj a b n n' :
  no_nul n = true -> no_nul n' = true ->
  a +:+ moduleSeparator +:+ n = b +:+ moduleSeparator +:+ n' -> a = b /\ n = n'.
Proof.
  intros Hn Hn'. revert b. induction a as [|x a IH]; intros [|y b]; cbn; intros H.
  - by simplify_eq.
  - injection H as <- H. change ("" +:+ n) with n in H. rewrite H in Hn.
    change (no_nul (b +:+ moduleSeparator +:+ n') = true) in Hn.
    rewrite no_nul_app in Hn. simpl in Hn. by rewrite andb_false_r in Hn.
  - injection H as -> H. change ("" +:+ n') with n' in H. rewrite <- H in Hn'.
    change (no_nul (a +:+ moduleSeparator +:+ n) = true) in Hn'.
    rewrite no_nul_app in Hn'. simpl in Hn'. by rewrite andb_false_r in Hn'.
  - injection H as <- H. destruct (IH b H) as [<- <-]. done.
Qed.

(** A qualified key determines its module and its name. *)
Lemma qualify_inj m m' n n' :
  no_nul n = true -> no_nul n' = true -> qualify m n = qualify m' n' -> m = m' /\ n = n'.
Proof.
  intros Hn Hn' H. destruct (decide (m = "")) as [->|Hm], (decide (m' = "")) as [->|Hm'].
  - done.
  - change (n = qualify m' n') in H. subst n. by rewrite no_nul_qualify in Hn.
  - change (qualify m n = n') in H. subst n'. by rewrite no_nul_qualify in Hn'.
  - unfold qualify in H. rewrite !decide_False in H by done. by apply nul_app_inj.
Qed.

Lemma Define_root_store n c :
  is_root c = true ->
  let '(c', y) := Define n c in
  exists u, c' = Root u /\ store u = <[qualify (currentModule (head c)) n := y]> (store (head c)).
Proof.
  destruct c as [t|]; [|done]. intros _. simpl. eexists. split; [done|].
  unfold noteShadowed. by destruct (blocks t).
Qed.

(** A root lookup in a module: the module's own top level, then the builtins. *)
Lemma Resolve_in_module t m n :
  (Resolve n (SetCurrentModule m (Root t))).2
  = match (if bool_decide (m = "") then None else store t !! qualify m n) with
    | Some y => Some y
    | None => store t !! n
    end.
Proof.
  cbn [SetCurrentModule set_root root Resolve]. unfold own, own_in. cbn [is_root head store currentModule andb].
  destruct (bool_decide (m = "")); cbn [negb]; [by destruct (store t !! n)|].
  destruct (store t !! qualify m n); [done|]. by destruct (store t !! n).
Qed.

(** The builtin table and its index agree. *)
Definition refs_ok (t : SymbolTable) : Prop :=
  forall n i, builtinRef t !! n = Some i <-> builtinRefs t !! i = Some n.

Definition same_refs (c c' : Chain) : Prop :=
  builtinRefs (root c') = builtinRefs (root c) /\ builtinRef (root c') = builtinRef (root c).

Lemma same_refs_set_head t c :
  builtinRefs t = builtinRefs (head c) -> builtinRef t = builtinRef (head c) ->
  same_refs c (set_head t c).
Proof. destruct c; by split. Qed.

Lemma Resolve_refs n c : same_refs c (Resolve n c).1.
Proof.
  induction c as [t|t o IH]; cbn [Resolve].
  - by destruct (own (Root t) n).
  - destruct (own (Enclosed t o) n); [done|]. destruct (Resolve n o) as [o' [y|]]; [|done].
    cbn [fst] in IH. assert (Hm : same_refs o (markCaptured (Index y) o')).
    { destruct IH as [H1 H2]. destruct o'; by split. }
    by destruct (Scope y).
Qed.

Lemma root_set_root t c : root (set_root t c) = t.
Proof. induction c; done. Qed.

Lemma refs_ok_intern n c : refs_ok (root c) -> refs_ok (root (ReferenceBuiltin n c).1).
Proof.
  intros H. unfold ReferenceBuiltin. destruct (builtinRef (root c) !! n) as [i|] eqn:E; [done|].
  cbn [fst]. rewrite root_set_root. intros m i. cbn [builtinRef builtinRefs]. split.
  - intros [[<- <-]|[Hne Hm]]%lookup_insert_Some; [apply lookup_app_at|].
    apply H in Hm. by apply lookup_app_l_Some.
  - intros [Hi|[Hge Hi]]%lookup_app_Some.
    + apply H in Hi. rewrite lookup_insert_ne; [done|]. intros ->. congruence.
    + apply list_lookup_singleton_Some in Hi as [Hz <-].
      replace i with (length (builtinRefs (root c))) by lia. apply lookup_insert_eq.
Qed.

Lemma table_step_refs c c' : table_step c c' -> refs_ok (root c) -> refs_ok (root c').
Proof.
  assert (Hsame : forall c c', same_refs c c' -> refs_ok (root c) -> refs_ok (root c')).
  { intros c1 c2 [E1 E2] H n i. by rewrite E1, E2. }
  intros [n ? Hn|k ? Hk|n ? Hn|?|?|f ? Hf|t o|i n t Hb|m t Hb|n ?|ns k ?] Hr; try done.
  - eapply Hsame; [|exact Hr]. apply same_refs_set_head; unfold noteShadowed; by destruct (blocks (head c0)).
  - eapply Hsame; [|exact Hr]. by apply same_refs_set_head.
  - eapply Hsame; [|exact Hr]. apply Resolve_refs.
  - eapply Hsame; [|exact Hr]. by apply same_refs_set_head.
  - eapply Hsame; [|exact Hr]. apply same_refs_set_head; unfold close_table; by destruct (blocks (head c0)).
  - by destruct f.
  - by apply refs_ok_intern.
  - unfold BindNamespace. rewrite root_set_root. exact Hr.
Qed.

Lemma reachable_refs c : reachable c -> refs_ok (root c).
Proof.
  assert (H0 : refs_ok (root (Root NewSymbolTable))) by (intros n i; split; intros H; simpl in H; by destruct i || done).
  unfold reachable. generalize (Root NewSymbolTable) as c0, H0. intros c0 H. clear H0.
  intros Hs. revert H. induction Hs as [|c1 c2 c3 H1 _ IH]; [done|]. intros H. by eapply IH, table_step_refs.
Qed.

(** A symbol the projection shows. *)
Definition shown (sc : SymbolScope) (count : nat) (y : Symbol) : Prop :=
  Scope y = sc /\ (Index y < count)%nat /\ Name y <> "".

#[export] Instance shown_dec sc count y : Decision (shown sc count y).
Proof. unfold shown. apply _. Defined.

Lemma slot_step_spec sc count acc y :
  slot_step sc count acc y
  = if decide (shown sc count y) then (<[Index y := Name y]> acc.1, true) else acc.
Proof.
  unfold slot_step, shown. destruct (decide _) as [(-> & Hi & Hn)|Hno].
  - rewrite bool_decide_eq_true_2, (proj2 (Nat.leb_gt _ _)), bool_decide_eq_false_2 by done. done.
  - destruct (bool_decide_reflect (Scope y = sc)); [|done]. simpl.
    destruct (Nat.leb_spec count (Index y)); [done|].
    destruct (bool_decide_reflect (Name y = "")); [done|]. tauto.
Qed.

Lemma slot_fold sc count l acc :
  length acc.1 = count ->
  let res := foldl (slot_step sc count) acc l in
  length res.1 = count /\
  (res.2 = true <-> acc.2 = true \/ Exists (shown sc count) l) /\
  forall i,
    (Exists (fun y => shown sc count y /\ Index y = i) l ->
     exists z, z ∈ l /\ shown sc count z /\ Index z = i /\ res.1 !! i = Some (Name z)) /\
    (~ Exists (fun y => shown sc count y /\ Index y = i) l -> res.1 !! i = acc.1 !! i).
Proof.
  revert acc. induction l as [|x l IH]; intros acc Hl; cbn [foldl].
  { split; [done|]. split; [rewrite Exists_nil; tauto|]. intros i. by rewrite Exists_nil. }
  rewrite slot_step_spec. destruct (decide (shown sc count x)) as [Hx|Hx].
  - destruct (IH (<[Index x := Name x]> acc.1, true)) as (L & Pp & H); [simpl; by rewrite length_insert|].
    split; [done|]. split; [rewrite Pp, Exists_cons; simpl; tauto|]. intros i.
    rewrite Exists_cons. destruct (H i) as [H1 H2]. split.
    + intros Hex. destruct (Exists_dec (fun y => shown sc count y /\ Index y = i) l) as [He|He].
      * destruct (H1 He) as (z & Hz & Hr). exists z. split; [by right|done].
      * destruct Hex as [[_ <-]|]; [|done]. rewrite H2 by done.
        exists x. split; [by left|]. split; [done|]. split; [done|].
        simpl. apply list_lookup_insert_eq. destruct Hx as (_ & Hi & _). lia.
    + intros Hno. rewrite H2 by tauto. simpl. apply list_lookup_insert_ne. tauto.
  - destruct (IH acc Hl) as (L & Pp & H). split; [done|].
    split; [rewrite Pp, Exists_cons; tauto|]. intros i. rewrite Exists_cons. destruct (H i) as [H1 H2].
    split; [|intros Hno; apply H2; tauto].
    intros [[? _]|He]; [done|]. destruct (H1 He) as (z & Hz & Hr). exists z. split; [by right|done].
Qed.

(** What the projection says of a store in which no two names share a slot. *)
Lemma slotNames_spec s sc count names :
  slots_inj sc s -> slotNames s sc count = Some names ->
  length names = count /\
  forall i nm, nm <> "" ->
    names !! i = Some nm <-> exists k y, s !! k = Some y /\ shown sc count y /\ Index y = i /\ Name y = nm.
Proof.
  intros Hinj. unfold slotNames.
  pose proof (slot_fold sc count (map_to_list s).*2 (replicate count "", false)) as H.
  destruct (foldl _ _ _) as [names' populated]. destruct populated; [|done]. intros [= ->].
  destruct H as (Hl & _ & H); [apply length_replicate|]. simpl in *. split; [done|].
  assert (Hin : forall y, y ∈ (map_to_list s).*2 <-> exists k, s !! k = Some y).
  { intros y. rewrite list_elem_of_fmap. split.
    - intros ([k y'] & -> & Hk%elem_of_map_to_list). by exists k.
    - intros [k Hk]. exists (k, y). split; [done|]. by apply elem_of_map_to_list. }
  intros i nm Hnm. destruct (H i) as [H1 H2]. split.
  - intros Hn. destruct (Exists_dec (fun y => shown sc count y /\ Index y = i) (map_to_list s).*2) as [He|He].
    + destruct (H1 He) as (z & [k Hk]%Hin & Hz & Hi & Ez). exists k, z. naive_solver.
    + rewrite H2 in Hn by done. apply lookup_replicate in Hn as [-> _]. done.
  - intros (k & y & Hk & Hy & <- & <-). destruct H1 as (z & [k' Hk']%Hin & Hz & Hi & ->).
    { apply Exists_exists. exists y. split; [apply Hin; by exists k | done]. }
    destruct Hy as (Sy & _), Hz as (Sz & _).
    assert (k' = k) as -> by (by eapply Hinj). by simplify_eq.
Qed.

Lemma function_capture c i original nm :
  wf c -> FreeSymbols (head c) !! i = Some original ->
  freeCapturesFunctionName i c = true <->
  exists level, denote c (Sym nm FreeScope i) = Some (BFunction level).
Proof.
  revert i original nm. induction c as [t|t o IH]; intros i original nm Hw Hi.
  { destruct Hw as (_ & Hf & _). simpl in Hi. by rewrite Hf in Hi. }
  cbn [head] in Hi. destruct Hw as (_ & _ & Hfree & Hw).
  eapply Forall_lookup_1 in Hfree as (_ & Hs & [b Hb] & _); [|exact Hi].
  cbn [freeCapturesFunctionName denote Scope Index]. unfold freeOriginal. cbn [head]. rewrite Hi.
  destruct original as [nm' sc idx]. cbn [Scope Index] in *.
  destruct sc; try done; [split; [done|]; intros [? E]; by destruct o; simpl in E| |].
  - destruct o as [t'|t' o']; [by simpl in Hb|].
    destruct (FreeSymbols t' !! idx) as [orig'|] eqn:E; [|simpl in Hb; by rewrite E in Hb].
    exact (IH idx orig' nm' Hw E).
  - split; [|done]. intros _. exists (height o). by destruct o.
Qed.

(* ------------------------------------------------------------------ *)
(** ** Properties *)

(** C17: [Resolve] implements lexical scope.  In every table the compiler can
    build, resolving a source name answers nothing exactly when no enclosing
    scope declares it, and otherwise answers a symbol that refers, through
    however many captures, to the innermost declaration; a name that turns out
    to be a variable of an outer function has its slot marked as captured in
    that function's table; and resolving changes the meaning of no name. *)
Theorem resolve_is_lexical (c : Chain) (name : string) :
  reachable c -> ident name ->
  let '(c', res) := Resolve name c in
  match res with
  | None => lexical c name = None
  | Some y => is_Some (lexical c name) /\ denote c' y = lexical c name
  end /\
  (forall level i, lexical c name = Some (BLocal level i) -> (level < height c)%nat ->
     i ∈ capturedLocals (table_at c' level)) /\
  (forall n, lexical c' n = lexical c n).
Proof.
  intros Hw%reachable_wf Hn. pose proof (Resolve_resolved name c Hw Hn) as H.
  destruct (Resolve name c) as [c' res]. destruct H as (Hw' & He & Hr).
  split; [|split; [|intros n; by apply ext_lexical]].
  - destruct res; [|done]. destruct Hr as (Hd & <- & _). done.
  - intros level i Hl Hlt. destruct res as [y|]; [|congruence].
    destruct Hr as (_ & Hd & _). rewrite Hl in Hd. rewrite <- (ext_height _ _ He) in Hlt.
    destruct (Scope y) eqn:Es; try (destruct c'; simpl in Hd; by rewrite Es in Hd).
    + assert (denote c' y = Some (BLocal (height c') (Index y))) as E
        by (destruct c'; cbn [denote]; by rewrite Es).
      rewrite E in Hd. simplify_eq. lia.
    + by apply (capture_marked c' y).
Qed.

(** A function whose block uses a variable of the function around it. *)
Definition nested_sample : Chain :=
  foldl (fun c a => act a c) (Root NewSymbolTable) [ADeclare "g"].

Lemma nested_sample_reachable : reachable (enter (Some "inner") (Define "x" (enter None nested_sample)).1).
Proof.
  eapply rtc_l; [apply (step_define "g"); done|].
  eapply rtc_l; [apply (step_enter None); done|].
  eapply rtc_l; [apply (step_define "x"); done|].
  apply rtc_once, step_enter. intros n [= <-]. done.
Qed.

Lemma resolve_is_lexical_witness :
  lexical (enter (Some "inner") (Define "x" (enter None nested_sample)).1) "x" = Some (BLocal 1 0) /\
  denote (Resolve "x" (enter (Some "inner") (Define "x" (enter None nested_sample)).1)).1
    (Sym "x" FreeScope 0) = Some (BLocal 1 0).
Proof.
  split; [reflexivity|].
  destruct (resolve_is_lexical _ "x" nested_sample_reachable) as [[_ H] _]; [split; reflexivity|].
  exact H.
Defined.

(** A block or a function literal leaves no trace in the scope around it.
    Whatever its body declares, uses, nests or reserves, once it is closed every
    source name means exactly what it meant before. *)
Theorem nested_scopes_leave_no_trace (c : Chain) (a : action) (name : string) :
  reachable c -> action_ok a -> ident name ->
  match a with
  | ABlock _ | AFunction _ _ => lexical (act a c) name = lexical c name
  | _ => True
  end.
Proof.
  intros Hw%reachable_wf Ha Hn. pose proof (nested_sound a c Ha Hw) as H.
  destruct a; try done; destruct H as [Hw' Hg]; by apply grown_lexical.
Qed.

Definition shadowing_block : action :=
  ABlock [ADeclare "g"; AInternal " assign"; ADeclare "g"; ABlock [ADeclare "h"; AUse "g"];
          AFunction (Some "f") [ADeclare "p"; AUse "g"; AUse "f"]].

Lemma nested_scopes_leave_no_trace_witness :
  lexical (act shadowing_block nested_sample) "g" = lexical nested_sample "g" /\
  lexical nested_sample "g" = Some (BGlobal 0).
Proof.
  split; [|reflexivity].
  apply (nested_scopes_leave_no_trace nested_sample shadowing_block "g").
  - apply rtc_once, (step_define "g"). split; reflexivity.
  - repeat split; try reflexivity; simplify_eq; reflexivity.
  - split; reflexivity.
Defined.

(** The slot names of a function are exact.  Every local slot the table
    reports carries the name that currently means that slot, every name that
    means a slot is reported at it, and there is one entry per slot: no two
    names in a table ever share one. *)
Theorem local_slot_names_exact (t : SymbolTable) (o : Chain) (names : list string) :
  reachable (Enclosed t o) -> LocalSlotNames (Enclosed t o) = Some names ->
  length names = numDefinitions t /\
  forall i nm, nm <> "" ->
    names !! i = Some nm <->
    exists k y, store t !! k = Some y /\ Scope y = LocalScope /\ Index y = i /\ Name y = nm.
Proof.
  intros Hw%reachable_wf Hn. destruct (wf_store_head _ _ Hw) as [Hinj Hs].
  unfold LocalSlotNames in Hn. simpl in Hn. destruct (numDefinitions t =? 0)%nat; [done|].
  destruct (slotNames_spec _ _ _ _ Hinj Hn) as [Hl H]. split; [done|].
  intros i nm Hnm. rewrite (H i nm Hnm). split.
  - intros (k & y & Hk & (Sy & _) & Hi & Hy). by exists k, y.
  - intros (k & y & Hk & Sy & Hi & <-). exists k, y. split; [done|]. split; [|done].
    destruct (Hs _ _ Hk) as [_ Hlt]. rewrite Sy in Hlt. by split.
Qed.

Lemma local_slot_names_exact_witness :
  exists names, LocalSlotNames (Define "x" (enter None nested_sample)).1 = Some names /\ names !! 0%nat = Some "x".
Proof.
  exists ["x"]. split; [reflexivity|].
  apply (local_slot_names_exact (head (Define "x" (enter None nested_sample)).1) nested_sample ["x"]);
    [|reflexivity|discriminate|].
  - eapply rtc_l; [apply (step_define "g"); done|].
    eapply rtc_l; [apply (step_enter None); done|].
    apply rtc_once. apply (step_define "x" (enter None nested_sample)). split; reflexivity.
  - exists "x", (Sym "x" LocalScope 0). repeat split; reflexivity.
Defined.

(** Interning a builtin.  In every reachable table the operand
    [ReferenceBuiltin] returns indexes that builtin's name in the table shipped
    with the program, an operand handed out earlier still indexes the same
    name, and asking again gives the same operand and adds nothing. *)
Theorem builtin_references_stable (c : Chain) (name : string) :
  reachable c ->
  let '(c', index) := ReferenceBuiltin name c in
  ReferencedBuiltins c' !! index = Some name /\
  ReferencedBuiltins c `prefix_of` ReferencedBuiltins c' /\
  NoDup (ReferencedBuiltins c') /\
  ReferenceBuiltin name c' = (c', index).
Proof.
  intros Hr%reachable_refs. pose proof (refs_ok_intern name c Hr) as Hr'.
  assert (Hnd : forall t, refs_ok t -> NoDup (builtinRefs t)).
  { intros t Ht. apply NoDup_alt. intros i j n Hi%Ht Hj%Ht. congruence. }
  unfold ReferenceBuiltin in *. destruct (builtinRef (root c) !! name) as [i|] eqn:E; cbn [fst] in Hr'.
  - split; [by apply Hr|]. split; [done|]. split; [by apply Hnd|]. by rewrite E.
  - unfold ReferencedBuiltins. specialize (Hnd _ Hr'). rewrite root_set_root in *.
    cbn [builtinRefs builtinRef] in *. split; [apply lookup_app_at|].
    split; [by apply prefix_app_r|]. split; [done|]. by rewrite lookup_insert_eq.
Qed.

Lemma builtin_references_stable_witness :
  ReferencedBuiltins (ReferenceBuiltin "puts" (ReferenceBuiltin "len" nested_sample).1).1 !! 1%nat = Some "puts".
Proof.
  apply (builtin_references_stable (ReferenceBuiltin "len" nested_sample).1 "puts").
  eapply rtc_l; [apply (step_define "g"); done|].
  apply rtc_once, (step_reference "len").
Defined.

(** Modules are isolated.  Declaring a top-level name while one module is
    being compiled changes nothing another module resolves, and the declaring
    module's name is found under its own key. *)
Theorem modules_isolated (t : SymbolTable) (m m' n n' : string) :
  m <> "" -> m' <> m -> ident n -> ident n' ->
  let before := Root t in
  let '(after, symbol) := Define n (SetCurrentModule m before) in
  (Resolve n' (SetCurrentModule m' after)).2 = (Resolve n' (SetCurrentModule m' before)).2 /\
  ResolveIn m n after = Some symbol /\
  (forall k, k <> m -> ResolveIn k n' after = ResolveIn k n' before).
Proof.
  intros Hm Hmm [Hn _] [Hn' _] before.
  pose proof (Define_root_store n (SetCurrentModule m before)) as Hd.
  destruct (Define n (SetCurrentModule m before)) as [after symbol].
  destruct Hd as (u & -> & Hst); [done|]. cbn [SetCurrentModule before set_root root head currentModule store] in Hst.
  assert (Hother : forall k, k <> m -> forall x, no_nul x = true -> qualify m n <> qualify k x).
  { intros k Hk x Hx E. apply qualify_inj in E as [-> _]; done. }
  assert (Hbare : qualify m n <> n') by (apply (Hother ""); [congruence | done]).
  split; [|split].
  - unfold before. rewrite !Resolve_in_module, Hst, !lookup_insert_ne by auto. done.
  - unfold ResolveIn. cbn [root]. rewrite Hst. apply lookup_insert_eq.
  - intros k Hk. unfold ResolveIn. cbn [root before]. rewrite Hst. apply lookup_insert_ne. auto.
Qed.

Lemma modules_isolated_witness :
  (Resolve "helper" (SetCurrentModule "b" (Define "helper" (SetCurrentModule "a" (Root NewSymbolTable))).1)).2 = None.
Proof.
  destruct (modules_isolated NewSymbolTable "a" "b" "helper" "helper") as [H _]; [done|done|split; reflexivity..|].
  exact H.
Defined.

(** A capture is recognised as a function's own name at any depth.
    [freeCapturesFunctionName] answers yes exactly when following the capture
    outward ends at a function rather than at a slot. *)
Theorem function_name_captures_found (c : Chain) (i : nat) (original : Symbol) :
  reachable c -> freeOriginal i (head c) = Some original ->
  freeCapturesFunctionName i c = true <->
  exists level, denote c (Sym (Name original) FreeScope i) = Some (BFunction level).
Proof. intros Hw%reachable_wf Hi. by eapply function_capture. Qed.

Definition deep_capture : Chain :=
  (Resolve "f" (enter None (enter None (enter (Some "f") nested_sample)))).1.

Lemma function_name_captures_found_witness :
  freeCapturesFunctionName 0 deep_capture = true.
Proof.
  apply (function_name_captures_found deep_capture 0 (Sym "f" FreeScope 0)); [|reflexivity|].
  - eapply rtc_l; [apply (step_define "g"); done|].
    eapply rtc_l; [apply (step_enter (Some "f")); intros n [= <-]; done|].
    eapply rtc_l; [apply (step_enter None); done|].
    eapply rtc_l; [apply (step_enter None); done|].
    apply rtc_once, (step_resolve "f"). split; reflexivity.
  - exists 1%nat. reflexivity.
Defined.
