(* ===== verification/Text.v ===== *)
(** Tokens and the text inside string literals: [src/token/token.go] and the
    string half of [src/lexer/lexer.go] ([unescape], [normalizeNewlines],
    [stripBlockIndent], [splitTemplate], [scanHole], [decodeParts], [advance]).

    Source text is a list of bytes.  The wording of diagnostics is not
    modelled: a token's [Err] is a value that says which diagnostic it is and
    what it is about. *)

From Stdlib Require Import ZArith Lia.
From stdpp Require Import base list list_numbers numbers.
From S2P Require Import Prelude.

(* ------------------------------------------------------------------ *)
(** ** Bytes *)

Definition cTab : Z := 9.
Definition cNewline : Z := 10.
Definition cReturn : Z := 13.
Definition cSpace : Z := 32.
Definition cQuote : Z := 34.
Definition cDollar : Z := 36.
Definition cZero : Z := 48.
Definition cBackslash : Z := 92.
Definition c_n : Z := 110.
Definition c_r : Z := 114.
Definition c_t : Z := 116.
Definition cLBrace : Z := 123.
Definition cRBrace : Z := 125.

(** [s[i:j]]. *)
Definition slice (s : list Z) (i j : nat) : list Z := take (j - i) (drop i s).

(** [strings.IndexByte]. *)
Fixpoint IndexByte (s : list Z) (b : Z) : option nat :=
  match s with
  | [] => None
  | c :: s => if c =? b then Some 0%nat else S <$> IndexByte s b
  end.

(** [strings.Contains(s, "${")]. *)
Fixpoint contains_hole (s : list Z) : bool :=
  match s with
  | [] => false
  | a :: rest =>
      ((a =? cDollar) && match rest with b :: _ => b =? cLBrace | [] => false end)
      || contains_hole rest
  end.

(** [strings.Split(s, sep)] for a one-byte separator, and [strings.Join]. *)
Fixpoint Split (s : list Z) (sep : Z) : list (list Z) :=
  match s with
  | [] => [[]]
  | c :: s =>
      if c =? sep then [] :: Split s sep
      else match Split s sep with
           | [] => [[c]]
           | piece :: pieces => (c :: piece) :: pieces
           end
  end.

Fixpoint Join (pieces : list (list Z)) (sep : Z) : list Z :=
  match pieces with
  | [] => []
  | [piece] => piece
  | piece :: pieces => piece ++ sep :: Join pieces sep
  end.

(** [strings.TrimLeft(s, " \t")]. *)
Fixpoint trim_indent (s : list Z) : list Z :=
  match s with
  | c :: rest => if (c =? cSpace) || (c =? cTab) then trim_indent rest else s
  | [] => []
  end.

(* ------------------------------------------------------------------ *)
(** ** Positions and tokens *)

(** [token.Position]. *)
Record Position : Type := Pos { Line : Z; Column : Z; Offset : Z }.

#[export] Instance Position_eq_dec : EqDecision Position.
Proof. solve_decision. Defined.

Definition IsValid (p : Position) : bool := 0 <? Line p.

(** [Position.Shift]. *)
Definition Shift (p : Position) (lines offset : Z) : Position :=
  if IsValid p then Pos (Line p + lines) (Column p) (Offset p + offset) else p.

(** [advance]: the position after a stretch of text. *)
Fixpoint advance (pos : Position) (text : list Z) : Position :=
  match text with
  | [] => pos
  | b :: text =>
      if b =? cNewline then advance (Pos (Line pos + 1) 1 (Offset pos + 1)) text
      else advance (Pos (Line pos) (Column pos + 1) (Offset pos + 1)) text
  end.

(** The token types of [src/token/token.go]. *)
Inductive TokenType : Type :=
| ILLEGAL | EOF | UNTERMINATED
| IDENT | INT | FLOAT | STRING | TEMPLATE
| ASSIGN | PLUS | MINUS | ASTERISK | FSLASH | MODULO | DOT | LT | GT | LTE | GTE
| BANG | EQUALITY | INEQUALITY | AND | OR | COLON
| AMPERSAND | PIPE | CARET | TILDE | SHL | SHR
| PLUS_ASSIGN | MINUS_ASSIGN | ASTERISK_ASSIGN | SLASH_ASSIGN | MODULO_ASSIGN
| INCREMENT | DECREMENT
| AND_ASSIGN | OR_ASSIGN | XOR_ASSIGN | SHL_ASSIGN | SHR_ASSIGN | FATARROW
| COMMA | SEMICOLON | LPAREN | RPAREN | LBRACE | RBRACE | LSQUARE | RSQUARE
| FUNCTION | LET | TRUE | FALSE | IF | ELSE | RETURN | MACRO | FOR | WHILE | IN
| BREAK | CONTINUE | STRUCT | ENUM | MATCH | IMPORT.

#[export] Instance TokenType_eq_dec : EqDecision TokenType.
Proof. solve_decision. Defined.

(** [token.StringPart]. *)
Record StringPart : Type := Part { Text : list Z; Expression : bool; part_Start : Position }.

(** What a scan can find wrong ([scanFault.why]). *)
Inductive fault_kind : Type := faultOpenHole | faultNUL.

(** [scanFault]: [None] is the zero value. *)
Definition scanFault : Type := option (fault_kind * Position).

(** [scanFault.or]: the first fault wins. *)
Definition fault_or (f g : scanFault) : scanFault :=
  match f with Some _ => f | None => g end.

(** Why a token is ILLEGAL. *)
Inductive token_err : Type :=
| ErrBackslash
| ErrFault (why : fault_kind) (where_ : Position)
| ErrNumber (digits name : list Z).

(** [token.Token]. *)
Record Token : Type := Tok {
  Type_ : TokenType; Literal : list Z; Start : Position; End_ : Position;
  Raw : list Z; Parts : list StringPart; Err : option token_err }.

(** [token.Comment]; every comment is a line comment. *)
Record Comment : Type := LineComment {
  c_Text : list Z; c_Start : Position; c_End : Position }.

(** The keyword table of [src/token/token.go]. *)
Definition keywords : list (list Z * TokenType) :=
  [([102; 110], FUNCTION);                                   (* fn *)
   ([108; 101; 116], LET);                                   (* let *)
   ([116; 114; 117; 101], TRUE);                             (* true *)
   ([102; 97; 108; 115; 101], FALSE);                        (* false *)
   ([105; 102], IF);                                         (* if *)
   ([101; 108; 115; 101], ELSE);                             (* else *)
   ([114; 101; 116; 117; 114; 110], RETURN);                 (* return *)
   ([109; 97; 99; 114; 111], MACRO);                         (* macro *)
   ([102; 111; 114], FOR);                                   (* for *)
   ([119; 104; 105; 108; 101], WHILE);                       (* while *)
   ([105; 110], IN);                                         (* in *)
   ([98; 114; 101; 97; 107], BREAK);                         (* break *)
   ([99; 111; 110; 116; 105; 110; 117; 101], CONTINUE);      (* continue *)
   ([115; 116; 114; 117; 99; 116], STRUCT);                  (* struct *)
   ([101; 110; 117; 109], ENUM);                             (* enum *)
   ([109; 97; 116; 99; 104], MATCH);                         (* match *)
   ([105; 109; 112; 111; 114; 116], IMPORT)].                (* import *)

Fixpoint lookup_keyword (l : list (list Z * TokenType)) (ident : list Z) : option TokenType :=
  match l with
  | [] => None
  | (k, t) :: l => if decide (k = ident) then Some t else lookup_keyword l ident
  end.

(** [LookupIdent]. *)
Definition LookupIdent (ident : list Z) : TokenType := default IDENT (lookup_keyword keywords ident).

(* ------------------------------------------------------------------ *)
(** ** Decoding a literal *)

(** What [unescape] writes for the character after a backslash. *)
Definition escape_byte (c : Z) : list Z :=
  if c =? c_n then [cNewline]
  else if c =? c_r then [cReturn]
  else if c =? c_t then [cTab]
  else if c =? cQuote then [cQuote]
  else if c =? cBackslash then [cBackslash]
  else if c =? cDollar then [cDollar]
  else if c =? cZero then [0]
  else [cBackslash; c].

(** The loop of [unescape]. *)
Fixpoint unescape_loop (s : list Z) : list Z :=
  match s with
  | [] => []
  | b :: rest =>
      if b =? cBackslash then
        match rest with
        | [] => [cBackslash]
        | c :: rest => escape_byte c ++ unescape_loop rest
        end
      else b :: unescape_loop rest
  end.

Definition unescape (s : list Z) : list Z :=
  if bool_decide (cBackslash ∈ s) then unescape_loop s else s.

(** [strings.ReplaceAll(s, "\r\n", "\n")]. *)
Fixpoint replace_crlf (s : list Z) : list Z :=
  match s with
  | [] => []
  | a :: rest =>
      match rest with
      | b :: rest' =>
          if (a =? cReturn) && (b =? cNewline) then cNewline :: replace_crlf rest'
          else a :: replace_crlf rest
      | [] => [a]
      end
  end.

Fixpoint contains_crlf (s : list Z) : bool :=
  match s with
  | [] => false
  | a :: rest =>
      ((a =? cReturn) && match rest with b :: _ => b =? cNewline | [] => false end)
      || contains_crlf rest
  end.

Definition normalizeNewlines (s : list Z) : list Z :=
  if contains_crlf s then replace_crlf s else s.

(** The indent loop of [stripBlockIndent]; -1 is "none measured yet". *)
Fixpoint min_indent (indent : Z) (lines : list (list Z)) : Z :=
  match lines with
  | [] => indent
  | line :: lines =>
      let trimmed := trim_indent line in
      if (length trimmed =? 0)%nat then min_indent indent lines
      else
        let width := zlen line - zlen trimmed in
        min_indent (if (indent <? 0) || (width <? indent) then width else indent) lines
  end.

Definition strip_line (indent : Z) (line : list Z) : list Z :=
  if zlen line <? indent then trim_indent line else drop (Z.to_nat indent) line.

Definition stripBlockIndent (body : list Z) : list Z :=
  match IndexByte body cNewline with
  | None => body
  | Some newline =>
      if negb (length (trim_indent (take newline body)) =? 0)%nat then body
      else
        let lines := Split (drop (newline + 1) body) cNewline in
        let last_line := List.last lines [] in
        let '(indent, lines) :=
          if (length (trim_indent last_line) =? 0)%nat
          then (zlen last_line, removelast lines) else (-1, lines) in
        let indent := min_indent indent lines in
        Join (if 0 <? indent then strip_line indent <$> lines else lines) cNewline
  end.

(** The string inside a hole: the scan of [scanHole] to the closing quote. *)
Fixpoint hole_string (fuel : nat) (body : list Z) (j : nat) : nat :=
  match fuel with
  | O => j
  | S fuel =>
      if (j <? length body)%nat && negb (body !!! j =? cQuote) then
        hole_string fuel body (if body !!! j =? cBackslash then j + 2 else j + 1)
      else j
  end.

(** The loop of [scanHole]: the index it stops at and the depth there. *)
Fixpoint hole_loop (fuel : nat) (body : list Z) (j : nat) (depth : nat) : nat * nat :=
  match fuel with
  | O => (j, depth)
  | S fuel =>
      if (j <? length body)%nat && (0 <? depth)%nat then
        let c := body !!! j in
        if c =? cLBrace then hole_loop fuel body (j + 1) (S depth)
        else if c =? cRBrace then hole_loop fuel body (j + 1) (depth - 1)
        else if c =? cQuote then
          hole_loop fuel body (hole_string (length body) body (j + 1) + 1) depth
        else hole_loop fuel body (j + 1) depth
      else (j, depth)
  end.

(** [scanHole]: each turn advances, so [length body] turns are enough. *)
Definition scanHole (body : list Z) (i : nat) : list Z * nat * bool :=
  let '(j, depth) := hole_loop (length body) body (i + 2) 1 in
  if (0 <? depth)%nat then (drop (i + 2) body, length body, false)
  else (slice body (i + 2) (j - 1), j, true).

(** The state of the loop of [splitTemplate]. *)
Record split_state : Type := Split_ {
  s_parts : list StringPart; s_pos : Position; s_textStart : Position;
  s_text : list Z; s_found : bool; s_fault : scanFault }.

Definition flushText (s : split_state) : list StringPart :=
  s_parts s ++ [Part (s_text s) false (s_textStart s)].

Fixpoint split_loop (fuel : nat) (body : list Z) (i : nat) (s : split_state) : split_state :=
  match fuel with
  | O => s
  | S fuel =>
      if (i <? length body)%nat then
        let more := (i + 1 <? length body)%nat in
        if (body !!! i =? cBackslash) && more then
          let two := slice body i (i + 2) in
          split_loop fuel body (i + 2)
            (Split_ (s_parts s) (advance (s_pos s) two) (s_textStart s) (s_text s ++ two)
               (s_found s) (s_fault s))
        else if (body !!! i =? cDollar) && more && (body !!! (i + 1)%nat =? cLBrace) then
          let exprStart := advance (s_pos s) [cDollar; cLBrace] in
          let '(source, next, closed) := scanHole body i in
          let fault := if closed then s_fault s
                       else fault_or (s_fault s) (Some (faultOpenHole, s_pos s)) in
          let parts := flushText s ++ [Part source true exprStart] in
          let pos := advance (s_pos s) (slice body i next) in
          split_loop fuel body next (Split_ parts pos pos [] true fault)
        else
          let one := slice body i (i + 1) in
          split_loop fuel body (i + 1)
            (Split_ (s_parts s) (advance (s_pos s) one) (s_textStart s) (s_text s ++ one)
               (s_found s) (s_fault s))
      else s
  end.

(** [splitTemplate]. *)
Definition splitTemplate (body : list Z) (start : Position)
    : list StringPart * bool * scanFault :=
  if negb (contains_hole body) then ([], false, None)
  else
    let s := split_loop (S (length body)) body 0 (Split_ [] start start [] false None) in
    (flushText s, s_found s, s_fault s).

(** The text of [decodeParts] with a NUL for each hole. *)
Fixpoint mask_parts (parts : list StringPart) : list Z :=
  match parts with
  | [] => []
  | p :: parts => (if Expression p then [0] else Text p) ++ mask_parts parts
  end.

(** [for i := range parts { ... parts[i].Text = chunks[next]; next++ }]. *)
Fixpoint assign_chunks (parts : list StringPart) (chunks : list (list Z)) : list StringPart :=
  match parts with
  | [] => []
  | p :: parts =>
      if Expression p then p :: assign_chunks parts chunks
      else match chunks with
           | [] => p :: assign_chunks parts []
           | c :: chunks => Part c false (part_Start p) :: assign_chunks parts chunks
           end
  end.

(** [decodeParts]. *)
Definition decodeParts (parts : list StringPart) (triple : bool) : list StringPart :=
  let parts :=
    if triple
    then assign_chunks parts (Split (stripBlockIndent (normalizeNewlines (mask_parts parts))) 0)
    else parts in
  omap (fun p =>
    if Expression p then Some p
    else
      let text := unescape (Text p) in
      if (length text =? 0)%nat then None else Some (Part text false (part_Start p))) parts.

(* ------------------------------------------------------------------ *)
(** ** Positions *)

Lemma advance_app pos a b : advance pos (a ++ b) = advance (advance pos a) b.
Proof. revert pos. induction a as [|c a IH]; intros pos; cbn [advance app]; [done|]. by destruct (c =? cNewline). Qed.

Lemma advance_Offset pos s : Offset (advance pos s) = Offset pos + zlen s.
Proof.
  revert pos. induction s as [|c s IH]; intros pos; cbn [advance]; [unfold zlen; simpl; lia|].
  unfold zlen in *. destruct (c =? cNewline); rewrite IH; simpl; lia.
Qed.

Lemma slice_app_r s i j k : (i <= j <= k)%nat -> slice s i j ++ slice s j k = slice s i k.
Proof.
  intros Hij. unfold slice.
  replace (drop j s) with (drop (j - i) (drop i s)) by (rewrite drop_drop; f_equal; lia).
  replace (k - i)%nat with ((j - i) + (k - j))%nat by lia. by rewrite take_take_drop.
Qed.

Lemma slice_0 s j : slice s 0 j = take j s.
Proof. unfold slice. by rewrite drop_0, Nat.sub_0_r. Qed.

Lemma slice_full s i j : (length s <= j)%nat -> slice s i j = drop i s.
Proof. intros H. unfold slice. apply take_ge. rewrite length_drop. lia. Qed.

Lemma slice_cons s i j : (i < j)%nat -> (i < length s)%nat -> slice s i j = s !!! i :: slice s (S i) j.
Proof.
  intros Hij Hi. unfold slice. destruct (lookup_lt_is_Some_2 s i Hi) as [x Hx].
  rewrite (drop_S _ _ _ Hx), (list_lookup_total_correct _ _ _ Hx).
  replace (j - i)%nat with (S (j - S i)) by lia. done.
Qed.

Lemma length_slice s i j : (j <= length s)%nat -> length (slice s i j) = (j - i)%nat.
Proof. intros H. unfold slice. rewrite length_take, length_drop. lia. Qed.

(* ------------------------------------------------------------------ *)
(** ** Escapes *)

(** The two-character spelling of the bytes that need one. *)
Definition escape_spelling (b : Z) : list Z :=
  if b =? cNewline then [cBackslash; c_n]
  else if b =? cReturn then [cBackslash; c_r]
  else if b =? cTab then [cBackslash; c_t]
  else if b =? cQuote then [cBackslash; cQuote]
  else if b =? cBackslash then [cBackslash; cBackslash]
  else if b =? cDollar then [cBackslash; cDollar]
  else if b =? 0 then [cBackslash; cZero]
  else [b].

Fixpoint escape (s : list Z) : list Z :=
  match s with
  | [] => []
  | b :: s => escape_spelling b ++ escape s
  end.

Lemma unescape_loop_plain s : cBackslash ∉ s -> unescape_loop s = s.
Proof.
  induction s as [|b s IH]; intros Hs; [done|]. apply not_elem_of_cons in Hs as [Hb Hs].
  cbn [unescape_loop]. rewrite (proj2 (Z.eqb_neq _ _)) by congruence. by rewrite IH.
Qed.

(** The early return for text without a backslash is the loop's own answer. *)
Lemma unescape_is_loop s : unescape s = unescape_loop s.
Proof.
  unfold unescape. destruct (bool_decide_reflect (cBackslash ∈ s)); [done|].
  by rewrite unescape_loop_plain.
Qed.

Lemma unescape_spelling b s : unescape_loop (escape_spelling b ++ s) = b :: unescape_loop s.
Proof.
  unfold escape_spelling. repeat (bcase; [by subst|]).
  cbn [app unescape_loop]. rewrite (proj2 (Z.eqb_neq b cBackslash)); done.
Qed.

Lemma unescape_loop_escape s : unescape_loop (escape s) = s.
Proof. induction s as [|b s IH]; [done|]. cbn [escape]. by rewrite unescape_spelling, IH. Qed.

(* ------------------------------------------------------------------ *)
(** ** Line endings *)

Fixpoint to_crlf (s : list Z) : list Z :=
  match s with
  | [] => []
  | b :: s => if b =? cNewline then cReturn :: cNewline :: to_crlf s else b :: to_crlf s
  end.

Lemma replace_crlf_plain s : contains_crlf s = false -> replace_crlf s = s.
Proof.
  induction s as [|a s IH]; [done|]. cbn [contains_crlf replace_crlf].
  intros [Ha Hs]%orb_false_iff. destruct s as [|b s]; [done|]. rewrite Ha. by rewrite IH.
Qed.

(** The early return is the replacement's own answer here too. *)
Lemma normalizeNewlines_is_replace s : normalizeNewlines s = replace_crlf s.
Proof.
  unfold normalizeNewlines. destruct (contains_crlf s) eqn:E; [done|].
  by rewrite replace_crlf_plain.
Qed.

Lemma no_crlf s : cReturn ∉ s -> contains_crlf s = false.
Proof.
  induction s as [|a s IH]; [done|]. intros [Ha Hs]%not_elem_of_cons. cbn [contains_crlf].
  rewrite (proj2 (Z.eqb_neq a _)) by congruence. simpl. by apply IH.
Qed.

Lemma replace_to_crlf s : cReturn ∉ s -> replace_crlf (to_crlf s) = s.
Proof.
  induction s as [|a s IH]; [done|]. intros [Ha Hs]%not_elem_of_cons. cbn [to_crlf].
  destruct (Z.eqb_spec a cNewline) as [->|Hn].
  - cbn [replace_crlf]. simpl. by rewrite IH.
  - cbn [replace_crlf]. rewrite (proj2 (Z.eqb_neq a cReturn)) by congruence. simpl.
    destruct (to_crlf s) as [|b s'] eqn:E; [destruct s; simpl in E; [done|by destruct (_ =? _)]|].
    by rewrite IH.
Qed.

(* ------------------------------------------------------------------ *)
(** ** Holes *)

Lemma hole_string_ge fuel body j : (j <= hole_string fuel body j)%nat.
Proof.
  revert j. induction fuel as [|fuel IH]; intros j; cbn [hole_string]; [lia|].
  bcase; [|lia]. etrans; [|apply IH]. destruct (_ =? _); lia.
Qed.

(** Where the scan stops: past the start, and when the braces balance, just
    after a closing brace. *)
Lemma hole_loop_spec fuel body j depth j' depth' :
  (length body <= j + fuel)%nat -> (0 < depth)%nat -> hole_loop fuel body j depth = (j', depth') ->
  (j <= j')%nat /\
  (depth' = 0%nat -> (j < j' <= length body)%nat /\ body !!! (j' - 1)%nat = cRBrace) /\
  ((0 < depth')%nat -> (length body <= j')%nat).
Proof.
  revert j depth. induction fuel as [|fuel IH]; intros j depth Hf Hd H; cbn [hole_loop] in H.
  { simplify_eq. split; [lia|]. split; lia. }
  destruct (Nat.ltb_spec j (length body)) as [Hj|Hj]; cbn [andb] in H.
  2:{ simplify_eq. split; [lia|]. split; lia. }
  rewrite (proj2 (Nat.ltb_lt 0 depth) Hd) in H.
  destruct (Z.eqb_spec (body !!! j) cLBrace).
  { apply IH in H as (H1 & H2 & H3); [|lia..]. split; [lia|]. split; [|done].
    intros E. destruct (H2 E). split; [lia|done]. }
  destruct (Z.eqb_spec (body !!! j) cRBrace) as [Er|].
  { destruct (decide (depth = 1%nat)) as [->|Hne].
    - assert ((j', depth') = (j + 1, 0)%nat) as [= -> ->].
      { rewrite <- H. destruct fuel; cbn [hole_loop]; [done|]. simpl. by rewrite andb_false_r. }
      split; [lia|]. split; [|lia]. intros _. split; [lia|].
      by replace (j + 1 - 1)%nat with j by lia.
    - apply IH in H as (H1 & H2 & H3); [|lia..]. split; [lia|]. split; [|done].
      intros E. destruct (H2 E). split; [lia|done]. }
  destruct (Z.eqb_spec (body !!! j) cQuote).
  { pose proof (hole_string_ge (length body) body (j + 1)).
    apply IH in H as (H1 & H2 & H3); [|lia..]. split; [lia|]. split; [|done].
    intros E. destruct (H2 E). split; [lia|done]. }
  apply IH in H as (H1 & H2 & H3); [|lia..]. split; [lia|]. split; [|done].
  intros E. destruct (H2 E). split; [lia|done].
Qed.

(** A hole is its braces around its source. *)
Lemma scanHole_spec body i source next closed :
  (i + 1 < length body)%nat -> body !!! i = cDollar -> body !!! (i + 1)%nat = cLBrace ->
  scanHole body i = (source, next, closed) ->
  (i < next <= length body)%nat /\ (closed = false -> next = length body) /\
  slice body i next = [cDollar; cLBrace] ++ source ++ (if closed then [cRBrace] else []).
Proof.
  intros Hi Hd Hb H. unfold scanHole in H.
  destruct (hole_loop (length body) body (i + 2) 1) as [j depth] eqn:E.
  apply hole_loop_spec in E as (Hj & H0 & H1); [|lia..].
  assert (Hhead : forall k, (i + 2 <= k)%nat -> slice body i k = [cDollar; cLBrace] ++ slice body (i + 2) k).
  { intros k Hk. rewrite slice_cons, slice_cons by lia. replace (S i) with (i + 1)%nat by lia.
    rewrite Hd, Hb. by replace (S (i + 1)) with (i + 2)%nat by lia. }
  destruct (Nat.ltb_spec 0 depth) as [Hp|Hp]; simplify_eq.
  - split; [lia|]. split; [done|]. rewrite Hhead by lia. rewrite slice_full by lia.
    by rewrite app_nil_r.
  - destruct H0 as [Hr Hc]; [lia|]. split; [lia|]. split; [done|]. rewrite Hhead by lia.
    f_equal. rewrite <- (slice_app_r body (i + 2) (next - 1) next) by lia. f_equal.
    rewrite slice_cons by lia. rewrite Hc. unfold slice.
    by replace (next - S (next - 1))%nat with 0%nat by lia.
Qed.

(* ------------------------------------------------------------------ *)
(** ** Templates *)

(** The source spelling of a part. *)
Definition render (p : StringPart) : list Z :=
  if Expression p then [cDollar; cLBrace] ++ Text p ++ [cRBrace] else Text p.

Definition render_all (parts : list StringPart) : list Z := concat (render <$> parts).

(** Every part starts where it is written, holes after their opening brace. *)
Fixpoint placed (start : Position) (parts : list StringPart) : Prop :=
  match parts with
  | [] => True
  | p :: parts =>
      part_Start p = (if Expression p then advance start [cDollar; cLBrace] else start) /\
      placed (advance start (render p)) parts
  end.

(** Text and holes alternate. *)
Fixpoint alternates (hole : bool) (parts : list StringPart) : Prop :=
  match parts with
  | [] => True
  | p :: parts => Expression p = hole /\ alternates (negb hole) parts
  end.

Lemma render_all_app a b : render_all (a ++ b) = render_all a ++ render_all b.
Proof. unfold render_all. by rewrite fmap_app, concat_app. Qed.

Lemma placed_snoc start parts p :
  placed start parts ->
  part_Start p = (let at_ := advance start (render_all parts) in
                  if Expression p then advance at_ [cDollar; cLBrace] else at_) ->
  placed start (parts ++ [p]).
Proof.
  revert start. induction parts as [|q parts IH]; intros start H Hp; cbn [placed app] in *; [by split|].
  destruct H as [Hq H]. split; [done|]. apply IH; [done|].
  rewrite Hp. unfold render_all. cbn [fmap list_fmap concat]. by rewrite advance_app.
Qed.

(** Pairs of a text and a hole, as the loop emits them. *)
Fixpoint paired (parts : list StringPart) : Prop :=
  match parts with
  | [] => True
  | p :: q :: parts => Expression p = false /\ Expression q = true /\ paired parts
  | _ => False
  end.

Lemma paired_app a b : paired a -> paired b -> paired (a ++ b).
Proof.
  revert a. fix IH 1. intros [|p [|q a]] Ha Hb; [done..|].
  destruct Ha as (Hp & Hq & Ha). cbn [app paired]. split; [done|]. split; [done|]. by apply IH.
Qed.

Lemma paired_alternates a p : paired a -> Expression p = false -> alternates false (a ++ [p]).
Proof.
  revert a. fix IH 1. intros [|x [|y a]] Ha Hp; [by repeat split|done|].
  destruct Ha as (Hx & Hy & Ha). cbn [app alternates negb]. split; [done|]. split; [done|]. by apply IH.
Qed.

Record split_inv (body : list Z) (start : Position) (i : nat) (s : split_state) : Prop := {
  inv_text : render_all (s_parts s) ++ s_text s = take i body;
  inv_pos : s_pos s = advance start (take i body);
  inv_start : s_textStart s = advance start (render_all (s_parts s));
  inv_placed : placed start (s_parts s);
  inv_paired : paired (s_parts s) }.

Lemma split_loop_fault fuel body i s f : s_fault s = Some f -> s_fault (split_loop fuel body i s) = Some f.
Proof.
  revert i s. induction fuel as [|fuel IH]; intros i s Hf; cbn [split_loop]; [done|].
  bcase; [|done]. bcase; [by apply IH|]. bcase; [|by apply IH].
  destruct (scanHole body i) as [[source next] closed]. apply IH. simpl. rewrite Hf. by destruct closed.
Qed.

(** Taking [n] more bytes of plain text. *)
Lemma split_inv_text body start i n s :
  (i + n <= length body)%nat -> split_inv body start i s ->
  split_inv body start (i + n)
    (Split_ (s_parts s) (advance (s_pos s) (slice body i (i + n))) (s_textStart s)
       (s_text s ++ slice body i (i + n)) (s_found s) (s_fault s)).
Proof.
  intros Hi []. assert (Ht : take (i + n) body = take i body ++ slice body i (i + n)).
  { rewrite <- !slice_0. symmetry. apply slice_app_r. lia. }
  split; cbn [s_parts s_pos s_textStart s_text]; try done.
  - by rewrite Ht, app_assoc, inv_text0.
  - by rewrite Ht, advance_app, inv_pos0.
Qed.

Lemma render_flush s : render_all (flushText s) = render_all (s_parts s) ++ s_text s.
Proof. unfold flushText. rewrite render_all_app. f_equal. unfold render_all. simpl. apply app_nil_r. Qed.

Lemma split_inv_hole body start i source next s :
  (i + 1 < length body)%nat -> body !!! i = cDollar -> body !!! (i + 1)%nat = cLBrace ->
  scanHole body i = (source, next, true) -> split_inv body start i s ->
  split_inv body start next
    (Split_ (flushText s ++ [Part source true (advance (s_pos s) [cDollar; cLBrace])])
       (advance (s_pos s) (slice body i next)) (advance (s_pos s) (slice body i next)) [] true (s_fault s)).
Proof.
  intros Hi Hd Hb Hs []. destruct (scanHole_spec _ _ _ _ _ Hi Hd Hb Hs) as (Hn & _ & Hsl).
  assert (Ht : take next body = take i body ++ slice body i next).
  { rewrite <- !slice_0. symmetry. apply slice_app_r. lia. }
  assert (Hflush : render_all (flushText s) = take i body).
  { by rewrite render_flush. }
  assert (Hall : render_all (flushText s ++ [Part source true (advance (s_pos s) [cDollar; cLBrace])])
    = take next body).
  { rewrite render_all_app, Hflush, Ht, Hsl. unfold render_all. cbn [fmap list_fmap concat render Expression Text].
    by rewrite app_nil_r. }
  assert (Hp : placed start (flushText s)) by (apply placed_snoc; [done | exact inv_start0]).
  split; cbn [s_parts s_pos s_textStart s_text].
  - by rewrite Hall, app_nil_r.
  - by rewrite Ht, advance_app, inv_pos0.
  - by rewrite Hall, Ht, advance_app, inv_pos0.
  - apply placed_snoc; [done|]. cbn [part_Start Expression]. by rewrite Hflush, inv_pos0.
  - unfold flushText. rewrite <- app_assoc. by apply paired_app.
Qed.

Lemma split_loop_inv fuel body start i s :
  (length body < i + fuel)%nat -> (i <= length body)%nat -> split_inv body start i s ->
  s_fault (split_loop fuel body i s) = None ->
  split_inv body start (length body) (split_loop fuel body i s).
Proof.
  revert i s. induction fuel as [|fuel IH]; intros i s Hf Hi Hinv Hn; [lia|]. cbn [split_loop] in *.
  destruct (Nat.ltb_spec i (length body)) as [Hlt|Hge].
  2:{ replace (length body) with i by lia. done. }
  destruct (Nat.ltb_spec (i + 1) (length body)) as [Hm|Hm]; rewrite ?andb_true_r, ?andb_false_r in *;
    cbn [andb] in *.
  - destruct (body !!! i =? cBackslash).
    { apply IH; [lia|lia| |done]. apply (split_inv_text body start i 2); [lia|done]. }
    destruct ((body !!! i =? cDollar) && (body !!! (i + 1)%nat =? cLBrace)) eqn:E; breflect.
    2:{ apply IH; [lia|lia| |done]. apply (split_inv_text body start i 1); [lia|done]. }
    destruct (scanHole body i) as [[source next] closed] eqn:Es.
    destruct (scanHole_spec body i source next closed) as (Hx & _ & _); [done..|].
    destruct closed.
    + apply IH; [lia|lia| |done]. by apply split_inv_hole.
    + exfalso. destruct (s_fault s) eqn:Ef; cbn [fault_or] in Hn;
        erewrite split_loop_fault in Hn by reflexivity; done.
  - apply IH; [lia|lia| |done]. apply (split_inv_text body start i 1); [lia|done].
Qed.

Lemma splitTemplate_inv body start parts found :
  contains_hole body = true -> splitTemplate body start = (parts, found, None) ->
  exists s, parts = flushText s /\ split_inv body start (length body) s.
Proof.
  intros Hc. unfold splitTemplate. rewrite Hc. cbn [negb].
  pose proof (split_loop_inv (S (length body)) body start 0 (Split_ [] start start [] false None)) as Hi.
  destruct (split_loop _ _ _ _) as [ps pos ts t fd flt] eqn:E. cbn [s_fault s_found].
  intros [= <- <- ->]. eexists. split; [done|]. apply Hi; [lia|lia|done|done].
Qed.

(* ------------------------------------------------------------------ *)
(** ** Block indentation *)

(** The bytes a reader sees: all but spaces, tabs and line endings. *)
Definition is_ink (b : Z) : Prop := b <> cSpace /\ b <> cTab /\ b <> cNewline /\ b <> cReturn.

#[export] Instance is_ink_dec b : Decision (is_ink b).
Proof. unfold is_ink. apply _. Defined.

Definition ink (s : list Z) : list Z := filter is_ink s.

Lemma ink_app a b : ink (a ++ b) = ink a ++ ink b.
Proof. apply list.filter_app. Qed.

Lemma ink_cons_white b s : ~ is_ink b -> ink (b :: s) = ink s.
Proof. intros H. unfold ink. by rewrite filter_cons_False. Qed.

Lemma Split_ne s sep : Split s sep <> [].
Proof. destruct s as [|c s]; cbn [Split]; [done|]. destruct (c =? sep); [done|]. by destruct (Split s sep). Qed.

Lemma Join_cons p ps sep : ps <> [] -> Join (p :: ps) sep = p ++ sep :: Join ps sep.
Proof. by destruct ps. Qed.

Lemma Join_Split s sep : Join (Split s sep) sep = s.
Proof.
  induction s as [|c s IH]; [done|]. cbn [Split]. destruct (Z.eqb_spec c sep) as [->|].
  - rewrite Join_cons by apply Split_ne. by rewrite IH.
  - destruct (Split s sep) as [|p ps] eqn:E; [by destruct (Split_ne s sep)|].
    destruct ps as [|q ps]; simpl in *; by rewrite IH.
Qed.

Lemma ink_Join ls : ink (Join ls cNewline) = concat (ink <$> ls).
Proof.
  induction ls as [|p ls IH]; [done|]. destruct ls as [|q ls].
  { cbn [Join fmap list_fmap concat]. by rewrite app_nil_r. }
  rewrite Join_cons by done. rewrite ink_app, ink_cons_white, IH by (unfold is_ink; tauto). done.
Qed.

Lemma trim_indent_split s :
  exists w, s = w ++ trim_indent s /\ ink w = [] /\ length w = (length s - length (trim_indent s))%nat.
Proof.
  induction s as [|c s (w & E & Hw & Hl)]; [by exists []|]. cbn [trim_indent].
  destruct ((c =? cSpace) || (c =? cTab)) eqn:Ec.
  - exists (c :: w). split; [by rewrite E at 1|]. split.
    + rewrite ink_cons_white; [done|]. unfold is_ink. apply orb_true_iff in Ec as [?|?]; breflect; tauto.
    + assert (length s = length w + length (trim_indent s))%nat
        by (rewrite E at 1; apply length_app). simpl. lia.
  - exists []. split; [done|]. split; [done|]. simpl. lia.
Qed.

Lemma ink_trim s : ink (trim_indent s) = ink s.
Proof. destruct (trim_indent_split s) as (w & E & Hw & _). rewrite E at 2. by rewrite ink_app, Hw. Qed.

Lemma ink_drop s n : (n <= length s - length (trim_indent s))%nat -> ink (drop n s) = ink s.
Proof.
  intros Hn. destruct (trim_indent_split s) as (w & E & Hw & Hl). rewrite E.
  rewrite drop_app_le by lia. rewrite !ink_app, Hw. f_equal.
  assert (ink (take n w ++ drop n w) = []) as H by (by rewrite take_drop).
  rewrite ink_app in H. by apply app_nil in H as [_ ->].
Qed.

Definition indent_of (line : list Z) : Z := zlen line - zlen (trim_indent line).

Lemma min_indent_le ind lines : 0 <= ind -> min_indent ind lines <= ind.
Proof.
  revert ind. induction lines as [|l lines IH]; intros ind Hi; cbn [min_indent]; [lia|].
  bcase; [by apply IH|]. fold (indent_of l).
  assert (0 <= indent_of l).
  { unfold indent_of, zlen. destruct (trim_indent_split l) as (w & E & _ & Hl).
    assert (length l = length w + length (trim_indent l))%nat by (rewrite E at 1; apply length_app). lia. }
  rewrite (proj2 (Z.ltb_ge ind 0)) by lia. cbn [orb].
  destruct (Z.ltb_spec (indent_of l) ind); [|by apply IH].
  etrans; [apply IH; lia|]. lia.
Qed.

Lemma min_indent_lower ind lines line :
  line ∈ lines -> trim_indent line <> [] -> min_indent ind lines <= indent_of line.
Proof.
  revert ind. induction lines as [|l lines IH]; intros ind Hin Hne; [by apply not_elem_of_nil in Hin|].
  cbn [min_indent]. apply elem_of_cons in Hin as [->|Hin].
  - destruct (trim_indent l) as [|b t] eqn:Et; [done|]. cbn [length Nat.eqb].
    rewrite <- Et in *. fold (indent_of l).
    assert (0 <= indent_of l).
    { unfold indent_of, zlen. destruct (trim_indent_split l) as (w & E & _ & Hl).
      assert (length l = length w + length (trim_indent l))%nat by (rewrite E at 1; apply length_app). lia. }
    destruct (Z.ltb_spec ind 0), (Z.ltb_spec (indent_of l) ind); cbn [orb];
      (etrans; [apply min_indent_le; lia|]); lia.
  - bcase; by apply IH.
Qed.

Lemma ink_strip_line m line :
  0 < m -> (trim_indent line <> [] -> m <= indent_of line) -> ink (strip_line m line) = ink line.
Proof.
  intros Hm Hw. unfold strip_line. destruct (Z.ltb_spec (zlen line) m); [apply ink_trim|].
  apply ink_drop. unfold indent_of, zlen in *.
  destruct (trim_indent line) as [|b t]; [simpl; lia|].
  assert (b :: t <> []) as Hne by done. specialize (Hw Hne). lia.
Qed.

Lemma IndexByte_split s b n :
  IndexByte s b = Some n -> s = take n s ++ b :: drop (n + 1) s.
Proof.
  revert n. induction s as [|c s IH]; intros n H; cbn [IndexByte] in H; [done|].
  destruct (Z.eqb_spec c b) as [->|]; [by simplify_eq|].
  destruct (IndexByte s b) as [m|] eqn:E; simplify_eq/=. by rewrite <- (IH m eq_refl).
Qed.

Lemma ink_blank s : (length (trim_indent s) =? 0)%nat = true -> ink s = [].
Proof.
  intros H%Nat.eqb_eq. destruct (trim_indent s) as [|] eqn:E; [|done]. by rewrite <- ink_trim, E.
Qed.

Lemma ink_strip_lines m lines :
  (forall line, line ∈ lines -> trim_indent line <> [] -> m <= indent_of line) ->
  concat (ink <$> (if 0 <? m then strip_line m <$> lines else lines)) = concat (ink <$> lines).
Proof.
  intros H. destruct (Z.ltb_spec 0 m) as [Hm|]; [|done]. f_equal.
  induction lines as [|l lines IH]; [done|]. cbn [fmap list_fmap]. f_equal.
  - apply ink_strip_line; [done|]. intros Hne. apply H; [by left|done].
  - apply IH. intros line Hl. apply H. by right.
Qed.

(** Stripping a block's indentation takes nothing a reader sees. *)
Lemma stripBlockIndent_ink body : ink (stripBlockIndent body) = ink body.
Proof.
  unfold stripBlockIndent. destruct (IndexByte body cNewline) as [n|] eqn:En; [|done].
  destruct (negb _) eqn:Eb; [done|]. apply negb_false_iff, ink_blank in Eb.
  assert (Hbody : ink body = ink (drop (n + 1) body)).
  { rewrite (IndexByte_split _ _ _ En) at 1. rewrite ink_app, Eb.
    apply ink_cons_white. unfold is_ink. tauto. }
  rewrite Hbody. set (rest := drop (n + 1) body) in *.
  set (lines := Split rest cNewline).
  assert (Hlines : ink rest = concat (ink <$> lines)) by (by rewrite <- ink_Join; subst lines; rewrite Join_Split).
  rewrite Hlines. destruct (length (trim_indent (List.last lines [])) =? 0)%nat eqn:El.
  - rewrite ink_Join, ink_strip_lines by (intros; by apply min_indent_lower).
    assert (Hsnoc : lines = removelast lines ++ [List.last lines []])
      by apply app_removelast_last, Split_ne.
    rewrite Hsnoc at 2. rewrite fmap_app, concat_app. cbn [fmap list_fmap concat].
    by rewrite (ink_blank _ El), !app_nil_r.
  - by rewrite ink_Join, ink_strip_lines by (intros; by apply min_indent_lower).
Qed.

(** Neither does replacing the line endings. *)
Lemma replace_crlf_ink s : ink (replace_crlf s) = ink s.
Proof.
  assert (H : forall n s, (length s < n)%nat -> ink (replace_crlf s) = ink s).
  { clear s. induction n as [|n IH]; intros s Hn; [lia|]. destruct s as [|a s]; [done|].
    cbn [replace_crlf]. destruct s as [|b s]; [done|].
    destruct ((a =? cReturn) && (b =? cNewline)) eqn:E; breflect.
    - subst. rewrite (ink_cons_white cReturn), !(ink_cons_white cNewline) by (unfold is_ink; tauto).
      apply IH. simpl in Hn. lia.
    - unfold ink. rewrite !(filter_cons _ a). fold (ink (b :: s)) (ink (replace_crlf (b :: s))).
      rewrite IH by (simpl in *; lia). done. }
  apply (H (S (length s))). lia.
Qed.

Lemma Split_ink s : ink <$> Split s 0 = Split (ink s) 0.
Proof.
  induction s as [|c s IH]; [done|]. cbn [Split]. destruct (Z.eqb_spec c 0) as [->|Hc].
  - cbn [fmap list_fmap]. rewrite IH. done.
  - destruct (Split s 0) as [|p ps] eqn:E; [by destruct (Split_ne s 0)|].
    cbn [fmap list_fmap] in *. destruct (decide (is_ink c)) as [Hi|Hi].
    + unfold ink at 1 3. rewrite !filter_cons_True by done. cbn [Split].
      rewrite (proj2 (Z.eqb_neq _ _)) by done. fold (ink s) (ink p). by rewrite <- IH.
    + rewrite !ink_cons_white by done. exact IH.
Qed.

Lemma Split_app t r sep : sep ∉ t -> Split (t ++ sep :: r) sep = t :: Split r sep.
Proof.
  induction t as [|c t IH]; intros Ht; cbn [app Split]; [by rewrite Z.eqb_refl|].
  apply not_elem_of_cons in Ht as [Hc Ht]. rewrite (proj2 (Z.eqb_neq _ _)) by congruence.
  by rewrite IH.
Qed.

Lemma Split_none t sep : sep ∉ t -> Split t sep = [t].
Proof.
  induction t as [|c t IH]; intros Ht; cbn [Split]; [done|].
  apply not_elem_of_cons in Ht as [Hc Ht]. rewrite (proj2 (Z.eqb_neq _ _)) by congruence.
  by rewrite IH.
Qed.

Definition texts (parts : list StringPart) : list (list Z) :=
  Text <$> filter (fun p => Expression p = false) parts.

(** Cutting the masked text at its NULs gives the text parts back. *)
Lemma Split_mask a p :
  paired a -> Expression p = false ->
  (forall q, q ∈ a ++ [p] -> Expression q = false -> 0 ∉ Text q) ->
  Split (mask_parts (a ++ [p])) 0 = texts (a ++ [p]).
Proof.
  revert a. fix IH 1. intros [|x [|y a]] Ha Hp H0; [| done |].
  - cbn [app mask_parts]. rewrite Hp, app_nil_r. unfold texts. rewrite filter_cons_True by done.
    cbn. apply Split_none, H0; [by left|done].
  - destruct Ha as (Hx & Hy & Ha). cbn [app mask_parts]. rewrite Hx, Hy.
    change (Text x ++ [0] ++ mask_parts (a ++ [p])) with (Text x ++ 0 :: mask_parts (a ++ [p])).
    rewrite Split_app by (apply H0; [by left|done]). unfold texts.
    rewrite filter_cons_True, filter_cons_False by (done || congruence). cbn [fmap list_fmap]. f_equal.
    apply IH; [done|done|]. intros q Hq. apply H0. by do 2 right.
Qed.

(* ------------------------------------------------------------------ *)
(** ** Properties *)

(** Every byte string can be written in an ordinary literal.  [unescape]
    gives back exactly the text whose special bytes were spelled with a
    backslash, and its early return for text without a backslash is what its
    loop would have answered. *)
Theorem unescape_roundtrip (s : list Z) :
  unescape (escape s) = s /\ unescape s = unescape_loop s.
Proof. split; rewrite unescape_is_loop; [apply unescape_loop_escape | done]. Qed.

(** Cutting an interpolated literal loses nothing.  When [splitTemplate]
    finds no open hole in a body that has a [${], the parts alternate between
    text and holes, beginning and ending with text; written back one after the
    other, holes in their braces, they are the body; and each part's recorded
    position is where it begins in the file. *)
Theorem template_split_roundtrip (body : list Z) (start : Position) (parts : list StringPart) (found : bool) :
  contains_hole body = true -> splitTemplate body start = (parts, found, None) ->
  render_all parts = body /\ placed start parts /\ alternates false parts /\
  Expression <$> list.last parts = Some false.
Proof.
  intros Hc H. destruct (splitTemplate_inv _ _ _ _ Hc H) as (s & -> & []).
  split; [|split; [|split]].
  - by rewrite render_flush, inv_text0, firstn_all.
  - apply placed_snoc; [done|]. exact inv_start0.
  - by apply paired_alternates.
  - unfold flushText. by rewrite list.last_snoc.
Qed.

(** The body a${b}\${c. *)
Definition template_sample : list Z := [97; 36; 123; 98; 125; 92; 36; 123; 99].

Lemma template_split_roundtrip_witness :
  render_all (splitTemplate template_sample (Pos 3 5 40)).1.1 = template_sample.
Proof.
  apply (template_split_roundtrip template_sample (Pos 3 5 40) _ true); vm_compute; reflexivity.
Defined.

(** Re-indenting a block literal never moves text across a hole.  For the
    parts of a triple-quoted template that holds no NUL, masking the holes,
    normalising the line endings, stripping the block's indentation and cutting
    at the mask gives one chunk per text part, in order, and each chunk shows
    the same characters (spaces, tabs and line endings aside) as the part it is
    assigned to. *)
Theorem block_template_keeps_text (body : list Z) (start : Position) (parts : list StringPart) (found : bool) :
  contains_hole body = true -> 0 ∉ body -> splitTemplate body start = (parts, found, None) ->
  ink <$> Split (stripBlockIndent (normalizeNewlines (mask_parts parts))) 0 = ink <$> texts parts.
Proof.
  intros Hc H0 H. destruct (splitTemplate_inv _ _ _ _ Hc H) as (s & -> & []).
  rewrite Split_ink, stripBlockIndent_ink, normalizeNewlines_is_replace, replace_crlf_ink.
  rewrite <- Split_ink. unfold flushText. rewrite Split_mask; [done|done|done|].
  intros q Hq He Hz. apply H0. rewrite firstn_all in inv_text0.
  rewrite <- inv_text0, <- render_flush. unfold render_all. apply list_elem_of_In, in_concat. exists (render q).
  rewrite <- !list_elem_of_In. split; [by apply list_elem_of_fmap_2|].
  unfold render. by rewrite He.
Qed.

(** An indented block of two lines with a hole in the first. *)
Definition block_sample : list Z := [10; 32; 32; 97; 36; 123; 120; 125; 32; 98; 13; 10; 32; 32; 99; 10; 32].

Lemma block_template_keeps_text_witness :
  let parts := (splitTemplate block_sample (Pos 1 1 0)).1.1 in
  ink <$> Split (stripBlockIndent (normalizeNewlines (mask_parts parts))) 0 = ink <$> texts parts.
Proof.
  apply (block_template_keeps_text block_sample (Pos 1 1 0) _ true).
  - reflexivity.
  - apply (bool_decide_unpack _). vm_compute. exact I.
  - vm_compute. reflexivity.
Defined.

(** A literal means the same however its file was checked out.  For text
    without carriage returns, the spelling with CRLF line endings and the one
    with LF normalise to the same string, the text itself. *)
Theorem line_endings_do_not_matter (s : list Z) :
  cReturn ∉ s -> normalizeNewlines (to_crlf s) = s /\ normalizeNewlines s = s.
Proof.
  intros H. rewrite !normalizeNewlines_is_replace. split; [by apply replace_to_crlf|].
  by apply replace_crlf_plain, no_crlf.
Qed.

Lemma line_endings_do_not_matter_witness :
  normalizeNewlines (to_crlf [97; 10; 98]) = [97; 10; 98].
Proof.
  apply (line_endings_do_not_matter [97; 10; 98]).
  apply (bool_decide_unpack _). vm_compute. exact I.
Defined.
