(* ===== verification/Lexer.v ===== *)
(** The lexer: [src/lexer/lexer.go].

    The cursor ([readRune] and the peeks), the scans (identifiers, numbers, the
    four string bodies, holes, comments) and [NextToken], over bytes decoded as
    UTF-8.  The Unicode category tables are an argument, a [Unicode] instance
    that is fixed on ASCII.  Loops carry fuel; a scan advances the cursor on
    every turn, so the length of the input is enough ([lexer_terminates] is the
    whole-program statement). *)

From stdpp Require Import base list list_numbers numbers.
From Stdlib Require Import ZArith Lia.
From S2P Require Import Prelude Text.

(* ------------------------------------------------------------------ *)
(** ** Runes *)

(** [unicode.IsLetter], [IsDigit] and [IsSpace]. *)
Class Unicode : Type := {
  IsLetter : Z -> bool;
  IsDigit : Z -> bool;
  IsSpace : Z -> bool;
  letter_ascii : forall r, 0 <= r < 128 ->
    IsLetter r = ((65 <=? r) && (r <=? 90)) || ((97 <=? r) && (r <=? 122));
  digit_ascii : forall r, 0 <= r < 128 -> IsDigit r = (48 <=? r) && (r <=? 57);
  space_ascii : forall r, 0 <= r < 128 -> IsSpace r = ((9 <=? r) && (r <=? 13)) || (r =? 32)
}.

Definition RuneError : Z := 65533.

Definition in_range (lo hi b : Z) : bool := (lo <=? b) && (b <=? hi).

(** [utf8.DecodeRuneInString]: the rune and its width; a byte that begins no
    well-formed sequence is [RuneError] of width 1.  The masked bytes do not
    overlap, so their shifts are added. *)
Definition DecodeRune (s : list Z) : Z * nat :=
  match s with
  | [] => (RuneError, 0%nat)
  | b0 :: s1 =>
      if b0 <? 0x80 then (b0, 1%nat)
      else if in_range 0xC2 0xDF b0 then
        match s1 with
        | b1 :: _ =>
            if in_range 0x80 0xBF b1 then (b0 mod 32 * 64 + b1 mod 64, 2%nat) else (RuneError, 1%nat)
        | _ => (RuneError, 1%nat)
        end
      else if in_range 0xE0 0xEF b0 then
        let lo := if b0 =? 0xE0 then 0xA0 else 0x80 in
        let hi := if b0 =? 0xED then 0x9F else 0xBF in
        match s1 with
        | b1 :: b2 :: _ =>
            if in_range lo hi b1 && in_range 0x80 0xBF b2
            then (b0 mod 16 * 4096 + b1 mod 64 * 64 + b2 mod 64, 3%nat) else (RuneError, 1%nat)
        | _ => (RuneError, 1%nat)
        end
      else if in_range 0xF0 0xF4 b0 then
        let lo := if b0 =? 0xF0 then 0x90 else 0x80 in
        let hi := if b0 =? 0xF4 then 0x8F else 0xBF in
        match s1 with
        | b1 :: b2 :: b3 :: _ =>
            if in_range lo hi b1 && in_range 0x80 0xBF b2 && in_range 0x80 0xBF b3
            then (b0 mod 8 * 262144 + b1 mod 64 * 4096 + b2 mod 64 * 64 + b3 mod 64, 4%nat)
            else (RuneError, 1%nat)
        | _ => (RuneError, 1%nat)
        end
      else (RuneError, 1%nat)
  end.

(** [utf8.RuneStart]. *)
Definition RuneStart (b : Z) : bool := negb (in_range 0x80 0xBF b).

(** The backwards walk of [utf8.DecodeLastRuneInString], at most three bytes. *)
Fixpoint rune_start_before (n : nat) (s : list Z) (start : nat) : option nat :=
  match n, start with
  | S n, S start =>
      if RuneStart (s !!! start) then Some start else rune_start_before n s start
  | _, _ => None
  end.

Definition DecodeLastRune (s : list Z) : Z :=
  match length s with
  | O => RuneError
  | S last =>
      if s !!! last <? 0x80 then s !!! last
      else
        let start := if RuneStart (s !!! last) then last
                     else default last (rune_start_before 3 s last) in
        let '(r, size) := DecodeRune (drop start s) in
        if (start + size =? length s)%nat then r else RuneError
  end.

(** [string(r)]. *)
Definition encodeRune (r : Z) : list Z :=
  if in_range 0 0x7F r then [r]
  else if in_range 0x80 0x7FF r then [0xC0 + r / 64; 0x80 + r mod 64]
  else if in_range 0x800 0xFFFF r && negb (in_range 0xD800 0xDFFF r) then
    [0xE0 + r / 4096; 0x80 + r / 64 mod 64; 0x80 + r mod 64]
  else if in_range 0x10000 0x10FFFF r then
    [0xF0 + r / 262144; 0x80 + r / 4096 mod 64; 0x80 + r / 64 mod 64; 0x80 + r mod 64]
  else [0xEF; 0xBF; 0xBD].

(* ------------------------------------------------------------------ *)
(** ** The cursor *)

Record Lexer : Type := Lx {
  input : list Z; position : nat; readPosition : nat; ch : Z;
  line : Z; lineStart : nat; origin : Position; comments : list Comment }.

Definition currentPos (l : Lexer) : Position :=
  let column := Z.of_nat (position l) - Z.of_nat (lineStart l) + 1 in
  let column := if (lineStart l =? 0)%nat then column + (Column (origin l) - 1) else column in
  Pos (line l + Line (origin l) - 1) column (Z.of_nat (position l) + Offset (origin l)).

Definition atEOF (l : Lexer) : bool := (length (input l) <=? position l)%nat.

Definition more (l : Lexer) : bool := (readPosition l <? length (input l))%nat.

Definition readRune (l : Lexer) : Lexer :=
  let '(line', lineStart') :=
    if ch l =? cNewline then (line l + 1, readPosition l) else (line l, lineStart l) in
  let '(ch', width) :=
    if (length (input l) <=? readPosition l)%nat then (0, 1%nat)
    else DecodeRune (drop (readPosition l) (input l)) in
  Lx (input l) (Nat.min (readPosition l) (length (input l))) (readPosition l + width) ch'
     line' lineStart' (origin l) (comments l).

(** [NewAt] and [New]. *)
Definition NewAt (input : list Z) (at_ : Position) : Lexer :=
  readRune (Lx input 0 0 0 1 0 at_ []).

Definition New (input : list Z) : Lexer := NewAt input (Pos 1 1 0).

Definition prevRune (l : Lexer) : Z :=
  if (position l =? 0)%nat then 0 else DecodeLastRune (take (position l) (input l)).

Definition peekRune (l : Lexer) : Z :=
  if (length (input l) <=? readPosition l)%nat then 0
  else (DecodeRune (drop (readPosition l) (input l))).1.

Definition nextRune (l : Lexer) : Z := peekRune l.

(** The walk of [peekRuneAt]: [n] runes from [idx]. *)
Fixpoint peek_from (n : nat) (s : list Z) (idx : nat) : Z :=
  if (length s <=? idx)%nat then 0
  else
    let '(r, width) := DecodeRune (drop idx s) in
    match n with
    | O => r
    | S n => peek_from n s (idx + width)
    end.

Definition peekRuneAt (n : nat) (l : Lexer) : Z :=
  match n with
  | O => 0
  | S n => peek_from n (input l) (readPosition l)
  end.

(** [l.input[i:j]]. *)
Definition text_of (l : Lexer) (i j : nat) : list Z := slice (input l) i j.

(** The loop every simple scan is: read runes while a test holds. *)
Fixpoint read_while (fuel : nat) (p : Lexer -> bool) (l : Lexer) : Lexer :=
  match fuel with
  | O => l
  | S fuel => if p l then read_while fuel p (readRune l) else l
  end.

Definition fuel_of (l : Lexer) : nat := S (length (input l)).

(* ------------------------------------------------------------------ *)
(** ** String bodies *)

(** The string inside a hole in [skipHole]; the flag says a quote was found. *)
Fixpoint skip_hole_string (fuel : nat) (l : Lexer) : Lexer * bool :=
  match fuel with
  | O => (l, false)
  | S fuel =>
      let l := readRune l in
      if atEOF l then (l, false)
      else if ch l =? cQuote then (l, true)
      else if (ch l =? cBackslash) && more l then skip_hole_string fuel (readRune l)
      else skip_hole_string fuel l
  end.

(** The loop of [skipHole]; the flag says the hole was closed. *)
Fixpoint skip_hole_loop (fuel : nat) (l : Lexer) (depth : nat) : Lexer * bool :=
  match fuel with
  | O => (l, false)
  | S fuel =>
      if (0 <? depth)%nat then
        let l := readRune l in
        if atEOF l then (l, false)
        else if ch l =? cLBrace then skip_hole_loop fuel l (S depth)
        else if ch l =? cRBrace then skip_hole_loop fuel l (depth - 1)
        else if ch l =? cQuote then
          let '(l, found) := skip_hole_string (fuel_of l) l in
          if found then skip_hole_loop fuel l depth else (l, false)
        else skip_hole_loop fuel l depth
      else (l, true)
  end.

Definition skipHole (l : Lexer) : Lexer * scanFault :=
  let open := currentPos l in
  let l := readRune l in
  let '(l, closed) := skip_hole_loop (fuel_of l) l 1 in
  (l, if closed then None else Some (faultOpenHole, open)).

(** [readQuotedBody]: the cursor, whether the quote was found, the fault. *)
Fixpoint quoted_loop (fuel : nat) (l : Lexer) (fault : scanFault) : Lexer * bool * scanFault :=
  match fuel with
  | O => (l, false, fault)
  | S fuel =>
      let l := readRune l in
      if atEOF l then (l, false, fault)
      else if ch l =? cQuote then (l, true, fault)
      else if (ch l =? cBackslash) && more l then quoted_loop fuel (readRune l) fault
      else if (ch l =? cDollar) && (peekRune l =? cLBrace) then
        let '(l, f) := skipHole l in quoted_loop fuel l (fault_or fault f)
      else quoted_loop fuel l fault
  end.

Definition readQuotedBody (l : Lexer) : Lexer * list Z * bool * scanFault :=
  let start := readPosition l in
  let '(l, found, fault) := quoted_loop (fuel_of l) l None in
  (l, text_of l start (position l), found, fault).

(** [readRawBody]. *)
Fixpoint raw_loop (fuel : nat) (l : Lexer) : Lexer * bool :=
  match fuel with
  | O => (l, false)
  | S fuel =>
      let l := readRune l in
      if atEOF l then (l, false)
      else if ch l =? cQuote then (l, true)
      else raw_loop fuel l
  end.

Definition readRawBody (l : Lexer) : Lexer * list Z * bool :=
  let start := readPosition l in
  let '(l, found) := raw_loop (fuel_of l) l in
  (l, text_of l start (position l), found).

(** [readTripleBody]: the cursor, the end of the body, whether it was closed. *)
Fixpoint triple_loop (fuel : nat) (raw : bool) (l : Lexer) : Lexer * nat * bool :=
  match fuel with
  | O => (l, position l, false)
  | S fuel =>
      let l := readRune l in
      if atEOF l then (l, position l, false)
      else if (ch l =? cQuote) && (peekRune l =? cQuote) && (peekRuneAt 2 l =? cQuote) then
        (readRune (readRune l), position l, true)
      else if negb raw && (ch l =? cBackslash) && more l then triple_loop fuel raw (readRune l)
      else triple_loop fuel raw l
  end.

Definition readTripleBody (raw : bool) (l : Lexer) : Lexer * list Z * bool :=
  let l := readRune (readRune l) in
  let start := readPosition l in
  let '(l, end_, terminated) := triple_loop (fuel_of l) raw l in
  (l, text_of l start end_, terminated).

(* ------------------------------------------------------------------ *)
(** ** Tokens *)

Definition no_pos : Position := Pos 0 0 0.

Definition plain_token (t : TokenType) (lit : list Z) : Token := Tok t lit no_pos no_pos [] [] None.

Definition newToken (t : TokenType) (c : Z) : Token := plain_token t (encodeRune c).

Definition illegal_token (lit raw : list Z) (e : option token_err) : Token :=
  Tok ILLEGAL lit no_pos no_pos raw [] e.

Definition with_span (tok : Token) (start end_ : Position) : Token :=
  Tok (Type_ tok) (Literal tok) start end_ (Raw tok) (Parts tok) (Err tok).

Definition fault_err (f : scanFault) : option token_err :=
  match f with Some (why, at_) => Some (ErrFault why at_) | None => None end.

(** [bodyPosition]. *)
Definition bodyPosition (triple : bool) (l : Lexer) : Position :=
  let skip := if triple then 3 else 1 in
  let pos := currentPos l in
  Pos (Line pos) (Column pos + skip) (Offset pos + skip).

(** [readStringToken]. *)
Definition readStringToken (openIndex : nat) (raw triple : bool) (l : Lexer) : Lexer * Token :=
  let bodyStart := bodyPosition triple l in
  let '(l, body, terminated, fault) :=
    if triple then let '(l, body, ok) := readTripleBody raw l in (l, body, ok, None)
    else if raw then let '(l, body, ok) := readRawBody l in (l, body, ok, None)
    else readQuotedBody l in
  let spelling := text_of l openIndex (Nat.min (readPosition l) (length (input l))) in
  let fault :=
    match IndexByte body 0 with
    | Some at_ => fault_or fault (Some (faultNUL, advance bodyStart (take at_ body)))
    | None => fault
    end in
  match fault with
  | Some _ => (l, illegal_token spelling spelling (fault_err fault))
  | None =>
      if negb terminated then (l, Tok UNTERMINATED body no_pos no_pos spelling [] None)
      else
        let template :=
          if raw then None
          else
            let '(parts, interpolated, holeFault) := splitTemplate body bodyStart in
            match holeFault with
            | Some _ => Some (illegal_token spelling spelling (fault_err holeFault))
            | None =>
                if interpolated
                then Some (Tok TEMPLATE body no_pos no_pos spelling (decodeParts parts triple) None)
                else None
            end in
        match template with
        | Some tok => (l, tok)
        | None =>
            let decoded := if triple then stripBlockIndent (normalizeNewlines body) else body in
            let decoded := if raw then decoded else unescape decoded in
            (l, Tok STRING decoded no_pos no_pos (if raw || triple then spelling else []) [] None)
        end
  end.

Section Scanner.
Context `{Unicode}.

(** [readIdentifier] and [readNumber]. *)
Definition ident_rune (l : Lexer) : bool := IsLetter (ch l) || IsDigit (ch l) || (ch l =? 95).

Definition readIdentifier (l : Lexer) : Lexer * list Z :=
  let l' := read_while (fuel_of l) ident_rune l in
  (l', text_of l' (position l) (position l')).

(** The loop of [readNumber]: a point is taken only between two digits. *)
Fixpoint number_loop (fuel : nat) (l : Lexer) (flag : bool) : Lexer * bool :=
  match fuel with
  | O => (l, flag)
  | S fuel =>
      if IsDigit (ch l) || (ch l =? 46) then
        if ch l =? 46 then
          if negb (IsDigit (prevRune l) && IsDigit (nextRune l)) then (l, flag)
          else number_loop fuel (readRune l) true
        else number_loop fuel (readRune l) flag
      else (l, flag)
  end.

Definition readNumber (l : Lexer) : Lexer * list Z * bool :=
  let '(l', flag) := number_loop (fuel_of l) l false in
  (l', text_of l' (position l) (position l'), flag).

Definition skipWhiteSpace (l : Lexer) : Lexer :=
  read_while (fuel_of l) (fun l => IsSpace (ch l)) l.

(** [skipLineComment]. *)
Definition skipLineComment (l : Lexer) : Lexer * scanFault :=
  let start := currentPos l in
  let from := position l in
  let l := read_while (fuel_of l) (fun l => negb (ch l =? cNewline) && negb (atEOF l)) l in
  let end_ := currentPos l in
  let text := text_of l from (position l) in
  let '(text, end_) :=
    if bool_decide (list.last text = Some cReturn)
    then (take (length text - 1) text, Pos (Line end_) (Column end_ - 1) (Offset end_ - 1))
    else (text, end_) in
  let l := Lx (input l) (position l) (readPosition l) (ch l) (line l) (lineStart l) (origin l)
              (comments l ++ [LineComment text start end_]) in
  (l, match IndexByte text 0 with
      | Some at_ => Some (faultNUL, advance start (take at_ text))
      | None => None
      end).

(** [skipTrivia]: every comment takes at least its two slashes. *)
Fixpoint trivia_loop (fuel : nat) (l : Lexer) (fault : scanFault) : Lexer * scanFault :=
  match fuel with
  | O => (l, fault)
  | S fuel =>
      let l := skipWhiteSpace l in
      if (ch l =? 47) && (peekRune l =? 47) then
        let '(l, f) := skipLineComment l in trivia_loop fuel l (fault_or fault f)
      else (l, fault)
  end.

Definition skipTrivia (l : Lexer) : Lexer * scanFault := trivia_loop (fuel_of l) l None.

(** The arms of the switch that read a second character: the token type for
    each, in order, and the type when none of them follows. *)
Definition two_rune (l : Lexer) (t : TokenType) : Lexer * Token :=
  let first := encodeRune (ch l) in
  let l := readRune l in
  (l, plain_token t (first ++ encodeRune (ch l))).

Fixpoint op_arm (l : Lexer) (seconds : list (Z * TokenType)) (single : TokenType) : Lexer * Token :=
  match seconds with
  | [] => (l, newToken single (ch l))
  | (c, t) :: rest => if peekRune l =? c then two_rune l t else op_arm l rest single
  end.

(** [<] and [>]: the doubled form may be followed by [=]. *)
Definition shift_arm (l : Lexer) (c : Z) (shl shl_assign le lt : TokenType) : Lexer * Token :=
  if peekRune l =? c then
    let first := encodeRune (ch l) in
    let l := readRune l in
    if peekRune l =? 61 then
      let first := first ++ encodeRune (ch l) in
      let l := readRune l in
      (l, plain_token shl_assign (first ++ encodeRune (ch l)))
    else (l, plain_token shl (first ++ encodeRune (ch l)))
  else if peekRune l =? 61 then two_rune l le
  else (l, newToken lt (ch l)).

(** The punctuation arms of the switch in [scanToken]; [None] is the default
    arm. *)
Definition punctuation (l : Lexer) : option (Lexer * Token) :=
  let c := ch l in
  if c =? 61 (* = *) then Some (op_arm l [(61, EQUALITY); (62, FATARROW)] ASSIGN)
  else if c =? 43 (* + *) then Some (op_arm l [(61, PLUS_ASSIGN); (43, INCREMENT)] PLUS)
  else if c =? 45 (* - *) then Some (op_arm l [(61, MINUS_ASSIGN); (45, DECREMENT)] MINUS)
  else if c =? 42 (* * *) then Some (op_arm l [(61, ASTERISK_ASSIGN)] ASTERISK)
  else if c =? 47 (* / *) then Some (op_arm l [(61, SLASH_ASSIGN)] FSLASH)
  else if c =? 92 (* \ *) then Some (l, illegal_token (encodeRune c) [] (Some ErrBackslash))
  else if c =? 37 (* % *) then Some (op_arm l [(61, MODULO_ASSIGN)] MODULO)
  else if c =? 60 (* < *) then Some (shift_arm l 60 SHL SHL_ASSIGN LTE LT)
  else if c =? 62 (* > *) then Some (shift_arm l 62 SHR SHR_ASSIGN GTE GT)
  else if c =? 33 (* ! *) then Some (op_arm l [(61, INEQUALITY)] BANG)
  else if c =? 38 (* & *) then Some (op_arm l [(38, AND); (61, AND_ASSIGN)] AMPERSAND)
  else if c =? 124 (* | *) then Some (op_arm l [(124, OR); (61, OR_ASSIGN)] PIPE)
  else if c =? 94 (* ^ *) then Some (op_arm l [(61, XOR_ASSIGN)] CARET)
  else if c =? 126 (* ~ *) then Some (l, newToken TILDE c)
  else if c =? 40 (* ( *) then Some (l, newToken LPAREN c)
  else if c =? 41 (* ) *) then Some (l, newToken RPAREN c)
  else if c =? 123 (* { *) then Some (l, newToken LBRACE c)
  else if c =? 125 (* } *) then Some (l, newToken RBRACE c)
  else if c =? 91 (* [ *) then Some (l, newToken LSQUARE c)
  else if c =? 93 (* ] *) then Some (l, newToken RSQUARE c)
  else if c =? 44 (* , *) then Some (l, newToken COMMA c)
  else if c =? 58 (* : *) then Some (l, newToken COLON c)
  else if c =? 46 (* . *) then Some (l, newToken DOT c)
  else if c =? 59 (* ; *) then Some (l, newToken SEMICOLON c)
  else None.

Definition opens_triple (l : Lexer) : bool :=
  (peekRune l =? cQuote) && (peekRuneAt 2 l =? cQuote).

(** The number arm of the default case. *)
Definition scan_number (start : Position) (l : Lexer) : Lexer * Token :=
  let '(l, val, isFloat) := readNumber l in
  if IsLetter (ch l) || (ch l =? 95) then
    let '(l, suffix) := readIdentifier l in
    (l, with_span (illegal_token (val ++ suffix) [] (Some (ErrNumber val suffix))) start (currentPos l))
  else
    (l, with_span (plain_token (if isFloat then FLOAT else INT) val) start (currentPos l)).

(** [scanToken]. *)
Definition scanToken (l : Lexer) : Lexer * Token :=
  let '(l, fault) := skipTrivia l in
  match fault with
  | Some (why, at_) =>
      (l, with_span (illegal_token [0] [] (Some (ErrFault why at_))) at_
            (Pos (Line at_) (Column at_ + 1) (Offset at_ + 1)))
  | None =>
      let start := currentPos l in
      let startIndex := position l in
      if atEOF l then (l, with_span (newToken EOF (ch l)) start start)
      else
        let finish (r : Lexer * Token) : Lexer * Token :=
          let l := readRune r.1 in (l, with_span r.2 start (currentPos l)) in
        match punctuation l with
        | Some r => finish r
        | None =>
            if ch l =? cQuote then finish (readStringToken startIndex false (opens_triple l) l)
            else if ch l =? 0 then
              finish (l, illegal_token (encodeRune 0) [] (Some (ErrFault faultNUL start)))
            else if (ch l =? 114) && (peekRune l =? cQuote) then
              let l := readRune l in finish (readStringToken startIndex true (opens_triple l) l)
            else if IsLetter (ch l) || (ch l =? 95) then
              let '(l, lit) := readIdentifier l in
              (l, with_span (plain_token (LookupIdent lit) lit) start (currentPos l))
            else if IsDigit (ch l) then scan_number start l
            else finish (l, newToken ILLEGAL (ch l))
        end
  end.

(** [NextToken]. *)
Definition NextToken (l : Lexer) : Lexer * Token :=
  let '(l, tok) := scanToken l in
  if bool_decide (Type_ tok = EOF) || (Offset (Start tok) <? Offset (End_ tok)) then (l, tok)
  else
    let lit := encodeRune (ch l) in
    let l := readRune l in
    (l, Tok ILLEGAL lit (Start tok) (currentPos l) (Raw tok) (Parts tok) (Err tok)).

(** Reading the lexer until it says EOF, as every caller does. *)
Fixpoint tokens (fuel : nat) (l : Lexer) : option (list Token) :=
  match fuel with
  | O => None
  | S fuel =>
      let '(l, tok) := NextToken l in
      if bool_decide (Type_ tok = EOF) then Some [tok]
      else cons tok <$> tokens fuel l
  end.
End Scanner.

(** The ASCII categories, for the examples. *)
#[export] Instance ascii_unicode : Unicode := {
  IsLetter r := ((65 <=? r) && (r <=? 90)) || ((97 <=? r) && (r <=? 122));
  IsDigit r := (48 <=? r) && (r <=? 57);
  IsSpace r := ((9 <=? r) && (r <=? 13)) || (r =? 32);
  letter_ascii _ _ := eq_refl; digit_ascii _ _ := eq_refl; space_ascii _ _ := eq_refl
}.

(* ------------------------------------------------------------------ *)
(** ** The cursor invariant *)

(** A rune below 128 is one byte, itself; any other is bytes of 128 and up. *)
Lemma DecodeRune_spec b s :
  let '(r, w) := DecodeRune (b :: s) in
  (1 <= w <= S (length s))%nat /\
  (b < 128 -> r = b /\ w = 1%nat) /\
  (128 <= b -> 128 <= r /\ Forall (fun x => 128 <= x) (take w (b :: s))).
Proof.
  unfold DecodeRune, in_range, RuneError. destruct (Z.ltb_spec b 128).
  { split; [lia|]. split; [done|lia]. }
  destruct ((194 <=? b) && (b <=? 223)) eqn:E2; [|destruct ((224 <=? b) && (b <=? 239)) eqn:E3;
    [|destruct ((240 <=? b) && (b <=? 244)) eqn:E4]]; breflect;
    [destruct s as [|b1 s]|destruct s as [|b1 [|b2 s]]|destruct s as [|b1 [|b2 [|b3 s]]]|];
    bcases; cbn [length take]; (split; [lia|]; split; [lia|]); intros _;
    (split; [Z.to_euclidean_division_equations; lia | repeat constructor; lia]).
Qed.

(** The cursor is on the rune at its position, and its position is where
    [advance] says that byte of the file is. *)
Record cursor_ok (l : Lexer) : Prop := {
  cur_in : (position l <= length (input l))%nat;
  cur_rune : (position l < length (input l))%nat ->
    readPosition l = (position l + (DecodeRune (drop (position l) (input l))).2)%nat /\
    ch l = (DecodeRune (drop (position l) (input l))).1;
  cur_end : position l = length (input l) -> ch l = 0 /\ (length (input l) <= readPosition l)%nat;
  cur_pos : currentPos l = advance (origin l) (take (position l) (input l)) }.

Lemma advance_no_newline pos s :
  cNewline ∉ s -> advance pos s = Pos (Line pos) (Column pos + zlen s) (Offset pos + zlen s).
Proof.
  revert pos. induction s as [|b s IH]; intros pos Hs; cbn [advance].
  { destruct pos. unfold zlen. simpl. f_equal; lia. }
  apply not_elem_of_cons in Hs as [Hb Hs]. rewrite (proj2 (Z.eqb_neq _ _)) by congruence.
  rewrite IH by done. unfold zlen. simpl. f_equal; lia.
Qed.

(** The bytes of the rune under the cursor. *)
Lemma rune_bytes s p :
  (p < length s)%nat ->
  let '(r, w) := DecodeRune (drop p s) in
  (1 <= w)%nat /\ (p + w <= length s)%nat /\
  (r = cNewline -> slice s p (p + w) = [cNewline]) /\
  (r <> cNewline -> cNewline ∉ slice s p (p + w)) /\
  (r < 128 -> w = 1%nat /\ s !!! p = r) /\ (s !!! p < 128 -> r = s !!! p).
Proof.
  intros Hp. destruct (lookup_lt_is_Some_2 s p Hp) as [b Hb].
  pose proof (drop_S _ _ _ Hb) as Hd. rewrite (list_lookup_total_correct _ _ _ Hb).
  pose proof (DecodeRune_spec b (drop (S p) s)) as H. rewrite <- Hd in H.
  destruct (DecodeRune (drop p s)) as [r w]. unfold slice.
  replace (p + w - p)%nat with w by lia. rewrite Hd in *.
  destruct H as (Hw & Hlo & Hhi). rewrite length_drop in Hw.
  destruct (Z.ltb_spec b 128) as [Hb1|Hb1].
  - destruct (Hlo Hb1) as [-> ->]. split; [lia|]. split; [lia|]. split; [|split; [|split; done]].
    + intros ->. done.
    + intros Hne. simpl. intros Hin%list_elem_of_singleton. congruence.
  - destruct (Hhi Hb1) as [Hr Hall]. split; [lia|]. split; [lia|].
    assert (cNewline < 128) by (unfold cNewline; lia). split; [lia|]. split; [|split; lia].
    intros _ Hin. rewrite list.Forall_forall in Hall. specialize (Hall _ Hin). lia.
Qed.

Lemma take_slice s p q : (p <= q)%nat -> take q s = take p s ++ slice s p q.
Proof. intros H. rewrite <- !slice_0. symmetry. apply slice_app_r. lia. Qed.

(** [readRune] onto any position whose bytes the counters have accounted for. *)
Lemma readRune_fields l :
  input (readRune l) = input l /\ origin (readRune l) = origin l /\ comments (readRune l) = comments l /\
  position (readRune l) = Nat.min (readPosition l) (length (input l)).
Proof. unfold readRune. destruct (ch l =? cNewline), (_ <=? _)%nat; try destruct (DecodeRune _); done. Qed.

Lemma readRune_loaded l :
  let l' := readRune l in
  ((position l' < length (input l'))%nat ->
     readPosition l' = (position l' + (DecodeRune (drop (position l') (input l'))).2)%nat /\
     ch l' = (DecodeRune (drop (position l') (input l'))).1) /\
  (position l' = length (input l') -> ch l' = 0 /\ (length (input l') <= readPosition l')%nat).
Proof.
  unfold readRune. destruct (ch l =? cNewline);
  (destruct (Nat.leb_spec (length (input l)) (readPosition l)) as [Hle|Hlt];
   [split; simpl; [lia|intros _; split; [done|lia]]|];
   destruct (DecodeRune (drop (readPosition l) (input l))) as [r w] eqn:E; simpl;
   rewrite Nat.min_l by lia; rewrite E; split; [done|lia]).
Qed.

Lemma readRune_ok l : cursor_ok l -> cursor_ok (readRune l).
Proof.
  intros [Hin Hrune Hend Hpos]. destruct (readRune_fields l) as (Ei & Eo & _ & Ep).
  destruct (readRune_loaded l) as [H1 H2]. split; [rewrite Ep, Ei; lia|done|done|].
  rewrite Ei, Eo, Ep. destruct (decide (position l = length (input l))) as [E|Hne].
  - destruct (Hend E) as [Hch Hr]. rewrite Nat.min_r by lia.
    rewrite <- E, <- Hpos.
    unfold currentPos, readRune. rewrite Hch. cbn [Z.eqb cNewline].
    rewrite (proj2 (Nat.leb_le _ _) Hr). cbn [position lineStart line origin].
    by rewrite Nat.min_r, E by lia.
  - assert (Hlt : (position l < length (input l))%nat) by lia.
    destruct (Hrune Hlt) as [Hrp Hch]. pose proof (rune_bytes (input l) (position l) Hlt) as Hb.
    destruct (DecodeRune (drop (position l) (input l))) as [r w]. cbn [fst snd] in *.
    destruct Hb as (Hw & Hle & Hnl & Hno & _). rewrite Hrp, Nat.min_l by lia.
    rewrite (take_slice (input l) (position l)), advance_app, <- Hpos by lia.
    assert (Hcp : forall ln ls c rp, currentPos (Lx (input l) (position l + w) rp c ln ls (origin l) (comments l))
      = Pos (ln + Line (origin l) - 1)
          (let col := Z.of_nat (position l + w) - Z.of_nat ls + 1 in
           if (ls =? 0)%nat then col + (Column (origin l) - 1) else col)
          (Z.of_nat (position l + w) + Offset (origin l))) by done.
    assert (Hrr : exists c rp, readRune l = Lx (input l) (position l + w) rp c
        (if r =? cNewline then line l + 1 else line l)
        (if r =? cNewline then (position l + w)%nat else lineStart l) (origin l) (comments l)).
    { unfold readRune. rewrite Hch, Hrp.
      destruct (r =? cNewline), (length (input l) <=? position l + w)%nat; try destruct (DecodeRune (drop (position l + w) (input l)));
        rewrite Nat.min_l by lia; eexists _, _; reflexivity. }
    destruct Hrr as (c & rp & ->). rewrite Hcp. destruct (Z.eqb_spec r cNewline) as [Er|Er].
    + rewrite (Hnl Er). cbn [advance]. rewrite Z.eqb_refl.
      assert (w = 1%nat) as ->.
      { apply Hnl in Er. apply (f_equal length) in Er. rewrite length_slice in Er by lia. simpl in Er. lia. }
      unfold currentPos. cbn [Line Offset]. rewrite (proj2 (Nat.eqb_neq _ _)) by lia. f_equal; lia.
    + rewrite advance_no_newline by auto. unfold zlen. rewrite length_slice by lia.
      unfold currentPos. cbn [Line Column Offset].
      destruct (lineStart l =? 0)%nat; f_equal; lia.
Qed.

(* ------------------------------------------------------------------ *)
(** ** Every scan moves the cursor forward *)

(** [l'] is the same lexer further along. *)
Definition moves (l l' : Lexer) : Prop :=
  cursor_ok l -> cursor_ok l' /\ input l' = input l /\ origin l' = origin l /\
    (position l <= position l')%nat.

Lemma moves_refl l : moves l l.
Proof. by intros H. Qed.

Lemma moves_trans l1 l2 l3 : moves l1 l2 -> moves l2 l3 -> moves l1 l3.
Proof.
  intros H12 H23 H. destruct (H12 H) as (Hok & Ei & Eo & Hp).
  destruct (H23 Hok) as (Hok' & Ei' & Eo' & Hp'). split; [done|]. split; [congruence|].
  split; [congruence|lia].
Qed.

(** One rune is one step: the position it reads is the next one, and it is
    further along unless the input has ended. *)
Lemma readRune_advances l :
  cursor_ok l -> (position l < length (input l))%nat -> (position l < position (readRune l))%nat.
Proof.
  intros Hok Hlt. destruct (readRune_fields l) as (_ & _ & _ & ->).
  destruct (cur_rune l Hok Hlt) as [-> _]. pose proof (rune_bytes (input l) (position l) Hlt) as Hb.
  destruct (DecodeRune _) as [r w]. cbn [snd]. lia.
Qed.

Lemma moves_readRune l : moves l (readRune l).
Proof.
  intros Hok. split; [by apply readRune_ok|]. destruct (readRune_fields l) as (Ei & Eo & _ & Ep).
  split; [done|]. split; [done|]. destruct (decide (position l = length (input l))) as [E|Hne].
  - destruct (cur_end l Hok E) as [_ Hr]. lia.
  - apply Nat.lt_le_incl, readRune_advances; [done|]. pose proof (cur_in l Hok). lia.
Qed.

Lemma moves_then_read l l' : moves l l' -> moves l (readRune l').
Proof. intros H. eapply moves_trans; [exact H|apply moves_readRune]. Qed.

Lemma moves_read_then l l' : moves (readRune l) l' -> moves l l'.
Proof. intros H. eapply moves_trans; [apply moves_readRune|exact H]. Qed.

#[export] Hint Resolve moves_refl moves_readRune moves_then_read : mutant.

Lemma moves_read_while fuel p l : moves l (read_while fuel p l).
Proof.
  revert l. induction fuel as [|fuel IH]; intros l; cbn [read_while]; [apply moves_refl|].
  destruct (p l); [apply moves_read_then, IH | apply moves_refl].
Qed.

(** What a scan that returns a cursor and something else does. *)
Ltac scan_step IH :=
  repeat first
    [ apply moves_refl | apply IH | apply moves_readRune
    | (eapply moves_trans; [|apply IH])
    | apply moves_then_read
    | match goal with |- context [if ?b then _ else _] => destruct b end ].

Lemma moves_skip_hole_string fuel l : moves l (skip_hole_string fuel l).1.
Proof.
  revert l. induction fuel as [|fuel IH]; intros l; cbn [skip_hole_string]; [apply moves_refl|].
  scan_step IH.
Qed.

Lemma moves_skip_hole_loop fuel l depth : moves l (skip_hole_loop fuel l depth).1.
Proof.
  revert l depth. induction fuel as [|fuel IH]; intros l depth; cbn [skip_hole_loop]; [apply moves_refl|].
  destruct (0 <? depth)%nat; [|apply moves_refl]. set (l1 := readRune l).
  assert (H1 : moves l l1) by apply moves_readRune.
  destruct (atEOF l1); [done|]. destruct (ch l1 =? cLBrace); [by eapply moves_trans|].
  destruct (ch l1 =? cRBrace); [by eapply moves_trans|].
  destruct (ch l1 =? cQuote); [|by eapply moves_trans].
  pose proof (moves_skip_hole_string (fuel_of l1) l1) as H2.
  destruct (skip_hole_string (fuel_of l1) l1) as [l2 []]; cbn [fst] in *.
  - eapply moves_trans; [exact H1|]. eapply moves_trans; [exact H2|apply IH].
  - by eapply moves_trans.
Qed.

Lemma moves_skipHole l : moves l (skipHole l).1.
Proof.
  unfold skipHole. pose proof (moves_skip_hole_loop (fuel_of (readRune l)) (readRune l) 1) as H.
  destruct (skip_hole_loop _ _ _) as [l' closed]. by apply moves_read_then.
Qed.

Lemma moves_quoted_loop fuel l fault : moves l (quoted_loop fuel l fault).1.1.
Proof.
  revert l fault. induction fuel as [|fuel IH]; intros l fault; cbn [quoted_loop]; [apply moves_refl|].
  set (l1 := readRune l). assert (H1 : moves l l1) by apply moves_readRune.
  destruct (atEOF l1); [done|]. destruct (ch l1 =? cQuote); [done|].
  destruct (_ && more l1).
  { eapply moves_trans; [exact H1|]. apply moves_read_then, IH. }
  destruct (_ && _); [|by eapply moves_trans].
  pose proof (moves_skipHole l1) as H2. destruct (skipHole l1) as [l2 f]. cbn [fst] in H2.
  eapply moves_trans; [exact H1|]. eapply moves_trans; [exact H2|apply IH].
Qed.

Lemma moves_raw_loop fuel l : moves l (raw_loop fuel l).1.
Proof.
  revert l. induction fuel as [|fuel IH]; intros l; cbn [raw_loop]; [apply moves_refl|]. scan_step IH.
Qed.

Lemma moves_triple_loop fuel raw l : moves l (triple_loop fuel raw l).1.1.
Proof.
  revert l. induction fuel as [|fuel IH]; intros l; cbn [triple_loop]; [apply moves_refl|]. scan_step IH.
Qed.

Lemma moves_readStringToken openIndex raw triple l : moves l (readStringToken openIndex raw triple l).1.
Proof.
  unfold readStringToken, readTripleBody, readRawBody, readQuotedBody.
  set (body := if triple then _ else _).
  assert (Hb : moves l body.1.1.1).
  { subst body. destruct triple; [|destruct raw].
    - pose proof (moves_triple_loop (fuel_of (readRune (readRune l))) raw (readRune (readRune l))) as H.
      destruct (triple_loop _ _ _) as [[l' e] ok]. by do 2 apply moves_read_then.
    - pose proof (moves_raw_loop (fuel_of l) l) as H. by destruct (raw_loop _ _).
    - pose proof (moves_quoted_loop (fuel_of l) l None) as H. by destruct (quoted_loop _ _ _) as [[? ?] ?]. }
  destruct body as [[[l' b] terminated] fault]. cbn [fst] in Hb.
  repeat match goal with
  | |- context [match ?x with _ => _ end] => destruct x
  end; exact Hb.
Qed.

Lemma moves_op_arm l seconds single : moves l (op_arm l seconds single).1.
Proof.
  induction seconds as [|[c t] rest IH]; cbn [op_arm]; [apply moves_refl|].
  destruct (_ =? _); [apply moves_readRune|done].
Qed.

Lemma moves_shift_arm l c a b d e : moves l (shift_arm l c a b d e).1.
Proof.
  unfold shift_arm. destruct (_ =? _); [destruct (_ =? _)|destruct (_ =? _)]; cbn [fst two_rune];
    auto with mutant.
Qed.

#[export] Hint Resolve moves_op_arm moves_shift_arm : mutant.

Lemma moves_punctuation l r : punctuation l = Some r -> moves l r.1.
Proof.
  unfold punctuation. cbv zeta. intros E.
  repeat match type of E with
  | (if ?b then _ else _) = _ =>
      destruct b; [apply (inj Some) in E; subst r;
        auto with mutant|]
  end; done.
Qed.

Lemma IndexByte_Some s b n : IndexByte s b = Some n -> s !! n = Some b.
Proof.
  intros H. rewrite (IndexByte_split _ _ _ H) at 1.
  assert (Hn : length (take n s) = n).
  { revert n H. induction s as [|c s IH]; intros n H; cbn [IndexByte] in H; [done|].
    destruct (c =? b); [by simplify_eq|].
    destruct (IndexByte s b) as [m|] eqn:E; simplify_eq/=. by rewrite IH. }
  rewrite lookup_app_r, Hn by lia. by rewrite Nat.sub_diag.
Qed.

Section ScannerMoves.
Context `{Unicode}.

Lemma moves_number_loop fuel l flag : moves l (number_loop fuel l flag).1.
Proof.
  revert l flag. induction fuel as [|fuel IH]; intros l flag; cbn [number_loop]; [apply moves_refl|].
  repeat case_match; auto with mutant; apply moves_read_then, IH.
Qed.

(** A byte of the file at which a comment holds a NUL. *)
Definition nul_at (l l' : Lexer) (where_ : Position) : Prop :=
  exists i, (position l <= i < position l')%nat /\ input l !! i = Some 0 /\
    where_ = advance (origin l) (take i (input l)).

Lemma skipLineComment_spec l :
  moves l (skipLineComment l).1 /\
  (cursor_ok l -> forall why where_, (skipLineComment l).2 = Some (why, where_) ->
     nul_at l (skipLineComment l).1 where_).
Proof.
  unfold skipLineComment. set (l1 := read_while _ _ l).
  assert (Hm : moves l l1) by apply moves_read_while.
  set (text := text_of l1 (position l) (position l1)). set (cut := bool_decide _).
  set (text' := if cut then take (length text - 1) text else text).
  assert (Hsplit : (if cut then (take (length text - 1) text,
      Pos (Line (currentPos l1)) (Column (currentPos l1) - 1) (Offset (currentPos l1) - 1))
      else (text, currentPos l1)) =
    (text', if cut then Pos (Line (currentPos l1)) (Column (currentPos l1) - 1) (Offset (currentPos l1) - 1)
            else currentPos l1)) by (subst text'; by destruct cut).
  rewrite Hsplit. clear Hsplit. cbn [fst snd]. split.
  { intros Hok. destruct (Hm Hok) as (Hok1 & Ei & Eo & Hp). split; [by destruct Hok1|done]. }
  intros Hok why where_. destruct (Hm Hok) as (Hok1 & Ei & Eo & Hp).
  destruct (IndexByte text' 0) as [at_|] eqn:E; [|done]. intros [= <- <-].
  assert (Hpre : text' `prefix_of` text).
  { subst text'. destruct cut; [eexists; symmetry; apply take_drop|done]. }
  apply IndexByte_Some in E. assert (Hat : text !! at_ = Some 0) by by eapply prefix_lookup_Some.
  assert (Hlt : (at_ < length text')%nat) by by eapply lookup_lt_Some.
  destruct Hpre as [rest Hrest]. unfold text, text_of in Hat, Hrest. rewrite Ei in *.
  pose proof (cur_in l1 Hok1) as Hin. rewrite Ei in Hin.
  assert (Hl : (at_ < position l1 - position l)%nat).
  { apply lookup_lt_Some in Hat. by rewrite length_slice in Hat. }
  exists (position l + at_)%nat. cbn [position]. split; [lia|].
  unfold slice in Hat. rewrite lookup_take_lt, lookup_drop in Hat by done. split; [done|].
  rewrite (cur_pos l Hok), <- advance_app. f_equal.
  replace (take at_ text') with (slice (input l) (position l) (position l + at_)).
  { symmetry. apply take_slice. lia. }
  assert (Ht : take at_ text' = take at_ (text' ++ rest)) by (rewrite take_app_le by lia; done).
  rewrite Ht, <- Hrest. unfold slice. rewrite take_take. f_equal. lia.
Qed.

Lemma nul_at_later l l1 l2 w : nul_at l l1 w -> (position l1 <= position l2)%nat -> nul_at l l2 w.
Proof. intros (i & Hi & Hz & Hw) Hp. exists i. split; [lia|done]. Qed.

Lemma nul_at_earlier l0 l l' w : cursor_ok l0 -> moves l0 l -> nul_at l l' w -> nul_at l0 l' w.
Proof.
  intros Hok Hm (i & Hi & Hz & Hw). destruct (Hm Hok) as (_ & Ei & Eo & Hp).
  exists i. rewrite Ei, Eo in *. split; [lia|done].
Qed.

Lemma trivia_loop_spec fuel l0 l fault :
  cursor_ok l0 -> moves l0 l -> (forall why w, fault = Some (why, w) -> nul_at l0 l w) ->
  let '(l', fault') := trivia_loop fuel l fault in
  moves l0 l' /\ forall why w, fault' = Some (why, w) -> nul_at l0 l' w.
Proof.
  intros Hok. revert l fault. induction fuel as [|fuel IH]; intros l fault Hm Hf; cbn [trivia_loop]; [done|].
  set (l1 := skipWhiteSpace l). assert (H1 : moves l l1) by apply moves_read_while.
  assert (Hm1 : moves l0 l1) by by eapply moves_trans.
  assert (Hf1 : forall why w, fault = Some (why, w) -> nul_at l0 l1 w).
  { intros why w E. eapply nul_at_later; [by eapply Hf|]. apply H1, Hm, Hok. }
  destruct (_ && _); [|done]. destruct (skipLineComment_spec l1) as [H2 Hn].
  destruct (skipLineComment l1) as [l2 f]. cbn [fst snd] in *.
  apply IH; [by eapply moves_trans|]. intros why w E. destruct fault as [[why' w']|]; cbn [fault_or] in E.
  - simplify_eq. eapply nul_at_later; [by eapply Hf1|]. apply H2, Hm1, Hok.
  - eapply nul_at_earlier; [done|exact Hm1|]. eapply Hn; [apply Hm1, Hok|done].
Qed.

(** Where a token is: the text between two offsets of the file, past what was
    read before and within what has been read now. *)
Record span_ok (l l' : Lexer) (tok : Token) : Prop := {
  sp_moves : moves l l';
  sp_text : exists i j, (position l <= i)%nat /\ (i <= j <= position l')%nat /\
    Start tok = advance (origin l) (take i (input l)) /\
    End_ tok = advance (origin l) (take j (input l)) /\
    ((Type_ tok = EOF /\ i = j /\ i = length (input l)) \/ (Type_ tok <> EOF /\ (i < j)%nat)) }.

Lemma cursor_not_eof l : cursor_ok l -> atEOF l = false -> (position l < length (input l))%nat.
Proof. intros Hok He%Nat.leb_gt. done. Qed.

(** The arms that leave the cursor on the token's last character. *)
Lemma finish_spec l0 l r :
  cursor_ok l0 -> moves l0 l -> atEOF l = false -> moves l r.1 -> Type_ r.2 <> EOF ->
  span_ok l0 (readRune r.1) (with_span r.2 (currentPos l) (currentPos (readRune r.1))).
Proof.
  intros Hok Hm He Hr Ht. split; [eapply moves_trans; [exact Hm|by apply moves_then_read]|].
  destruct (Hm Hok) as (Hok1 & Ei & Eo & Hp). destruct (Hr Hok1) as (Hok2 & Ei2 & Eo2 & Hp2).
  destruct (moves_readRune r.1 Hok2) as (Hok3 & Ei3 & Eo3 & Hp3).
  apply cursor_not_eof in He; [|done].
  exists (position l), (position (readRune r.1)). split; [done|]. split; [lia|].
  cbn [Start End_ Type_ with_span]. rewrite (cur_pos _ Hok1), (cur_pos _ Hok3), Ei3, Ei2, Ei, Eo3, Eo2, Eo.
  split; [done|]. split; [done|]. right. split; [done|].
  destruct (decide (position r.1 = length (input r.1))) as [E|Hne]; [rewrite Ei2 in E; lia|].
  assert (position r.1 < position (readRune r.1))%nat; [|lia].
  apply readRune_advances; [done|]. pose proof (cur_in _ Hok2). lia.
Qed.

(** The arms that leave the cursor past the token. *)
Lemma past_spec l0 l l' tok :
  cursor_ok l0 -> moves l0 l -> atEOF l = false -> moves (readRune l) l' -> Type_ tok <> EOF ->
  span_ok l0 l' (with_span tok (currentPos l) (currentPos l')).
Proof.
  intros Hok Hm He Hr Ht. split; [eapply moves_trans; [exact Hm|by apply moves_read_then]|].
  destruct (Hm Hok) as (Hok1 & Ei & Eo & Hp).
  destruct (moves_readRune l Hok1) as (Hok2 & Ei2 & Eo2 & Hp2).
  destruct (Hr Hok2) as (Hok3 & Ei3 & Eo3 & Hp3).
  apply cursor_not_eof in He; [|done]. pose proof (readRune_advances l Hok1 He).
  exists (position l), (position l'). split; [done|]. split; [lia|].
  cbn [Start End_ Type_ with_span]. rewrite (cur_pos _ Hok1), (cur_pos _ Hok3), Ei3, Ei2, Ei, Eo3, Eo2, Eo.
  split; [done|]. split; [done|]. right. split; [done|lia].
Qed.

Lemma read_while_first fuel p l : p l = true -> read_while (S fuel) p l = read_while fuel p (readRune l).
Proof. intros E. cbn [read_while]. by rewrite E. Qed.

Lemma readStringToken_type i raw triple l : Type_ (readStringToken i raw triple l).2 <> EOF.
Proof.
  unfold readStringToken. destruct (if triple then _ else _) as [[[l' b] terminated] fault].
  destruct (match IndexByte b 0 with Some _ => _ | None => _ end); [done|].
  destruct (negb terminated); [done|]. destruct raw; [done|].
  destruct (splitTemplate _ _) as [[parts interpolated] [|]]; [done|]. by destruct interpolated.
Qed.

Lemma op_arm_type l seconds single :
  single <> EOF -> Forall (fun p => p.2 <> EOF) seconds -> Type_ (op_arm l seconds single).2 <> EOF.
Proof.
  intros Hs Hf. induction Hf as [|[c t] rest Ht _ IH]; cbn [op_arm]; [done|]. by destruct (_ =? _).
Qed.

Lemma shift_arm_type l c a b d e :
  a <> EOF -> b <> EOF -> d <> EOF -> e <> EOF -> Type_ (shift_arm l c a b d e).2 <> EOF.
Proof. intros. unfold shift_arm. repeat destruct (_ =? _); done. Qed.

Lemma punctuation_type l r : punctuation l = Some r -> Type_ r.2 <> EOF.
Proof.
  unfold punctuation. cbv zeta. intros E.
  repeat match type of E with
  | (if ?b then _ else _) = _ =>
      destruct b; [apply (inj Some) in E; subst r;
        first [done | apply op_arm_type; [done|by repeat constructor] | by apply shift_arm_type]|]
  end; done.
Qed.

Lemma LookupIdent_type lit : LookupIdent lit <> EOF.
Proof. unfold LookupIdent, keywords. cbn [lookup_keyword]. repeat case_decide; done. Qed.

Lemma number_first fuel l : IsDigit (ch l) = true -> (ch l =? 46) = false ->
  number_loop (S fuel) l false = number_loop fuel (readRune l) false.
Proof. intros E1 E2. cbn [number_loop]. by rewrite E1, E2. Qed.

Lemma scan_number_spec l0 l :
  cursor_ok l0 -> moves l0 l -> atEOF l = false -> IsDigit (ch l) = true ->
  let '(l', tok) := scan_number (currentPos l) l in span_ok l0 l' tok.
Proof.
  intros Hok Hm He Hd. unfold scan_number, readNumber, readIdentifier.
  assert (Hp : (ch l =? 46) = false).
  { destruct (Z.eqb_spec (ch l) 46) as [E|]; [|done]. rewrite E, digit_ascii in Hd by lia. done. }
  change (fuel_of l) with (S (length (input l))). rewrite number_first by done.
  pose proof (moves_number_loop (length (input l)) (readRune l) false) as H1.
  destruct (number_loop _ _ _) as [l1 isFloat]. cbn [fst] in H1.
  destruct (IsLetter (ch l1) || (ch l1 =? 95)).
  - apply past_spec; [done..| |done]. eapply moves_trans; [exact H1|apply moves_read_while].
  - apply past_spec; [done..|by destruct isFloat].
Qed.

Lemma scanToken_spec l : cursor_ok l -> let '(l', tok) := scanToken l in span_ok l l' tok.
Proof.
  intros Hok. unfold scanToken, skipTrivia.
  pose proof (trivia_loop_spec (fuel_of l) l l None Hok (moves_refl l)) as Ht.
  destruct (trivia_loop (fuel_of l) l None) as [l1 [[why w]|]].
  - destruct Ht as [Hm Hn]; [done|]. destruct (Hn why w eq_refl) as (i & Hi & Hz & ->).
    split; [done|]. exists i, (S i). split; [lia|]. split; [lia|]. split; [done|]. split.
    + cbn [End_ with_span]. rewrite (take_S_r _ _ _ Hz), advance_app. done.
    + right. split; [done|lia].
  - destruct Ht as [Hm _]; [done|]. destruct (atEOF l1) eqn:He.
    { split; [done|]. destruct (Hm Hok) as (Hok1 & Ei & Eo & Hp).
      apply Nat.leb_le in He. pose proof (cur_in _ Hok1).
      exists (position l1), (position l1). cbn [Start End_ Type_ with_span newToken plain_token].
      rewrite (cur_pos _ Hok1), Eo, Ei. split; [done|]. split; [lia|]. split; [done|]. split; [done|].
      left. split; [done|]. split; [done|]. rewrite Ei in *. lia. }
    assert (Hfin : forall r, moves l1 r.1 -> Type_ r.2 <> EOF ->
      span_ok l (readRune r.1) (with_span r.2 (currentPos l1) (currentPos (readRune r.1))))
      by (intros; by apply finish_spec).
    destruct (punctuation l1) as [r|] eqn:Epun.
    { apply Hfin; [by apply moves_punctuation | by apply (punctuation_type l1)]. }
    destruct (ch l1 =? cQuote); [apply Hfin; [apply moves_readStringToken | apply readStringToken_type]|].
    destruct (ch l1 =? 0); [apply Hfin; [apply moves_refl|done]|].
    destruct ((ch l1 =? 114) && _).
    { apply Hfin; [apply moves_read_then, moves_readStringToken | apply readStringToken_type]. }
    destruct (IsLetter (ch l1) || (ch l1 =? 95)) eqn:Eid.
    { unfold readIdentifier. change (fuel_of l1) with (S (length (input l1))).
      rewrite read_while_first.
      - apply past_spec; [done..|apply moves_read_while|apply LookupIdent_type].
      - unfold ident_rune. apply orb_true_iff in Eid as [->| ->]; [done|]. by rewrite orb_true_r. }
    destruct (IsDigit (ch l1)) eqn:Ed; [by apply scan_number_spec|].
    apply Hfin; [apply moves_refl|done].
Qed.

(** The guard at the end of [NextToken] never fires. *)
Lemma NextToken_is_scanToken l : cursor_ok l -> NextToken l = scanToken l.
Proof.
  intros Hok. unfold NextToken. pose proof (scanToken_spec l Hok) as Hs.
  destruct (scanToken l) as [l' tok]. destruct Hs as [Hm (i & j & Hi & Hj & Es & Ee & Ht)].
  destruct Ht as [(E & _)|(Hne & Hlt)]; [by rewrite bool_decide_eq_true_2|].
  assert (Offset (Start tok) <? Offset (End_ tok) = true) as ->; [|by rewrite orb_true_r].
  destruct (Hm Hok) as (Hok' & Ei & _). pose proof (cur_in _ Hok') as Hin. rewrite Ei in Hin.
  apply Z.ltb_lt. rewrite Es, Ee, !advance_Offset. unfold zlen. rewrite !length_take. lia.
Qed.

(** Tokens one after the other, each at a stretch of the file. *)
Fixpoint laid_out (at_ : Position) (src : list Z) (from : nat) (toks : list Token) : Prop :=
  match toks with
  | [] => False
  | t :: ts => exists i j, (from <= i)%nat /\ (i <= j <= length src)%nat /\
      Start t = advance at_ (take i src) /\ End_ t = advance at_ (take j src) /\
      ((Type_ t = EOF /\ i = j /\ i = length src /\ ts = []) \/
       (Type_ t <> EOF /\ (i < j)%nat /\ laid_out at_ src j ts))
  end.

Lemma laid_out_weaken at_ src a b toks : (b <= a)%nat -> laid_out at_ src a toks -> laid_out at_ src b toks.
Proof.
  intros Hab. destruct toks as [|t ts]; [done|]. intros (i & j & Hi & H1). exists i, j. split; [lia|done].
Qed.

Lemma tokens_spec fuel l :
  cursor_ok l -> (length (input l) - position l < fuel)%nat ->
  exists toks, tokens fuel l = Some toks /\ laid_out (origin l) (input l) (position l) toks.
Proof.
  revert l. induction fuel as [|fuel IH]; intros l Hok Hf; [lia|]. cbn [tokens].
  rewrite NextToken_is_scanToken by done. pose proof (scanToken_spec l Hok) as Hs.
  destruct (scanToken l) as [l' tok]. destruct Hs as [Hm (i & j & Hi & Hj & Es & Ee & Ht)].
  destruct (Hm Hok) as (Hok' & Ei & Eo & Hp). pose proof (cur_in _ Hok') as Hin. rewrite Ei in Hin.
  destruct Ht as [(E & Hij & Hl)|(Hne & Hlt)].
  - rewrite bool_decide_eq_true_2 by done. eexists. split; [done|].
    exists i, j. split; [done|]. split; [lia|]. split; [done|]. split; [done|]. left. done.
  - rewrite bool_decide_eq_false_2 by done.
    destruct (IH l' Hok') as (toks & -> & Hlay); [rewrite Ei; lia|]. eexists. split; [done|].
    exists i, j. split; [done|]. split; [lia|]. split; [done|]. split; [done|]. right.
    split; [done|]. split; [done|]. rewrite Ei, Eo in Hlay.
    eapply laid_out_weaken; [|exact Hlay]. lia.
Qed.
End ScannerMoves.

Lemma laid_out_shift pos pre src p toks :
  laid_out (advance pos pre) src p toks -> laid_out pos (pre ++ src) (length pre + p) toks.
Proof.
  revert p. induction toks as [|t ts IH]; intros p Hl; [done|].
  assert (Htake : forall i, take (length pre + i) (pre ++ src) = pre ++ take i src)
    by (intros i; apply take_app_add).
  destruct Hl as (i & j & Hi & Hj & Hs & He & Ht). exists (length pre + i)%nat, (length pre + j)%nat.
  rewrite !Htake, !advance_app, length_app. split; [lia|]. split; [lia|]. split; [done|]. split; [done|].
  destruct Ht as [(Et & Eij & El & ->)|(Ht & Hij & Hl)].
  - left. split; [done|]. split; [lia|]. split; [lia|done].
  - right. split; [done|]. split; [lia|]. by apply IH.
Qed.

Lemma NewAt_ok src at_ : cursor_ok (NewAt src at_).
Proof.
  unfold NewAt. set (l0 := Lx src 0 0 0 1 0 at_ []).
  destruct (readRune_fields l0) as (Ei & Eo & _ & Ep). destruct (readRune_loaded l0) as [H1 H2].
  assert (Hp0 : position (readRune l0) = 0%nat) by by rewrite Ep.
  assert (line (readRune l0) = 1 /\ lineStart (readRune l0) = 0%nat) as [Hl Hs].
  { unfold readRune, l0. cbn -[DecodeRune]. destruct (_ <=? _)%nat; [done|]. by destruct (DecodeRune (drop 0 src)). }
  split; [rewrite Hp0; lia|done|done|]. rewrite Ei, Eo, Hp0.
  unfold currentPos. rewrite Eo, Hp0, Hl, Hs. destruct at_ as [ln col off].
  unfold l0. rewrite take_0. cbn [origin advance Line Column Offset Nat.eqb]. f_equal; lia.
Qed.

Lemma NewAt_fields src at_ :
  input (NewAt src at_) = src /\ origin (NewAt src at_) = at_ /\ position (NewAt src at_) = 0%nat.
Proof. unfold NewAt. destruct (readRune_fields (Lx src 0 0 0 1 0 at_ [])) as (-> & -> & _ & ->). done. Qed.

(* ------------------------------------------------------------------ *)
(** ** Reading back an escaped literal *)

Definition high (b : Z) : Prop := 128 <= b.

Lemma escape_spelling_cases b :
  (exists c, escape_spelling b = [cBackslash; c] /\ c < 128 /\ b < 128) \/
  (escape_spelling b = [b] /\ b <> cQuote /\ b <> cBackslash /\ b <> cDollar /\ b <> 0).
Proof.
  unfold escape_spelling, cNewline, cReturn, cTab, cQuote, cBackslash, cDollar, cZero, c_n, c_r, c_t.
  repeat (bcase; [left; eexists; split; [done|]; lia|]). right. split; [done|]. lia.
Qed.

(** A run of high bytes at the front of escaped text is the text's own. *)
Lemma escape_high_front s rest w :
  Forall high (take w (escape s ++ cQuote :: rest)) ->
  (w <= length s)%nat /\ escape s = take w s ++ escape (drop w s).
Proof.
  revert w. induction s as [|b s IH]; intros [|w] Hw; cbn [escape app take drop length] in *.
  - split; [lia|done].
  - apply list.Forall_cons in Hw as [Hq _]. unfold high, cQuote in Hq. lia.
  - split; [lia|done].
  - rewrite <- app_assoc in Hw.
    destruct (escape_spelling_cases b) as [(c & E & Hc & _)|(E & _)]; rewrite E in *; cbn [app take] in Hw.
    + apply list.Forall_cons in Hw as [Hb _]. unfold high, cBackslash in Hb. lia.
    + apply list.Forall_cons in Hw as [_ Hw]. destruct (IH w Hw) as [Hl ->]. split; [lia|done].
Qed.

(** Loading the rune at the read position. *)
Lemma readRune_at l p r w :
  cursor_ok l -> readPosition l = p -> (p < length (input l))%nat ->
  DecodeRune (drop p (input l)) = (r, w) ->
  cursor_ok (readRune l) /\ input (readRune l) = input l /\ origin (readRune l) = origin l /\
  position (readRune l) = p /\ readPosition (readRune l) = (p + w)%nat /\ ch (readRune l) = r /\
  atEOF (readRune l) = false.
Proof.
  intros Hok Hrp Hp Hd. destruct (readRune_fields l) as (Ei & Eo & _ & Ep).
  destruct (readRune_loaded l) as [H1 _]. rewrite Ei, Ep, Hrp, Nat.min_l, Hd in H1 by lia.
  destruct (H1 Hp) as [Hr Hc]. rewrite Hrp, Nat.min_l in Ep by lia.
  split; [by apply readRune_ok|]. split; [done|]. split; [done|]. split; [done|].
  split; [done|]. split; [done|]. unfold atEOF. rewrite Ei, Ep. apply Nat.leb_gt. done.
Qed.

Lemma DecodeRune_low b s : b < 128 -> DecodeRune (b :: s) = (b, 1%nat).
Proof. intros Hb. unfold DecodeRune. by rewrite (proj2 (Z.ltb_lt _ _) Hb). Qed.

Lemma drop_next {A} (s : list A) p x k : drop p s = x ++ k -> drop (p + length x) s = k.
Proof. intros E. rewrite <- drop_drop, E. apply drop_app_length. Qed.

(** The reader stands before the escaped text [s] and the closing quote. *)
Record before (l : Lexer) (s rest : list Z) : Prop := {
  bf_ok : cursor_ok l;
  bf_text : drop (readPosition l) (input l) = escape s ++ cQuote :: rest }.

Lemma before_lt l s rest : before l s rest -> (readPosition l < length (input l))%nat.
Proof.
  intros [_ Hd]. apply (f_equal length) in Hd. rewrite length_drop, length_app in Hd. simpl in Hd. lia.
Qed.

(** A turn of the loop over the first character of escaped text. *)
Definition turn (l l2 : Lexer) (s s2 rest : list Z) : Prop :=
  before l2 s2 rest /\ (length s2 < length s)%nat /\ input l2 = input l /\ origin l2 = origin l /\
  (readPosition l2 + length (escape s2) = readPosition l + length (escape s))%nat.

Lemma quoted_turn_escape l b c s rest fuel fault :
  before l (b :: s) rest -> escape_spelling b = [cBackslash; c] -> c < 128 ->
  exists l2, quoted_loop (S fuel) l fault = quoted_loop fuel l2 fault /\ turn l l2 (b :: s) s rest.
Proof.
  intros Hb E Hc. assert (Hp := before_lt _ _ _ Hb). destruct Hb as [Hok Hd].
  cbn [escape] in Hd. rewrite E in Hd. cbn [app] in Hd.
  destruct (readRune_at l _ cBackslash 1 Hok eq_refl Hp) as (K1 & K2 & K3 & K4 & K5 & K6 & K7).
  { rewrite Hd. by apply DecodeRune_low. }
  assert (Hd1 : drop (readPosition (readRune l)) (input (readRune l)) = c :: escape s ++ cQuote :: rest).
  { rewrite K2, K5. by apply (drop_next _ _ [cBackslash]). }
  assert (Hp1 : (readPosition (readRune l) < length (input (readRune l)))%nat)
    by (apply (f_equal length) in Hd1; rewrite length_drop in Hd1; simpl in Hd1; lia).
  destruct (readRune_at (readRune l) _ c 1 K1 eq_refl Hp1) as (M1 & M2 & M3 & M4 & M5 & M6 & M7);
    [by rewrite Hd1, DecodeRune_low|].
  exists (readRune (readRune l)). split.
  - cbn [quoted_loop]. rewrite K7, K6. unfold more. by rewrite (proj2 (Nat.ltb_lt _ _) Hp1).
  - split; [split; [done|]; rewrite M2, M5; by apply (drop_next _ _ [c])|].
    split; [simpl; lia|]. split; [congruence|]. split; [congruence|].
    rewrite M5, K5. cbn [escape]. rewrite E. simpl. lia.
Qed.

Lemma quoted_turn_plain l b s rest fuel fault :
  before l (b :: s) rest -> escape_spelling b = [b] ->
  b <> cQuote -> b <> cBackslash -> b <> cDollar ->
  exists l2 s2, quoted_loop (S fuel) l fault = quoted_loop fuel l2 fault /\ turn l l2 (b :: s) s2 rest.
Proof.
  intros Hb E Hq Hbs Hdo. assert (Hp := before_lt _ _ _ Hb). destruct Hb as [Hok Hd].
  destruct (DecodeRune (drop (readPosition l) (input l))) as [r w] eqn:Ed.
  destruct (readRune_at l _ r w Hok eq_refl Hp Ed) as (K1 & K2 & K3 & K4 & K5 & K6 & K7).
  rewrite Hd in Ed. assert (Hfront : exists rest', escape (b :: s) ++ cQuote :: rest = b :: rest')
    by (cbn [escape]; rewrite E; by eexists).
  destruct Hfront as [rest' Hfront]. rewrite Hfront in Ed.
  pose proof (DecodeRune_spec b rest') as Hs. rewrite Ed in Hs. destruct Hs as (Hw & Hlo & Hhi).
  assert (Hr : r <> cQuote /\ r <> cBackslash /\ r <> cDollar).
  { destruct (Z.ltb_spec b 128) as [Hl|Hh]; [by destruct (Hlo Hl) as [-> _]|].
    destruct (Hhi Hh) as [Hr _]. unfold cQuote, cBackslash, cDollar. lia. }
  assert (Hcut : (w <= length (b :: s))%nat /\ escape (b :: s) = take w (b :: s) ++ escape (drop w (b :: s))).
  { destruct (Z.ltb_spec b 128) as [Hl|Hh].
    - destruct (Hlo Hl) as [_ ->]. split; [simpl; lia|]. cbn [escape]. by rewrite E.
    - apply (escape_high_front _ rest). rewrite Hfront. by apply Hhi. }
  destruct Hcut as [Hwl Hcut]. exists (readRune l), (drop w (b :: s)). split.
  - cbn [quoted_loop]. rewrite K7, K6. rewrite !(proj2 (Z.eqb_neq r _)) by tauto. done.
  - assert (Hlt : length (take w (b :: s)) = w) by (rewrite length_take; lia).
    split; [split; [done|]|].
    + rewrite K2, K5. rewrite <- Hlt at 1. apply drop_next. rewrite Hd, Hcut. by rewrite <- app_assoc.
    + rewrite length_drop. split; [lia|]. split; [done|]. split; [done|].
      rewrite K5, Hcut, length_app, Hlt. lia.
Qed.

(** The whole body of an escaped literal. *)
Lemma quoted_loop_escape n s rest fuel l fault :
  (length s <= n)%nat -> (length s < fuel)%nat -> before l s rest ->
  exists l', quoted_loop fuel l fault = (l', true, fault) /\ cursor_ok l' /\
    input l' = input l /\ origin l' = origin l /\
    position l' = (readPosition l + length (escape s))%nat /\ readPosition l' = S (position l').
Proof.
  revert s fuel l. induction n as [|n IH]; intros s fuel l Hn Hf Hb; destruct fuel as [|fuel]; try lia;
    (destruct s as [|b s]; [|try (simpl in Hn; lia)]).
  1,2: assert (Hp := before_lt _ _ _ Hb); destruct Hb as [Hok Hd];
       destruct (readRune_at l _ cQuote 1 Hok eq_refl Hp) as (H1 & H2 & H3 & H4 & H5 & H6 & H7);
       [rewrite Hd; by apply DecodeRune_low|];
       exists (readRune l); cbn [quoted_loop escape length]; rewrite H7, H6;
       (split; [done|]); (split; [done|]); (split; [done|]); (split; [done|]); lia.
  assert (Ht : exists l2 s2, quoted_loop (S fuel) l fault = quoted_loop fuel l2 fault /\ turn l l2 (b :: s) s2 rest).
  { destruct (escape_spelling_cases b) as [(c & E & Hc & _)|(E & Hq & Hbs & Hdo & _)].
    - destruct (quoted_turn_escape l b c s rest fuel fault Hb E Hc) as (l2 & H1 & H2). by exists l2, s.
    - by apply quoted_turn_plain. }
  destruct Ht as (l2 & s2 & -> & Hb2 & Hlen & Ei & Eo & Hr). simpl in Hn, Hf, Hlen.
  destruct (IH s2 fuel l2) as (l' & -> & L1 & L2 & L3 & L4 & L5); [lia|lia|done|].
  exists l'. split; [done|]. split; [done|]. split; [congruence|]. split; [congruence|].
  split; [lia|done].
Qed.

Lemma IndexByte_None s b : b ∉ s -> IndexByte s b = None.
Proof.
  induction s as [|c s IH]; [done|]. intros [Hc Hs]%not_elem_of_cons. cbn [IndexByte].
  rewrite (proj2 (Z.eqb_neq c b)) by congruence. by rewrite IH.
Qed.

Lemma escape_no_nul s : 0 ∉ escape s.
Proof.
  induction s as [|b s IH]; cbn [escape]; [apply not_elem_of_nil|]. apply not_elem_of_app. split; [|done].
  unfold escape_spelling. repeat case_match; breflect;
    rewrite ?not_elem_of_cons; repeat split; try apply not_elem_of_nil; try congruence; by intros [=].
Qed.

(** Escaped text has no hole in it. *)
Lemma split_loop_escape s fuel pre st :
  s_found (split_loop fuel (pre ++ escape s) (length pre) st) = s_found st /\
  s_fault (split_loop fuel (pre ++ escape s) (length pre) st) = s_fault st.
Proof.
  revert fuel pre st. induction s as [|b s IH]; intros fuel pre st; destruct fuel as [|fuel];
    cbn [split_loop escape]; try done.
  { by rewrite app_nil_r, Nat.ltb_irrefl. }
  rewrite (proj2 (Nat.ltb_lt _ _)).
  2:{ rewrite !length_app. destruct (escape_spelling_cases b) as [(c & -> & _)|(-> & _)]; simpl; lia. }
  assert (Hhead : forall x k, (pre ++ x :: k) !!! length pre = x)
    by (intros x k; rewrite lookup_total_app_r by lia; by rewrite Nat.sub_diag).
  destruct (escape_spelling_cases b) as [(c & E & _)|(E & Hq & Hbs & Hdo & _)]; rewrite E; cbn [app].
  - rewrite Hhead, (proj2 (Nat.ltb_lt _ _)) by (rewrite length_app; simpl; lia).
    change (cBackslash =? cBackslash) with true. cbn [andb].
    specialize (IH fuel (pre ++ [cBackslash; c])). rewrite <- app_assoc, length_app in IH. cbn [app length] in IH.
    match goal with |- context [split_loop fuel _ _ ?st'] => destruct (IH st') as [-> ->] end. done.
  - rewrite Hhead, !(proj2 (Z.eqb_neq b _)) by done. cbn [andb].
    specialize (IH fuel (pre ++ [b])). rewrite <- app_assoc, length_app in IH. cbn [app length] in IH.
    match goal with |- context [split_loop fuel _ _ ?st'] => destruct (IH st') as [-> ->] end. done.
Qed.

Lemma splitTemplate_escape s start :
  exists parts, splitTemplate (escape s) start = (parts, false, None).
Proof.
  unfold splitTemplate. destruct (negb _); [by eexists|].
  destruct (split_loop_escape s (S (length (escape s))) [] (Split_ [] start start [] false None)) as [H1 H2].
  cbn [app length] in H1, H2. rewrite H1, H2. by eexists.
Qed.

Lemma peek_escape b s rest :
  (DecodeRune (escape (b :: s) ++ cQuote :: rest)).1 <> cQuote.
Proof.
  cbn [escape]. destruct (escape_spelling_cases b) as [(c & -> & _)|(-> & Hq & _)]; cbn [app].
  - by rewrite DecodeRune_low.
  - pose proof (DecodeRune_spec b (escape s ++ cQuote :: rest)) as H.
    destruct (DecodeRune _) as [r w]. cbn [fst]. destruct H as (_ & Hlo & Hhi).
    destruct (Z.ltb_spec b 128) as [Hl|Hh]; [by destruct (Hlo Hl) as [-> _]|].
    destruct (Hhi Hh). unfold cQuote. lia.
Qed.

(** A literal that is not empty, or is not followed by a quote, does not open
    a triple-quoted one. *)
Lemma escape_not_triple l s rest :
  before l s rest -> s <> [] \/ rest !! 0%nat <> Some cQuote -> opens_triple l = false.
Proof.
  intros Hb Hs. assert (Hp := before_lt _ _ _ Hb). destruct Hb as [_ Hd]. unfold opens_triple, peekRune, peekRuneAt.
  rewrite (proj2 (Nat.leb_gt _ _) Hp), Hd. destruct s as [|b s].
  - cbn [escape app]. rewrite DecodeRune_low by done. cbn [fst Z.eqb cQuote]. cbn [peek_from].
    rewrite (proj2 (Nat.leb_gt _ _) Hp), Hd. cbn [escape app]. rewrite DecodeRune_low by done.
    destruct Hs as [Hs|Hs]; [done|].
    destruct (Nat.leb_spec (length (input l)) (readPosition l + 1)); [done|].
    rewrite (drop_next _ _ [cQuote] rest) by (rewrite Hd; done).
    destruct rest as [|x rest]; [done|]. pose proof (DecodeRune_spec x rest) as H1.
    destruct (DecodeRune (x :: rest)) as [r w]. destruct H1 as (_ & Hlo & Hhi).
    apply Z.eqb_neq. intros Er. destruct (Z.ltb_spec x 128) as [Hl|Hh].
    + destruct (Hlo Hl) as [Ex _]. apply Hs. simpl. congruence.
    + destruct (Hhi Hh) as [Hr _]. unfold cQuote in Er. lia.
  - rewrite (proj2 (Z.eqb_neq _ _)) by apply peek_escape. done.
Qed.

Lemma readStringToken_escape l s rest openIndex :
  before l s rest -> (length s < fuel_of l)%nat ->
  exists l', readStringToken openIndex false false l = (l', Tok STRING s no_pos no_pos [] [] None) /\
    cursor_ok l' /\ input l' = input l /\ origin l' = origin l /\
    position l' = (readPosition l + length (escape s))%nat /\ readPosition l' = S (position l').
Proof.
  intros Hb Hf. destruct (quoted_loop_escape (length s) s rest (fuel_of l) l None) as (l' & Hq & H1 & H2 & H3 & H4 & H5);
    [done|done|done|]. exists l'. split; [|done].
  unfold readStringToken, readQuotedBody. rewrite Hq. cbv beta iota zeta.
  assert (Hbody : text_of l' (readPosition l) (position l') = escape s).
  { unfold text_of, slice. rewrite H2, H4, (bf_text _ _ _ Hb).
    replace (readPosition l + length (escape s) - readPosition l)%nat with (length (escape s)) by lia.
    apply take_app_length. }
  rewrite Hbody, IndexByte_None by apply escape_no_nul. cbn [negb].
  destruct (splitTemplate_escape s (bodyPosition false l)) as [parts ->].
  cbn [negb orb]. rewrite unescape_is_loop, unescape_loop_escape. done.
Qed.

(* ------------------------------------------------------------------ *)
(** ** Fuel is never what stops a scan *)

Definition remaining (l : Lexer) : nat := length (input l) - position l.

Lemma moves_remaining l l' : cursor_ok l -> moves l l' -> cursor_ok l' /\ (remaining l' <= remaining l)%nat.
Proof. intros Hok Hm. destruct (Hm Hok) as (Hok' & Ei & _ & Hp). split; [done|]. unfold remaining. rewrite Ei. lia. Qed.

(** A rune that is read and is not the end is progress. *)
Lemma read_progress l :
  cursor_ok l -> atEOF (readRune l) = false ->
  cursor_ok (readRune l) /\ (remaining (readRune l) < remaining l)%nat.
Proof.
  intros Hok He. destruct (moves_readRune l Hok) as (Hok1 & Ei & _ & Hp). split; [done|].
  apply cursor_not_eof in He; [|done]. rewrite Ei in He. unfold remaining. rewrite Ei.
  pose proof (readRune_advances l Hok). destruct (decide (position l < length (input l))%nat); lia.
Qed.

Lemma skip_hole_string_fuel f1 f2 l :
  cursor_ok l -> (remaining l < f1)%nat -> (remaining l < f2)%nat ->
  skip_hole_string f1 l = skip_hole_string f2 l.
Proof.
  revert f2 l. induction f1 as [|f1 IH]; intros [|f2] l Hok H1 H2; try lia. cbn [skip_hole_string].
  destruct (atEOF (readRune l)) eqn:He; [done|]. destruct (read_progress l Hok He) as [Hok1 Hp].
  destruct (ch (readRune l) =? cQuote); [done|].
  destruct (_ && _); [|apply IH; lia || done].
  destruct (moves_remaining _ _ Hok1 (moves_readRune _)). apply IH; lia || done.
Qed.

Lemma raw_loop_fuel f1 f2 l :
  cursor_ok l -> (remaining l < f1)%nat -> (remaining l < f2)%nat -> raw_loop f1 l = raw_loop f2 l.
Proof.
  revert f2 l. induction f1 as [|f1 IH]; intros [|f2] l Hok H1 H2; try lia. cbn [raw_loop].
  destruct (atEOF (readRune l)) eqn:He; [done|]. destruct (read_progress l Hok He) as [Hok1 Hp].
  destruct (ch (readRune l) =? cQuote); [done|]. apply IH; lia || done.
Qed.

Lemma triple_loop_fuel raw f1 f2 l :
  cursor_ok l -> (remaining l < f1)%nat -> (remaining l < f2)%nat ->
  triple_loop f1 raw l = triple_loop f2 raw l.
Proof.
  revert f2 l. induction f1 as [|f1 IH]; intros [|f2] l Hok H1 H2; try lia. cbn [triple_loop].
  destruct (atEOF (readRune l)) eqn:He; [done|]. destruct (read_progress l Hok He) as [Hok1 Hp].
  destruct (_ && _ && _); [done|]. destruct (_ && _ && _); [|apply IH; lia || done].
  destruct (moves_remaining _ _ Hok1 (moves_readRune _)). apply IH; lia || done.
Qed.

Lemma skip_hole_loop_fuel f1 f2 l depth :
  cursor_ok l -> (remaining l < f1)%nat -> (remaining l < f2)%nat ->
  skip_hole_loop f1 l depth = skip_hole_loop f2 l depth.
Proof.
  revert f2 l depth. induction f1 as [|f1 IH]; intros [|f2] l depth Hok H1 H2; try lia. cbn [skip_hole_loop].
  destruct (0 <? depth)%nat; [|done].
  destruct (atEOF (readRune l)) eqn:He; [done|]. destruct (read_progress l Hok He) as [Hok1 Hp].
  destruct (_ =? cLBrace); [apply IH; lia || done|]. destruct (_ =? cRBrace); [apply IH; lia || done|].
  destruct (_ =? cQuote); [|apply IH; lia || done].
  pose proof (moves_skip_hole_string (fuel_of (readRune l)) (readRune l)) as Hm.
  destruct (skip_hole_string _ _) as [l2 []]; [|done].
  destruct (moves_remaining _ _ Hok1 Hm). apply IH; simpl in *; lia || done.
Qed.

Lemma quoted_loop_fuel f1 f2 l fault :
  cursor_ok l -> (remaining l < f1)%nat -> (remaining l < f2)%nat ->
  quoted_loop f1 l fault = quoted_loop f2 l fault.
Proof.
  revert f2 l fault. induction f1 as [|f1 IH]; intros [|f2] l fault Hok H1 H2; try lia. cbn [quoted_loop].
  destruct (atEOF (readRune l)) eqn:He; [done|]. destruct (read_progress l Hok He) as [Hok1 Hp].
  destruct (_ =? cQuote); [done|]. destruct (_ && more _).
  { destruct (moves_remaining _ _ Hok1 (moves_readRune _)). apply IH; lia || done. }
  destruct (_ && _); [|apply IH; lia || done].
  pose proof (moves_skipHole (readRune l)) as Hm. destruct (skipHole (readRune l)) as [l2 f].
  destruct (moves_remaining _ _ Hok1 Hm). apply IH; simpl in *; lia || done.
Qed.

Lemma read_while_fuel p f1 f2 l :
  (forall l, cursor_ok l -> p l = true -> (position l < length (input l))%nat) ->
  cursor_ok l -> (remaining l < f1)%nat -> (remaining l < f2)%nat -> read_while f1 p l = read_while f2 p l.
Proof.
  intros Hp. revert f2 l. induction f1 as [|f1 IH]; intros [|f2] l Hok H1 H2; try lia. cbn [read_while].
  destruct (p l) eqn:E; [|done]. pose proof (Hp l Hok E) as Hlt.
  destruct (moves_readRune l Hok) as (Hok1 & Ei & _ & _). pose proof (readRune_advances l Hok Hlt).
  assert (remaining (readRune l) < remaining l)%nat by (unfold remaining; rewrite Ei; lia).
  apply IH; lia || done.
Qed.

Section ScannerFuel.
Context `{Unicode}.

(** A test that fails on the rune 0 that stands for the end stops there. *)
Lemma class_stops (q : Z -> bool) l : q 0 = false -> cursor_ok l -> q (ch l) = true -> (position l < length (input l))%nat.
Proof.
  intros H0 Hok Hq. pose proof (cur_in l Hok). destruct (decide (position l = length (input l))) as [E|]; [|lia].
  destruct (cur_end l Hok E) as [Hc _]. congruence.
Qed.

Lemma number_loop_fuel f1 f2 l flag :
  cursor_ok l -> (remaining l < f1)%nat -> (remaining l < f2)%nat ->
  number_loop f1 l flag = number_loop f2 l flag.
Proof.
  revert f2 l flag. induction f1 as [|f1 IH]; intros [|f2] l flag Hok H1 H2; try lia. cbn [number_loop].
  destruct (IsDigit (ch l) || (ch l =? 46)) eqn:E; [|done].
  assert (Hlt : (position l < length (input l))%nat).
  { apply (class_stops (fun c => IsDigit c || (c =? 46))); [|done|done]. by rewrite digit_ascii by lia. }
  destruct (moves_readRune l Hok) as (Hok1 & Ei & _ & _). pose proof (readRune_advances l Hok Hlt).
  assert (remaining (readRune l) < remaining l)%nat by (unfold remaining; rewrite Ei; lia).
  destruct (ch l =? 46); [destruct (negb _); [done|]|]; apply IH; lia || done.
Qed.

(** A comment takes at least its first slash. *)
Lemma skipLineComment_progress l :
  cursor_ok l -> ch l = 47 ->
  cursor_ok (skipLineComment l).1 /\ (remaining (skipLineComment l).1 < remaining l)%nat.
Proof.
  intros Hok Hch. destruct (skipLineComment_spec l) as [Hm _]. destruct (Hm Hok) as (Hok' & Ei & _ & _).
  split; [done|]. assert (Hlt : (position l < length (input l))%nat).
  { apply (class_stops (fun c => c =? 47)); [done|done|]. by rewrite Hch. }
  destruct (moves_readRune l Hok) as (Hok1 & Ei1 & _ & _). pose proof (readRune_advances l Hok Hlt).
  unfold remaining. rewrite Ei. enough (position (readRune l) <= position (skipLineComment l).1)%nat by
    (pose proof (cur_in _ Hok'); rewrite Ei in *; lia).
  unfold skipLineComment, fuel_of. cbn [read_while].
  assert (Hf : negb (ch l =? cNewline) && negb (atEOF l) = true).
  { rewrite Hch. cbn. unfold atEOF. by rewrite (proj2 (Nat.leb_gt _ _) Hlt). }
  rewrite Hf. set (l1 := read_while _ _ (readRune l)).
  assert (Hm1 : moves (readRune l) l1) by apply moves_read_while.
  destruct (bool_decide _); cbn [fst position]; apply Hm1, Hok1.
Qed.

Lemma trivia_loop_fuel f1 f2 l fault :
  cursor_ok l -> (remaining l < f1)%nat -> (remaining l < f2)%nat ->
  trivia_loop f1 l fault = trivia_loop f2 l fault.
Proof.
  revert f2 l fault. induction f1 as [|f1 IH]; intros [|f2] l fault Hok H1 H2; try lia. cbn [trivia_loop].
  destruct (moves_remaining l (skipWhiteSpace l) Hok (moves_read_while _ _ _)) as [Hok1 Hr].
  destruct (_ && _) eqn:E; [|done]. breflect.
  destruct (skipLineComment_progress _ Hok1 H0) as [Hok2 Hr2].
  destruct (skipLineComment _) as [l2 f]. simpl in *. apply IH; lia || done.
Qed.
End ScannerFuel.

Section LexerProperties.
Context `{Unicode}.

(** The bytes the cursor steps over. *)
Lemma readRune_slice l p :
  cursor_ok l -> (p <= position l < length (input l))%nat ->
  exists bs, slice (input l) p (position (readRune l)) = slice (input l) p (position l) ++ bs /\
    (46 ∈ bs <-> ch l = 46).
Proof.
  intros Hok [Hp Hlt]. destruct (readRune_fields l) as (_ & _ & _ & ->).
  destruct (cur_rune l Hok Hlt) as [-> ->]. pose proof (rune_bytes (input l) (position l) Hlt) as Hb.
  destruct (lookup_lt_is_Some_2 _ _ Hlt) as [b Hbb]. pose proof (drop_S _ _ _ Hbb) as Hd.
  pose proof (DecodeRune_spec b (drop (S (position l)) (input l))) as Hs. rewrite <- Hd in Hs.
  destruct (DecodeRune (drop (position l) (input l))) as [r w]. cbn [fst snd].
  destruct Hb as (Hw & Hle & _). rewrite Nat.min_l by lia.
  exists (slice (input l) (position l) (position l + w)).
  split; [symmetry; apply slice_app_r; lia|]. unfold slice.
  replace (position l + w - position l)%nat with w by lia. destruct Hs as (_ & Hlo & Hhi).
  destruct (Z.ltb_spec b 128) as [Hl|Hh].
  - destruct (Hlo Hl) as [-> ->]. rewrite Hd. cbn [take]. rewrite list_elem_of_singleton. done.
  - destruct (Hhi Hh) as [Hr Hall]. rewrite list.Forall_forall in Hall. split; [|lia].
    intros Hin%Hall. lia.
Qed.

Lemma number_loop_flag fuel l p flag :
  cursor_ok l -> (p <= position l)%nat ->
  (flag = true <-> 46 ∈ slice (input l) p (position l)) ->
  let '(l', flag') := number_loop fuel l flag in
  flag' = true <-> 46 ∈ slice (input l') p (position l').
Proof.
  revert l flag. induction fuel as [|fuel IH]; intros l flag Hok Hp Hf; cbn [number_loop]; [done|].
  destruct (IsDigit (ch l) || (ch l =? 46)) eqn:E; [|done].
  assert (Hlt : (position l < length (input l))%nat).
  { pose proof (cur_in l Hok). destruct (decide (position l = length (input l))) as [Eq|]; [|lia].
    destruct (cur_end l Hok Eq) as [Hc _]. rewrite Hc, digit_ascii in E by lia. done. }
  destruct (moves_readRune l Hok) as (Hok1 & Ei & _ & Hp1).
  destruct (readRune_slice l p Hok (conj Hp Hlt)) as (bs & Hs & H46).
  assert (Hnext : forall flag', (flag' = true <-> flag = true \/ ch l = 46) ->
    let '(l', flag'') := number_loop fuel (readRune l) flag' in
    flag'' = true <-> 46 ∈ slice (input l') p (position l')).
  { intros flag' Hf'. apply IH; [done|lia|]. by rewrite Ei, Hs, elem_of_app, Hf', H46, Hf. }
  destruct (Z.eqb_spec (ch l) 46) as [Ec|Ec].
  - destruct (negb _); [done|]. apply Hnext. tauto.
  - apply Hnext. tauto.
Qed.

Lemma laid_out_ends at_ src p toks :
  laid_out at_ src p toks -> (p <= length src)%nat ->
  (length toks <= S (length src - p))%nat /\ Type_ <$> list.last toks = Some EOF.
Proof.
  revert p. induction toks as [|t ts IH]; intros p Hl Hp; [done|].
  destruct Hl as (i & j & Hi & Hj & _ & _ & [(Et & _ & _ & ->)|(_ & Hij & Hl)]).
  - split; [simpl; lia|]. simpl. by rewrite Et.
  - destruct (IH j Hl) as [H1 H2]; [lia|]. split; [simpl; lia|]. destruct ts; done.
Qed.

(** Lexing always ends.  For every byte string, UTF-8 or not, and every
    origin, draining the lexer reaches EOF, within one token per byte and the
    EOF itself. *)
Theorem lexer_terminates (src : list Z) (at_ : Position) :
  exists toks, tokens (S (length src)) (NewAt src at_) = Some toks /\
    (length toks <= S (length src))%nat /\ Type_ <$> list.last toks = Some EOF.
Proof.
  destruct (NewAt_fields src at_) as (Ei & _ & Ep).
  destruct (tokens_spec (S (length src)) (NewAt src at_) (NewAt_ok _ _)) as (toks & Ht & Hl); [rewrite Ei; lia|].
  exists toks. split; [done|]. rewrite Ei, Ep in Hl.
  destruct (laid_out_ends _ _ _ _ Hl) as [H1 H2]; [lia|]. split; [lia|done].
Qed.

(** No scan is ever cut short.  From every cursor the lexer can have, each
    loop of the scanner (quoted, raw and triple-quoted bodies, holes and the
    strings in them, names, numbers, white space, comments and the trivia they
    make up) answers the same with any larger number of turns as with the one
    the model gives it: they end because the source does. *)
Theorem scans_are_never_cut_short (l : Lexer) (extra depth : nat) (raw flag : bool) (fault : scanFault) :
  cursor_ok l ->
  let fuel := (fuel_of l + extra)%nat in
  quoted_loop fuel l fault = quoted_loop (fuel_of l) l fault /\
  raw_loop fuel l = raw_loop (fuel_of l) l /\
  triple_loop fuel raw l = triple_loop (fuel_of l) raw l /\
  skip_hole_loop fuel l depth = skip_hole_loop (fuel_of l) l depth /\
  skip_hole_string fuel l = skip_hole_string (fuel_of l) l /\
  read_while fuel ident_rune l = read_while (fuel_of l) ident_rune l /\
  number_loop fuel l flag = number_loop (fuel_of l) l flag /\
  read_while fuel (fun l => IsSpace (ch l)) l = skipWhiteSpace l /\
  read_while fuel (fun l => negb (ch l =? cNewline) && negb (atEOF l)) l =
    read_while (fuel_of l) (fun l => negb (ch l =? cNewline) && negb (atEOF l)) l /\
  trivia_loop fuel l fault = trivia_loop (fuel_of l) l fault.
Proof.
  intros Hok fuel. assert (H1 : (remaining l < fuel_of l)%nat) by (unfold remaining, fuel_of; lia).
  assert (H2 : (remaining l < fuel)%nat) by (subst fuel; lia).
  repeat split; auto using quoted_loop_fuel, raw_loop_fuel, triple_loop_fuel, skip_hole_loop_fuel,
    skip_hole_string_fuel, number_loop_fuel, trivia_loop_fuel; apply read_while_fuel; try done; clear; intros l Hok Hp.
  - apply (class_stops (fun c => IsLetter c || IsDigit c || (c =? 95))); [|done|done].
    by rewrite letter_ascii, digit_ascii by lia.
  - apply (class_stops IsSpace); [|done|done]. by rewrite space_ascii by lia.
  - apply andb_true_iff in Hp as [_ He]. apply cursor_not_eof; [done|]. by destruct (atEOF l).
Qed.

(** C26: every position is where it says it is.  The tokens of a source are
    stretches of it in order, none empty but the EOF, none overlapping, and the
    line, column and offset each carries are the ones [advance] reaches by
    walking the text before it from the origin. *)
Theorem tokens_are_located (src : list Z) (at_ : Position) (fuel : nat) (toks : list Token) :
  (length src < fuel)%nat -> tokens fuel (NewAt src at_) = Some toks -> laid_out at_ src 0 toks.
Proof.
  intros Hf Ht. destruct (NewAt_fields src at_) as (Ei & Eo & Ep).
  destruct (tokens_spec fuel (NewAt src at_) (NewAt_ok _ _)) as (toks' & Ht' & Hl); [rewrite Ei; lia|].
  rewrite Ei, Eo, Ep in Hl. congruence.
Qed.

(** Lexing a fragment gives file positions.  When a fragment is lexed at the
    position its first byte has in a file, the tokens are stretches of that
    file, from the end of the text before the fragment on, at the file's own
    lines, columns and offsets. *)
Theorem fragment_positions (before_ fragment : list Z) (fuel : nat) (toks : list Token) :
  (length fragment < fuel)%nat ->
  tokens fuel (NewAt fragment (advance (Pos 1 1 0) before_)) = Some toks ->
  laid_out (Pos 1 1 0) (before_ ++ fragment) (length before_) toks.
Proof.
  intros Hf Ht. destruct (NewAt_fields fragment (advance (Pos 1 1 0) before_)) as (Ei & Eo & Ep).
  destruct (tokens_spec fuel (NewAt fragment (advance (Pos 1 1 0) before_)) (NewAt_ok _ _))
    as (toks' & Ht' & Hl); [rewrite Ei; lia|].
  rewrite Ei, Eo, Ep in Hl. rewrite Ht' in Ht. injection Ht as ->.
  replace (length before_) with (length before_ + 0)%nat by lia. by apply laid_out_shift.
Qed.

(** A number is a float exactly when a decimal point was taken. *)
Theorem float_flag_is_a_point (l : Lexer) :
  cursor_ok l ->
  let '(l', val, isFloat) := readNumber l in isFloat = true <-> 46 ∈ val.
Proof.
  intros Hok. unfold readNumber.
  pose proof (number_loop_flag (fuel_of l) l (position l) false Hok (Nat.le_refl _)) as Hn.
  destruct (number_loop (fuel_of l) l false) as [l' flag]. apply Hn.
  unfold slice. rewrite Nat.sub_diag. cbn [take]. split; [done|]. by intros ?%not_elem_of_nil.
Qed.

Lemma length_escape s : (length s <= length (escape s))%nat.
Proof.
  induction s as [|b s IH]; cbn [escape]; [done|]. rewrite length_app.
  destruct (escape_spelling_cases b) as [(c & -> & _)|(-> & _)]; simpl; lia.
Qed.

(** On an opening quote the scan is the string scan. *)
Lemma scanToken_quote l :
  cursor_ok l -> ch l = cQuote ->
  scanToken l =
    let r := readStringToken (position l) false (opens_triple l) l in
    (readRune r.1, with_span r.2 (currentPos l) (currentPos (readRune r.1))).
Proof.
  intros Hok Hch. unfold scanToken.
  assert (Ht : skipTrivia l = (l, None)).
  { unfold skipTrivia, fuel_of. cbn [trivia_loop]. unfold skipWhiteSpace, fuel_of. cbn [read_while].
    rewrite Hch, space_ascii by (unfold cQuote; lia). cbn. by rewrite Hch. }
  rewrite Ht. assert (He : atEOF l = false).
  { apply Nat.leb_gt. pose proof (cur_in l Hok). destruct (decide (position l = length (input l))) as [E|]; [|lia].
    destruct (cur_end l Hok E) as [Hc _]. rewrite Hch in Hc. done. }
  rewrite He. assert (Hp : punctuation l = None) by (unfold punctuation; by rewrite Hch).
  by rewrite Hp, Hch.
Qed.

(** A string literal holds what was escaped into it.  Lexing the ordinary
    literal whose body spells a byte string with escapes gives one STRING token
    with exactly those bytes, spanning exactly the literal, whatever follows
    it. *)
Theorem string_literal_roundtrip (s rest : list Z) (at_ : Position) :
  s <> [] \/ rest !! 0%nat <> Some cQuote ->
  let literal := cQuote :: escape s ++ [cQuote] in
  let '(l', tok) := NextToken (NewAt (literal ++ rest) at_) in
  Type_ tok = STRING /\ Literal tok = s /\ Start tok = at_ /\ End_ tok = advance at_ literal /\
  drop (position l') (input l') = rest.
Proof.
  intros Hs literal. set (src := literal ++ rest). set (l := NewAt src at_).
  assert (Hok : cursor_ok l) by apply NewAt_ok. destruct (NewAt_fields src at_) as (Ei & Eo & Ep). fold l in Ei, Eo, Ep.
  assert (Hsrc : src = cQuote :: escape s ++ cQuote :: rest) by (subst src literal; cbn [app]; by rewrite <- app_assoc).
  destruct (cur_rune l Hok) as [Hrp Hch]; [rewrite Ei, Ep, Hsrc; simpl; lia|].
  rewrite Ei, Ep, drop_0, Hsrc, DecodeRune_low in Hrp, Hch by done. cbn [fst snd Nat.add] in Hrp, Hch.
  assert (Hb : before l s rest) by (split; [done|]; by rewrite Hrp, Ei, Hsrc).
  rewrite NextToken_is_scanToken by done. rewrite (scanToken_quote l Hok Hch).
  rewrite (escape_not_triple l s rest Hb Hs).
  destruct (readStringToken_escape l s rest (position l) Hb) as (l2 & -> & H1 & H2 & H3 & H4 & H5).
  { unfold fuel_of. rewrite Ei, Hsrc. simpl. rewrite length_app. pose proof (length_escape s). simpl. lia. }
  cbv zeta. cbn [fst snd]. destruct (readRune_fields l2) as (F1 & F2 & _ & F4).
  assert (Hl : length literal = S (S (length (escape s)))) by (subst literal; simpl; rewrite length_app; simpl; lia).
  assert (Hpos : position (readRune l2) = length literal).
  { rewrite F4, H5, H4, H2, Hrp, Ei, Hl. subst src. rewrite length_app, Hl. lia. }
  destruct (moves_readRune l2 H1) as (Hok3 & _).
  cbn [Type_ Literal Start End_ with_span]. split; [done|]. split; [done|].
  rewrite (cur_pos l Hok), (cur_pos _ Hok3), Hpos, F1, F2, H2, H3, Ei, Eo, Ep. subst src.
  split; [done|]. split; [by rewrite take_app_length|by rewrite drop_app_length].
Qed.
End LexerProperties.


(* ------------------------------------------------------------------ *)
(** ** Witnesses *)

(** [let x = 1.5; // c] and a second line. *)
Definition lexer_sample : list Z :=
  [108; 101; 116; 32; 120; 32; 61; 32; 49; 46; 53; 59; 32; 47; 47; 32; 99; 10; 120; 59].

(** The tokens of the sample. *)
Definition sample_tokens (at_ : Position) : list Token := default [] (tokens 21 (NewAt lexer_sample at_)).

Lemma scans_are_never_cut_short_witness :
  quoted_loop 50 (New (cQuote :: lexer_sample)) None = quoted_loop 22 (New (cQuote :: lexer_sample)) None.
Proof.
  exact (proj1 (scans_are_never_cut_short (New (cQuote :: lexer_sample)) 28 0 false false None (NewAt_ok _ _))).
Defined.

Lemma tokens_are_located_witness : laid_out (Pos 1 1 0) lexer_sample 0 (sample_tokens (Pos 1 1 0)).
Proof.
  apply (tokens_are_located lexer_sample (Pos 1 1 0) 21); [simpl; lia|]. vm_compute. reflexivity.
Defined.

Lemma fragment_positions_witness :
  laid_out (Pos 1 1 0) ([59; 10; 32] ++ lexer_sample) 3 (sample_tokens (Pos 2 2 3)).
Proof.
  apply (fragment_positions [59; 10; 32] lexer_sample 21); [simpl; lia|]. vm_compute. reflexivity.
Defined.

Lemma float_flag_is_a_point_witness :
  let '(_, val, isFloat) := readNumber (New [49; 46; 53]) in isFloat = true <-> 46 ∈ val.
Proof. exact (float_flag_is_a_point (New [49; 46; 53]) (NewAt_ok _ _)). Defined.

Lemma string_literal_roundtrip_witness :
  Literal (NextToken (New (cQuote :: escape [97; 34; 10] ++ [cQuote] ++ [59]))).2 = [97; 34; 10].
Proof.
  pose proof (string_literal_roundtrip [97; 34; 10] [59] (Pos 1 1 0)) as H.
  assert (Hs : [97; 34; 10] <> [] \/ [59] !! 0%nat <> Some cQuote) by (left; discriminate).
  specialize (H Hs). cbv zeta in H.
  change (cQuote :: escape [97; 34; 10] ++ [cQuote] ++ [59])
    with ((cQuote :: escape [97; 34; 10] ++ [cQuote]) ++ [59]).
  unfold New. destruct (NextToken _) as [l tok]. apply H.
Defined.
