(* ===== verification/Paths.v ===== *)
(** Paths and the import resolver: [src/module/resolve.go], with the path rules
    it takes from [src/sema/import_spelling.go] and [src/sema/id.go].

    [path/filepath] is modelled for hosts whose separator is the slash; the
    branches the source takes on Windows only are left out.  What the host
    holds (working directory, files) is a [Host] argument. *)

From stdpp Require Import base list list_numbers numbers gmap strings.
From Stdlib Require Import ZArith Lia Ascii.
From S2P Require Import Prelude Text Lexer.

(* ------------------------------------------------------------------ *)
(** ** Paths *)

Notation path := (list Z) (only parsing).

Definition cSlash : Z := 47.
Definition cDot : Z := 46.
Definition dot : path := [cDot].
Definition dotdot : path := [cDot; cDot].

(** [filepath.IsAbs]. *)
Definition IsAbs (p : path) : bool :=
  match p with c :: _ => c =? cSlash | [] => false end.

(** [filepath.Clean], element by element: [out] is the result so far, last
    element first. *)
Fixpoint clean_elements (rooted : bool) (out elements : list path) : list path :=
  match elements with
  | [] => out
  | e :: elements =>
      if bool_decide (e = []) || bool_decide (e = dot) then clean_elements rooted out elements
      else if bool_decide (e = dotdot) then
        match out with
        | last :: out' =>
            if bool_decide (last = dotdot) then clean_elements rooted (dotdot :: out) elements
            else clean_elements rooted out' elements
        | [] => clean_elements rooted (if rooted then [] else [dotdot]) elements
        end
      else clean_elements rooted (e :: out) elements
  end.

Definition Clean (p : path) : path :=
  let out := rev (clean_elements (IsAbs p) [] (Split p cSlash)) in
  if IsAbs p then cSlash :: Join out cSlash
  else if bool_decide (out = []) then dot else Join out cSlash.

(** [filepath.Join] of two elements. *)
Definition JoinPath (a b : path) : path :=
  if bool_decide (a = []) then (if bool_decide (b = []) then [] else Clean b)
  else if bool_decide (b = []) then Clean a
  else Clean (a ++ cSlash :: b).

(** [filepath.Dir]: what precedes the last separator, cleaned. *)
Definition Dir (p : path) : path :=
  Clean (concat ((fun e => e ++ [cSlash]) <$> removelast (Split p cSlash))).

(** [filepath.Base]: the last element that is not empty. *)
Definition Base (p : path) : path :=
  if bool_decide (p = []) then dot
  else default [cSlash] (list.last (filter (fun e => e <> []) (Split p cSlash))).

(** [filepath.Rel] of two absolute clean paths. *)
Fixpoint strip_common (a b : list path) : list path * list path :=
  match a, b with
  | x :: a', y :: b' => if bool_decide (x = y) then strip_common a' b' else (a, b)
  | _, _ => (a, b)
  end.

Definition Rel (base target : path) : path :=
  let elements p := filter (fun e => e <> []) (Split p cSlash) in
  let '(up, down) := strip_common (elements base) (elements target) in
  match (replicate (length up) dotdot) ++ down with
  | [] => dot
  | es => Join es cSlash
  end.

(** What the host answers: [os.Getwd], whether [os.Stat] finds a regular file,
    and [os.ReadFile]. *)
Class Host : Type := {
  Getwd : option path;
  fileExists : path -> bool;
  ReadFile : path -> option (list Z)
}.

(** [sema.CanonicalKey] and [module.canonicalKey]. *)
Definition CanonicalKey (absolutePath : path) : path := Clean absolutePath.

(** [sema.ImportPath]. *)
Definition ImportPath (spelling : path) : path :=
  (fun c => if c =? cBackslash then cSlash else c) <$> spelling.

(* ------------------------------------------------------------------ *)
(** ** Spellings *)

(** Why a spelling is refused. *)
Inductive SpellingProblem : Type :=
| BeginsWithSpace (r : Z)
| EndsWithSpace (r : Z)
| NamesNoDrive
| SegmentEnds (segment : path) (last : Z)
| PathEmpty
| NoExtension
| OnlyExtension.

(** The loop over the segments. *)
Fixpoint segment_problem (segments : list path) : option SpellingProblem :=
  match segments with
  | [] => None
  | s :: segments =>
      if bool_decide (s = []) || bool_decide (s = dot) || bool_decide (s = dotdot)
      then segment_problem segments
      else
        let last := default 0 (list.last s) in
        if (last =? cDot) || (last =? cSpace) then Some (SegmentEnds s last)
        else segment_problem segments
  end.

(** [strings.HasSuffix]. *)
Definition HasSuffix (s suffix : list Z) : bool :=
  (length suffix <=? length s)%nat && bool_decide (drop (length s - length suffix) s = suffix).

(** [Extension]. *)
Definition Extension : path := bytes ".mut".

Section Spelling.
Context `{Unicode}.

(** [strings.TrimSpace]: runes of space off the front, then off the end. *)
Fixpoint trim_left (fuel : nat) (s : list Z) : list Z :=
  match fuel, s with
  | S fuel, _ :: _ =>
      let '(r, width) := DecodeRune s in
      if IsSpace r then trim_left fuel (drop width s) else s
  | _, _ => s
  end.

Definition last_width (s : list Z) : nat := length (encodeRune (DecodeLastRune s)).

Fixpoint trim_right (fuel : nat) (s : list Z) : list Z :=
  match fuel, s with
  | S fuel, _ :: _ =>
      if IsSpace (DecodeLastRune s) then trim_right fuel (take (length s - last_width s) s) else s
  | _, _ => s
  end.

Definition TrimSpace (s : list Z) : list Z :=
  trim_right (length s) (trim_left (length s) s).

(** [sema.ImportSpellingProblem]. *)
Definition ImportSpellingProblem (spelling : path) : option SpellingProblem :=
  let first := (DecodeRune spelling).1 in
  let last := DecodeLastRune spelling in
  let local := ImportPath spelling in
  if IsSpace first then Some (BeginsWithSpace first)
  else if IsSpace last && negb (last =? cSpace) then Some (EndsWithSpace last)
  else if bool_decide (take 1 local = [cSlash]) && negb (IsAbs local) then Some NamesNoDrive
  else segment_problem (Split local cSlash).

(** [validateSpelling]; [None] is no error. *)
Definition validateSpelling (spelling : path) : option SpellingProblem :=
  if bool_decide (TrimSpace spelling = []) then Some PathEmpty
  else
    match ImportSpellingProblem spelling with
    | Some problem => Some problem
    | None =>
        if negb (HasSuffix spelling Extension) then Some NoExtension
        else if (length spelling =? length Extension)%nat then Some OnlyExtension
        else None
    end.
End Spelling.

(* ------------------------------------------------------------------ *)
(** ** The resolver *)

(** The errors of [src/module/errors.go]; [Importer] is empty until the graph
    walk fills it in. *)
Inductive module_error : Type :=
| InvalidPathError (importer spelling : path) (reason : SpellingProblem)
| NotFoundError (importer spelling importerDir : path) (searched : list path)
| CycleError (chain : list path)
| ReadError (file : path)
| ParseError (file : path) (errors : list string)
| DuplicateNamespaceError (importer : path) (namespace first second : path).

Section Resolver.
Context `{Unicode} `{Host}.

(** [filepath.Abs]. *)
Definition Abs (p : path) : option path :=
  if IsAbs p then Some (Clean p)
  else match Getwd with
       | Some cwd => Some (JoinPath cwd p)
       | None => None
       end.

(** [NewResolver]: the search path. *)
Definition NewResolver (searchPaths : list path) : list path :=
  omap (fun dir =>
    let dir := TrimSpace dir in
    if bool_decide (dir = []) then None
    else Some (Clean (default dir (Abs dir)))) searchPaths.

(** The first candidate that is a file, and the ones tried before it. *)
Fixpoint search (candidates searched : list path) : list path * option path :=
  match candidates with
  | [] => (searched, None)
  | c :: candidates =>
      if fileExists c then (searched, Some c) else search candidates (searched ++ [c])
  end.

(** The candidates of a spelling, in order. *)
Definition candidates (searchPaths : list path) (local importerDir : path) : list path :=
  if IsAbs local then [Clean local]
  else
    (if bool_decide (importerDir = []) then [] else [Clean (JoinPath importerDir local)]) ++
    ((fun dir => Clean (JoinPath dir local)) <$> searchPaths).

(** [Resolver.Resolve]. *)
Definition ResolveImport (searchPaths : list path) (spelling importerDir : path)
    : path + module_error :=
  match validateSpelling spelling with
  | Some problem => inr (InvalidPathError [] spelling problem)
  | None =>
      match search (candidates searchPaths (ImportPath spelling) importerDir) [] with
      | (_, Some file) => inl file
      | (searched, None) => inr (NotFoundError [] spelling importerDir searched)
      end
  end.

(** [displayPath]. *)
Definition displayPath (absolute : path) : path :=
  match Getwd with
  | None => absolute
  | Some cwd =>
      let rel := Rel cwd absolute in
      if bool_decide (rel = []) || bool_decide (rel = dot) then absolute
      else if bool_decide (rel = dotdot) || bool_decide (take 3 rel = dotdot ++ [cSlash])
      then absolute
      else rel
  end.
End Resolver.

(* ------------------------------------------------------------------ *)
(** ** Clean paths *)

Definition name_element (e : path) : Prop := e <> [] /\ e <> dot /\ e <> dotdot /\ cSlash ∉ e.

(** The elements of a clean path, last first: names, over a run of [..] that
    only a relative path can begin with. *)
Inductive clean_out (rooted : bool) : list path -> Prop :=
| clean_nil : clean_out rooted []
| clean_up out : rooted = false -> Forall (eq dotdot) out -> clean_out rooted (dotdot :: out)
| clean_name e out : name_element e -> clean_out rooted out -> clean_out rooted (e :: out).

Lemma clean_ups rooted out : rooted = false -> Forall (eq dotdot) out -> clean_out rooted out.
Proof. intros Hr [|]; subst; by constructor. Qed.

Lemma clean_out_tail rooted a b : clean_out rooted (a ++ b) -> clean_out rooted b.
Proof.
  induction a as [|e a IH]; [done|]. cbn [app]. intros Hc. apply IH. inversion Hc; subst; [|done].
  by apply clean_ups.
Qed.

Lemma clean_elements_clean rooted out es :
  clean_out rooted out -> Forall (fun e => cSlash ∉ e) es -> clean_out rooted (clean_elements rooted out es).
Proof.
  intros Hc Hes. revert out Hc. induction Hes as [|e es He _ IH]; intros out Hc; cbn [clean_elements]; [done|].
  destruct (bool_decide (e = [])) eqn:E1; [by apply IH|].
  destruct (bool_decide (e = dot)) eqn:E2; [by apply IH|]. cbn [orb].
  apply bool_decide_eq_false in E1, E2. case_bool_decide.
  - destruct Hc as [|out Hr Hf|e' out Hn Hc].
    + apply IH. destruct rooted; by repeat constructor.
    + rewrite bool_decide_eq_true_2 by done. apply IH. constructor; [done|]. by constructor.
    + rewrite bool_decide_eq_false_2 by (by destruct Hn as (_ & _ & ? & _)). by apply IH.
  - apply IH. by constructor.
Qed.

Lemma clean_elements_fixed rooted out es :
  clean_out rooted (rev es ++ out) -> clean_elements rooted out es = rev es ++ out.
Proof.
  revert out. induction es as [|e es IH]; intros out Hc; cbn [clean_elements rev app]; [done|].
  cbn [rev] in Hc. rewrite <- app_assoc in *. cbn [app] in *.
  pose proof (clean_out_tail _ _ _ Hc) as Ht. inversion Ht as [|out' Hr Hf|e' out' Hn Hc']; subst.
  - rewrite bool_decide_eq_false_2, bool_decide_eq_false_2, bool_decide_eq_true_2 by done. cbn [orb].
    destruct Hf as [|d out' <- Hf]; [by apply IH|]. rewrite bool_decide_eq_true_2 by done. by apply IH.
  - destruct Hn as (H1 & H2 & H3 & _). rewrite !bool_decide_eq_false_2 by done. by apply IH.
Qed.

Lemma Split_Join es sep : es <> [] -> Forall (fun e => sep ∉ e) es -> Split (Join es sep) sep = es.
Proof.
  intros Hne Hes. induction Hes as [|e es He Hes IH]; [done|]. destruct es as [|e' es].
  - by apply Split_none.
  - rewrite Join_cons by done. rewrite Split_app by done. by rewrite IH.
Qed.

Lemma Split_no_sep s sep : Forall (fun e => sep ∉ e) (Split s sep).
Proof.
  induction s as [|c s IH]; cbn [Split]; [repeat constructor; apply not_elem_of_nil|].
  destruct (Z.eqb_spec c sep); [constructor; [apply not_elem_of_nil|done]|].
  inversion IH as [|e es He Hes E]; [by destruct (Split_ne s sep)|]. subst.
  constructor; [|done]. by apply not_elem_of_cons.
Qed.

Lemma clean_out_no_slash rooted out : clean_out rooted out -> Forall (fun e => cSlash ∉ e) out.
Proof.
  assert (Hd : cSlash ∉ dotdot) by (apply (bool_decide_unpack _); vm_compute; exact I).
  induction 1 as [|out _ Hf|e out Hn _ IH]; constructor; try done; [|apply Hn].
  eapply list.Forall_impl; [exact Hf|]. by intros ? <-.
Qed.

Lemma Join_head e es : e <> [] -> IsAbs (Join (e :: es) cSlash) = IsAbs e.
Proof. intros He. destruct e; [done|]. by destruct es. Qed.

Lemma IsAbs_no_slash e : cSlash ∉ e -> IsAbs e = false.
Proof.
  destruct e as [|c e]; [done|]. intros [Hc _]%not_elem_of_cons. cbn [IsAbs]. apply Z.eqb_neq. congruence.
Qed.

Lemma clean_out_nonempty rooted out : clean_out rooted out -> Forall (fun e => e <> []) out.
Proof.
  induction 1 as [|out _ Hf|e out Hn _ IH]; constructor; try done; [|apply Hn].
  eapply list.Forall_impl; [exact Hf|]. by intros ? <-.
Qed.

Lemma Clean_out (out : list path) rooted :
  clean_out rooted out ->
  Clean (if rooted then cSlash :: Join (rev out) cSlash
         else if bool_decide (rev out = []) then dot else Join (rev out) cSlash) =
  (if rooted then cSlash :: Join (rev out) cSlash
   else if bool_decide (rev out = []) then dot else Join (rev out) cSlash).
Proof.
  intros Hc. pose proof (clean_out_no_slash _ _ Hc) as Hs. apply Forall_rev in Hs.
  pose proof (clean_out_nonempty _ _ Hc) as Hn. apply Forall_rev in Hn.
  assert (Hfix : clean_elements rooted [] (rev out) = out).
  { rewrite clean_elements_fixed; rewrite rev_involutive, app_nil_r; done. }
  unfold Clean. destruct rooted.
  - cbn [IsAbs]. rewrite Z.eqb_refl. cbn [Split]. rewrite Z.eqb_refl. cbn [clean_elements].
    rewrite bool_decide_eq_true_2 by done. cbn [orb]. destruct (decide (rev out = [])) as [E|E].
    + rewrite E in *. cbn [Join Split clean_elements]. by rewrite bool_decide_eq_true_2.
    + by rewrite Split_Join, Hfix.
  - case_bool_decide as E; [done|]. destruct (rev out) as [|e es] eqn:Eo; [done|].
    apply list.Forall_cons in Hn as [He _]. pose proof Hs as Hs'. apply list.Forall_cons in Hs' as [Hes _].
    rewrite Join_head, IsAbs_no_slash, Split_Join, Hfix, Eo by done. by rewrite bool_decide_eq_false_2.
Qed.

(** Cleaning is idempotent: a clean path is its own key. *)
Lemma Clean_idempotent p : Clean (Clean p) = Clean p.
Proof.
  unfold Clean at 2 3. apply Clean_out. apply clean_elements_clean; [constructor|apply Split_no_sep].
Qed.

Lemma Clean_IsAbs p : IsAbs p = true -> IsAbs (Clean p) = true.
Proof. intros H. unfold Clean. by rewrite H. Qed.

Lemma JoinPath_clean a b : Clean (JoinPath a b) = JoinPath a b \/ JoinPath a b = [].
Proof.
  unfold JoinPath. repeat case_bool_decide; auto; left; apply Clean_idempotent.
Qed.

(* ------------------------------------------------------------------ *)
(** ** What the resolver answers *)

Section ResolverFacts.
Context `{Unicode} `{Host}.

Lemma search_spec cs before_ :
  match search cs before_ with
  | (searched, Some file) =>
      fileExists file = true /\
      exists i, cs !! i = Some file /\ searched = before_ ++ take i cs /\
        Forall (fun c => fileExists c = false) (take i cs)
  | (searched, None) => searched = before_ ++ cs /\ Forall (fun c => fileExists c = false) cs
  end.
Proof.
  revert before_. induction cs as [|c cs IH]; intros before_; cbn [search]; [by rewrite app_nil_r|].
  destruct (fileExists c) eqn:E.
  - split; [done|]. exists 0%nat. rewrite app_nil_r. by split; [|split; [|constructor]].
  - specialize (IH (before_ ++ [c])). destruct (search cs (before_ ++ [c])) as [searched [file|]].
    + destruct IH as (He & i & Hi & Hs & Hf). split; [done|]. exists (S i). split; [done|].
      cbn [take]. rewrite <- app_assoc in Hs. split; [done|]. by constructor.
    + destruct IH as [Hs Hf]. rewrite <- app_assoc in Hs. split; [done|]. by constructor.
Qed.

Lemma candidates_clean sp local dir c : c ∈ candidates sp local dir -> Clean c = c.
Proof.
  unfold candidates. destruct (IsAbs local).
  { intros ->%list_elem_of_singleton. apply Clean_idempotent. }
  intros [Hc|Hc]%elem_of_app.
  - case_bool_decide; [by apply not_elem_of_nil in Hc|].
    apply list_elem_of_singleton in Hc as ->. apply Clean_idempotent.
  - apply list_elem_of_fmap in Hc as (d & -> & _). apply Clean_idempotent.
Qed.

Lemma ResolveImport_file sp spelling dir file :
  ResolveImport sp spelling dir = inl file -> fileExists file = true /\ Clean file = file.
Proof.
  unfold ResolveImport. destruct (validateSpelling spelling); [done|].
  pose proof (search_spec (candidates sp (ImportPath spelling) dir) []) as Hs.
  destruct (search _ _) as [searched [f|]]; [|done]. intros [= <-]. destruct Hs as (He & i & Hi & _).
  split; [done|]. eapply candidates_clean. by eapply list_elem_of_lookup_2.
Qed.

(** An import names the first candidate that is a file.  The resolver
    refuses a spelling exactly when validation does; otherwise it answers with
    the first of its candidates (the importing file's directory, then the
    search path in the order given, or the path itself when it is absolute)
    that is a file, already in the form that identifies it; and when it
    reports a missing module, the directories it lists are all the candidates,
    and none of them is a file. *)
Theorem resolver_first_match (searchPaths : list path) (spelling dir : path) :
  let cs := candidates searchPaths (ImportPath spelling) dir in
  match ResolveImport searchPaths spelling dir with
  | inl file =>
      validateSpelling spelling = None /\ fileExists file = true /\ CanonicalKey file = file /\
      exists i, cs !! i = Some file /\ Forall (fun c => fileExists c = false) (take i cs)
  | inr (InvalidPathError importer s reason) =>
      importer = [] /\ s = spelling /\ validateSpelling spelling = Some reason
  | inr (NotFoundError importer s d searched) =>
      validateSpelling spelling = None /\ importer = [] /\ s = spelling /\ d = dir /\
      searched = cs /\ Forall (fun c => fileExists c = false) cs
  | inr _ => False
  end.
Proof.
  cbv zeta. pose proof (ResolveImport_file searchPaths spelling dir) as Hf. unfold ResolveImport in *.
  destruct (validateSpelling spelling) as [problem|]; [done|].
  pose proof (search_spec (candidates searchPaths (ImportPath spelling) dir) []) as Hs.
  destruct (search _ _) as [searched [file|]].
  - destruct (Hf file eq_refl) as [_ Hc]. destruct Hs as (He & i & Hi & _ & Hb). eauto 10.
  - destruct Hs as [-> Hn]. done.
Qed.
End ResolverFacts.

(** A host with three files, for the examples. *)
Definition sample_files : list (path * list Z) :=
  [(bytes "/p/main.mut", bytes "import a"); (bytes "/p/lib/a.mut", bytes "import b");
   (bytes "/q/b.mut", bytes "let x")].

#[export] Instance sample_host : Host := {
  Getwd := Some (bytes "/p");
  fileExists p := bool_decide (p ∈ sample_files.*1);
  ReadFile p := (fun r => r.2.2) <$> list_find (fun f => f.1 = p) sample_files
}.

Example resolve_relative :
  ResolveImport [bytes "/q"] (bytes "lib\a.mut") (Dir (bytes "/p/main.mut")) = inl (bytes "/p/lib/a.mut").
Proof. vm_compute. reflexivity. Qed.

Example resolve_searched :
  ResolveImport (NewResolver [bytes " /q/./ "]) (bytes "../lib/./b.mut") (bytes "/p")
  = inr (NotFoundError [] (bytes "../lib/./b.mut") (bytes "/p") [bytes "/lib/b.mut"; bytes "/lib/b.mut"]).
Proof. vm_compute. reflexivity. Qed.

Example resolve_dotted : validateSpelling (bytes "lib./b.mut") = Some (SegmentEnds (bytes "lib.") cDot).
Proof. vm_compute. reflexivity. Qed.

Example display_inside : displayPath (bytes "/p/lib/a.mut") = bytes "lib/a.mut".
Proof. vm_compute. reflexivity. Qed.

Example display_outside : displayPath (bytes "/q/b.mut") = bytes "/q/b.mut".
Proof. vm_compute. reflexivity. Qed.

Example clean_mixed : Clean (bytes "a//b/.././../../c/") = bytes "../c".
Proof. vm_compute. reflexivity. Qed.
