(* ===== verification/Ast.v ===== *)
(** * Syntax trees: [src/ast]

    The nodes the compiler reads.  A node is compared and looked up by its
    pointer, which is a number here; an expression the parser could not make is
    [Missing], Go's nil.  Identifiers that only carry a name (parameters, field
    names, loop variables) are their names; a pointer to a block is never nil in
    a tree that parsed. *)

From stdpp Require Import base list numbers gmap strings.
From Stdlib Require Import ZArith Lia.
From S2P Require Import Prelude Text Lexer Paths.

Inductive expr : Type :=
| Missing
| Expr (node : nat) (e : expression)
with expression : Type :=
| Identifier (Value : string)
| IntegerLiteral (Value : Z)
| FloatLiteral (Value : Z)                       (* the bits of the double *)
| StringLiteral (Value : list Z)
| BooleanLiteral (Value : bool)
| TemplateLiteral (Texts : list (list Z)) (Parts : list expr)
| ArrayLiteral (Elements : list expr)
| HashLiteral (Pairs : list (expr * expr))
| PrefixExpression (Operator : string) (Right : expr)
| InfixExpression (Left : expr) (Operator : string) (Right : expr)
| IndexExpression (Left Index : expr)
| FieldExpression (Left : expr) (Field : string)
| CallExpression (Function : expr) (Arguments : list expr)
| IfExpression (Condition : expr) (Consequence : block) (Alternative : option block)
| MatchExpression (Subject : expr) (Arms : list (list expr * block))
| FunctionLiteral (Name : string) (Parameters : list string) (Body : block)
| MacroLiteral (Parameters : list string) (Body : block)
| AssignExpression (Left : expr) (Operator : string) (Value : expr)
| StructLiteral (Name : string) (Fields : list (string * expr))
with statement : Type :=
| Stmt (node : nat) (s : stmt)
with stmt : Type :=
| LetStatement (Names : list string) (Value : expr)
| ReturnStatement (ReturnValues : list expr)
| ExpressionStatement (Expression : expr)
| BlockStatement (Statements : list statement)
| ForStatement (Init : option statement) (Condition Post : option expr) (Body : block)
| ForInStatement (Key : option string) (Value : string) (Iterable : expr) (Body : block)
| WhileStatement (Condition : expr) (Body : block)
| BreakStatement
| ContinueStatement
| StructStatement (Name : string) (Fields : list string)
| EnumStatement (Name : string) (Variants : list string)
| ImportStatement (Alias : option string) (Path : list Z)
with block : Type :=
| Block (node : nat) (Statements : list statement).

Definition statements (b : block) : list statement := match b with Block _ l => l end.

(** [ast.Node], of the nodes [Compile] is handed. *)
Inductive node : Type :=
| NExpr (e : expr)
| NStmt (s : statement)
| NBlock (b : block).

(** The pointer, when there is one. *)
Definition pointer (n : node) : option nat :=
  match n with
  | NExpr Missing => None
  | NExpr (Expr p _) | NStmt (Stmt p _) | NBlock (Block p _) => Some p
  end.

(** [ast.Range] and [ast.MacroOrigin]. *)
Record Range : Type := Rng_ { r_Start : Position; r_End : Position }.
Record MacroOrigin : Type := Origin { Call : Range; Definition_ : Range }.

(** [ast.Program] with its side tables. *)
Record source : Type := Source {
  s_Statements : list statement;
  s_NodePositions : gmap nat Range;
  s_MacroExpansions : gmap nat MacroOrigin;
  s_Comments : list Comment;
  s_Parenthesized : gset nat }.

(* ------------------------------------------------------------------ *)
(** ** Depth *)

Definition deepest {A : Type} (d : A -> nat) (l : list A) : nat := foldr (fun a n => Nat.max (d a) n) 0%nat l.

(** How deep a tree nests, counting nodes. *)
Fixpoint expr_depth (e : expr) : nat :=
  match e with
  | Missing => 1
  | Expr _ e => S (expression_depth e)
  end
with expression_depth (e : expression) : nat :=
  match e with
  | Identifier _ | IntegerLiteral _ | FloatLiteral _ | StringLiteral _ | BooleanLiteral _ => 0
  | TemplateLiteral _ parts => deepest expr_depth parts
  | ArrayLiteral l => deepest expr_depth l
  | HashLiteral l => deepest (fun p => Nat.max (expr_depth p.1) (expr_depth p.2)) l
  | PrefixExpression _ e => expr_depth e
  | InfixExpression l _ r => Nat.max (expr_depth l) (expr_depth r)
  | IndexExpression l r => Nat.max (expr_depth l) (expr_depth r)
  | FieldExpression l _ => expr_depth l
  | CallExpression f l => Nat.max (expr_depth f) (deepest expr_depth l)
  | IfExpression c a b =>
      Nat.max (expr_depth c) (Nat.max (block_depth a) (match b with Some b => block_depth b | None => 0%nat end))
  | MatchExpression e l =>
      Nat.max (expr_depth e) (deepest (fun a => Nat.max (deepest expr_depth a.1) (block_depth a.2)) l)
  | FunctionLiteral _ _ b => block_depth b
  | MacroLiteral _ b => block_depth b
  | AssignExpression l _ r => Nat.max (expr_depth l) (expr_depth r)
  | StructLiteral _ l => deepest (fun p => expr_depth p.2) l
  end
with statement_depth (s : statement) : nat :=
  match s with Stmt _ s => S (stmt_depth s) end
with stmt_depth (s : stmt) : nat :=
  match s with
  | LetStatement _ e => expr_depth e
  | ReturnStatement l => deepest expr_depth l
  | ExpressionStatement e => expr_depth e
  | BlockStatement l => deepest statement_depth l
  | ForStatement i c p b =>
      Nat.max (match i with Some s => statement_depth s | None => 0%nat end)
        (Nat.max (match c with Some e => expr_depth e | None => 0%nat end)
           (Nat.max (match p with Some e => expr_depth e | None => 0%nat end) (block_depth b)))
  | ForInStatement _ _ e b => Nat.max (expr_depth e) (block_depth b)
  | WhileStatement e b => Nat.max (expr_depth e) (block_depth b)
  | BreakStatement | ContinueStatement | StructStatement _ _ | EnumStatement _ _ | ImportStatement _ _ => 0
  end
with block_depth (b : block) : nat :=
  match b with Block _ l => S (deepest statement_depth l) end.

Definition node_depth (n : node) : nat :=
  match n with
  | NExpr e => expr_depth e
  | NStmt s => statement_depth s
  | NBlock b => block_depth b
  end.
