(* ===== verification/Module.v ===== *)
(** The module graph: [src/module/graph.go], the errors of
    [src/module/errors.go] it raises and the scope it hands the compiler
    ([src/module/link.go]).

    [Resolver.Load] walks the imports of a file depth first.  A [*Module] is
    shared by everything that imports it, so modules live in a store keyed by
    what identifies them ([byKey]), and the order is a list of pointers into
    it.  The parser is an argument: what it makes of a source, and the errors
    it reports for it. *)

From stdpp Require Import base list list_numbers numbers gmap sets strings.
From Stdlib Require Import ZArith Lia.
From S2P Require Import Prelude Text Lexer Paths Ast.

(* ------------------------------------------------------------------ *)
(** ** Programs, as far as linking reads them *)

(** [ast.ImportStatement]: the alias and the path, each possibly nil; any other
    statement, with its tree. *)
Inductive Statement : Type :=
| ImportStatement (node : nat) (Alias : option path) (Path : option path)
| OtherStatement (s : statement).

(** [ast.Program]; a node of the two side tables is a number. *)
Record Program : Type := Prog {
  Statements : list Statement;
  NodePositions : gmap nat Range;
  p_Comments : list Comment;
  MacroExpansions : gmap nat MacroOrigin }.

(** [ImportStatement.Namespace]; [path.Base] is [filepath.Base] here. *)
Definition TrimSuffix (s suffix : list Z) : list Z :=
  if HasSuffix s suffix then take (length s - length suffix) s else s.

Definition Namespace (Alias Path : option path) : path :=
  match Alias, Path with
  | Some name, _ => name
  | None, None => []
  | None, Some p => TrimSuffix (Base (ImportPath p)) (bytes ".mut")
  end.

(** [parser.New(lexer.New(source)).ParseProgram()] and [PositionedErrors]. *)
Class Parser : Type := {
  ParseProgram : list Z -> Program;
  PositionedErrors : list Z -> path -> list string
}.

(* ------------------------------------------------------------------ *)
(** ** The walk *)

(** [ResolvedImport], [Module] and [Graph]. *)
Record ResolvedImport : Type := RI { ri_Namespace : path; Spelling : path; ri_Path : path }.

Record Module : Type := Mod {
  m_Path : path; Display : path; m_Source : list Z; m_Program : Program;
  Imports : list ResolvedImport }.

Record Graph : Type := G { Modules : list Module; Entry : Module }.

Inductive walkState : Type := walkUnseen | walkOnStack | walkDone.

#[export] Instance walkState_eq_dec : EqDecision walkState.
Proof. solve_decision. Defined.

(** [walker]; [order] holds pointers into [byKey]. *)
Record walker : Type := W {
  byKey : gmap path Module; state : gmap path walkState; order : list path; stack : list path }.

(** What a walk hands back. *)
Inductive result (A : Type) : Type :=
| Done (a : A)
| Failed (e : module_error)
| OutOfFuel.
Arguments Done {A} a.
Arguments Failed {A} e.
Arguments OutOfFuel {A}.

(** [decorateResolveError]. *)
Definition decorateResolveError (importer : path) (e : module_error) : module_error :=
  match e with
  | NotFoundError [] spelling dir searched => NotFoundError importer spelling dir searched
  | InvalidPathError [] spelling reason => InvalidPathError importer spelling reason
  | e => e
  end.

(** [mod.Imports = append(mod.Imports, imp)] through the shared pointer. *)
Definition add_import (key : path) (imp : ResolvedImport) (w : walker) : walker :=
  W (alter (fun m => Mod (m_Path m) (Display m) (m_Source m) (m_Program m) (Imports m ++ [imp]))
           key (byKey w))
    (state w) (order w) (stack w).

Section Walk.
Context `{Unicode} `{Host} `{Parser}.
Context (searchPaths : list path).

(** The loop of [visitImports], over [visit]. *)
Fixpoint visitImports (visit : walker -> path -> result (walker * path)) (key dir display : path)
    (boundBy : gmap path path) (stmts : list Statement) (w : walker) : result walker :=
  match stmts with
  | [] => Done w
  | ImportStatement _ Alias (Some spelling) :: stmts =>
      let namespace := Namespace Alias (Some spelling) in
      match boundBy !! namespace with
      | Some previous => Failed (DuplicateNamespaceError display namespace previous spelling)
      | None =>
          match ResolveImport searchPaths spelling dir with
          | inr e => Failed (decorateResolveError display e)
          | inl target =>
              match visit w target with
              | Done (w, _) =>
                  visitImports visit key dir display (<[namespace := spelling]> boundBy) stmts
                    (add_import key (RI namespace spelling target) w)
              | Failed e => Failed e
              | OutOfFuel => OutOfFuel
              end
          end
      end
  | _ :: stmts => visitImports visit key dir display boundBy stmts w
  end.

(** [visit]; the fuel bounds the depth of the import chain. *)
Fixpoint visit (fuel : nat) (w : walker) (absolute : path) : result (walker * path) :=
  match fuel with
  | O => OutOfFuel
  | S fuel =>
      let key := CanonicalKey absolute in
      match default walkUnseen (state w !! key) with
      | walkDone => Done (w, key)
      | walkOnStack => Failed (CycleError (stack w ++ [displayPath absolute]))
      | walkUnseen =>
          match ReadFile absolute with
          | None => Failed (ReadError absolute)
          | Some source =>
              let display := displayPath absolute in
              let program := ParseProgram source in
              match PositionedErrors source display with
              | e :: errs => Failed (ParseError display (e :: errs))
              | [] =>
                  let w := W (<[key := Mod absolute display source program []]> (byKey w))
                             (<[key := walkOnStack]> (state w)) (order w) (stack w ++ [display]) in
                  match visitImports (visit fuel) key (Dir absolute) display ∅ (Statements program) w with
                  | Done w =>
                      Done (W (byKey w) (<[key := walkDone]> (state w)) (order w ++ [key])
                              (removelast (stack w)), key)
                  | Failed e => Failed e
                  | OutOfFuel => OutOfFuel
                  end
              end
          end
      end
  end.

(** [Load]. *)
Definition Load (fuel : nat) (entry : path) : result Graph :=
  match Abs entry with
  | None => Failed (ReadError entry)
  | Some absolute =>
      match visit fuel (W ∅ ∅ [] []) (Clean absolute) with
      | Done (w, root) =>
          match byKey w !! root with
          | Some m => Done (G (omap (fun key => byKey w !! key) (order w)) m)
          | None => OutOfFuel
          end
      | Failed e => Failed e
      | OutOfFuel => OutOfFuel
      end
  end.
End Walk.

(** [Module.Key] and [Module.Scope], with [compiler.ModuleScope]. *)
Definition Key (m : Module) : path := CanonicalKey (m_Path m).

Record ModuleScope : Type := Scope_ {
  ms_Key : path; ms_Display : path; Namespaces : gmap path path }.

Definition Scope (m : Module) : ModuleScope :=
  Scope_ (Key m) (Display m)
    (foldl (fun ns imp => <[ri_Namespace imp := CanonicalKey (ri_Path imp)]> ns) ∅ (Imports m)).

(* ------------------------------------------------------------------ *)
(** ** The walk ends *)

Section WalkEnds.
Context `{Unicode} `{Host} `{Parser}.
Context (searchPaths : list path).

(** The files a walk has opened, and how many it may still open. *)
Definition mark (w : walker) (key : path) : walkState := default walkUnseen (state w !! key).

Definition seen (w : walker) : gset path := dom (filter (fun ks => ks.2 <> walkUnseen) (state w)).

Definition unseen (files : gset path) (w : walker) : nat := size (files ∖ seen w).

Lemma elem_of_seen w k : k ∈ seen w <-> mark w k <> walkUnseen.
Proof.
  unfold seen, mark. rewrite elem_of_dom. destruct (state w !! k) as [s|] eqn:E; cbn [default].
  - split.
    + intros [s' Hs]. apply map_lookup_filter_Some in Hs as [Hs Hn]. by simplify_eq.
    + intros Hn. exists s. by apply map_lookup_filter_Some.
  - split; [|done]. intros [s' Hs]. apply map_lookup_filter_Some in Hs as [Hs _]. congruence.
Qed.

Lemma unseen_mono files w w' : seen w ⊆ seen w' -> (unseen files w' <= unseen files w)%nat.
Proof. intros Hd. apply subseteq_size. set_solver. Qed.

Lemma unseen_open files w w' key :
  key ∈ files -> mark w key = walkUnseen -> seen w ⊆ seen w' -> key ∈ seen w' ->
  (unseen files w' < unseen files w)%nat.
Proof.
  intros Hk Hn Hsub Hin. assert (Hout : key ∉ seen w) by (rewrite elem_of_seen; tauto).
  apply subset_size. split; [set_solver|]. intros Hc.
  assert (key ∈ files ∖ seen w') by (apply Hc; set_solver). set_solver.
Qed.

Lemma seen_insert w key s b o t :
  s <> walkUnseen -> seen (W b (<[key := s]> (state w)) o t) = {[key]} ∪ seen w.
Proof.
  intros Hs. apply set_eq. intros k. rewrite elem_of_union, elem_of_singleton, !elem_of_seen. unfold mark.
  cbn [state]. destruct (decide (k = key)) as [->|Hne].
  - rewrite lookup_insert_eq. naive_solver.
  - rewrite lookup_insert_ne by done. naive_solver.
Qed.

(** A walk that does not stop early leaves more files seen. *)
Definition returns {A : Type} (w : walker) (next : A -> walker) (r : result A) : Prop :=
  match r with
  | Done a => seen w ⊆ seen (next a)
  | Failed _ => True
  | OutOfFuel => False
  end.

Lemma visitImports_returns (vis : walker -> path -> result (walker * path)) files bound key dir display boundBy stmts w :
  (forall w a, (unseen files w < bound)%nat -> returns w fst (vis w a)) ->
  (unseen files w < bound)%nat ->
  returns w id (visitImports searchPaths vis key dir display boundBy stmts w).
Proof.
  intros Hvis. revert boundBy w. induction stmts as [|st stmts IH]; intros boundBy w Hw; cbn [visitImports]; [by cbn|].
  destruct st as [node Alias [spelling|]|]; [|by apply IH|by apply IH].
  destruct (boundBy !! _); [done|]. destruct (ResolveImport _ _ _) as [target|e]; [|done].
  specialize (Hvis w target Hw). destruct (vis w target) as [[w1 k1]|e|]; [|done|done]. cbn [returns fst] in Hvis.
  set (w2 := add_import _ _ w1). assert (Hd : seen w ⊆ seen w2) by exact Hvis.
  pose proof (unseen_mono files w w2 Hd).
  specialize (IH (<[Namespace Alias (Some spelling):=spelling]> boundBy) w2 ltac:(lia)).
  destruct (visitImports _ _ _ _ _ _ _ _); [|done|done]. cbn [returns id] in *. set_solver.
Qed.

Lemma visit_returns files :
  (forall p, is_Some (ReadFile p) -> CanonicalKey p ∈ files) ->
  forall fuel w a, (unseen files w < fuel)%nat -> returns w fst (visit searchPaths fuel w a).
Proof.
  intros Hfin. induction fuel as [|fuel IH]; intros w a Hf; [lia|]. cbn [visit].
  fold (mark w (CanonicalKey a)). destruct (mark w (CanonicalKey a)) eqn:Es; [|done|by cbn].
  destruct (ReadFile a) as [source|] eqn:Er; [|done]. destruct (PositionedErrors _ _); [|done].
  set (w1 := W _ _ _ _). assert (Hs1 : seen w1 = {[CanonicalKey a]} ∪ seen w) by by apply seen_insert.
  assert (Hu : (unseen files w1 < unseen files w)%nat).
  { apply (unseen_open files w w1 (CanonicalKey a)); [apply Hfin; eauto|done|set_solver|set_solver]. }
  pose proof (visitImports_returns (visit searchPaths fuel) files fuel (CanonicalKey a) (Dir a) (displayPath a)
    ∅ (Statements (ParseProgram source)) w1 IH ltac:(lia)) as Hi.
  destruct (visitImports _ _ _ _ _ _ _ _) as [w2|e|]; [|done|done]. cbn [returns id fst] in *.
  rewrite seen_insert by done. set_solver.
Qed.
End WalkEnds.

(* ------------------------------------------------------------------ *)
(** ** What a walk establishes *)

Section WalkInvariant.
Context `{Unicode} `{Host} `{Parser}.
Context (searchPaths : list path).

(** The imports a program's statements spell, resolved from a directory. *)
Definition imports_of (dir : path) (stmts : list Statement) : list ResolvedImport :=
  omap (fun st =>
    match st with
    | ImportStatement _ Alias (Some spelling) =>
        match ResolveImport searchPaths spelling dir with
        | inl target => Some (RI (Namespace Alias (Some spelling)) spelling target)
        | inr _ => None
        end
    | _ => None
    end) stmts.

(** A module is what the host and the parser say of its file. *)
Definition faithful (m : Module) : Prop :=
  ReadFile (m_Path m) = Some (m_Source m) /\ Display m = displayPath (m_Path m) /\
  m_Program m = ParseProgram (m_Source m) /\ PositionedErrors (m_Source m) (Display m) = [].

Definition import_key (imp : ResolvedImport) : path := CanonicalKey (ri_Path imp).

(** What a finished module has: all its imports, each under its own name, each
    earlier in the order. *)
Definition finished (before_ : list path) (m : Module) : Prop :=
  Imports m = imports_of (Dir (m_Path m)) (Statements (m_Program m)) /\
  NoDup (ri_Namespace <$> Imports m) /\ Forall (fun imp => import_key imp ∈ before_) (Imports m).

Record winv (w : walker) : Prop := {
  inv_nodup : NoDup (order w);
  inv_order : forall k, k ∈ order w <-> mark w k = walkDone;
  inv_module : forall k, mark w k <> walkUnseen -> exists m, byKey w !! k = Some m /\ Key m = k /\ faithful m;
  inv_heap : forall k, mark w k = walkUnseen -> byKey w !! k = None;
  inv_done : forall i k m, order w !! i = Some k -> byKey w !! k = Some m -> finished (take i (order w)) m }.

(** One module's imports lead to another. *)
Inductive reaches (heap : gmap path Module) : path -> path -> Prop :=
| reaches_refl k : reaches heap k k
| reaches_step k m imp k' :
    heap !! k = Some m -> imp ∈ Imports m -> reaches heap (import_key imp) k' -> reaches heap k k'.

(** How a walk changes the walker: the order grows at its end by files the
    walk's start leads to, the files on the stack stay on it, and no module
    but [top] changes. *)
Record wext (top : option path) (from : path) (w w' : walker) : Prop := {
  ext_order : exists new, order w' = order w ++ new /\ Forall (reaches (byKey w') from) new;
  ext_stack : stack w' = stack w;
  ext_mark : forall k, mark w k <> walkUnseen -> mark w' k = mark w k;
  ext_new : forall k, mark w k = walkUnseen -> mark w' k <> walkOnStack;
  ext_same : forall k, mark w k <> walkUnseen -> top <> Some k -> byKey w' !! k = byKey w !! k;
  ext_heap : forall k m, byKey w !! k = Some m ->
    exists m', byKey w' !! k = Some m' /\ Imports m `prefix_of` Imports m' }.

Lemma reaches_grows heap heap' k k' :
  (forall k m, heap !! k = Some m -> exists m', heap' !! k = Some m' /\ Imports m `prefix_of` Imports m') ->
  reaches heap k k' -> reaches heap' k k'.
Proof.
  intros Hg. induction 1 as [|k m imp k' Hm Hi _ IH]; [constructor|].
  destruct (Hg k m Hm) as (m' & Hm' & [rest Hp]). eapply reaches_step; [exact Hm'| |exact IH].
  rewrite Hp. apply elem_of_app. by left.
Qed.

Lemma wext_refl top from w : wext top from w w.
Proof.
  split; [exists []; by rewrite app_nil_r|done|done|congruence|done|]. intros k m Hm. by exists m.
Qed.

Lemma wext_trans top from w1 w2 w3 : wext top from w1 w2 -> wext top from w2 w3 -> wext top from w1 w3.
Proof.
  intros [(n1 & O1 & R1) S1 M1 N1 E1 H1'] [(n2 & O2 & R2) S2 M2 N2 E2 H2']. split.
  - exists (n1 ++ n2). split; [by rewrite O2, O1, app_assoc|]. apply list.Forall_app. split; [|done].
    eapply list.Forall_impl; [exact R1|]. intros k. by apply reaches_grows.
  - congruence.
  - intros k Hk. rewrite M2; [by apply M1|]. by rewrite M1.
  - intros k Hk. destruct (decide (mark w2 k = walkUnseen)); [by apply N2|]. rewrite M2 by done. by apply N1.
  - intros k Hk Ht. rewrite E2; [by apply E1| |done]. by rewrite M1.
  - intros k m Hm. destruct (H1' k m Hm) as (m2 & Hm2 & P1). destruct (H2' k m2 Hm2) as (m3 & Hm3 & P2).
    exists m3. split; [done|]. by etrans.
Qed.

Lemma add_import_same k imp w j : j <> k -> byKey (add_import k imp w) !! j = byKey w !! j.
Proof. intros Hj. cbn [add_import byKey]. by rewrite lookup_alter_ne. Qed.

Lemma add_import_top k imp w m :
  byKey w !! k = Some m ->
  byKey (add_import k imp w) !! k =
    Some (Mod (m_Path m) (Display m) (m_Source m) (m_Program m) (Imports m ++ [imp])).
Proof. intros Hm. cbn [add_import byKey]. by rewrite lookup_alter_eq, Hm. Qed.

Lemma add_import_inv k imp w : winv w -> mark w k = walkOnStack -> winv (add_import k imp w).
Proof.
  intros [Hn Ho Hm Hh Hd] Hk. assert (Hout : k ∉ order w) by (rewrite Ho; congruence). split.
  - done.
  - exact Ho.
  - intros j Hj. destruct (Hm j Hj) as (m & E & Ekey & Hf). destruct (decide (j = k)) as [->|Hne].
    + eexists. split; [by apply add_import_top|]. done.
    + exists m. by rewrite add_import_same.
  - intros j Hj. destruct (decide (j = k)) as [->|Hne].
    + change (mark w k = walkUnseen) in Hj. congruence.
    + rewrite add_import_same by done. by apply Hh.
  - intros i j m Hi Hj. cbn [add_import order] in Hi. assert (Hne : j <> k).
    { intros ->. apply Hout. by eapply list_elem_of_lookup_2. }
    rewrite add_import_same in Hj by done. by eapply Hd.
Qed.

Lemma wext_import k imp w w1 :
  mark w k = walkOnStack -> is_Some (byKey w !! k) -> wext None (import_key imp) w w1 ->
  wext (Some k) k w (add_import k imp w1).
Proof.
  intros Hk [m0 Hm0] [(new & Ho & Hr) Hs Hm Hn He Hh].
  destruct (Hh k m0 Hm0) as (m1 & Hm1 & Hpre). pose proof (add_import_top k imp w1 m1 Hm1) as Htop.
  assert (Hg : forall j m, byKey w1 !! j = Some m ->
      exists m', byKey (add_import k imp w1) !! j = Some m' /\ Imports m `prefix_of` Imports m').
  { intros j m Hj. destruct (decide (j = k)) as [->|Hne].
    - simplify_eq. eexists. split; [exact Htop|]. by exists [imp].
    - exists m. by rewrite add_import_same. }
  split; [|done|done|done| |].
  - exists new. split; [done|]. eapply list.Forall_impl; [exact Hr|]. intros j Hj.
    eapply reaches_step; [exact Htop| |by eapply reaches_grows].
    apply elem_of_app. right. by apply list_elem_of_singleton.
  - intros j Hj Ht. rewrite add_import_same by congruence. by apply He.
  - intros j m Hj. destruct (Hh j m Hj) as (m' & Hm' & P1). destruct (Hg j m' Hm') as (m2 & Hm2 & P2).
    exists m2. split; [done|]. by etrans.
Qed.

(** What the walk of one file promises. *)
Definition visit_spec (vis : walker -> path -> result (walker * path)) : Prop :=
  forall w a w' k, winv w -> vis w a = Done (w', k) ->
    k = CanonicalKey a /\ winv w' /\ wext None k w w' /\ mark w' k = walkDone.

(** The module on top of the stack, part way through its imports. *)
Record partial (key : path) (boundBy : gmap path path) (imps : list ResolvedImport) (w : walker) : Prop := {
  pt_top : mark w key = walkOnStack;
  pt_bound : forall ns, is_Some (boundBy !! ns) <-> ns ∈ ri_Namespace <$> imps;
  pt_nodup : NoDup (ri_Namespace <$> imps);
  pt_done : Forall (fun imp => import_key imp ∈ order w) imps }.

(** The module a pointer stands for, with its imports so far. *)
Definition module_at (w : walker) (key : path) (m : Module) (imps : list ResolvedImport) : Prop :=
  byKey w !! key = Some (Mod (m_Path m) (Display m) (m_Source m) (m_Program m) imps).

Lemma visitImports_step vis key Alias spelling target boundBy imps w w1 k1 m :
  visit_spec vis -> winv w -> partial key boundBy imps w -> module_at w key m imps ->
  vis w target = Done (w1, k1) ->
  let namespace := Namespace Alias (Some spelling) in
  let imp := RI namespace spelling target in
  boundBy !! namespace = None ->
  let w2 := add_import key imp w1 in
  winv w2 /\ partial key (<[namespace := spelling]> boundBy) (imps ++ [imp]) w2 /\
  module_at w2 key m (imps ++ [imp]) /\ wext (Some key) key w w2.
Proof.
  intros Hvis Hw [Ht Hb Hn Hd] Hm Hv namespace imp Hnone w2.
  destruct (Hvis _ _ _ _ Hw Hv) as (-> & Hw1 & Hext & Hdone).
  assert (Hk1 : mark w1 key = walkOnStack) by (rewrite (ext_mark _ _ _ _ Hext); congruence).
  assert (Hm1 : module_at w1 key m imps) by (unfold module_at; rewrite (ext_same _ _ _ _ Hext); congruence).
  split; [by apply add_import_inv|]. split; [|split; [exact (add_import_top _ _ _ _ Hm1)|]].
  - split; [done| | |].
    + intros ns. rewrite fmap_app, elem_of_app, <- Hb. cbn [fmap list_fmap ri_Namespace imp].
      rewrite list_elem_of_singleton. destruct (decide (ns = namespace)) as [->|Hne].
      * rewrite lookup_insert_eq. naive_solver.
      * rewrite lookup_insert_ne by done. naive_solver.
    + rewrite fmap_app. apply NoDup_app. split; [done|]. cbn [fmap list_fmap ri_Namespace imp].
      split; [|apply NoDup_singleton]. intros ns Hns ->%list_elem_of_singleton. apply Hb in Hns as [? ?]. congruence.
    + destruct (ext_order _ _ _ _ Hext) as (new & Ho & _). apply list.Forall_app. split.
      * eapply list.Forall_impl; [exact Hd|]. intros i Hi. cbn [w2 add_import order]. rewrite Ho. set_solver.
      * constructor; [|done]. apply (inv_order _ Hw1). exact Hdone.
  - apply wext_import; [done|by eexists|exact Hext].
Qed.

Lemma visitImports_spec vis key dir display stmts boundBy imps w w' m :
  visit_spec vis -> winv w -> partial key boundBy imps w -> module_at w key m imps ->
  visitImports searchPaths vis key dir display boundBy stmts w = Done w' ->
  exists boundBy', winv w' /\ partial key boundBy' (imps ++ imports_of dir stmts) w' /\
    module_at w' key m (imps ++ imports_of dir stmts) /\ wext (Some key) key w w'.
Proof.
  intros Hvis. revert boundBy imps w. induction stmts as [|st stmts IH]; intros boundBy imps w Hw Hp Hm; cbn [visitImports].
  { intros [= <-]. exists boundBy. unfold imports_of. cbn [omap list_omap]. rewrite app_nil_r. auto using wext_refl. }
  destruct st as [node Alias [spelling|]|]; [|by apply IH|by apply IH].
  destruct (boundBy !! _) eqn:Eb; [done|].
  destruct (ResolveImport _ _ _) as [target|e] eqn:Er; [|done].
  destruct (vis w target) as [[w1 k1]|e|] eqn:Ev; [|done|done]. intros Hrec.
  destruct (visitImports_step vis key Alias spelling target boundBy imps w w1 k1 m Hvis Hw Hp Hm Ev Eb)
    as (Hw2 & Hp2 & Hm2 & Hext).
  destruct (IH _ _ _ Hw2 Hp2 Hm2 Hrec) as (b' & Hw' & Hp' & Hm' & Hext').
  assert (Hcons : imports_of dir (ImportStatement node Alias (Some spelling) :: stmts) =
    RI (Namespace Alias (Some spelling)) spelling target :: imports_of dir stmts).
  { unfold imports_of. cbn [omap list_omap]. by rewrite Er. }
  exists b'. rewrite Hcons. rewrite <- app_assoc in Hp', Hm'. cbn [app] in *. eauto using wext_trans.
Qed.

(** Opening a file, and closing it. *)
Definition open_file (w : walker) (key : path) (m : Module) : walker :=
  W (<[key := m]> (byKey w)) (<[key := walkOnStack]> (state w)) (order w) (stack w ++ [Display m]).

Definition close_file (w : walker) (key : path) : walker :=
  W (byKey w) (<[key := walkDone]> (state w)) (order w ++ [key]) (removelast (stack w)).

Lemma mark_insert b st o s key v k :
  mark (W b (<[key := v]> st) o s) k = if decide (k = key) then v else mark (W b st o s) k.
Proof.
  unfold mark. cbn [state]. destruct (decide (k = key)) as [->|Hne]; [by rewrite lookup_insert_eq|].
  by rewrite lookup_insert_ne.
Qed.

Lemma open_inv w key m :
  winv w -> mark w key = walkUnseen -> Key m = key -> faithful m -> winv (open_file w key m).
Proof.
  intros [Hn Ho Hm Hh Hd] Hk Hkey Hf.
  assert (Hmark : forall k, k <> key -> mark (open_file w key m) k = mark w k).
  { intros k Hne. unfold open_file. rewrite mark_insert. by rewrite decide_False. }
  assert (Htop : mark (open_file w key m) key = walkOnStack) by (unfold open_file; rewrite mark_insert; by rewrite decide_True).
  assert (Hout : key ∉ order w) by (rewrite Ho; congruence).
  split; [done| | | |].
  - intros k. cbn [open_file order]. destruct (decide (k = key)) as [->|Hne].
    + rewrite Htop. naive_solver.
    + by rewrite Hmark.
  - intros k Hs. cbn [open_file byKey]. destruct (decide (k = key)) as [->|Hne].
    + exists m. by rewrite lookup_insert_eq.
    + rewrite Hmark in Hs by done. rewrite lookup_insert_ne by done. by apply Hm.
  - intros k Hs. cbn [open_file byKey]. destruct (decide (k = key)) as [->|Hne]; [congruence|].
    rewrite Hmark in Hs by done. rewrite lookup_insert_ne by done. by apply Hh.
  - intros i k m' Hi Hk'. cbn [open_file order byKey] in *. assert (k <> key).
    { intros ->. apply Hout. by eapply list_elem_of_lookup_2. }
    rewrite lookup_insert_ne in Hk' by done. by eapply Hd.
Qed.

Lemma close_inv w key m :
  winv w -> mark w key = walkOnStack -> byKey w !! key = Some m -> finished (order w) m -> winv (close_file w key).
Proof.
  intros [Hn Ho Hm Hh Hd] Hk Hkey Hf. assert (Hout : key ∉ order w) by (rewrite Ho; congruence).
  assert (Hmark : forall k, mark (close_file w key) k = if decide (k = key) then walkDone else mark w k)
    by (intros k; unfold close_file; apply mark_insert).
  split.
  - cbn [close_file order]. apply NoDup_app. split; [done|]. split; [|apply NoDup_singleton].
    intros k Hin ->%list_elem_of_singleton. done.
  - intros k. cbn [close_file order]. rewrite elem_of_app, list_elem_of_singleton, Ho, Hmark.
    destruct (decide (k = key)); naive_solver.
  - intros k Hs. rewrite Hmark in Hs. apply Hm. destruct (decide (k = key)) as [->|]; congruence.
  - intros k Hs. rewrite Hmark in Hs. apply Hh. by destruct (decide (k = key)).
  - intros i k m' Hi Hk'. cbn [close_file order byKey] in *.
    destruct (decide (i < length (order w))%nat) as [Hlt|Hge].
    + rewrite take_app_le by lia. rewrite lookup_app_l in Hi by done. by eapply Hd.
    + rewrite lookup_app_r in Hi by lia. apply list_lookup_singleton_Some in Hi as [Hi <-].
      replace i with (length (order w)) by lia. rewrite take_app_length. by simplify_eq.
Qed.

Lemma close_ext w w2 key m :
  winv w -> mark w key = walkUnseen -> wext (Some key) key (open_file w key m) w2 -> mark w2 key = walkOnStack ->
  wext None key w (close_file w2 key).
Proof.
  intros Hw Hk [(new & Ho & Hr) Hs Hm Hn He Hh] Htop. pose proof (inv_heap _ Hw _ Hk) as Hnone.
  assert (Hopen : forall k, k <> key -> mark (open_file w key m) k = mark w k).
  { intros k Hne. unfold open_file. rewrite mark_insert. by rewrite decide_False. }
  assert (Hclose : forall k, k <> key -> mark (close_file w2 key) k = mark w2 k).
  { intros k Hne. unfold close_file. rewrite mark_insert. by rewrite decide_False. }
  split.
  - exists (new ++ [key]). cbn [close_file order byKey]. rewrite Ho. cbn [open_file order]. rewrite app_assoc.
    split; [done|]. apply list.Forall_app. split; [done|]. repeat constructor.
  - cbn [close_file stack]. rewrite Hs. cbn [open_file stack]. apply removelast_last.
  - intros k Hseen. assert (k <> key) by congruence. rewrite Hclose by done. rewrite Hm; by rewrite Hopen.
  - intros k Hun. destruct (decide (k = key)) as [->|Hne].
    + unfold close_file. rewrite mark_insert. by rewrite decide_True.
    + rewrite Hclose by done. apply Hn. by rewrite Hopen.
  - intros k Hseen _. assert (k <> key) by congruence. cbn [close_file byKey].
    rewrite He by (rewrite ?Hopen by done; congruence). cbn [open_file byKey]. by rewrite lookup_insert_ne.
  - intros k m' Hk'. assert (k <> key) by congruence. apply (Hh k m'). cbn [open_file byKey].
    by rewrite lookup_insert_ne.
Qed.

Lemma visit_visit_spec fuel : visit_spec (visit searchPaths fuel).
Proof.
  induction fuel as [|fuel IH]; intros w a w' k Hw; cbn [visit]; [done|].
  fold (mark w (CanonicalKey a)). destruct (mark w (CanonicalKey a)) eqn:Es; [|done|].
  2:{ intros [= <- <-]. auto using wext_refl. }
  destruct (ReadFile a) as [source|] eqn:Er; [|done].
  destruct (PositionedErrors source (displayPath a)) eqn:Ep; [|done].
  set (m := Mod a (displayPath a) source (ParseProgram source) []).
  change (W (<[CanonicalKey a := m]> (byKey w)) _ _ _) with (open_file w (CanonicalKey a) m).
  assert (Hw1 : winv (open_file w (CanonicalKey a) m)) by by apply open_inv.
  assert (Htop : mark (open_file w (CanonicalKey a) m) (CanonicalKey a) = walkOnStack).
  { unfold open_file. rewrite mark_insert. by rewrite decide_True. }
  destruct (visitImports _ _ _ _ _ _ _ _) as [w2|e|] eqn:Ev; [|done|done]. intros [= <- <-].
  eapply (visitImports_spec _ _ _ _ _ _ [] _ _ m IH Hw1) in Ev as (b & Hw2 & Hp & Hm & Hext).
  2:{ split; [done| |by constructor|by constructor]. intros ns. rewrite lookup_empty. cbn [fmap list_fmap].
    rewrite elem_of_nil. split; [by intros [? ?]|done]. }
  2:{ unfold module_at. cbn [open_file byKey]. by rewrite lookup_insert_eq. }
  destruct Hp as [Htop2 _ Hnd Hdone]. split; [done|]. split; [|split].
  - eapply close_inv; [done|done|exact Hm|]. done.
  - by eapply close_ext.
  - rewrite mark_insert. by rewrite decide_True.
Qed.
End WalkInvariant.

(* ------------------------------------------------------------------ *)
(** ** Cycles *)

Section Cycles.
Context `{Unicode} `{Host} `{Parser}.
Context (searchPaths : list path).

(** One file's source imports another. *)
Definition imports_file (p q : path) : Prop :=
  exists source node Alias spelling, ReadFile p = Some source /\
    ImportStatement node Alias (Some spelling) ∈ Statements (ParseProgram source) /\
    ResolveImport searchPaths spelling (Dir p) = inl q.

Definition trail_ok (trail : list path) : Prop :=
  forall i p q, trail !! i = Some p -> trail !! S i = Some q -> imports_file p q.

(** A chain of imports that comes back to a file it has been through. *)
Definition closed_trail (trail : list path) : Prop :=
  trail_ok trail /\ exists before_ last_, trail = before_ ++ [last_] /\
    CanonicalKey last_ ∈ CanonicalKey <$> before_.

(** The walker's stack, as the files it stands for. *)
Record on_trail (trail : list path) (w : walker) : Prop := {
  tr_stack : stack w = displayPath <$> trail;
  tr_mark : forall k, mark w k = walkOnStack <-> k ∈ CanonicalKey <$> trail }.

Definition reports_cycle {A : Type} (trail : list path) (r : result A) : Prop :=
  forall chain, r = Failed (CycleError chain) ->
    exists rest, chain = displayPath <$> (trail ++ rest) /\ closed_trail (trail ++ rest).

Lemma ResolveImport_no_cycle spelling dir display chain :
  match ResolveImport searchPaths spelling dir with
  | inr e => decorateResolveError display e <> CycleError chain
  | inl _ => True
  end.
Proof.
  unfold ResolveImport. destruct (validateSpelling spelling); [done|].
  by destruct (search _ _) as [? [?|]].
Qed.

Lemma on_trail_ext top from trail w w' : on_trail trail w -> wext top from w w' -> on_trail trail w'.
Proof.
  intros [Hs Hm] He. split; [by rewrite (ext_stack _ _ _ _ He)|]. intros k. rewrite <- Hm.
  destruct (decide (mark w k = walkUnseen)) as [E|E].
  - pose proof (ext_new _ _ _ _ He k E). rewrite E. naive_solver.
  - by rewrite (ext_mark _ _ _ _ He k E).
Qed.

Lemma trail_ok_snoc trail p q : trail_ok (trail ++ [p]) -> imports_file p q -> trail_ok ((trail ++ [p]) ++ [q]).
Proof.
  intros Ht Hpq i x y Hx Hy. destruct (decide (S i < length (trail ++ [p]))%nat) as [Hlt|Hge].
  - rewrite lookup_app_l in Hx, Hy by lia. by eapply Ht.
  - rewrite lookup_app_r in Hy by lia. apply list_lookup_singleton_Some in Hy as [Hy <-].
    rewrite length_app in *. cbn [length] in *. rewrite lookup_app_l in Hx by (rewrite length_app; simpl; lia).
    replace i with (length trail) in Hx by lia. rewrite lookup_app_at in Hx. by simplify_eq.
Qed.

Lemma visitImports_cycle vis trail a source stmts boundBy imps w m :
  visit_spec searchPaths vis -> winv searchPaths w ->
  partial (CanonicalKey a) boundBy imps w -> module_at w (CanonicalKey a) m imps ->
  on_trail (trail ++ [a]) w -> trail_ok (trail ++ [a]) ->
  ReadFile a = Some source -> (forall st, st ∈ stmts -> st ∈ Statements (ParseProgram source)) ->
  (forall w b, winv searchPaths w -> on_trail (trail ++ [a]) w -> trail_ok ((trail ++ [a]) ++ [b]) ->
     reports_cycle ((trail ++ [a]) ++ [b]) (vis w b)) ->
  reports_cycle (trail ++ [a])
    (visitImports searchPaths vis (CanonicalKey a) (Dir a) (displayPath a) boundBy stmts w).
Proof.
  intros Hspec Hw Hp Hm Htr Hok Hr Hsub Hvis. revert boundBy imps w Hw Hp Hm Htr Hsub.
  induction stmts as [|st stmts IH]; intros boundBy imps w Hw Hp Hm Htr Hsub; cbn [visitImports]; [done|].
  assert (Hsub' : forall st, st ∈ stmts -> st ∈ Statements (ParseProgram source))
    by (intros; apply Hsub; by constructor).
  destruct st as [node Alias [spelling|]|]; [|by eapply IH|by eapply IH].
  destruct (boundBy !! _) eqn:Eb; [done|].
  pose proof (ResolveImport_no_cycle spelling (Dir a) (displayPath a)) as Hnc.
  destruct (ResolveImport _ _ _) as [target|e] eqn:Er; [|intros chain [= Hc]; by destruct (Hnc chain)].
  assert (Hi : imports_file a target) by (exists source, node, Alias, spelling; auto using list_elem_of_here).
  specialize (Hvis w target Hw Htr (trail_ok_snoc _ _ _ Hok Hi)).
  destruct (vis w target) as [[w1 k1]|e|] eqn:Ev; [| |done].
  - destruct (visitImports_step searchPaths vis _ Alias spelling target boundBy imps w w1 k1 m Hspec Hw Hp Hm Ev Eb)
      as (Hw2 & Hp2 & Hm2 & Hext).
    eapply IH; try done. by eapply on_trail_ext.
  - intros chain [= ->]. destruct (Hvis chain eq_refl) as (rest & Hc & Ht).
    exists (target :: rest). by rewrite <- app_assoc in Hc, Ht.
Qed.

Lemma visit_cycle fuel trail w a :
  winv searchPaths w -> on_trail trail w -> trail_ok (trail ++ [a]) ->
  reports_cycle (trail ++ [a]) (visit searchPaths fuel w a).
Proof.
  revert trail w a. induction fuel as [|fuel IH]; intros trail w a Hw Htr Hok; cbn [visit]; [done|].
  fold (mark w (CanonicalKey a)). destruct (mark w (CanonicalKey a)) eqn:Es; [| |done].
  2:{ intros chain [= <-]. exists []. rewrite app_nil_r, fmap_app, (tr_stack _ _ Htr). split; [done|].
      split; [done|]. exists trail, a. split; [done|]. by apply (tr_mark _ _ Htr). }
  destruct (ReadFile a) as [source|] eqn:Er; [|done].
  destruct (PositionedErrors source (displayPath a)) eqn:Ep; [|done].
  set (m := Mod a (displayPath a) source (ParseProgram source) []).
  change (W (<[CanonicalKey a := m]> (byKey w)) _ _ _) with (open_file w (CanonicalKey a) m).
  assert (Hmark : forall k, mark (open_file w (CanonicalKey a) m) k =
    if decide (k = CanonicalKey a) then walkOnStack else mark w k)
    by (intros k; unfold open_file; apply mark_insert).
  assert (Hi : reports_cycle (trail ++ [a]) (visitImports searchPaths (visit searchPaths fuel) (CanonicalKey a)
    (Dir a) (displayPath a) ∅ (Statements (ParseProgram source)) (open_file w (CanonicalKey a) m))).
  { apply (visitImports_cycle _ _ _ source _ _ [] _ m); try done; [apply visit_visit_spec|by apply open_inv| | | |].
    - split; [by rewrite Hmark, decide_True| |by constructor|by constructor]. intros ns. rewrite lookup_empty.
      cbn [fmap list_fmap]. rewrite elem_of_nil. split; [by intros [? ?]|done].
    - unfold module_at. cbn [open_file byKey]. by rewrite lookup_insert_eq.
    - split; [cbn [open_file stack]; by rewrite (tr_stack _ _ Htr), fmap_app|]. intros k.
      rewrite Hmark, fmap_app, elem_of_app, <- (tr_mark _ _ Htr). cbn [fmap list_fmap].
      rewrite list_elem_of_singleton. destruct (decide (k = CanonicalKey a)); naive_solver.
    - intros w' b Hw' Htr' Hok'. by apply IH. }
  intros chain Hc. apply Hi. by destruct (visitImports _ _ _ _ _ _ _ _); simplify_eq.
Qed.
End Cycles.

(* ------------------------------------------------------------------ *)
(** ** The graph *)

Lemma omap_total {A B : Type} (f : A -> option B) l i :
  Forall (fun x => is_Some (f x)) l -> omap f l !! i = l !! i ≫= f.
Proof.
  intros Hl. revert i. induction Hl as [|x l [y Hy] _ IH]; intros i; [done|]. cbn [omap list_omap]. rewrite Hy.
  destruct i; cbn [lookup list_lookup]; [cbn; by rewrite Hy|apply IH].
Qed.

(** One module of a graph imports another. *)
Definition depends (g : Graph) (m m' : Module) : Prop :=
  m ∈ Modules g /\ m' ∈ Modules g /\ exists imp, imp ∈ Imports m /\ import_key imp = Key m'.

Section GraphFacts.
Context `{Unicode} `{Host} `{Parser}.
Context (searchPaths : list path).

Lemma empty_walker_inv : winv searchPaths (W ∅ ∅ [] []).
Proof.
  split; cbn [order byKey]; [constructor| | | |done].
  - intros k. unfold mark. cbn [state]. rewrite lookup_empty, elem_of_nil. cbn. naive_solver.
  - intros k. unfold mark. cbn [state]. by rewrite lookup_empty.
  - intros k _. apply lookup_empty.
Qed.

(** What [Load] has when it returns: the walker it returned from. *)
Lemma Load_walker fuel entry g :
  Load searchPaths fuel entry = Done g ->
  exists p w, Abs entry = Some p /\ winv searchPaths w /\
    wext None (Clean p) (W ∅ ∅ [] []) w /\ byKey w !! Clean p = Some (Entry g) /\
    list.last (order w) = Some (Clean p) /\
    (forall i, Modules g !! i = order w !! i ≫= fun k => byKey w !! k) /\
    (forall k m, byKey w !! k = Some m -> k ∈ order w /\ Key m = k).
Proof.
  unfold Load. destruct (Abs entry) as [p|]; [|done].
  destruct (visit _ _ _ _) as [[w root]|e|] eqn:Ev; [|done|done].
  pose proof (visit_visit_spec searchPaths fuel _ _ _ _ empty_walker_inv Ev) as (-> & Hw & Hext & Hdone).
  unfold CanonicalKey in *. rewrite Clean_idempotent in *.
  destruct (byKey w !! Clean p) as [m|] eqn:Em; [|done]. intros [= <-]. exists p, w. cbn [Entry Modules].
  assert (Hun : forall k, mark (W ∅ ∅ [] []) k = walkUnseen) by (intros k; unfold mark; cbn; by rewrite lookup_empty).
  assert (Hseen : forall k, mark w k <> walkUnseen -> k ∈ order w).
  { intros k Hk. apply (inv_order _ _ Hw). pose proof (ext_new _ _ _ _ Hext k (Hun k)). by destruct (mark w k). }
  split; [done|]. split; [done|]. split; [done|]. split; [done|]. split; [|split].
  - destruct fuel as [|fuel]; [done|]. cbn [visit] in Ev. cbn [state] in Ev. rewrite lookup_empty in Ev. cbn [default] in Ev.
    destruct (ReadFile (Clean p)); [|done]. destruct (PositionedErrors _ _); [|done].
    destruct (visitImports _ _ _ _ _ _ _ _); [|done|done]. injection Ev as <- Hk. cbn [order].
    rewrite list.last_snoc. unfold CanonicalKey. by rewrite Clean_idempotent.
  - intros i. apply omap_total, list.Forall_forall. intros k Hk. apply (inv_order _ _ Hw) in Hk.
    destruct (inv_module _ _ Hw k) as (m' & Hm' & _); [congruence|by eexists].
  - intros k m' Hk. assert (Hs : mark w k <> walkUnseen).
    { intros Hk'. rewrite (inv_heap _ _ Hw k Hk') in Hk. done. }
    split; [by apply Hseen|]. destruct (inv_module _ _ Hw k Hs) as (m2 & Hm2 & Hkey & _). congruence.
Qed.

(** The modules of a graph in terms of that walker. *)
Lemma graph_keys g w :
  winv searchPaths w -> (forall i, Modules g !! i = order w !! i ≫= fun k => byKey w !! k) ->
  Key <$> Modules g = order w.
Proof.
  intros Hw Hat. apply list_eq. intros i. rewrite list_lookup_fmap, Hat.
  destruct (order w !! i) as [k|] eqn:Ei; [|done]. cbn.
  assert (Hk : k ∈ order w) by by eapply list_elem_of_lookup_2. apply (inv_order _ _ Hw) in Hk.
  destruct (inv_module _ _ Hw k) as (m & Hm & Hkey & _); [congruence|]. rewrite Hm. cbn. by rewrite Hkey.
Qed.

Lemma Load_modules fuel entry g :
  Load searchPaths fuel entry = Done g ->
  NoDup (Key <$> Modules g) /\
  (forall i m, Modules g !! i = Some m ->
     faithful m /\ finished searchPaths (Key <$> take i (Modules g)) m).
Proof.
  intros HL. destruct (Load_walker _ _ _ HL) as (p & w & _ & Hw & _ & _ & _ & Hat & Hin).
  pose proof (graph_keys g w Hw Hat) as Hkeys.
  split; [rewrite Hkeys; apply Hw|]. intros i m Hi. rewrite Hat in Hi. apply bind_Some in Hi as (k & Hk & Hm).
  rewrite fmap_take, Hkeys. split; [|by eapply (inv_done _ _ Hw)].
  destruct (Hin k m Hm) as [Hk' Hkey]. apply (inv_order _ _ Hw) in Hk'.
  destruct (inv_module _ _ Hw k) as (m' & Hm' & _ & Hf); [congruence|]. by simplify_eq.
Qed.

Lemma Load_last fuel entry g : Load searchPaths fuel entry = Done g -> list.last (Modules g) = Some (Entry g).
Proof.
  intros HL. destruct (Load_walker _ _ _ HL) as (p & w & _ & Hw & _ & He & Hlast & Hat & _).
  pose proof (f_equal length (graph_keys g w Hw Hat)) as Hl. rewrite length_fmap in Hl.
  rewrite list.last_lookup in Hlast. rewrite list.last_lookup, Hat, Hl, Hlast. done.
Qed.

Lemma Load_reaches fuel entry g m :
  Load searchPaths fuel entry = Done g -> m ∈ Modules g -> rtc (depends g) (Entry g) m.
Proof.
  intros HL. destruct (Load_walker _ _ _ HL) as (p & w & Hp & Hw & Hext & He & _ & Hat & Hin).
  assert (Hmem : forall k m, byKey w !! k = Some m -> m ∈ Modules g).
  { intros k m' Hk. destruct (Hin k m' Hk) as [[i Hi]%list_elem_of_lookup _]. apply list_elem_of_lookup. exists i.
    by rewrite Hat, Hi. }
  assert (Hr : forall a b, reaches (byKey w) a b -> forall ma mb, byKey w !! a = Some ma -> byKey w !! b = Some mb ->
    rtc (depends g) ma mb).
  { induction 1 as [k|a m' imp b Ha Himp _ IH]; intros ma mb Hma Hmb; [by simplify_eq|].
    rewrite Ha in Hma. injection Hma as <-.
    destruct (Hin a m' Ha) as [[i Hi]%list_elem_of_lookup _]. destruct (inv_done _ _ Hw i a m' Hi Ha) as (_ & _ & Hd).
    rewrite list.Forall_forall in Hd. specialize (Hd imp Himp). assert (Hk : import_key imp ∈ order w) by
      (apply elem_of_take in Hd as (j & Hj & _); by eapply list_elem_of_lookup_2).
    apply (inv_order _ _ Hw) in Hk. destruct (inv_module _ _ Hw (import_key imp)) as (mi & Hmi & Hkey & _); [congruence|].
    eapply rtc_l; [|by eapply IH]. split; [by eapply Hmem|]. split; [by eapply Hmem|]. eauto. }
  intros [i Hi]%list_elem_of_lookup. rewrite Hat in Hi. apply bind_Some in Hi as (k & Hk & Hm).
  eapply Hr; [|exact He|exact Hm]. destruct (ext_order _ _ _ _ Hext) as (new & Ho & Hnew).
  cbn [order app] in Ho. rewrite Ho in Hk. rewrite list.Forall_forall in Hnew. apply Hnew. by eapply list_elem_of_lookup_2.
Qed.

(** Looking a key up among the first modules. *)
Lemma key_before g i k : k ∈ Key <$> take i (Modules g) -> exists j m, (j < i)%nat /\ Modules g !! j = Some m /\ Key m = k.
Proof.
  intros (m & -> & Hm)%list_elem_of_fmap. apply list_elem_of_lookup in Hm as [j Hj].
  apply lookup_take_Some in Hj as [Hj Hlt]. by exists j, m.
Qed.

Lemma Load_before fuel entry g i m imp :
  Load searchPaths fuel entry = Done g -> Modules g !! i = Some m -> imp ∈ Imports m ->
  exists j m', (j < i)%nat /\ Modules g !! j = Some m' /\ Key m' = import_key imp.
Proof.
  intros HL Hi Himp. destruct (proj2 (Load_modules _ _ _ HL) i m Hi) as (_ & _ & _ & Hb).
  rewrite list.Forall_forall in Hb. apply key_before, Hb, Himp.
Qed.

(** C29: modules are linked in dependency order.  A graph [Load] returns holds
    each file once; each module is what the host and the parser say of its
    file, with its imports resolved from its own directory, in source order;
    everything a module imports stands before it; the entry is last; and
    nothing is there that the entry does not lead to. *)
Theorem load_order (fuel : nat) (entry : path) (g : Graph) :
  Load searchPaths fuel entry = Done g ->
  NoDup (Key <$> Modules g) /\ list.last (Modules g) = Some (Entry g) /\
  (exists p, Abs entry = Some p /\ Key (Entry g) = CanonicalKey p) /\
  (forall i m, Modules g !! i = Some m ->
     faithful m /\ Imports m = imports_of searchPaths (Dir (m_Path m)) (Statements (m_Program m)) /\
     forall imp, imp ∈ Imports m -> exists j m', (j < i)%nat /\ Modules g !! j = Some m' /\ Key m' = import_key imp) /\
  (forall m, m ∈ Modules g -> rtc (depends g) (Entry g) m).
Proof.
  intros HL. destruct (Load_modules _ _ _ HL) as [Hnd Hmods].
  destruct (Load_walker _ _ _ HL) as (p & w & Hp & _ & _ & He & _ & _ & Hin).
  split; [done|]. split; [by eapply Load_last|]. split; [exists p; split; [done|by apply Hin]|]. split.
  - intros i m Hi. destruct (Hmods i m Hi) as (Hf & Himp & _). split; [done|]. split; [done|].
    intros imp Hm. by eapply Load_before.
  - intros m. by eapply Load_reaches.
Qed.

(** C39: no graph is cyclic.  In a graph [Load] returns no module imports
    itself, directly or through others. *)
Theorem graph_is_acyclic (fuel : nat) (entry : path) (g : Graph) (m : Module) :
  Load searchPaths fuel entry = Done g -> ~ tc (depends g) m m.
Proof.
  intros HL. destruct (Load_modules _ _ _ HL) as [Hnd _].
  assert (Hkey : forall i j a b, Modules g !! i = Some a -> Modules g !! j = Some b -> Key a = Key b -> i = j).
  { intros i j a b Ha Hb E. eapply (NoDup_lookup (Key <$> Modules g)); [done| |].
    - rewrite list_lookup_fmap, Ha. done.
    - rewrite list_lookup_fmap, Hb. cbn. by rewrite E. }
  assert (Hstep : forall a b, tc (depends g) a b -> forall i j, Modules g !! i = Some a -> Modules g !! j = Some b -> (j < i)%nat).
  { induction 1 as [a b (_ & _ & imp & Himp & E)|a b c (_ & Hb & imp & Himp & E) _ IH]; intros i j Hi Hj.
    - destruct (Load_before _ _ _ _ _ _ HL Hi Himp) as (j' & m' & Hlt & Hm' & Ek).
      rewrite (Hkey j j' b m'); [done|done|done|congruence].
    - apply list_elem_of_lookup in Hb as [n Hn]. specialize (IH n j Hn Hj).
      destruct (Load_before _ _ _ _ _ _ HL Hi Himp) as (j' & m' & Hlt & Hm' & Ek).
      rewrite (Hkey n j' b m') in IH; [lia|done|done|congruence]. }
  intros Hc. assert (Hin : m ∈ Modules g) by (by inversion Hc as [? ? (? & _)|? ? ? (? & _)]).
  apply list_elem_of_lookup in Hin as [i Hi]. pose proof (Hstep _ _ Hc i i Hi Hi). lia.
Qed.

(** A reported cycle is one.  The chain of a [CycleError] names files that
    import one another in turn, from the entry on, and its last file is one the
    chain has been through already. *)
Theorem cycle_error_is_a_cycle (fuel : nat) (entry : path) (chain : list path) :
  Load searchPaths fuel entry = Failed (CycleError chain) ->
  exists p rest, Abs entry = Some p /\
    chain = displayPath <$> (Clean p :: rest) /\ closed_trail searchPaths (Clean p :: rest).
Proof.
  unfold Load. destruct (Abs entry) as [p|]; [|done]. intros HL.
  assert (Hempty : on_trail [] (W ∅ ∅ [] [])).
  { split; [done|]. intros k. unfold mark. cbn. rewrite lookup_empty, elem_of_nil. naive_solver. }
  destruct (visit_cycle searchPaths fuel [] _ (Clean p) empty_walker_inv Hempty) with (chain := chain)
    as (rest & Hc & Ht).
  - intros i a b Ha Hb. apply lookup_lt_Some in Hb. cbn in Hb. lia.
  - destruct (visit _ _ _ _) as [[w root]|e|]; [|by simplify_eq|done]. by destruct (byKey w !! root).
  - by exists p, rest.
Qed.

(** C40: loading ends.  When the files the host can read are finitely many, a
    depth of one more than their number is enough for [Load] to return, a graph
    or an error. *)
Theorem load_returns (files : gset path) (fuel : nat) (entry : path) :
  (forall p, is_Some (ReadFile p) -> CanonicalKey p ∈ files) -> (size files < fuel)%nat ->
  Load searchPaths fuel entry <> OutOfFuel.
Proof.
  intros Hfin Hf. unfold Load. destruct (Abs entry) as [p|]; [|done].
  pose proof (visit_returns searchPaths files Hfin fuel (W ∅ ∅ [] []) (Clean p)) as Hr.
  pose proof (visit_visit_spec searchPaths fuel (W ∅ ∅ [] []) (Clean p)) as Hs.
  destruct (visit _ _ _ _) as [[w root]|e|].
  - destruct (Hs _ _ empty_walker_inv eq_refl) as (-> & Hw & _ & Hd).
    destruct (inv_module _ _ Hw (CanonicalKey (Clean p))) as (m & -> & _); [congruence|done].
  - done.
  - intros _. apply Hr. unfold unseen. eapply Nat.le_lt_trans; [|exact Hf]. apply subseteq_size. set_solver.
Qed.

Lemma foldl_insert_other (imps : list ResolvedImport) (ns : gmap path path) name :
  name ∉ ri_Namespace <$> imps ->
  foldl (fun ns imp => <[ri_Namespace imp := CanonicalKey (ri_Path imp)]> ns) ns imps !! name = ns !! name.
Proof.
  revert ns. induction imps as [|i imps IH]; intros ns Hn; [done|]. cbn [foldl]. cbn [fmap list_fmap] in Hn.
  apply not_elem_of_cons in Hn as [Hne Hn]. by rewrite IH, lookup_insert_ne.
Qed.

Lemma foldl_insert_spec (imps : list ResolvedImport) (ns : gmap path path) imp :
  NoDup (ri_Namespace <$> imps) -> imp ∈ imps ->
  foldl (fun ns imp => <[ri_Namespace imp := CanonicalKey (ri_Path imp)]> ns) ns imps !! ri_Namespace imp
  = Some (CanonicalKey (ri_Path imp)).
Proof.
  revert ns. induction imps as [|i imps IH]; intros ns Hnd Hin; [by apply elem_of_nil in Hin|].
  cbn [fmap list_fmap] in Hnd. apply NoDup_cons in Hnd as [Hni Hnd]. cbn [foldl].
  apply elem_of_cons in Hin as [->|Hin]; [|by apply IH]. rewrite foldl_insert_other by done. apply lookup_insert_eq.
Qed.

(** A namespace means the file its import names.  In a loaded graph the
    scope a module hands the compiler binds exactly the names its imports bind,
    and each of them to the key of the module that import resolved to, which is
    one that is linked before it. *)
Theorem scope_names_imports (fuel : nat) (entry : path) (g : Graph) (i : nat) (m : Module) (name key : path) :
  Load searchPaths fuel entry = Done g -> Modules g !! i = Some m ->
  (Namespaces (Scope m) !! name = Some key <->
   exists imp, imp ∈ Imports m /\ ri_Namespace imp = name /\ import_key imp = key) /\
  (Namespaces (Scope m) !! name = Some key -> exists j m', (j < i)%nat /\ Modules g !! j = Some m' /\ Key m' = key).
Proof.
  intros HL Hi. destruct (proj2 (Load_modules _ _ _ HL) i m Hi) as (_ & _ & Hnd & _).
  assert (Hiff : Namespaces (Scope m) !! name = Some key <->
    exists imp, imp ∈ Imports m /\ ri_Namespace imp = name /\ import_key imp = key).
  { cbn [Scope Namespaces]. split.
    - intros Hl. destruct (decide (name ∈ ri_Namespace <$> Imports m)) as [Hin|Hout].
      + apply list_elem_of_fmap in Hin as (imp & -> & Hin). rewrite foldl_insert_spec in Hl by done.
        simplify_eq. by exists imp.
      + rewrite foldl_insert_other, lookup_empty in Hl by done. done.
    - intros (imp & Hin & <- & <-). by apply foldl_insert_spec. }
  split; [done|]. intros (imp & Hin & _ & <-)%Hiff. by eapply Load_before.
Qed.
End GraphFacts.

(* ------------------------------------------------------------------ *)
(** ** Witnesses *)

(** A parser that knows the sources of the sample files. *)
Definition sample_statement : statement := Stmt 0 BreakStatement.

Definition sample_statements (source : list Z) : list Statement :=
  if bool_decide (source = bytes "import a") then [ImportStatement 0 None (Some (bytes "lib/a.mut"))]
  else if bool_decide (source = bytes "import b")
    then [OtherStatement sample_statement; ImportStatement 0 (Some (bytes "bee")) (Some (bytes "b.mut"))]
  else if bool_decide (source = bytes "import c") then [ImportStatement 0 None (Some (bytes "c.mut"))]
  else if bool_decide (source = bytes "import a again") then [ImportStatement 0 None (Some (bytes ".\a.mut"))]
  else [OtherStatement sample_statement].

#[export] Instance sample_parser : Parser := {
  ParseProgram source := Prog (sample_statements source) ∅ [] ∅;
  PositionedErrors _ _ := []
}.

Definition sample_graph : Graph :=
  match Load [bytes "/q"] 4 (bytes "main.mut") with
  | Done g => g
  | _ => G [] (Mod [] [] [] (Prog [] ∅ [] ∅) [])
  end.

Lemma sample_loads : Load [bytes "/q"] 4 (bytes "main.mut") = Done sample_graph.
Proof. vm_compute. reflexivity. Qed.

Lemma load_order_witness :
  Display <$> Modules sample_graph = [bytes "/q/b.mut"; bytes "lib/a.mut"; bytes "main.mut"] /\
  NoDup (Key <$> Modules sample_graph).
Proof.
  split; [vm_compute; reflexivity|].
  exact (proj1 (load_order [bytes "/q"] 4 (bytes "main.mut") sample_graph sample_loads)).
Defined.

Lemma graph_is_acyclic_witness : ~ tc (depends sample_graph) (Entry sample_graph) (Entry sample_graph).
Proof.
  exact (graph_is_acyclic [bytes "/q"] 4 (bytes "main.mut") sample_graph (Entry sample_graph) sample_loads).
Defined.

(** Three files, the second and third of which import each other. *)
Definition cyclic_files : list (path * list Z) :=
  [(bytes "/p/main.mut", bytes "import a"); (bytes "/p/lib/a.mut", bytes "import c");
   (bytes "/p/lib/c.mut", bytes "import a again")].

Definition cyclic_host : Host := {|
  Getwd := Some (bytes "/p");
  fileExists p := bool_decide (p ∈ cyclic_files.*1);
  ReadFile p := (fun r => r.2.2) <$> list_find (fun f => f.1 = p) cyclic_files
|}.

Definition cyclic_chain : list path :=
  [bytes "main.mut"; bytes "lib/a.mut"; bytes "lib/c.mut"; bytes "lib/a.mut"].

(** The chain of a cycle starts at the entry, whether or not the entry is on
    the cycle. *)
Lemma cyclic_loads : @Load _ cyclic_host _ [] 4 (bytes "main.mut") = Failed (CycleError cyclic_chain).
Proof. vm_compute. reflexivity. Qed.

Lemma cycle_error_is_a_cycle_witness :
  exists p rest, @Abs cyclic_host (bytes "main.mut") = Some p /\
    cyclic_chain = @displayPath cyclic_host <$> (Clean p :: rest) /\
    @closed_trail _ cyclic_host _ [] (Clean p :: rest).
Proof. exact (@cycle_error_is_a_cycle _ cyclic_host _ [] 4 (bytes "main.mut") cyclic_chain cyclic_loads). Defined.

Lemma load_returns_witness : Load [bytes "/q"] 4 (bytes "main.mut") <> OutOfFuel.
Proof.
  apply (load_returns [bytes "/q"] (list_to_set (CanonicalKey <$> sample_files.*1)) 4 (bytes "main.mut")).
  - intros p [s Hs]. apply fmap_Some in Hs as ([i [q c]] & Hf & _).
    apply list_find_Some in Hf as (Hi & Hq & _). cbn in Hq. subst q.
    apply elem_of_list_to_set. apply list_elem_of_fmap_2. apply list_elem_of_fmap. exists (p, c).
    split; [done|]. by eapply list_elem_of_lookup_2.
  - vm_compute. lia.
Defined.

Definition sample_module : Module := default (Entry sample_graph) (Modules sample_graph !! 1%nat).

Lemma scope_names_imports_witness :
  Namespaces (Scope sample_module) !! bytes "bee" = Some (bytes "/q/b.mut").
Proof.
  apply (scope_names_imports [bytes "/q"] 4 (bytes "main.mut") sample_graph 1
    sample_module (bytes "bee") (bytes "/q/b.mut") sample_loads).
  - vm_compute. reflexivity.
  - exists (RI (bytes "bee") (bytes "b.mut") (bytes "/q/b.mut")).
    split; [|split; vm_compute; reflexivity]. apply list_elem_of_lookup. exists 0%nat. vm_compute. reflexivity.
Defined.
