(* ===== verification/Link.v ===== *)
(** Linking: [src/module/link.go] and [src/ast/shift.go], and the lookups that
    undo it ([ModuleAt], [ModuleLine], [StripDebugInfo] of
    [src/compiler/compiler.go]).

    Linking concatenates the sources of a graph and rebases every position
    onto the result; the spans it records map a line of the result back to a
    file and a line.  Link mutates the programs it is given, so the modules it
    returns are the graph's own with their programs moved. *)

From stdpp Require Import base list list_numbers numbers gmap sets strings.
From Stdlib Require Import ZArith Lia.
From S2P Require Import Prelude Code Stream LineTable Polymorphic Text Lexer Paths Ast Module.

(* ------------------------------------------------------------------ *)
(** ** Rebasing a program *)

(** [ast.Range.Shift]. *)
Definition shift_range (lines offset : Z) (r : Range) : Range :=
  Rng_ (Shift (r_Start r) lines offset) (Shift (r_End r) lines offset).

(** [Program.ShiftPositions]. *)
Definition ShiftPositions (lines offset : Z) (p : Program) : Program :=
  if (lines =? 0) && (offset =? 0) then p
  else
    Prog (Statements p) (shift_range lines offset <$> NodePositions p)
      ((fun c => LineComment (c_Text c) (Shift (c_Start c) lines offset) (Shift (c_End c) lines offset))
         <$> p_Comments p)
      ((fun o => Origin (shift_range lines offset (Call o)) (shift_range lines offset (Definition_ o)))
         <$> MacroExpansions p).

(* ------------------------------------------------------------------ *)
(** ** Link *)

(** [strings.Count(s, "\n")]. *)
Definition count_lines (s : list Z) : Z := zlen (filter (eq cNewline) s).

(** [Linked]. *)
Record Linked : Type := Lk {
  l_SourceText : list Z; Spans : list ModuleSpan; l_Modules : list Module;
  l_Entry : option Module; EntryPath : path }.

Definition with_program (m : Module) (p : Program) : Module :=
  Mod (m_Path m) (Display m) (m_Source m) p (Imports m).

(** A module's source, ended by a newline. *)
Definition chunk_of (source : list Z) : list Z :=
  if HasSuffix source [cNewline] then source else source ++ [cNewline].

(** The loop of [Link], from a running line and offset. *)
Fixpoint link_loop (mods : list Module) (line offset : Z) : list Z * list ModuleSpan * list Module :=
  match mods with
  | [] => ([], [], [])
  | m :: mods =>
      let chunk := chunk_of (m_Source m) in
      let '(text, spans, mods') := link_loop mods (line + count_lines chunk) (offset + zlen chunk) in
      (chunk ++ text, Span (Display m) line :: spans,
       with_program m (ShiftPositions (line - 1) offset (m_Program m)) :: mods')
  end.

(** [Graph.Link]; the entry is one of the modules. *)
Definition Link (g : Graph) : Linked :=
  match Modules g with
  | [] => Lk [] [] [] None []
  | mods =>
      let '(text, spans, mods') := link_loop mods 1 0 in
      Lk text spans mods'
        (snd <$> list_find (fun m => Key m = Key (Entry g)) mods') (Display (Entry g))
  end.

(* ------------------------------------------------------------------ *)
(** ** Lines of the linked source *)

(** The backwards scan of [ModuleAt]. *)
Fixpoint last_span (spans : list ModuleSpan) (line : Z) : option ModuleSpan :=
  match spans with
  | [] => None
  | s :: spans =>
      match last_span spans line with
      | Some s' => Some s'
      | None => if StartLine s <=? line then Some s else None
      end
  end.

(** [ByteCode.ModuleAt]. *)
Definition ModuleAt (bc : ByteCode) (line : Z) : option (path * Z) :=
  if bool_decide (ModuleSpans bc = []) || (line <=? 0) then None
  else (fun s => (Path s, line - StartLine s + 1)) <$> last_span (ModuleSpans bc) line.

(** [blobLineCount]. *)
Definition blobLineCount (text : list Z) : Z :=
  if bool_decide (text = []) then 0
  else count_lines text + (if HasSuffix text [cNewline] then 0 else 1).

(** [spanLastLine]. *)
Definition spanLastLine (bc : ByteCode) (index : nat) : option Z :=
  match ModuleSpans bc !! S index with
  | Some next => Some (StartLine next - 1)
  | None =>
      let lines := blobLineCount (SourceText bc) in
      if 0 <? lines then Some lines else None
  end.

(** The index of the first span a test accepts, and of the last. *)
Fixpoint first_index (p : ModuleSpan -> bool) (spans : list ModuleSpan) : option nat :=
  match spans with
  | [] => None
  | s :: spans => if p s then Some 0%nat else S <$> first_index p spans
  end.

Fixpoint last_index (p : ModuleSpan -> bool) (spans : list ModuleSpan) : option nat :=
  match spans with
  | [] => None
  | s :: spans =>
      match last_index p spans with
      | Some i => Some (S i)
      | None => if p s then Some 0%nat else None
      end
  end.

(** [entrySpan]. *)
Definition entrySpan (bc : ByteCode) : option nat :=
  match ModuleSpans bc with
  | [] => None
  | _ :: rest =>
      let named :=
        if bool_decide (SourceFile bc = []) then None
        else last_index (fun s => bool_decide (Clean (Path s) = Clean (SourceFile bc))) (ModuleSpans bc) in
      match named with
      | Some i => Some i
      | None => Some (length rest)
      end
  end.

(** The second pass of [moduleSpanFor]: the only span with that base name. *)
Fixpoint only_index (p : ModuleSpan -> bool) (spans : list ModuleSpan) (i : nat) (found : option nat)
    : option nat :=
  match spans with
  | [] => found
  | s :: spans =>
      if p s then
        match found with
        | Some _ => None
        | None => only_index p spans (S i) (Some i)
        end
      else only_index p spans (S i) found
  end.

(** [moduleSpanFor]. *)
Definition moduleSpanFor (bc : ByteCode) (p : path) : option nat :=
  if bool_decide (p = []) then entrySpan bc
  else
    let want := Clean p in
    match first_index (fun s => bool_decide (Clean (Path s) = want)) (ModuleSpans bc) with
    | Some i => Some i
    | None => only_index (fun s => bool_decide (Base (Path s) = Base want)) (ModuleSpans bc) 0 None
    end.

(** [ByteCode.ModuleLine]. *)
Definition ModuleLine (bc : ByteCode) (p : path) (line : Z) : option Z :=
  if line <=? 0 then None
  else if bool_decide (ModuleSpans bc = []) then Some line
  else
    match moduleSpanFor bc p with
    | None => None
    | Some index =>
        match ModuleSpans bc !! index with
        | None => None
        | Some span =>
            let absLine := StartLine span + line - 1 in
            match spanLastLine bc index with
            | Some last => if last <? absLine then None else Some absLine
            | None => Some absLine
            end
        end
    end.

(** [ByteCode.ModulesNamed]. *)
Definition ModulesNamed (bc : ByteCode) (p : path) : nat :=
  if bool_decide (p = []) then 0
  else
    let want := Clean p in
    match first_index (fun s => bool_decide (Clean (Path s) = want)) (ModuleSpans bc) with
    | Some _ => 1
    | None => length (filter (fun s => Base (Path s) = Base want) (ModuleSpans bc))
    end.

(** What the generator sets on a program it builds from a linked graph
    ([buildByteCode] of [src/generator/generate.go]). *)
Definition with_source (bc : ByteCode) (l : Linked) : ByteCode :=
  BC (Instructions bc) (Constants bc) (StructDefs bc) (EnumDefs bc) (LuaPatches bc) (Version bc)
     (BuiltinNames bc) (OpcodeMap bc) (EntryPath l) (bc_LineTable bc) (bc_MacroTable bc) (bc_EndTable bc)
     (l_SourceText l) (Spans l) (bc_GlobalNames bc) (legacyRegistry bc).

(** [ByteCode.StripDebugInfo]. *)
Definition strip_function (fn : CompiledFunction) : CompiledFunction :=
  Fn (fn_Instructions fn) (NumLocals fn) (NumParams fn) (fn_CapturedLocals fn) EmptyString [] [] [] [] [].

Definition strip_constant (c : Constant) : Constant :=
  match c with CFunction fn => CFunction (strip_function fn) | COther v => COther v end.

Definition StripDebugInfo (bc : ByteCode) : ByteCode :=
  BC (Instructions bc) (strip_constant <$> Constants bc) (StructDefs bc) (EnumDefs bc) (LuaPatches bc)
     (Version bc) (BuiltinNames bc) (OpcodeMap bc) [] [] [] [] [] [] [] (legacyRegistry bc).

(* ------------------------------------------------------------------ *)
(** ** Lines and positions of a concatenation *)

Lemma count_lines_app s t : count_lines (s ++ t) = count_lines s + count_lines t.
Proof. unfold count_lines. rewrite list.filter_app. apply zlen_app. Qed.

Lemma count_lines_nonneg s : 0 <= count_lines s.
Proof. apply zlen_nonneg. Qed.

Lemma HasSuffix_newline s : HasSuffix s [cNewline] = true <-> exists s', s = s' ++ [cNewline].
Proof.
  unfold HasSuffix. rewrite andb_true_iff, bool_decide_eq_true, Nat.leb_le. cbn [length]. split.
  - intros [Hl Hd]. exists (take (length s - 1) s). rewrite <- Hd. by rewrite take_drop.
  - intros [s' ->]. rewrite length_app. cbn [length]. split; [lia|].
    replace (length s' + 1 - 1)%nat with (length s') by lia. apply drop_app_length.
Qed.

(** A chunk is a body and a newline, and shows the source's own lines. *)
Lemma chunk_of_spec source :
  exists body, chunk_of source = body ++ [cNewline] /\ (source = body \/ source = body ++ [cNewline]) /\
    source `prefix_of` chunk_of source.
Proof.
  unfold chunk_of. destruct (HasSuffix source [cNewline]) eqn:E.
  - apply HasSuffix_newline in E as [body ->]. exists body. auto.
  - exists source. split; [done|]. split; [auto|]. by exists [cNewline].
Qed.

Lemma chunk_lines source : 0 < count_lines (chunk_of source).
Proof.
  destruct (chunk_of_spec source) as (body & -> & _). rewrite count_lines_app.
  pose proof (count_lines_nonneg body). change (count_lines [cNewline]) with 1. lia.
Qed.

Lemma advance_line p s : Line (advance p s) = Line p + count_lines s /\ Offset (advance p s) = Offset p + zlen s.
Proof.
  revert p. induction s as [|b s IH]; intros p; cbn [advance].
  { unfold count_lines, zlen. cbn. lia. }
  change (b :: s) with ([b] ++ s). rewrite count_lines_app, zlen_app. change (zlen [b]) with 1.
  destruct (Z.eqb_spec b cNewline) as [->|Hb].
  - destruct (IH (Pos (Line p + 1) 1 (Offset p + 1))) as [-> ->]. cbn [Line Offset].
    change (count_lines [cNewline]) with 1. lia.
  - destruct (IH (Pos (Line p) (Column p + 1) (Offset p + 1))) as [-> ->]. cbn [Line Offset].
    assert (count_lines [b] = 0) as -> by (unfold count_lines; by rewrite filter_cons_False). lia.
Qed.

Lemma Shift_valid p lines offset :
  0 < Line p -> Shift p lines offset = Pos (Line p + lines) (Column p) (Offset p + offset).
Proof. intros Hp. unfold Shift, IsValid. by rewrite (proj2 (Z.ltb_lt _ _) Hp). Qed.

Lemma advance_shift p s lines offset :
  0 < Line p -> Shift (advance p s) lines offset = advance (Shift p lines offset) s.
Proof.
  revert p. induction s as [|b s IH]; intros p Hp; cbn [advance]; [done|].
  rewrite (Shift_valid p) by done. cbn [Line Column Offset].
  destruct (b =? cNewline); rewrite IH by (cbn [Line]; lia); rewrite Shift_valid by (cbn [Line]; lia);
    cbn [Line Column Offset]; f_equal; f_equal; lia.
Qed.

(** The text before the [i]th of a list of modules. *)
Definition blob_of (mods : list Module) : list Z := concat ((fun m => chunk_of (m_Source m)) <$> mods).

Definition blob_before (mods : list Module) (i : nat) : list Z := blob_of (take i mods).

Lemma blob_of_app a b : blob_of (a ++ b) = blob_of a ++ blob_of b.
Proof. unfold blob_of. by rewrite fmap_app, concat_app. Qed.

Lemma blob_of_column mods : Column (advance (Pos 1 1 0) (blob_of mods)) = 1.
Proof.
  induction mods as [|m mods IH] using rev_ind; [done|]. rewrite blob_of_app.
  unfold blob_of at 2. cbn [fmap list_fmap concat]. rewrite app_nil_r.
  destruct (chunk_of_spec (m_Source m)) as (body & -> & _). rewrite app_assoc, advance_app. done.
Qed.

Lemma blob_of_position mods :
  advance (Pos 1 1 0) (blob_of mods) = Pos (1 + count_lines (blob_of mods)) 1 (zlen (blob_of mods)).
Proof.
  destruct (advance_line (Pos 1 1 0) (blob_of mods)) as [H1 H2]. pose proof (blob_of_column mods) as H3.
  destruct (advance _ _) as [a b c]. cbn [Line Column Offset] in *. f_equal; lia.
Qed.

(** The loop of [Link] in closed form. *)
Lemma link_loop_spec mods line offset :
  let '(text, spans, mods') := link_loop mods line offset in
  text = blob_of mods /\
  (forall i, spans !! i = (fun m => Span (Display m) (line + count_lines (blob_before mods i))) <$> mods !! i) /\
  (forall i, mods' !! i = (fun m => with_program m
     (ShiftPositions (line + count_lines (blob_before mods i) - 1) (offset + zlen (blob_before mods i))
        (m_Program m))) <$> mods !! i).
Proof.
  revert line offset. induction mods as [|m mods IH]; intros line offset; cbn [link_loop]; [by repeat split|].
  set (chunk := chunk_of (m_Source m)). specialize (IH (line + count_lines chunk) (offset + zlen chunk)).
  destruct (link_loop _ _ _) as [[text spans] mods']. destruct IH as (-> & Hs & Hm).
  assert (Hb : forall i, blob_before (m :: mods) (S i) = chunk ++ blob_before mods i) by done.
  split; [done|]. split; intros [|i]; cbn [lookup list_lookup fmap option_fmap option_map].
  - unfold blob_before, blob_of. cbn. by rewrite Z.add_0_r.
  - rewrite Hs, Hb, count_lines_app. destruct (mods !! i); [|done]. cbn. do 2 f_equal. lia.
  - unfold blob_before, blob_of. cbn [take fmap list_fmap concat]. change (count_lines []) with 0.
    change (zlen (@nil Z)) with 0. by rewrite !Z.add_0_r.
  - rewrite Hm, Hb, count_lines_app, zlen_app. destruct (mods !! i); [|done]. cbn. do 3 f_equal; lia.
Qed.

(** Any position of a program, moved by a function. *)
Definition map_range (f : Position -> Position) (r : Range) : Range := Rng_ (f (r_Start r)) (f (r_End r)).

Definition moved (f : Position -> Position) (p p' : Program) : Prop :=
  Statements p' = Statements p /\ NodePositions p' = map_range f <$> NodePositions p /\
  p_Comments p' = (fun c => LineComment (c_Text c) (f (c_Start c)) (f (c_End c))) <$> p_Comments p /\
  MacroExpansions p' = (fun o => Origin (map_range f (Call o)) (map_range f (Definition_ o))) <$> MacroExpansions p.

Lemma Shift_0 p : Shift p 0 0 = p.
Proof. destruct p as [a b c]. unfold Shift. cbn. destruct (IsValid _); [|done]. by rewrite !Z.add_0_r. Qed.

Lemma ShiftPositions_moved lines offset p :
  moved (fun pos => Shift pos lines offset) p (ShiftPositions lines offset p).
Proof.
  unfold ShiftPositions. destruct (_ && _) eqn:E; [|by repeat split]. breflect. subst.
  assert (Hr : forall r, map_range (fun pos => Shift pos 0 0) r = r).
  { intros [a b]. unfold map_range. cbn. by rewrite !Shift_0. }
  split; [done|]. split; [|split].
  - apply map_eq. intros k. rewrite lookup_fmap. destruct (NodePositions p !! k); [|done]. cbn. by rewrite Hr.
  - rewrite <- (list_fmap_id (p_Comments p)) at 1. apply list_fmap_ext. intros i [t a b] _. cbn. by rewrite !Shift_0.
  - apply map_eq. intros k. rewrite lookup_fmap. destruct (MacroExpansions p !! k) as [[a b]|]; [|done]. cbn.
    by rewrite !Hr.
Qed.

(* ------------------------------------------------------------------ *)
(** ** What linking establishes *)

Definition start_line (mods : list Module) (i : nat) : Z := 1 + count_lines (blob_before mods i).

Lemma Link_spec g :
  l_SourceText (Link g) = blob_of (Modules g) /\
  (forall i, Spans (Link g) !! i = (fun m => Span (Display m) (start_line (Modules g) i)) <$> Modules g !! i) /\
  (forall i, l_Modules (Link g) !! i = (fun m => with_program m
     (ShiftPositions (start_line (Modules g) i - 1) (zlen (blob_before (Modules g) i)) (m_Program m)))
     <$> Modules g !! i).
Proof.
  unfold Link. destruct (Modules g) as [|m mods] eqn:E; [by repeat split|].
  pose proof (link_loop_spec (m :: mods) 1 0) as Hl. destruct (link_loop _ _ _) as [[text spans] mods']. exact Hl.
Qed.

(** The blob around the [i]th module. *)
Lemma blob_around mods i m :
  mods !! i = Some m ->
  blob_of mods = blob_before mods i ++ chunk_of (m_Source m) ++ blob_of (drop (S i) mods).
Proof.
  intros Hi. rewrite <- (take_drop_middle mods i m Hi) at 1. by rewrite blob_of_app.
Qed.

(** C33: linking keeps every position true.  In the linked source the [i]th
    module's text stands at an offset of its own, beginning a line, and linking
    moves every position its program records (nodes, comments, both ends of
    macro expansions) so that a position that was the place of the [k]th byte
    of the file is the place of that byte in the linked source. *)
Theorem link_rebases_positions (g : Graph) (i : nat) (m : Module) :
  Modules g !! i = Some m ->
  let text := l_SourceText (Link g) in
  exists offset m' f,
    l_Modules (Link g) !! i = Some m' /\ m_Source m' = m_Source m /\
    Spans (Link g) !! i = Some (Span (Display m) (Line (advance (Pos 1 1 0) (take offset text)))) /\
    take (length (m_Source m)) (drop offset text) = m_Source m /\
    moved f (m_Program m) (m_Program m') /\
    (forall k, (k <= length (m_Source m))%nat ->
       f (advance (Pos 1 1 0) (take k (m_Source m))) = advance (Pos 1 1 0) (take (offset + k) text)).
Proof.
  intros Hi. cbv zeta. destruct (Link_spec g) as (-> & Hs & Hm).
  pose proof (blob_around _ _ _ Hi) as Hb. destruct (chunk_of_spec (m_Source m)) as (_ & _ & _ & [tail Ht]).
  rewrite Ht in Hb. set (pre := blob_before (Modules g) i) in *.
  assert (Htake : forall k, (k <= length (m_Source m))%nat ->
    take (length pre + k) (blob_of (Modules g)) = pre ++ take k (m_Source m)).
  { intros k Hk. rewrite Hb, take_app, Nat.add_comm, Nat.add_sub, take_ge by lia. f_equal. rewrite <- app_assoc. by rewrite take_app_le by done. }
  eexists (length pre), _, (fun p => Shift p (start_line (Modules g) i - 1) (zlen pre)).
  rewrite Hm, Hs, Hi. cbn [fmap option_fmap option_map]. split; [done|]. split; [done|].
  assert (Hpos : advance (Pos 1 1 0) pre = Pos (start_line (Modules g) i) 1 (zlen pre)) by apply blob_of_position.
  split; [|split; [|split]].
  - rewrite Hb, take_app_length, Hpos. done.
  - rewrite Hb, drop_app_length, <- app_assoc. apply take_app_length.
  - apply ShiftPositions_moved.
  - intros k Hk. rewrite Htake, advance_app, Hpos by done. rewrite advance_shift by (cbn; lia).
    rewrite Shift_valid by (cbn; lia). cbn [Line Column Offset]. f_equal. f_equal; lia.
Qed.

(** Spans start on ever later lines. *)
Lemma start_line_S mods i m :
  mods !! i = Some m -> start_line mods (S i) = start_line mods i + count_lines (chunk_of (m_Source m)).
Proof.
  intros Hi. unfold start_line, blob_before. rewrite (take_S_r _ _ _ Hi), blob_of_app, count_lines_app.
  assert (Hm : blob_of [m] = chunk_of (m_Source m)) by apply app_nil_r. rewrite Hm. lia.
Qed.

Lemma start_line_mono mods i j : (i <= j)%nat -> start_line mods i <= start_line mods j.
Proof.
  intros Hij. unfold start_line, blob_before. rewrite <- (take_drop i (take j mods)), take_take, Nat.min_l by lia.
  rewrite blob_of_app, count_lines_app. pose proof (count_lines_nonneg (blob_of (drop i (take j mods)))). lia.
Qed.

(** The backwards scan finds the module a line is in. *)
Lemma last_span_spec (spans : list ModuleSpan) i s line :
  spans !! i = Some s -> StartLine s <= line ->
  (forall j t, (i < j)%nat -> spans !! j = Some t -> line < StartLine t) ->
  last_span spans line = Some s.
Proof.
  revert i. induction spans as [|t spans IH]; intros i Hi Hs Hlater; [done|]. cbn [last_span].
  destruct i as [|i]; cbn in Hi.
  - simplify_eq. assert (Hnone : last_span spans line = None).
    { assert (Hall : forall t, t ∈ spans -> line < StartLine t).
      { intros t [j Hj]%list_elem_of_lookup. apply (Hlater (S j)); [lia|done]. }
      clear -Hall. induction spans as [|t spans IH]; [done|]. cbn [last_span].
      rewrite IH by (intros; apply Hall; by constructor).
      assert (line < StartLine t) by (apply Hall; by constructor). by rewrite (proj2 (Z.leb_gt _ _)). }
    rewrite Hnone. by rewrite (proj2 (Z.leb_le _ _)).
  - rewrite (IH i); [done|done|done|]. intros j u Hj Hu. apply (Hlater (S j)); [lia|done].
Qed.

(** A line inside the [i]th module is found there. *)
Lemma ModuleAt_module g bc i m n :
  Modules g !! i = Some m -> 1 <= n <= count_lines (chunk_of (m_Source m)) ->
  ModuleAt (with_source bc (Link g)) (start_line (Modules g) i + n - 1) = Some (Display m, n).
Proof.
  intros Hi Hn. destruct (Link_spec g) as (_ & Hs & _). unfold ModuleAt. cbn [with_source ModuleSpans].
  assert (Hsi : Spans (Link g) !! i = Some (Span (Display m) (start_line (Modules g) i))) by (rewrite Hs, Hi; done).
  rewrite bool_decide_eq_false_2 by (intros E; by rewrite E in Hsi).
  assert (1 <= start_line (Modules g) i) by (unfold start_line; pose proof (count_lines_nonneg (blob_before (Modules g) i)); lia).
  rewrite (proj2 (Z.leb_gt _ _)) by lia. cbn [orb].
  rewrite (last_span_spec _ i (Span (Display m) (start_line (Modules g) i))); [|done|cbn; lia|].
  - cbn. do 2 f_equal. lia.
  - intros j t Hj Ht. rewrite Hs in Ht. apply fmap_Some in Ht as (mj & _ & ->). cbn [StartLine].
    pose proof (start_line_mono (Modules g) (S i) j ltac:(lia)). rewrite (start_line_S _ _ _ Hi) in *. lia.
Qed.

(** Splitting a concatenation at its newlines. *)
Lemma Split_concat a b sep : Split (a ++ sep :: b) sep = Split a sep ++ Split b sep.
Proof.
  induction a as [|c a IH]; cbn [app Split]; [by rewrite Z.eqb_refl|].
  destruct (c =? sep); [by rewrite IH|]. rewrite IH.
  destruct (Split a sep) as [|p ps] eqn:E; [by destruct (Split_ne a sep)|]. done.
Qed.

Lemma length_Split s : Z.of_nat (length (Split s cNewline)) = 1 + count_lines s.
Proof.
  induction s as [|c s IH]; [done|]. change (c :: s) with ([c] ++ s). rewrite count_lines_app.
  cbn [app Split]. destruct (Z.eqb_spec c cNewline) as [->|Hc].
  - cbn [length]. change (count_lines [cNewline]) with 1. lia.
  - assert (count_lines [c] = 0) as -> by (unfold count_lines; by rewrite filter_cons_False).
    destruct (Split s cNewline) as [|p ps] eqn:E; [by destruct (Split_ne s cNewline)|]. cbn [length] in *. lia.
Qed.

(** The blob is a body and a newline, unless there are no modules. *)
Lemma blob_ends mods : mods <> [] -> exists body, blob_of mods = body ++ [cNewline].
Proof.
  intros Hne. destruct mods as [|m init _] using rev_ind; [done|]. rewrite blob_of_app.
  assert (blob_of [m] = chunk_of (m_Source m)) as -> by apply app_nil_r.
  destruct (chunk_of_spec (m_Source m)) as (body & -> & _). eexists. by rewrite app_assoc.
Qed.

Lemma Split_blob_before mods i rest :
  exists ls, Split (blob_before mods i ++ rest) cNewline = ls ++ Split rest cNewline /\
    Z.of_nat (length ls) = start_line mods i - 1.
Proof.
  unfold start_line. destruct (decide (take i mods = [])) as [E|E].
  - unfold blob_before. rewrite E. by exists [].
  - destruct (blob_ends _ E) as [body Hb]. unfold blob_before. rewrite Hb, <- app_assoc. cbn [app].
    exists (Split body cNewline). rewrite Split_concat. split; [done|].
    rewrite length_Split, count_lines_app. change (count_lines [cNewline]) with 1. lia.
Qed.

(** A line of a module's file, read in the blob. *)
Lemma blob_line mods i m n :
  mods !! i = Some m -> 1 <= n <= count_lines (chunk_of (m_Source m)) ->
  Split (blob_of mods) cNewline !! Z.to_nat (start_line mods i + n - 2) =
  Split (m_Source m) cNewline !! Z.to_nat (n - 1).
Proof.
  intros Hi Hn. rewrite (blob_around _ _ _ Hi).
  destruct (Split_blob_before mods i (chunk_of (m_Source m) ++ blob_of (drop (S i) mods))) as (ls & -> & Hl).
  rewrite lookup_app_r by lia. replace (Z.to_nat (start_line mods i + n - 2) - length ls)%nat with (Z.to_nat (n - 1)) by lia.
  destruct (chunk_of_spec (m_Source m)) as (body & Hc & Hsrc & _). rewrite Hc in *. rewrite <- app_assoc. cbn [app].
  rewrite Split_concat. rewrite count_lines_app in Hn. change (count_lines [cNewline]) with 1 in Hn.
  pose proof (length_Split body). rewrite lookup_app_l by lia.
  destruct Hsrc as [->| ->]; [done|]. rewrite Split_concat. by rewrite lookup_app_l by lia.
Qed.

(** Every line of the blob is a line of a module. *)
Lemma locate_line mods line :
  1 <= line <= count_lines (blob_of mods) ->
  exists i m n, mods !! i = Some m /\ 1 <= n <= count_lines (chunk_of (m_Source m)) /\
    line = start_line mods i + n - 1.
Proof.
  intros Hline.
  assert (Hfind : forall k, (k <= length mods)%nat -> line < start_line mods k ->
    exists i m, mods !! i = Some m /\ start_line mods i <= line < start_line mods (S i)).
  { induction k as [|k IH]; intros Hk Hlt; [assert (start_line mods 0 = 1) by done; lia|].
    destruct (Z.lt_ge_cases line (start_line mods k)) as [Hl|Hl]; [apply IH; [lia|done]|].
    destruct (lookup_lt_is_Some_2 mods k) as [m Hm]; [lia|]. by exists k, m. }
  destruct (Hfind (length mods) (Nat.le_refl _)) as (i & m & Hi & Hlo & Hhi).
  { unfold start_line, blob_before. rewrite take_ge by lia. lia. }
  rewrite (start_line_S _ _ _ Hi) in Hhi. exists i, m, (line - start_line mods i + 1).
  split; [done|]. lia.
Qed.

Lemma start_line_bounds mods i m :
  mods !! i = Some m -> 1 <= start_line mods i /\
  start_line mods i + count_lines (chunk_of (m_Source m)) <= 1 + count_lines (blob_of mods).
Proof.
  intros Hi. rewrite <- (start_line_S _ _ _ Hi). split.
  - unfold start_line. pose proof (count_lines_nonneg (blob_before mods i)). lia.
  - pose proof (lookup_lt_Some _ _ _ Hi). pose proof (start_line_mono mods (S i) (length mods) ltac:(lia)) as Hm.
    unfold start_line at 2, blob_before in Hm. rewrite take_ge in Hm by lia. lia.
Qed.

(** A fault is reported in the right file.  For a program built from a
    linked graph, every line of the linked source resolves to a module of the
    graph and a line of its file, the one that stands there: the text of the
    linked line is the text of that line of the file. *)
Theorem module_at_finds_the_file (g : Graph) (bc : ByteCode) (line : Z) :
  let p := with_source bc (Link g) in
  1 <= line <= count_lines (SourceText p) ->
  exists i m n, Modules g !! i = Some m /\ 1 <= n <= count_lines (chunk_of (m_Source m)) /\
    line = start_line (Modules g) i + n - 1 /\
    ModuleAt p line = Some (Display m, n) /\
    Split (SourceText p) cNewline !! Z.to_nat (line - 1) = Split (m_Source m) cNewline !! Z.to_nat (n - 1).
Proof.
  cbv zeta. cbn [with_source SourceText]. destruct (Link_spec g) as (-> & _ & _). intros Hline.
  destruct (locate_line _ _ Hline) as (i & m & n & Hi & Hn & ->). exists i, m, n.
  split; [done|]. split; [done|]. split; [done|]. split; [by apply ModuleAt_module|].
  rewrite <- (blob_line _ i m) by done. f_equal. lia.
Qed.

(** The last line of a span is the last line of its module. *)
Lemma spanLastLine_module g bc i m :
  Modules g !! i = Some m ->
  spanLastLine (with_source bc (Link g)) i =
    Some (start_line (Modules g) i + count_lines (chunk_of (m_Source m)) - 1).
Proof.
  intros Hi. destruct (Link_spec g) as (Ht & Hs & _). unfold spanLastLine. cbn [with_source ModuleSpans SourceText].
  rewrite Hs, <- (start_line_S _ _ _ Hi). destruct (Modules g !! S i) as [m'|] eqn:E; [done|]. cbn [fmap option_fmap option_map].
  apply lookup_ge_None_1 in E.
  assert (Hall : start_line (Modules g) (S i) = 1 + count_lines (blob_of (Modules g))).
  { unfold start_line, blob_before. by rewrite take_ge. }
  destruct (blob_ends (Modules g)) as [body Hb]; [intros E'; by rewrite E' in Hi|].
  assert (Hblob : blobLineCount (l_SourceText (Link g)) = count_lines (blob_of (Modules g))).
  { unfold blobLineCount. rewrite Ht. rewrite bool_decide_eq_false_2 by (rewrite Hb; by destruct body).
    rewrite (proj2 (HasSuffix_newline _)) by eauto. lia. }
  rewrite Hblob, Hall. rewrite (proj2 (Z.ltb_lt _ _)); [f_equal; lia|].
  rewrite Hb, count_lines_app. pose proof (count_lines_nonneg body). change (count_lines [cNewline]) with 1. lia.
Qed.

Lemma ModuleLine_module g bc i m p n :
  Modules g !! i = Some m -> moduleSpanFor (with_source bc (Link g)) p = Some i ->
  ModuleLine (with_source bc (Link g)) p n =
    if (1 <=? n) && (n <=? count_lines (chunk_of (m_Source m)))
    then Some (start_line (Modules g) i + n - 1) else None.
Proof.
  intros Hi Hp. pose proof (spanLastLine_module g bc i m Hi) as Hl. unfold ModuleLine.
  destruct (Z.leb_spec n 0) as [Hn|Hn]; [by rewrite (proj2 (Z.leb_gt 1 n)) by lia|].
  rewrite (proj2 (Z.leb_le 1 n)) by lia. cbn [andb]. destruct (Link_spec g) as (_ & Hs & _).
  assert (Hsi : ModuleSpans (with_source bc (Link g)) !! i = Some (Span (Display m) (start_line (Modules g) i)))
    by (cbn [with_source ModuleSpans]; rewrite Hs, Hi; done).
  rewrite bool_decide_eq_false_2 by (intros E; by rewrite E in Hsi). rewrite Hp, Hsi, Hl. cbn [StartLine].
  destruct (Z.leb_spec n (count_lines (chunk_of (m_Source m)))).
  - by rewrite (proj2 (Z.ltb_ge _ _)) by lia.
  - by rewrite (proj2 (Z.ltb_lt _ _)) by lia.
Qed.

Lemma first_index_unique (f : ModuleSpan -> path) spans i s :
  NoDup (f <$> spans) -> spans !! i = Some s -> first_index (fun t => bool_decide (f t = f s)) spans = Some i.
Proof.
  revert i. induction spans as [|t spans IH]; intros i Hnd Hi; [done|]. cbn [fmap list_fmap] in Hnd.
  apply NoDup_cons in Hnd as [Hn Hnd]. cbn [first_index]. destruct i as [|i]; cbn in Hi.
  - simplify_eq. by rewrite bool_decide_eq_true_2.
  - rewrite bool_decide_eq_false_2; [by rewrite (IH i)|]. intros E. apply Hn. rewrite E.
    apply list_elem_of_fmap_2. by eapply list_elem_of_lookup_2.
Qed.

Lemma last_index_last p spans s : list.last spans = Some s -> p s = true -> last_index p spans = Some (length spans - 1)%nat.
Proof.
  induction spans as [|t spans IH]; intros Hl Hp; [done|]. cbn [last_index]. destruct spans as [|u spans].
  - cbn in *. simplify_eq. by rewrite Hp.
  - rewrite IH by done. cbn [length]. f_equal. lia.
Qed.

(** The span a display path names, and the one no path names. *)
Lemma moduleSpanFor_display g bc i m :
  NoDup ((fun m => Clean (Display m)) <$> Modules g) -> Modules g !! i = Some m -> Display m <> [] ->
  moduleSpanFor (with_source bc (Link g)) (Display m) = Some i.
Proof.
  intros Hnd Hi Hne. destruct (Link_spec g) as (_ & Hs & _). unfold moduleSpanFor. cbn [with_source ModuleSpans].
  rewrite bool_decide_eq_false_2 by done.
  assert (Hsi : Spans (Link g) !! i = Some (Span (Display m) (start_line (Modules g) i))) by (rewrite Hs, Hi; done).
  assert (Heq : (fun s => Clean (Path s)) <$> Spans (Link g) = (fun m => Clean (Display m)) <$> Modules g).
  { apply list_eq. intros j. rewrite !list_lookup_fmap, Hs. by destruct (Modules g !! j). }
  change (Clean (Display m)) with (Clean (Path (Span (Display m) (start_line (Modules g) i)))).
  rewrite (first_index_unique (fun s => Clean (Path s)) _ i); [done| |done]. by rewrite Heq.
Qed.

Lemma moduleSpanFor_entry g bc :
  list.last (Modules g) = Some (Entry g) -> Display (Entry g) <> [] ->
  moduleSpanFor (with_source bc (Link g)) [] = Some (length (Modules g) - 1)%nat.
Proof.
  intros Hlast Hne. destruct (Link_spec g) as (_ & Hs & _). unfold moduleSpanFor.
  rewrite bool_decide_eq_true_2 by done. unfold entrySpan. cbn [with_source ModuleSpans SourceFile].
  assert (Hl : length (Spans (Link g)) = length (Modules g)).
  { assert (E : Path <$> Spans (Link g) = Display <$> Modules g).
    { apply list_eq. intros j. rewrite !list_lookup_fmap, Hs. by destruct (Modules g !! j). }
    apply (f_equal length) in E. by rewrite !length_fmap in E. }
  assert (Hls : exists s, list.last (Spans (Link g)) = Some s /\ Path s = Display (Entry g)).
  { rewrite list.last_lookup in Hlast. rewrite list.last_lookup, Hl, Hs, Hlast. eexists. done. }
  destruct Hls as (s & Hls & Hp).
  assert (He : EntryPath (Link g) = Display (Entry g)).
  { unfold Link. destruct (Modules g); [done|]. by destruct (link_loop _ _ _) as [[? ?] ?]. }
  destruct (Spans (Link g)) as [|t rest] eqn:Esp; [done|]. rewrite <- Esp in *.
  rewrite He, bool_decide_eq_false_2 by done.
  rewrite (last_index_last _ _ s); [by rewrite Hl|done|]. rewrite Hp. by rewrite bool_decide_eq_true_2.
Qed.

(** C38: a breakpoint lands on the line it names.  For a program built from a
    linked graph whose files show under different paths, asking for a line of
    a module by its path gives a line of the linked source exactly when that
    line resolves back to the module and the line asked for, so a line past
    the end of the file is refused rather than found in the next one; and
    naming no file means the entry. *)
Theorem module_line_inverts_module_at (g : Graph) (bc : ByteCode) (i : nat) (m : Module) (n line : Z) :
  let p := with_source bc (Link g) in
  NoDup ((fun m => Clean (Display m)) <$> Modules g) -> Modules g !! i = Some m -> Display m <> [] ->
  (ModuleLine p (Display m) n = Some line <->
   1 <= line <= count_lines (SourceText p) /\ ModuleAt p line = Some (Display m, n)) /\
  (list.last (Modules g) = Some (Entry g) -> Entry g = m ->
   ModuleLine p [] n = ModuleLine p (Display m) n).
Proof.
  intros p Hnd Hi Hne. pose proof (moduleSpanFor_display g bc i m Hnd Hi Hne) as Hspan. subst p.
  pose proof (ModuleLine_module g bc i m (Display m) n Hi Hspan) as Hml. split.
  - rewrite Hml. cbn [with_source SourceText]. rewrite (proj1 (Link_spec g)). split.
    + destruct (_ && _) eqn:E; [|done]. breflect. intros [= <-].
      destruct (start_line_bounds _ _ _ Hi). split; [lia|]. by apply ModuleAt_module.
    + intros [Hline Hat]. destruct (locate_line _ _ Hline) as (j & m' & n' & Hj & Hn' & ->).
      rewrite (ModuleAt_module g bc j m' n' Hj Hn') in Hat. injection Hat as Hd ->.
      assert (j = i) as ->.
      { eapply (NoDup_lookup _ _ _ (Clean (Display m)) Hnd); rewrite list_lookup_fmap, ?Hi, ?Hj; [|done]. cbn. by rewrite Hd. }
      rewrite Hi in Hj. injection Hj as <-. rewrite !(proj2 (Z.leb_le _ _)) by lia. done.
  - intros Hlast He. assert (Hentry : moduleSpanFor (with_source bc (Link g)) [] = Some i).
    { rewrite moduleSpanFor_entry by congruence. f_equal. rewrite list.last_lookup, He in Hlast.
      rewrite Nat.sub_1_r.
      eapply (NoDup_lookup _ _ _ (Clean (Display m)) Hnd); rewrite list_lookup_fmap, ?Hi, ?Hlast; done. }
    by rewrite Hml, (ModuleLine_module g bc i m [] n Hi Hentry).
Qed.

(* ------------------------------------------------------------------ *)
(** ** Stripping *)

Lemma Remap_nil m : Remap [] m = [].
Proof. by destruct m. Qed.

Section Stripping.
Context {R : Type} `{Rng R}.

Lemma splice_constants_strip level gens cs r :
  splice_constants level gens (strip_constant <$> cs) r =
  (strip_constant <$> (splice_constants level gens cs r).1, (splice_constants level gens cs r).2).
Proof.
  revert r. induction cs as [|[fn|v] cs IH]; intros r; [done| |].
  - cbn [fmap list_fmap strip_constant splice_constants strip_function fn_Instructions].
    destruct (padInstructions _ _ _ _ _) as [[ins remap] r1]. rewrite IH.
    destruct (splice_constants _ _ cs r1) as [cs' r2]. cbn. by rewrite !Remap_nil.
  - cbn [fmap list_fmap strip_constant splice_constants]. rewrite IH.
    by destruct (splice_constants _ _ cs r) as [cs' r2].
Qed.

Lemma spliceFillers_strip level bc config r :
  spliceFillers level (StripDebugInfo bc) config r =
  (StripDebugInfo (spliceFillers level bc config r).1, (spliceFillers level bc config r).2).
Proof.
  unfold spliceFillers. destruct (_ =? 0)%nat; [done|]. cbn [StripDebugInfo Instructions Constants].
  destruct (padInstructions _ _ _ _ _) as [[ins remap] r1]. rewrite splice_constants_strip.
  destruct (splice_constants _ _ _ _) as [cs r2]. cbn. by rewrite !Remap_nil.
Qed.

Lemma update_constant_strip mapping c :
  update_constant mapping (strip_constant c) = strip_constant (update_constant mapping c).
Proof. by destruct c. Qed.

Lemma reorder_loop_fmap {A B : Type} (f : A -> B) mapping (cs : list A) (new : list (option A)) :
  reorder_loop mapping (fmap (M:=list) f cs) (fmap (M:=list) (fmap (M:=option) f) new) =
  fmap (M:=list) (fmap (M:=option) f) (reorder_loop mapping cs new).
Proof.
  revert cs new. induction mapping as [|i mapping IH]; intros [|c cs] new; try done.
  cbn [reorder_loop fmap list_fmap]. rewrite <- IH. f_equal. by rewrite list_fmap_insert.
Qed.

Lemma omap_id_fmap {A B : Type} (f : A -> B) (l : list (option A)) :
  omap (M:=list) id (fmap (M:=list) (fmap (M:=option) f) l) = fmap (M:=list) f (omap (M:=list) id l).
Proof. induction l as [|[x|] l IH]; [done| |done]. cbn. f_equal. exact IH. Qed.

Lemma randomizeConstantPool_strip bc r :
  randomizeConstantPool (StripDebugInfo bc) r =
  (StripDebugInfo (randomizeConstantPool bc r).1, (randomizeConstantPool bc r).2).
Proof.
  unfold randomizeConstantPool. cbn [StripDebugInfo Constants]. rewrite length_fmap.
  destruct (_ <=? 1)%nat; [done|]. destruct (generateShuffleMapping _ _) as [mapping r1]. cbn.
  f_equal. unfold StripDebugInfo, bc_with. cbn. f_equal. unfold reorder. rewrite length_fmap.
  replace (replicate (length (Constants bc)) None)
    with (fmap (M:=list) (fmap (M:=option) strip_constant) (replicate (length (Constants bc)) (@None Constant))) at 1
    by by rewrite fmap_replicate.
  rewrite reorder_loop_fmap, omap_id_fmap, <- !list_fmap_compose.
  apply list_fmap_ext. intros i c _. apply update_constant_strip.
Qed.

Lemma remap_constants_strip forward (cs : list Constant) :
  remap_constants forward (strip_constant <$> cs) =
  fmap (M:=option) (fmap (M:=list) strip_constant) (remap_constants forward cs).
Proof.
  induction cs as [|[fn|v] cs IH]; [done| |].
  - cbn [fmap list_fmap strip_constant remap_constants strip_function fn_Instructions].
    destruct (remapOpcodes _ _); [|done]. rewrite IH. by destruct (remap_constants forward cs).
  - cbn [fmap list_fmap strip_constant remap_constants]. rewrite IH. by destruct (remap_constants forward cs).
Qed.

Lemma mutateOpcodes_strip bc r :
  mutateOpcodes (StripDebugInfo bc) r =
  (StripDebugInfo (mutateOpcodes bc r).1, (mutateOpcodes bc r).2).
Proof.
  unfold mutateOpcodes. destruct (generateOpcodeMapping r) as [mapping r1].
  destruct (opcodeTables mapping) as [forward reverse]. cbn [StripDebugInfo Instructions Constants].
  destruct (remapOpcodes _ _); [|done]. rewrite remap_constants_strip.
  by destruct (remap_constants forward (Constants bc)).
Qed.

(** Debug information steers nothing.  Stripping a program and then
    mutating it gives, for every level and generator, the program that
    mutating and then stripping gives: the file names, source text, spans,
    position tables and names a release build drops have no influence on the
    instructions, constants and opcode table that ship. *)
Theorem stripping_commutes_with_mutation (level : Z) (bc : ByteCode) (r : R) :
  (Mutate level (StripDebugInfo bc) r).1 = StripDebugInfo (Mutate level bc r).1.
Proof.
  unfold Mutate. destruct (level =? 0); [done|].
  destruct (_ || _); [rewrite spliceFillers_strip; destruct (spliceFillers _ _ _ _) as [b1 r1]|];
  (destruct (RandomizeConstants _);
    [rewrite randomizeConstantPool_strip; destruct (randomizeConstantPool _ _) as [b2 r2]|]);
  (destruct (MutateOpcodes _); [rewrite mutateOpcodes_strip; destruct (mutateOpcodes _ _) as [b3 r3]|]);
  reflexivity.
Qed.
End Stripping.

(* ------------------------------------------------------------------ *)
(** ** Witnesses *)

Lemma link_rebases_positions_witness :
  exists offset m' f,
    l_Modules (Link sample_graph) !! 1%nat = Some m' /\ m_Source m' = m_Source sample_module /\
    moved f (m_Program sample_module) (m_Program m') /\
    f (advance (Pos 1 1 0) (take 3 (m_Source sample_module))) =
      advance (Pos 1 1 0) (take (offset + 3) (l_SourceText (Link sample_graph))).
Proof.
  destruct (link_rebases_positions sample_graph 1 sample_module) as (offset & m' & f & H1 & H2 & _ & _ & H3 & H4).
  - vm_compute. reflexivity.
  - exists offset, m', f. split; [exact H1|]. split; [exact H2|]. split; [exact H3|]. apply H4. vm_compute. lia.
Defined.

Definition sample_linked : ByteCode := with_source sample_program (Link sample_graph).

Lemma module_at_finds_the_file_witness :
  exists i m n, Modules sample_graph !! i = Some m /\ ModuleAt sample_linked 2 = Some (Display m, n).
Proof.
  destruct (module_at_finds_the_file sample_graph sample_program 2) as (i & m & n & H1 & _ & _ & H2 & _).
  - vm_compute. split; discriminate.
  - exists i, m, n. exact (conj H1 H2).
Defined.

Lemma module_line_inverts_module_at_witness :
  ModuleLine sample_linked (Display sample_module) 1 = Some 2 /\
  ModuleAt sample_linked 2 = Some (Display sample_module, 1).
Proof.
  assert (Hl : ModuleLine sample_linked (Display sample_module) 1 = Some 2) by (vm_compute; reflexivity).
  split; [exact Hl|].
  apply (module_line_inverts_module_at sample_graph sample_program 1 sample_module 1 2).
  - apply (bool_decide_unpack _). vm_compute. exact I.
  - vm_compute. reflexivity.
  - vm_compute. discriminate.
  - exact Hl.
Defined.
