(* ===== verification/Float64.v ===== *)
(** * IEEE 754 binary64 numbers as the language uses them

    Mutant's FLOAT is Go's [float64].  A value is kept as its bit pattern
    ([math.Float64bits]), so that the two zeros and every NaN stay distinct, the
    way hash keys and storage keep them; arithmetic goes through the Standard
    Library's executable specification of IEEE 754 ([SpecFloat]).  What the
    language leaves to the processor, the bits of a NaN that an operation
    produces, is the parameter [Fpu].

    [scaled] is the exact value of a finite number in units of [2 ^ -1074], the
    smallest subnormal: an integer, so that statements about exact order need no
    real numbers. *)

From stdpp Require Import base list numbers.
From Stdlib Require Import ZArith Lia SpecFloat.
From S2P Require Import Prelude.

(* ------------------------------------------------------------------ *)
(** ** The bit pattern *)

Definition signBit : Z := 2 ^ 63.

(** [math.Signbit]. *)
Definition Signbit (b : Z) : bool := signBit <=? b.

Definition magnitude (b : Z) : Z := b mod signBit.
Definition expField (b : Z) : Z := magnitude b / 2 ^ 52.
Definition fraction (b : Z) : Z := magnitude b mod 2 ^ 52.

(** [math.IsNaN]: all exponent bits set and a fraction that is not zero. *)
Definition IsNaN (b : Z) : bool := 0x7FF0000000000000 <? magnitude b.
Definition IsInf (b : Z) : bool := magnitude b =? 0x7FF0000000000000.
Definition is_finite (b : Z) : bool := magnitude b <? 0x7FF0000000000000.

(** Significand and exponent of a finite number, in its one canonical form. *)
Definition significand (b : Z) : Z :=
  if expField b =? 0 then fraction b else 2 ^ 52 + fraction b.
Definition exponent (b : Z) : Z := if expField b =? 0 then -1074 else expField b - 1075.

(** The number a pattern spells. *)
Definition unpack (b : Z) : spec_float :=
  if IsNaN b then S754_nan
  else if IsInf b then S754_infinity (Signbit b)
  else match significand b with
       | Zpos m => S754_finite (Signbit b) m (exponent b)
       | _ => S754_zero (Signbit b)
       end.

Definition with_sign (s : bool) (mag : Z) : Z := if s then signBit + mag else mag.

(** The pattern of a number; a NaN is the caller's. *)
Definition pack (nan : Z) (f : spec_float) : Z :=
  match f with
  | S754_nan => nan
  | S754_infinity s => with_sign s 0x7FF0000000000000
  | S754_zero s => with_sign s 0
  | S754_finite s m e =>
      u64 (with_sign s
        (if Z.pos m <? 2 ^ 52 then Z.pos m else (e + 1075) * 2 ^ 52 + (Z.pos m - 2 ^ 52)))
  end.

(** The exact value in units of [2 ^ -1074]. *)
Definition scaled (b : Z) : Z :=
  (if Signbit b then -1 else 1) * (significand b * 2 ^ (exponent b + 1074)).

(* ------------------------------------------------------------------ *)
(** ** Comparison *)

Definition feqb (a b : Z) : bool := SFeqb (unpack a) (unpack b).
Definition fltb (a b : Z) : bool := SFltb (unpack a) (unpack b).
Definition fleb (a b : Z) : bool := SFleb (unpack a) (unpack b).

(* ------------------------------------------------------------------ *)
(** ** Arithmetic *)

(** The NaN an operation on two operands produces: the language leaves its sign
    and payload open. *)
Class Fpu : Type := {
  nan_of : Z -> Z -> Z;
  nan_of_nan : forall a b, is_u64 (nan_of a b) /\ IsNaN (nan_of a b) = true }.

(** [math.NaN()], and a processor that always produces it. *)
Definition canonicalNaN : Z := 0x7FF8000000000001.

Lemma canonicalNaN_nan : is_u64 canonicalNaN /\ IsNaN canonicalNaN = true.
Proof. unfold is_u64. split; [|reflexivity]. unfold canonicalNaN. lia. Qed.

Definition quiet_fpu : Fpu := {| nan_of _ _ := canonicalNaN; nan_of_nan _ _ := canonicalNaN_nan |}.

Section Arithmetic.
Context {F : Fpu}.

Definition fop (op : spec_float -> spec_float -> spec_float) (a b : Z) : Z :=
  pack (nan_of a b) (op (unpack a) (unpack b)).

Definition fadd : Z -> Z -> Z := fop (SFadd 53 1024).
Definition fsub : Z -> Z -> Z := fop (SFsub 53 1024).
Definition fmul : Z -> Z -> Z := fop (SFmul 53 1024).
Definition fdiv : Z -> Z -> Z := fop (SFdiv 53 1024).

(** [math.Mod]: the exact remainder, with the sign of the dividend. *)
Definition SFmod (x y : spec_float) : spec_float :=
  match x, y with
  | S754_nan, _ | _, S754_nan => S754_nan
  | S754_infinity _, _ => S754_nan
  | _, S754_zero _ => S754_nan
  | _, S754_infinity _ => x
  | S754_zero _, _ => x
  | S754_finite sx mx ex, S754_finite _ my ey =>
      let e := Z.min ex ey in
      let r := (Z.pos mx * 2 ^ (ex - e)) mod (Z.pos my * 2 ^ (ey - e)) in
      binary_normalize 53 1024 (cond_Zopp sx r) e sx
  end.

Definition Mod : Z -> Z -> Z := fop SFmod.

End Arithmetic.

(** Unary minus flips the sign bit. *)
Definition fneg (b : Z) : Z := (b + signBit) mod 2 ^ 64.

(** [float64(z)] for an [int64]: round to nearest, ties to even. *)
Definition of_int (z : Z) : Z := pack 0 (binary_normalize 53 1024 z 0 false).

(** [math.Floor]. *)
Definition Floor (b : Z) : Z :=
  match unpack b with
  | S754_finite s m e =>
      if 0 <=? e then b
      else pack 0 (binary_normalize 53 1024 (cond_Zopp s (Z.pos m) / 2 ^ (- e)) 0 false)
  | _ => b
  end.

(** [int64(f)] for an [f] in range: truncation towards zero. *)
Definition to_int (b : Z) : Z :=
  match unpack b with
  | S754_finite s m e =>
      cond_Zopp s (if 0 <=? e then Z.pos m * 2 ^ e else Z.pos m / 2 ^ (- e))
  | _ => 0
  end.

Example unpack_one : unpack 0x3FF0000000000000 = S754_finite false 4503599627370496 (-52).
Proof. reflexivity. Qed.
Example add_tenths `{Fpu} : fadd 0x3FB999999999999A 0x3FC999999999999A = 0x3FD3333333333334.
Proof. reflexivity. Qed.
Example mod_of_halves `{Fpu} : Mod (of_int (-7)) 0x4004000000000000 = of_int (-2).
Proof. vm_compute. reflexivity. Qed.
Example floor_minus_half : Floor 0xBFE0000000000000 = of_int (-1).
Proof. vm_compute. reflexivity. Qed.
Example of_int_rounds : of_int (2 ^ 53 + 1) = of_int (2 ^ 53).
Proof. vm_compute. reflexivity. Qed.

(* ------------------------------------------------------------------ *)
(** ** Fields of a pattern *)

Lemma magnitude_range b : 0 <= magnitude b < 2 ^ 63.
Proof. apply Z.mod_pos_bound. reflexivity. Qed.

Lemma fraction_range b : 0 <= fraction b < 2 ^ 52.
Proof. apply Z.mod_pos_bound. reflexivity. Qed.

Lemma magnitude_fields b : magnitude b = expField b * 2 ^ 52 + fraction b.
Proof. unfold expField, fraction. rewrite (Z.div_mod (magnitude b) (2 ^ 52)) at 1 by lia. lia. Qed.

Lemma expField_range b : 0 <= expField b < 2048.
Proof.
  pose proof (magnitude_range b). unfold expField.
  split; [apply Z.div_pos; lia | apply Z.div_lt_upper_bound; lia].
Qed.

Lemma sign_magnitude b : is_u64 b -> b = with_sign (Signbit b) (magnitude b).
Proof.
  unfold is_u64, Signbit, magnitude, with_sign, signBit. intros Hb.
  destruct (Z.leb_spec (2 ^ 63) b).
  - rewrite <- (Z.mod_unique b (2 ^ 63) 1 (b - 2 ^ 63)) by lia. lia.
  - by rewrite Z.mod_small by lia.
Qed.

Lemma with_sign_fields s m :
  0 <= m < 2 ^ 63 -> Signbit (with_sign s m) = s /\ magnitude (with_sign s m) = m.
Proof.
  intros Hm. unfold Signbit, magnitude, with_sign, signBit. destruct s; split.
  - apply Z.leb_le. lia.
  - rewrite Z.add_mod, Z.mod_same, Z.add_0_l, Z.mod_mod by lia. by apply Z.mod_small.
  - apply Z.leb_gt. lia.
  - by apply Z.mod_small.
Qed.

Lemma finite_expField b : is_finite b = true -> expField b <= 2046.
Proof.
  unfold is_finite. intros H%Z.ltb_lt. pose proof (magnitude_fields b).
  pose proof (fraction_range b). lia.
Qed.

(** A pattern is a NaN, an infinity or a finite number. *)
Lemma classes b :
  (IsNaN b = true /\ IsInf b = false /\ is_finite b = false) \/
  (IsNaN b = false /\ IsInf b = true /\ is_finite b = false) \/
  (IsNaN b = false /\ IsInf b = false /\ is_finite b = true).
Proof.
  unfold IsNaN, IsInf, is_finite.
  destruct (Z.lt_total 0x7FF0000000000000 (magnitude b)) as [?|[?|?]];
    [left|right; left|right; right]; repeat split;
    (apply Z.ltb_lt || apply Z.ltb_ge || apply Z.eqb_eq || apply Z.eqb_neq); lia.
Qed.

Lemma significand_range b : 0 <= significand b < 2 ^ 53.
Proof. pose proof (fraction_range b). unfold significand. bcases; lia. Qed.

(** The canonical form: a full significand, or the least exponent. *)
Lemma canonical b :
  is_finite b = true ->
  (2 ^ 52 <= significand b /\ -1074 <= exponent b <= 971) \/ exponent b = -1074.
Proof.
  intros Hf%finite_expField. pose proof (fraction_range b). pose proof (expField_range b).
  unfold significand, exponent. bcases; lia.
Qed.

Lemma pack_u64 nan f : is_u64 nan -> is_u64 (pack nan f).
Proof. intros Hn. destruct f as [[]|[]| |s m e]; simpl; [done..|apply u64_range]. Qed.

(* ------------------------------------------------------------------ *)
(** ** Exact order *)

(** The place of a number on the extended line, in units of [2 ^ -1074]; the infinities
    lie beyond every finite number. *)
Definition infRank : Z := 2 ^ 2200.

Definition frank (b : Z) : Z :=
  if IsInf b then (if Signbit b then - infRank else infRank) else scaled b.

Lemma scaled_magnitude_bound b :
  is_finite b = true -> 0 <= significand b * 2 ^ (exponent b + 1074) < infRank.
Proof.
  intros Hf. pose proof (significand_range b) as Hs.
  assert (He : 0 <= exponent b + 1074 <= 2045).
  { destruct (canonical b Hf) as [[_ ?]| ->]; lia. }
  assert (2 ^ (exponent b + 1074) <= 2 ^ 2045) by (apply Z.pow_le_mono_r; lia).
  assert (0 < 2 ^ (exponent b + 1074)) by (apply Z.pow_pos_nonneg; lia).
  change infRank with (2 ^ 53 * 2 ^ 2147). assert (2 ^ 2045 <= 2 ^ 2147) by by apply Z.leb_le.
  generalize dependent (2 ^ 2045). generalize (2 ^ 2147). generalize dependent (2 ^ 53). intros. nia.
Qed.

(** Comparing exponents first and significands second compares the values. *)
Lemma magnitudes_compare a b :
  is_finite a = true -> is_finite b = true -> significand a <> 0 -> significand b <> 0 ->
  (significand a * 2 ^ (exponent a + 1074) ?= significand b * 2 ^ (exponent b + 1074)) =
  match exponent a ?= exponent b with
  | Lt => Lt
  | Gt => Gt
  | Eq => significand a ?= significand b
  end.
Proof.
  intros Ha Hb Hza Hzb.
  assert (lt : forall x y, is_finite x = true -> is_finite y = true ->
    exponent x < exponent y -> significand y <> 0 ->
    significand x * 2 ^ (exponent x + 1074) < significand y * 2 ^ (exponent y + 1074)).
  { intros x y Hx Hy He Hz. pose proof (significand_range x).
    destruct (canonical y Hy) as [[Hm _]|Hm]; cycle 1.
    { destruct (canonical x Hx) as [[_ ?]|?]; lia. }
    assert (Hx' : 0 <= exponent x + 1074) by (destruct (canonical x Hx) as [[_ ?]|?]; lia).
    replace (exponent y + 1074) with ((exponent x + 1074) + (1 + (exponent y - exponent x - 1))) by lia.
    set (k := exponent x + 1074) in *. set (d := exponent y - exponent x - 1).
    rewrite !Z.pow_add_r by lia.
    assert (1 <= 2 ^ d) by (apply (Z.pow_le_mono_r 2 0); lia).
    assert (0 < 2 ^ k) by (apply Z.pow_pos_nonneg; lia).
    apply Z.lt_le_trans with (2 ^ 53 * 2 ^ k); [apply Z.mul_lt_mono_pos_r; lia|].
    replace (significand y * (2 ^ k * (2 ^ 1 * 2 ^ d)))
      with ((2 * significand y * 2 ^ d) * 2 ^ k) by lia.
    apply Z.mul_le_mono_nonneg_r; [lia|].
    change (2 ^ 53) with (2 * 2 ^ 52 * 1). apply Z.mul_le_mono_nonneg; lia. }
  destruct (Z.compare_spec (exponent a) (exponent b)) as [He|He|He].
  - rewrite He, <- Zmult_compare_compat_r; [done|].
    apply Z.lt_gt, Z.pow_pos_nonneg; [lia|].
    destruct (canonical b Hb) as [[_ ?]|?]; lia.
  - apply Z.compare_lt_iff. by apply lt.
  - apply Z.compare_gt_iff. by apply lt.
Qed.

Lemma unpack_finite b :
  is_finite b = true ->
  unpack b = match significand b with
             | Zpos m => S754_finite (Signbit b) m (exponent b)
             | _ => S754_zero (Signbit b)
             end.
Proof.
  intros Hf. unfold unpack.
  destruct (classes b) as [(_ & _ & ?)|[(_ & _ & ?)|(-> & -> & _)]]; congruence.
Qed.

Lemma unpack_inf b : IsInf b = true -> unpack b = S754_infinity (Signbit b).
Proof.
  intros Hf. unfold unpack.
  destruct (classes b) as [(_ & ? & _)|[(-> & -> & _)|(_ & ? & _)]]; congruence.
Qed.

Lemma unpack_nan b : IsNaN b = true -> unpack b = S754_nan.
Proof. intros Hn. unfold unpack. by rewrite Hn. Qed.

Lemma frank_finite b : is_finite b = true -> frank b = scaled b.
Proof.
  intros Hf. unfold frank.
  destruct (classes b) as [(_ & _ & ?)|[(_ & _ & ?)|(_ & -> & _)]]; congruence.
Qed.

Lemma infRank_big : 2 ^ 63 * 2 ^ 1074 < infRank.
Proof. by apply Z.ltb_lt. Qed.

#[global] Opaque infRank.

Lemma SFcompare_frank a b :
  IsNaN a = false -> IsNaN b = false ->
  SFcompare (unpack a) (unpack b) = Some (frank a ?= frank b).
Proof.
  assert (gt : forall x, - infRank < x < infRank ->
    (x ?= infRank) = Lt /\ (x ?= - infRank) = Gt /\
    (infRank ?= x) = Gt /\ (- infRank ?= x) = Lt).
  { intros x Hx. rewrite !Z.compare_lt_iff, !Z.compare_gt_iff. lia. }
  assert (fin : forall x, is_finite x = true -> - infRank < scaled x < infRank).
  { intros x Hx. pose proof (scaled_magnitude_bound x Hx). unfold scaled. destruct (Signbit x); lia. }
  intros Ha Hb.
  destruct (classes a) as [(? & _)|[(_ & Ia & _)|(_ & Ia & Fa)]]; [congruence|..];
  destruct (classes b) as [(? & _)|[(_ & Ib & _)|(_ & Ib & Fb)]]; try congruence.
  - rewrite !unpack_inf by done. unfold frank. rewrite Ia, Ib.
    by destruct (Signbit a), (Signbit b).
  - rewrite unpack_inf, unpack_finite, (frank_finite b) by done. unfold frank. rewrite Ia.
    destruct (gt _ (fin b Fb)) as (_ & _ & Hg & Hl).
    by destruct (significand b), (Signbit a); cbn [SFcompare]; rewrite ?Hg, ?Hl.
  - rewrite unpack_finite, unpack_inf, (frank_finite a) by done. unfold frank. rewrite Ib.
    destruct (gt _ (fin a Fa)) as (Hg & Hl & _).
    by destruct (significand a), (Signbit b); cbn [SFcompare]; rewrite ?Hg, ?Hl.
  - rewrite !frank_finite, !unpack_finite by done. unfold scaled.
    pose proof (significand_range a). pose proof (significand_range b).
    pose proof (magnitudes_compare a b Fa Fb) as Hm.
    assert (0 < 2 ^ (exponent a + 1074)) by
      (apply Z.pow_pos_nonneg; destruct (canonical a Fa) as [[_ ?]|?]; lia).
    assert (0 < 2 ^ (exponent b + 1074)) by
      (apply Z.pow_pos_nonneg; destruct (canonical b Fb) as [[_ ?]|?]; lia).
    destruct (significand a) as [|m|m] eqn:Ea; [| |lia];
    destruct (significand b) as [|n|n] eqn:Eb; try lia; cbn [SFcompare]; f_equal.
    + symmetry. apply Z.compare_eq_iff. lia.
    + symmetry. destruct (Signbit b); [apply Z.compare_gt_iff|apply Z.compare_lt_iff]; lia.
    + symmetry. destruct (Signbit a); [apply Z.compare_lt_iff|apply Z.compare_gt_iff]; lia.
    + specialize (Hm ltac:(done) ltac:(done)).
      destruct (Signbit a), (Signbit b).
      * change (-1) with (- (1)). rewrite !Z.mul_opp_l, !Z.mul_1_l, Z.compare_opp.
        rewrite (Z.compare_antisym (Z.pos m * _)), Hm.
        by destruct (exponent a ?= exponent b).
      * symmetry. apply Z.compare_lt_iff. lia.
      * symmetry. apply Z.compare_gt_iff. lia.
      * by rewrite !Z.mul_1_l, Hm.
Qed.

(* ------------------------------------------------------------------ *)
(** ** Small integers are exact *)

Lemma digits2_pos_spec m :
  2 ^ (Z.pos (digits2_pos m) - 1) <= Z.pos m < 2 ^ Z.pos (digits2_pos m).
Proof.
  induction m as [m IH|m IH|]; cbn [digits2_pos]; [..|done];
  rewrite Pos2Z.inj_succ; replace (Z.succ _ - 1) with (Z.succ (Z.pos (digits2_pos m) - 1)) by lia;
  rewrite !Z.pow_succ_r by lia; lia.
Qed.

Lemma digits2_shift m k : digits2_pos (Pos.iter xO m k) = (digits2_pos m + k)%positive.
Proof.
  induction k as [|k IH] using Pos.peano_ind; [simpl; lia|].
  rewrite Pos.iter_succ. cbn [digits2_pos]. rewrite IH. lia.
Qed.

Lemma iter_xO m k : Z.pos (Pos.iter xO m k) = Z.pos m * 2 ^ Z.pos k.
Proof.
  induction k as [|k IH] using Pos.peano_ind; [simpl; lia|].
  rewrite Pos.iter_succ, Pos2Z.inj_xO, IH, Pos2Z.inj_succ, Z.pow_succ_r by lia. lia.
Qed.

(** A significand and exponent that a pattern spells in one way. *)
Definition canonical_form (m : positive) (e : Z) : Prop :=
  (2 ^ 52 <= Z.pos m < 2 ^ 53 /\ -1074 <= e <= 971) \/ (Z.pos m < 2 ^ 52 /\ e = -1074).

Lemma pack_fields nan s m e (b := pack nan (S754_finite s m e)) :
  canonical_form m e ->
  is_u64 b /\ is_finite b = true /\ Signbit b = s /\ significand b = Z.pos m /\ exponent b = e.
Proof.
  intros Hc. subst b. cbn [pack]. set (mag := if _ <? _ then _ else _).
  assert (Hmag : 0 <= mag < 2047 * 2 ^ 52 /\
    mag / 2 ^ 52 = (if Z.pos m <? 2 ^ 52 then 0 else e + 1075) /\
    mag mod 2 ^ 52 = (if Z.pos m <? 2 ^ 52 then Z.pos m else Z.pos m - 2 ^ 52)).
  { subst mag. destruct (Z.ltb_spec (Z.pos m) (2 ^ 52)).
    - rewrite Z.div_small, Z.mod_small by lia. lia.
    - destruct Hc as [[? ?]|[? _]]; [|lia].
      rewrite (Z.add_comm (_ * _)), Z.div_add, Z.mod_add, Z.div_small, Z.mod_small by lia. lia. }
  destruct Hmag as (Hr & Hd & Hf).
  destruct (with_sign_fields s mag ltac:(lia)) as [Hs Hm].
  assert (Hu : is_u64 (with_sign s mag)) by (unfold is_u64, with_sign, signBit; destruct s; lia).
  rewrite u64_id by done.
  unfold is_finite, significand, exponent, expField, fraction. rewrite Hs, Hm, Hd, Hf.
  split_and!; [done|apply Z.ltb_lt; lia|done|..];
  destruct (Z.ltb_spec (Z.pos m) (2 ^ 52)), Hc as [[? ?]|[? ?]]; try lia; bcases; lia.
Qed.

Lemma unpack_pack nan s m e :
  canonical_form m e -> unpack (pack nan (S754_finite s m e)) = S754_finite s m e.
Proof.
  intros (_ & Hf & Hs & Hm & He)%(pack_fields nan s).
  by rewrite unpack_finite, Hs, Hm, He.
Qed.

Lemma small_integer_form m s :
  Z.pos m < 2 ^ 53 ->
  exists m' e', binary_round 53 1024 s m 0 = S754_finite s m' e' /\ canonical_form m' e' /\
    -52 <= e' <= 0 /\ Z.pos m' = Z.pos m * 2 ^ (- e').
Proof.
  intros Hm. pose proof (digits2_pos_spec m) as Hd.
  assert (Hd53 : Z.pos (digits2_pos m) <= 53).
  { apply Z.nlt_ge. intros Hlt.
    assert (2 ^ 53 <= 2 ^ (Z.pos (digits2_pos m) - 1)) by (apply Z.pow_le_mono_r; lia). lia. }
  unfold binary_round. rewrite Z.add_0_r.
  assert (Hfexp : fexp 53 1024 (Z.pos (digits2_pos m)) = Z.pos (digits2_pos m) - 53).
  { unfold fexp, emin. lia. }
  rewrite Hfexp. set (d := digits2_pos m) in *.
  assert (Halign : exists m', shl_align m 0 (Z.pos d - 53) = (m', Z.pos d - 53) /\
     Z.pos m' = Z.pos m * 2 ^ (53 - Z.pos d) /\ Z.pos (digits2_pos m') = 53).
  { unfold shl_align. rewrite Z.sub_0_r. destruct (Z.pos d - 53) as [|p|p] eqn:Ep; [|lia|].
    - exists m. replace (53 - Z.pos d) with 0 by lia. split_and!; [done|lia|subst d; lia].
    - exists (Pos.iter xO m p). rewrite iter_xO, digits2_shift. fold d.
      split_and!; [done| |lia]. do 2 f_equal. lia. }
  destruct Halign as (m' & -> & Hm' & Hd'). pose proof (digits2_pos_spec m') as Hs. rewrite Hd' in Hs.
  exists m', (Z.pos d - 53).
  assert (Hshr : shr_fexp 53 1024 (Z.pos m') (Z.pos d - 53) loc_Exact =
    (Build_shr_record (Z.pos m') false false, Z.pos d - 53)).
  { unfold shr_fexp, fexp, emin, Zdigits2. rewrite Hd'. unfold shr.
    by replace (Z.max _ _ - _) with 0 by lia. }
  split_and!.
  - unfold binary_round_aux. rewrite Hshr. cbn -[shr_fexp Z.leb Z.sub]. rewrite Hshr.
    cbn -[Z.leb Z.sub]. rewrite (proj2 (Z.leb_le _ _)) by lia. done.
  - left. split; [|lia]. change (53 - 1) with 52 in Hs. lia.
  - lia.
  - lia.
  - rewrite Hm'. do 2 f_equal. lia.
Qed.

(** The pattern of a small integer spells exactly that integer. *)
Lemma small_integer_exact z (b := pack 0 (binary_normalize 53 1024 z 0 false)) :
  Z.abs z < 2 ^ 53 ->
  is_u64 b /\ is_finite b = true /\ scaled b = z * 2 ^ 1074 /\ to_int b = z.
Proof.
  intros Hz. subst b.
  assert (H : forall s m, Z.pos m < 2 ^ 53 ->
    let b := pack 0 (binary_round 53 1024 s m 0) in
    is_u64 b /\ is_finite b = true /\ scaled b = cond_Zopp s (Z.pos m) * 2 ^ 1074 /\
    to_int b = cond_Zopp s (Z.pos m)).
  { intros s m Hm. destruct (small_integer_form m s Hm) as (m' & e' & -> & Hc & He & Hv).
    destruct (pack_fields 0 s m' e' Hc) as (Hu & Hf & Hs & Hg & Hx).
    assert (Hpow : Z.pos m' * 2 ^ (e' + 1074) = Z.pos m * 2 ^ 1074).
    { rewrite Hv, <- Z.mul_assoc, <- Z.pow_add_r by lia. do 2 f_equal. lia. }
    split_and!; [done|done|..].
    - unfold scaled. rewrite Hs, Hg, Hx, Hpow. destruct s; unfold cond_Zopp; lia.
    - unfold to_int. rewrite unpack_pack by done. f_equal. destruct (Z.leb_spec 0 e').
      + rewrite Hv. replace e' with 0 by lia. simpl. lia.
      + rewrite Hv, Z.div_mul; [done|]. apply Z.pow_nonzero; lia. }
  destruct z as [|p|p]; [done|apply (H false)|apply (H true)]; lia.
Qed.

Lemma exponent_range b : is_finite b = true -> -1074 <= exponent b <= 971.
Proof. intros Hf. destruct (canonical b Hf) as [[_ ?]|?]; lia. Qed.

(** [Floor] is the integer part, as a number and as an [int64]. *)
Lemma Floor_spec b (fl := scaled b / 2 ^ 1074) :
  is_u64 b -> is_finite b = true ->
  is_u64 (Floor b) /\ is_finite (Floor b) = true /\ scaled (Floor b) = fl * 2 ^ 1074 /\
  to_int (Floor b) = fl.
Proof.
  intros Hu Hf. subst fl. pose proof (exponent_range b Hf) as He.
  pose proof (significand_range b) as Hsig.
  unfold Floor. rewrite unpack_finite by done.
  destruct (significand b) as [|m|m] eqn:Em; [| |lia].
  { unfold to_int. rewrite unpack_finite, Em by done.
    assert (scaled b = 0) as -> by (unfold scaled; rewrite Em; lia). done. }
  assert (Hsc : scaled b = cond_Zopp (Signbit b) (Z.pos m) * 2 ^ (exponent b + 1074)).
  { unfold scaled. rewrite Em. unfold cond_Zopp. destruct (Signbit b); lia. }
  destruct (Z.leb_spec 0 (exponent b)) as [H0|H0].
  - rewrite Z.pow_add_r, Z.mul_assoc in Hsc by lia.
    rewrite Hsc, Z.div_mul by (apply Z.pow_nonzero; lia).
    split_and!; [done..|]. unfold to_int. rewrite unpack_finite, Em, (proj2 (Z.leb_le _ _) H0) by done.
    unfold cond_Zopp. destruct (Signbit b); lia.
  - assert (Hfl : scaled b / 2 ^ 1074 = cond_Zopp (Signbit b) (Z.pos m) / 2 ^ (- exponent b)).
    { rewrite Hsc. replace 1074 with ((exponent b + 1074) + - exponent b) at 2 by lia.
      rewrite (Z.pow_add_r 2 (exponent b + 1074)), (Z.mul_comm (cond_Zopp _ _)) by lia.
      apply Z.div_mul_cancel_l; apply Z.pow_nonzero; lia. }
    rewrite Hfl.
    apply small_integer_exact.
    assert (2 ^ 1 <= 2 ^ (- exponent b)) by (apply Z.pow_le_mono_r; lia).
    set (q := 2 ^ (- exponent b)) in *.
    assert (- 2 ^ 52 <= cond_Zopp (Signbit b) (Z.pos m) / q) by
      (apply Z.div_le_lower_bound; [lia|]; destruct (Signbit b); unfold cond_Zopp; nia).
    assert (cond_Zopp (Signbit b) (Z.pos m) / q < 2 ^ 53) by
      (apply Z.div_lt_upper_bound; [lia|]; destruct (Signbit b); unfold cond_Zopp; nia).
    lia.
Qed.

(* ------------------------------------------------------------------ *)
(** ** Patterns and values *)

Lemma magnitude_of_parts b :
  magnitude b = (exponent b + 1074) * 2 ^ 52 + significand b.
Proof.
  rewrite magnitude_fields. unfold exponent, significand. pose proof (fraction_range b). bcases; lia.
Qed.

Lemma unpack_no_nan b : IsNaN b = false -> unpack b <> S754_nan.
Proof. intros Hn. unfold unpack. rewrite Hn. bcases; [done|]. by destruct (significand b). Qed.

(** Two numbers with one sign and one value are one pattern. *)
Lemma frank_inj a b :
  is_u64 a -> is_u64 b -> IsNaN a = false -> IsNaN b = false ->
  Signbit a = Signbit b -> frank a = frank b -> a = b.
Proof.
  intros Ua Ub Na Nb Hs Hf. rewrite (sign_magnitude a), (sign_magnitude b), Hs by done. f_equal.
  pose proof (SFcompare_frank a b Na Nb) as Hc. rewrite Hf, Z.compare_refl in Hc.
  destruct (classes a) as [(? & _)|[(_ & Ia & _)|(_ & Ia & Fa)]]; [congruence|..];
  destruct (classes b) as [(? & _)|[(_ & Ib & _)|(_ & Ib & Fb)]]; try congruence.
  - unfold IsInf in *. breflect. congruence.
  - rewrite unpack_inf, unpack_finite in Hc by done.
    by destruct (significand b), (Signbit a).
  - rewrite unpack_finite, unpack_inf in Hc by done.
    by destruct (significand a), (Signbit b).
  - rewrite !magnitude_of_parts. pose proof (magnitudes_compare a b Fa Fb) as Hm.
    rewrite !frank_finite in Hf by done. unfold scaled in Hf. rewrite Hs in Hf.
    assert (He : significand a * 2 ^ (exponent a + 1074) = significand b * 2 ^ (exponent b + 1074))
      by (destruct (Signbit b); lia). clear Hf Hc.
    pose proof (significand_range a). pose proof (significand_range b).
    pose proof (exponent_range a Fa). pose proof (exponent_range b Fb).
    assert (0 < 2 ^ (exponent a + 1074)) by (apply Z.pow_pos_nonneg; lia).
    assert (0 < 2 ^ (exponent b + 1074)) by (apply Z.pow_pos_nonneg; lia).
    rewrite He, Z.compare_refl in Hm.
    destruct (Z.eq_dec (significand a) 0) as [Za|Za].
    + assert (significand b = 0) as Zb by nia.
      destruct (canonical a Fa) as [?|Ea], (canonical b Fb) as [?|Eb]; lia.
    + assert (significand b <> 0) as Zb by nia. specialize (Hm Za Zb).
      destruct (Z.compare_spec (exponent a) (exponent b)) as [->|?|?]; try done.
      symmetry in Hm. apply Z.compare_eq_iff in Hm. lia.
Qed.
