(* ===== verification/Parser.v ===== *)
(** * The parser: [src/parser]

    A Pratt parser over the lexer of [Lexer.v], in a state monad.  A Go [for]
    is a [loop], whose body says whether to go round again; the recursion that
    reaches an expression or a block inside another is the recursion of two
    functions on the number of levels the parser will still open
    ([maxNestingDepth]).  A loop is given a turn for every byte of the source
    and a few more, and [ParserFacts.v] shows that neither ever runs out.

    A node is a pointer the parser allocates; nodes the tree keeps only the
    name of (parameters, fields, match arms) are allocated and located all the
    same.  The wording of a diagnostic is not modelled: a message is a value that
    says which one it is and what it is about. *)

From stdpp Require Import base list list_numbers numbers gmap sets strings pretty.
From Stdlib Require Import ZArith Lia SpecFloat.
From S2P Require Import Prelude Text Lexer Paths Module Float64 Ast.

(* ------------------------------------------------------------------ *)
(** ** Precedences *)

Definition LOWEST : Z := 1.
Definition ASSIGNMENT : Z := 2.
Definition LOGIC_OR : Z := 3.
Definition LOGIC_AND : Z := 4.
Definition EQUALS : Z := 5.
Definition LESSGREATER : Z := 6.
Definition SUM : Z := 7.
Definition PRODUCT : Z := 8.
Definition PREFIX : Z := 9.
Definition CALL : Z := 10.
Definition INDEX : Z := 11.
Definition FIELD : Z := 12.

(** [Precedence] and the table [precedences] it reads. *)
Definition Precedence (t : TokenType) : Z :=
  match t with
  | ASSIGN | PLUS_ASSIGN | MINUS_ASSIGN | ASTERISK_ASSIGN | SLASH_ASSIGN | MODULO_ASSIGN
  | AND_ASSIGN | OR_ASSIGN | XOR_ASSIGN | SHL_ASSIGN | SHR_ASSIGN => ASSIGNMENT
  | OR => LOGIC_OR
  | AND => LOGIC_AND
  | EQUALITY | INEQUALITY => EQUALS
  | LT | GT | LTE | GTE => LESSGREATER
  | PLUS | MINUS | PIPE | CARET => SUM
  | FSLASH | ASTERISK | MODULO | SHL | SHR | AMPERSAND => PRODUCT
  | INCREMENT | DECREMENT | LPAREN | LBRACE => CALL
  | LSQUARE => INDEX
  | DOT => FIELD
  | _ => LOWEST
  end.

(* ------------------------------------------------------------------ *)
(** ** Diagnostics *)

(** What a constant hash key is compared by ([constantHashKey]). *)
Inductive hash_tag : Type :=
| TagString (s : list Z)
| TagInteger (n : Z)
| TagFloat (bits : Z)
| TagBoolean (b : bool).

#[export] Instance hash_tag_eq_dec : EqDecision hash_tag.
Proof. solve_decision. Defined.

(** The messages, in the order of the source files. *)
Inductive message : Type :=
| MissingSemicolonBetween (end_ next : list Z) (adjacent : bool)
| TooManyErrors
| TooDeep (line column : Z)
| DuplicateParameterName (name : string)
| ParameterNotName (got : TokenType)
| ExpectedNext (want got : TokenType)
| NoPrefixFn (t : TokenType)
| LexerSays (e : token_err)
| ElseIfNotIf
| ExpectedCommaOr (end_ got : TokenType)
| InvalidAssignmentTarget
| InvalidIncDecTarget
| StructLiteralField (got : TokenType)
| UnclosedBlock (line column : Z)
| ImportInBlock
| ImportPathExpected (got : TokenType)
| WhileNeedsCondition
| ForInNeedsIterable
| ForInitSemicolon (got : TokenType)
| StructField (got : TokenType)
| StructSeparator (got : TokenType)
| EnumVariant (got : TokenType)
| EnumSeparator (got : TokenType)
| NotFloat (literal : list Z)
| NotInteger (literal : list Z)
| LeadingZero (literal decimal : list Z)
| UnterminatedString (line column : Z)
| DuplicateKey (key : hash_tag)
| MatchUnclosed
| MatchSeparator (got : TokenType)
| MatchNoArms
| MinusNeedsNumber
| InterpolatedPattern
| NameNotPattern (name : list Z)
| ExpectedPattern (got : TokenType)
| EmptyHole (line column : Z)
| StatementInHole (t : TokenType) (line column : Z)
| HoleHoldsMore (text : list Z) (line column : Z)
| InsideHole (m : message)
| MissingSemicolonAtEnd
| RedundantSemicolon_.

Record ParseError : Type := PErr { Msg : message; pe_Range : Range }.

Inductive RecoverableKind : Type := MissingSemicolon | RedundantSemicolon.

Record RecoverableError : Type := Recoverable { re_Error : ParseError; Kind : RecoverableKind }.

Definition maxNestingDepth : nat := 1000.
Definition maxParseErrors : nat := 100.

(* ------------------------------------------------------------------ *)
(** ** State and the monad *)

(** [Parser]; [nextNode] is the next pointer to allocate. *)
Record Parser : Type := Prs {
  p_l : Lexer;
  curToken : Token;
  peekToken : Token;
  errors : list message;
  typedErrors : list ParseError;
  recoverables : list RecoverableError;
  nodeRanges : gmap nat Range;
  parenthesized : gset nat;
  blockDepth : nat;
  depth : nat;
  depthReported : bool;
  nextNode : nat }.

Definition with_tokens (l : Lexer) (cur peek : Token) (p : Parser) : Parser :=
  Prs l cur peek (errors p) (typedErrors p) (recoverables p) (nodeRanges p) (parenthesized p) (blockDepth p) (depth p)
    (depthReported p) (nextNode p).
Definition with_errors (e : list message) (t : list ParseError) (r : list RecoverableError) (p : Parser) : Parser :=
  Prs (p_l p) (curToken p) (peekToken p) e t r (nodeRanges p) (parenthesized p) (blockDepth p) (depth p)
    (depthReported p) (nextNode p).
Definition with_ranges (m : gmap nat Range) (s : gset nat) (n : nat) (p : Parser) : Parser :=
  Prs (p_l p) (curToken p) (peekToken p) (errors p) (typedErrors p) (recoverables p) m s (blockDepth p) (depth p)
    (depthReported p) n.
Definition with_depths (b d : nat) (reported : bool) (p : Parser) : Parser :=
  Prs (p_l p) (curToken p) (peekToken p) (errors p) (typedErrors p) (recoverables p) (nodeRanges p) (parenthesized p) b d
    reported (nextNode p).

(** [None] is a loop or a recursion cut short. *)
Definition PM (A : Type) : Type := Parser -> option (A * Parser).

#[export] Instance PM_ret : MRet PM := fun A a p => Some (a, p).
#[export] Instance PM_bind : MBind PM := fun A B k m p =>
  match m p with
  | Some (a, p) => k a p
  | None => None
  end.

Definition gets {A} (f : Parser -> A) : PM A := fun p => Some (f p, p).
Definition modify (f : Parser -> Parser) : PM unit := fun p => Some (tt, f p).
Definition cut_short {A} : PM A := fun _ => None.

(** [for { ... }]: the body goes round again with a new state, or ends. *)
Fixpoint iterate {A R} (turns : nat) (body : A -> PM (A + R)) (a : A) : PM R :=
  match turns with
  | O => cut_short
  | S turns =>
      r ← body a;
      match r with
      | inl a => iterate turns body a
      | inr r => mret r
      end
  end.

Definition turns (p : Parser) : nat := S (S (S (length (input (p_l p))))).

Definition loop {A R} (body : A -> PM (A + R)) (a : A) : PM R := fun p => iterate (turns p) body a p.

Definition again {A R} (a : A) : PM (A + R) := mret (inl a).
Definition done_ {A R} (r : R) : PM (A + R) := mret (inr r).

(* ------------------------------------------------------------------ *)
(** ** Tokens, ranges and errors *)

Section Parsing.
Context `{Unicode}.

Definition nextToken : PM unit := fun p =>
  let '(l', tok) := NextToken (p_l p) in Some (tt, with_tokens l' (peekToken p) tok p).

Definition is_type (t : TokenType) (tok : Token) : bool := bool_decide (Type_ tok = t).

Definition curTokenIs (t : TokenType) : PM bool := gets (fun p => is_type t (curToken p)).
Definition peekTokenIs (t : TokenType) : PM bool := gets (fun p => is_type t (peekToken p)).
Definition curType : PM TokenType := gets (fun p => Type_ (curToken p)).
Definition peekType : PM TokenType := gets (fun p => Type_ (peekToken p)).

Definition peekPrecedence : PM Z := gets (fun p => Precedence (Type_ (peekToken p))).
Definition curPrecedence : PM Z := gets (fun p => Precedence (Type_ (curToken p))).

(** The token type, or nothing when it is not among those. *)
Definition among (stop : list TokenType) (t : TokenType) : bool := bool_decide (t ∈ stop).

Definition synchronizeToStatementBoundary : PM unit :=
  loop (fun _ =>
    t ← curType;
    if among [EOF; SEMICOLON; RBRACE] t then done_ tt else nextToken;; again tt) tt.

Definition synchronizeToTokenTypes (stop : list TokenType) : PM TokenType :=
  loop (fun _ =>
    t ← curType;
    if bool_decide (t = EOF) then done_ EOF
    else if among stop t then done_ t
    else nextToken;; again tt) tt.

Definition startMark : PM Position := gets (fun p => Start (curToken p)).

(** [&T{...}]. *)
Definition alloc : PM nat := fun p =>
  Some (nextNode p, with_ranges (nodeRanges p) (parenthesized p) (S (nextNode p)) p).

Definition recordRange (n : nat) (start : Position) : PM unit :=
  modify (fun p => with_ranges (<[n := Rng_ start (End_ (curToken p))]> (nodeRanges p)) (parenthesized p) (nextNode p) p).

(** A node that is located as soon as it is made. *)
Definition located (start : Position) : PM nat := n ← alloc; recordRange n start;; mret n.

Definition markParenthesized (e : expr) : PM unit :=
  match e with
  | Missing => mret tt
  | Expr n _ => modify (fun p => with_ranges (nodeRanges p) ({[n]} ∪ parenthesized p) (nextNode p) p)
  end.

(** Where an infix form starts: at its left operand when that one is located. *)
Definition start_of (left : expr) : PM Position :=
  gets (fun p => match left with
                 | Missing => Start (curToken p)
                 | Expr n _ => match nodeRanges p !! n with
                               | Some r => r_Start r
                               | None => Start (curToken p)
                               end
                 end).

Definition appendError (tok : Token) (msg : message) : PM unit :=
  modify (fun p =>
    if (maxParseErrors <=? length (errors p))%nat then
      if (length (errors p) =? maxParseErrors)%nat
      then with_errors (errors p ++ [TooManyErrors]) (typedErrors p) (recoverables p) p else p
    else with_errors (errors p ++ [msg]) (typedErrors p ++ [PErr msg (Rng_ (Start tok) (End_ tok))]) (recoverables p) p).

(** Errors at the current token and at the next one. *)
Definition errorHere (msg : message) : PM unit := tok ← gets curToken; appendError tok msg.
Definition errorAhead (msg : message) : PM unit := tok ← gets peekToken; appendError tok msg.

Definition illegalDetail (tok : Token) : option token_err := if is_type ILLEGAL tok then Err tok else None.

(** The lexer's account of the token replaces the parser's. *)
Definition or_detail (tok : Token) (msg : message) : message :=
  match illegalDetail tok with
  | Some e => LexerSays e
  | None => msg
  end.

Definition peekError (t : TokenType) : PM unit :=
  tok ← gets peekToken; appendError tok (or_detail tok (ExpectedNext t (Type_ tok))).

Definition expectPeek (t : TokenType) : PM bool :=
  ok ← peekTokenIs t;
  if (ok : bool) then nextToken;; mret true else peekError t;; mret false.

Definition notPrefixParseFnError (t : TokenType) : PM unit :=
  tok ← gets curToken; appendError tok (or_detail tok (NoPrefixFn t)).

Definition recordRecoverable (e : RecoverableError) : PM unit :=
  modify (fun p => with_errors (errors p) (typedErrors p) (recoverables p ++ [e]) p).

Definition recordMissingSemicolon (tok : Token) : PM unit :=
  recordRecoverable (Recoverable (PErr MissingSemicolonAtEnd (Rng_ (End_ tok) (End_ tok))) MissingSemicolon).

Definition recordRedundantSemicolon (tok : Token) : PM unit :=
  recordRecoverable (Recoverable (PErr RedundantSemicolon_ (Rng_ (Start tok) (End_ tok))) RedundantSemicolon).

Definition refuseMissingSemicolon (end_ next : Token) : PM unit :=
  appendError next (MissingSemicolonBetween (Literal end_) (Literal next) (bool_decide (Start next = End_ end_))).

Definition statementFollowsOnSameLine : PM bool :=
  gets (fun p =>
    if among [EOF; RBRACE] (Type_ (peekToken p)) then false
    else Line (Start (peekToken p)) =? Line (End_ (curToken p))).

(** [Statement.RequiresSemicolon]. *)
Definition RequiresSemicolon (s : stmt) : bool :=
  match s with
  | ExpressionStatement Missing
  | ExpressionStatement (Expr _ (IfExpression _ _ _))
  | ExpressionStatement (Expr _ (MatchExpression _ _)) => false
  | ExpressionStatement _ | LetStatement _ _ | ReturnStatement _ | BreakStatement | ContinueStatement
  | ImportStatement _ _ => true
  | BlockStatement _ | ForStatement _ _ _ _ | ForInStatement _ _ _ _ | WhileStatement _ _ | StructStatement _ _
  | EnumStatement _ _ => false
  end.

Definition consumeStatementTerminator (s : stmt) : PM unit :=
  semicolon ← peekTokenIs SEMICOLON;
  if (semicolon : bool) then nextToken
  else if negb (RequiresSemicolon s) then mret tt
  else
    cur ← gets curToken;
    follows ← statementFollowsOnSameLine;
    if (follows : bool) then next ← gets peekToken; refuseMissingSemicolon cur next
    else recordMissingSemicolon cur.

Definition enterNesting : PM bool :=
  d ← gets depth;
  if (maxNestingDepth <=? d)%nat then
    reported ← gets depthReported;
    (if (reported : bool) then mret tt
     else
       modify (fun p => with_depths (blockDepth p) (depth p) true p);;
       start ← startMark;
       errorHere (TooDeep (Line start) (Column start)));;
    mret false
  else modify (fun p => with_depths (blockDepth p) (S (depth p)) (depthReported p) p);; mret true.

Definition leaveNesting : PM unit :=
  modify (fun p => with_depths (blockDepth p) (depth p - 1) (depthReported p) p).

(** The name a token spells. *)
Definition nameOf (tok : Token) : string := of_bytes (Literal tok).

(** An identifier that only gives a name: it is allocated and located. *)
Definition identifierHere : PM string :=
  start ← startMark; tok ← gets curToken; _ ← located start; mret (nameOf tok).

(* ------------------------------------------------------------------ *)
(** ** Literals *)

(** [strconv.ParseInt(text, 10, 64)] of a text without a sign. *)
Fixpoint digits_value (acc : Z) (text : list Z) : option Z :=
  match text with
  | [] => Some acc
  | c :: text => if (48 <=? c) && (c <=? 57) then digits_value (acc * 10 + (c - 48)) text else None
  end.

Definition ParseInt (text : list Z) : option Z :=
  match text, digits_value 0 text with
  | _ :: _, Some n => if n <? 2 ^ 63 then Some n else None
  | _, _ => None
  end.

(** [strconv.ParseFloat(text, 64)] of digits and points: the nearest double, ties
    to even, and whether there is an error (a syntax error gives 0, a number out
    of range infinity). *)
Definition nearest (n : positive) (d : positive) : spec_float :=
  let '(m, e, loc) := SFdiv_core_binary 53 1024 (Z.pos n) 0 (Z.pos d) 0 in
  binary_round_aux 53 1024 false m e loc.

Definition ParseFloat (text : list Z) : Z * bool :=
  let '(whole, fraction) :=
    match IndexByte text cDot with
    | Some i => (take i text, drop (S i) text)
    | None => (text, [])
    end in
  match whole ++ fraction, digits_value 0 (whole ++ fraction) with
  | _ :: _, Some (Z.pos n) =>
      let bits := pack 0 (nearest n (Z.to_pos (10 ^ zlen fraction))) in (bits, negb (is_finite bits))
  | _ :: _, Some _ => (0, false)
  | _, _ => (0, true)
  end.

(** [strings.TrimLeft(text, "0")]. *)
Fixpoint trim_zeros (text : list Z) : list Z :=
  match text with
  | c :: rest => if c =? cZero then trim_zeros rest else text
  | [] => []
  end.

Definition literal (start : Position) (e : expression) : PM expr := n ← located start; mret (Expr n e).

Definition parseIdentifier : PM expr :=
  start ← startMark; tok ← gets curToken; literal start (Identifier (nameOf tok)).

Definition parseBoolean : PM expr :=
  start ← startMark; b ← curTokenIs TRUE; literal start (BooleanLiteral b).

Definition parseFloatLiteral : PM expr :=
  start ← startMark;
  tok ← gets curToken;
  let '(value, err) := ParseFloat (Literal tok) in
  (if err : bool then appendError tok (NotFloat (Literal tok)) else mret tt);;
  literal start (FloatLiteral value).

Definition parseIntegerLiteral : PM expr :=
  start ← startMark;
  tok ← gets curToken;
  let text := Literal tok in
  if (1 <? length text)%nat && (text !!! 0%nat =? cZero) then
    let decimal := trim_zeros text in
    appendError tok (LeadingZero text (if bool_decide (decimal = []) then [cZero] else decimal));; mret Missing
  else
    match ParseInt text with
    | None => appendError tok (NotInteger text);; mret Missing
    | Some value => literal start (IntegerLiteral value)
    end.

Definition parseUnterminatedString : PM expr :=
  start ← startMark; errorHere (UnterminatedString (Line start) (Column start));; mret Missing.

Definition parseStringLiteral : PM expr :=
  start ← startMark; tok ← gets curToken; literal start (StringLiteral (Literal tok)).

(* ------------------------------------------------------------------ *)
(** ** Parameters *)

Definition blankParameter : string := "_".

Definition refuseParameter : PM unit :=
  tok ← gets curToken;
  appendError tok (or_detail tok (ParameterNotName (Type_ tok)));;
  loop (fun _ =>
    t ← peekType;
    if among [COMMA; IDENT] t then nextToken;; again tt else done_ tt) tt;;
  close ← peekTokenIs RPAREN;
  if (close : bool) then nextToken else mret tt.

(** [parseParameterName]: the name and the names the list now holds. *)
Definition parseParameterName (named : list string) : PM (option (string * list string)) :=
  start ← startMark;
  tok ← gets curToken;
  if negb (is_type IDENT tok) then refuseParameter;; mret None
  else
    let name := nameOf tok in
    named ←
      (if bool_decide (name = blankParameter) then mret named
       else
         (if bool_decide (name ∈ named) then appendError tok (DuplicateParameterName name) else mret tt);;
         mret (name :: named));
    _ ← located start;
    mret (Some (name, named)).

(** [parseFunctionParameters]; [None] is nil. *)
Definition parseFunctionParameters : PM (option (list string)) :=
  empty ← peekTokenIs RPAREN;
  if (empty : bool) then nextToken;; mret (Some [])
  else
    nextToken;;
    first ← parseParameterName [];
    match first with
    | None => mret None
    | Some (name, named) =>
        loop (fun '(identifiers, named) =>
          comma ← peekTokenIs COMMA;
          if (comma : bool) then
            nextToken;; nextToken;;
            next ← parseParameterName named;
            match next with
            | None => done_ None
            | Some (name, named) => again (identifiers ++ [name], named)
            end
          else
            ok ← expectPeek RPAREN;
            done_ (if (ok : bool) then Some identifiers else None)) ([name], named)
    end.

(* ------------------------------------------------------------------ *)
(** ** Forms

    The functions that contain expressions or blocks, over the two that parse
    those. *)

Section Forms.
Variable parseExpression : Z -> PM expr.
Variable parseBlockStatement : PM block.

Definition parsePrefixExpression : PM expr :=
  start ← startMark;
  tok ← gets curToken;
  n ← alloc;
  nextToken;;
  right ← parseExpression PREFIX;
  recordRange n start;;
  mret (Expr n (PrefixExpression (nameOf tok) right)).

Definition parseInfixExpression (left : expr) : PM expr :=
  start ← start_of left;
  tok ← gets curToken;
  n ← alloc;
  prec ← curPrecedence;
  nextToken;;
  right ← parseExpression prec;
  recordRange n start;;
  mret (Expr n (InfixExpression left (nameOf tok) right)).

Definition parseGroupedExpression : PM expr :=
  nextToken;;
  exp ← parseExpression LOWEST;
  ok ← expectPeek RPAREN;
  if (ok : bool) then markParenthesized exp;; mret exp else mret Missing.

(** The loop of [parseExpressionList]. *)
Definition parseExpressionList (end_ : TokenType) : PM (list expr) :=
  empty ← peekTokenIs end_;
  if (empty : bool) then nextToken;; mret []
  else
    nextToken;;
    loop (fun list =>
      eof ← curTokenIs EOF;
      if (eof : bool) then done_ list
      else
        before ← gets (fun p => length (errors p));
        exp ← parseExpression LOWEST;
        let list := match exp with Missing => list | _ => list ++ [exp] end in
        reported ← gets (fun p => (before <? length (errors p))%nat);
        peek ← peekType;
        cur ← curType;
        if bool_decide (peek = COMMA) then nextToken;; nextToken;; again list
        else if bool_decide (peek = end_) then nextToken;; done_ list
        else if (reported : bool) && bool_decide (cur = end_) then done_ list
        else
          (if (reported : bool) then mret tt
           else tok ← gets peekToken; appendError tok (or_detail tok (ExpectedCommaOr end_ peek)));;
          stop ← synchronizeToTokenTypes [COMMA; end_; SEMICOLON; RBRACE];
          if bool_decide (stop = COMMA) then nextToken;; again list
          else done_ list) [].

Definition parseCallExpression (fun_ : expr) : PM expr :=
  start ← start_of fun_;
  n ← alloc;
  arguments ← parseExpressionList RPAREN;
  recordRange n start;;
  mret (Expr n (CallExpression fun_ arguments)).

Definition parseIndexExpression (left : expr) : PM expr :=
  start ← start_of left;
  n ← alloc;
  nextToken;;
  index ← parseExpression LOWEST;
  ok ← expectPeek RSQUARE;
  if (ok : bool) then recordRange n start;; mret (Expr n (IndexExpression left index)) else mret Missing.

(** The targets an assignment may have. *)
Definition assignable (left : expr) : bool :=
  match left with
  | Expr _ (Identifier _) | Expr _ (FieldExpression _ _) | Expr _ (IndexExpression _ _) => true
  | _ => false
  end.

(** [compoundAssignBaseOperator]; nothing for a plain [=]. *)
Definition compoundAssignBaseOperator (t : TokenType) : string :=
  match t with
  | PLUS_ASSIGN => "+"
  | MINUS_ASSIGN => "-"
  | ASTERISK_ASSIGN => "*"
  | SLASH_ASSIGN => "/"
  | AND_ASSIGN => "&"
  | OR_ASSIGN => "|"
  | XOR_ASSIGN => "^"
  | SHL_ASSIGN => "<<"
  | SHR_ASSIGN => ">>"
  | MODULO_ASSIGN => "%"
  | _ => ""
  end.

(** What [parseAssignExpression] and [parseCompoundAssignExpression] share. *)
Definition parseAssignment (operator : TokenType -> string) (left : expr) : PM expr :=
  if negb (assignable left) then errorHere InvalidAssignmentTarget;; mret Missing
  else
    start ← start_of left;
    n ← alloc;
    t ← curType;
    precedence ← curPrecedence;
    nextToken;;
    value ← parseExpression (precedence - 1);
    recordRange n start;;
    mret (Expr n (AssignExpression left (operator t) value)).

Definition parseAssignExpression : expr -> PM expr := parseAssignment (fun _ => EmptyString).
Definition parseCompoundAssignExpression : expr -> PM expr := parseAssignment compoundAssignBaseOperator.

Definition parsePostfixIncDecExpression (left : expr) : PM expr :=
  if negb (assignable left) then errorHere InvalidIncDecTarget;; mret Missing
  else
    start ← start_of left;
    decrement ← curTokenIs DECREMENT;
    one ← alloc;
    n ← alloc;
    recordRange n start;;
    mret (Expr n (AssignExpression left (if (decrement : bool) then "-" else "+")%string
                    (Expr one (IntegerLiteral 1)))).

Definition parseFieldExpression (left : expr) : PM expr :=
  start ← start_of left;
  n ← alloc;
  ok ← expectPeek IDENT;
  if (ok : bool) then
    field ← identifierHere;
    recordRange n start;;
    mret (Expr n (FieldExpression left field))
  else mret Missing.

(** Skip to the next entry of a brace list: whether there is one. *)
Definition resynchronize : PM bool :=
  stop ← synchronizeToTokenTypes [COMMA; RBRACE; SEMICOLON];
  mret (bool_decide (stop = COMMA)).

Definition resume {A R} (a : A) (r : R) : PM (A + R) :=
  comma ← resynchronize;
  if (comma : bool) then again a else done_ r.

(** After an entry: [,] or the closing brace. *)
Definition after_entry {A R} (a : A) (r : R) : PM (A + R) :=
  close ← peekTokenIs RBRACE;
  if (close : bool) then again a
  else
    ok ← expectPeek COMMA;
    if (ok : bool) then again a else resume a r.

Definition parseStructLiteralExpression (left : expr) : PM expr :=
  match left with
  | Expr _ (Identifier name) =>
      start ← start_of left;
      n ← alloc;
      fields ← loop (fun fields =>
        t ← peekType;
        if among [RBRACE; EOF] t then done_ fields
        else
          nextToken;;
          tok ← gets curToken;
          if negb (is_type IDENT tok) then
            appendError tok (StructLiteralField (Type_ tok));; resume fields fields
          else
            fieldName ← identifierHere;
            colon ← expectPeek COLON;
            if negb colon then resume fields fields
            else
              nextToken;;
              value ← parseExpression LOWEST;
              match value with
              | Missing => resume fields fields
              | _ => let fields := fields ++ [(fieldName, value)] in after_entry fields fields
              end) [];
      _ ← expectPeek RBRACE;
      recordRange n start;;
      mret (Expr n (StructLiteral name fields))
  | _ => mret left
  end.

(** [constantHashKey]. *)
Definition constantHashKey (key : expr) : option hash_tag :=
  match key with
  | Expr _ (StringLiteral s) => Some (TagString s)
  | Expr _ (IntegerLiteral n) => Some (TagInteger n)
  | Expr _ (FloatLiteral bits) => Some (TagFloat bits)
  | Expr _ (BooleanLiteral b) => Some (TagBoolean b)
  | _ => None
  end.

(** The keys stated so far, after one more; a repeated one is refused. *)
Definition noteKey (tok : Token) (key : expr) (seen : list hash_tag) : PM (list hash_tag) :=
  match constantHashKey key with
  | Some tag =>
      (if bool_decide (tag ∈ seen) then appendError tok (DuplicateKey tag) else mret tt);; mret (tag :: seen)
  | None => mret seen
  end.

Definition parseHashLiteral : PM expr :=
  start ← startMark;
  n ← alloc;
  pairs ← loop (fun '(pairs, seen) =>
    t ← peekType;
    if among [RBRACE; EOF] t then done_ pairs
    else
      nextToken;;
      keyToken ← gets curToken;
      key ← parseExpression LOWEST;
      match key with
      | Missing => resume (pairs, seen) pairs
      | _ =>
          colon ← expectPeek COLON;
          if negb colon then resume (pairs, seen) pairs
          else
            nextToken;;
            value ← parseExpression LOWEST;
            match value with
            | Missing => resume (pairs, seen) pairs
            | _ =>
                seen ← noteKey keyToken key seen;
                let pairs := pairs ++ [(key, value)] in after_entry (pairs, seen) pairs
            end
      end) ([], []);
  _ ← expectPeek RBRACE;
  recordRange n start;;
  mret (Expr n (HashLiteral pairs)).

Definition parseArrayLiteral : PM expr :=
  start ← startMark;
  n ← alloc;
  elements ← parseExpressionList RSQUARE;
  recordRange n start;;
  mret (Expr n (ArrayLiteral elements)).

(** [parseFunctionLiteral] and [parseMacroLiteral]: the parameter list of a
    literal that is refused is nil, which is no parameters. *)
Definition parseCallable (make : list string -> block -> expression) : PM expr :=
  start ← startMark;
  n ← alloc;
  open ← expectPeek LPAREN;
  if negb open then mret Missing
  else
    parameters ← parseFunctionParameters;
    brace ← expectPeek LBRACE;
    if negb brace then mret Missing
    else
      body ← parseBlockStatement;
      recordRange n start;;
      mret (Expr n (make (default [] parameters) body)).

Definition parseFunctionLiteral : PM expr := parseCallable (FunctionLiteral EmptyString).
Definition parseMacroLiteral : PM expr := parseCallable MacroLiteral.

(** What [parseIfExpression] does after the consequence; [elseIf] is the function
    itself. *)
Definition parseElse (elseIf : PM expr) (n : nat) (start : Position) (condition : expr) (consequence : block) : PM expr :=
  else_ ← peekTokenIs ELSE;
  if negb else_ then recordRange n start;; mret (Expr n (IfExpression condition consequence None))
  else
    nextToken;;
    if_ ← peekTokenIs IF;
    if (if_ : bool) then
      nextToken;;
      alternative ← elseIf;
      match alternative with
      | Missing => mret Missing
      | Expr _ (IfExpression _ _ _) =>
          b ← alloc;
          s ← alloc;
          recordRange n start;;
          mret (Expr n (IfExpression condition consequence (Some (Block b [Stmt s (ExpressionStatement alternative)]))))
      | _ => errorHere ElseIfNotIf;; mret Missing
      end
    else
      brace ← expectPeek LBRACE;
      if negb brace then mret Missing
      else
        alternative ← parseBlockStatement;
        recordRange n start;;
        mret (Expr n (IfExpression condition consequence (Some alternative))).

(** [parseIfExpression]; an [else if] is the function calling itself, [turns]
    times at most. *)
Fixpoint parseIf (turns : nat) : PM expr :=
  match turns with
  | O => cut_short
  | S turns =>
      start ← startMark;
      n ← alloc;
      open ← expectPeek LPAREN;
      if negb open then mret Missing
      else
        nextToken;;
        condition ← parseExpression LOWEST;
        close ← expectPeek RPAREN;
        if negb close then mret Missing
        else
          brace ← expectPeek LBRACE;
          if negb brace then mret Missing
          else
            consequence ← parseBlockStatement;
            parseElse (parseIf turns) n start condition consequence
  end.

Definition parseIfExpression : PM expr := fun p => parseIf (turns p) p.

(* ------------------------------------------------------------------ *)
(** ** Match *)

(** The loop over the dots of a path. *)
Definition parsePath (start : Position) (name : string) : PM expr :=
  first ← located start;
  loop (fun path =>
    dot ← peekTokenIs DOT;
    if negb dot then done_ path
    else
      nextToken;;
      ok ← expectPeek IDENT;
      if negb ok then done_ Missing
      else
        field ← identifierHere;
        n ← located start;
        again (Expr n (FieldExpression path field))) (Expr first (Identifier name)).

(** [parseMatchPattern]; [number] is the function itself, called for the number
    after a minus. *)
Definition matchPattern (number : PM expr) : PM expr :=
  start ← startMark;
  tok ← gets curToken;
  match Type_ tok with
  | INT => parseIntegerLiteral
  | FLOAT => parseFloatLiteral
  | STRING => parseStringLiteral
  | TRUE | FALSE => parseBoolean
  | MINUS =>
      t ← peekType;
      if negb (among [INT; FLOAT] t) then errorAhead MinusNeedsNumber;; mret Missing
      else
        nextToken;;
        right ← number;
        match right with
        | Missing => mret Missing
        | _ => n ← located start; mret (Expr n (PrefixExpression (nameOf tok) right))
        end
  | TEMPLATE => appendError tok InterpolatedPattern;; mret Missing
  | IDENT =>
      dot ← peekTokenIs DOT;
      if negb dot then appendError tok (NameNotPattern (Literal tok));; mret Missing
      else parsePath start (nameOf tok)
  | t => appendError tok (ExpectedPattern t);; mret Missing
  end.

Definition parseMatchPattern : PM expr := matchPattern (matchPattern cut_short).

(** [parseMatchPatterns]; [None] is the failure, no patterns the wildcard. *)
Definition parseMatchPatterns : PM (option (list expr)) :=
  tok ← gets curToken;
  if is_type IDENT tok && bool_decide (Literal tok = bytes "_") then mret (Some [])
  else
    loop (fun patterns =>
      pattern ← parseMatchPattern;
      match pattern with
      | Missing => done_ None
      | _ =>
          let patterns := patterns ++ [pattern] in
          pipe ← peekTokenIs PIPE;
          if negb pipe then done_ (Some patterns)
          else nextToken;; nextToken;; again patterns
      end) [].

(** [parseMatchArm]; an arm is a node, of which the tree keeps the two parts. *)
Definition parseMatchArm : PM (option (list expr * block)) :=
  start ← startMark;
  arm ← alloc;
  patterns ← parseMatchPatterns;
  match patterns with
  | None => mret None
  | Some patterns =>
      arrow ← expectPeek FATARROW;
      if negb arrow then mret None
      else
        nextToken;;
        braced ← curTokenIs LBRACE;
        if (braced : bool) then
          body ← parseBlockStatement;
          recordRange arm start;;
          mret (Some (patterns, body))
        else
          value ← parseExpression LOWEST;
          match value with
          | Missing => mret None
          | _ =>
              b ← alloc;
              s ← alloc;
              recordRange arm start;;
              mret (Some (patterns, Block b [Stmt s (ExpressionStatement value)]))
          end
  end.

(** The loop over the arms; [None] is the failure. *)
Definition parseMatchArms : PM (option (list (list expr * block))) :=
  loop (fun arms =>
    t ← peekType;
    if bool_decide (t = RBRACE) then done_ (Some arms)
    else if bool_decide (t = EOF) then errorAhead MatchUnclosed;; done_ None
    else
      nextToken;;
      arm ← parseMatchArm;
      match arm with
      | None => done_ None
      | Some arm =>
          let arms := arms ++ [arm] in
          t ← peekType;
          if bool_decide (t = COMMA) then nextToken;; again arms
          else if bool_decide (t = EOF) then errorAhead MatchUnclosed;; done_ None
          else if bool_decide (t = RBRACE) then again arms
          else errorAhead (MatchSeparator t);; done_ None
      end) [].

Definition parseMatchExpression : PM expr :=
  start ← startMark;
  matchToken ← gets curToken;
  n ← alloc;
  open ← expectPeek LPAREN;
  if negb open then mret Missing
  else
    nextToken;;
    subject ← parseExpression LOWEST;
    match subject with
    | Missing => mret Missing
    | _ =>
        close ← expectPeek RPAREN;
        if negb close then mret Missing
        else
          brace ← expectPeek LBRACE;
          if negb brace then mret Missing
          else
            arms ← parseMatchArms;
            match arms with
            | None => mret Missing
            | Some arms =>
                close ← expectPeek RBRACE;
                if negb close then mret Missing
                else if bool_decide (arms = []) then appendError matchToken MatchNoArms;; mret Missing
                else recordRange n start;; mret (Expr n (MatchExpression subject arms))
            end
    end.

(* ------------------------------------------------------------------ *)
(** ** Templates *)

Definition statementKeyword (t : TokenType) : bool :=
  among [LET; RETURN; FOR; BREAK; CONTINUE; STRUCT; ENUM; IMPORT] t.

(** The zero token, which the cursor holds before the first read. *)
Definition zeroToken : Token := Tok ILLEGAL [] (Pos 0 0 0) (Pos 0 0 0) [] [] None.

(** A parser before its first two reads. *)
Definition unread (lx : Lexer) (node : nat) : Parser := Prs lx zeroToken zeroToken [] [] [] ∅ ∅ 0 0 false node.

(** [New]: two reads. *)
Definition NewParser (lx : Lexer) (node : nat) : Parser :=
  let '(l1, t1) := NextToken lx in let '(l2, t2) := NextToken l1 in with_tokens l2 t1 t2 (unread lx node).

(** Run a parser of its own inside this one: it allocates from the same store. *)
Definition nested {A} (sub : Parser) (m : PM A) : PM (A * Parser) := fun p =>
  match m sub with
  | Some (a, sub) => Some ((a, sub), with_ranges (nodeRanges p) (parenthesized p) (nextNode sub) p)
  | None => None
  end.

(** The sub-parser's errors, those of a hole marked as such in the plain list. *)
Definition adopt (sub : Parser) : PM unit :=
  modify (fun p =>
    with_errors (errors p ++ (InsideHole <$> errors sub)) (typedErrors p ++ typedErrors sub)
      (recoverables p ++ recoverables sub) p).

Definition parseHole (part : StringPart) : PM expr :=
  let at_ := part_Start part in
  if bool_decide (TrimSpace (Text part) = []) then
    errorHere (EmptyHole (Line at_) (Column at_));; mret Missing
  else
    node ← gets nextNode;
    d ← gets depth;
    let sub := NewParser (NewAt (Text part) at_) node in
    let sub := with_depths (blockDepth sub) d (depthReported sub) sub in
    if statementKeyword (Type_ (curToken sub)) then
      errorHere (StatementInHole (Type_ (curToken sub)) (Line at_) (Column at_));; mret Missing
    else
      '(expression, sub) ← nested sub (parseExpression LOWEST);
      expression ←
        match expression with
        | Expr _ _ =>
            if negb (is_type EOF (peekToken sub)) then
              errorHere (HoleHoldsMore (TrimSpace (Text part)) (Line at_) (Column at_));; mret Missing
            else mret expression
        | Missing => mret Missing
        end;
      adopt sub;;
      match expression with
      | Missing => mret Missing
      | _ =>
          modify (fun p => with_ranges (nodeRanges sub ∪ nodeRanges p) (parenthesized p) (nextNode p) p);;
          mret expression
      end.

(** Append to the last text. *)
Definition extend_last (texts : list (list Z)) (more : list Z) : list (list Z) :=
  removelast texts ++ [List.last texts [] ++ more].

Fixpoint parseParts (parts : list StringPart) (texts : list (list Z)) (holes : list expr)
    : PM (list (list Z) * list expr) :=
  match parts with
  | [] => mret (texts, holes)
  | part :: parts =>
      if negb (Expression part) then parseParts parts (extend_last texts (Text part)) holes
      else
        hole ← parseHole part;
        match hole with
        | Missing => parseParts parts texts holes
        | _ => parseParts parts (texts ++ [[]]) (holes ++ [hole])
        end
  end.

Definition parseTemplateLiteral : PM expr :=
  start ← startMark;
  tok ← gets curToken;
  n ← alloc;
  '(texts, holes) ← parseParts (Parts tok) [[]] [];
  recordRange n start;;
  mret (Expr n (TemplateLiteral texts holes)).

(* ------------------------------------------------------------------ *)
(** ** Statements *)

(** A statement that is located when it is finished. *)
Definition finish (n : nat) (start : Position) (s : stmt) : PM (option statement) :=
  recordRange n start;; mret (Some (Stmt n s)).

(** [parseBreakStatement] and [parseContinueStatement]. *)
Definition parseKeywordStatement (s : stmt) : PM (option statement) :=
  start ← startMark; n ← alloc; consumeStatementTerminator s;; finish n start s.

Definition parseExpressionStatement : PM (option statement) :=
  start ← startMark;
  n ← alloc;
  e ← parseExpression LOWEST;
  consumeStatementTerminator (ExpressionStatement e);;
  finish n start (ExpressionStatement e).

Definition parseImportStatement : PM (option statement) :=
  inside ← gets (fun p => (0 <? blockDepth p)%nat);
  if (inside : bool) then errorHere ImportInBlock;; mret None
  else
    start ← startMark;
    n ← alloc;
    named ← peekTokenIs IDENT;
    alias ← (if (named : bool) then nextToken;; name ← identifierHere; mret (Some name) else mret None);
    t ← peekType;
    if negb (bool_decide (t = STRING)) then errorAhead (ImportPathExpected t);; mret None
    else
      nextToken;;
      pathStart ← startMark;
      tok ← gets curToken;
      _ ← located pathStart;
      consumeStatementTerminator (ImportStatement alias (Literal tok));;
      finish n start (ImportStatement alias (Literal tok)).

Definition parseWhileStatement : PM (option statement) :=
  start ← startMark;
  n ← alloc;
  open ← expectPeek LPAREN;
  if negb open then mret None
  else
    nextToken;;
    empty ← curTokenIs RPAREN;
    if (empty : bool) then errorHere WhileNeedsCondition;; mret None
    else
      condition ← parseExpression LOWEST;
      close ← expectPeek RPAREN;
      if negb close then mret None
      else
        brace ← expectPeek LBRACE;
        if negb brace then mret None
        else
          body ← parseBlockStatement;
          finish n start (WhileStatement condition body).

(** The names a [for ... in] binds; [None] is the failure. *)
Definition parseForInNames : PM (option (option string * string)) :=
  first ← identifierHere;
  comma ← peekTokenIs COMMA;
  if negb comma then mret (Some (None, first))
  else
    nextToken;;
    ok ← expectPeek IDENT;
    if negb ok then mret None
    else second ← identifierHere; mret (Some (Some first, second)).

Definition parseForInStatement (start : Position) : PM (option statement) :=
  n ← alloc;
  names ← parseForInNames;
  match names with
  | None => mret None
  | Some (key, value) =>
      in_ ← expectPeek IN;
      if negb in_ then mret None
      else
        nextToken;;
        empty ← curTokenIs RPAREN;
        if (empty : bool) then errorHere ForInNeedsIterable;; mret None
        else
          iterable ← parseExpression LOWEST;
          close ← expectPeek RPAREN;
          if negb close then mret None
          else
            brace ← expectPeek LBRACE;
            if negb brace then mret None
            else
              body ← parseBlockStatement;
              finish n start (ForInStatement key value iterable body)
  end.

(** The names of a [let]; [None] is the failure. *)
Definition parseLetNames : PM (option (list string)) :=
  first ← identifierHere;
  loop (fun names =>
    comma ← peekTokenIs COMMA;
    if negb comma then done_ (Some names)
    else
      nextToken;;
      ok ← expectPeek IDENT;
      if negb ok then done_ None
      else name ← identifierHere; again (names ++ [name])) [first].

(** A function literal takes the name it is bound to. *)
Definition name_function (names : list string) (value : expr) : expr :=
  match value, names with
  | Expr n (FunctionLiteral _ params body), name :: _ => Expr n (FunctionLiteral name params body)
  | _, _ => value
  end.

Definition parseLetStatement : PM (option statement) :=
  start ← startMark;
  n ← alloc;
  ok ← expectPeek IDENT;
  if negb ok then mret None
  else
    names ← parseLetNames;
    match names with
    | None => mret None
    | Some names =>
        assign ← expectPeek ASSIGN;
        if negb assign then mret None
        else
          nextToken;;
          value ← parseExpression LOWEST;
          let s := LetStatement names (name_function names value) in
          consumeStatementTerminator s;;
          finish n start s
    end.

(** A section of a [for] header up to its delimiter: the expression when it is
    not empty, and whether the delimiter was there. *)
Definition parseForSection (delimiter : TokenType) : PM (option expr * bool) :=
  empty ← curTokenIs delimiter;
  if (empty : bool) then mret (None, true)
  else
    e ← parseExpression LOWEST;
    ok ← expectPeek delimiter;
    mret (Some e, ok).

Definition parseForStatement (start : Position) : PM (option statement) :=
  n ← alloc;
  t ← curType;
  init ←
    match t with
    | SEMICOLON => mret None
    | LET => parseLetStatement
    | _ => parseExpressionStatement
    end;
  t ← curType;
  if negb (bool_decide (t = SEMICOLON)) then errorHere (ForInitSemicolon t);; mret None
  else
    nextToken;;
    '(condition, ok) ← parseForSection SEMICOLON;
    if negb ok then mret None
    else
      nextToken;;
      '(post, ok) ← parseForSection RPAREN;
      if negb ok then mret None
      else
        brace ← expectPeek LBRACE;
        if negb brace then mret None
        else
          body ← parseBlockStatement;
          finish n start (ForStatement init condition post body).

Definition parseForOrForIn : PM (option statement) :=
  start ← startMark;
  open ← expectPeek LPAREN;
  if negb open then mret None
  else
    nextToken;;
    name ← curTokenIs IDENT;
    t ← peekType;
    if (name : bool) && among [IN; COMMA] t then parseForInStatement start else parseForStatement start.

(** The names between the braces of a [struct] or an [enum]; [None] is the
    failure. *)
Definition parseMembers (notName : TokenType -> message) (notSeparator : TokenType -> message)
    : PM (option (list string)) :=
  loop (fun members =>
    close ← peekTokenIs RBRACE;
    if (close : bool) then done_ (Some members)
    else
      nextToken;;
      t ← curType;
      if negb (bool_decide (t = IDENT)) then errorHere (notName t);; done_ None
      else
        name ← identifierHere;
        let members := members ++ [name] in
        t ← peekType;
        if among [SEMICOLON; COMMA] t then nextToken;; again members
        else if bool_decide (t = RBRACE) then again members
        else errorAhead (notSeparator t);; done_ None) [].

(** [parseStructStatement] and [parseEnumStatement]. *)
Definition parseDeclaration (make : string -> list string -> stmt) (notName notSeparator : TokenType -> message)
    : PM (option statement) :=
  start ← startMark;
  n ← alloc;
  ok ← expectPeek IDENT;
  if negb ok then mret None
  else
    name ← identifierHere;
    open ← expectPeek LBRACE;
    if negb open then mret None
    else
      members ← parseMembers notName notSeparator;
      match members with
      | None => mret None
      | Some members =>
          close ← expectPeek RBRACE;
          if negb close then mret None
          else
            semicolon ← peekTokenIs SEMICOLON;
            (if (semicolon : bool) then nextToken else mret tt);;
            finish n start (make name members)
      end.

Definition parseStructStatement : PM (option statement) := parseDeclaration StructStatement StructField StructSeparator.
Definition parseEnumStatement : PM (option statement) := parseDeclaration EnumStatement EnumVariant EnumSeparator.

Definition parseReturnStatement : PM (option statement) :=
  start ← startMark;
  n ← alloc;
  nextToken;;
  bare ← curTokenIs SEMICOLON;
  if (bare : bool) then finish n start (ReturnStatement [])
  else
    first ← parseExpression LOWEST;
    values ← loop (fun values =>
      comma ← peekTokenIs COMMA;
      if negb comma then done_ values
      else
        nextToken;; nextToken;;
        e ← parseExpression LOWEST;
        again (match e with Missing => values | _ => values ++ [e] end))
      (match first with Missing => [] | _ => [first] end);
    consumeStatementTerminator (ReturnStatement values);;
    finish n start (ReturnStatement values).

Definition parseStatement : PM (option statement) :=
  tok ← gets curToken;
  match Type_ tok with
  | SEMICOLON => recordRedundantSemicolon tok;; mret None
  | LET => parseLetStatement
  | RETURN => parseReturnStatement
  | FOR => parseForOrForIn
  | WHILE => parseWhileStatement
  | BREAK => parseKeywordStatement BreakStatement
  | CONTINUE => parseKeywordStatement ContinueStatement
  | STRUCT => parseStructStatement
  | ENUM => parseEnumStatement
  | IMPORT => parseImportStatement
  | _ => parseExpressionStatement
  end.

(** [shouldAppendStatement]: a nil statement and an expression statement with no
    expression are dropped. *)
Definition shouldAppendStatement (s : option statement) : list statement :=
  match s with
  | None => []
  | Some (Stmt _ (ExpressionStatement Missing)) => []
  | Some s => [s]
  end.

(** The body of the loop over statements of a file or a block. *)
Definition parseNext (statements : list statement) : PM (list statement) :=
  before ← gets (fun p => length (errors p));
  s ← parseStatement;
  reported ← gets (fun p => (before <? length (errors p))%nat);
  (if (reported : bool) then synchronizeToStatementBoundary else mret tt);;
  nextToken;;
  mret (statements ++ shouldAppendStatement s).

(* ------------------------------------------------------------------ *)
(** ** Dispatch *)

(** [prefixParseFns]. *)
Definition prefixParseFn (t : TokenType) : option (PM expr) :=
  match t with
  | IDENT => Some parseIdentifier
  | INT => Some parseIntegerLiteral
  | FLOAT => Some parseFloatLiteral
  | BANG | MINUS | TILDE => Some parsePrefixExpression
  | TRUE | FALSE => Some parseBoolean
  | LPAREN => Some parseGroupedExpression
  | IF => Some parseIfExpression
  | MATCH => Some parseMatchExpression
  | FUNCTION => Some parseFunctionLiteral
  | STRING => Some parseStringLiteral
  | UNTERMINATED => Some parseUnterminatedString
  | TEMPLATE => Some parseTemplateLiteral
  | LSQUARE => Some parseArrayLiteral
  | LBRACE => Some parseHashLiteral
  | MACRO => Some parseMacroLiteral
  | _ => None
  end.

(** [infixParseFns]. *)
Definition infixParseFn (t : TokenType) : option (expr -> PM expr) :=
  match t with
  | PLUS | MINUS | FSLASH | ASTERISK | EQUALITY | INEQUALITY | LT | GT | LTE | GTE | MODULO | AND | OR | AMPERSAND | PIPE
  | CARET | SHL | SHR => Some parseInfixExpression
  | ASSIGN => Some parseAssignExpression
  | PLUS_ASSIGN | MINUS_ASSIGN | ASTERISK_ASSIGN | SLASH_ASSIGN | MODULO_ASSIGN | AND_ASSIGN | OR_ASSIGN | XOR_ASSIGN
  | SHL_ASSIGN | SHR_ASSIGN => Some parseCompoundAssignExpression
  | INCREMENT | DECREMENT => Some parsePostfixIncDecExpression
  | LPAREN => Some parseCallExpression
  | LSQUARE => Some parseIndexExpression
  | DOT => Some parseFieldExpression
  | LBRACE => Some parseStructLiteralExpression
  | _ => None
  end.

(** A turn of the loop of [parseExpression]. *)
Definition infixTurn (precedence : Z) (left : expr) : PM (expr + expr) :=
  t ← peekType;
  if bool_decide (t = SEMICOLON) || negb (precedence <? Precedence t) then done_ left
  else
    match infixParseFn t with
    | None => done_ left
    | Some infix => nextToken;; left ← infix left; again left
    end.

(** The part of [parseExpression] inside the nesting it opens. *)
Definition expressionBody (precedence : Z) : PM expr :=
  t ← curType;
  match prefixParseFn t with
  | None => notPrefixParseFnError t;; mret Missing
  | Some prefix => left ← prefix; loop (infixTurn precedence) left
  end.

(** The part of [parseBlockStatement] inside the nesting it opens. *)
Definition blockBody (n : nat) (opening : Token) : PM block :=
  nextToken;;
  statements ← loop (fun statements =>
    t ← curType;
    if among [RBRACE; EOF] t then done_ statements
    else statements ← parseNext statements; again statements) [];
  eof ← curTokenIs EOF;
  (if (eof : bool) then appendError opening (UnclosedBlock (Line (Start opening)) (Column (Start opening))) else mret tt);;
  recordRange n (Start opening);;
  mret (Block n statements).
End Forms.

(** On a refused block the rest of the input is consumed. *)
Definition consumeRest : PM unit :=
  loop (fun _ =>
    eof ← curTokenIs EOF;
    if (eof : bool) then done_ tt else nextToken;; again tt) tt.

(** [defer]: [f] runs when [m] has. *)
Definition closing {A} (m : PM A) (f : PM unit) : PM A := a ← m; f;; mret a.

Definition enterBlock : PM unit := modify (fun p => with_depths (S (blockDepth p)) (depth p) (depthReported p) p).
Definition leaveBlock : PM unit := modify (fun p => with_depths (blockDepth p - 1) (depth p) (depthReported p) p).

(** [parseExpression] and [parseBlockStatement], for a parser that will open at
    most [levels] more levels. *)
Fixpoint parseExpression (levels : nat) (precedence : Z) : PM expr :=
  open ← enterNesting;
  if negb open then mret Missing
  else
    match levels with
    | O => cut_short
    | S levels =>
        closing (expressionBody (parseExpression levels) (parseBlockStatement levels) precedence) leaveNesting
    end
with parseBlockStatement (levels : nat) : PM block :=
  opening ← gets curToken;
  n ← alloc;
  enterBlock;;
  open ← enterNesting;
  closing
    (if negb open then consumeRest;; recordRange n (Start opening);; mret (Block n [])
     else
       match levels with
       | O => cut_short
       | S levels =>
           closing (blockBody (parseExpression levels) (parseBlockStatement levels) n opening) leaveNesting
       end) leaveBlock.

(** [ParseProgram]. *)
Definition ParseProgram : PM source :=
  statements ← loop (fun statements =>
    eof ← curTokenIs EOF;
    if (eof : bool) then done_ statements
    else
      statements ← parseNext (parseExpression maxNestingDepth) (parseBlockStatement maxNestingDepth) statements;
      again statements) [];
  gets (fun p => Source statements (nodeRanges p) ∅ (comments (p_l p)) (parenthesized p)).

(** [parser.New(lexer.New(text)).ParseProgram()], and the parser it leaves. *)
Definition parse (text : list Z) : option (source * Parser) := ParseProgram (NewParser (New text) 0).

(** [PositionedErrors]: each message with its position, when it has one. *)
Fixpoint positioned (messages : list message) (typed : list ParseError) : list (option Position * message) :=
  match messages, typed with
  | [], _ => []
  | m :: messages, [] => (None, m) :: positioned messages []
  | m :: messages, t :: typed =>
      let at_ := r_Start (pe_Range t) in
      (if IsValid at_ then Some at_ else None, m) :: positioned messages typed
  end.

Definition PositionedErrors (p : Parser) : list (option Position * message) := positioned (errors p) (typedErrors p).
End Parsing.
