(* ===== verification/ParserLogic.v ===== *)
(** * A program logic for the parser

    Total-correctness triples for the monad of [Parser.v].  [advanced p p'] is
    what every parsing function does to the parser: the cursor goes forward,
    errors only accumulate, the nesting counters are as they were.  [gives] says
    that a function returns, that it advances the parser, and what it returns;
    one rule covers every loop, and asks that a turn that goes round again
    consumes a token. *)

From stdpp Require Import base list list_numbers numbers gmap sets strings.
From Stdlib Require Import ZArith Lia.
From S2P Require Import Prelude Text Lexer Paths Module Float64 Ast Parser.

(* ------------------------------------------------------------------ *)
(** ** What the lexer hands over *)

(** The spelling of the operators. *)
Definition spelling (t : TokenType) : option string :=
  match t with
  | ASSIGN => Some "=" | PLUS => Some "+" | MINUS => Some "-" | ASTERISK => Some "*" | FSLASH => Some "/"
  | MODULO => Some "%" | LT => Some "<" | GT => Some ">" | LTE => Some "<=" | GTE => Some ">=" | BANG => Some "!"
  | EQUALITY => Some "==" | INEQUALITY => Some "!=" | AND => Some "&&" | OR => Some "||" | AMPERSAND => Some "&"
  | PIPE => Some "|" | CARET => Some "^" | TILDE => Some "~" | SHL => Some "<<" | SHR => Some ">>"
  | _ => None
  end%string.

Definition spelled (tok : Token) : Prop :=
  match spelling (Type_ tok) with
  | Some s => nameOf tok = s
  | None => True
  end.

Lemma read_peeked l : ch (readRune l) = peekRune l.
Proof.
  unfold readRune, peekRune. destruct (if ch l =? _ then _ else _), (_ <=? _)%nat; [done|]. by destruct (DecodeRune _).
Qed.

(** The type of a token spelled by two characters. *)
Lemma two_rune_spelled l c d t :
  ch l = c -> peekRune l = d -> spelled (plain_token t (encodeRune c ++ encodeRune d)) -> spelled (two_rune l t).2.
Proof. intros <- <- Hs. unfold two_rune. cbn [snd]. by rewrite read_peeked. Qed.

Lemma op_arm_spelled l seconds single c :
  ch l = c -> spelled (newToken single c) ->
  Forall (fun p => spelled (plain_token p.2 (encodeRune c ++ encodeRune p.1))) seconds ->
  spelled (op_arm l seconds single).2.
Proof.
  intros Hc Hs Hf. induction Hf as [|[d t] rest Ht _ IH]; cbn [op_arm]; [by rewrite Hc|].
  destruct (Z.eqb_spec (peekRune l) d); [by eapply two_rune_spelled | done].
Qed.

Lemma shift_arm_spelled l c a b d e :
  ch l = c -> spelling b = None -> spelled (plain_token a (encodeRune c ++ encodeRune c)) ->
  spelled (plain_token d (encodeRune c ++ encodeRune 61)) -> spelled (newToken e c) ->
  spelled (shift_arm l c a b d e).2.
Proof.
  intros Hc Hb Ha Hd He. unfold shift_arm. destruct (Z.eqb_spec (peekRune l) c) as [Ep|_].
  - cbv zeta. destruct (peekRune (readRune l) =? 61); cbn [snd].
    + unfold spelled, plain_token. cbn [Type_]. by rewrite Hb.
    + by rewrite read_peeked, Hc, Ep.
  - destruct (Z.eqb_spec (peekRune l) 61); [by eapply two_rune_spelled | by rewrite Hc].
Qed.

Lemma punctuation_spelled l r : punctuation l = Some r -> spelled r.2.
Proof.
  unfold punctuation. cbv zeta. intros E.
  repeat match type of E with
  | (if ?x =? ?y then _ else _) = _ =>
      destruct (Z.eqb_spec x y) as [Ec|_]; [apply (inj Some) in E; subst r;
        first [done | by rewrite Ec | by eapply op_arm_spelled; [exact Ec|done|repeat constructor] | by apply shift_arm_spelled]|]
  end; done.
Qed.

Lemma string_spelled i raw triple l : spelled (readStringToken i raw triple l).2.
Proof.
  unfold readStringToken. destruct (if triple then _ else _) as [[[l' b] terminated] fault].
  destruct (match IndexByte b 0 with Some _ => _ | None => _ end); [done|].
  destruct (negb terminated); [done|]. destruct raw; [done|].
  destruct (splitTemplate _ _) as [[parts interpolated] [|]]; [done|]. by destruct interpolated.
Qed.

Lemma word_spelled lit a b : spelled (with_span (plain_token (LookupIdent lit) lit) a b).
Proof. unfold LookupIdent, keywords. cbn [lookup_keyword]. repeat case_decide; done. Qed.

Section Facts.
Context `{Unicode}.

Lemma scanToken_spelled l : spelled (scanToken l).2.
Proof.
  unfold scanToken. destruct (skipTrivia l) as [l1 [[why w]|]]; [done|].
  destruct (atEOF l1); [done|]. destruct (punctuation l1) as [r|] eqn:E; [by apply punctuation_spelled in E|].
  destruct (_ =? _); [apply string_spelled|]. destruct (_ =? _); [done|].
  destruct (_ && _); [apply string_spelled|].
  destruct (_ || _); [destruct (readIdentifier l1); apply word_spelled|].
  destruct (IsDigit _); [|done]. unfold scan_number. destruct (readNumber l1) as [[l2 val] fl].
  destruct (_ || _); [by destruct (readIdentifier l2)|]. by destruct fl.
Qed.

(** One read: the token is spelled as its type says, and either it is the end of
    the input, for good, or the cursor has moved. *)
Lemma NextToken_spec l :
  cursor_ok l ->
  let '(l', tok) := NextToken l in
  cursor_ok l' /\ input l' = input l /\ spelled tok /\
  ((Type_ tok = EOF /\ position l' = length (input l)) \/
   (Type_ tok <> EOF /\ (position l < position l')%nat)).
Proof.
  intros Hok. rewrite NextToken_is_scanToken by done. pose proof (scanToken_spec l Hok) as Hs.
  pose proof (scanToken_spelled l) as Hsp. destruct (scanToken l) as [l' tok].
  destruct Hs as [Hm (i & j & Hi & Hj & _ & _ & Ht)]. destruct (Hm Hok) as (Hok' & Ei & _ & Hp).
  pose proof (cur_in _ Hok') as Hin. rewrite Ei in Hin. split; [done|]. split; [done|]. split; [done|].
  destruct Ht as [(E & -> & ->)|(E & Hlt)]; [left | right]; split; try done; lia.
Qed.

(* ------------------------------------------------------------------ *)
(** ** The invariant *)

(** Tokens the parser has still to read, the end not counted. *)
Definition left_ (p : Parser) : nat :=
  if is_type EOF (curToken p) then 0
  else if is_type EOF (peekToken p) then 1
  else S (S (length (input (p_l p)) - position (p_l p))).

Record ready (p : Parser) : Prop := {
  rd_cursor : cursor_ok (p_l p);
  rd_cur : Type_ (curToken p) = EOF -> Type_ (peekToken p) = EOF;
  rd_peek : Type_ (peekToken p) = EOF -> position (p_l p) = length (input (p_l p));
  rd_spelled : spelled (curToken p) /\ spelled (peekToken p);
  rd_reported : depthReported p = true -> errors p <> [];
  rd_paired : errors p = [] <-> typedErrors p = [] }.

Record advanced (p p' : Parser) : Prop := {
  av_ready : ready p';
  av_left : (left_ p' <= left_ p)%nat;
  av_errors : errors p `prefix_of` errors p';
  av_depth : depth p' = depth p;
  av_block : blockDepth p' = blockDepth p;
  av_node : (nextNode p <= nextNode p')%nat }.

Lemma advanced_refl p : ready p -> advanced p p.
Proof. by split. Qed.

Lemma advanced_trans p1 p2 p3 : advanced p1 p2 -> advanced p2 p3 -> advanced p1 p3.
Proof.
  intros [] []. split; [done|lia| |congruence|congruence|lia]. by etrans.
Qed.

Lemma clean_before p p' : advanced p p' -> errors p' = [] -> errors p = [].
Proof. intros [? ? He _ _ _] E. rewrite E in He. by apply prefix_nil_inv. Qed.

(* ------------------------------------------------------------------ *)
(** ** Triples *)

(** From a ready parser, [m] returns, advances the parser and gives [G]. *)
Definition gives {A} (G : A -> Parser -> Prop) (m : PM A) (p : Parser) : Prop :=
  ready p -> exists a p', m p = Some (a, p') /\ advanced p p' /\ G a p'.

(** What is promised when nothing was reported. *)
Definition clean {A} (g : A -> Prop) (a : A) (p : Parser) : Prop := errors p = [] -> g a.

Lemma gives_mono {A} (G G' : A -> Parser -> Prop) m p :
  gives G m p -> (forall a p', advanced p p' -> G a p' -> G' a p') -> gives G' m p.
Proof. intros Hm Hi Hp. destruct (Hm Hp) as (a & p' & E & Ha & HG). exists a, p'. eauto. Qed.

Lemma gives_ready {A} (G : A -> Parser -> Prop) m p : (ready p -> gives G m p) -> gives G m p.
Proof. intros Hm Hp. by apply Hm. Qed.

Lemma gives_ret {A} (G : A -> Parser -> Prop) a p : G a p -> gives G (mret a) p.
Proof. intros HG Hp. exists a, p. split; [done|]. split; [by apply advanced_refl | done]. Qed.

Lemma gives_bind {A B} (G : A -> Parser -> Prop) (G' : B -> Parser -> Prop) (m : PM A) (k : A -> PM B) p :
  gives G m p -> (forall a p', advanced p p' -> G a p' -> gives G' (k a) p') -> gives G' (m ≫= k) p.
Proof.
  intros Hm Hk Hp. destruct (Hm Hp) as (a & p' & E & Ha & HG).
  destruct (Hk a p' Ha HG (av_ready _ _ Ha)) as (b & p'' & E' & Ha' & HG').
  exists b, p''. split; [unfold mbind, PM_bind; by rewrite E|]. split; [by eapply advanced_trans | done].
Qed.

Lemma gives_gets {A B} (f : Parser -> A) (G : B -> Parser -> Prop) (k : A -> PM B) p :
  gives G (k (f p)) p -> gives G (gets f ≫= k) p.
Proof. done. Qed.

Lemma gives_pure {A B} (a : A) (G : B -> Parser -> Prop) (k : A -> PM B) p :
  gives G (k a) p -> gives G (mret a ≫= k) p.
Proof. done. Qed.

Lemma gives_assoc {A B C} (m : PM A) (n : A -> PM B) (k : B -> PM C) (G : C -> Parser -> Prop) p :
  gives G (m ≫= fun a => n a ≫= k) p -> gives G ((m ≫= n) ≫= k) p.
Proof. unfold gives, mbind, PM_bind. destruct (m p) as [[]|]; done. Qed.

(** The rule for [for]: every turn that goes round again has read a token. *)
Lemma gives_loop {A R} (I : A -> Parser -> Prop) (G : R -> Parser -> Prop) (body : A -> PM (A + R)) a p :
  I a p ->
  (forall a q, advanced p q -> I a q ->
     gives (fun r q' => match r with inl a' => I a' q' /\ (left_ q' < left_ q)%nat | inr r => G r q' end) (body a) q) ->
  gives G (loop body a) p.
Proof.
  intros HI Hb Hp. unfold loop.
  assert (Ht : (left_ p < turns p)%nat) by (unfold left_, turns; repeat case_match; lia).
  assert (Hq : advanced p p) by (by apply advanced_refl).
  assert (Hgo : forall n a q, (left_ q < n)%nat -> I a q -> advanced p q ->
    exists r q', iterate n body a q = Some (r, q') /\ advanced q q' /\ G r q').
  { intros n. induction n as [|n IH]; intros b q Hn HIq Hpq; [lia|].
    destruct (Hb b q Hpq HIq (av_ready _ _ Hpq)) as ([b'|r] & q' & E & Ha & HG).
    - destruct HG as [HI' Hlt].
      destruct (IH b' q') as (r & q'' & E' & Ha' & HG'); [lia | done | by eapply advanced_trans|].
      exists r, q''. split; [|split; [by eapply advanced_trans | done]].
      cbn [iterate]. unfold mbind, PM_bind. by rewrite E.
    - exists r, q'. split; [|done]. cbn [iterate]. unfold mbind, PM_bind. by rewrite E. }
  by apply Hgo.
Qed.

(* ------------------------------------------------------------------ *)
(** ** Primitives *)

(** A change of the bookkeeping that leaves the tokens and the counters alone. *)
Lemma gives_modify (G : unit -> Parser -> Prop) f p :
  (ready p -> p_l (f p) = p_l p /\ curToken (f p) = curToken p /\ peekToken (f p) = peekToken p /\
    depth (f p) = depth p /\ blockDepth (f p) = blockDepth p /\ (nextNode p <= nextNode (f p))%nat /\
    errors p `prefix_of` errors (f p) /\ (errors (f p) = [] <-> typedErrors (f p) = []) /\
    (depthReported (f p) = true -> errors (f p) <> []) /\ G tt (f p)) ->
  gives G (modify f) p.
Proof.
  intros Hf Hp. destruct (Hf Hp) as (El & Ec & Ek & Ed & Eb & Hn & He & Ht & Hr & HG). exists tt, (f p).
  split; [done|]. split; [|done]. split; [|unfold left_; by rewrite El, Ec, Ek|done..].
  destruct Hp. split; rewrite ?El, ?Ec, ?Ek; done.
Qed.

Lemma gives_nextToken p :
  gives (fun _ p' => (left_ p' <= pred (left_ p))%nat /\ curToken p' = peekToken p) nextToken p.
Proof.
  intros []. unfold nextToken. pose proof (NextToken_spec (p_l p) rd_cursor0) as Hs.
  destruct (NextToken (p_l p)) as [l' tok] eqn:E. destruct Hs as (Hok & Ei & Hsp & Ht).
  exists tt, (with_tokens l' (peekToken p) tok p). split; [done|].
  assert (Hend : Type_ (peekToken p) = EOF -> Type_ tok = EOF /\ position l' = length (input l')).
  { intros Hk. specialize (rd_peek0 Hk). rewrite Ei. destruct Ht as [[? ?]|[_ ?]]; [done|].
    pose proof (cur_in _ Hok). rewrite Ei in *. lia. }
  assert (Hl : (left_ (with_tokens l' (peekToken p) tok p) <= pred (left_ p))%nat).
  { unfold left_, is_type. cbn [with_tokens curToken peekToken p_l].
    destruct (decide (Type_ (peekToken p) = EOF)); [rewrite bool_decide_eq_true_2 by done; lia|].
    rewrite (bool_decide_eq_false_2 (Type_ (peekToken p) = EOF)) by done.
    rewrite (bool_decide_eq_false_2 (Type_ (curToken p) = EOF)) by auto.
    pose proof (cur_in _ Hok). rewrite Ei in *.
    destruct Ht as [[-> ?]|[? ?]]; [rewrite bool_decide_eq_true_2 by done; lia|].
    rewrite bool_decide_eq_false_2 by done. lia. }
  split; [|done]. split; cbn; [|lia|done..].
  split; cbn; [done|intros; by apply Hend| |by destruct rd_spelled0|done|done].
  intros Hk. rewrite Ei. destruct Ht as [[? ?]|[? _]]; done.
Qed.

Lemma app_one {A} (l : list A) a : l ++ [a] <> [].
Proof. by destruct l. Qed.

Lemma gives_appendError tok msg p : gives (fun _ p' => errors p' <> []) (appendError tok msg) p.
Proof.
  apply gives_modify. intros Hp.
  assert (Hkeep : errors p `prefix_of` errors p) by done.
  destruct (Nat.leb_spec maxParseErrors (length (errors p))) as [Hle|Hlt].
  - assert (Hne : errors p <> []) by (destruct (errors p); [unfold maxParseErrors in Hle; simpl in Hle; lia | done]).
    assert (Hne' : typedErrors p <> []) by (rewrite <- (rd_paired p Hp); done).
    destruct (_ =? _)%nat; cbn; repeat (split; [done|]); [|done].
    split; [by apply prefix_app_r|]. split; [|split; intros; apply app_one].
    split; [intros E; by apply app_one in E | done].
  - cbn. repeat (split; [done|]). split; [by apply prefix_app_r|].
    split; [|split; intros; apply app_one]. split; intros E; by apply app_one in E.
Qed.

Lemma gives_error_here msg p : gives (fun _ p' => errors p' <> []) (errorHere msg) p.
Proof. apply gives_gets, gives_appendError. Qed.
Lemma gives_error_ahead msg p : gives (fun _ p' => errors p' <> []) (errorAhead msg) p.
Proof. apply gives_gets, gives_appendError. Qed.
Lemma gives_peekError t p : gives (fun _ p' => errors p' <> []) (peekError t) p.
Proof. apply gives_gets, gives_appendError. Qed.
Lemma gives_notPrefix t p : gives (fun _ p' => errors p' <> []) (notPrefixParseFnError t) p.
Proof. apply gives_gets, gives_appendError. Qed.
Lemma gives_refuseMissing a b p : gives (fun _ p' => errors p' <> []) (refuseMissingSemicolon a b) p.
Proof. apply gives_appendError. Qed.

Definition any {A} (_ : A) (_ : Parser) : Prop := True.

Lemma gives_any {A} (G : A -> Parser -> Prop) m p : gives G m p -> gives any m p.
Proof. intros Hm. by eapply gives_mono. Qed.

(** A parser that has reported stays so. *)
Lemma gives_dirty {A} (G : A -> Parser -> Prop) m p :
  errors p <> [] -> gives G m p -> gives (fun _ q => errors q <> []) m p.
Proof. intros He Hm. eapply gives_mono; [exact Hm|]. intros a q Ha _ C. by apply He, (clean_before p q). Qed.

(** The tokens are where they were, and nothing was reported. *)
Record stays {A} (p : Parser) (a : A) (p' : Parser) : Prop := {
  st_cur : curToken p' = curToken p;
  st_peek : peekToken p' = peekToken p;
  st_lexer : p_l p' = p_l p;
  st_errors : errors p' = errors p }.

Lemma gives_alloc p : gives (stays p) alloc p.
Proof.
  intros Hp. eexists _, _. split; [done|]. split; [|by split]. destruct Hp. split; cbn; [by split|done..|lia].
Qed.

Lemma gives_recordRange n start p : gives (stays p) (recordRange n start) p.
Proof. apply gives_modify. intros []. cbn. repeat (split; [done|]). by split. Qed.

Lemma gives_located start p : gives (stays p) (located start) p.
Proof.
  eapply gives_bind; [apply gives_alloc|]. intros n p1 _ [].
  eapply gives_bind; [apply gives_recordRange|]. intros ? p2 _ []. apply gives_ret. split; congruence.
Qed.

Lemma gives_markParenthesized e p : gives (stays p) (markParenthesized e) p.
Proof. destruct e; [by apply gives_ret; split|]. apply gives_modify. intros []. cbn. repeat (split; [done|]). by split. Qed.

Lemma gives_identifierHere p : gives (stays p) identifierHere p.
Proof.
  do 2 apply gives_gets. eapply gives_bind; [apply gives_located|]. intros ? q _ []. by apply gives_ret; split.
Qed.

Lemma gives_recordRecoverable e p : gives any (recordRecoverable e) p.
Proof. apply gives_modify. intros []. cbn. repeat (split; [done|]). done. Qed.

(** What there is left when a token that is not the end is ahead. *)
Lemma left_cur p : Type_ (curToken p) <> EOF -> (0 < left_ p)%nat.
Proof.
  intros He. unfold left_, is_type. rewrite bool_decide_eq_false_2 by done. case_match; lia.
Qed.

Lemma left_peek p : ready p -> Type_ (peekToken p) <> EOF -> (1 < left_ p)%nat.
Proof.
  intros Hp He. unfold left_, is_type. rewrite bool_decide_eq_false_2 by (intros Hc; by apply He, (rd_cur p Hp)).
  rewrite bool_decide_eq_false_2 by done. lia.
Qed.

Lemma left_is t p : ready p -> Type_ (peekToken p) = t -> t <> EOF -> (1 < left_ p)%nat.
Proof. intros Hp <-. by apply left_peek. Qed.

Lemma left_among (l : list TokenType) p : ready p -> Type_ (peekToken p) ∈ l -> bool_decide (EOF ∈ l) = false -> (1 < left_ p)%nat.
Proof. intros Hp Hl He%bool_decide_eq_false. apply left_peek; [done|]. intros E. by rewrite E in Hl. Qed.

(** [expectPeek] reads the token or reports. *)
Definition expected (t : TokenType) (p : Parser) (b : bool) (p' : Parser) : Prop :=
  if b then (left_ p' <= pred (left_ p))%nat /\ Type_ (curToken p') = t else errors p' <> [].

Lemma gives_expectPeek t p : gives (expected t p) (expectPeek t) p.
Proof.
  apply gives_gets. unfold is_type. case_bool_decide as E.
  - eapply gives_bind; [apply gives_nextToken|]. intros [] p1 _ [Hl Hc]. apply gives_ret. split; [done|]. by rewrite Hc.
  - eapply gives_bind; [apply gives_peekError|]. intros ? p1 _ He. by apply gives_ret.
Qed.
End Facts.
