(* ===== verification/ParserFacts.v ===== *)
(** * What the parser gives

    The grammar a tree has when nothing was reported ([expr_ok] and the rest),
    and, for every parsing function, that it returns, advances the parser and
    gives a tree of the grammar or reports an error. *)

From stdpp Require Import base list list_numbers numbers gmap sets strings.
From Stdlib Require Import ZArith Lia.
From S2P Require Import Prelude Text Lexer Paths Module Float64 Ast Parser ParserLogic.

(* ------------------------------------------------------------------ *)
(** ** The grammar *)

Definition prefix_operators : list string := ["!"; "-"; "~"].
Definition infix_operators : list string :=
  ["+"; "-"; "*"; "/"; "%"; "<"; ">"; "<="; ">="; "=="; "!="; "&&"; "||"; "&"; "|"; "^"; "<<"; ">>"].
Definition assign_operators : list string := [""; "+"; "-"; "*"; "/"; "%"; "&"; "|"; "^"; "<<"; ">>"].

Definition int_ok (n : Z) : bool := (0 <=? n) && (n <? 2 ^ 63).

(** Parameters are distinct, except the discards. *)
Definition params_ok (params : list string) : bool :=
  bool_decide (NoDup (filter (fun x => x <> blankParameter) params)).

(** No constant key is written twice. *)
Definition keys_ok (keys : list expr) : bool := bool_decide (NoDup (omap constantHashKey keys)).

(** A dotted name. *)
Fixpoint path_ok (e : expr) : bool :=
  match e with
  | Expr _ (Identifier _) => true
  | Expr _ (FieldExpression l _) => path_ok l
  | _ => false
  end.

Definition number_ok (e : expr) : bool :=
  match e with
  | Expr _ (IntegerLiteral n) => int_ok n
  | Expr _ (FloatLiteral b) => is_finite b
  | _ => false
  end.

(** A pattern: a literal, a negated number, or a dotted name. *)
Definition pattern_ok (e : expr) : bool :=
  match e with
  | Expr _ (StringLiteral _) | Expr _ (BooleanLiteral _) => true
  | Expr _ (PrefixExpression op r) => bool_decide (op = "-"%string) && number_ok r
  | Expr _ (FieldExpression l _) => path_ok l
  | _ => number_ok e
  end.

Fixpoint expr_ok (e : expr) : bool :=
  match e with
  | Missing => false
  | Expr _ e => expression_ok e
  end
with expression_ok (e : expression) : bool :=
  match e with
  | Identifier _ | StringLiteral _ | BooleanLiteral _ => true
  | IntegerLiteral n => int_ok n
  | FloatLiteral b => is_finite b
  | TemplateLiteral texts parts => (length texts =? S (length parts))%nat && forallb expr_ok parts
  | ArrayLiteral l => forallb expr_ok l
  | HashLiteral pairs => forallb (fun p => expr_ok p.1 && expr_ok p.2) pairs && keys_ok pairs.*1
  | PrefixExpression op r => bool_decide (op ∈ prefix_operators) && expr_ok r
  | InfixExpression l op r => expr_ok l && bool_decide (op ∈ infix_operators) && expr_ok r
  | IndexExpression l i => expr_ok l && expr_ok i
  | FieldExpression l _ => expr_ok l
  | CallExpression f args => expr_ok f && forallb expr_ok args
  | IfExpression c a b => expr_ok c && block_ok a && match b with Some b => block_ok b | None => true end
  | MatchExpression e arms =>
      expr_ok e && negb (bool_decide (arms = [])) && forallb (fun a => forallb pattern_ok a.1 && block_ok a.2) arms
  | FunctionLiteral _ params b | MacroLiteral params b => params_ok params && block_ok b
  | AssignExpression l op v => assignable l && expr_ok l && bool_decide (op ∈ assign_operators) && expr_ok v
  | StructLiteral _ fields => forallb (fun f => expr_ok f.2) fields
  end
with statement_ok (top : bool) (s : statement) : bool :=
  match s with Stmt _ s => stmt_ok top s end
with stmt_ok (top : bool) (s : stmt) : bool :=
  match s with
  | LetStatement names e => negb (bool_decide (names = [])) && expr_ok e
  | ReturnStatement l => forallb expr_ok l
  | ExpressionStatement e => expr_ok e
  | BlockStatement _ => false
  | ForStatement i c p b =>
      match i with Some s => statement_ok false s | None => true end &&
      match c with Some e => expr_ok e | None => true end &&
      match p with Some e => expr_ok e | None => true end && block_ok b
  | ForInStatement _ _ e b | WhileStatement e b => expr_ok e && block_ok b
  | BreakStatement | ContinueStatement | StructStatement _ _ | EnumStatement _ _ => true
  | ImportStatement _ _ => top
  end
with block_ok (b : block) : bool :=
  match b with Block _ l => forallb (statement_ok false) l end.

(* ------------------------------------------------------------------ *)
(** ** Stepping *)

Create HintDb gives discriminated.
#[export] Hint Resolve gives_nextToken gives_appendError gives_error_here gives_error_ahead gives_peekError gives_notPrefix
  gives_refuseMissing gives_alloc gives_recordRange gives_located gives_markParenthesized gives_identifierHere
  gives_recordRecoverable gives_expectPeek : gives.

(** The states before a clean one are clean. *)
Ltac cleaned := repeat match goal with
  | A : advanced ?p ?q, C : errors ?q = [] |- _ =>
      lazymatch goal with
      | _ : errors p = [] |- _ => fail
      | _ => pose proof (clean_before p q A C)
      end
  end.

(** What was promised of clean states. *)
Ltac promised := repeat match goal with
  | K : clean _ _ ?p, C : errors ?p = [] |- _ => specialize (K C); cbn beta iota in K
  end.

(** Nothing to show in a state that has reported. *)
Ltac dirty := solve [exfalso; match goal with
  | H : errors ?p <> [], C : errors ?p = [] |- _ => exact (H C)
  | H : expected _ _ false ?p, C : errors ?p = [] |- _ => exact (H C)
  end].

Ltac settle := intros ?C; cbn beta in *; cleaned; try dirty; promised.

(** A part that is not there was reported. *)
Ltac absent := settle; match goal with
  | H : exists _, None = Some _ /\ _ |- _ => destruct H as (? & [=] & _)
  | H : _ = true /\ _ |- _ => destruct H as [[=] _]
  end.

(** Reads advance: what is left, along a chain of states. *)
Ltac counted := repeat match goal with
  | A : advanced ?p ?q |- _ =>
      lazymatch goal with
      | _ : (left_ q <= left_ p)%nat |- _ => fail
      | _ => pose proof (av_left p q A)
      end
  | H : expected ?t ?p true ?q |- _ => destruct H
  | H : (left_ _ <= pred _)%nat /\ _ |- _ => destruct H
  end.

(** The nesting depth is the same all along. *)
Ltac tracked := repeat match goal with
  | A : advanced ?p ?q, E : depth ?p = ?d |- _ =>
      lazymatch goal with
      | _ : depth q = d |- _ => fail
      | _ => pose proof (eq_trans (av_depth p q A) E)
      end
  end.

(** One step of a function. *)
Ltac step1 :=
  match goal with
  | |- gives _ (gets _ ≫= _) _ => apply gives_gets
  | |- gives _ (curTokenIs _ ≫= _) _ => apply gives_gets
  | |- gives _ (peekTokenIs _ ≫= _) _ => apply gives_gets
  | |- gives _ (curType ≫= _) _ => apply gives_gets
  | |- gives _ (peekType ≫= _) _ => apply gives_gets
  | |- gives _ (startMark ≫= _) _ => apply gives_gets
  | |- gives _ (start_of _ ≫= _) _ => apply gives_gets
  | |- gives _ (curPrecedence ≫= _) _ => apply gives_gets
  | |- gives _ (peekPrecedence ≫= _) _ => apply gives_gets
  | |- gives _ (mret _ ≫= _) _ => apply gives_pure
  | |- gives _ ((_ ≫= _) ≫= _) _ => apply gives_assoc
  | |- gives _ (expectPeek _ ≫= _) _ =>
      eapply gives_bind; [apply gives_expectPeek|]; intros [] ?p ?Ha ?Hg; tracked; cbn [negb]
  | |- gives _ (mret _) _ => apply gives_ret
  | |- gives _ (again _) _ => apply gives_ret
  | |- gives _ (done_ _) _ => apply gives_ret
  | |- gives _ (_ ≫= _) _ => eapply gives_bind; [solve [eauto with gives nocore]|];
      let Hg := fresh "Hg" in intros ?a ?p ?Ha Hg; cbn beta in Hg; tracked
  end.
Ltac steps := cbn [negb andb orb]; repeat (step1; cbn [negb andb orb]).

Section Facts.
Context `{Unicode}.

Lemma gives_syncBoundary p : gives any synchronizeToStatementBoundary p.
Proof.
  apply (gives_loop any); [done|]. intros [] q _ _. steps. unfold among. case_bool_decide as E; steps; [done|].
  split; [done|]. destruct Hg as [Hl _]. assert (0 < left_ q)%nat; [|lia].
  apply left_cur. intros He. apply E. rewrite He. set_solver.
Qed.

Lemma gives_syncTypes stop p : gives any (synchronizeToTokenTypes stop) p.
Proof.
  apply (gives_loop any); [done|]. intros [] q _ _. steps. case_bool_decide as E; steps; [done|].
  destruct (among stop _); steps; [done|].
  split; [done|]. destruct Hg as [Hl _]. apply left_cur in E. lia.
Qed.

Lemma gives_consumeRest p : gives any consumeRest p.
Proof.
  apply (gives_loop any); [done|]. intros [] q _ _. steps. unfold is_type. case_bool_decide as E; steps; [done|].
  split; [done|]. destruct Hg as [Hl _]. apply left_cur in E. lia.
Qed.

Lemma gives_terminator s p : gives any (consumeStatementTerminator s) p.
Proof.
  unfold consumeStatementTerminator, recordMissingSemicolon. steps. destruct (is_type _ _).
  - eapply gives_mono; [apply gives_nextToken | done].
  - destruct (RequiresSemicolon s); steps; [|done]. unfold statementFollowsOnSameLine. steps.
    match goal with |- gives _ (if ?b then _ else _) _ => destruct b end; steps.
    + eapply gives_mono; [apply gives_refuseMissing | done].
    + apply gives_recordRecoverable.
Qed.
End Facts.
#[export] Hint Resolve gives_syncBoundary gives_syncTypes gives_consumeRest gives_terminator : gives.

(** A promise about clean results that is decided. *)
Notation cleanb f := (clean (fun a => f a = true)).

(* ------------------------------------------------------------------ *)
(** ** Literals *)

Lemma digits_value_nonneg text acc n : 0 <= acc -> digits_value acc text = Some n -> 0 <= n.
Proof.
  revert acc. induction text as [|c text IH]; intros acc Ha; simpl; [by intros [= <-]|].
  bcase; [|done]. intros Hd. apply IH in Hd; [done|]. lia.
Qed.

Lemma ParseInt_ok text n : ParseInt text = Some n -> int_ok n = true.
Proof.
  unfold ParseInt, int_ok. destruct text; [done|]. destruct (digits_value _ _) as [m|] eqn:E; [|done].
  apply digits_value_nonneg in E; [|lia]. destruct (m <? 2 ^ 63) eqn:El; [|done]. intros [= <-]. rewrite El.
  apply andb_true_iff. split; [by apply Z.leb_le | done].
Qed.

Lemma ParseFloat_ok text b : ParseFloat text = (b, false) -> is_finite b = true.
Proof.
  unfold ParseFloat. destruct (match IndexByte text cDot with Some _ => _ | None => _ end) as [w f].
  destruct (w ++ f); [done|]. destruct (digits_value _ _) as [[|n|n]|]; intros E; simplify_eq; try done.
  by apply negb_false_iff in H0.
Qed.

Lemma number_expr e : number_ok e = true -> expr_ok e = true.
Proof. by destruct e as [|? []]. Qed.
Lemma number_pattern e : number_ok e = true -> pattern_ok e = true.
Proof. by destruct e as [|? []]. Qed.

Section Literals.
Context `{Unicode}.

Lemma gives_literal (g : expr -> bool) start e p :
  (forall n, g (Expr n e) = true) -> gives (cleanb g) (literal start e) p.
Proof. intros Hg. unfold literal. steps. by intros _. Qed.

Lemma gives_identifier p : gives (cleanb expr_ok) parseIdentifier p.
Proof. unfold parseIdentifier. steps. by apply gives_literal. Qed.
Lemma gives_boolean p : gives (cleanb pattern_ok) parseBoolean p.
Proof. unfold parseBoolean. steps. by apply gives_literal. Qed.
Lemma gives_string p : gives (cleanb pattern_ok) parseStringLiteral p.
Proof. unfold parseStringLiteral. steps. by apply gives_literal. Qed.

Lemma gives_unterminated p : gives (cleanb expr_ok) parseUnterminatedString p.
Proof. unfold parseUnterminatedString. steps. settle. Qed.

Lemma gives_float p : gives (cleanb number_ok) parseFloatLiteral p.
Proof.
  unfold parseFloatLiteral. steps. destruct (ParseFloat _) as [v [|]] eqn:E; steps.
  - eapply gives_mono; [by apply (gives_literal (fun _ => true))|]. intros. settle.
  - apply ParseFloat_ok in E. by apply gives_literal.
Qed.

Lemma gives_integer p : gives (cleanb number_ok) parseIntegerLiteral p.
Proof.
  unfold parseIntegerLiteral. steps. destruct (_ && _); steps; [settle|].
  destruct (ParseInt _) as [v|] eqn:E; steps; [|settle]. apply ParseInt_ok in E. by apply gives_literal.
Qed.

Lemma gives_imp (g g' : expr -> bool) m p :
  (forall e, g e = true -> g' e = true) -> gives (cleanb g) m p -> gives (cleanb g') m p.
Proof. intros Hi Hm. eapply gives_mono; [exact Hm|]. intros a q _ K C. by apply Hi, K. Qed.

(* ------------------------------------------------------------------ *)
(** ** Parameters *)

Lemma gives_skipNames p :
  gives any (loop (fun _ : unit => t ← peekType; if among [COMMA; IDENT] t then nextToken;; again tt else done_ tt) tt) p.
Proof.
  apply (gives_loop any); [done|]. intros [] q Hq _. steps. unfold among. case_bool_decide as E; steps; [|done].
  split; [done|]. apply left_among in E; [lia | apply Hq | done].
Qed.

Lemma gives_refuseParameter p : gives (fun _ q => errors q <> []) refuseParameter p.
Proof.
  unfold refuseParameter. steps. eapply gives_bind; [apply (gives_dirty any); [done | apply gives_skipNames]|].
  intros ? q Hq Hd. steps. destruct (is_type _ _); steps; [|done]. eapply gives_dirty; [done | apply gives_nextToken].
Qed.

(** The names a parameter list holds are those that count, last first, and each
    once. *)
Definition counted_names (identifiers : list string) : list string := filter (fun x => x <> blankParameter) identifiers.

Definition named_ok (identifiers named : list string) : Prop := named = reverse (counted_names identifiers) /\ NoDup named.

Lemma named_params identifiers named : named_ok identifiers named -> params_ok identifiers = true.
Proof. intros [-> Hn]. apply bool_decide_eq_true. by rewrite <- (reverse_Permutation (counted_names identifiers)). Qed.

Lemma gives_parameterName identifiers named p :
  clean (named_ok identifiers) named p ->
  gives (clean (fun r => match r with
    | Some (name, named') => named_ok (identifiers ++ [name]) named'
    | None => False end)) (parseParameterName named) p.
Proof.
  intros Hn. unfold parseParameterName. steps. destruct (is_type _ _); cbn [negb].
  2: { eapply gives_bind; [apply gives_refuseParameter|]. intros. steps. settle. }
  unfold named_ok, counted_names in *.
  case_bool_decide as Eb; steps.
  { settle. by rewrite filter_app, filter_cons_False, filter_nil, app_nil_r by auto. }
  case_bool_decide as Ed; steps; settle. destruct Hn as [-> Hn].
  rewrite filter_app, filter_cons_True, filter_nil, reverse_app by done. split; [done|]. by apply NoDup_cons.
Qed.

Lemma gives_parameters p :
  gives (clean (fun r => exists ids, r = Some ids /\ params_ok ids = true)) parseFunctionParameters p.
Proof.
  unfold parseFunctionParameters. steps. destruct (is_type _ _); steps; [intros _; by exists []|].
  eapply gives_bind; [apply (gives_parameterName [])|].
  { intros _. split; [done | constructor]. }
  intros [[name named]|] q Hq Hn; steps; [|settle; done].
  apply (gives_loop (fun st => clean (fun _ => named_ok st.1 st.2) tt)); [done|].
  intros [ids named'] r Hr HI. steps. cbn [fst snd] in *. unfold is_type. case_bool_decide as E; steps.
  - eapply gives_bind; [apply (gives_parameterName ids)|].
    { settle. done. }
    intros [[name' named'']|] s Hs Hn'; steps; [|settle; done].
    split; [done|]. apply left_is in E; [counted; lia | apply Hr | done].
  - settle. exists ids. split; [done|]. by eapply named_params.
  - settle.
Qed.
End Literals.
#[export] Hint Resolve gives_identifier gives_boolean gives_string gives_unterminated gives_float gives_integer
  gives_refuseParameter gives_parameters : gives.

(* ------------------------------------------------------------------ *)
(** ** Forms

    Over an expression parser and a block parser that give the grammar at some
    nesting depth. *)

Section Forms.
Context `{Unicode}.
Context (D : nat) (parseExpression : Z -> PM expr) (parseBlockStatement : PM block).
Context (HE : forall prec p, depth p = D -> gives (cleanb expr_ok) (parseExpression prec) p).
Context (HB : forall p, depth p = D -> gives (cleanb block_ok) parseBlockStatement p).
Hint Resolve HE HB : gives.
Local Notation parses m := (forall p, depth p = D -> gives (cleanb expr_ok) m p).

Lemma spelled_name tok s : spelled tok -> spelling (Type_ tok) = Some s -> nameOf tok = s.
Proof. unfold spelled. by intros Hs E; rewrite E in Hs. Qed.

Lemma gives_prefixExpression p :
  depth p = D -> Type_ (curToken p) ∈ [BANG; MINUS; TILDE] ->
  gives (cleanb expr_ok) (parsePrefixExpression parseExpression) p.
Proof.
  intros Hd Ht. apply gives_ready. intros [_ _ _ [Hs _] _ _]. unfold parsePrefixExpression. steps. settle.
  cbn. rewrite Hg1, andb_true_r. apply bool_decide_eq_true.
  assert (exists s, spelling (Type_ (curToken p)) = Some s /\ s ∈ prefix_operators) as (s & E & Hin).
  { set_unfold in Ht. destruct Ht as [->|[->|[->|[]]]]; eexists; (split; [done|]); set_solver. }
  by rewrite (spelled_name _ _ Hs E).
Qed.

Lemma gives_grouped : parses (parseGroupedExpression parseExpression).
Proof. intros p Hd. unfold parseGroupedExpression. steps; settle. done. Qed.

(** A left operand that is one of the grammar, if nothing was reported. *)
Local Notation operand left p := (clean (fun e => expr_ok e = true) left p).

Lemma gives_infixExpression left p :
  depth p = D -> operand left p ->
  (exists s, spelling (Type_ (curToken p)) = Some s /\ s ∈ infix_operators) ->
  gives (cleanb expr_ok) (parseInfixExpression parseExpression left) p.
Proof.
  intros Hd Hl (s & E & Hin). apply gives_ready. intros [_ _ _ [Hs _] _ _]. unfold parseInfixExpression. steps. settle.
  cbn. rewrite Hl, Hg1, andb_true_r. apply bool_decide_eq_true. by rewrite (spelled_name _ _ Hs E).
Qed.

Lemma forallb_snoc {A} (f : A -> bool) l a : forallb f (l ++ [a]) = forallb f l && f a.
Proof. rewrite forallb_app. simpl. by rewrite andb_true_r. Qed.

Lemma reported_dirty n p : (n <? length (errors p))%nat = true -> errors p <> [].
Proof. intros Hl%Nat.ltb_lt E. rewrite E in Hl. simpl in Hl. lia. Qed.

Lemma gives_expressionList end_ p :
  depth p = D -> gives (cleanb (forallb expr_ok)) (parseExpressionList parseExpression end_) p.
Proof.
  intros Hd. unfold parseExpressionList. steps. destruct (is_type _ _); steps; [done|].
  apply (gives_loop (cleanb (forallb expr_ok))); [done|]. intros l q Hq Hl. tracked. steps.
  unfold is_type. case_bool_decide as Ee; steps; [done|]. apply left_cur in Ee.
  set (l' := match a0 with Missing => l | _ => l ++ [a0] end).
  assert (Hl' : clean (fun l => forallb expr_ok l = true) l' p1).
  { settle. subst l'. destruct a0; [done|]. rewrite forallb_snoc. by rewrite Hl, Hg0. }
  clearbody l'. case_bool_decide as Ec; steps.
  { split; [settle; done|]. counted. lia. }
  case_bool_decide as Ek; steps; [settle; done|].
  destruct (_ <? _)%nat eqn:Er; cbn [andb]; steps.
  - apply reported_dirty in Er. case_bool_decide; steps; [settle|].
    case_bool_decide; steps; [split; [settle|counted; lia] | settle].
  - case_bool_decide; steps; [split; [settle|counted; lia] | settle].
Qed.
Hint Resolve gives_expressionList : gives.

Lemma gives_call left p : depth p = D -> operand left p -> gives (cleanb expr_ok) (parseCallExpression parseExpression left) p.
Proof. intros Hd Hl. unfold parseCallExpression. steps. settle. cbn. by rewrite Hl, Hg0. Qed.

Lemma gives_index left p : depth p = D -> operand left p -> gives (cleanb expr_ok) (parseIndexExpression parseExpression left) p.
Proof. intros Hd Hl. unfold parseIndexExpression. steps; settle. cbn. by rewrite Hl, Hg1. Qed.

Lemma gives_field left p : depth p = D -> operand left p -> gives (cleanb expr_ok) (parseFieldExpression left) p.
Proof. intros Hd Hl. unfold parseFieldExpression. steps; settle. by cbn. Qed.

Lemma gives_assignment op left p :
  depth p = D -> operand left p -> (forall t, op t ∈ assign_operators) ->
  gives (cleanb expr_ok) (parseAssignment parseExpression op left) p.
Proof.
  intros Hd Hl Ho. unfold parseAssignment. destruct (assignable left) eqn:Ea; steps; settle. cbn.
  rewrite Ea, Hl, Hg1, bool_decide_eq_true_2 by done. done.
Qed.

Lemma base_operators t : compoundAssignBaseOperator t ∈ assign_operators.
Proof. unfold assign_operators. destruct t; cbn; set_solver. Qed.

Lemma gives_incdec left p : depth p = D -> operand left p -> gives (cleanb expr_ok) (parsePostfixIncDecExpression left) p.
Proof.
  intros Hd Hl. unfold parsePostfixIncDecExpression. destruct (assignable left) eqn:Ea; steps; settle. cbn.
  rewrite Ea, Hl. by destruct (is_type _ _).
Qed.

(** Going on in a brace list, or stopping. *)
Lemma gives_resume {A R} (a : A) (r : R) p :
  errors p <> [] -> gives (fun x q => errors q <> [] /\ match x with inl a' => a' = a | inr r' => r' = r end) (resume a r) p.
Proof.
  intros He. unfold resume, resynchronize. steps.
  assert (errors p0 <> []) by (intros C; by apply He, (clean_before p p0)). by case_bool_decide; steps.
Qed.

Lemma gives_after_entry {A R} (a : A) (r : R) p :
  gives (fun x q => match x with inl a' => a' = a | inr r' => r' = r /\ errors q <> [] end) (after_entry a r) p.
Proof.
  unfold after_entry. steps. destruct (is_type _ _); steps; [done..|].
  eapply gives_mono; [by apply gives_resume|]. by intros [] q _ [? ?].
Qed.

(** A turn that resynchronises keeps what was collected. *)
Lemma turn_resume {A R} (I : A -> Parser -> Prop) (g : R -> bool) (a : A) (r : R) p0 p :
  errors p <> [] -> (left_ p < left_ p0)%nat -> (forall q, errors q <> [] -> I a q) ->
  gives (fun x q => match x with inl a' => I a' q /\ (left_ q < left_ p0)%nat | inr r' => cleanb g r' q end) (resume a r) p.
Proof.
  intros He Hlt HI. eapply gives_mono; [by apply gives_resume|]. intros [a'|r'] q Ha [Hq ->].
  - split; [by apply HI|]. counted. lia.
  - intros C. done.
Qed.

Lemma turn_after_entry {A R} (I : A -> Parser -> Prop) (g : R -> bool) (a : A) (r : R) p0 p :
  (left_ p < left_ p0)%nat -> (forall q, advanced p q -> I a q) ->
  gives (fun x q => match x with inl a' => I a' q /\ (left_ q < left_ p0)%nat | inr r' => cleanb g r' q end) (after_entry a r) p.
Proof.
  intros Hlt HI. eapply gives_mono; [by apply gives_after_entry|]. intros [a'|r'] q Ha.
  - intros ->. split; [by apply HI|]. counted. lia.
  - intros [-> Hq] C. done.
Qed.

Lemma missing_dirty p : operand Missing p -> errors p <> [].
Proof. intros Hm C. by specialize (Hm C). Qed.

Ltac is_dirty := match goal with
  | H : errors ?p <> [] |- errors ?p <> [] => exact H
  | H : expected _ _ false ?p |- errors ?p <> [] => exact H
  | H : clean _ Missing ?p |- errors ?p <> [] => exact (missing_dirty p H)
  end.
Ltac resumes := solve [eapply turn_resume; [is_dirty | counted; lia | by intros ? ? ?]].

Lemma gives_structLiteral left p :
  depth p = D -> operand left p -> gives (cleanb expr_ok) (parseStructLiteralExpression parseExpression left) p.
Proof.
  intros Hd Hl. destruct left as [|n []]; try by (unfold parseStructLiteralExpression; steps).
  unfold parseStructLiteralExpression. steps. set (g := forallb (fun f : string * expr => expr_ok f.2)).
  eapply (gives_bind (cleanb g)).
  - apply (gives_loop (cleanb g)); [by intros _|]. intros fields q Hq HI. tracked. steps. unfold among.
    case_bool_decide as Ee; steps; [done|].
    assert (Hpk : (1 < left_ q)%nat) by (apply left_peek; [apply Hq|]; intros E; apply Ee; rewrite E; set_solver).
    destruct (is_type _ _); steps; [destruct a3 | |]; steps; try resumes.
    eapply turn_after_entry; [counted; lia|]. intros r Hr. settle. unfold g in *. by rewrite forallb_snoc, HI.
  - intros fields q Hq Hf. steps; settle. done.
Qed.

(** The keys noted are the constant ones, last first, and each once. *)
Definition keys_noted (pairs : list (expr * expr)) (seen : list hash_tag) : Prop :=
  forallb (fun p => expr_ok p.1 && expr_ok p.2) pairs = true /\ seen = reverse (omap constantHashKey pairs.*1) /\ NoDup seen.

Lemma keys_noted_ok pairs seen :
  keys_noted pairs seen -> forallb (fun p => expr_ok p.1 && expr_ok p.2) pairs && keys_ok pairs.*1 = true.
Proof.
  intros (-> & -> & Hn). apply bool_decide_eq_true. by rewrite <- (reverse_Permutation (omap _ _)).
Qed.

Lemma gives_noteKey tok pairs seen key value p :
  clean (keys_noted pairs) seen p -> operand key p -> operand value p ->
  gives (clean (keys_noted (pairs ++ [(key, value)]))) (noteKey tok key seen) p.
Proof.
  intros Hs Hk Hv. unfold noteKey.
  assert (Hnew : forall seen', errors p = [] -> (errors p = [] -> NoDup seen') ->
    seen' = match constantHashKey key with Some tag => tag :: seen | None => seen end -> keys_noted (pairs ++ [(key, value)]) seen').
  { intros seen' C Hn ->. promised. destruct Hs as (Hs & -> & _). split.
    - rewrite forallb_snoc, Hs. simpl. by rewrite Hk, Hv.
    - split; [|by apply Hn]. rewrite fmap_app, omap_app, reverse_app. simpl. by destruct (constantHashKey key). }
  destruct (constantHashKey key) as [tag|] eqn:Et.
  - case_bool_decide as Ei; steps; [settle|]. intros C. eapply Hnew; [done|intros _|done]. apply NoDup_cons.
    split; [done|]. by apply (Hs C).
  - steps. intros C. eapply Hnew; [done|intros _; by apply (Hs C)|done].
Qed.

Lemma gives_hashLiteral : parses (parseHashLiteral parseExpression).
Proof.
  intros p Hd. unfold parseHashLiteral. steps.
  set (g := fun pairs => forallb (fun p => expr_ok p.1 && expr_ok p.2) pairs && keys_ok pairs.*1).
  eapply (gives_bind (cleanb g)).
  - apply (gives_loop (fun st => clean (fun _ => keys_noted st.1 st.2) tt)); [by intros _; split; [|split; [|constructor]]|].
    intros [pairs seen] q Hq HI. tracked. cbn [fst snd] in HI. steps. unfold among.
    case_bool_decide as Ee; steps; [intros C; by eapply keys_noted_ok, HI|].
    assert (Hpk : (1 < left_ q)%nat) by (apply left_peek; [apply Hq|]; intros E; apply Ee; rewrite E; set_solver).
    destruct a1; steps; try resumes. destruct a2; steps; try resumes.
    eapply gives_bind.
    { apply (gives_noteKey _ pairs _ _ (Expr node0 e0)); [settle; done..]. }
    intros seen' r Hr Hn. apply turn_after_entry; [counted; lia|]. intros r' Hr'. settle. done.
  - intros pairs q Hq Hf. steps; settle. done.
Qed.

Lemma gives_array : parses (parseArrayLiteral parseExpression).
Proof. intros p Hd. unfold parseArrayLiteral. steps. settle. done. Qed.

Lemma gives_callable make :
  (forall params b, expression_ok (make params b) = params_ok params && block_ok b) ->
  parses (parseCallable parseBlockStatement make).
Proof.
  intros Hm p Hd. unfold parseCallable. steps; settle. cbn. rewrite Hm. destruct Hg1 as (ids & -> & Hi). cbn.
  by rewrite Hi, Hg3.
Qed.

(** A token that is there has been counted. *)
Lemma expected_less t p q : t <> EOF -> expected t p true q -> (left_ q < left_ p)%nat.
Proof. intros Ht [Hl Hc]. assert (0 < left_ q)%nat; [apply left_cur; by rewrite Hc | lia]. Qed.

Lemma gives_if turns p : depth p = D -> (left_ p < turns)%nat ->
  gives (cleanb expr_ok) (parseIf parseExpression parseBlockStatement turns) p.
Proof.
  revert p. induction turns as [|turns IH]; intros p Hd Ht; [lia|]. cbn [parseIf]. steps; try (settle; fail).
  unfold parseElse. steps. destruct (is_type ELSE _); steps; [|settle; cbn; by rewrite Hg2, Hg5].
  destruct (is_type IF _); steps.
  - eapply gives_bind.
    { apply IH; [done|]. apply expected_less in Hg0; [|done]. counted. lia. }
    intros alt q Hq Ho. destruct alt as [|n alt]; steps; [settle; done|]. tracked.
    destruct alt; steps; settle. cbn in *. by rewrite Hg2, Hg5, Ho.
  - settle. cbn. by rewrite Hg2, Hg5, Hg8.
  - settle.
Qed.

Lemma gives_ifExpression : parses (parseIfExpression parseExpression parseBlockStatement).
Proof.
  intros p Hd Hp. assert (Ht : (left_ p < turns p)%nat) by (unfold left_, turns; repeat case_match; lia).
  exact (gives_if (turns p) p Hd Ht Hp).
Qed.

(* ------------------------------------------------------------------ *)
(** ** Match *)

Lemma gives_path start name p :
  is_type DOT (peekToken p) = true -> gives (cleanb pattern_ok) (parsePath start name) p.
Proof.
  intros Hdot. unfold parsePath. steps.
  apply (gives_loop (fun e q => cleanb path_ok e q /\ (is_type DOT (peekToken q) = true \/ cleanb pattern_ok e q)));
    [split; [done|left; by rewrite (st_peek _ _ _ Hg)]|].
  intros path q Hq [HI Hor]. steps. destruct (is_type DOT (peekToken q)) eqn:E; steps.
  - assert (1 < left_ q)%nat.
    { apply bool_decide_eq_true in E. apply left_is in E; [done | apply Hq | done]. }
    split; [|counted; lia]. split; [settle; done|right; settle; done].
  - settle.
  - by destruct Hor.
Qed.

Lemma gives_number p : Type_ (curToken p) ∈ [INT; FLOAT] -> gives (cleanb number_ok) (matchPattern cut_short) p.
Proof.
  intros Ht. unfold matchPattern. steps. set_unfold in Ht. destruct Ht as [->|[->|[]]]; [apply gives_integer | apply gives_float].
Qed.

Lemma gives_matchPattern p : gives (cleanb pattern_ok) parseMatchPattern p.
Proof.
  apply gives_ready. intros [_ _ _ [Hs _] _ _]. unfold parseMatchPattern, matchPattern at 1. steps.
  destruct (Type_ (curToken p)) eqn:Et; steps; try (settle; fail).
  - destruct (is_type DOT _) eqn:Ed; steps; [by apply gives_path | settle].
  - eapply gives_imp; [apply number_pattern | apply gives_integer].
  - eapply gives_imp; [apply number_pattern | apply gives_float].
  - apply gives_string.
  - unfold among. case_bool_decide as Ei; steps; [|settle].
    eapply gives_bind; [apply gives_number; by rewrite (proj2 Hg)|]. intros right q Hq Hr. destruct right as [|n e]; steps.
    + settle. done.
    + settle. cbn [pattern_ok]. rewrite Hr, andb_true_r. apply bool_decide_eq_true. apply (spelled_name _ _ Hs). by rewrite Et.
  - apply gives_boolean.
  - apply gives_boolean.
Qed.
Hint Resolve gives_matchPattern : gives.

Lemma gives_matchPatterns p :
  gives (clean (fun r => exists l, r = Some l /\ forallb pattern_ok l = true)) parseMatchPatterns p.
Proof.
  unfold parseMatchPatterns. steps. destruct (_ && _); steps; [intros _; by exists []|].
  apply (gives_loop (cleanb (forallb pattern_ok))); [done|]. intros l q Hq HI. steps.
  destruct a as [|n e]; steps; [settle; done|].
  assert (Hl : forall r, advanced p0 r -> clean (fun l => forallb pattern_ok l = true) (l ++ [Expr n e]) r).
  { intros r Hr. settle. by rewrite forallb_snoc, HI, Hg. }
  unfold is_type. case_bool_decide as E; steps.
  - split; [settle; by apply (Hl p2); [eapply advanced_trans|]|].
    apply left_is in E; [counted; lia|apply Ha|done].
  - intros C. eexists. split; [done|]. apply (Hl p0); [by apply advanced_refl, Ha | done].
Qed.
Hint Resolve gives_matchPatterns : gives.

Definition arm_ok (a : list expr * block) : bool := forallb pattern_ok a.1 && block_ok a.2.

Lemma gives_matchArm p :
  depth p = D -> gives (clean (fun r => exists a, r = Some a /\ arm_ok a = true))
    (parseMatchArm parseExpression parseBlockStatement) p.
Proof.
  intros Hd. unfold parseMatchArm. steps. destruct a0 as [patterns|]; steps; [|absent|absent].
  - destruct (is_type LBRACE _); steps.
    + settle. destruct Hg0 as (l & [= ->] & Hl). eexists. split; [done|]. unfold arm_ok. cbn. by rewrite Hl, Hg3.
    + destruct a1 as [|n e]; steps; [settle; done|]. settle. destruct Hg0 as (l & [= ->] & Hl). eexists.
      split; [done|]. unfold arm_ok. cbn in *. by rewrite Hl, Hg3.
Qed.
Hint Resolve gives_matchArm : gives.

Lemma gives_matchArms p :
  depth p = D -> gives (clean (fun r => exists l, r = Some l /\ forallb arm_ok l = true))
    (parseMatchArms parseExpression parseBlockStatement) p.
Proof.
  intros Hd. unfold parseMatchArms. apply (gives_loop (cleanb (forallb arm_ok))); [done|].
  intros arms q Hq HI. tracked. steps. case_bool_decide as E1; steps; [intros C; eexists; split; [done|by apply HI]|].
  case_bool_decide as E2; steps; [settle|]. apply left_peek in E2; [|apply Hq].
  destruct a0 as [arm|]; steps; [|absent].
  assert (Hl : forall r, advanced p1 r -> clean (fun l => forallb arm_ok l = true) (arms ++ [arm]) r).
  { intros r Hr. settle. destruct Hg0 as (a' & [= <-] & Ha'). by rewrite forallb_snoc, HI, Ha'. }
  case_bool_decide; steps; [split; [by apply Hl | counted; lia]|]. case_bool_decide; steps; [settle|].
  case_bool_decide; steps; [|settle]. split; [apply Hl, advanced_refl, Ha0 | counted; lia].
Qed.
Hint Resolve gives_matchArms : gives.

Lemma gives_matchExpression : parses (parseMatchExpression parseExpression parseBlockStatement).
Proof.
  intros p Hd. unfold parseMatchExpression. steps; try (settle; fail). destruct a1 as [|n e]; steps; try (settle; done).
  destruct a1 as [arms|]; steps; try (absent). case_bool_decide as En; steps; [settle|].
  settle. destruct Hg5 as (l & [= <-] & Hl). cbn [expr_ok expression_ok]. cbn in Hg2.
  rewrite Hg2, bool_decide_eq_false_2 by done. done.
Qed.

(* ------------------------------------------------------------------ *)
(** ** Templates *)

Lemma NewParser_ready lx node : cursor_ok lx -> ready (NewParser lx node).
Proof.
  intros Hok. unfold NewParser. pose proof (NextToken_spec lx Hok) as H1. destruct (NextToken lx) as [l1 t1].
  destruct H1 as (Hok1 & Ei1 & Hs1 & Ht1). pose proof (NextToken_spec l1 Hok1) as H2.
  destruct (NextToken l1) as [l2 t2]. destruct H2 as (Hok2 & Ei2 & Hs2 & Ht2).
  pose proof (cur_in _ Hok2). rewrite Ei2 in *. split; cbn; try done.
  - intros E. destruct Ht1 as [[_ Hp]|[? _]]; [|done]. destruct Ht2 as [[? _]|[_ Hlt]]; [done|]. rewrite Ei1 in *. lia.
  - intros E. destruct Ht2 as [[_ ?]|[? _]]; [|done]. by rewrite Ei2.
Qed.

Lemma gives_nested {A} (G : A -> Parser -> Prop) sub m p :
  ready sub -> nextNode sub = nextNode p -> gives G m sub ->
  gives (fun r _ => G r.1 r.2 /\ ready r.2) (nested sub m) p.
Proof.
  intros Hsub En Hm Hp. destruct (Hm Hsub) as (a & sub' & E & Ha & HG). unfold nested. rewrite E. do 2 eexists.
  split; [done|]. split; [|split; [done|apply Ha]]. destruct Ha as [_ _ _ _ _ Hn]. destruct Hp.
  split; cbn; [by split|done..|lia].
Qed.

Lemma gives_adopt sub p : ready sub -> gives (fun _ q => errors q = [] -> errors sub = []) (adopt sub) p.
Proof.
  intros Hs. apply gives_modify. intros Hp. cbn. repeat (split; [done|]). split; [by apply prefix_app_r|].
  split; [|split].
  - rewrite !app_nil. split; intros [C1 C2].
    + apply fmap_nil_inv in C2. by rewrite <- (rd_paired p Hp), <- (rd_paired sub Hs).
    + rewrite (rd_paired p Hp). by rewrite (proj2 (rd_paired sub Hs) C2).
  - intros Hr C. apply app_nil in C as [C _]. by apply (rd_reported p Hp).
  - intros C. apply app_nil in C as [_ C]. by apply fmap_nil_inv in C.
Qed.

Lemma gives_hole part : parses (parseHole parseExpression part).
Proof.
  intros p Hd. unfold parseHole. case_bool_decide; steps; [settle|].
  set (sub := with_depths _ _ _ _). destruct (statementKeyword _); steps; [settle|].
  assert (Hsub : ready sub).
  { destruct (NewParser_ready (NewAt (Text part) (part_Start part)) (nextNode p) (NewAt_ok _ _)). by split. }
  assert (Ens : nextNode sub = nextNode p).
  { subst sub. unfold NewParser. by destruct (NextToken _) as [l1 ?], (NextToken l1). }
  eapply gives_bind; [apply (gives_nested (cleanb expr_ok)); [done..|by apply HE]|].
  intros [e sub'] q Hq [Ho Hs']. cbn [fst snd] in *. destruct e as [|n e]; steps.
  - eapply gives_bind; [by apply gives_adopt|]. intros ? r Hr Hc. steps. settle. by apply Ho, Hc.
  - destruct (is_type EOF _); steps.
    + eapply gives_bind; [by apply gives_adopt|]. intros ? r Hr Hc. eapply gives_bind.
      { apply (gives_modify any). intros []. cbn. repeat (split; [done|]). done. }
      intros ? r' Hr' _. steps. settle. by apply Ho, Hc.
    + eapply gives_bind; [by apply gives_adopt|]. intros ? r Hr Hc. steps. settle.
Qed.
Hint Resolve gives_hole : gives.

Lemma length_extend texts more n : length texts = S n -> length (extend_last texts more) = S n.
Proof.
  intros El. unfold extend_last. rewrite length_app, removelast_firstn_len, firstn_length. simpl. lia.
Qed.

Lemma gives_parts parts texts holes p :
  depth p = D -> length texts = S (length holes) -> clean (fun l => forallb expr_ok l = true) holes p ->
  gives (clean (fun r => length r.1 = S (length r.2) /\ forallb expr_ok r.2 = true)) (parseParts parseExpression parts texts holes) p.
Proof.
  revert texts holes p. induction parts as [|part parts IH]; intros texts holes p Hd El Hh; cbn [parseParts]; steps.
  { intros C. split; [done | by apply Hh]. }
  destruct (Expression part); cbn [negb]; [|apply IH; [done|by apply length_extend|done]].
  steps. destruct a as [|n e]; steps.
  - apply IH; [done..|settle; done].
  - apply IH; [done|rewrite !length_app; simpl; lia|]. settle. by rewrite forallb_snoc, Hh, Hg.
Qed.

Lemma gives_template : parses (parseTemplateLiteral parseExpression).
Proof.
  intros p Hd. unfold parseTemplateLiteral. steps. eapply gives_bind; [by apply gives_parts|].
  intros [texts holes] q Hq Hr. steps. settle. cbn [fst snd] in *. destruct Hr as [El Hf].
  cbn. by rewrite El, Nat.eqb_refl.
Qed.

(* ------------------------------------------------------------------ *)
(** ** Statements *)

(** A statement, when nothing was reported; only [;] gives none. *)
Definition some_ok (top : bool) (s : option statement) : bool :=
  match s with Some s => statement_ok top s | None => false end.
Definition opt_ok (top : bool) (s : option statement) : bool :=
  match s with Some s => statement_ok top s | None => true end.

Lemma statement_top s : statement_ok false s = true -> statement_ok true s = true.
Proof. by destruct s as [? []]. Qed.

Lemma some_opt top s : some_ok false s = true -> opt_ok top s = true.
Proof. destruct s as [s|]; [|done]. cbn. destruct top; [apply statement_top | done]. Qed.

Local Notation makes m := (forall p, depth p = D -> gives (cleanb (some_ok false)) m p).

Lemma gives_finish n start s p : clean (fun s => stmt_ok false s = true) s p -> gives (cleanb (some_ok false)) (finish n start s) p.
Proof. intros Hs. unfold finish. steps. settle. by apply Hs. Qed.

Lemma gives_keyword s : stmt_ok false s = true -> makes (parseKeywordStatement s).
Proof. intros Hs p Hd. unfold parseKeywordStatement. steps. apply gives_finish. by intros _. Qed.

Lemma gives_expressionStatement : makes (parseExpressionStatement parseExpression).
Proof. intros p Hd. unfold parseExpressionStatement. steps. apply gives_finish. settle. done. Qed.

Lemma gives_import p : gives (cleanb (opt_ok (blockDepth p =? 0)%nat)) parseImportStatement p.
Proof.
  unfold parseImportStatement. steps. destruct (Nat.ltb_spec 0 (blockDepth p)) as [Hb|Hb]; steps; [settle|].
  assert (blockDepth p = 0%nat) as -> by lia. unfold finish.
  destruct (is_type IDENT _); steps; (case_bool_decide; steps; [done|settle]).
Qed.

Lemma gives_while : makes (parseWhileStatement parseExpression parseBlockStatement).
Proof.
  intros p Hd. unfold parseWhileStatement. steps; try (settle; fail). destruct (is_type RPAREN _); steps; try (settle; fail).
  apply gives_finish. settle. cbn. by rewrite Hg2, Hg5.
Qed.

Lemma gives_forInNames p : gives (clean (fun r => r <> None)) parseForInNames p.
Proof. unfold parseForInNames. steps. destruct (is_type COMMA _); steps; settle; done. Qed.
Hint Resolve gives_forInNames : gives.

Lemma gives_forIn start : makes (parseForInStatement parseExpression parseBlockStatement start).
Proof.
  intros p Hd. unfold parseForInStatement. steps. destruct a0 as [[key value]|]; steps; try (settle; done).
  destruct (is_type RPAREN _); steps; try (settle; fail). apply gives_finish. settle. cbn. by rewrite Hg3, Hg6.
Qed.

Lemma gives_letNames p : gives (clean (fun r => exists l, r = Some l /\ l <> [])) parseLetNames p.
Proof.
  unfold parseLetNames. steps. apply (gives_loop (fun l _ => l <> [])); [done|]. intros l q Hq HI. steps.
  unfold is_type. case_bool_decide as E; steps.
  - split; [apply app_one|]. apply left_is in E; [counted; lia | apply Hq | done].
  - settle.
  - intros _. by exists l.
Qed.
Hint Resolve gives_letNames : gives.

Lemma name_function_ok names e : expr_ok (name_function names e) = expr_ok e.
Proof. destruct e as [|n []]; try done. by destruct names. Qed.

Lemma gives_let : makes (parseLetStatement parseExpression).
Proof.
  intros p Hd. unfold parseLetStatement. steps; try (settle; fail). destruct a0 as [names|]; steps; try (absent).
  apply gives_finish. settle. destruct Hg1 as (l & [= <-] & Hl). cbn.
  by rewrite bool_decide_eq_false_2, name_function_ok by done.
Qed.
Hint Resolve gives_let gives_expressionStatement : gives.

Lemma gives_forSection delimiter p : depth p = D ->
  gives (clean (fun r => r.2 = true /\ match r.1 with Some e => expr_ok e = true | None => True end))
    (parseForSection parseExpression delimiter) p.
Proof. intros Hd. unfold parseForSection. steps. destruct (is_type _ _); steps; [done| |]; settle; done. Qed.
Hint Resolve gives_forSection : gives.

(** What the first section may be. *)
Lemma gives_forInit p : depth p = D ->
  gives (clean (fun i => match i with Some s => statement_ok false s = true | None => True end))
    (match Type_ (curToken p) with
     | SEMICOLON => mret None
     | LET => parseLetStatement parseExpression
     | _ => parseExpressionStatement parseExpression
     end) p.
Proof.
  intros Hd. assert (Hw : forall m, gives (cleanb (some_ok false)) m p ->
    gives (clean (fun i => match i with Some s => statement_ok false s = true | None => True end)) m p).
  { intros m Hm. eapply gives_mono; [exact Hm|]. intros [] q _ K C; [by apply K | done]. }
  destruct (Type_ (curToken p)); steps; try (by intros _); apply Hw; eauto with gives.
Qed.

Lemma gives_for start : makes (parseForStatement parseExpression parseBlockStatement start).
Proof.
  intros p Hd. unfold parseForStatement. steps. eapply gives_bind; [by apply gives_forInit|].
  intros init q Hq Hi. tracked. steps. case_bool_decide; steps; [|settle].
  destruct a1 as [condition []]; steps; [|absent].
  match goal with r : option expr * bool |- _ => destruct r as [post []] end; steps; try (absent).
  apply gives_finish. settle. cbn in *. destruct Hg1 as [_ Hc], Hg3 as [_ Hp]. rewrite Hg5.
  destruct init, condition, post; cbn in *; by rewrite ?Hi, ?Hc, ?Hp.
Qed.

Lemma gives_forOrForIn : makes (parseForOrForIn parseExpression parseBlockStatement).
Proof.
  intros p Hd. unfold parseForOrForIn. steps; [|settle]. destruct (_ && _); [by apply gives_forIn | by apply gives_for].
Qed.

Lemma gives_members a b p : gives (clean (fun r => r <> None)) (parseMembers a b) p.
Proof.
  unfold parseMembers. apply (gives_loop any); [done|]. intros l q Hq _. steps.
  destruct (is_type RBRACE _); steps; [by intros _|]. case_bool_decide as E; steps; [|settle].
  assert (0 < left_ p0)%nat by (apply left_cur; by rewrite E).
  destruct (among _ _); steps; [split; [done|counted; lia]|]. case_bool_decide; steps; [split; [done|counted; lia]|settle].
Qed.
Hint Resolve gives_members : gives.

Lemma gives_declaration make a b :
  (forall name l, stmt_ok false (make name l) = true) -> makes (parseDeclaration make a b).
Proof.
  intros Hm p Hd. unfold parseDeclaration. steps; try (settle; fail). destruct a2 as [l|]; steps; try (settle; done).
  destruct (is_type SEMICOLON _); steps; apply gives_finish; by intros _.
Qed.

Lemma gives_return : makes (parseReturnStatement parseExpression).
Proof.
  intros p Hd. unfold parseReturnStatement. steps. destruct (is_type SEMICOLON _); steps; [by apply gives_finish; intros _|].
  eapply (gives_bind (cleanb (forallb expr_ok))).
  - apply (gives_loop (cleanb (forallb expr_ok))).
    { settle. destruct a1; [done|]. simpl in *. by rewrite Hg1. }
    intros values q Hq HI. tracked. steps. unfold is_type. case_bool_decide as E; steps; [|done]. split.
    + settle. destruct a4; [done|]. by rewrite forallb_snoc, HI, Hg4.
    + apply left_is in E; [counted; lia | apply Hq | done].
  - intros values q Hq Hv. steps. apply gives_finish. settle. done.
Qed.

Lemma gives_statement p :
  depth p = D -> gives (cleanb (opt_ok (blockDepth p =? 0)%nat)) (parseStatement parseExpression parseBlockStatement) p.
Proof.
  intros Hd. assert (Hw : forall m, gives (cleanb (some_ok false)) m p -> gives (cleanb (opt_ok (blockDepth p =? 0)%nat)) m p).
  { intros m Hm. eapply gives_mono; [exact Hm|]. intros s q _ K C. by apply some_opt, K. }
  unfold parseStatement, recordRedundantSemicolon. steps.
  destruct (Type_ (curToken p)); steps; first [done | apply gives_import | apply Hw; eauto using gives_return, gives_while,
    gives_forOrForIn, gives_keyword, gives_declaration with gives].
Qed.

Lemma append_ok top l s :
  forallb (statement_ok top) l = true -> opt_ok top s = true -> forallb (statement_ok top) (l ++ shouldAppendStatement s) = true.
Proof.
  intros Hl Hs. destruct s as [[n s]|]; cbn [shouldAppendStatement]; [|by rewrite app_nil_r].
  assert (Hadd : forallb (statement_ok top) (l ++ [Stmt n s]) = true) by (by rewrite forallb_snoc, Hl).
  destruct s as [| |[|] | | | | | | | | |]; done.
Qed.

Lemma gives_next top l p :
  depth p = D -> (blockDepth p =? 0)%nat = top -> clean (fun l => forallb (statement_ok top) l = true) l p ->
  gives (fun l' q => cleanb (forallb (statement_ok top)) l' q /\ (left_ q <= pred (left_ p))%nat)
    (parseNext parseExpression parseBlockStatement l) p.
Proof.
  intros Hd Ht Hl. unfold parseNext. steps. eapply gives_bind; [by apply gives_statement|]. rewrite Ht.
  intros s q Hq Hs. steps. destruct (_ <? _)%nat; steps; (split; [settle; by apply append_ok | counted; lia]).
Qed.

(* ------------------------------------------------------------------ *)
(** ** Dispatch *)

Lemma path_expr e : path_ok e = true -> expr_ok e = true.
Proof.
  revert e. fix IH 1. intros [|n []]; try done. cbn [path_ok expr_ok expression_ok]. apply IH.
Qed.

Lemma pattern_expr e : pattern_ok e = true -> expr_ok e = true.
Proof.
  destruct e as [|n []]; try done; cbn [pattern_ok expr_ok expression_ok].
  - intros [Ho Hr]%andb_true_iff. apply bool_decide_eq_true in Ho as ->. by rewrite (number_expr _ Hr).
  - apply path_expr.
Qed.

Lemma gives_prefix p prefix :
  depth p = D -> prefixParseFn parseExpression parseBlockStatement (Type_ (curToken p)) = Some prefix ->
  gives (cleanb expr_ok) prefix p.
Proof.
  intros Hd. destruct (Type_ (curToken p)) eqn:Et; cbn; try done; intros [= <-];
    try (apply gives_prefixExpression; [done|rewrite Et; set_solver]).
  - apply gives_unterminated.
  - apply gives_identifier.
  - eapply gives_imp; [apply number_expr | apply gives_integer].
  - eapply gives_imp; [apply number_expr | apply gives_float].
  - eapply gives_imp; [apply pattern_expr | apply gives_string].
  - by apply gives_template.
  - by apply gives_grouped.
  - by apply gives_hashLiteral.
  - by apply gives_array.
  - by apply gives_callable.
  - eapply gives_imp; [apply pattern_expr | apply gives_boolean].
  - eapply gives_imp; [apply pattern_expr | apply gives_boolean].
  - by apply gives_ifExpression.
  - by apply gives_callable.
  - by apply gives_matchExpression.
Qed.

Lemma gives_infix left p infix :
  depth p = D -> operand left p -> infixParseFn parseExpression (Type_ (curToken p)) = Some infix ->
  gives (cleanb expr_ok) (infix left) p.
Proof.
  intros Hd Hl. destruct (Type_ (curToken p)) eqn:Et; cbn; try done; intros [= <-];
    try (apply gives_infixExpression; [done..|rewrite Et; eexists; split; [done|set_solver]]);
    try (apply gives_assignment; [done..|intros; apply base_operators]).
  - apply gives_assignment; [done..|intros; set_solver].
  - by apply gives_field.
  - by apply gives_incdec.
  - by apply gives_incdec.
  - by apply gives_call.
  - by apply gives_structLiteral.
  - by apply gives_index.
Qed.

Lemma gives_expressionBody prec : parses (expressionBody parseExpression parseBlockStatement prec).
Proof.
  intros p Hd. unfold expressionBody. steps. destruct (prefixParseFn _ _ _) as [prefix|] eqn:Ep; steps; [|settle].
  eapply gives_bind; [by eapply gives_prefix|]. intros left q Hq Hl. tracked.
  apply (gives_loop (cleanb expr_ok)); [done|]. intros left' r Hr Hl'. tracked. unfold infixTurn. steps.
  destruct (_ || _); steps; [done|]. destruct (infixParseFn _ _) as [infix|] eqn:Ei; steps; [|done].
  assert (Hpk : (1 < left_ r)%nat).
  { apply left_peek; [apply Hr|]. intros E. by rewrite E in Ei. }
  eapply gives_bind; [eapply gives_infix; [done|settle; done|by rewrite (proj2 Hg)]|].
  intros left'' s Hs Hl''. steps. split; [done|]. counted. lia.
Qed.

Lemma gives_blockBody n opening p :
  depth p = D -> (0 < blockDepth p)%nat ->
  gives (cleanb block_ok) (blockBody parseExpression parseBlockStatement n opening) p.
Proof.
  intros Hd Hb. unfold blockBody. steps. eapply (gives_bind (cleanb (forallb (statement_ok false)))).
  - apply (gives_loop (cleanb (forallb (statement_ok false)))); [done|]. intros l q Hq HI. tracked. steps.
    unfold among. case_bool_decide as E; steps; [done|].
    eapply gives_bind; [apply (gives_next false); [done| |done]|].
    { rewrite (av_block _ _ Hq), (av_block _ _ Ha). apply Nat.eqb_neq. lia. }
    intros l' r Hr [Hl Hlt]. steps. split; [done|].
    assert (0 < left_ q)%nat; [|lia]. apply left_cur. intros He. apply E. rewrite He. set_solver.
  - intros l q Hq Hl. steps. destruct (is_type EOF _); steps; settle. done.
Qed.
End Forms.

(* ------------------------------------------------------------------ *)
(** ** Nesting *)

Section Knot.
Context `{Unicode}.

Lemma ready_depths b d r p : ready p -> (r = true -> errors p <> []) -> ready (with_depths b d r p).
Proof. intros [] Hr. by split. Qed.

(** What happens inside a level happens to the parser around it. *)
Lemma advanced_back b d p q :
  advanced (with_depths b d (depthReported p) p) q ->
  advanced p (with_depths (blockDepth p) (depth p) (depthReported q) q).
Proof. intros [Hr Hl He _ _ Hn]. split; [by apply ready_depths; [|apply Hr]|done..]. Qed.

Lemma appendError_depths tok msg b d r p :
  appendError tok msg (with_depths b d r p) =
  match appendError tok msg p with Some (u, q) => Some (u, with_depths b d r q) | None => None end.
Proof.
  unfold appendError, modify. cbn [with_depths errors].
  by destruct (maxParseErrors <=? length (errors p))%nat, (length (errors p) =? maxParseErrors)%nat.
Qed.

(** The two answers of [enterNesting]. *)
Lemma enter_refused p :
  ready p -> (maxNestingDepth <= depth p)%nat ->
  exists p', enterNesting p = Some (false, p') /\ advanced p p' /\ errors p' <> [].
Proof.
  intros Hp Hd. unfold enterNesting, mbind, PM_bind, gets. rewrite (proj2 (Nat.leb_le _ _) Hd).
  destruct (depthReported p) eqn:Er.
  - exists p. split; [done|]. split; [by apply advanced_refl | by apply (rd_reported p Hp)].
  - set (msg := TooDeep (Line (Start (curToken p))) (Column (Start (curToken p)))).
    destruct (gives_appendError (curToken p) msg p Hp) as ([] & q & E & Ha & He).
    exists (with_depths (blockDepth p) (depth p) true q). split; [|split; [|done]].
    + transitivity (match appendError (curToken p) msg (with_depths (blockDepth p) (depth p) true p) with
                    | Some (_, q) => Some (false, q) | None => None end); [done|].
      by rewrite appendError_depths, E.
    + destruct Ha. split; [by apply ready_depths|done..].
Qed.

Lemma enter_granted p :
  (depth p < maxNestingDepth)%nat ->
  enterNesting p = Some (true, with_depths (blockDepth p) (S (depth p)) (depthReported p) p).
Proof. intros Hd. unfold enterNesting, mbind, PM_bind, gets. by rewrite (proj2 (Nat.leb_gt _ _) Hd). Qed.

(** A body run one level down, and the level closed. *)
Lemma closing_level {A} (g : A -> Prop) (m : PM A) p :
  ready p -> gives (clean g) m (with_depths (blockDepth p) (S (depth p)) (depthReported p) p) ->
  exists a q, closing m leaveNesting (with_depths (blockDepth p) (S (depth p)) (depthReported p) p) = Some (a, q) /\
    advanced p q /\ clean g a q.
Proof.
  intros Hp Hm. destruct Hm as (a & q & E & Ha & Hg); [apply ready_depths; [done|apply (rd_reported p Hp)]|].
  exists a, (with_depths (blockDepth p) (depth p) (depthReported q) q). split; [|split; [by eapply advanced_back|done]].
  unfold closing, leaveNesting, mbind, PM_bind, modify, mret, PM_ret. rewrite E.
  rewrite (av_depth _ _ Ha), (av_block _ _ Ha). cbn. by rewrite Nat.sub_0_r.
Qed.

Lemma parseExpression_eq n prec p :
  parseExpression n prec p =
  match enterNesting p with
  | Some (true, q) =>
      match n with
      | O => None
      | S n => closing (expressionBody (parseExpression n) (parseBlockStatement n) prec) leaveNesting q
      end
  | Some (false, q) => Some (Missing, q)
  | None => None
  end.
Proof. destruct n; cbn; unfold mbind, PM_bind; by destruct (enterNesting p) as [[[] ?]|]. Qed.

(** The block around its nesting: [m] is what runs when the level is granted. *)
Definition blockAround (m : nat -> Token -> PM block) : PM block :=
  opening ← gets curToken;
  n ← alloc;
  enterBlock;;
  open ← enterNesting;
  closing (if negb open then consumeRest;; recordRange n (Start opening);; mret (Block n []) else m n opening) leaveBlock.

Lemma parseBlockStatement_eq n :
  parseBlockStatement n = blockAround (fun node opening =>
    match n with
    | O => cut_short
    | S n => closing (blockBody (parseExpression n) (parseBlockStatement n) node opening) leaveNesting
    end).
Proof. by destruct n. Qed.

Lemma gives_blockAround m p :
  (forall n opening q, ready q -> (depth q < maxNestingDepth)%nat -> depth q = depth p -> (0 < blockDepth q)%nat ->
     exists a q', m n opening (with_depths (blockDepth q) (S (depth q)) (depthReported q) q) = Some (a, q') /\
       advanced q q' /\ cleanb block_ok a q') ->
  gives (cleanb block_ok) (blockAround m) p.
Proof.
  intros Hm. unfold blockAround. apply gives_gets. eapply gives_bind; [apply gives_alloc|]. intros n q Hq _ Hrd.
  set (q1 := with_depths (S (blockDepth q)) (depth q) (depthReported q) q).
  assert (Hr1 : ready q1) by (apply ready_depths; [done | apply (rd_reported q Hrd)]).
  assert (Hin : exists a q2, (open ← enterNesting;
    (if negb open then consumeRest;; recordRange n (Start (curToken p));; mret (Block n []) else m n (curToken p))) q1
    = Some (a, q2) /\ advanced q1 q2 /\ cleanb block_ok a q2).
  { unfold mbind at 1, PM_bind. destruct (le_lt_dec maxNestingDepth (depth q1)) as [Hge|Hlt].
    - destruct (enter_refused q1 Hr1 Hge) as (q2 & E & Ha & He). rewrite E. cbn [negb].
      assert (Hc : gives (cleanb block_ok) (consumeRest;; recordRange n (Start (curToken p));; mret (Block n [])) q2).
      { steps. settle. }
      destruct (Hc (av_ready _ _ Ha)) as (a & q3 & E3 & Ha3 & Hg3). exists a, q3. split; [done|].
      split; [by eapply advanced_trans | done].
    - rewrite (enter_granted q1 Hlt). cbn [negb]. apply Hm; [done|done| |cbn; lia]. apply (av_depth _ _ Hq). }
  destruct Hin as (a & q2 & E & Ha & Hg). exists a, (with_depths (blockDepth q) (depth q) (depthReported q2) q2).
  split; [|split; [by eapply advanced_back | done]].
  revert E. unfold enterBlock, closing, leaveBlock, mbind, PM_bind, modify, mret, PM_ret. fold q1.
  destruct (enterNesting q1) as [[open q3]|]; [|done]. intros ->.
  rewrite (av_depth _ _ Ha), (av_block _ _ Ha). cbn. by rewrite Nat.sub_0_r.
Qed.

Lemma gives_levels n :
  (forall prec p, (maxNestingDepth <= depth p + n)%nat -> gives (cleanb expr_ok) (parseExpression n prec) p) /\
  (forall p, (maxNestingDepth <= depth p + n)%nat -> gives (cleanb block_ok) (parseBlockStatement n) p).
Proof.
  induction n as [|n [IHe IHb]]; split.
  - intros prec p Hd Hp. rewrite Nat.add_0_r in Hd. destruct (enter_refused p Hp Hd) as (q & E & Ha & He).
    exists Missing, q. rewrite parseExpression_eq, E. split; [done|]. split; [done|]. by intros C.
  - intros p Hd. rewrite parseBlockStatement_eq. apply gives_blockAround. intros; lia.
  - intros prec p Hd Hp. rewrite parseExpression_eq.
    destruct (le_lt_dec maxNestingDepth (depth p)) as [Hge|Hlt].
    + destruct (enter_refused p Hp Hge) as (q & E & Ha & He). exists Missing, q. rewrite E. split; [done|].
      split; [done|]. by intros C.
    + rewrite (enter_granted p Hlt). apply closing_level; [done|].
      apply (gives_expressionBody (S (depth p))); [| |done]; intros; [apply IHe | apply IHb]; lia.
  - intros p Hd. rewrite parseBlockStatement_eq. apply gives_blockAround. intros node opening q Hq Hlt Eq Hb.
    apply closing_level; [done|].
    apply (gives_blockBody (S (depth q))); [| |done|done]; intros; [apply IHe | apply IHb]; lia.
Qed.

Definition grammatical (p : source) : bool := forallb (statement_ok true) (s_Statements p).

Lemma gives_program p : depth p = 0%nat -> blockDepth p = 0%nat -> gives (cleanb grammatical) ParseProgram p.
Proof.
  intros Hd Hb. unfold ParseProgram. destruct (gives_levels maxNestingDepth) as [He Hbl].
  eapply (gives_bind (cleanb (forallb (statement_ok true)))).
  - apply (gives_loop (cleanb (forallb (statement_ok true)))); [done|]. intros l q Hq HI. steps.
    unfold is_type. case_bool_decide as E; steps; [done|]. apply left_cur in E.
    eapply gives_bind; [apply (gives_next 0) with (top := true)|].
    + intros prec r Hr. apply He. lia.
    + intros r Hr. apply Hbl. lia.
    + by rewrite (av_depth _ _ Hq).
    + by rewrite (av_block _ _ Hq), Hb.
    + done.
    + intros l' r Hr [Hl Hlt]. steps. split; [done | lia].
  - intros l q Hq Hl Hp. exists (Source l (nodeRanges q) ∅ (comments (p_l q)) (parenthesized q)), q.
    split; [done|]. split; [by apply advanced_refl | done].
Qed.

Lemma NewParser_depths lx n : depth (NewParser lx n) = 0%nat /\ blockDepth (NewParser lx n) = 0%nat.
Proof. unfold NewParser. by destruct (NextToken lx) as [l1 ?], (NextToken l1). Qed.

Lemma gives_parse text :
  exists p q, parse text = Some (p, q) /\ advanced (NewParser (New text) 0) q /\ (errors q = [] -> grammatical p = true).
Proof.
  destruct (NewParser_depths (New text) 0) as [Hd Hb].
  destruct (gives_program _ Hd Hb (NewParser_ready _ _ (NewAt_ok _ _))) as (p & q & E & Ha & Hg). by exists p, q.
Qed.
End Knot.
