(* ===== verification/Pratt.v ===== *)
(** * Precedence and associativity

    The reference is a printer: an operator tree is written with brackets
    exactly where the table of precedences asks for them ([print]).  Parsing
    what it writes gives the tree back.  Binary operators associate to the left,
    assignments to the right, and postfix forms bind tighter than prefix ones. *)

From stdpp Require Import base list list_numbers numbers gmap sets strings relations.
From Stdlib Require Import ZArith Lia.
From S2P Require Import Prelude Text Lexer Paths Module Float64 Ast Parser ParserLogic ParserFacts.

(* ------------------------------------------------------------------ *)
(** ** Operator trees *)

Inductive tree : Type :=
| Leaf (x : string)
| Un (o : TokenType) (u : tree)
| Bin (a : tree) (o : TokenType) (b : tree)
| Idx (a i : tree)
| Fld (a : tree) (x : string)
| Asg (a : tree) (o : TokenType) (v : tree).

Definition is_prefix (o : TokenType) : bool := among [BANG; MINUS; TILDE] o.
Definition is_binary (o : TokenType) : bool :=
  among [PLUS; MINUS; FSLASH; ASTERISK; EQUALITY; INEQUALITY; LT; GT; LTE; GTE; MODULO; AND; OR; AMPERSAND; PIPE; CARET;
         SHL; SHR] o.
Definition is_assign (o : TokenType) : bool :=
  among [ASSIGN; PLUS_ASSIGN; MINUS_ASSIGN; ASTERISK_ASSIGN; SLASH_ASSIGN; MODULO_ASSIGN; AND_ASSIGN; OR_ASSIGN;
         XOR_ASSIGN; SHL_ASSIGN; SHR_ASSIGN] o.

(** The operators are operators, and an assignment has a place to assign to. *)
Fixpoint tree_ok (t : tree) : bool :=
  match t with
  | Leaf _ => true
  | Un o u => is_prefix o && tree_ok u
  | Bin a o b => tree_ok a && is_binary o && tree_ok b
  | Idx a i => tree_ok a && tree_ok i
  | Fld a _ => tree_ok a
  | Asg a o v =>
      match a with Leaf _ | Idx _ _ | Fld _ _ => true | _ => false end && tree_ok a && is_assign o && tree_ok v
  end.

(** A tree may be written bare where operators above [p] bind, when [p] is less
    than its [level]; an operator may follow it bare, when it binds no tighter
    than its [hold]. *)
Definition level (t : tree) : Z :=
  match t with
  | Leaf _ | Un _ _ => FIELD + 1
  | Bin _ o _ | Asg _ o _ => Precedence o
  | Idx _ _ | Fld _ _ => INDEX
  end.

Definition hold (t : tree) : Z :=
  match t with
  | Leaf _ | Idx _ _ | Fld _ _ => FIELD
  | Un _ _ => PREFIX
  | Bin _ o _ => Precedence o
  | Asg _ _ _ => LOWEST
  end.

(** An operand's levels, with or without brackets. *)
Definition operand (bracketed : bool) (n : nat) : nat := if bracketed then S n else n.

(** The levels of nesting a tree takes, counted as the parser counts them: one
    for the expression, one more inside every bracket, index, prefix operand and
    right operand.  A left operand adds none: it is read by the loop of its
    level, however long the chain. *)
Fixpoint inner (t : tree) : nat :=
  match t with
  | Leaf _ => 0
  | Un _ u => S (operand (level u <=? PREFIX) (inner u))
  | Bin a o b =>
      Nat.max (operand (hold a <? Precedence o) (inner a)) (S (operand (level b <=? Precedence o) (inner b)))
  | Idx a i => Nat.max (operand (hold a <? INDEX) (inner a)) (S (inner i))
  | Fld a _ => operand (hold a <? FIELD) (inner a)
  | Asg a _ v => Nat.max (inner a) (S (inner v))
  end.

Definition nesting (t : tree) : nat := S (inner t).

(** [x + x + ... + x], of [n] operators. *)
Fixpoint sum_of (n : nat) : tree := match n with O => Leaf "x" | S n => Bin (sum_of n) PLUS (Leaf "x") end.

Example long_sums_are_flat n : (nesting (sum_of n) <= 2)%nat.
Proof. unfold nesting. induction n as [|[|n] IH]; simpl in *; lia. Qed.

(** A token, as far as the trees go. *)
Inductive lexeme : Type :=
| Name (x : string)
| Sym (t : TokenType).

Definition wrap (bracketed : bool) (ls : list lexeme) : list lexeme :=
  if bracketed then Sym LPAREN :: ls ++ [Sym RPAREN] else ls.

(** The least brackets. *)
Fixpoint print (t : tree) : list lexeme :=
  match t with
  | Leaf x => [Name x]
  | Un o u => Sym o :: wrap (level u <=? PREFIX) (print u)
  | Bin a o b => wrap (hold a <? Precedence o) (print a) ++ Sym o :: wrap (level b <=? Precedence o) (print b)
  | Idx a i => wrap (hold a <? INDEX) (print a) ++ Sym LSQUARE :: print i ++ [Sym RSQUARE]
  | Fld a x => wrap (hold a <? FIELD) (print a) ++ [Sym DOT; Name x]
  | Asg a o v => print a ++ Sym o :: print v
  end.

(** The expression a tree stands for, whatever its pointers. *)
Fixpoint denotes (t : tree) (e : expr) : bool :=
  match t, e with
  | Leaf x, Expr _ (Identifier y) => bool_decide (x = y)
  | Un o u, Expr _ (PrefixExpression s r) => bool_decide (spelling o = Some s) && denotes u r
  | Bin a o b, Expr _ (InfixExpression l s r) => denotes a l && bool_decide (spelling o = Some s) && denotes b r
  | Idx a i, Expr _ (IndexExpression l r) => denotes a l && denotes i r
  | Fld a x, Expr _ (FieldExpression l y) => denotes a l && bool_decide (x = y)
  | Asg a o v, Expr _ (AssignExpression l s r) =>
      denotes a l && bool_decide (s = compoundAssignBaseOperator o) && denotes v r
  | _, _ => false
  end.

(** What a token and a parser have in front of them. *)
Definition shows (tok : Token) (x : lexeme) : bool :=
  match x with
  | Name x => is_type IDENT tok && bool_decide (nameOf tok = x)
  | Sym t => is_type t tok
  end.

Section Reading.
Context `{Unicode}.

Fixpoint yields (lx : Lexer) (ls : list lexeme) : bool :=
  match ls with
  | [] => true
  | x :: ls => shows (NextToken lx).2 x && yields (NextToken lx).1 ls
  end.

Definition ahead (p : Parser) (ls : list lexeme) : bool :=
  match ls with
  | [] => true
  | [x] => shows (curToken p) x
  | x :: y :: ls => shows (curToken p) x && shows (peekToken p) y && yields (p_l p) ls
  end.

Lemma ahead_cur p x ls : ahead p (x :: ls) = true -> shows (curToken p) x = true.
Proof. destruct ls as [|y ls]; [done|]. cbn. by intros [[? _]%andb_true_iff _]%andb_true_iff. Qed.

Lemma ahead_peek p x y ls : ahead p (x :: y :: ls) = true -> shows (peekToken p) y = true.
Proof. cbn. by intros [[_ ?]%andb_true_iff _]%andb_true_iff. Qed.

Lemma gives_read p x ls :
  ls <> [] -> ahead p (x :: ls) = true -> gives (fun _ q => ahead q ls = true /\ errors q = errors p) nextToken p.
Proof.
  intros Hne Ha Hp. destruct (gives_nextToken p Hp) as ([] & q & E & Hadv & _). exists tt, q.
  split; [done|]. split; [done|]. destruct ls as [|y ls]; [done|]. cbn in Ha. rewrite !andb_true_iff in Ha.
  destruct Ha as [[_ Hy] Hl]. unfold nextToken in E. destruct (NextToken (p_l p)) as [l' tok] eqn:En.
  simplify_eq/=. split; [|done]. destruct ls as [|z ls]; [done|]. cbn in Hl. rewrite En in Hl. cbn in Hl.
  apply andb_true_iff in Hl as [Hz Hl]. by rewrite Hy, Hz, Hl.
Qed.

Lemma ahead_stays {A} p (a : A) q ls : stays p a q -> ahead q ls = ahead p ls.
Proof. intros []. unfold ahead. by rewrite st_cur, st_peek, st_lexer. Qed.
End Reading.

(* ------------------------------------------------------------------ *)
(** ** Reading a tree back *)

(** Arithmetic on precedences. *)
Ltac precs := unfold LOWEST, ASSIGNMENT, LOGIC_OR, LOGIC_AND, EQUALS, LESSGREATER, SUM, PRODUCT, PREFIX, CALL, INDEX,
  FIELD in *; lia.

(** The depth is the one at the start. *)
Ltac same_depth := unfold nesting in *; repeat match goal with A : advanced ?p ?q |- _ => rewrite (av_depth p q A); clear A end; lia.

Section RoundTrip.
Context `{Unicode}.

Definition lexeme_type (x : lexeme) : TokenType := match x with Name _ => IDENT | Sym t => t end.

Lemma shows_type tok x : shows tok x = true -> Type_ tok = lexeme_type x.
Proof. destruct x; cbn; [intros [E _]%andb_true_iff | intros E]; by apply bool_decide_eq_true in E. Qed.

(** [e] is the tree, and the parser is on its last token. *)
Definition reads (t : tree) (tail : list lexeme) (p : Parser) (e : expr) (q : Parser) : Prop :=
  denotes t e = true /\ errors q = errors p /\ exists x, ahead q (x :: tail) = true.

Section Levels.
Context (n : nat).
Local Notation E := (parseExpression n).
Local Notation B := (parseBlockStatement n).

Definition turns_to (prec : Z) (x y : expr * Parser) : Prop := infixTurn E prec x.1 x.2 = Some (inl y.1, y.2).

Lemma iterate_from {A R} (body : A -> PM (A + R)) (x y : A * Parser) r q :
  rtc (fun x y => body x.1 x.2 = Some (inl y.1, y.2)) x y -> body y.1 y.2 = Some (inr r, q) ->
  forall k R0, iterate k body x.1 x.2 = Some R0 -> R0 = (r, q).
Proof.
  intros Hs Hd. induction Hs as [x|x z y Hxz _ IH]; intros [|k] R0; cbn [iterate]; try done; unfold mbind at 1, PM_bind.
  - rewrite Hd. by intros [= <-].
  - rewrite Hxz. by apply IH.
Qed.

(** What the parser does at the start of a level: a prefix form, then turns of the
    loop. *)
Definition chain (prec : Z) (t : tree) (tail : list lexeme) (p : Parser) : Prop :=
  exists fn left q0 e q, prefixParseFn E B (Type_ (curToken p)) = Some fn /\ fn p = Some (left, q0) /\
    rtc (turns_to prec) (left, q0) (e, q) /\ advanced p q /\ reads t tail p e q.

(** A chain is an expression when what follows binds no tighter than the
    context. *)
Lemma chain_stops prec t r0 rest p :
  ready p -> (maxNestingDepth <= depth p + n)%nat -> Precedence (lexeme_type r0) <= prec ->
  chain prec t (r0 :: rest) p -> gives (reads t (r0 :: rest) p) (expressionBody E B prec) p.
Proof.
  intros Hp Hn Hprec (fn & left & q0 & e & q & Ef & El & Hs & Ha & Hr) _. exists e, q. split; [|done].
  destruct (gives_levels n) as [He Hb].
  destruct (gives_expressionBody (depth p) E B) with (prec := prec) (p := p) as (e' & q' & Eb & _);
    [intros; apply He; lia | intros; apply Hb; lia | done | done |].
  rewrite Eb. f_equal. revert Eb. unfold expressionBody, mbind, PM_bind, curType, gets. rewrite Ef, El. unfold loop.
  apply (iterate_from (infixTurn E prec) (left, q0) (e, q)); [done|].
  destruct Hr as (_ & _ & x & Hx). apply ahead_peek, shows_type in Hx.
  unfold infixTurn, mbind, PM_bind, peekType, gets. cbn [fst snd]. rewrite Hx.
  rewrite (proj2 (Z.ltb_ge _ _) Hprec), orb_true_r. done.
Qed.

(** Once a form has been read, nothing more of the level. *)
Lemma chain_prefix prec t tail p fn :
  prefixParseFn E B (Type_ (curToken p)) = Some fn -> ready p -> gives (reads t tail p) fn p -> chain prec t tail p.
Proof.
  intros Ef Hp Hg. destruct (Hg Hp) as (e & q & Em & Ha & Hr). exists fn, e, q, e, q. split; [done|]. split; [done|].
  split; [apply rtc_refl|]. done.
Qed.

(** One more turn. *)
Lemma chain_turn prec a t p o tail tail' infix :
  chain prec a (Sym o :: tail) p -> o <> SEMICOLON -> prec < Precedence o -> infixParseFn E o = Some infix ->
  tail <> [] ->
  (forall left q, advanced p q -> errors q = errors p -> denotes a left = true -> Type_ (curToken q) = o ->
     ahead q (Sym o :: tail) = true -> gives (reads t tail' q) (infix left) q) ->
  chain prec t tail' p.
Proof.
  intros (fn & left & q0 & e & q & Ef & El & Hs & Ha & Hd & Ee & x & Hx) Ho Hlt Ei Hne Hi.
  pose proof (ahead_peek _ _ _ _ Hx) as Hk%shows_type. cbn [lexeme_type] in Hk.
  destruct (gives_read q x (Sym o :: tail)) as ([] & q1 & E1 & Ha1 & Hx1 & Ee1); [done|done|apply Ha|].
  assert (Hc1 : Type_ (curToken q1) = o) by (by apply ahead_cur, shows_type in Hx1).
  destruct (Hi e q1) as (e' & q2 & E2 & Ha2 & Hd2 & Ee2 & y & Hy); [by eapply advanced_trans|congruence|done..|apply Ha1|].
  exists fn, left, q0, e', q2. split; [done|]. split; [done|]. split; [|split].
  - eapply rtc_r; [exact Hs|]. unfold turns_to, infixTurn, mbind, PM_bind, peekType, gets. cbn [fst snd]. rewrite Hk.
    rewrite bool_decide_eq_false_2, (proj2 (Z.ltb_lt _ _) Hlt), Ei by done.
    cbn beta iota delta [orb negb]. by rewrite E1, E2.
  - eapply advanced_trans; [exact Ha|]. by eapply advanced_trans.
  - split; [done|]. split; [congruence | by exists y].
Qed.

(** Reading past a token, and past bookkeeping. *)
Lemma gives_bind_read {A} (G : A -> Parser -> Prop) (k : unit -> PM A) p x ls :
  ls <> [] -> ahead p (x :: ls) = true ->
  (forall q, advanced p q -> ahead q ls = true -> errors q = errors p -> gives G (k tt) q) -> gives G (nextToken ≫= k) p.
Proof.
  intros Hne Ha Hk. eapply gives_bind; [by eapply gives_read|]. intros [] q Hq [Hx He]. by apply Hk.
Qed.

Lemma gives_bind_stays {A C} (G : C -> Parser -> Prop) (m : PM A) (k : A -> PM C) p ls :
  gives (stays p) m p -> ahead p ls = true ->
  (forall a q, advanced p q -> ahead q ls = true -> errors q = errors p -> curToken q = curToken p -> gives G (k a) q) ->
  gives G (m ≫= k) p.
Proof.
  intros Hm Ha Hk. eapply gives_bind; [exact Hm|]. intros a q Hq Hs. apply Hk; [done| |apply Hs|apply Hs].
  by rewrite (ahead_stays p a).
Qed.

Lemma gives_bind_expect {A} (G : A -> Parser -> Prop) (k : bool -> PM A) p x y ls :
  ahead p (x :: y :: ls) = true ->
  (forall q, advanced p q -> ahead q (y :: ls) = true -> errors q = errors p -> gives G (k true) q) ->
  gives G (expectPeek (lexeme_type y) ≫= k) p.
Proof.
  intros Ha Hk. unfold expectPeek. apply gives_assoc. apply gives_gets. pose proof (ahead_peek _ _ _ _ Ha) as Hy%shows_type.
  unfold is_type. rewrite bool_decide_eq_true_2 by done. apply gives_assoc.
  apply (gives_bind_read _ _ _ x (y :: ls)); [done|done|]. intros. apply gives_pure. by apply Hk.
Qed.

End Levels.

(** Every tree, bare, at the start of a level. *)
Definition starts (t : tree) : Prop := forall n prec r0 rest p,
  tree_ok t = true -> LOWEST <= prec < level t -> prec <= PREFIX -> Precedence (lexeme_type r0) <= hold t ->
  ready p -> (maxNestingDepth <= depth p + n)%nat -> (depth p + inner t <= maxNestingDepth)%nat ->
  ahead p (print t ++ r0 :: rest) = true -> chain n prec t (r0 :: rest) p.

(** A level around a chain. *)
Lemma level_around n prec t r0 rest p :
  Precedence (lexeme_type r0) <= prec -> (depth p < maxNestingDepth)%nat -> (maxNestingDepth <= depth p + n)%nat ->
  (forall m q, n = S m -> ready q -> depth q = S (depth p) -> errors q = errors p ->
     (forall ls, ahead q ls = ahead p ls) -> chain m prec t (r0 :: rest) q) ->
  gives (reads t (r0 :: rest) p) (parseExpression n prec) p.
Proof.
  intros Hr Hd Hn Hc Hp. destruct n as [|m]; [lia|]. rewrite parseExpression_eq, (enter_granted p Hd).
  set (q := with_depths (blockDepth p) (S (depth p)) (depthReported p) p).
  assert (Hq : ready q) by (apply ready_depths; [done | apply (rd_reported p Hp)]).
  assert (Hb : gives (reads t (r0 :: rest) q) (expressionBody (parseExpression m) (parseBlockStatement m) prec) q).
  { apply chain_stops; [done|cbn; lia|done|]. by apply Hc. }
  destruct (Hb Hq) as (e & q' & E & Ha & Hd' & He & x & Hx).
  exists e, (with_depths (blockDepth p) (depth p) (depthReported q') q'). split; [|split; [by eapply advanced_back|]].
  - unfold closing, leaveNesting, mbind, PM_bind, modify, mret, PM_ret. rewrite E.
    rewrite (av_depth _ _ Ha), (av_block _ _ Ha). cbn. by rewrite Nat.sub_0_r.
  - split; [done|]. split; [done|]. exists x. exact Hx.
Qed.

Lemma starts_expressed n prec t r0 rest p :
  starts t -> tree_ok t = true -> LOWEST <= prec < level t -> prec <= PREFIX ->
  Precedence (lexeme_type r0) <= hold t -> Precedence (lexeme_type r0) <= prec ->
  (maxNestingDepth <= depth p + n)%nat -> (depth p + nesting t <= maxNestingDepth)%nat ->
  ahead p (print t ++ r0 :: rest) = true -> gives (reads t (r0 :: rest) p) (parseExpression n prec) p.
Proof.
  intros Ht Hok Hl Hpx Hh Hr Hn Hd Hx. unfold nesting in Hd.
  apply level_around; [done|lia|done|]. intros m q -> Hq Ed Ee Eq. apply Ht; try done; [lia|lia|]. by rewrite Eq.
Qed.

Lemma binary_prec o : is_binary o = true -> LOGIC_OR <= Precedence o <= PRODUCT /\ o <> SEMICOLON.
Proof. destruct o; vm_compute; intros; try done; repeat split; done. Qed.

Lemma assign_prec o : is_assign o = true -> Precedence o = ASSIGNMENT /\ o <> SEMICOLON.
Proof. by destruct o. Qed.

Lemma tree_bounds t : tree_ok t = true -> LOWEST < level t /\ LOWEST <= hold t.
Proof.
  destruct t; cbn [tree_ok level hold]; try (intros _; precs).
  - intros [[_ Ho]%andb_true_iff _]%andb_true_iff. apply binary_prec in Ho. precs.
  - rewrite !andb_true_iff. intros [[_ Ho] _]. apply assign_prec in Ho. precs.
Qed.

Lemma tail_ne (ls : list lexeme) r0 rest : ls ++ r0 :: rest <> [].
Proof. by intros [_ ?]%app_nil. Qed.

(** A tree in brackets is a prefix form. *)
Lemma bracketed n t r0 rest p :
  starts t -> tree_ok t = true -> (maxNestingDepth <= depth p + n)%nat ->
  (depth p + nesting t <= maxNestingDepth)%nat ->
  ahead p (wrap true (print t) ++ r0 :: rest) = true ->
  gives (reads t (r0 :: rest) p) (parseGroupedExpression (parseExpression n)) p.
Proof.
  intros Ht Hok Hn Hd Hx. cbn [wrap app] in Hx. rewrite <- app_assoc in Hx. cbn [app] in Hx.
  destruct (tree_bounds t Hok) as [Hlv Hho].
  unfold parseGroupedExpression. eapply gives_bind_read; [|exact Hx|]; [apply tail_ne|].
  intros q Hq Hx1 Ee1. eapply gives_bind.
  { apply (starts_expressed n LOWEST t (Sym RPAREN) (r0 :: rest)); [done|done|precs|precs|exact Hho|cbn; precs| | |exact Hx1]; rewrite (av_depth _ _ Hq); lia. }
  intros e q1 Hq1 (Hde & Ee2 & x & Hx2). apply (gives_bind_expect _ _ _ x (Sym RPAREN)) with (ls := r0 :: rest); [done|].
  intros q2 Hq2 Hx3 Ee3. eapply gives_bind_stays; [apply gives_markParenthesized|exact Hx3|].
  intros ? q3 Hq3 Hx4 Ee4 _. apply gives_ret. split; [done|]. split; [congruence | by eexists].
Qed.

(** An operand, in brackets or bare, at the start of a level and on its own. *)
Lemma operand_starts b t n prec r0 rest p :
  starts t -> tree_ok t = true -> LOWEST <= prec -> prec <= PREFIX ->
  (b = false -> prec < level t /\ Precedence (lexeme_type r0) <= hold t) ->
  ready p -> (maxNestingDepth <= depth p + n)%nat -> (depth p + operand b (inner t) <= maxNestingDepth)%nat ->
  ahead p (wrap b (print t) ++ r0 :: rest) = true -> chain n prec t (r0 :: rest) p.
Proof.
  intros Ht Hok Hl Hpx Hb Hp Hn Hd Hx. destruct b.
  - eapply chain_prefix; [|done|by apply bracketed]. cbn [wrap app] in Hx. apply ahead_cur, shows_type in Hx.
    by rewrite Hx.
  - destruct (Hb eq_refl). by apply Ht.
Qed.

Lemma operand_expressed b t n prec r0 rest p :
  starts t -> tree_ok t = true -> LOWEST <= prec -> prec <= PREFIX ->
  (b = false -> prec < level t /\ Precedence (lexeme_type r0) <= hold t) ->
  Precedence (lexeme_type r0) <= prec ->
  (maxNestingDepth <= depth p + n)%nat -> (S (depth p) + operand b (inner t) <= maxNestingDepth)%nat ->
  ahead p (wrap b (print t) ++ r0 :: rest) = true -> gives (reads t (r0 :: rest) p) (parseExpression n prec) p.
Proof.
  intros Ht Hok Hl Hpx Hb Hr Hn Hd Hx. apply level_around; [done|lia|done|]. intros m q -> Hq Ed Ee Eq.
  apply (operand_starts b); try done; [lia|lia|]. by rewrite Eq.
Qed.

Lemma starts_leaf x : starts (Leaf x).
Proof.
  intros n prec r0 rest p _ _ _ _ Hp _ _ Hx. pose proof (ahead_cur _ _ _ Hx) as Hc.
  eapply chain_prefix; [by rewrite (shows_type _ _ Hc)|done|].
  unfold parseIdentifier, literal. do 2 apply gives_gets. eapply gives_bind_stays; [apply gives_located|exact Hx|].
  intros a q Hq Hx1 Ee _. apply gives_ret. split; [|split; [done|by exists (Name x)]].
  cbn in *. apply andb_true_iff in Hc as [_ Hc]. apply bool_decide_eq_true in Hc. by apply bool_decide_eq_true.
Qed.

(** Which operands may be written bare. *)
Lemma bare_right prec c t :
  tree_ok t = true -> ASSIGNMENT <= prec -> prec < level t -> c <= prec -> c <= PREFIX -> c <= hold t.
Proof.
  destruct t; cbn [tree_ok level hold]; try (intros; precs). rewrite !andb_true_iff. intros [[_ Ho] _].
  apply assign_prec in Ho as [-> _]. lia.
Qed.

Lemma bare_left prec c t : LOWEST <= prec -> prec < c -> c <= hold t -> prec <= PREFIX -> prec < level t.
Proof. destruct t; cbn [level hold]; intros; precs. Qed.

Lemma starts_un o u : starts u -> starts (Un o u).
Proof.
  intros Hu n prec r0 rest p [Ho Hok]%andb_true_iff _ Hpx Hh Hp Hn Hd Hx. cbn [print app] in Hx.
  pose proof (ahead_cur _ _ _ Hx) as Hc%shows_type. cbn [lexeme_type] in Hc.
  assert (Hs : exists s, spelling o = Some s) by (destruct o; try done; eauto).
  destruct Hs as [s Es]. pose proof (proj1 (rd_spelled p Hp)) as Hsp.
  apply (chain_prefix n prec _ _ p (parsePrefixExpression (parseExpression n))); [rewrite Hc; by destruct o|done|].
  unfold parsePrefixExpression. do 2 apply gives_gets.
  eapply gives_bind_stays; [apply gives_alloc|exact Hx|]. intros a q Hq Hx1 Ee1 _.
  eapply gives_bind_read; [|exact Hx1|]; [apply tail_ne|]. intros q1 Hq1 Hx2 Ee2.
  eapply gives_bind.
  { apply (operand_expressed (level u <=? PREFIX) u n PREFIX r0 rest); [done|done|precs|precs| |done| | |exact Hx2].
    - intros Hl%Z.leb_gt. split; [done|]. apply (bare_right PREFIX); [done|precs|done..].
    - same_depth.
    - cbn [inner] in Hd. same_depth. }
  intros e q2 Hq2 (Hde & Ee3 & x & Hx3).
  eapply gives_bind_stays; [apply gives_recordRange|exact Hx3|]. intros ? q3 Hq3 Hx4 Ee4 _. apply gives_ret.
  split; [|split; [congruence|by exists x]]. cbn. rewrite Hde, andb_true_r. apply bool_decide_eq_true.
  rewrite Es. f_equal. symmetry. apply spelled_name; [done|]. by rewrite Hc.
Qed.

(** The operands on the left: the tree so far, and what a turn makes of it. *)
Lemma starts_bin a o b : starts a -> starts b -> starts (Bin a o b).
Proof.
  intros Ha Hb n prec r0 rest p Hok Hl Hpx Hh Hp Hn Hd Hx. cbn [tree_ok] in Hok. rewrite !andb_true_iff in Hok.
  destruct Hok as [[Hoka Ho] Hokb]. cbn [level hold inner] in *. destruct (binary_prec o Ho) as [Hop Hos].
  cbn [print] in Hx. rewrite <- app_assoc in Hx. cbn [app] in Hx.
  set (tail := wrap _ (print b) ++ r0 :: rest) in Hx.
  assert (Hs : exists s, spelling o = Some s) by (destruct o; try done; eauto). destruct Hs as [s Es].
  eapply (chain_turn n prec a _ p o tail _ (parseInfixExpression (parseExpression n))); [| |lia|by destruct o| |].
  - apply (operand_starts (hold a <? Precedence o)); [done|done|lia|done| |done|done|lia|exact Hx].
    intros Hw%Z.ltb_ge. split; [|done]. apply (bare_left prec (Precedence o)); lia.
  - done.
  - apply tail_ne.
  - intros left q Hq Ee Hda Hc Hxq. unfold parseInfixExpression. apply gives_ready. intros Hrd.
    pose proof (proj1 (rd_spelled q Hrd)) as Hsp. do 2 apply gives_gets.
    eapply gives_bind_stays; [apply gives_alloc|exact Hxq|]. intros a1 q1 Hq1 Hx1 Ee1 Ec1. apply gives_gets. rewrite Ec1, Hc.
    eapply gives_bind_read; [|exact Hx1|]; [apply tail_ne|]. intros q2 Hq2 Hx2 Ee2.
    eapply gives_bind.
    { apply (operand_expressed (level b <=? Precedence o) b n _ r0 rest); [done|done|lia|precs| |done| | |exact Hx2].
      - intros Hw%Z.leb_gt. split; [done|]. apply (bare_right (Precedence o)); [done|precs|done|done|precs].
      - same_depth.
      - same_depth. }
    intros e q3 Hq3 (Hde & Ee3 & x & Hx3).
    eapply gives_bind_stays; [apply gives_recordRange|exact Hx3|]. intros ? q4 Hq4 Hx4 Ee4 _. apply gives_ret.
    split; [|split; [congruence|by exists x]]. cbn. rewrite Hda, Hde, andb_true_r. apply bool_decide_eq_true.
    rewrite Es. f_equal. symmetry. apply spelled_name; [done|]. by rewrite Hc.
Qed.


Lemma starts_idx a i : starts a -> starts i -> starts (Idx a i).
Proof.
  intros Ha Hi n prec r0 rest p [Hoka Hoki]%andb_true_iff Hl Hpx Hh Hp Hn Hd Hx. cbn [level hold inner] in *.
  cbn [print] in Hx. rewrite <- app_assoc in Hx. cbn [app] in Hx. rewrite <- app_assoc in Hx. cbn [app] in Hx.
  destruct (tree_bounds i Hoki) as [Hil Hih].
  eapply (chain_turn n prec a _ p LSQUARE _ _ (parseIndexExpression (parseExpression n)));
    [|done|cbn; lia|done|apply tail_ne|].
  - apply (operand_starts (hold a <? INDEX)); [done|done|lia|done| |done|done|lia|exact Hx].
    intros Hw%Z.ltb_ge. split; [|done]. apply (bare_left prec INDEX); lia.
  - intros left q Hq Ee Hda Hc Hxq. unfold parseIndexExpression. apply gives_gets.
    eapply gives_bind_stays; [apply gives_alloc|exact Hxq|]. intros a1 q1 Hq1 Hx1 Ee1 Ec1.
    eapply gives_bind_read; [|exact Hx1|]; [apply tail_ne|]. intros q2 Hq2 Hx2 Ee2. eapply gives_bind.
    { apply (starts_expressed n LOWEST i (Sym RSQUARE) (r0 :: rest)); [done|done|precs|precs|exact Hih|cbn; precs| | |exact Hx2];
        same_depth. }
    intros e q3 Hq3 (Hde & Ee3 & x & Hx3).
    apply (gives_bind_expect _ _ _ x (Sym RSQUARE)) with (ls := r0 :: rest); [done|]. intros q4 Hq4 Hx4 Ee4.
    eapply gives_bind_stays; [apply gives_recordRange|exact Hx4|]. intros ? q5 Hq5 Hx5 Ee5 _. apply gives_ret.
    split; [|split; [congruence|by eexists]]. cbn. by rewrite Hda, Hde.
Qed.

Lemma starts_fld a x : starts a -> starts (Fld a x).
Proof.
  intros Ha n prec r0 rest p Hoka Hl Hpx Hh Hp Hn Hd Hx. cbn [tree_ok level hold inner] in *.
  cbn [print] in Hx. rewrite <- app_assoc in Hx. cbn [app] in Hx.
  eapply (chain_turn n prec a _ p DOT (Name x :: r0 :: rest) _ parseFieldExpression); [|done|cbn; precs|done|done|].
  - apply (operand_starts (hold a <? FIELD)); [done|done|lia|done| |done|done|lia|exact Hx].
    intros Hw%Z.ltb_ge. split; [|done]. apply (bare_left prec FIELD); precs.
  - intros left q Hq Ee Hda Hc Hxq. unfold parseFieldExpression. apply gives_gets.
    eapply gives_bind_stays; [apply gives_alloc|exact Hxq|]. intros a1 q1 Hq1 Hx1 Ee1 Ec1.
    apply (gives_bind_expect _ _ _ (Sym DOT) (Name x)) with (ls := r0 :: rest); [done|]. intros q2 Hq2 Hx2 Ee2.
    unfold identifierHere. apply gives_assoc, gives_gets, gives_assoc, gives_gets, gives_assoc.
    eapply gives_bind_stays; [apply gives_located|exact Hx2|]. intros ? q3 Hq3 Hx3 Ee3 _. apply gives_pure.
    eapply gives_bind_stays; [apply gives_recordRange|exact Hx3|]. intros ? q4 Hq4 Hx4 Ee4 _. apply gives_ret.
    split; [|split; [congruence|by eexists]]. cbn. rewrite Hda. apply bool_decide_eq_true.
    apply ahead_cur in Hx2. cbn in Hx2. apply andb_true_iff in Hx2 as [_ Hn2]. by apply bool_decide_eq_true in Hn2.
Qed.

(** A tree that may be assigned to is an expression that may. *)
Lemma denotes_assignable a e :
  match a with Leaf _ | Idx _ _ | Fld _ _ => true | _ => false end = true -> denotes a e = true -> assignable e = true.
Proof. destruct a; try done; by destruct e as [|? []]. Qed.

Lemma starts_asg a o v : starts a -> starts v -> starts (Asg a o v).
Proof.
  intros Ha Hv n prec r0 rest p Hok Hl Hpx Hh Hp Hn Hd Hx. cbn [tree_ok] in Hok. rewrite !andb_true_iff in Hok.
  destruct Hok as [[[Hka Hoka] Ho] Hokv]. cbn [level hold inner] in *. destruct (assign_prec o Ho) as [Hop Hos].
  cbn [print] in Hx. rewrite <- app_assoc in Hx. cbn [app] in Hx. destruct (tree_bounds v Hokv) as [Hvl Hvh].
  assert (Hi : exists op, infixParseFn (parseExpression n) o = Some (parseAssignment (parseExpression n) op) /\
    op o = compoundAssignBaseOperator o) by (destruct o; try done; eexists; split; reflexivity).
  destruct Hi as (op & Hi & Eop).
  eapply (chain_turn n prec a _ p o _ _ (parseAssignment (parseExpression n) op)); [|done|lia|done|apply tail_ne|].
  - apply Ha; [done| |done| |done|done|lia|exact Hx].
    + destruct a; try done; cbn [level]; precs.
    + cbn [lexeme_type]. rewrite Hop. destruct a; try done; cbn [hold]; precs.
  - intros left q Hq Ee Hda Hc Hxq. unfold parseAssignment. rewrite (denotes_assignable a left) by done. cbn [negb].
    apply gives_gets. eapply gives_bind_stays; [apply gives_alloc|exact Hxq|]. intros a1 q1 Hq1 Hx1 Ee1 Ec1.
    apply gives_gets. apply gives_gets. rewrite Ec1, Hc, Hop.
    eapply gives_bind_read; [|exact Hx1|]; [apply tail_ne|]. intros q2 Hq2 Hx2 Ee2. eapply gives_bind.
    { apply (starts_expressed n (ASSIGNMENT - 1) v r0 rest); [done|done|precs|precs|precs|precs| | |exact Hx2]; same_depth. }
    intros e q3 Hq3 (Hde & Ee3 & x & Hx3).
    eapply gives_bind_stays; [apply gives_recordRange|exact Hx3|]. intros ? q4 Hq4 Hx4 Ee4 _. apply gives_ret.
    split; [|split; [congruence|by eexists]]. cbn. rewrite Hda, Hde, andb_true_r. by apply bool_decide_eq_true.
Qed.

Lemma all_start t : starts t.
Proof.
  induction t; auto using starts_leaf, starts_un, starts_bin, starts_idx, starts_fld, starts_asg.
Qed.
End RoundTrip.
