(* ===== verification/Parsed.v ===== *)
(** * What a parse gives

    The theorems about the parser as a whole: it ends, a parse with nothing
    reported gives a tree of the grammar, operators are read with the precedence
    the table says; and four places where it does not do what its comments say. *)

From stdpp Require Import base list list_numbers numbers gmap sets strings relations.
From Stdlib Require Import ZArith Lia.
From S2P Require Import Prelude Text Lexer Paths Module Float64 Ast Parser ParserLogic ParserFacts Pratt.

(* ------------------------------------------------------------------ *)
(** ** Chains of [else if] *)

(** [if (a) { }], and [n] times [else if (a) { }] after it. *)
Definition if_a : list lexeme := [Sym IF; Sym LPAREN; Name "a"; Sym RPAREN; Sym LBRACE; Sym RBRACE].

Fixpoint else_ifs (n : nat) : list lexeme :=
  match n with
  | O => if_a
  | S n => if_a ++ Sym ELSE :: else_ifs n
  end.

(** How many [else if]s an expression ends in. *)
Fixpoint chain_length (e : expr) : nat :=
  match e with
  | Expr _ (IfExpression _ _ (Some (Block _ [Stmt _ (ExpressionStatement e)]))) => S (chain_length e)
  | _ => 0
  end.

Definition is_if (e : expr) : bool := match e with Expr _ (IfExpression _ _ _) => true | _ => false end.

Section Chains.
Context `{Unicode}.

Lemma gives_emptyBlock n p rest :
  (0 < n)%nat -> (depth p < maxNestingDepth)%nat -> ahead p (Sym LBRACE :: Sym RBRACE :: rest) = true ->
  gives (fun _ q => errors q = errors p /\ ahead q (Sym RBRACE :: rest) = true) (parseBlockStatement n) p.
Proof.
  intros Hn Hd Hx Hp. destruct n as [|n]; [lia|].
  destruct (gives_read p (Sym LBRACE) (Sym RBRACE :: rest)) as ([] & q & E & Ha & Hq & Ee); [done|done|done|].
  pose proof (ahead_cur _ _ _ Hq) as Hc%shows_type. cbn [lexeme_type] in Hc.
  unfold nextToken in E. destruct (NextToken (p_l p)) as [l' tok] eqn:En. injection E as <-. cbn in Hc.
  cbn [parseBlockStatement]. unfold mbind, PM_bind, gets, alloc, enterBlock, modify.
  rewrite enter_granted by done. cbn [negb].
  unfold closing, blockBody, mbind, PM_bind, nextToken. cbn [p_l with_depths with_ranges peekToken]. rewrite En.
  unfold loop, turns. cbn [iterate]. unfold mbind, PM_bind, curType, gets.
  cbn [curToken with_tokens with_depths with_ranges peekToken]. rewrite Hc. cbn. change (among [RBRACE; EOF] RBRACE) with true. unfold done_, mret, PM_ret. cbn.
  unfold is_type. rewrite Hc. cbn. eexists _, _. split; [reflexivity|].
  destruct Ha as [Hr Hl He _ _ _]. split.
  - split; cbn; rewrite ?Nat.sub_0_r; try done; [|lia]. destruct Hr. by split.
  - split; [done|]. by destruct rest.
Qed.

Lemma else_ifs_head n : else_ifs n = Sym IF :: drop 1 (else_ifs n).
Proof. by destruct n. Qed.

Lemma gives_read_less {A} (G : A -> Parser -> Prop) (k : unit -> PM A) p x ls :
  ls <> [] -> ahead p (x :: ls) = true -> Type_ (curToken p) <> EOF ->
  (forall q, advanced p q -> ahead q ls = true -> errors q = errors p -> (left_ q < left_ p)%nat -> gives G (k tt) q) ->
  gives G (nextToken ≫= k) p.
Proof.
  intros Hne Hx Hc Hk Hp. apply left_cur in Hc.
  destruct (gives_nextToken p Hp) as ([] & q & E & Ha & Hl & _).
  destruct (gives_read p x ls Hne Hx Hp) as ([] & q' & E' & _ & Hx' & Ee).
  assert (q' = q) as -> by congruence. destruct (Hk q Ha Hx' Ee ltac:(lia) (av_ready _ _ Ha)) as (a & q'' & Ek & Ha' & HG). exists a, q''.
  split; [unfold mbind, PM_bind; by rewrite E|]. split; [by eapply advanced_trans | done].
Qed.

(** The [if (a) { }] at the front. *)
Lemma gives_if_a (G : expr -> Parser -> Prop) levels turns y tail p :
  (0 < levels)%nat -> (maxNestingDepth <= depth p + levels)%nat -> (S (depth p) < maxNestingDepth)%nat ->
  ahead p (if_a ++ y :: tail) = true ->
  (forall n start c b q, advanced p q -> ahead q (Sym RBRACE :: y :: tail) = true -> errors q = errors p ->
     (left_ q < left_ p)%nat ->
     gives G (parseElse (parseBlockStatement levels) (parseIf (parseExpression levels) (parseBlockStatement levels) turns)
       n start c b) q) ->
  gives G (parseIf (parseExpression levels) (parseBlockStatement levels) (S turns)) p.
Proof.
  intros Hlv Hmax Hd Hx Hk. cbn [if_a app] in Hx. cbn [parseIf]. apply gives_gets.
  eapply gives_bind_stays; [apply gives_alloc|exact Hx|]. intros node q Hq Hx1 Ee1 _.
  apply (gives_bind_expect _ _ _ _ _ _ Hx1). intros q1 Hq1 Hx2 Ee2. cbn [negb].
  eapply gives_read_less; [|exact Hx2| |]; [done|apply ahead_cur, shows_type in Hx2; by rewrite Hx2|].
  intros q2 Hq2 Hx3 Ee3 Hlt. eapply gives_bind.
  { apply (starts_expressed levels LOWEST (Leaf "a") (Sym RPAREN)); [apply all_start|done|done|done|done|done| | |exact Hx3].
    - same_depth.
    - unfold nesting. cbn [inner]. same_depth. }
  intros c q3 Hq3 (_ & Ee4 & x & Hx4).
  apply (gives_bind_expect _ _ _ _ _ _ Hx4). intros q4 Hq4 Hx5 Ee5. cbn [negb].
  apply (gives_bind_expect _ _ _ _ _ _ Hx5). intros q5 Hq5 Hx6 Ee6. cbn [negb].
  eapply gives_bind; [apply gives_emptyBlock; [done| |exact Hx6]; same_depth|].
  intros b q6 Hq6 [Ee7 Hx7]. apply Hk; [|done|congruence|counted; lia].
  do 6 (eapply advanced_trans; [eassumption|]). done.
Qed.

(** The whole chain, from the [if] the parser is on. *)
Lemma gives_else_ifs n levels turns r0 rest p :
  (left_ p < turns)%nat -> (0 < levels)%nat -> (maxNestingDepth <= depth p + levels)%nat -> (S (depth p) < maxNestingDepth)%nat ->
  lexeme_type r0 <> ELSE -> ahead p (else_ifs n ++ r0 :: rest) = true ->
  gives (fun e q => is_if e = true /\ chain_length e = n /\ errors q = errors p /\ exists x, ahead q (x :: r0 :: rest) = true)
    (parseIf (parseExpression levels) (parseBlockStatement levels) turns) p.
Proof.
  revert turns p. induction n as [|n IH]; intros turns p Ht Hlv Hmax Hd Hne Hx; (destruct turns as [|turns]; [lia|]).
  - apply (gives_if_a _ levels turns r0 rest); [done..|]. intros node start c b q Hq Hx1 Ee1 _. unfold parseElse. apply gives_gets.
    pose proof (ahead_peek _ _ _ _ Hx1) as Hk%shows_type. unfold is_type. rewrite bool_decide_eq_false_2 by congruence. cbn [negb].
    eapply gives_bind_stays; [apply gives_recordRange|exact Hx1|]. intros ? q1 Hq1 Hx2 Ee2 _. apply gives_ret.
    split; [done|]. split; [done|]. split; [congruence | by eexists].
  - cbn [else_ifs] in Hx. rewrite <- app_assoc in Hx. apply (gives_if_a _ levels turns _ _ _ Hlv Hmax Hd Hx).
    intros node start c b q Hq Hx1 Ee1 Hlt. unfold parseElse. apply gives_gets.
    pose proof (ahead_peek _ _ _ _ Hx1) as Hk%shows_type. unfold is_type at 1. rewrite bool_decide_eq_true_2 by done. cbn [negb].
    eapply gives_bind_read; [|exact Hx1|]; [done|]. intros q1 Hq1 Hx2 Ee2. apply gives_gets.
    rewrite else_ifs_head in Hx2. cbn [app] in Hx2.
    pose proof (ahead_peek _ _ _ _ Hx2) as Hk2%shows_type. unfold is_type. rewrite bool_decide_eq_true_2 by done.
    eapply gives_bind_read; [|exact Hx2|]; [done|]. intros q2 Hq2 Hx3 Ee3. eapply gives_bind.
    { apply IH; [counted; lia|done| | |done|by rewrite else_ifs_head]; same_depth. }
    intros alt q3 Hq3 (Hif & Hlen & Ee4 & x & Hx4). destruct alt as [|an []]; try done.
    eapply gives_bind_stays; [apply gives_alloc|exact Hx4|]. intros ? q4 Hq4 Hx5 Ee5 _.
    eapply gives_bind_stays; [apply gives_alloc|exact Hx5|]. intros ? q5 Hq5 Hx6 Ee6 _.
    eapply gives_bind_stays; [apply gives_recordRange|exact Hx6|]. intros ? q6 Hq6 Hx7 Ee7 _. apply gives_ret.
    split; [done|]. split; [cbn [chain_length]; f_equal; exact Hlen|]. split; [congruence | by eexists].
Qed.
End Chains.

(* ------------------------------------------------------------------ *)
(** ** Theorems *)

Section Theorems.
Context `{Unicode}.

(** C9: a parse ends.  For every text, UTF-8 or not, the parser reaches the end of
    the input: no loop goes round without reading a token, and no recursion goes
    deeper than [maxNestingDepth] levels except along [else if]s, of which there
    are no more than tokens.  The nesting counters are back at zero, and the
    errors the command line prints are none exactly when those the language server
    shows are none. *)
Theorem parsing_ends (text : list Z) :
  exists p q, parse text = Some (p, q) /\ depth q = 0%nat /\ blockDepth q = 0%nat /\
    (errors q = [] <-> typedErrors q = []).
Proof.
  destruct (gives_parse text) as (p & q & E & Ha & _). destruct (NewParser_depths (New text) 0) as [Hd Hb].
  exists p, q. split; [done|]. rewrite (av_depth _ _ Ha), (av_block _ _ Ha). split; [done|]. split; [done|].
  apply (rd_paired q), Ha.
Qed.

(** C10: a text that parses is a program of the grammar.  When nothing was reported,
    no node of the tree is missing a part, every operator is one of the
    language's, every integer literal is a 64-bit one and every float literal
    finite, assignments are to names, fields or elements, parameters and constant
    hash keys are distinct, patterns are literals or dotted names, a match has
    arms, a [let] names something, and imports are at the top level. *)
Theorem clean_parse_is_grammatical (text : list Z) (p : source) (q : Parser) :
  parse text = Some (p, q) -> errors q = [] -> grammatical p = true.
Proof.
  intros E C. destruct (gives_parse text) as (p' & q' & E' & _ & Hg). simplify_eq. by apply Hg.
Qed.

(** C8: operators are read as the table of precedences says.  An operator tree
    written with brackets only where the table asks for them, followed by a token
    that continues no expression, is read back as that tree, with nothing
    reported and the parser left on its last token, when its nesting fits what
    the parser has left of [maxNestingDepth] (1000) levels.  The nesting is the
    parser's own count: a level for the expression and one more inside every
    bracket, index, prefix operand and right operand, so a chain of left operands
    of any length takes two. *)
Theorem operators_round_trip (t : tree) (p : Parser) (r0 : lexeme) (rest : list lexeme) :
  tree_ok t = true -> ready p -> (depth p + nesting t <= maxNestingDepth)%nat ->
  Precedence (lexeme_type r0) = LOWEST -> ahead p (print t ++ r0 :: rest) = true ->
  exists e q, parseExpression maxNestingDepth LOWEST p = Some (e, q) /\ denotes t e = true /\ errors q = errors p /\
    exists x, ahead q (x :: r0 :: rest) = true.
Proof.
  intros Hok Hp Hd Hr Hx. destruct (tree_bounds t Hok) as [Hl Hh].
  destruct (starts_expressed maxNestingDepth LOWEST t r0 rest p) as (e & q & E & _ & Hde & Ee & Hx');
    [apply all_start|done|precs|precs|lia|lia|lia|done|done|done|]. by exists e, q.
Qed.

(** The nesting limit does not hold for [else if].  A chain of any length is
    read with nothing reported, one inside the other: each is a call of the
    function on itself that passes no nesting check, so the recursion is as deep
    as the source is long. *)
Theorem else_if_chains_are_not_bounded (n : nat) (p : Parser) (r0 : lexeme) (rest : list lexeme) :
  ready p -> (S (depth p) < maxNestingDepth)%nat -> lexeme_type r0 <> ELSE ->
  ahead p (else_ifs n ++ r0 :: rest) = true ->
  exists e q, parseIfExpression (parseExpression maxNestingDepth) (parseBlockStatement maxNestingDepth) p = Some (e, q) /\
    chain_length e = n /\ errors q = errors p.
Proof.
  intros Hp Hd Hr Hx. assert (Ht : (left_ p < turns p)%nat) by (unfold left_, turns; repeat case_match; lia).
  destruct (gives_else_ifs n maxNestingDepth (turns p) r0 rest p Ht ltac:(unfold maxNestingDepth; lia) ltac:(lia) Hd Hr Hx Hp)
    as (e & q & E & _ & _ & Hl & Ee & _). by exists e, q.
Qed.
End Theorems.

(* ------------------------------------------------------------------ *)
(** ** Witnesses *)

Definition parsed (text : string) : option (list statement * list message) :=
  match parse (bytes text) with
  | Some (p, q) => Some (s_Statements p, errors q)
  | None => None
  end.

Definition parse_sample : list Z :=
  bytes "let f = fn(a, _, _) { match (a) { 1 | -2 => 0, _ => a.b[1] += 2.5 } }; for (x in [f(1, 2, 3)]) { if (!x) { break; } }".

Definition the_parse (text : list Z) : source * Parser :=
  default (Source [] ∅ ∅ [] ∅, NewParser (New text) 0) (parse text).

Lemma clean_parse_is_grammatical_witness :
  errors (the_parse parse_sample).2 = [] /\ grammatical (the_parse parse_sample).1 = true.
Proof.
  split; [vm_compute; reflexivity|].
  apply (clean_parse_is_grammatical parse_sample (the_parse parse_sample).1 (the_parse parse_sample).2); vm_compute; reflexivity.
Defined.

(** [a = -b.c[d] * (e + f) << g == !h;] *)
Definition tree_sample : tree :=
  Asg (Leaf "a") ASSIGN
    (Bin (Bin (Bin (Un MINUS (Idx (Fld (Leaf "b") "c") (Leaf "d"))) ASTERISK (Bin (Leaf "e") PLUS (Leaf "f"))) SHL (Leaf "g"))
       EQUALITY (Un BANG (Leaf "h"))).

Definition tree_parser : Parser := NewParser (New (bytes "a = -b.c[d] * (e + f) << g == !h;")) 0.

Lemma sample_ready text : ready (NewParser (New text) 0).
Proof. apply NewParser_ready, NewAt_ok. Qed.

Lemma operators_round_trip_witness :
  ahead tree_parser (print tree_sample ++ [Sym SEMICOLON]) = true /\
  exists e q, parseExpression maxNestingDepth LOWEST tree_parser = Some (e, q) /\ denotes tree_sample e = true /\
    errors q = errors tree_parser /\ exists x, ahead q [x; Sym SEMICOLON] = true.
Proof.
  split; [vm_compute; reflexivity|].
  apply (operators_round_trip tree_sample tree_parser (Sym SEMICOLON) []);
    [vm_compute; reflexivity | apply sample_ready | apply Nat.leb_le; vm_compute; reflexivity | reflexivity | vm_compute; reflexivity].
Defined.

Definition else_if_parser : Parser := NewParser (New (bytes "if (a) {} else if (a) {} else if (a) {};")) 0.

Lemma else_if_chains_are_not_bounded_witness :
  ahead else_if_parser (else_ifs 2 ++ [Sym SEMICOLON]) = true /\
  exists e q, parseIfExpression (parseExpression maxNestingDepth) (parseBlockStatement maxNestingDepth) else_if_parser =
    Some (e, q) /\ chain_length e = 2%nat /\ errors q = errors else_if_parser.
Proof.
  split; [vm_compute; reflexivity|].
  apply (else_if_chains_are_not_bounded 2 else_if_parser (Sym SEMICOLON) []);
    [apply sample_ready | apply Nat.ltb_lt; vm_compute; reflexivity | done | vm_compute; reflexivity].
Defined.

(* ------------------------------------------------------------------ *)
(** ** What the parser misreads *)

(** A [{] after an expression that is no name is read and dropped: the brackets of
    this text do not match and nothing is reported. *)
Example stray_brace_is_dropped :
  parsed "let x = [1] {;" = parsed "let x = [1];" /\
  snd <$> parsed "let x = [1] {;" = Some [].
Proof. by vm_compute. Qed.

(** Recovering from an error in the last statement of a block stops at the block's
    own [}] and then reads past it: the block is reported as unclosed and the next
    statement of the file becomes part of it. *)
Example recovery_swallows_the_brace :
  match parse (bytes "fn() { ) } let g = 2;") with
  | Some (p, q) =>
      errors q = [NoPrefixFn RPAREN; UnclosedBlock 1 6] /\
      exists n e m body, s_Statements p = [Stmt n (ExpressionStatement (Expr e (FunctionLiteral "" [] (Block m [body]))))] /\
        exists k v, body = Stmt k (LetStatement ["g"%string] v)
  | None => False
  end.
Proof. vm_compute. split; [done|]. repeat eexists. Qed.

(** The note that there are too many errors is not paired with a position of its
    own: after it, a message from inside a hole puts every position one message
    early. *)
Definition crowded : list Z := concat (repeat (bytes ");") 101) ++ [cQuote; cDollar; cLBrace; 41; cRBrace; cQuote; 59].

Example hole_errors_shift_positions :
  match parse crowded with
  | Some (_, q) =>
      drop 100 (PositionedErrors q) = [(Some (Pos 1 206 205), TooManyErrors); (None, InsideHole (NoPrefixFn RPAREN))] /\
      r_Start <$> (pe_Range <$> typedErrors q !! 100%nat) = Some (Pos 1 206 205) /\
      Msg <$> typedErrors q !! 100%nat = Some (NoPrefixFn RPAREN)
  | None => False
  end.
Proof. by vm_compute. Qed.
