(* ===== verification/Sha256.v ===== *)
(** * SHA-256

    Go's [crypto/sha256], which the program uses for the identity of a buffer
    used as a hash key, for the digests of its frames and to derive the key of
    its instruction stream: FIPS 180-4, over bytes, with 32-bit words as
    integers below [2 ^ 32]. *)

From stdpp Require Import base list list_numbers numbers.
From Stdlib Require Import ZArith Lia.
From S2P Require Import Prelude.

Definition u32 (z : Z) : Z := z mod 2 ^ 32.

Definition rotr (n x : Z) : Z := Z.lor (Z.shiftr x n) (u32 (Z.shiftl x (32 - n))).
Definition xor3 (a b c : Z) : Z := Z.lxor (Z.lxor a b) c.

Definition bigSigma0 (x : Z) : Z := xor3 (rotr 2 x) (rotr 13 x) (rotr 22 x).
Definition bigSigma1 (x : Z) : Z := xor3 (rotr 6 x) (rotr 11 x) (rotr 25 x).
Definition smallSigma0 (x : Z) : Z := xor3 (rotr 7 x) (rotr 18 x) (Z.shiftr x 3).
Definition smallSigma1 (x : Z) : Z := xor3 (rotr 17 x) (rotr 19 x) (Z.shiftr x 10).
Definition choose (x y z : Z) : Z := Z.lxor (Z.land x y) (Z.land (Z.lxor x 0xFFFFFFFF) z).
Definition majority (x y z : Z) : Z := xor3 (Z.land x y) (Z.land x z) (Z.land y z).

(** The constants are the first 32 fractional bits of the cube roots of the
    first 64 primes, and of the square roots of the first eight. *)
Definition primes : list Z :=
  [2; 3; 5; 7; 11; 13; 17; 19; 23; 29; 31; 37; 41; 43; 47; 53; 59; 61; 67; 71; 73; 79; 83; 89; 97; 101;
   103; 107; 109; 113; 127; 131; 137; 139; 149; 151; 157; 163; 167; 173; 179; 181; 191; 193; 197;
   199; 211; 223; 227; 229; 233; 239; 241; 251; 257; 263; 269; 271; 277; 281; 283; 293; 307; 311].

(** The largest [r] with [r ^ 3 <= n], from its bits [k - 1 .. 0] down. *)
Fixpoint cube_root (k : nat) (n r : Z) : Z :=
  match k with
  | O => r
  | S k => let r' := r + 2 ^ Z.of_nat k in cube_root k n (if r' * r' * r' <=? n then r' else r)
  end.

Definition roundConstants : list Z :=
  Eval vm_compute in (fun p => u32 (cube_root 36 (p * 2 ^ 96) 0)) <$> primes.

Record hash_state : Type := H256 {
  h_a : Z; h_b : Z; h_c : Z; h_d : Z; h_e : Z; h_f : Z; h_g : Z; h_h : Z }.

Definition square_root_bits (p : Z) : Z := u32 (Z.sqrt (p * 2 ^ 64)).

Definition initial_hash : hash_state :=
  Eval vm_compute in
    H256 (square_root_bits 2) (square_root_bits 3) (square_root_bits 5) (square_root_bits 7)
         (square_root_bits 11) (square_root_bits 13) (square_root_bits 17) (square_root_bits 19).

Fixpoint words (l : list Z) : list Z :=
  match l with
  | a :: b :: c :: d :: l => (a * 2 ^ 24 + b * 2 ^ 16 + c * 2 ^ 8 + d) :: words l
  | _ => []
  end.

(** The message schedule, newest word first. *)
Fixpoint schedule (n : nat) (w : list Z) : list Z :=
  match n with
  | O => w
  | S n =>
      schedule n
        (u32 (smallSigma1 (w !!! 1%nat) + (w !!! 6%nat) + smallSigma0 (w !!! 14%nat) +
              (w !!! 15%nat)) :: w)
  end.

Definition round_step (h : hash_state) (kw : Z * Z) : hash_state :=
  let '(H256 a b c d e f g hh) := h in
  let t1 := hh + bigSigma1 e + choose e f g + kw.1 + kw.2 in
  let t2 := bigSigma0 a + majority a b c in
  H256 (u32 (t1 + t2)) a b c (u32 (d + t1)) e f g.

Definition compress (h : hash_state) (block : list Z) : hash_state :=
  let w := rev (schedule 48 (rev (words block))) in
  let '(H256 a b c d e f g hh) := foldl round_step h (zip roundConstants w) in
  H256 (u32 (h_a h + a)) (u32 (h_b h + b)) (u32 (h_c h + c)) (u32 (h_d h + d))
       (u32 (h_e h + e)) (u32 (h_f h + f)) (u32 (h_g h + g)) (u32 (h_h h + hh)).

Definition word_bytes (w : Z) : list Z := [u8 (w / 2 ^ 24); u8 (w / 2 ^ 16); u8 (w / 2 ^ 8); u8 w].

(** The padding: a one bit, zeros, and the length in bits as 64 bits. *)
Definition padded (l : list Z) : list Z :=
  let bits := u64 (8 * zlen l) in
  l ++ [0x80] ++ replicate (Z.to_nat ((55 - zlen l) mod 64)) 0 ++
  word_bytes (bits / 2 ^ 32) ++ word_bytes (u32 bits).

Fixpoint blocks (n : nat) (h : hash_state) (l : list Z) : hash_state :=
  match n with
  | O => h
  | S n => blocks n (compress h (take 64 l)) (drop 64 l)
  end.

(** [sha256.Sum256]. *)
Definition Sum256 (l : list Z) : list Z :=
  let p := padded l in
  let '(H256 a b c d e f g h) := blocks (length p / 64) initial_hash p in
  concat (word_bytes <$> [a; b; c; d; e; f; g; h]).

Lemma Sum256_bytes l : is_bytes (Sum256 l) /\ length (Sum256 l) = 32%nat.
Proof.
  unfold Sum256. destruct (blocks _ _ _) as [a b c d e f g h]. split; [|done].
  unfold is_bytes. simpl. repeat (apply Forall_cons_2; [apply u8_byte|]). apply Forall_nil_2.
Qed.

Example Sum256_abc :
  Sum256 [97; 98; 99] =
  [0xba; 0x78; 0x16; 0xbf; 0x8f; 0x01; 0xcf; 0xea; 0x41; 0x41; 0x40; 0xde; 0x5d; 0xae; 0x22; 0x23;
   0xb0; 0x03; 0x61; 0xa3; 0x96; 0x17; 0x7a; 0x9c; 0xb4; 0x10; 0xff; 0x61; 0xf2; 0x00; 0x15; 0xad].
Proof. vm_compute. reflexivity. Qed.
