(* ===== verification/Index.v ===== *)
(** * Indexing: [src/object/index.go]

    [IndexOf], the one rule for indices that count from the end, and [RuneAt],
    which reads the i-th rune of a string by walking from either end.  The
    reference both are compared with is indexing the slice [[]rune(s)], which is
    how the [for] loop's iterator sees a string. *)

From stdpp Require Import base list list_numbers numbers.
From Stdlib Require Import ZArith Lia.
From S2P Require Import Prelude Lexer.

(* ------------------------------------------------------------------ *)
(** ** Definitions *)

(** [IndexOf]: an index against a container of [n] elements. *)
Definition IndexOf (i n : Z) : option Z :=
  if n <=? 0 then None
  else if 0 <=? i then (if n <=? i then None else Some i)
  else
    let at_ := i64 (n + i) in
    if at_ <? 0 then None else Some at_.

(** The backwards walk of [utf8.DecodeLastRuneInString]: [start] goes down from
    the byte before the last to [lim] and stops at a byte that can begin a
    rune; running off the end leaves it one below [lim]. *)
Fixpoint last_start (n : nat) (s : list Z) (start lim : Z) : Z :=
  match n with
  | O => start
  | S n =>
      if start <? lim then start
      else if RuneStart (s !!! Z.to_nat start) then start
      else last_start n s (start - 1) lim
  end.

(** [utf8.DecodeLastRuneInString]: the last rune and its width. *)
Definition DecodeLastRuneInString (s : list Z) : Z * nat :=
  let e := zlen s in
  if e =? 0 then (RuneError, 0%nat)
  else
    let r := s !!! Z.to_nat (e - 1) in
    if r <? 0x80 then (r, 1%nat)
    else
      let lim := Z.max (e - 4) 0 in
      let start := Z.max 0 (last_start 4 s (e - 2) lim) in
      let '(r, size) := DecodeRune (drop (Z.to_nat start) s) in
      if start + Z.of_nat size =? e then (r, size) else (RuneError, 1%nat).

(** The two loops of [RuneAt]. *)
Fixpoint rune_forward (fuel : nat) (s : list Z) (i : Z) (pos : nat) : option (list Z) :=
  match fuel with
  | O => None
  | S fuel =>
      if (pos <? length s)%nat then
        let '(r, size) := DecodeRune (drop pos s) in
        if i =? 0 then Some (encodeRune r) else rune_forward fuel s (i64 (i - 1)) (pos + size)
      else None
  end.

Fixpoint rune_backward (fuel : nat) (s : list Z) (i : Z) (e : nat) : option (list Z) :=
  match fuel with
  | O => None
  | S fuel =>
      if (0 <? e)%nat then
        let '(r, size) := DecodeLastRuneInString (take e s) in
        if i =? -1 then Some (encodeRune r) else rune_backward fuel s (i64 (i + 1)) (e - size)
      else None
  end.

(** [RuneAt]. *)
Definition RuneAt (s : list Z) (i : Z) : option (list Z) :=
  if 0 <=? i then rune_forward (S (length s)) s i 0
  else rune_backward (S (length s)) s i (length s).

(** [[]rune(s)]: the runes of [s] with their widths, then the runes. *)
Fixpoint segments (fuel : nat) (s : list Z) : list (Z * nat) :=
  match fuel, s with
  | S fuel, _ :: _ => DecodeRune s :: segments fuel (drop (DecodeRune s).2 s)
  | _, _ => []
  end.

Definition runes (s : list Z) : list Z := fst <$> segments (length s) s.

Example rune_at_ends :
  (RuneAt [104; 0xC3; 0xA9; 0xE2; 0x82; 0xAC] 1, RuneAt [104; 0xC3; 0xA9; 0xE2; 0x82; 0xAC] (-1),
   RuneAt [104; 0xC3; 0xA9; 0xE2; 0x82] (-1), RuneAt [104] 1) =
  (Some [0xC3; 0xA9], Some [0xE2; 0x82; 0xAC], Some [0xEF; 0xBF; 0xBD], None).
Proof. reflexivity. Qed.

(* ------------------------------------------------------------------ *)
(** ** What a decoded rune depends on *)

Lemma continuation lo hi x :
  in_range lo hi x = true -> 128 <= lo -> hi <= 191 -> RuneStart x = false.
Proof.
  unfold RuneStart, in_range. intros H ??. breflect. apply negb_false_iff.
  rewrite !(proj2 (Z.leb_le _ _)) by lia. done.
Qed.

Lemma first_byte lo hi x : in_range lo hi x = true -> 192 <= lo -> RuneStart x = true.
Proof.
  unfold RuneStart, in_range. intros H ?. breflect. apply negb_true_iff.
  rewrite andb_comm, (proj2 (Z.leb_gt _ _)) by lia. done.
Qed.

Ltac conts :=
  repeat (apply Forall_cons_2; [eapply continuation; [eassumption|bcases; lia..]|]);
  apply Forall_nil_2.

(** A rune is one byte wide, or a well-formed sequence: a first byte, then
    bytes that cannot begin a rune, which decode alike whatever follows. *)
Lemma DecodeRune_shape b s :
  (DecodeRune (b :: s)).2 = 1%nat \/
  exists c tail, s = c ++ tail /\ RuneStart b = true /\ 128 <= b /\ c <> [] /\ (length c <= 3)%nat /\
    Forall (fun x => RuneStart x = false) c /\ (DecodeRune (b :: s)).2 = S (length c) /\
    forall tail', DecodeRune (b :: c ++ tail') = DecodeRune (b :: s).
Proof.
  cbn [DecodeRune]. destruct (b <? 128) eqn:E1; [by left|].
  destruct (in_range 194 223 b) eqn:E2; [|destruct (in_range 224 239 b) eqn:E3;
    [|destruct (in_range 240 244 b) eqn:E4; [|by left]]].
  - destruct s as [|b1 s]; [by left|]. destruct (in_range 128 191 b1) eqn:H1; [|by left].
    right. exists [b1], s. assert (128 <= b) by (unfold in_range in E2; breflect; lia).
    split_and!; [done|by eapply first_byte|done|done|simpl; lia|conts|done|].
    intros tail'. simpl. by rewrite H1.
  - destruct s as [|b1 [|b2 s]]; [by left..|].
    destruct (in_range _ _ b1 && _) eqn:H1; [|by left].
    apply andb_true_iff in H1 as [H1 H2]. right. exists [b1; b2], s.
    assert (128 <= b) by (unfold in_range in E3; breflect; lia).
    split_and!; [done|by eapply first_byte|done|done|simpl; lia|conts|done|].
    intros tail'. simpl. by rewrite H1, H2.
  - destruct s as [|b1 [|b2 [|b3 s]]]; [by left..|].
    destruct (in_range _ _ b1 && _ && _) eqn:H1; [|by left].
    apply andb_true_iff in H1 as [[H1 H2]%andb_true_iff H3]. right. exists [b1; b2; b3], s.
    assert (128 <= b) by (unfold in_range in E4; breflect; lia).
    split_and!; [done|by eapply first_byte|done|done|simpl; lia|conts|done|].
    intros tail'. simpl. by rewrite H1, H2, H3.
Qed.

(** The widths of a decoded string. *)
Lemma DecodeRune_width b s : (1 <= (DecodeRune (b :: s)).2 <= S (length s))%nat.
Proof. pose proof (DecodeRune_spec b s). destruct (DecodeRune (b :: s)); simpl in *. tauto. Qed.

(** What decoding a prefix sees: cutting behind the first rune changes nothing,
    and no cut makes a sequence out of a byte that begins none. *)
Lemma DecodeRune_take s n :
  ((DecodeRune s).2 <= n)%nat -> DecodeRune (take n s) = DecodeRune s.
Proof.
  destruct s as [|b s]; [by rewrite take_nil|]. intros Hn.
  pose proof (DecodeRune_width b s). destruct n as [|n]; [lia|].
  destruct (DecodeRune_shape b s) as [H1|(c & tail & -> & _ & _ & _ & _ & _ & Hw & Ht)].
  - destruct (DecodeRune_shape b (take n s)) as [H2|(c & tail & Hs & _ & _ & Hc & _ & _ & Hw & Ht)].
    + simpl take. cbn [DecodeRune] in *.
      repeat (match goal with
        | |- context [match ?l with [] => _ | _ :: _ => _ end] => destruct l eqn:?
        | |- context [if ?c then _ else _] => destruct c eqn:?
        end; simpl in *; simplify_eq/=; try done).
    + exfalso. assert (length c <> 0)%nat by (by destruct c).
      assert (E : DecodeRune (b :: s) = DecodeRune (b :: take n s)).
      { rewrite <- (take_drop n s) at 1. rewrite Hs, <- app_assoc. rewrite Ht. by rewrite Hs. }
      rewrite E in H1. lia.
  - rewrite Hw in Hn. simpl take. rewrite take_app_ge by lia. by rewrite Ht.
Qed.

(* ------------------------------------------------------------------ *)
(** ** Segments *)

Notation segs s := (segments (length s) s) (only parsing).

Definition total (l : list (Z * nat)) : nat := nsum (snd <$> l).

Lemma total_app l k : total (l ++ k) = (total l + total k)%nat.
Proof. unfold total. rewrite fmap_app. apply nsum_app. Qed.

Lemma segments_fuel f s : (length s <= f)%nat -> segments f s = segs s.
Proof.
  remember (length s) as n eqn:En. revert f s En.
  induction (lt_wf n) as [n _ IH]. intros f s -> Hf.
  destruct s as [|b s]; [by destruct f|]. destruct f as [|f]; [simpl in Hf; lia|].
  pose proof (DecodeRune_width b s) as Hw. cbn [segments length] in *. f_equal.
  set (k := drop (DecodeRune (b :: s)).2 (b :: s)).
  assert (Hl : (length k <= length s)%nat) by (subst k; rewrite length_drop; cbn [length]; lia).
  rewrite (IH (length k) ltac:(lia) f k eq_refl), (IH (length k) ltac:(lia) (length s) k eq_refl);
    lia || done.
Qed.

Lemma segs_cons b s :
  segs (b :: s) = DecodeRune (b :: s) :: segs (drop (DecodeRune (b :: s)).2 (b :: s)).
Proof.
  pose proof (DecodeRune_width b s). cbn [length segments]. f_equal. apply segments_fuel. rewrite length_drop. cbn [length]. lia.
Qed.

(** Recursion over the runes of a string. *)
Lemma runes_ind (P : list Z -> Prop) :
  P [] ->
  (forall b s, P (drop (DecodeRune (b :: s)).2 (b :: s)) -> P (b :: s)) ->
  forall s, P s.
Proof.
  intros H0 Hs s. remember (length s) as n eqn:En. revert s En.
  induction (lt_wf n) as [n _ IH]. intros [|b s] ->; [done|].
  apply Hs. pose proof (DecodeRune_width b s). eapply IH; [|done].
  rewrite length_drop. cbn [length]. lia.
Qed.

Lemma total_segs s : total (segs s) = length s.
Proof.
  induction s as [|b s IH] using runes_ind; [done|].
  rewrite segs_cons. unfold total, nsum in *. rewrite fmap_cons. cbn [foldr].
  pose proof (DecodeRune_width b s). rewrite IH, length_drop. cbn [length]. lia.
Qed.

Lemma segs_split s l k :
  segs s = l ++ k -> segs (drop (total l) s) = k /\ segs (take (total l) s) = l.
Proof.
  revert l. induction s as [|b s IH] using runes_ind; intros l E.
  { simpl in E. symmetry in E. apply app_eq_nil in E as [-> ->]. done. }
  destruct l as [|d l]; [by rewrite app_nil_l in E|].
  rewrite segs_cons, <- app_comm_cons in E. apply (f_equal tail) in E as E'. apply (f_equal head) in E.
  cbn [head tail] in E, E'. assert (d = DecodeRune (b :: s)) as -> by congruence. clear E.
  destruct (IH _ E') as [H1 H2]. pose proof (DecodeRune_width b s) as Hw.
  set (w := (DecodeRune (b :: s)).2) in *.
  assert (Ht : total (DecodeRune (b :: s) :: l) = (w + total l)%nat) by done.
  rewrite Ht, <- drop_drop. split; [done|].
  assert (Etake : take (w + total l) (b :: s) = b :: take (w + total l - 1) s).
  { destruct (w + total l)%nat eqn:?; [lia|]. simpl. by rewrite Nat.sub_0_r. }
  assert (Ed : DecodeRune (take (w + total l) (b :: s)) = DecodeRune (b :: s)).
  { apply DecodeRune_take. lia. }
  rewrite Etake in *. rewrite segs_cons, Ed. f_equal. fold w.
  rewrite <- Etake, <- take_drop_commute. done.
Qed.

(** A byte that can begin a rune begins one. *)
Lemma start_is_boundary s q :
  (q < length s)%nat -> RuneStart (s !!! q) = true ->
  exists l k, segs s = l ++ k /\ total l = q.
Proof.
  revert q. induction s as [|b s IH] using runes_ind; intros q Hq Hs; [simpl in Hq; lia|].
  destruct q as [|q]; [by exists [], (segs (b :: s))|].
  set (w := (DecodeRune (b :: s)).2) in *. destruct (decide (w <= S q)%nat) as [Hw|Hw].
  - destruct (IH (S q - w)%nat) as (l & k & E & Ht).
    { rewrite length_drop. lia. }
    { rewrite lookup_total_drop. by replace (w + (S q - w))%nat with (S q) by lia. }
    exists (DecodeRune (b :: s) :: l), k. rewrite segs_cons. fold w. rewrite E.
    split; [done|]. change (total (DecodeRune (b :: s) :: l)) with (w + total l)%nat. lia.
  - exfalso. destruct (DecodeRune_shape b s) as [H|(c & tail & -> & _ & _ & _ & _ & Hc & Hw' & _)].
    { fold w in H. lia. }
    fold w in Hw'. rewrite lookup_total_cons_ne_0 in Hs by done. simpl in Hs.
    rewrite lookup_total_app_l in Hs by lia.
    rewrite Forall_forall in Hc. rewrite Hc in Hs; [done|].
    apply list_elem_of_In, list_elem_of_lookup_total_2. lia.
Qed.

Lemma last_start_le n s start lim : last_start n s start lim <= start.
Proof.
  revert start. induction n as [|n IH]; intros start; cbn [last_start]; [lia|].
  bcases; [lia|lia|]. specialize (IH (start - 1)). lia.
Qed.

Lemma last_start_finds n s start lim p :
  lim <= p <= start -> start - p < Z.of_nat n -> RuneStart (s !!! Z.to_nat p) = true ->
  (forall j, p < j <= start -> RuneStart (s !!! Z.to_nat j) = false) ->
  last_start n s start lim = p.
Proof.
  revert start. induction n as [|n IH]; intros start Hp Hn Hs Hc; [lia|]. cbn [last_start].
  rewrite (proj2 (Z.ltb_ge _ _)) by lia. destruct (decide (p = start)) as [->|].
  - by rewrite Hs.
  - rewrite Hc by lia. apply IH; [lia..|done|]. intros j Hj. apply Hc. lia.
Qed.

(** Decoding from the end finds the last rune that decoding from the front
    finds, also in text that is not UTF-8. *)
Lemma DecodeLastRune_segs s l r w :
  segs s = l ++ [(r, w)] -> DecodeLastRuneInString s = (r, w) /\ (1 <= w <= length s)%nat.
Proof.
  intros E. destruct (segs_split _ _ _ E) as [Hd _].
  assert (Hlen : length s = (total l + w)%nat).
  { rewrite <- total_segs, E, total_app. unfold total, nsum. simpl. lia. }
  set (p := total l) in *. destruct (drop p s) as [|b t] eqn:Ed; [done|].
  rewrite segs_cons in Hd. apply (f_equal head) in Hd. cbn [head] in Hd.
  assert (Hrw : DecodeRune (b :: t) = (r, w)) by congruence. clear Hd.
  pose proof (DecodeRune_width b t) as Hw. rewrite Hrw in Hw. simpl in Hw.
  assert (Ht : length (b :: t) = w) by (rewrite <- Ed, length_drop; lia). simpl in Ht.
  split; [|lia]. unfold DecodeLastRuneInString.
  rewrite (proj2 (Z.eqb_neq _ _)) by (unfold zlen; lia).
  assert (Hat : forall j, (p + j < length s)%nat -> s !!! (p + j)%nat = (b :: t) !!! j).
  { intros j Hj. rewrite <- Ed. by rewrite lookup_total_drop. }
  replace (Z.to_nat (zlen s - 1)) with (p + (w - 1))%nat by (unfold zlen; lia).
  destruct (DecodeRune_shape b t) as [H1|(c & tail & Hc & Hb & Hb' & Hne & H3 & Hcont & Hw' & _)].
  - rewrite Hrw in H1. simpl in H1. destruct t; [|simpl in Ht; lia].
    assert (s !!! (p + (w - 1))%nat = b) as -> by (rewrite Hat, H1 by lia; done). clear Ht. subst w.
    destruct (Z.ltb_spec b 128) as [Hlow|Hhigh].
    { by rewrite DecodeRune_low in Hrw. }
    assert (r = RuneError) as ->.
    { unfold DecodeRune in Hrw. rewrite (proj2 (Z.ltb_ge _ _)) in Hrw by lia. bcases; congruence. }
    pose proof (last_start_le 4 s (zlen s - 2) (Z.max (zlen s - 4) 0)) as Hle.
    assert (Hst0 : 0 <= Z.max 0 (last_start 4 s (zlen s - 2) (Z.max (zlen s - 4) 0)) <=
      Z.max 0 (zlen s - 2)) by lia. clear Hle.
    generalize dependent (Z.max 0 (last_start 4 s (zlen s - 2) (Z.max (zlen s - 4) 0))).
    intros start Hst0. destruct (DecodeRune (drop (Z.to_nat start) s)) as [r' size] eqn:Er.
    destruct (Z.eqb_spec (start + Z.of_nat size) (zlen s)) as [He|]; [|done].
    destruct (drop (Z.to_nat start) s) as [|b' t'] eqn:Ed'.
    { apply (f_equal length) in Ed'. rewrite length_drop in Ed'. unfold zlen in *. simpl in Ed'. lia. }
    assert (Hb0 : s !!! Z.to_nat start = b').
    { rewrite <- (Nat.add_0_r (Z.to_nat start)), <- lookup_total_drop, Ed'. done. }
    destruct (DecodeRune_shape b' t') as [Hs1|(c & tail & -> & Hst & _ & Hne & _ & _ & Hsz & _)].
    + rewrite Er in Hs1. simpl in Hs1. subst size.
      assert (start = 0 /\ zlen s = 1) as [-> Hz] by (unfold zlen in *; lia).
      simpl in Ed'. assert (p = 0%nat) as Hp0 by (unfold zlen in Hz; lia).
      rewrite Hp0, drop_0 in Ed. rewrite Ed in Ed'. injection Ed' as <- <-. congruence.
    + exfalso. rewrite Er in Hsz. simpl in Hsz.
      destruct (start_is_boundary s (Z.to_nat start)) as (l' & k' & E' & Ht').
      { unfold zlen in *. lia. } { by rewrite Hb0. }
      destruct (segs_split _ _ _ E') as [Hk _]. rewrite Ht', Ed', segs_cons, Er in Hk.
      rewrite <- Hk, E in E'. simpl in E'.
      assert (Hnil : drop size (b' :: c ++ tail) = []).
      { apply drop_ge. rewrite <- Ed', length_drop. unfold zlen in *. lia. }
      rewrite Hnil in E'. apply app_inj_2 in E' as [_ E']; [|done].
      destruct c; [done|]. simplify_eq/=.
  - rewrite Hrw in Hw'. simpl in Hw'. assert (length tail = 0)%nat.
    { rewrite Hc, length_app in Ht. lia. }
    destruct tail; [|done]. rewrite app_nil_r in Hc. subst t.
    assert (Hcat : forall j, (j < length c)%nat -> RuneStart (s !!! (p + S j)%nat) = false).
    { intros j Hj. rewrite Hat by lia. simpl. rewrite Forall_forall in Hcont. apply Hcont.
      apply list_elem_of_In, list_elem_of_lookup_total_2. lia. }
    destruct w as [|w]; [lia|].
    assert (Hlast : 128 <= s !!! (p + (S w - 1))%nat).
    { destruct c as [|c0 c]; [done|].
      specialize (Hcat (w - 1)%nat ltac:(simpl in *; lia)).
      replace (p + (S w - 1))%nat with (p + S (w - 1))%nat by (simpl in *; lia).
      unfold RuneStart, in_range in Hcat. breflect. lia. }
    rewrite (proj2 (Z.ltb_ge _ _)) by lia.
    rewrite (last_start_finds 4 s _ _ (Z.of_nat p)).
    + replace (Z.to_nat (Z.max 0 (Z.of_nat p))) with p by lia. rewrite Ed, Hrw.
      rewrite (proj2 (Z.eqb_eq _ _)); [done|]. unfold zlen. lia.
    + destruct c; [done|]. unfold zlen. simpl in *. lia.
    + unfold zlen. lia.
    + rewrite Nat2Z.id, <- (Nat.add_0_r p), Hat by lia. done.
    + intros j Hj. replace (Z.to_nat j) with (p + S (Z.to_nat j - p - 1))%nat by lia.
      apply Hcat. unfold zlen in Hj. lia.
Qed.

(* ------------------------------------------------------------------ *)
(** ** Indexing *)

Lemma length_segs_le s : (length (segs s) <= length s)%nat.
Proof.
  induction s as [|b s IH] using runes_ind; [done|]. rewrite segs_cons.
  pose proof (DecodeRune_width b s). cbn [length].
  etrans; [apply le_n_S, IH|]. rewrite length_drop. cbn [length]. lia.
Qed.

Lemma rune_forward_segs fuel s i l k :
  segs s = l ++ k -> (length k < fuel)%nat -> 0 <= i < 2 ^ 63 ->
  rune_forward fuel s i (total l) = encodeRune <$> (fst <$> k) !! Z.to_nat i.
Proof.
  revert i l k. induction fuel as [|fuel IH]; intros i l k E Hf Hi; [lia|]. cbn [rune_forward].
  destruct (segs_split _ _ _ E) as [Hd _].
  assert (Hlen : length s = (total l + total k)%nat) by (by rewrite <- total_segs, E, total_app).
  destruct k as [|d k].
  { rewrite (proj2 (Nat.ltb_ge _ _)); [done|]. change (total []) with 0%nat in Hlen. lia. }
  destruct (drop (total l) s) as [|b t] eqn:Ed; [done|].
  rewrite segs_cons in Hd. apply (f_equal head) in Hd. cbn [head] in Hd.
  assert (DecodeRune (b :: t) = d) as -> by congruence.
  apply (f_equal length) in Ed. rewrite length_drop in Ed. simpl in Ed.
  rewrite (proj2 (Nat.ltb_lt _ _)) by lia. destruct d as [r w].
  destruct (Z.eqb_spec i 0) as [->|Hi0]; [done|].
  replace (total l + w)%nat with (total (l ++ [(r, w)])) by
    (rewrite total_app; unfold total, nsum; simpl; lia).
  rewrite i64_id by (unfold is_i64; lia). rewrite (IH (i - 1) _ k); [| |simpl in Hf; lia|lia].
  - by replace (Z.to_nat i) with (S (Z.to_nat (i - 1))) by lia.
  - by rewrite <- app_assoc.
Qed.

Lemma rune_backward_segs fuel s i l k :
  segs s = l ++ k -> (length l < fuel)%nat -> - 2 ^ 63 <= i < 0 ->
  rune_backward fuel s i (total l) =
    if 0 <=? zlen l + i then encodeRune <$> (fst <$> l) !! Z.to_nat (zlen l + i) else None.
Proof.
  revert i l k. induction fuel as [|fuel IH]; intros i l k E Hf Hi; [lia|]. cbn [rune_backward].
  destruct (segs_split _ _ _ E) as [_ Ht].
  destruct l as [|[r w] l _] using rev_ind.
  { change (total []) with 0%nat. rewrite (proj2 (Z.leb_gt _ _)) by (unfold zlen; simpl; lia). done. }
  destruct (DecodeLastRune_segs _ _ _ _ Ht) as [Hlast Hw].
  assert (Htot : total (l ++ [(r, w)]) = (total l + w)%nat) by
    (rewrite total_app; unfold total, nsum; simpl; lia).
  rewrite (proj2 (Nat.ltb_lt _ _)) by lia. rewrite Hlast. rewrite zlen_app, fmap_app.
  assert (Hl1 : zlen [(r, w)] = 1) by done. rewrite Hl1.
  destruct (Z.eqb_spec i (-1)) as [->|Hi1].
  - rewrite (proj2 (Z.leb_le _ _)) by (pose proof (zlen_nonneg l); lia).
    replace (zlen l + 1 + -1) with (zlen l) by lia. rewrite to_nat_zlen.
    by rewrite lookup_app_r, length_fmap, Nat.sub_diag by by rewrite length_fmap.
  - rewrite i64_id by (unfold is_i64; lia).
    replace (total (l ++ [(r, w)]) - w)%nat with (total l) by lia.
    rewrite (IH (i + 1) l ([(r, w)] ++ k)); [|by rewrite app_assoc| |lia].
    + replace (zlen l + (i + 1)) with (zlen l + 1 + i) by lia.
      destruct (Z.leb_spec 0 (zlen l + 1 + i)); [|done].
      rewrite lookup_app_l; [done|]. rewrite length_fmap. unfold zlen in *. lia.
    + rewrite length_app in Hf. simpl in Hf. lia.
Qed.

Lemma IndexOf_range i n k : is_i64 i -> n < 2 ^ 63 -> IndexOf i n = Some k -> 0 <= k < n.
Proof.
  unfold IndexOf, is_i64. intros Hi Hn Hk. bcases; [lia|].
  rewrite i64_id in * by (unfold is_i64; lia). lia.
Qed.

Lemma IndexOf_mod i n :
  is_i64 i -> 0 <= n < 2 ^ 63 ->
  IndexOf i n = if (- n <=? i) && (i <? n) then Some (i mod n) else None.
Proof.
  intros Hi Hn. unfold IndexOf. destruct (Z.leb_spec n 0) as [H0|H0].
  { destruct (Z.leb_spec (- n) i), (Z.ltb_spec i n); done || lia. }
  unfold is_i64 in Hi. destruct (Z.leb_spec 0 i) as [Hp|Hp].
  - rewrite (proj2 (Z.leb_le (- n) i)) by lia. simpl.
    destruct (Z.leb_spec n i), (Z.ltb_spec i n); try lia; [done|]. by rewrite Z.mod_small by lia.
  - rewrite i64_id by (unfold is_i64; lia). rewrite (proj2 (Z.ltb_lt i n)) by lia. rewrite andb_true_r.
    destruct (Z.ltb_spec (n + i) 0), (Z.leb_spec (- n) i); try lia; [done|].
    f_equal. apply (Z.mod_unique _ _ (-1)); lia.
Qed.

(** An index names an element or none, and nothing overflows.  For every
    64-bit index and every length of something in memory, [IndexOf] answers an
    offset inside the container, the index itself or the index counted from the
    end, exactly when [- n <= i < n]; it refuses every other index, the most
    negative one included. *)
Theorem index_in_bounds i n :
  is_i64 i -> 0 <= n < 2 ^ 63 ->
  IndexOf i n = (if (- n <=? i) && (i <? n) then Some (i mod n) else None) /\
  (forall k, IndexOf i n = Some k -> 0 <= k < n).
Proof. intros Hi Hn. split; [by apply IndexOf_mod|intros k; apply IndexOf_range; [done|lia]]. Qed.

Lemma index_in_bounds_witness :
  IndexOf (-3) 5 = Some 2 /\ IndexOf (- 2 ^ 63) 5 = None.
Proof.
  split; [rewrite (proj1 (index_in_bounds (-3) 5 ltac:(by split) ltac:(by split)))
         |rewrite (proj1 (index_in_bounds (- 2 ^ 63) 5 ltac:(by split) ltac:(by split)))];
  reflexivity.
Defined.

(** Indexing a string is indexing its runes, from either end.  [RuneAt],
    which walks forwards for [s[0]] and backwards for [s[-1]] without building
    the slice, answers for every index what indexing [[]rune(s)] by [IndexOf]'s
    rule answers, for every byte string, well-formed UTF-8 or not. *)
Theorem rune_at_is_indexing s i :
  zlen s < 2 ^ 63 -> is_i64 i ->
  RuneAt s i =
    match IndexOf i (zlen (runes s)) with
    | Some k => encodeRune <$> runes s !! Z.to_nat k
    | None => None
    end.
Proof.
  intros Hs Hi. pose proof (length_segs_le s) as Hle.
  assert (Hz : zlen (runes s) = zlen (segs s)) by (unfold zlen, runes; by rewrite length_fmap).
  rewrite IndexOf_mod by (done || rewrite Hz; unfold zlen in *; lia). rewrite Hz. unfold RuneAt. unfold is_i64 in Hi. destruct (Z.leb_spec 0 i) as [Hp|Hp].
  - rewrite (rune_forward_segs _ s i [] (segs s)) by (done || lia). fold (runes s).
    rewrite (proj2 (Z.leb_le (- _) i)) by (unfold zlen; lia). simpl.
    destruct (Z.ltb_spec i (zlen (segs s))) as [Hlt|Hge].
    + by rewrite Z.mod_small by lia.
    + rewrite lookup_ge_None_2; [done|]. unfold runes. rewrite length_fmap. unfold zlen in *. lia.
  - rewrite (proj2 (Z.ltb_lt i _)) by (unfold zlen; lia). rewrite andb_true_r.
    rewrite <- (total_segs s) at 2.
    rewrite (rune_backward_segs _ s i (segs s) []) by (rewrite ?app_nil_r; done || lia).
    fold (runes s). destruct (Z.leb_spec 0 (zlen (segs s) + i)), (Z.leb_spec (- zlen (segs s)) i);
      try lia; [|done].
    do 3 f_equal. apply (Z.mod_unique _ _ (-1)); unfold zlen in *; lia.
Qed.

Lemma rune_at_is_indexing_witness :
  RuneAt [104; 0xE2; 0x82; 0xC3; 0xA9] (-2) = Some [0xEF; 0xBF; 0xBD] /\
  runes [104; 0xE2; 0x82; 0xC3; 0xA9] = [104; RuneError; RuneError; 0xE9].
Proof.
  split; [|reflexivity].
  rewrite (rune_at_is_indexing [104; 0xE2; 0x82; 0xC3; 0xA9] (-2) ltac:(done) ltac:(by split)).
  reflexivity.
Defined.
