(* ===== verification/Object.v ===== *)
(** * Values: [src/object]

    The runtime's objects, their types, truthiness, hash keys and rendered
    forms: [object.go], [hashObj.go], [hash_sorted_pairs.go], [struct.go],
    [errorObj.go], [bytesObj.go], [truthy.go] and the small files of the scalar
    types.

    A Go map is an association list in the (arbitrary) order a [range] would
    visit it; what must not depend on that order is proved not to
    ([HashOrder.v]).  Objects the runtime shares by pointer and mutates, cells
    and loop cursors, are locations of a heap the machine owns ([Vm.v]); a
    function, a builtin and a classification mark are immutable and carry the
    address that is their identity.  [Nil] is Go's nil interface. *)

From stdpp Require Import base list list_numbers numbers pretty strings.
From Stdlib Require Import ZArith Lia.
From S2P Require Import Prelude Polymorphic Float64 Sha256.

(* ------------------------------------------------------------------ *)
(** ** Types *)

Inductive ObjectType : Type :=
| FLOAT_OBJ | INTEGER_OBJ | BOOLEAN_OBJ | NULL_OBJ | RETURN_VALUE_OBJ | MULTI_VALUE_OBJ
| ERROR_OBJ | FUNCTION_OBJ | STRING_OBJ | BYTES_OBJ | BUILTIN_OBJ | ARRAY_OBJ | HASH_OBJ
| QUOTE_OBJ | MACRO_OBJ | COMPILED_FN_OBJ | CLOSURE_OBJ | ENCRYPTED_OBJ | STRUCT_OBJ
| ENUM_VALUE_OBJ | BREAK_OBJ | CONTINUE_OBJ | LUA_PATCH_OBJ | CELL_OBJ | ITERATOR_OBJ
| NO_TYPE.   (* of the nil interface, which has no Type method to call *)

#[export] Instance ObjectType_eq_dec : EqDecision ObjectType.
Proof. solve_decision. Defined.

Definition type_name (t : ObjectType) : list Z :=
  bytes match t with
  | FLOAT_OBJ => "FLOAT" | INTEGER_OBJ => "INTEGER" | BOOLEAN_OBJ => "BOOLEAN"
  | NULL_OBJ => "NULL" | RETURN_VALUE_OBJ => "RETURN_VALUE" | MULTI_VALUE_OBJ => "MULTI_VALUE"
  | ERROR_OBJ => "ERROR_OBJ" | FUNCTION_OBJ => "FUNCTION" | STRING_OBJ => "STRING"
  | BYTES_OBJ => "BYTES" | BUILTIN_OBJ => "BUILTIN" | ARRAY_OBJ => "ARRAY" | HASH_OBJ => "HASH"
  | QUOTE_OBJ => "QUOTE" | MACRO_OBJ => "MACRO" | COMPILED_FN_OBJ => "COMPILED_FN_OBJ"
  | CLOSURE_OBJ => "CLOSURE" | ENCRYPTED_OBJ => "ENCRYPTED" | STRUCT_OBJ => "STRUCT"
  | ENUM_VALUE_OBJ => "ENUM_VALUE" | BREAK_OBJ => "BREAK" | CONTINUE_OBJ => "CONTINUE"
  | LUA_PATCH_OBJ => "LUA_PATCH" | CELL_OBJ => "CELL" | ITERATOR_OBJ => "ITERATOR"
  | NO_TYPE => ""
  end.

(** Go's order on strings: bytes, left to right. *)
Fixpoint bytes_compare (a b : list Z) : comparison :=
  match a, b with
  | [], [] => Eq
  | [], _ :: _ => Lt
  | _ :: _, [] => Gt
  | x :: a, y :: b => match x ?= y with Eq => bytes_compare a b | c => c end
  end.

Definition bytes_lt (a b : list Z) : bool :=
  match bytes_compare a b with Lt => true | _ => false end.

(** [Classification], with the address that is its identity. *)
Record Classification : Type := Mark {
  mark_addr : nat; RecordUID : list Z; Tags : list (list Z); Labels : list (list Z) }.

(** [HashKey]. *)
Record HashKey : Type := Key { hk_Type : ObjectType; hk_Value : Z; hk_Text : list Z }.

#[export] Instance HashKey_eq_dec : EqDecision HashKey.
Proof. solve_decision. Defined.

(** A pointer to an immutable [CompiledFunction]. *)
Record FnPtr : Type := Ptr { fn_addr : nat; fn_obj : CompiledFunction }.

(** The fields of [Error] that hold no object. *)
Record ErrorInfo : Type := Info {
  Message : list Z; Context : list Z;
  err_File : list Z; err_Line : Z; err_Column : Z; EndLine : Z; EndColumn : Z;
  SourceLine : list Z; Stack : list (list Z) }.

(** The values the tree-walking evaluator alone makes: by address and render. *)
Inductive evaluator_kind : Type := KFunction | KMacro | KQuote | KReturnValue.

#[export] Instance evaluator_kind_eq_dec : EqDecision evaluator_kind.
Proof. solve_decision. Defined.

Definition kind_type (k : evaluator_kind) : ObjectType :=
  match k with
  | KFunction => FUNCTION_OBJ | KMacro => MACRO_OBJ | KQuote => QUOTE_OBJ
  | KReturnValue => RETURN_VALUE_OBJ
  end.

Inductive Object : Type :=
| Nil
| Integer (Value : Z)
| Float (Value : Z)
| Boolean (Value : bool)
| Null
| Str (Value : list Z)
| Bytes (Value : list Z) (Classified : option Classification)
| Array (Elements : list Object)
| Hash (Pairs : list (HashKey * (Object * Object)))
| Struct (TypeName : list Z) (FieldOrder : list (list Z)) (Fields : list (list Z * Object))
| EnumValue (TypeName Tag : list Z) (Value : Object)
| Error (info : ErrorInfo) (Related : list (list Z * Object))
| MultiValue (Values : list Object)
| CompiledFn (fn : FnPtr)
| Closure (fn : FnPtr) (Free : list Object) (id : option nat)
| BuiltIn (addr : nat)
| LuaPatch (Name Payload Checksum : list Z)
| Encrypted (Value : list Z) (EncType : ObjectType) (Seed : Z) (Classified : option Classification)
| Cell (loc : nat)
| Iterator (loc : nat)
| Break
| Continue
| Other (kind : evaluator_kind) (addr : nat) (text : list Z).

#[export] Instance Object_inhabited : Inhabited Object := populate Nil.

Definition Type_ (o : Object) : ObjectType :=
  match o with
  | Nil => NO_TYPE | Integer _ => INTEGER_OBJ | Float _ => FLOAT_OBJ | Boolean _ => BOOLEAN_OBJ
  | Null => NULL_OBJ | Str _ => STRING_OBJ | Bytes _ _ => BYTES_OBJ | Array _ => ARRAY_OBJ
  | Hash _ => HASH_OBJ | Struct _ _ _ => STRUCT_OBJ | EnumValue _ _ _ => ENUM_VALUE_OBJ
  | Error _ _ => ERROR_OBJ | MultiValue _ => MULTI_VALUE_OBJ | CompiledFn _ => COMPILED_FN_OBJ
  | Closure _ _ _ => CLOSURE_OBJ | BuiltIn _ => BUILTIN_OBJ | LuaPatch _ _ _ => LUA_PATCH_OBJ
  | Encrypted _ _ _ _ => ENCRYPTED_OBJ | Cell _ => CELL_OBJ | Iterator _ => ITERATOR_OBJ
  | Break => BREAK_OBJ | Continue => CONTINUE_OBJ | Other k _ _ => kind_type k
  end.

(** Induction with the elements of containers. *)
Section ObjectInduction.
Context (P : Object -> Prop).
Hypothesis Hleaf : forall o,
  match o with
  | Array _ | Hash _ | Struct _ _ _ | EnumValue _ _ _ | Error _ _ | MultiValue _ | Closure _ _ _ => True
  | _ => P o
  end.
Hypothesis Harray : forall l, Forall P l -> P (Array l).
Hypothesis Hhash : forall l, Forall (fun p => P p.2.1 /\ P p.2.2) l -> P (Hash l).
Hypothesis Hstruct : forall n o l, Forall (fun p => P p.2) l -> P (Struct n o l).
Hypothesis Henum : forall n t v, P v -> P (EnumValue n t v).
Hypothesis Herror : forall i l, Forall (fun p => P p.2) l -> P (Error i l).
Hypothesis Hmulti : forall l, Forall P l -> P (MultiValue l).
Hypothesis Hclosure : forall f l id, Forall P l -> P (Closure f l id).

Fixpoint Object_ind' (o : Object) : P o :=
  let fix elems (l : list Object) : Forall P l :=
    match l with [] => Forall_nil_2 _ | x :: l => Forall_cons_2 _ _ _ (Object_ind' x) (elems l) end in
  let fix fields (l : list (list Z * Object)) : Forall (fun p => P p.2) l :=
    match l with
    | [] => Forall_nil_2 _
    | (n, x) :: l => Forall_cons_2 (fun p : list Z * Object => P p.2) (n, x) l (Object_ind' x) (fields l)
    end in
  let fix pairs (l : list (HashKey * (Object * Object))) : Forall (fun p => P p.2.1 /\ P p.2.2) l :=
    match l with
    | [] => Forall_nil_2 _
    | (k, (a, b)) :: l =>
        Forall_cons_2 (fun p : HashKey * (Object * Object) => P p.2.1 /\ P p.2.2) (k, (a, b)) l
          (conj (Object_ind' a) (Object_ind' b)) (pairs l)
    end in
  match o with
  | Array l => Harray l (elems l)
  | Hash l => Hhash l (pairs l)
  | Struct n o l => Hstruct n o l (fields l)
  | EnumValue n t v => Henum n t v (Object_ind' v)
  | Error i l => Herror i l (fields l)
  | MultiValue l => Hmulti l (elems l)
  | Closure f l id => Hclosure f l id (elems l)
  | o => Hleaf o
  end.
End ObjectInduction.

(** The objects an object holds. *)
Definition children (o : Object) : list Object :=
  match o with
  | Array l | MultiValue l | Closure _ l _ => l
  | Hash p => mjoin ((fun e : HashKey * (Object * Object) => [e.2.1; e.2.2]) <$> p)
  | Struct _ _ f | Error _ f => f.*2
  | EnumValue _ _ v => [v]
  | _ => []
  end.

Lemma children_ind (P : Object -> Prop) :
  (forall o, Forall P (children o) -> P o) -> forall o, P o.
Proof.
  intros H. apply (Object_ind' P).
  - intros o. destruct o; try done; by apply H.
  - intros l Hl. by apply H.
  - intros l Hl. apply H. simpl. induction Hl as [|[k [a b]] l [Ha Hb] _ IH]; simpl; repeat constructor; done.
  - intros n o l Hl. apply H. simpl. by rewrite Forall_fmap.
  - intros n t v Hv. apply H. by repeat constructor.
  - intros i l Hl. apply H. simpl. by rewrite Forall_fmap.
  - intros l Hl. by apply H.
  - intros f l id Hl. by apply H.
Qed.

(** A property of every node of an object. *)
Inductive everywhere (P : Object -> Prop) (o : Object) : Prop :=
| everywhere_intro : P o -> Forall (everywhere P) (children o) -> everywhere P o.

Lemma everywhere_here P o : everywhere P o -> P o.
Proof. by destruct 1. Qed.

Lemma everywhere_below P o : everywhere P o -> Forall (everywhere P) (children o).
Proof. by destruct 1. Qed.

Lemma everywhere_impl (P Q : Object -> Prop) o :
  (forall x, P x -> Q x) -> everywhere P o -> everywhere Q o.
Proof.
  intros HPQ. induction o as [o IH] using children_ind. intros [Hp Hc]. constructor; [by apply HPQ|].
  rewrite Forall_forall in *. intros x Hx. apply IH; [done|]. by apply Hc.
Qed.

(* ------------------------------------------------------------------ *)
(** ** Truth and hash keys *)

(** [IsTruthy]: false, null, the empty string, an empty buffer, 0 and 0.0 are
    falsy, and so is nil. *)
Definition IsTruthy (o : Object) : bool :=
  match o with
  | Nil => false
  | Boolean b => b
  | Null => false
  | Str s => negb (bool_decide (s = []))
  | Bytes s _ => negb (bool_decide (s = []))
  | Integer n => negb (n =? 0)
  | Float b => negb (feqb b 0)
  | _ => true
  end.

(** [IsNumeric]. *)
Definition IsNumeric (o : Object) : bool :=
  match o with Integer _ | Float _ => true | _ => false end.

(** [HashKey()] of the [Hashable] types; [None] when the type is not one. *)
Definition hash_key (o : Object) : option HashKey :=
  match o with
  | Boolean b => Some (Key BOOLEAN_OBJ (if b then 1 else 0) [])
  | Integer n => Some (Key INTEGER_OBJ (u64 n) [])
  | Float b => Some (Key FLOAT_OBJ b [])
  | Str s => Some (Key STRING_OBJ 0 s)
  | Bytes s _ => Some (Key BYTES_OBJ 0 (Sum256 s))
  | _ => None
  end.

(** A Go map as an association list: read, write, delete. *)
Section Maps.
Context {K A : Type} `{EqDecision K}.

Fixpoint map_get (k : K) (m : list (K * A)) : option A :=
  match m with
  | [] => None
  | (k', a) :: m => if decide (k = k') then Some a else map_get k m
  end.

Fixpoint map_set (k : K) (a : A) (m : list (K * A)) : list (K * A) :=
  match m with
  | [] => [(k, a)]
  | (k', a') :: m => if decide (k = k') then (k', a) :: m else (k', a') :: map_set k a m
  end.
End Maps.

(* ------------------------------------------------------------------ *)
(** ** Order of hash keys *)

(** [floatKeyLess]. *)
Definition floatKeyLess (left right : Z) : bool :=
  let leftNaN := IsNaN left in
  let rightNaN := IsNaN right in
  if leftNaN || rightNaN then
    if negb (eqb leftNaN rightNaN) then rightNaN else left <? right
  else if negb (feqb left right) then fltb left right
  else Signbit left && negb (Signbit right).

(** [hashKeyLess], given the renders its last line compares. *)
Definition key_less (a : Object) (aText : list Z) (b : Object) (bText : list Z) : bool :=
  if negb (bool_decide (Type_ a = Type_ b)) then bytes_lt (type_name (Type_ a)) (type_name (Type_ b))
  else
    match a, b with
    | Integer l, Integer r => l <? r
    | Str l, Str r => bytes_lt l r
    | Float l, Float r => floatKeyLess l r
    | Bytes l _, Bytes r _ => bytes_lt l r
    | Boolean l, Boolean r => negb l && r
    | _, _ => bytes_lt aText bText
    end.

(** [compareHashKeys]. *)
Definition compareHashKeys (a b : HashKey) : comparison :=
  match bytes_compare (type_name (hk_Type a)) (type_name (hk_Type b)) with
  | Eq => match hk_Value a ?= hk_Value b with
          | Eq => bytes_compare (hk_Text a) (hk_Text b)
          | c => c
          end
  | c => c
  end.

(** [slices.SortFunc] and [sort.Strings], as insertion. *)
Section Sort.
Context {A : Type} (cmp : A -> A -> comparison).

Fixpoint insert_sorted (x : A) (l : list A) : list A :=
  match l with
  | [] => [x]
  | y :: l => match cmp x y with Gt => y :: insert_sorted x l | _ => x :: y :: l end
  end.

Definition sort_cmp (l : list A) : list A := foldr insert_sorted [] l.
End Sort.

(** The comparison [SortedPairs] hands to the sort, on entries that carry the
    render of their key. *)
Definition entry : Type := (HashKey * (Object * Object)) * list Z.

Definition entry_compare (a b : entry) : comparison :=
  let '((ka, (oa, _)), ta) := a in
  let '((kb, (ob, _)), tb) := b in
  if key_less oa ta ob tb then Lt
  else if key_less ob tb oa ta then Gt
  else compareHashKeys ka kb.

(* ------------------------------------------------------------------ *)
(** ** Rendered forms *)

Definition decimal (n : Z) : list Z := bytes (pretty n).

(** [strings.Join]. *)
Fixpoint join (sep : list Z) (l : list (list Z)) : list Z :=
  match l with
  | [] => []
  | [x] => x
  | x :: l => x ++ sep ++ join sep l
  end.

Definition hex_digit (n : Z) : Z := if n <? 10 then 48 + n else 87 + n.

(** [hex.EncodeToString]. *)
Definition hex (l : list Z) : list Z := concat ((fun b => [hex_digit (b / 16); hex_digit (b mod 16)]) <$> l).

(** Division rounded to nearest, ties to even. *)
Definition div_even (a b : Z) : Z :=
  let q := a / b in
  let r := a mod b in
  match 2 * r ?= b with
  | Lt => q
  | Gt => q + 1
  | Eq => if Z.even q then q else q + 1
  end.

Definition zero_padded (n : nat) (z : Z) : list Z :=
  let d := decimal z in replicate (n - length d) 48 ++ d.

(** [fmt.Sprintf("%f", v)]: six decimals of the exact value. *)
Definition format_f (b : Z) : list Z :=
  if IsNaN b then bytes "NaN"
  else if IsInf b then bytes (if Signbit b then "-Inf" else "+Inf")
  else
    let micro := div_even (Z.abs (scaled b) * 10 ^ 6) (2 ^ 1074) in
    (if Signbit b then [45] else []) ++
    decimal (micro / 10 ^ 6) ++ [46] ++ zero_padded 6 (micro mod 10 ^ 6).

(** [Error.Location]. *)
Definition Location (i : ErrorInfo) : list Z :=
  if err_Line i <=? 0 then []
  else if bool_decide (err_File i = []) then decimal (err_Line i) ++ [58] ++ decimal (err_Column i)
  else err_File i ++ [58] ++ decimal (err_Line i) ++ [58] ++ decimal (err_Column i).

(** [CompiledFunction.Inspect]. *)
Definition inspect_fn (fn : CompiledFunction) : list Z :=
  bytes "fn" ++
  (if bool_decide (Name fn = EmptyString) then [] else [32] ++ bytes (Name fn)) ++
  bytes "(" ++
  (if bool_decide (Params fn = []) then
     (if NumParams fn =? 1 then bytes "<1 parameter>"
      else if 1 <? NumParams fn then bytes "<" ++ decimal (NumParams fn) ++ bytes " parameters>"
      else [])
   else join (bytes ", ") (bytes <$> Params fn)) ++
  bytes ")".

(** [Struct.FieldNames]: the declared names the struct holds, each once, then
    the names it holds beyond them, sorted. *)
Definition field_names {A : Type} (order : list (list Z)) (fields : list (list Z * A)) : list (list Z) :=
  let shown := foldl (fun names name =>
    if bool_decide (name ∈ fields.*1) && negb (bool_decide (name ∈ names))
    then names ++ [name] else names) [] order in
  shown ++ sort_cmp bytes_compare (filter (fun name => name ∉ shown) fields.*1).

(** The text of a cell, which no program can print: it depends on the heap. *)
Class Rendering : Type := { cell_text : nat -> list Z }.

Section Inspect.
Context {R : Rendering}.

(** [Inspect] of every type. *)
Fixpoint Inspect (o : Object) : list Z :=
  match o with
  | Nil => []
  | Integer n => decimal n
  | Float b => format_f b
  | Boolean b => bytes (if b then "true" else "false")
  | Null => []
  | Str s => s
  | Bytes s _ => hex s
  | Array l => bytes "[" ++ join (bytes ", ") (map Inspect l) ++ bytes "]"
  | Hash pairs =>
      let entries := map (fun p : HashKey * (Object * Object) =>
        let '(k, (a, b)) := p in (((k, (a, b)), Inspect a), Inspect b)) pairs in
      let sorted := sort_cmp (fun x y => entry_compare x.1 y.1) entries in
      bytes "{" ++
      join (bytes ", ") (map (fun e : entry * list Z => e.1.2 ++ bytes ": " ++ e.2) sorted) ++
      bytes "}"
  | Struct name order fields =>
      let texts := map (fun p : list Z * Object => let '(n, v) := p in (n, Inspect v)) fields in
      name ++ bytes " { " ++
      join (bytes ", ")
        (map (fun n => n ++ bytes ": " ++ default [] (map_get n texts)) (field_names order texts)) ++
      bytes " }"
  | EnumValue name tag v =>
      name ++ bytes "." ++ tag ++
      match v with
      | Nil | Null => []
      | _ => bytes "(" ++ Inspect v ++ bytes ")"
      end
  | Error i related =>
      let texts := map (fun p : list Z * Object =>
        let '(n, v) := p in (n, match v with Nil => bytes "null" | _ => Inspect v end)) related in
      join (bytes " ")
        ([bytes "ERROR:" ++ Message i] ++
         (if bool_decide (Location i = []) then [] else [bytes "at " ++ Location i]) ++
         (if bool_decide (Context i = []) then [] else [bytes "context=" ++ Context i]) ++
         (if bool_decide (related = []) then [] else
            [bytes "related={" ++
             join (bytes ",")
               (map (fun n => n ++ bytes "=" ++ default [] (map_get n texts))
                  (sort_cmp bytes_compare texts.*1)) ++
             bytes "}"]))
  | MultiValue l =>
      let parts := map (fun v => match v with Nil => bytes "null" | _ => Inspect v end) l in
      match parts with
      | [x; []] => x
      | _ => bytes "(" ++ join (bytes ", ") parts ++ bytes ")"
      end
  | CompiledFn f => inspect_fn (fn_obj f)
  | Closure f _ _ => inspect_fn (fn_obj f)
  | BuiltIn _ => bytes "builtin function"
  | LuaPatch name payload _ =>
      bytes "LuaPatch{name: " ++ name ++ bytes ", encrypted_size: " ++ decimal (zlen payload) ++ bytes "}"
  | Encrypted v _ _ _ => bytes "[" ++ join [32] (map decimal v) ++ bytes "]"
  | Cell loc => cell_text loc
  | Iterator _ => bytes "<iterator>"
  | Break => bytes "break"
  | Continue => bytes "continue"
  | Other _ _ text => text
  end.

(** [hashKeyLess] and [Hash.SortedPairs]. *)
Definition hashKeyLess (a b : Object) : bool := key_less a (Inspect a) b (Inspect b).

Definition SortedPairs (pairs : list (HashKey * (Object * Object))) : list (Object * Object) :=
  (fun e : entry => e.1.2) <$>
  sort_cmp entry_compare ((fun p : HashKey * (Object * Object) => (p, Inspect p.2.1)) <$> pairs).

End Inspect.

Section Examples.
#[local] Instance no_cells : Rendering := {| cell_text _ := [] |}.

Example inspect_hash :
  Inspect (Hash [(Key INTEGER_OBJ 10 [], (Integer 10, Str [120]));
                 (Key INTEGER_OBJ 2 [], (Integer 2, Array [Float 0x3FF8000000000000; Null]))]) =
  bytes "{2: [1.500000, ], 10: x}".
Proof. vm_compute. reflexivity. Qed.

Example inspect_struct :
  Inspect (Struct (bytes "P") [bytes "b"; bytes "a"]
    [(bytes "a", Integer (-1)); (bytes "b", Boolean true)]) = bytes "P { b: true, a: -1 }".
Proof. vm_compute. reflexivity. Qed.

Example format_small : format_f 0xBE7AD7F29ABCAF48 = bytes "-0.000000".
Proof. vm_compute. reflexivity. Qed.
End Examples.
