(* ===== verification/Detach.v ===== *)
(** * The worker boundary: [src/vm/detach.go]

    What crosses into a parallel worker or a spawned task is a copy, except
    cells, which are shared by pointer.  [value] gives a worker cells of its
    own for every cell it could reach.  The store of cells is the one of
    [Machine.v], by location; a new cell is the next location.

    A closure here is a value and not a pointer, so the memo of closures, which
    keeps one Go pointer per closure, has nothing to record: a closure that is
    reached again is walked again, and the memo of cells gives the same answer.
    A rebuilt container is compared by the flag the code returns with it. *)

From stdpp Require Import base list list_numbers numbers gmap sets strings.
From Stdlib Require Import ZArith Lia.
From S2P Require Import Prelude Polymorphic Object.

(** [workerBoundary] with the store it allocates in. *)
Record boundary : Type := Bound { b_cells : gmap nat nat; b_store : list Object }.

Definition newWorkerBoundary (store : list Object) : boundary := Bound ∅ store.

(** The object handed back, and whether it is another one. *)
Definition detached (A : Type) : Type := option (A * bool * boundary).

Section Walk.
Context (value : Object -> boundary -> detached Object).

(** [elements]. *)
Fixpoint elements (l : list Object) (b : boundary) : detached (list Object) :=
  match l with
  | [] => Some ([], false, b)
  | o :: l =>
      match value o b with
      | None => None
      | Some (o', moved, b) =>
          match elements l b with
          | None => None
          | Some (l', changed, b) => Some (o' :: l', moved || changed, b)
          end
      end
  end.

(** [fields]. *)
Fixpoint fields (l : list (list Z * Object)) (b : boundary) : detached (list (list Z * Object)) :=
  match l with
  | [] => Some ([], false, b)
  | (n, o) :: l =>
      match value o b with
      | None => None
      | Some (o', moved, b) =>
          match fields l b with
          | None => None
          | Some (l', changed, b) => Some ((n, o') :: l', moved || changed, b)
          end
      end
  end.

(** The pairs of a hash. *)
Fixpoint pairs (l : list (HashKey * (Object * Object))) (b : boundary) : detached (list (HashKey * (Object * Object))) :=
  match l with
  | [] => Some ([], false, b)
  | (k, (x, y)) :: l =>
      match value x b with
      | None => None
      | Some (x', moved, b) =>
          match value y b with
          | None => None
          | Some (y', moved', b) =>
              match pairs l b with
              | None => None
              | Some (l', changed, b) => Some ((k, (x', y')) :: l', moved || moved' || changed, b)
              end
          end
      end
  end.
End Walk.

Definition rebuild {A} (f : A -> Object) (r : detached A) : detached Object :=
  match r with None => None | Some (a, changed, b) => Some (f a, changed, b) end.

(** [value]: the fuel is spent on cells that were not seen before. *)
Fixpoint value (fuel : nat) : Object -> boundary -> detached Object :=
  fix go (o : Object) (b : boundary) {struct o} : detached Object :=
    match o with
    | Cell loc =>
        match b_cells b !! loc with
        | Some r => Some (Cell r, true, b)
        | None =>
            match fuel with
            | O => None
            | S fuel =>
                match b_store b !! loc with
                | None => None
                | Some content =>
                    let r := length (b_store b) in
                    match value fuel content (Bound (<[loc := r]> (b_cells b)) (b_store b ++ [Nil])) with
                    | None => None
                    | Some (content', _, b) => Some (Cell r, true, Bound (b_cells b) (<[r := content']> (b_store b)))
                    end
                end
            end
        end
    | Closure f free id => rebuild (fun free => Closure f free id) (elements go free b)
    | Array l => rebuild Array (elements go l b)
    | MultiValue l => rebuild MultiValue (elements go l b)
    | Hash l => rebuild Hash (pairs go l b)
    | Struct n order l => rebuild (Struct n order) (fields go l b)
    | EnumValue n tag v => rebuild (EnumValue n tag) (go v b)
    | Error i related => rebuild (Error i) (fields go related b)
    | o => Some (o, false, b)
    end.

Section Boundary.
Context (fuel : nat).

(** [closure] and [slice]. *)
Definition closure (o : Object) (b : boundary) : detached Object := value fuel o b.
Definition slice (l : list Object) (b : boundary) : detached (list Object) := elements (value fuel) l b.

(** [detachAt]. *)
Definition detachAt (globals : list Object) (index : nat) (b : boundary) : option (list Object * boundary) :=
  match globals !! index with
  | None => Some (globals, b)
  | Some o => match value fuel o b with
              | None => None
              | Some (o', _, b) => Some (<[index := o']> globals, b)
              end
  end.

(** [globalsHoldingCells], from the slot [index] on. *)
Fixpoint holding_from (globals : list Object) (index : nat) (b : boundary) : option (list nat) :=
  match globals with
  | [] => Some []
  | o :: globals =>
      match value fuel o b with
      | None => None
      | Some (_, moved, b) =>
          rest ← holding_from globals (S index) b;
          Some (if moved then index :: rest else rest)
      end
  end.

Definition globalsHoldingCells (globals : list Object) (store : list Object) : option (list nat) :=
  holding_from globals 0 (newWorkerBoundary store).

(** The globals of [newWorkerVM]. *)
Fixpoint detach_slots (globals : list Object) (holding : list nat) (b : boundary) : option (list Object * boundary) :=
  match holding with
  | [] => Some (globals, b)
  | index :: holding => '(globals, b) ← detachAt globals index b; detach_slots globals holding b
  end.
End Boundary.

(* ------------------------------------------------------------------ *)
(** ** Objects by their children *)

Fixpoint refill (l : list (HashKey * (Object * Object))) (cs : list Object) : list (HashKey * (Object * Object)) :=
  match l, cs with
  | (k, _) :: l, x :: y :: cs => (k, (x, y)) :: refill l cs
  | _, _ => []
  end.

(** An object with other children in their places. *)
Definition with_children (o : Object) (cs : list Object) : Object :=
  match o with
  | Array _ => Array cs
  | MultiValue _ => MultiValue cs
  | Closure f _ id => Closure f cs id
  | Hash l => Hash (refill l cs)
  | Struct n order l => Struct n order (zip l.*1 cs)
  | Error i l => Error i (zip l.*1 cs)
  | EnumValue n tag _ => EnumValue n tag (default Nil (head cs))
  | o => o
  end.

Lemma children_refill l cs : length cs = length (children (Hash l)) -> children (Hash (refill l cs)) = cs.
Proof.
  revert cs. induction l as [|[k [x y]] l IH]; intros [|a [|b cs]] H; simpl in *; try done.
  injection H as H. do 2 f_equal. by apply IH.
Qed.

Lemma children_with_children o cs : length cs = length (children o) -> children (with_children o cs) = cs.
Proof.
  destruct o as [| | | | | | |l|l|n order l|n tag v|i l|l|f|f l id| | | | | | | |]; simpl; intros H;
    try (by destruct cs); try done.
  - by apply (children_refill l cs).
  - rewrite snd_zip; [done|]. rewrite !length_fmap in *. lia.
  - by destruct cs as [|c [|]].
  - rewrite snd_zip; [done|]. rewrite !length_fmap in *. lia.
Qed.

Lemma with_children_self o : with_children o (children o) = o.
Proof.
  destruct o as [| | | | | | |l|l|n order l|n tag v|i l|l|f|f l id| | | | | | | |]; try done; cbn [with_children]; f_equal.
  - induction l as [|[k [x y]] l IH]; [done|]. simpl in *. by f_equal.
  - apply zip_fst_snd.
  - apply zip_fst_snd.
Qed.

(** A cell an object holds, directly or inside a container. *)
Inductive cell_in (l : nat) : Object -> Prop :=
| cell_here : cell_in l (Cell l)
| cell_below o c : c ∈ children o -> cell_in l c -> cell_in l o.

(** An object with its cells renamed. *)
Fixpoint rename (m : gmap nat nat) (o : Object) : Object :=
  match o with
  | Cell l => Cell (default l (m !! l))
  | Array l => Array (map (rename m) l)
  | MultiValue l => MultiValue (map (rename m) l)
  | Closure f l id => Closure f (map (rename m) l) id
  | Hash l => Hash (map (fun e : HashKey * (Object * Object) =>
                           let '(k, (x, y)) := e in (k, (rename m x, rename m y))) l)
  | Struct n order l => Struct n order (map (fun e : list Z * Object => let '(k, x) := e in (k, rename m x)) l)
  | Error i l => Error i (map (fun e : list Z * Object => let '(k, x) := e in (k, rename m x)) l)
  | EnumValue n tag v => EnumValue n tag (rename m v)
  | o => o
  end.

Definition is_cell (o : Object) : bool := match o with Cell _ => true | _ => false end.

Lemma rename_children m o : is_cell o = false -> rename m o = with_children o (rename m <$> children o).
Proof.
  destruct o as [| | | | | | |l|l|n order l|n tag v|i l|l|f|f l id| | | | | | | |]; intros H; simpl in *; try done; f_equal.
  - induction l as [|[k [x y]] l IH]; [done|]. simpl. by rewrite IH.
  - induction l as [|[k x] l IH]; [done|]. simpl. by rewrite IH.
  - induction l as [|[k x] l IH]; [done|]. simpl. by rewrite IH.
Qed.

Lemma cell_in_children l o : is_cell o = false -> cell_in l o <-> Exists (cell_in l) (children o).
Proof.
  intros Hc. rewrite Exists_exists. split.
  - intros H. inversion H as [E|? c Hin Hl]; subst; [by simpl in Hc | by exists c].
  - intros (c & Hin & Hl). by econstructor.
Qed.

Lemma cell_in_cell l k : cell_in l (Cell k) <-> l = k.
Proof. split; [|intros ->; constructor]. intros H. inversion H as [|? c Hin]; [done|]. simpl in Hin. by apply elem_of_nil in Hin. Qed.

(** Renaming is decided by the cells an object holds. *)
Lemma rename_agree m m' o : (forall l, cell_in l o -> m !! l = m' !! l) -> rename m o = rename m' o.
Proof.
  induction o as [o IH] using children_ind. intros H. destruct (is_cell o) eqn:Ec.
  - destruct o; try done. simpl. rewrite H by constructor. done.
  - rewrite !rename_children by done. f_equal. apply map_ext_in. intros c Hc%list_elem_of_In.
    rewrite Forall_forall in IH. apply IH; [done|]. intros l Hl. apply H. by econstructor.
Qed.

Lemma map_id_Forall {A} (f : A -> A) l : Forall (fun x => f x = x) l -> map f l = l.
Proof. induction 1; simpl; congruence. Qed.

Lemma map_fields_id {K A} (f : A -> A) (l : list (K * A)) :
  Forall (fun e => f e.2 = e.2) l -> map (fun e : K * A => let '(k, x) := e in (k, f x)) l = l.
Proof. induction 1 as [|[k x] l Hx _ IH]; simpl in *; congruence. Qed.

Lemma rename_id m o : (forall l, ~ cell_in l o) -> rename m o = o.
Proof.
  intros H. transitivity (rename ∅ o); [apply rename_agree; intros l Hl; by destruct (H l)|].
  clear m H. revert o. apply (Object_ind' (fun o => rename ∅ o = o)); simpl; intros.
  - by destruct o.
  - f_equal. by apply map_id_Forall.
  - f_equal. induction H as [|[k [x y]] l [Hx Hy] _ IH]; simpl in *; [done|]. by rewrite Hx, Hy, IH.
  - f_equal. by apply map_fields_id.
  - by rewrite H.
  - f_equal. by apply map_fields_id.
  - f_equal. by apply map_id_Forall.
  - f_equal. by apply map_id_Forall.
Qed.

Section Children.
Context (go : Object -> boundary -> detached Object).

Lemma fields_elements l b :
  fields go l b = match elements go l.*2 b with
                  | None => None
                  | Some (cs, ch, b) => Some (zip l.*1 cs, ch, b)
                  end.
Proof.
  revert b. induction l as [|[n o] l IH]; intros b; [done|]. simpl. destruct (go o b) as [[[o' mv] b1]|]; [|done].
  rewrite IH. fold (l.*2). by destruct (elements go _ b1) as [[[cs ch] b2]|].
Qed.

Lemma pairs_elements l b :
  pairs go l b = match elements go (children (Hash l)) b with
                 | None => None
                 | Some (cs, ch, b) => Some (refill l cs, ch, b)
                 end.
Proof.
  revert b. induction l as [|[k [x y]] l IH]; intros b; [done|]. simpl in *. destruct (go x b) as [[[x' mx] b1]|]; [|done].
  destruct (go y b1) as [[[y' my] b2]|]; [|done]. rewrite IH.
  destruct (elements go _ b2) as [[[cs ch] b3]|]; [|done]. by rewrite orb_assoc.
Qed.
End Children.

(** [value] of anything but a cell walks its children. *)
Lemma value_children fuel o b :
  is_cell o = false ->
  value fuel o b = match elements (value fuel) (children o) b with
                   | None => None
                   | Some (cs, ch, b) => Some (with_children o cs, ch, b)
                   end.
Proof.
  intros Hc. destruct fuel as [|fuel]; destruct o as [| | | | | | |l|l|n order l|n tag v|i l|l|f|f l id| | | | | | | |]; try done;
    match goal with
    | |- value ?k (Hash l) b = _ => change (rebuild Hash (pairs (value k) l b) = match elements (value k) (children (Hash l)) b with
        None => None | Some (cs, ch, b) => Some (with_children (Hash l) cs, ch, b) end); rewrite pairs_elements
    | |- value ?k (Struct _ _ l) b = _ => change (rebuild (Struct n order) (fields (value k) l b) =
        match elements (value k) l.*2 b with
        None => None | Some (cs, ch, b) => Some (with_children (Struct n order l) cs, ch, b) end); rewrite fields_elements
    | |- value ?k (Error _ l) b = _ => change (rebuild (Error i) (fields (value k) l b) =
        match elements (value k) l.*2 b with
        None => None | Some (cs, ch, b) => Some (with_children (Error i l) cs, ch, b) end); rewrite fields_elements
    | |- value ?k (EnumValue _ _ v) b = _ => change (rebuild (EnumValue n tag) (value k v b) =
        match elements (value k) [v] b with
        None => None | Some (cs, ch, b) => Some (with_children (EnumValue n tag v) cs, ch, b) end); cbn [elements];
        destruct (value k v b) as [[[? []] ?]|]
    | |- value ?k ?o b = _ => change (rebuild (with_children o) (elements (value k) l b) =
        match elements (value k) l b with
        None => None | Some (cs, ch, b) => Some (with_children o cs, ch, b) end)
    end; unfold rebuild; try done; by destruct (elements _ _ _) as [[[? ?] ?]|].
Qed.

(* ------------------------------------------------------------------ *)
(** ** What a walk does *)

Section Regions.
Context (C : nat -> Prop).

(** The cells of [C] are in the store and hold only each other. *)
Definition closed (store : list Object) : Prop :=
  forall l, C l -> exists v, store !! l = Some v /\ forall k, cell_in k v -> C k.

(** What a boundary keeps: the caller's cells in the store, and one replacement
    in the store for each cell it has seen. *)
Record fits (b : boundary) : Prop := {
  fits_closed : closed (b_store b);
  fits_seen l r : b_cells b !! l = Some r -> C l /\ (r < length (b_store b))%nat }.

(** From [b] to [b']: nothing that was in the store changed, and every cell seen
    on the way got a new location of its own, holding the renamed content. *)
Record walked (b b' : boundary) : Prop := {
  walked_cells : b_cells b ⊆ b_cells b';
  walked_store : b_store b `prefix_of` b_store b';
  walked_new l r : b_cells b' !! l = Some r -> b_cells b !! l = None ->
    (C l /\ length (b_store b) <= r)%nat /\
    exists v, b_store b !! l = Some v /\
      (forall k, cell_in k v -> is_Some (b_cells b' !! k)) /\
      b_store b' !! r = Some (rename (b_cells b') v);
  walked_apart l l' r : b_cells b' !! l = Some r -> b_cells b' !! l' = Some r ->
    b_cells b !! l = None -> b_cells b !! l' = None -> l = l';
  walked_made r : (length (b_store b) <= r < length (b_store b'))%nat -> exists l, b_cells b' !! l = Some r }.

Lemma walked_refl b : walked b b.
Proof. split; try done; [naive_solver..|lia]. Qed.

Lemma walked_old b b' l v : walked b b' -> b_store b !! l = Some v -> b_store b' !! l = Some v.
Proof. intros Hw Hl. eapply prefix_lookup_Some; [done|]. apply Hw. Qed.

Lemma walked_length b b' : walked b b' -> (length (b_store b) <= length (b_store b'))%nat.
Proof. intros Hw. by apply prefix_length, Hw. Qed.

(** A renaming already complete for an object stays the same. *)
Lemma rename_later b b' o :
  b_cells b ⊆ b_cells b' -> (forall k, cell_in k o -> is_Some (b_cells b !! k)) ->
  rename (b_cells b) o = rename (b_cells b') o.
Proof.
  intros Hs Ho. apply rename_agree. intros l [r Hr]%Ho. rewrite Hr. symmetry. by eapply lookup_weaken.
Qed.

Lemma walked_trans b1 b2 b3 : fits b1 -> fits b2 -> walked b1 b2 -> walked b2 b3 -> walked b1 b3.
Proof.
  intros Hf1 Hf2 H12 H23. split.
  - etrans; [apply H12 | apply H23].
  - etrans; [apply H12 | apply H23].
  - intros l r Hr Hl. destruct (b_cells b2 !! l) as [r2|] eqn:E2.
    + assert (r2 = r) as -> by (eapply lookup_weaken in E2; [|apply H23]; congruence).
      destruct (walked_new _ _ H12 l r E2 Hl) as ([HC Hle] & v & Hv & Hd & Hst). split; [done|]. exists v.
      split; [done|]. split; [intros k [x Hx]%Hd; exists x; eapply lookup_weaken; [done|apply H23]|].
      rewrite (rename_later b2 b3 v) in Hst; [|apply H23|done]. by eapply walked_old.
    + destruct (walked_new _ _ H23 l r Hr E2) as ([HC Hle] & v & Hv & Hd & Hst).
      pose proof (walked_length _ _ H12). split; [split; [done|lia]|]. exists v. split; [|done].
      destruct (fits_closed _ Hf1 l HC) as (w & Hw & _). pose proof (walked_old _ _ _ _ H12 Hw). congruence.
  - intros l l' r Hr Hr' Hl Hl'. destruct (b_cells b2 !! l) as [x|] eqn:E, (b_cells b2 !! l') as [y|] eqn:E'.
    + assert (x = r) as -> by (eapply lookup_weaken in E; [|apply H23]; congruence).
      assert (y = r) as -> by (eapply lookup_weaken in E'; [|apply H23]; congruence).
      by eapply H12.
    + assert (x = r) as -> by (eapply lookup_weaken in E; [|apply H23]; congruence).
      destruct (walked_new _ _ H23 _ _ Hr' E') as [[_ ?] _]. apply fits_seen in E as [_ ?]; [lia|done].
    + assert (y = r) as -> by (eapply lookup_weaken in E'; [|apply H23]; congruence).
      destruct (walked_new _ _ H23 _ _ Hr E) as [[_ ?] _]. apply fits_seen in E' as [_ ?]; [lia|done].
    + by eapply H23.
  - intros r Hr. destruct (decide (r < length (b_store b2))%nat) as [Hlt|Hge].
    + destruct (walked_made _ _ H12 r ltac:(lia)) as [l Hl]. exists l. eapply lookup_weaken; [done|apply H23].
    + apply H23. lia.
Qed.

(** What [value] promises of one object. *)
Definition detaches (go : Object -> boundary -> detached Object) (o : Object) : Prop := forall b o' ch b',
  go o b = Some (o', ch, b') -> fits b -> (forall k, cell_in k o -> C k) ->
  fits b' /\ walked b b' /\ (forall k, cell_in k o -> is_Some (b_cells b' !! k)) /\
  o' = rename (b_cells b') o /\ (ch = true <-> exists k, cell_in k o).

Lemma elements_detach go l b l' ch b' :
  Forall (detaches go) l ->
  elements go l b = Some (l', ch, b') -> fits b -> Forall (fun o => forall k, cell_in k o -> C k) l ->
  fits b' /\ walked b b' /\ Forall (fun o => forall k, cell_in k o -> is_Some (b_cells b' !! k)) l /\
  l' = rename (b_cells b') <$> l /\ (ch = true <-> exists k, Exists (cell_in k) l).
Proof.
  intros Hgo. revert b l' ch b'. induction Hgo as [|o l Ho _ IH]; intros b l' ch b' E Hb HC; simpl in E.
  - simplify_eq. split_and!; [done|apply walked_refl|done..|]. split; [done|]. intros [k Hk]. inversion Hk.
  - destruct (go o b) as [[[o' mv] b1]|] eqn:E1; [|done].
    destruct (elements go l b1) as [[[l1 ch1] b2]|] eqn:E2; [|done]. simplify_eq. inversion_clear HC as [|? ? HCo HCl].
    destruct (Ho _ _ _ _ E1 Hb HCo) as (Hb1 & W1 & D1 & R1 & M1).
    destruct (IH _ _ _ _ E2 Hb1 HCl) as (Hb2 & W2 & D2 & R2 & M2).
    split_and!; [done|by apply (walked_trans b b1 b')| | |].
    + constructor; [|done]. intros k [x Hx]%D1. exists x. eapply lookup_weaken; [done|apply W2].
    + rewrite fmap_cons. f_equal; [|done]. rewrite R1. apply rename_later; [apply W2|done].
    + rewrite orb_true_iff, M1, M2. setoid_rewrite Exists_cons. naive_solver.
Qed.

(** A cell seen for the first time. *)
Lemma fits_enter b loc :
  fits b -> C loc -> fits (Bound (<[loc := length (b_store b)]> (b_cells b)) (b_store b ++ [Nil])).
Proof.
  intros [Hc Hs] HC. split; cbn.
  - intros l Hl. destruct (Hc l Hl) as (v & Hv & Hk). exists v. split; [by apply lookup_app_l_Some | done].
  - intros l r [[<- <-]|[_ Hr]]%lookup_insert_Some; rewrite length_app; simpl; [split; [done|lia]|].
    apply Hs in Hr as [? ?]. split; [done|lia].
Qed.

Lemma fits_fill b r v : fits b -> ~ C r -> fits (Bound (b_cells b) (<[r := v]> (b_store b))).
Proof.
  intros [Hc Hs] Hr. split; cbn.
  - intros l Hl. rewrite list_lookup_insert_ne by (intros ->; done). by apply Hc.
  - intros l x Hx. rewrite length_insert. by eapply Hs.
Qed.

Lemma walked_cell b b2 loc v content :
  let r := length (b_store b) in
  let b1 := Bound (<[loc := r]> (b_cells b)) (b_store b ++ [Nil]) in
  fits b -> C loc -> b_cells b !! loc = None -> b_store b !! loc = Some v ->
  walked b1 b2 -> (forall k, cell_in k v -> is_Some (b_cells b2 !! k)) -> content = rename (b_cells b2) v ->
  walked b (Bound (b_cells b2) (<[r := content]> (b_store b2))) /\ b_cells b2 !! loc = Some r.
Proof.
  intros r b1 Hb HC Hnew Hv W Hd ->.
  assert (b_cells b2 !! loc = Some r) as Hloc.
  { eapply lookup_weaken; [|apply W]. cbn. by rewrite lookup_insert_eq. }
  assert (r < length (b_store b2))%nat as Hr.
  { apply walked_length in W. cbn in W. rewrite length_app in W. cbn in W. unfold r. lia. }
  split; [|done]. split; cbn.
  - etrans; [|apply W]. cbn. by apply insert_subseteq.
  - destruct (walked_store _ _ W) as [ext Eext]. cbn in Eext. rewrite Eext. rewrite <- app_assoc. unfold r.
    rewrite insert_app_r_alt by lia. rewrite Nat.sub_diag. cbn. by eexists.
  - intros l x Hx Hl. destruct (decide (l = loc)) as [->|Hne].
    + assert (x = r) as -> by congruence. split; [done|]. exists v. split_and!; [done|done|].
      by rewrite list_lookup_insert_eq.
    + destruct (walked_new _ _ W l x Hx) as ([? Hle] & w & Hw & Hdw & Hst).
      { cbn. by rewrite lookup_insert_ne. }
      cbn in Hle. rewrite length_app in Hle. cbn in Hle. split; [split; [done|lia]|]. exists w.
      split_and!; [|done|].
      * destruct (fits_closed _ Hb l ltac:(done)) as (w' & Hw' & _). cbn in Hw.
        rewrite (lookup_app_l_Some _ _ _ _ Hw') in Hw. congruence.
      * rewrite list_lookup_insert_ne by (unfold r; lia). done.
  - intros l l' x Hx Hx' Hl Hl'. destruct (decide (l = loc)) as [->|Hne], (decide (l' = loc)) as [->|Hne']; try done.
    + assert (x = r) as -> by congruence. destruct (walked_new _ _ W l' r Hx') as ([_ Hle] & _).
      { cbn. by rewrite lookup_insert_ne. } cbn in Hle. rewrite length_app in Hle. cbn in Hle. unfold r in Hle. lia.
    + assert (x = r) as -> by congruence. destruct (walked_new _ _ W l r Hx) as ([_ Hle] & _).
      { cbn. by rewrite lookup_insert_ne. } cbn in Hle. rewrite length_app in Hle. cbn in Hle. unfold r in Hle. lia.
    + eapply (walked_apart _ _ W); [done|done|cbn; by rewrite lookup_insert_ne..].
  - intros x Hx. rewrite length_insert in Hx. destruct (decide (x = r)) as [->|Hne]; [by exists loc|].
    apply (walked_made _ _ W). cbn. rewrite length_app. cbn. unfold r in Hne. lia.
Qed.

Lemma container_detaches fuel o : is_cell o = false -> Forall (detaches (value fuel)) (children o) -> detaches (value fuel) o.
Proof.
  intros Hc Hch b o' ch b' E Hb HC. rewrite value_children in E by done.
  destruct (elements _ _ _) as [[[cs ch1] b1]|] eqn:E1; [|done]. simplify_eq.
  destruct (elements_detach _ _ _ _ _ _ Hch E1 Hb) as (Hb1 & W & D & R & Hm).
  { apply Forall_forall. intros c Hin k Hk. apply HC. by econstructor. }
  split_and!; [done|done| |by rewrite rename_children, R|].
  - intros k [c [Hin Hk]]%cell_in_children%Exists_exists; [|done]. rewrite Forall_forall in D. by apply (D c).
  - rewrite Hm. by setoid_rewrite cell_in_children.
Qed.

Lemma cell_detaches fuel loc :
  (forall o, match fuel with O => True | S fuel => detaches (value fuel) o end) -> detaches (value fuel) (Cell loc).
Proof.
  intros IH b o' ch b' E Hb HC.
  assert (C loc) as HCl by (apply HC; constructor).
  assert (forall b2, is_Some (b_cells b2 !! loc) -> forall k, cell_in k (Cell loc) -> is_Some (b_cells b2 !! k)) as Hin
    by (by intros b2 ? k ->%cell_in_cell).
  assert (true = true <-> exists k, cell_in k (Cell loc)) as Hm by (split; [exists loc; constructor|done]).
  destruct (b_cells b !! loc) as [r|] eqn:El.
  - assert (value fuel (Cell loc) b = Some (Cell r, true, b)) as E' by (destruct fuel; simpl; by rewrite El).
    rewrite E' in E. simplify_eq. split_and!; [done|apply walked_refl|by apply Hin|simpl; by rewrite El|done].
  - destruct fuel as [|fuel]; simpl in E; rewrite El in E; [done|].
    destruct (fits_closed _ Hb loc HCl) as (v & Hv & Hk). rewrite Hv in E.
    destruct (value fuel v _) as [[[w ch1] b2]|] eqn:E2; [|done]. simplify_eq.
    assert (~ C (length (b_store b))) as Hr.
    { intros (x & Hx%lookup_lt_Some & _)%(fits_closed _ Hb). lia. }
    destruct (IH v _ _ _ _ E2) as (Hb2 & W & D & R & _); [by apply fits_enter|done|].
    destruct (walked_cell b b2 loc v w Hb HCl El Hv W D R) as [W' Hloc].
    split_and!; [by apply fits_fill|done|by apply Hin|cbn [b_cells rename]; by rewrite Hloc|done].
Qed.

Lemma value_detaches fuel o : detaches (value fuel) o.
Proof.
  revert o. induction fuel as [|fuel IHf]; intros o; induction o as [o IHo] using children_ind;
    (destruct (is_cell o) eqn:Ec; [|by apply container_detaches]); destruct o; try done; by apply cell_detaches.
Qed.

Lemma slice_detaches fuel l b l' ch b' :
  slice fuel l b = Some (l', ch, b') -> fits b -> Forall (fun o => forall k, cell_in k o -> C k) l ->
  fits b' /\ walked b b' /\ Forall (fun o => forall k, cell_in k o -> is_Some (b_cells b' !! k)) l /\
  l' = rename (b_cells b') <$> l /\ (ch = true <-> exists k, Exists (cell_in k) l).
Proof. intros. eapply elements_detach; [|done..]. apply Forall_true. intros. apply value_detaches. Qed.
End Regions.

(* ------------------------------------------------------------------ *)
(** ** The walk ends *)

Section Total.
Context (C : nat -> Prop) (n : nat).
Hypothesis C_bound : forall l, C l -> (l < n)%nat.

(** Cells that may still be seen for the first time. *)
Definition unseen (b : boundary) : nat := size (set_seq (C := gset nat) 0 n ∖ dom (b_cells b)).

Lemma unseen_grows b b' : b_cells b ⊆ b_cells b' -> (unseen b' <= unseen b)%nat.
Proof. intros Hs%subseteq_dom. unfold unseen. apply subseteq_size. set_solver. Qed.

Lemma unseen_enter b loc r store :
  (loc < n)%nat -> b_cells b !! loc = None -> (unseen (Bound (<[loc := r]> (b_cells b)) store) < unseen b)%nat.
Proof.
  intros Hn Hl%not_elem_of_dom. unfold unseen. cbn. rewrite dom_insert_L. apply subset_size.
  split; [set_solver|]. intros Hs. specialize (Hs loc). rewrite !elem_of_difference, elem_of_set_seq in Hs.
  set_solver by lia.
Qed.

Definition ends (fuel : nat) (o : Object) : Prop := forall b,
  fits C b -> (forall k, cell_in k o -> C k) -> (unseen b <= fuel)%nat -> is_Some (value fuel o b).

Lemma elements_end fuel l b :
  Forall (ends fuel) l -> fits C b -> Forall (fun o => forall k, cell_in k o -> C k) l -> (unseen b <= fuel)%nat ->
  is_Some (elements (value fuel) l b).
Proof.
  intros Hl. revert b. induction Hl as [|o l Ho _ IH]; intros b Hb HC Hu; [by eexists|].
  inversion_clear HC as [|? ? HCo HCl]. cbn [elements]. destruct (Ho b Hb HCo Hu) as [[[o' mv] b1] E1]. rewrite E1.
  destruct (value_detaches C fuel o _ _ _ _ E1 Hb HCo) as (Hb1 & W & _).
  destruct (IH b1) as [[[l' ch] b2] E2]; [done|done| |rewrite E2; by eexists].
  pose proof (unseen_grows _ _ (walked_cells _ _ _ W)). lia.
Qed.

Lemma value_ends fuel o : ends fuel o.
Proof.
  revert o. induction fuel as [|fuel IHf]; intros o; induction o as [o IHo] using children_ind; intros b Hb HC Hu;
    (destruct (is_cell o) eqn:Ec;
     [destruct o; try done | rewrite value_children by done;
      destruct (elements_end _ _ b IHo) as [[[? ?] ?] ->]; [done| |done|by eexists]; apply Forall_forall;
      intros c Hin k Hk; apply HC; by econstructor]);
    (assert (C loc) as HCl by (apply HC; constructor)); simpl; (destruct (b_cells b !! loc) as [r|] eqn:El; [by eexists|]);
    pose proof (unseen_enter b loc (length (b_store b)) (b_store b ++ [Nil]) (C_bound _ HCl) El) as Hlt; [lia|].
  destruct (fits_closed _ _ Hb loc HCl) as (v & Hv & Hk). rewrite Hv.
  destruct (IHf v (Bound (<[loc := length (b_store b)]> (b_cells b)) (b_store b ++ [Nil]))) as [[[? ?] ?] ->];
    [by apply fits_enter|done|lia|by eexists].
Qed.

Lemma slice_ends fuel l b :
  fits C b -> Forall (fun o => forall k, cell_in k o -> C k) l -> (unseen b <= fuel)%nat -> is_Some (slice fuel l b).
Proof. intros. apply elements_end; [|done..]. apply Forall_true. intros. apply value_ends. Qed.
End Total.

(* ------------------------------------------------------------------ *)
(** ** What a worker is given *)

(** The cells reachable from objects through a store. *)
Inductive reach (store : list Object) (l : list Object) : nat -> Prop :=
| reach_held o k : o ∈ l -> cell_in k o -> reach store l k
| reach_cell k v k' : reach store l k -> store !! k = Some v -> cell_in k' v -> reach store l k'.

(** The cells of a renamed object are names given. *)
Lemma rename_cells m o r : cell_in r (rename m o) -> exists k, cell_in k o /\ r = default k (m !! k).
Proof.
  induction o as [o IH] using children_ind. destruct (is_cell o) eqn:Ec.
  - destruct o; try done. simpl. intros ->%cell_in_cell. exists loc. split; [constructor|done].
  - rewrite rename_children by done. intros Hr. rewrite cell_in_children in Hr by (by destruct o).
    rewrite children_with_children in Hr by (by rewrite length_fmap).
    apply Exists_exists in Hr as (c' & (c & -> & Hc)%list_elem_of_fmap & Hr). rewrite Forall_forall in IH.
    destruct (IH c Hc Hr) as (k & Hk & ->). exists k. split; [by econstructor|done].
Qed.

(** No reachable cell is missing from the store. *)
Definition sound (store l : list Object) : Prop := forall k, reach store l k -> (k < length store)%nat.

Lemma sound_closed store l : sound store l -> closed (reach store l) store.
Proof.
  intros Hs k Hk. destruct (lookup_lt_is_Some_2 store k (Hs k Hk)) as [v Hv]. exists v. split; [done|].
  intros k' Hk'. by eapply reach_cell.
Qed.

Lemma sound_fits store l : sound store l -> fits (reach store l) (newWorkerBoundary store).
Proof. intros Hs. split; cbn; [by apply sound_closed|]. intros k r Hr. by rewrite lookup_empty in Hr. Qed.

Lemma reach_held_all store l : Forall (fun o => forall k, cell_in k o -> reach store l k) l.
Proof. apply Forall_forall. intros o Ho k Hk. by eapply reach_held. Qed.

(** C14: what [slice] hands a worker (its globals, its function and its
    arguments together) is the caller's with every reachable cell replaced: the
    walk ends; the caller's store is untouched; each reachable cell has exactly
    one replacement, so two names for one cell are still one cell and two cells
    stay two; a replacement holds the content of its cell with its cells
    replaced; and nothing the worker can reach was in the store before. *)
Theorem a_worker_gets_its_own_cells (store l : list Object) :
  sound store l ->
  exists l' ch m store',
    slice (length store) l (newWorkerBoundary store) = Some (l', ch, Bound m store') /\
    store `prefix_of` store' /\
    l' = rename m <$> l /\
    (forall k, is_Some (m !! k) <-> reach store l k) /\
    (forall k k' r, m !! k = Some r -> m !! k' = Some r -> k = k') /\
    (forall k r v, m !! k = Some r -> store !! k = Some v -> store' !! r = Some (rename m v)) /\
    (forall r, reach store' l' r -> (length store <= r < length store')%nat).
Proof.
  intros Hs. set (C := reach store l). pose proof (sound_fits _ _ Hs) as Hb. fold C in Hb.
  destruct (slice_ends C (length store) Hs (length store) l (newWorkerBoundary store) Hb) as [[[l' ch] [m store']] E];
    [apply reach_held_all| |].
  { unfold unseen. cbn. rewrite dom_empty_L, difference_empty_L, size_set_seq. done. }
  exists l', ch, m, store'. split; [done|].
  destruct (slice_detaches C _ _ _ _ _ _ E Hb (reach_held_all _ _)) as (Hb' & W & D & R & _).
  pose proof (walked_store _ _ _ W) as Hp. cbn in Hp, R, D.
  assert (forall k r, m !! k = Some r -> exists v, store !! k = Some v /\
            (forall k', cell_in k' v -> is_Some (m !! k')) /\ store' !! r = Some (rename m v) /\ (length store <= r)%nat) as Hnew.
  { intros k r Hr. destruct (walked_new _ _ _ W k r Hr) as ([_ Hle] & v & Hv & Hd & Hst); [apply lookup_empty|].
    exists v. by cbn in *. }
  assert (forall k, C k -> is_Some (m !! k)) as Hin.
  { induction 1 as [o k Ho Hk|k v k' Hk [r Hr] Hv Hk'].
    - rewrite Forall_forall in D. by apply (D o).
    - destruct (Hnew k r Hr) as (v' & Hv' & Hd & _). apply Hd. congruence. }
  split_and!; [done|done| | | |].
  - intros k. split; [intros [r Hr]; by apply (fits_seen _ _ Hb') in Hr as [? _] | apply Hin].
  - intros k k' r Hr Hr'. eapply (walked_apart _ _ _ W); [done|done|apply lookup_empty..].
  - intros k r v Hr Hv. destruct (Hnew k r Hr) as (v' & Hv' & _ & Hst & _). congruence.
  - assert (forall r, reach store' l' r -> exists k, m !! k = Some r) as Hr.
    { assert (forall o r, (forall k, cell_in k o -> is_Some (m !! k)) -> cell_in r (rename m o) -> exists k, m !! k = Some r)
        as Himg. { intros o r Hd (k & [x Hx]%Hd & ->)%rename_cells. exists k. by rewrite Hx. }
      induction 1 as [o r Ho Hr|r v r' _ [k Hk] Hv Hr].
      - rewrite R in Ho. apply list_elem_of_fmap in Ho as (o0 & -> & Ho). eapply Himg; [|done].
        rewrite Forall_forall in D. by apply D.
      - destruct (Hnew k r Hk) as (w & _ & Hd & Hst & _). simplify_eq. by eapply Himg. }
    intros r [k Hk]%Hr. destruct (Hnew k r Hk) as (v & _ & _ & Hst & Hle). apply lookup_lt_Some in Hst. lia.
Qed.

(** An element that crosses later, through the same boundary, stays among the
    worker's cells: those it had and the ones made for it. *)
Lemma later_values_stay_with_the_worker (C R : nat -> Prop) fuel o b o' ch b' :
  fits C b -> (forall k, cell_in k o -> C k) -> value fuel o b = Some (o', ch, b') ->
  closed R (b_store b) -> (forall k r, b_cells b !! k = Some r -> R r) ->
  let R' r := R r \/ (length (b_store b) <= r < length (b_store b'))%nat in
  closed R' (b_store b') /\ (forall k, cell_in k o' -> R' k) /\ b_store b `prefix_of` b_store b'.
Proof.
  intros Hb HC E HR Hm R'. destruct (value_detaches C fuel o _ _ _ _ E Hb HC) as (Hb' & W & D & -> & _).
  assert (forall k r, b_cells b' !! k = Some r -> R' r) as Himg.
  { intros k r Hr. destruct (b_cells b !! k) as [x|] eqn:Ex.
    - left. apply (Hm k). pose proof (lookup_weaken _ _ _ _ Ex (walked_cells _ _ _ W)). congruence.
    - right. destruct (walked_new _ _ _ W k r Hr Ex) as ([_ Hle] & v & _ & _ & Hst%lookup_lt_Some). lia. }
  assert (forall v r, (forall k, cell_in k v -> is_Some (b_cells b' !! k)) -> cell_in r (rename (b_cells b') v) -> R' r)
    as Hren. { intros v r Hd (k & [x Hx]%Hd & ->)%rename_cells. rewrite Hx. by eapply Himg. }
  split_and!; [|intros k; by apply Hren|apply W].
  intros r [Hr|Hr].
  - destruct (HR r Hr) as (v & Hv & Hk). exists v. split; [by eapply walked_old|]. intros k ?%Hk. by left.
  - destruct (walked_made _ _ _ W r Hr) as [k Hk]. assert (b_cells b !! k = None) as Hn.
    { destruct (b_cells b !! k) as [x|] eqn:Ex; [|done]. pose proof (fits_seen _ _ Hb _ _ Ex) as [_ ?].
      eapply lookup_weaken in Ex; [|apply W]. simplify_eq. lia. }
    destruct (walked_new _ _ _ W k r Hk Hn) as (_ & v & _ & Hd & Hst). eexists. split; [done|]. intros x. by apply Hren.
Qed.

(* ------------------------------------------------------------------ *)
(** ** The scan that is hoisted *)

(** A value without a cell is handed back as it is. *)
Lemma value_leaves fuel o b : (forall k, ~ cell_in k o) -> value fuel o b = Some (o, false, b).
Proof.
  revert b. induction o as [o IH] using children_ind. intros b Hn.
  assert (is_cell o = false) as Hc by (destruct o; try done; by destruct (Hn loc); constructor).
  rewrite value_children by done.
  assert (forall b, elements (value fuel) (children o) b = Some (children o, false, b)) as ->.
  { assert (Forall (fun c => forall k, ~ cell_in k c) (children o)) as Hch.
    { apply Forall_forall. intros c Hin k Hk. apply (Hn k). by econstructor. }
    clear Hn Hc b. induction IH as [|c cs Hv _ IHl]; intros b; [done|]. inversion_clear Hch.
    cbn [elements]. rewrite Hv by done. by rewrite IHl. }
  by rewrite with_children_self.
Qed.

Lemma detach_holding C fuel globals pre b0 b holding :
  fits C b0 -> Forall (fun o => forall k, cell_in k o -> C k) globals ->
  holding_from fuel globals (length pre) b0 = Some holding ->
  detach_slots fuel (pre ++ globals) holding b =
  match slice fuel globals b with None => None | Some (l', _, b') => Some (pre ++ l', b') end.
Proof.
  intros Hb0 HC. revert pre b0 b holding Hb0. induction HC as [|o globals HCo HCl IH]; intros pre b0 b holding Hb0 E; simpl in E.
  - simplify_eq. done.
  - destruct (value fuel o b0) as [[[o0 mv] b1]|] eqn:E1; [|done].
    destruct (value_detaches C fuel o _ _ _ _ E1 Hb0 HCo) as (Hb1 & _ & _ & _ & Hm).
    destruct (holding_from fuel globals (S (length pre)) b1) as [rest|] eqn:E2; [|done]. simpl in E. simplify_eq.
    assert (forall x, length (pre ++ [x]) = S (length pre)) as Hlen by (intros; rewrite length_app; simpl; lia).
    cbn [slice elements]. destruct mv.
    + cbn [detach_slots]. unfold detachAt. rewrite list_lookup_middle by done.
      destruct (value fuel o b) as [[[o' ?] b']|]; [|done]. simpl.
      rewrite insert_app_r_alt by lia. rewrite Nat.sub_diag. cbn.
      rewrite <- (Hlen o') in E2. specialize (IH _ _ b' _ Hb1 E2). rewrite <- app_assoc in IH. simpl in IH. rewrite IH.
      unfold slice. destruct (elements _ _ _) as [[[? ?] ?]|]; [|done]. by rewrite <- app_assoc.
    + assert (forall k, ~ cell_in k o) as Hn by (intros k Hk; assert (false = true) by (apply Hm; by exists k); done).
      rewrite value_leaves by done. rewrite <- (Hlen o) in E2. specialize (IH _ _ b _ Hb1 E2).
      rewrite <- app_assoc in IH. simpl in IH. rewrite IH.
      unfold slice. destruct (elements _ _ _) as [[[? ?] ?]|]; [|done]. by rewrite <- app_assoc.
Qed.

Lemma holding_ends C n fuel globals index b :
  (forall l, C l -> (l < n)%nat) -> fits C b -> Forall (fun o => forall k, cell_in k o -> C k) globals ->
  (unseen n b <= fuel)%nat -> is_Some (holding_from fuel globals index b).
Proof.
  intros Hn Hb HC. revert index b Hb. induction HC as [|o globals HCo HCl IH]; intros index b Hb Hu; [by eexists|].
  cbn [holding_from]. destruct (value_ends C n Hn fuel o b Hb HCo Hu) as [[[o' mv] b1] E1]. rewrite E1.
  destruct (value_detaches C fuel o _ _ _ _ E1 Hb HCo) as (Hb1 & W & _).
  pose proof (unseen_grows C n Hn b b1 (walked_cells _ _ _ W)).
  destruct (IH (S index) b1 Hb1 ltac:(lia)) as [rest ->]. by eexists.
Qed.

(** C28: scanning the globals once per call and detaching only the slots it
    reports gives every worker exactly what detaching all of its globals would,
    and the scan ends. *)
Theorem the_hoisted_scan_misses_nothing (store globals : list Object) (fuel : nat) (b : boundary) :
  sound store globals -> (length store <= fuel)%nat ->
  exists holding, globalsHoldingCells fuel globals store = Some holding /\
    detach_slots fuel globals holding b =
    match slice fuel globals b with None => None | Some (globals', _, b') => Some (globals', b') end.
Proof.
  intros Hs Hf. pose proof (sound_fits _ _ Hs) as Hb.
  destruct (holding_ends _ (length store) fuel globals 0 (newWorkerBoundary store) Hs Hb) as [holding E];
    [apply reach_held_all| |].
  { unfold unseen. cbn. rewrite dom_empty_L, difference_empty_L, size_set_seq. done. }
  exists holding. split; [done|].
  exact (detach_holding _ fuel globals [] (newWorkerBoundary store) b holding Hb (reach_held_all _ _) E).
Qed.

(* ------------------------------------------------------------------ *)
(** ** A program with a counter, a recursive closure and a plain global *)

Lemma closed_sound store l n :
  (n <= length store)%nat -> Forall (fun o => forall k, cell_in k o -> (k < n)%nat) (take n store) ->
  Forall (fun o => forall k, cell_in k o -> (k < n)%nat) l -> sound store l.
Proof.
  intros Hn Hst Hl. assert (forall k, reach store l k -> (k < n)%nat) as H; [|intros k ?%H; lia].
  induction 1 as [o k Ho Hk|k v k' _ Hk Hv Hk'].
  - rewrite Forall_forall in Hl. by eapply Hl.
  - rewrite Forall_forall in Hst. eapply (Hst v); [|done]. apply list_elem_of_lookup. exists k. by rewrite lookup_take_lt.
Qed.

Module Example_.
Definition fn : FnPtr := Ptr 7 (Fn [] 0 0 [] "rec" [] [] [] [] []).

(** [count = 3], [rec = fn() { ... count, rec ... }], and a third cell nobody holds. *)
Definition store : list Object := [Integer 3; Closure fn [Cell 0; Cell 1] (Some 2%nat); Null].
Definition values : list Object := [Str [65]; Array [Cell 1; Integer 9]; Closure fn [Cell 0] None].

Ltac cells :=
  repeat match goal with
  | |- Forall _ _ => constructor
  | |- forall k, cell_in k _ -> _ => intros ? ?
  | H : cell_in _ (Cell _) |- _ => apply cell_in_cell in H; subst; lia
  | H : cell_in _ _ |- _ => rewrite cell_in_children in H by done; simpl in H
  | H : Exists _ [] |- _ => by inversion H
  | H : Exists _ (_ :: _) |- _ => rewrite Exists_cons in H; destruct H
  end.

Lemma values_sound : sound store values.
Proof. apply (closed_sound _ _ 2); [simpl; lia | cbn [take store] | unfold values]; cells. Qed.

Example detached_values :
  slice 3 values (newWorkerBoundary store) =
  Some ([Str [65]; Array [Cell 3; Integer 9]; Closure fn [Cell 4] None], true,
        Bound (<[0%nat := 4%nat]> (<[1%nat := 3%nat]> ∅))
              (store ++ [Closure fn [Cell 4; Cell 3] (Some 2%nat); Integer 3])).
Proof. vm_compute. reflexivity. Qed.

Lemma a_worker_gets_its_own_cells_witness :
  sound store values /\
  exists l' ch m store',
    slice 3 values (newWorkerBoundary store) = Some (l', ch, Bound m store') /\ store `prefix_of` store' /\
    forall r, reach store' l' r -> (3 <= r < length store')%nat.
Proof.
  split; [apply values_sound|].
  destruct (a_worker_gets_its_own_cells store values values_sound)
    as (l' & ch & m & store' & E & Hp & _ & _ & _ & _ & Hr).
  by exists l', ch, m, store'.
Defined.

Lemma the_hoisted_scan_misses_nothing_witness :
  globalsHoldingCells 3 values store = Some [1%nat; 2%nat] /\
  exists holding, globalsHoldingCells 3 values store = Some holding /\
    detach_slots 3 values holding (newWorkerBoundary store) =
    match slice 3 values (newWorkerBoundary store) with None => None | Some (g, _, b) => Some (g, b) end.
Proof.
  split; [vm_compute; reflexivity|].
  apply (the_hoisted_scan_misses_nothing store values 3 (newWorkerBoundary store) values_sound). simpl. lia.
Defined.
End Example_.
