(* ===== verification/Tasks.v ===== *)
(** * Spawned tasks: [src/builtin/tasks.go]

    The registry of spawned tasks: handles, the ceiling on live tasks, retained
    results and their eviction, waiting for one task and for all of them.  What an
    operation does while it holds the registry's lock is one step; the counter
    [liveTasks], which it raises or lowers after it let the lock go, is another, and
    anything may happen in between.  A task is a pointer in
    Go; it is its handle here, which no other task ever has, so a waiter that
    looked a task up still reads it after the registry has let it go. *)

From stdpp Require Import base list list_numbers numbers gmap sets strings relations.
From Stdlib Require Import ZArith Lia.
From S2P Require Import Prelude Polymorphic Object.

Definition maxLiveTasks : Z := 1024.
Definition maxRetainedTasks : nat := 4096.

(** A Go error, with what [failureSite] offers about it. *)
Record failure : Type := Failure {
  f_Error : list Z; f_site : option (list Z * Z * Z * list (list Z)) }.

(** [managedTask]; [done] is a channel that is open or closed. *)
Record managedTask : Type := Task { done : bool; t_result : Object; t_failure : option failure }.

(** [taskRegistry], with the tasks by handle. *)
Record registry : Type := Registry {
  tasks : gset Z; memory : gmap Z managedTask; nextID : Z; live : Z; finished : list Z }.

Definition empty_registry : registry := Registry ∅ ∅ 1 0 [].

(** [newError] as the builtin [name] raises it, and [resultAndError]. *)
Definition builtin_error (name : string) (pieces : list (list Z)) : Object :=
  Error (Info (concat pieces) (bytes ("builtin." ++ name)) [] 0 0 0 0 [] []) [].

Definition resultAndError (result : option Object) (err : option Object) : Object :=
  MultiValue [default Null result; default Null err].

(** [RegisterTask], while it holds the lock. *)
Definition RegisterTask (r : registry) : (Object + Z) * registry :=
  if maxLiveTasks <=? live r then
    (inl (builtin_error "spawn" [bytes "spawn: too many tasks running at once (limit "; decimal maxLiveTasks;
                                 bytes "); wait for some with task_wait"]), r)
  else
    let id := nextID r in
    (inr id, Registry ({[id]} ∪ tasks r) (<[id := Task false Nil None]> (memory r)) (i64 (nextID r + 1)) (live r + 1)
                      (finished r)).

(** The eviction loop of [CompleteTask]. *)
Fixpoint evict (excess : nat) (tasks : gset Z) (finished : list Z) : gset Z * list Z :=
  match excess, finished with
  | S excess, id :: finished => evict excess (tasks ∖ {[id]}) finished
  | _, _ => (tasks, finished)
  end.

(** [CompleteTask], while it holds the lock, and whether it goes on to
    [liveTasks.Done]. *)
Definition CompleteTask (id : Z) (result : Object) (fail : option failure) (r : registry) : registry * bool :=
  if bool_decide (id ∈ tasks r) then
    match memory r !! id with
    | Some (Task false _ _) =>
        let result := match result with Nil => Null | o => o end in
        let finished := finished r ++ [id] in
        let '(tasks, finished) := evict (length finished - maxRetainedTasks) (tasks r) finished in
        (Registry tasks (<[id := Task true result fail]> (memory r)) (nextID r) (live r - 1) finished, true)
    | _ => (r, false)
    end
  else (r, false).

(** [releaseTask] and [LiveTaskCount]. *)
Definition releaseTask (id : Z) (r : registry) : registry :=
  Registry (tasks r ∖ {[id]}) (memory r) (nextID r) (live r) (finished r).


(** [lookupTask]: [None] when reading the argument's type panics. *)
Definition lookupTask (op : string) (arg : Object) (r : registry) : option (Object + Z) :=
  match arg with
  | Integer h =>
      if bool_decide (h ∈ tasks r) then Some (inr h)
      else Some (inl (builtin_error op [bytes op; bytes ": unknown task handle "; decimal h;
                                        bytes "; it was either never spawned or already collected"]))
  | Nil => None
  | o => Some (inl (builtin_error op [bytes "argument 1 to "; bytes op; bytes " must be INTEGER, got ";
                                      type_name (Type_ o)]))
  end.

(** [timeoutArg]. *)
Definition timeoutArg (op : string) (position : Z) (arg : Object) : option (Object + Z) :=
  match arg with
  | Integer ms => Some (inr ms)
  | Nil => None
  | o => Some (inl (builtin_error op [bytes "argument "; decimal position; bytes " to "; bytes op;
                                      bytes " must be INTEGER, got "; type_name (Type_ o)]))
  end.

Definition hasFinished (h : Z) (r : registry) : bool :=
  match memory r !! h with Some t => done t | None => false end.

(** [taskFailureError]. *)
Definition taskFailureError (f : failure) : Object :=
  let message := bytes "task failed: " ++ f_Error f in
  let context := bytes "builtin.task_wait" in
  match f_site f with
  | Some (file, line, column, stack) =>
      if line <=? 0 then Error (Info message context [] 0 0 0 0 [] []) []
      else Error (Info message context file line column 0 0 [] stack) []
  | None => Error (Info message context [] 0 0 0 0 [] []) []
  end.

(** [TaskWait], up to the wait: the answer, or the task and the timeout. *)
Definition TaskWait_begin (args : list Object) (r : registry) : option (Object + Z * Z) :=
  let refuse e := Some (inl (resultAndError None (Some e))) in
  match args with
  | [a] | [a; _] =>
      match lookupTask "task_wait" a r with
      | None => None
      | Some (inl e) => refuse e
      | Some (inr h) =>
          match args !! 1%nat with
          | None => Some (inr (h, -1))
          | Some t =>
              match timeoutArg "task_wait" 2 t with
              | None => None
              | Some (inl e) => refuse e
              | Some (inr ms) => Some (inr (h, ms))
              end
          end
      end
  | _ => refuse (builtin_error "task_wait" [bytes "wrong number of arguments. got="; decimal (zlen args); bytes ", want=1 or 2"])
  end.

(** Whether the wait is over: a zero timeout does not wait, a timer may be due,
    and a wait without a timeout is over when the task is. *)
Definition wait_over (h ms : Z) (due : bool) (r : registry) : bool :=
  hasFinished h r || (ms =? 0) || ((0 <? ms) && due).

(** [TaskWait], after the wait. *)
Definition TaskWait_end (h ms : Z) (r : registry) : Object * registry :=
  if (0 <=? ms) && negb (hasFinished h r) then
    (resultAndError None (Some (builtin_error "task_wait" [bytes "task_wait: task is still running after "; decimal ms; bytes "ms"])), r)
  else
    let answer := match memory r !! h with
                  | Some (Task _ _ (Some f)) => resultAndError None (Some (taskFailureError f))
                  | Some (Task _ o None) => resultAndError (Some o) None
                  | None => resultAndError None None
                  end in
    (answer, releaseTask h r).

(** [TaskDone]. *)
Definition TaskDone (args : list Object) (r : registry) : option Object :=
  match args with
  | [a] =>
      match lookupTask "task_done" a r with
      | None => None
      | Some (inl e) => Some (resultAndError None (Some e))
      | Some (inr h) => Some (resultAndError (Some (Boolean (hasFinished h r))) None)
      end
  | _ => Some (resultAndError None (Some
           (builtin_error "task_done" [bytes "wrong number of arguments. got="; decimal (zlen args); bytes ", want=1"])))
  end.

(* ------------------------------------------------------------------ *)
(** ** The program around the registry *)

(** A task that is running and in the registry. *)
Definition is_running (h : Z) (r : registry) : Prop := h ∈ tasks r /\ hasFinished h r = false.

(** The registry, the counter the program waits on before it is torn down, the
    spawns that have let the lock go but not yet raised the counter, each with the
    task that spawns (none for the main program), the completions that have not yet
    lowered it, and whether the main program still runs. *)
Record runtime : Type := Runtime {
  reg : registry; liveTasks : Z; adding : gmap Z (option Z); leaving : gset Z; main_runs : bool }.

Definition empty_runtime : runtime := Runtime empty_registry 0 ∅ ∅ true.


(** Who may spawn: the main program while it runs, and a task that runs; a task's
    goroutine starts once its own spawn has returned. *)
Definition may_spawn (by_ : option Z) (s : runtime) : Prop :=
  match by_ with
  | None => main_runs s = true
  | Some t => is_running t (reg s) /\ adding s !! t = None
  end.

Inductive event : Type :=
| Spawned (h : Z)
| Counted (h : Z)
| Completed (h : Z) (o : Object) (f : option failure)
| Left (h : Z)
| Waited (h : Z)
| Stopped.

(** What may happen: a spawn and, later, its count; a task's outcome (more than
    once, as a deferred completion may, but not before its own spawn has returned nor
    in the middle of a spawn of its own) and, later, its leaving the count; the end of
    a wait; the end of the main program. *)
Inductive step (s : runtime) : event -> runtime -> Prop :=
| step_spawn by_ id r' :
    may_spawn by_ s -> RegisterTask (reg s) = (inr id, r') ->
    step s (Spawned id) (Runtime r' (liveTasks s) (<[id := by_]> (adding s)) (leaving s) (main_runs s))
| step_count h by_ :
    adding s !! h = Some by_ ->
    step s (Counted h) (Runtime (reg s) (liveTasks s + 1) (delete h (adding s)) (leaving s) (main_runs s))
| step_complete h o f r' b :
    adding s !! h = None -> (forall k, adding s !! k <> Some (Some h)) -> CompleteTask h o f (reg s) = (r', b) ->
    step s (Completed h o f)
      (Runtime r' (liveTasks s) (adding s) (if b then {[h]} ∪ leaving s else leaving s) (main_runs s))
| step_leave h :
    h ∈ leaving s ->
    step s (Left h) (Runtime (reg s) (liveTasks s - 1) (adding s) (leaving s ∖ {[h]}) (main_runs s))
| step_wait h ms due answer r' :
    wait_over h ms due (reg s) = true -> TaskWait_end h ms (reg s) = (answer, r') ->
    step s (Waited h) (Runtime r' (liveTasks s) (adding s) (leaving s) (main_runs s))
| step_stop :
    (forall k, adding s !! k <> Some None) ->
    step s Stopped (Runtime (reg s) (liveTasks s) (adding s) (leaving s) false).

Inductive steps (s : runtime) : list event -> runtime -> Prop :=
| steps_nil : steps s [] s
| steps_cons e s1 es s' : step s e s1 -> steps s1 es s' -> steps s (e :: es) s'.

(* ------------------------------------------------------------------ *)
(** ** The registry's invariant *)

Definition still_running (r : registry) : gset Z := filter (fun h => hasFinished h r = false) (tasks r).

Record registered (r : registry) : Prop := {
  ids_next : 1 <= nextID r;
  ids_memory h : is_Some (memory r !! h) <-> 1 <= h < nextID r;
  ids_tasks h : h ∈ tasks r -> 1 <= h < nextID r;
  running_kept h t : memory r !! h = Some t -> done t = false -> h ∈ tasks r;
  live_running : live r = Z.of_nat (size (still_running r));
  live_bound : live r <= maxLiveTasks;
  finished_done h : h ∈ finished r -> hasFinished h r = true;
  finished_kept h : h ∈ tasks r -> hasFinished h r = true -> h ∈ finished r;
  finished_once : NoDup (finished r);
  finished_bound : (length (finished r) <= maxRetainedTasks)%nat }.

Lemma empty_registered : registered empty_registry.
Proof.
  split; cbn; try set_solver; try lia.
  - intros h. rewrite lookup_empty. split; [by intros [? ?]|lia].
  - by unfold maxLiveTasks.
  - constructor.
Qed.

Lemma elem_of_running h r : h ∈ still_running r <-> h ∈ tasks r /\ hasFinished h r = false.
Proof. unfold still_running. rewrite elem_of_filter. tauto. Qed.

Lemma register_registered r id r' :
  registered r -> nextID r + 1 < 2 ^ 63 -> RegisterTask r = (inr id, r') ->
  registered r' /\ nextID r' = nextID r + 1.
Proof.
  intros [Hpos Him Hit Hrk Hlr Hlb Hfd Hfk Hfo Hfb] Hn E. unfold RegisterTask in E.
  destruct (maxLiveTasks <=? live r) eqn:El; [done|]. apply Z.leb_gt in El. injection E as <- <-.
  rewrite i64_id by (unfold is_i64; lia). set (r' := Registry _ _ _ _ _). split; [|done].
  assert (memory r !! nextID r = None) as Hfree by (apply eq_None_not_Some; rewrite Him; lia).
  assert (forall h, hasFinished h r' = hasFinished h r) as Hfin.
  { intros h. unfold hasFinished. cbn. destruct (decide (h = nextID r)) as [->|Hne];
      [by rewrite lookup_insert_eq, Hfree | by rewrite lookup_insert_ne]. }
  split; cbn [r' tasks memory nextID live finished].
  - lia.
  - intros h. rewrite lookup_insert_is_Some, Him. lia.
  - intros h [->%elem_of_singleton|Hh%Hit]%elem_of_union; lia.
  - intros h t [[<- <-]|[_ Ht]]%lookup_insert_Some; set_solver.
  - assert (still_running r' = {[nextID r]} ∪ still_running r) as ->.
    { apply set_eq. intros h. rewrite elem_of_union, elem_of_singleton, !elem_of_running, Hfin. cbn.
      rewrite elem_of_union, elem_of_singleton. split; [tauto|]. intros [->|?]; [|tauto]. split; [by left|].
      unfold hasFinished. by rewrite Hfree. }
    rewrite size_union, size_singleton; [lia|]. apply disjoint_singleton_l. rewrite elem_of_running.
    intros [?%Hit _]. lia.
  - unfold maxLiveTasks in *. lia.
  - intros h Hh. rewrite Hfin. by apply Hfd.
  - intros h [->%elem_of_singleton|Hh]%elem_of_union; rewrite Hfin; [|by apply Hfk].
    unfold hasFinished. by rewrite Hfree.
  - done.
  - done.
Qed.

(** Evicting drops only handles of the finished list, oldest first. *)
Lemma evict_spec n tasks fin :
  let '(tasks', fin') := evict n tasks fin in
  fin' = drop n fin /\ forall h, h ∈ tasks' <-> h ∈ tasks /\ h ∉ take n fin.
Proof.
  revert tasks fin. induction n as [|n IH]; intros tasks [|x fin]; simpl; [set_solver..|].
  specialize (IH (tasks ∖ {[x]}) fin). destruct (evict n _ fin) as [tasks' fin']. destruct IH as [-> IH]. split; [done|].
  intros h. rewrite IH. set_solver.
Qed.

Definition outcome_of (o : Object) (f : option failure) : managedTask :=
  Task true (match o with Nil => Null | o => o end) f.

Lemma complete_cases id o f r :
  registered r ->
  (~ is_running id r /\ CompleteTask id o f r = (r, false)) \/
  (is_running id r /\ exists tasks',
     CompleteTask id o f r =
       (Registry tasks' (<[id := outcome_of o f]> (memory r)) (nextID r) (live r - 1)
          (drop (S (length (finished r)) - maxRetainedTasks) (finished r ++ [id])), true) /\
     forall h, h ∈ tasks' <-> h ∈ tasks r /\ h ∉ take (S (length (finished r)) - maxRetainedTasks) (finished r ++ [id])).
Proof.
  intros Hr. unfold CompleteTask, is_running, hasFinished. case_bool_decide as Hin; [|left; tauto].
  destruct (memory r !! id) as [[[] res fl]|] eqn:Em; cbn.
  - left. split; [by intros []|done].
  - right. split; [done|].
    pose proof (evict_spec (length (finished r ++ [id]) - maxRetainedTasks) (tasks r) (finished r ++ [id])) as He.
    destruct (evict _ _ _) as [tasks' fin']. destruct He as [-> He]. rewrite length_app in *. cbn [length] in *.
    rewrite Nat.add_comm in *. eexists. split; [reflexivity|done].
  - exfalso. apply (ids_tasks _ Hr) in Hin. apply (ids_memory _ Hr) in Hin as [? ?]. congruence.
Qed.

Lemma complete_registered id o f r : registered r -> registered (CompleteTask id o f r).1.
Proof.
  intros Hr. destruct (complete_cases id o f r Hr) as [[_ ->]|([Hin Hrun] & tasks' & -> & Ht)]; [done|].
  destruct Hr as [Hpos Him Hit Hrk Hlr Hlb Hfd Hfk Hfo Hfb]. set (k := (S (length (finished r)) - maxRetainedTasks)%nat) in *.
  assert (is_Some (memory r !! id)) as [t Hid] by (apply Him; by apply Hit).
  assert (k <= 1)%nat as Hk by (unfold k; lia).
  assert (take k (finished r ++ [id]) = take k (finished r) \/ finished r = []) as Htake.
  { destruct (finished r) as [|x l]; [by right|]. left. rewrite take_app_le; [done|]. simpl. lia. }
  assert (finished r = [] -> k = 0%nat) as Hk0 by (intros E; unfold k, maxRetainedTasks; rewrite E; simpl; lia).
  assert (forall h, h ∈ take k (finished r ++ [id]) -> hasFinished h r = true) as Hev.
  { intros h Hh. destruct Htake as [E|E].
    - rewrite E in Hh. apply Hfd. by eapply elem_of_take in Hh as (? & ?%list_elem_of_lookup_2 & _).
    - rewrite (Hk0 E) in Hh. by apply elem_of_nil in Hh. }
  cbn [fst]. set (r' := Registry _ _ _ _ _).
  assert (forall h, hasFinished h r' = if decide (h = id) then true else hasFinished h r) as Hfin.
  { intros h. unfold hasFinished. cbn. case_decide; [subst; by rewrite lookup_insert_eq | by rewrite lookup_insert_ne]. }
  split; cbn [r' tasks memory nextID live finished]; try done.
  - intros h. rewrite lookup_insert_is_Some, <- Him. split; [intros [<-|[_ ?]]; [by exists t|done]|].
    intros ?. destruct (decide (id = h)); [by left|by right].
  - intros h [? _]%Ht. by apply Hit.
  - intros h t' [[<- <-]|[Hne Hm]]%lookup_insert_Some Hd; [done|]. apply Ht. split; [by eapply Hrk|].
    intros Hh%Hev. unfold hasFinished in Hh. rewrite Hm in Hh. congruence.
  - assert (still_running r' = still_running r ∖ {[id]}) as ->.
    { apply set_eq. intros h. rewrite elem_of_difference, elem_of_singleton, !elem_of_running, Hfin. cbn. rewrite Ht.
      case_decide as Hh; [naive_solver|]. split; [tauto|]. intros [[? Hf] _]. split; [|done]. split; [done|].
      intros ?%Hev. congruence. }
    assert (id ∈ still_running r) as Hidr by (by apply elem_of_running).
    rewrite size_difference by set_solver. rewrite size_singleton.
    assert (size (still_running r) <> 0%nat) by (intros E%size_empty_inv; set_solver). lia.
  - unfold maxLiveTasks in *. lia.
  - intros h Hh. rewrite Hfin. case_decide as Hne; [done|]. 
    assert (h ∈ finished r ++ [id]) as Hi by (rewrite <- (take_drop k (_ ++ _)); apply elem_of_app; by right).
    apply elem_of_app in Hi as [?|?%list_elem_of_singleton]; [by apply Hfd|done].
  - intros h [Hh Hnt]%Ht. rewrite Hfin. intros Hd. assert (h ∈ finished r ++ [id]) as Hall.
    { apply elem_of_app. case_decide; [right; set_solver|left; by apply Hfk]. }
    rewrite <- (take_drop k (finished r ++ [id])) in Hall. apply elem_of_app in Hall as [?|?]; done.
  - eapply sublist_NoDup; [|apply sublist_drop]. apply NoDup_app. split_and!; [done| |apply NoDup_singleton].
    intros h Hh%Hfd Hi%list_elem_of_singleton. subst h. congruence.
  - rewrite length_drop, length_app. simpl. unfold k. lia.
Qed.

Lemma finished_collected h ms due r answer r' :
  wait_over h ms due r = true -> TaskWait_end h ms r = (answer, r') ->
  (r' = r /\ hasFinished h r = false) \/ (r' = releaseTask h r /\ hasFinished h r = true).
Proof.
  unfold wait_over, TaskWait_end. destruct (hasFinished h r); cbn; [|].
  - rewrite andb_false_r. intros _ [= _ <-]. by right.
  - rewrite andb_true_r. destruct (0 <=? ms) eqn:Em; intros Hw [= _ <-]; [by left|].
    apply Z.leb_gt in Em. apply orb_true_iff in Hw as [?|[? _]%andb_prop]; lia.
Qed.

Lemma release_registered h r : registered r -> hasFinished h r = true -> registered (releaseTask h r).
Proof.
  intros [Hpos Him Hit Hrk Hlr Hlb Hfd Hfk Hfo Hfb] Hd.
  assert (forall k, hasFinished k (releaseTask h r) = hasFinished k r) as Hfin by done.
  split; cbn; try done.
  - intros k [? _]%elem_of_difference. by apply Hit.
  - intros k t Hk Ht. apply elem_of_difference. split; [by eapply Hrk|]. intros ->%elem_of_singleton.
    unfold hasFinished in Hd. rewrite Hk in Hd. congruence.
  - rewrite Hlr. do 2 f_equal. apply set_eq. intros k. rewrite !elem_of_running, Hfin. cbn.
    rewrite elem_of_difference, elem_of_singleton. split; [|tauto]. intros [? ?]. split; [|done]. split; [done|].
    intros ->. congruence.
  - intros k [? _]%elem_of_difference. by apply Hfk.
Qed.

(** Whatever an operation does, a task that ran before still runs, or it is the one
    that completed. *)
Lemma register_running r id r' h :
  registered r -> RegisterTask r = (inr id, r') -> is_running h r -> is_running h r' /\ h <> id.
Proof.
  intros Hr E [Hh Hf]. unfold RegisterTask in E. destruct (_ <=? _); [done|]. injection E as <- <-.
  pose proof (ids_tasks _ Hr _ Hh). split; [|lia]. split; cbn; [set_solver|]. unfold hasFinished in *. cbn.
  by rewrite lookup_insert_ne by lia.
Qed.

Lemma registered_runs r id r' : registered r -> RegisterTask r = (inr id, r') -> is_running id r'.
Proof.
  intros Hr E. unfold RegisterTask in E. destruct (_ <=? _); [done|]. injection E as <- <-.
  split; cbn; [set_solver|]. unfold hasFinished. cbn. by rewrite lookup_insert_eq.
Qed.

Lemma complete_running id o f r h :
  registered r -> is_running h r -> h <> id -> is_running h (CompleteTask id o f r).1.
Proof.
  intros Hr [Hh Hf] Hne. destruct (complete_cases id o f r Hr) as [[_ ->]|(_ & tasks' & E & Ht)]; [done|].
  pose proof (complete_registered id o f r Hr) as Hr'. rewrite E in *. cbn [fst] in *.
  assert (hasFinished h (Registry tasks' (<[id:=outcome_of o f]> (memory r)) (nextID r) (live r - 1)
    (drop (S (length (finished r)) - maxRetainedTasks) (finished r ++ [id]))) = false) as Hf'.
  { unfold hasFinished in *. cbn. by rewrite lookup_insert_ne. }
  split; [|done]. destruct (proj2 (ids_memory _ Hr h) (ids_tasks _ Hr h Hh)) as [t Hm].
  eapply (running_kept _ Hr' h t); [cbn; by rewrite lookup_insert_ne|]. unfold hasFinished in Hf. by rewrite Hm in Hf.
Qed.

Lemma complete_live id o f r : registered r -> is_running id r -> live (CompleteTask id o f r).1 = live r - 1.
Proof. intros Hr Hi. destruct (complete_cases id o f r Hr) as [[? _]|(_ & tasks' & -> & _)]; done. Qed.

Lemma release_running h k r : hasFinished k r = true -> is_running h r -> is_running h (releaseTask k r).
Proof.
  intros Hk [Hh Hf]. split; [|done]. cbn. apply elem_of_difference. split; [done|]. intros ->%elem_of_singleton. congruence.
Qed.

(* ------------------------------------------------------------------ *)
(** ** The counter *)

(** Whoever is about to raise the counter is running, spawned by the main program or
    a task that the counter has; the counter lags behind the registry by the spawns
    that have not raised it and leads it by the completions that have not lowered it. *)
Record counted (s : runtime) : Prop := {
  c_registered : registered (reg s);
  c_adding h by_ : adding s !! h = Some by_ -> is_running h (reg s) /\ may_spawn by_ s;
  c_leaving h : h ∈ leaving s -> hasFinished h (reg s) = true;
  c_count : liveTasks s + Z.of_nat (size (adding s)) = live (reg s) + Z.of_nat (size (leaving s)) }.

Lemma empty_counted : counted empty_runtime.
Proof. split; cbn; [exact empty_registered| | |done]; [intros h b; by rewrite lookup_empty|set_solver]. Qed.

Lemma hasFinished_register r id r' h :
  registered r -> RegisterTask r = (inr id, r') -> hasFinished h r = true -> hasFinished h r' = true.
Proof.
  intros Hr E Hf. unfold RegisterTask in E. destruct (_ <=? _); [done|]. injection E as <- <-.
  unfold hasFinished in *. cbn. destruct (decide (h = nextID r)) as [->|]; [|by rewrite lookup_insert_ne].
  destruct (memory r !! nextID r) eqn:Em; [|done]. pose proof (proj1 (ids_memory _ Hr (nextID r)) ltac:(by eexists)). lia.
Qed.

Lemma hasFinished_complete id o f r h :
  registered r -> hasFinished h r = true -> hasFinished h (CompleteTask id o f r).1 = true.
Proof.
  intros Hr Hf. destruct (complete_cases id o f r Hr) as [[_ ->]|(_ & tasks' & -> & _)]; [done|].
  unfold hasFinished in *. cbn. destruct (decide (id = h)) as [->|]; [by rewrite lookup_insert_eq|by rewrite lookup_insert_ne].
Qed.

Lemma completed_finished id o f r r' : registered r -> CompleteTask id o f r = (r', true) -> hasFinished id r' = true.
Proof.
  intros Hr. destruct (complete_cases id o f r Hr) as [[_ ->]|(_ & tasks' & -> & _)]; [done|]. intros [= <-].
  unfold hasFinished. cbn. by rewrite lookup_insert_eq.
Qed.

Lemma spawn_counted s by_ id r' :
  counted s -> nextID (reg s) + 1 < 2 ^ 63 -> may_spawn by_ s -> RegisterTask (reg s) = (inr id, r') ->
  counted (Runtime r' (liveTasks s) (<[id := by_]> (adding s)) (leaving s) (main_runs s)).
Proof.
  intros [Hr Ha Hl Hc] Hn Hs E. destruct (register_registered _ _ _ Hr Hn E) as [Hr' _].
  assert (adding s !! id = None) as Hfree.
  { destruct (adding s !! id) eqn:Ei; [|done]. destruct (Ha _ _ Ei) as [Hi _].
    destruct (register_running _ _ _ _ Hr E Hi). done. }
  assert (forall b, may_spawn b s -> may_spawn b (Runtime r' (liveTasks s) (<[id := by_]> (adding s)) (leaving s) (main_runs s))) as Hm.
  { intros [t|]; [|done]. cbn. intros [Ht Hat]. destruct (register_running _ _ _ _ Hr E Ht) as [? ?].
    split; [done|]. by rewrite lookup_insert_ne. }
  split; cbn.
  - done.
  - intros h b [[<- <-]|[Hne Hb]]%lookup_insert_Some.
    + split; [exact (registered_runs _ _ _ Hr E)|by apply Hm].
    + destruct (Ha _ _ Hb) as [Hh Hb']. split; [exact (proj1 (register_running _ _ _ _ Hr E Hh))|by apply Hm].
  - intros h Hh%Hl. exact (hasFinished_register _ _ _ _ Hr E Hh).
  - rewrite map_size_insert_None by done. unfold RegisterTask in E. destruct (_ <=? _); [done|]. injection E as _ <-. cbn. lia.
Qed.

Lemma count_counted s h by_ :
  counted s -> adding s !! h = Some by_ ->
  counted (Runtime (reg s) (liveTasks s + 1) (delete h (adding s)) (leaving s) (main_runs s)).
Proof.
  intros [Hr Ha Hl Hc] E. split; cbn; [done| |done|].
  - intros k b [Hne Hb]%lookup_delete_Some. destruct (Ha _ _ Hb) as [? Hm]. split; [done|].
    destruct b as [t|]; [|done]. destruct Hm as [? Ht]. split; [done|]. cbn. rewrite lookup_delete_None. by right.
  - rewrite map_size_delete_Some by (by eexists).
    assert (size (adding s) <> 0%nat) by (intros E0%map_size_empty_inv; rewrite E0, lookup_empty in E; done). lia.
Qed.

Lemma complete_counted s h o f r' b :
  counted s -> adding s !! h = None -> (forall k, adding s !! k <> Some (Some h)) -> CompleteTask h o f (reg s) = (r', b) ->
  counted (Runtime r' (liveTasks s) (adding s) (if b then {[h]} ∪ leaving s else leaving s) (main_runs s)).
Proof.
  intros Hs Hh Hno E. pose proof Hs as [Hr Ha Hl Hc].
  destruct (complete_cases h o f (reg s) Hr) as [[_ E']|(Hrun & tasks' & E' & _)].
  { rewrite E in E'. injection E' as -> ->. by destruct s. }
  assert (b = true /\ r' = (CompleteTask h o f (reg s)).1) as [-> ->] by (rewrite E' in *; by simplify_eq).
  split; cbn; [by apply complete_registered| | |].
  - intros k b Hk. destruct (Ha _ _ Hk) as [Hi Hm].
    split; [apply complete_running; [done|done|intros ->; congruence]|]. destruct b as [t|]; [|done]. destruct Hm as [Ht ?].
    split; [|done]. apply complete_running; [done..|]. intros ->. by apply (Hno k).
  - intros k [->%elem_of_singleton|Hk]%elem_of_union; [|by apply hasFinished_complete, Hl].
    apply (completed_finished h o f (reg s)); [done|]. by rewrite E'.
  - rewrite complete_live by done. rewrite size_union, size_singleton; [lia|]. apply disjoint_singleton_l. intros Hk%Hl.
    destruct Hrun. congruence.
Qed.

Lemma leave_counted s h :
  counted s -> h ∈ leaving s ->
  counted (Runtime (reg s) (liveTasks s - 1) (adding s) (leaving s ∖ {[h]}) (main_runs s)).
Proof.
  intros [Hr Ha Hl Hc] Hh. split; cbn; [done|done|set_solver|].
  rewrite size_difference by set_solver. rewrite size_singleton.
  assert (size (leaving s) <> 0%nat) by (intros E%size_empty_inv; set_solver). lia.
Qed.

Lemma wait_counted s h ms due answer r' :
  counted s -> wait_over h ms due (reg s) = true -> TaskWait_end h ms (reg s) = (answer, r') ->
  counted (Runtime r' (liveTasks s) (adding s) (leaving s) (main_runs s)).
Proof.
  intros Hs Hw E. pose proof Hs as [Hr Ha Hl Hc].
  destruct (finished_collected _ _ _ _ _ _ Hw E) as [[-> _]|[-> Hd]]; [by destruct s|].
  split; cbn; [by apply release_registered| |done|done].
  intros k b Hk. destruct (Ha _ _ Hk) as [? Hm]. split; [by apply release_running|].
  destruct b as [t|]; [|done]. destruct Hm. split; [by apply release_running|done].
Qed.

Lemma complete_next id o f r : nextID (CompleteTask id o f r).1 = nextID r.
Proof.
  unfold CompleteTask. case_bool_decide; [|done]. destruct (memory r !! id) as [[[] ? ?]|]; try done.
  by destruct (evict _ _ _).
Qed.

Lemma step_counted s e s' :
  counted s -> nextID (reg s) + 1 < 2 ^ 63 -> step s e s' -> counted s' /\ nextID (reg s') <= nextID (reg s) + 1.
Proof.
  intros Hs Hn He. destruct He as [by_ id r' Hm E|h by_ E|h o f r' b Hh Hno E|h Hh|h ms due answer r' Hw E|Hno]; cbn [reg].
  - split; [by apply spawn_counted|]. destruct (register_registered _ _ _ (c_registered _ Hs) Hn E). lia.
  - split; [by eapply count_counted|lia].
  - split; [by eapply complete_counted|]. pose proof (complete_next h o f (reg s)) as En. rewrite E in En. cbn in En. lia.
  - split; [by apply leave_counted|lia].
  - split; [by eapply wait_counted|]. destruct (finished_collected _ _ _ _ _ _ Hw E) as [[-> _]|[-> _]]; cbn; lia.
  - split; [|lia]. destruct Hs as [Hr Ha Hl Hc]. split; cbn; try done. intros h b Hb. destruct (Ha _ _ Hb) as [? ?].
    split; [done|]. destruct b; [done|]. by destruct (Hno h).
Qed.

Lemma steps_counted s es s' :
  counted s -> steps s es s' -> nextID (reg s) + zlen es < 2 ^ 63 ->
  counted s' /\ nextID (reg s') <= nextID (reg s) + zlen es.
Proof.
  unfold zlen. intros Hs He. revert Hs. induction He as [s|s e s1 es s' Ha He IH]; intros Hs Hn; [split; [done|cbn; lia]|].
  cbn [length] in *. destruct (step_counted _ _ _ Hs ltac:(lia) Ha) as [H1 H2]. destruct (IH H1 ltac:(lia)) as [H3 H4].
  split; [done|lia].
Qed.







(* ------------------------------------------------------------------ *)
(** ** Collecting a result *)

(** What a waiter is told of an outcome. *)
Definition told (o : Object) (f : option failure) : Object :=
  match f with
  | Some f => resultAndError None (Some (taskFailureError f))
  | None => resultAndError (Some (match o with Nil => Null | o => o end)) None
  end.

(** An outcome never changes, a handle let go is never taken up again, and a waiter
    lets it go. *)
Lemma step_settled s e s' h t :
  counted s -> step s e s' -> memory (reg s) !! h = Some t -> done t = true ->
  memory (reg s') !! h = Some t /\ (h ∉ tasks (reg s) \/ e = Waited h -> h ∉ tasks (reg s')).
Proof.
  intros Hs He Hm Hd. pose proof (c_registered _ Hs) as Hr.
  assert (1 <= h < nextID (reg s)) as Hh by (apply (ids_memory _ Hr); by exists t).
  destruct He as [by_ id r' _ E| |id o f r' b _ _ E| |k ms due answer r' Hw E| ]; cbn [reg];
    try (split; [done|]; intros [?|?]; done).
  - unfold RegisterTask in E. destruct (_ <=? _); [done|]. injection E as <- <-. cbn.
    rewrite lookup_insert_ne by lia. split; [done|]. intros [?|?]; [|done]. apply not_elem_of_union. split; [|done].
    apply not_elem_of_singleton. lia.
  - destruct (complete_cases id o f (reg s) Hr) as [[_ E']|([Hin Hrun] & tasks' & E' & Ht)]; rewrite E' in E;
      injection E as <- <-; [split; [done|]; intros [?|?]; done|]. cbn.
    split; [|intros [?|?]; [by intros [? _]%Ht|done]]. rewrite lookup_insert_ne; [done|]. intros ->.
    unfold hasFinished in Hrun. rewrite Hm in Hrun. congruence.
  - destruct (finished_collected _ _ _ _ _ _ Hw E) as [[-> Hf]|[-> _]].
    + split; [done|]. intros [?|[= ->]]; [done|]. unfold hasFinished in Hf. rewrite Hm in Hf. congruence.
    + cbn. split; [done|]. intros [?|[= ->]]; set_solver.
Qed.

Lemma steps_settled s es s' h t :
  counted s -> steps s es s' -> nextID (reg s) + zlen es < 2 ^ 63 -> memory (reg s) !! h = Some t -> done t = true ->
  memory (reg s') !! h = Some t /\ (h ∉ tasks (reg s) \/ Waited h ∈ es -> h ∉ tasks (reg s')).
Proof.
  unfold zlen. intros Hs He. revert Hs. induction He as [s|s e s1 es s' Ha He IH]; intros Hs Hn Hm Hd.
  { split; [done|]. intros [?|?%elem_of_nil]; done. }
  cbn [length] in *. destruct (step_counted _ _ _ Hs ltac:(lia) Ha) as [H1 H2].
  destruct (step_settled _ _ _ _ _ Hs Ha Hm Hd) as [H3 H4]. destruct (IH H1 ltac:(lia) H3 Hd) as [H5 H6].
  split; [done|]. intros [?|[?|?]%elem_of_cons]; apply H6; auto.
Qed.

(** The tasks completed in a sequence of events. *)
Definition is_completed (e : event) : bool := match e with Completed _ _ _ => true | _ => false end.
Definition completions (es : list event) : nat := length (filter (fun e => is_completed e = true) es).

(** The result of [h] is retained, with at most [k] newer ones. *)
Definition retained (h : Z) (k : nat) (r : registry) : Prop :=
  h ∈ tasks r /\ exists older newer, finished r = older ++ h :: newer /\ (length newer <= k)%nat.

Lemma complete_retained id o f r h k :
  registered r -> hasFinished h r = true -> retained h k r -> (S k < maxRetainedTasks)%nat ->
  retained h (S k) (CompleteTask id o f r).1.
Proof.
  intros Hr Hd (Hh & older & newer & E & Hl) Hk.
  destruct (complete_cases id o f r Hr) as [[_ ->]|([_ Hrun] & tasks' & -> & Ht)].
  { split; [done|]. exists older, newer. split; [done|lia]. }
  pose proof (finished_bound _ Hr) as Hb. pose proof (finished_once _ Hr) as Ho. rewrite E in *. cbn [fst].
  rewrite length_app in *. cbn [length] in *. set (n := (S _ - maxRetainedTasks)%nat) in *.
  assert (n <= length older)%nat as Hn by lia.
  split; cbn.
  - apply Ht. split; [done|]. rewrite <- app_assoc, take_app_le by done. intros Hin.
    apply NoDup_app in Ho as (_ & Ho & _). apply elem_of_take in Hin as (i & Hi & _).
    apply (Ho h); [by eapply list_elem_of_lookup_2|by left].
  - exists (drop n older), (newer ++ [id]). split; [|rewrite length_app; cbn; lia].
    rewrite <- app_assoc, drop_app_le by done. done.
Qed.

Lemma completed_retained id o f r : registered r -> is_running id r -> retained id 0 (CompleteTask id o f r).1.
Proof.
  intros Hr Hi. destruct (complete_cases id o f r Hr) as [[? _]|([Hin Hrun] & tasks' & -> & Ht)]; [done|]. cbn [fst].
  pose proof (finished_bound _ Hr) as Hb. set (n := (S _ - maxRetainedTasks)%nat) in *.
  assert (n <= length (finished r))%nat as Hn by (unfold n, maxRetainedTasks; lia). split; cbn.
  - apply Ht. split; [done|]. rewrite take_app_le by done. intros (i & Hx & _)%elem_of_take.
    apply list_elem_of_lookup_2, (finished_done _ Hr) in Hx. congruence.
  - exists (drop n (finished r)), []. split; [by rewrite drop_app_le by done|done].
Qed.

Lemma step_retained s e s' h k :
  counted s -> step s e s' -> hasFinished h (reg s) = true -> retained h k (reg s) -> e <> Waited h ->
  (k + (if is_completed e then 1 else 0) < maxRetainedTasks)%nat ->
  retained h (k + (if is_completed e then 1 else 0)) (reg s').
Proof.
  intros Hs He Hd Hk Hne. pose proof (c_registered _ Hs) as Hr.
  destruct He as [by_ id r' _ E| |id o f r' b _ _ E| |i ms due answer r' Hw E| ]; cbn [reg is_completed];
    rewrite ?Nat.add_0_r, ?Nat.add_1_r; intros Hb; try done.
  - destruct Hk as [Hh Hf]. unfold RegisterTask in E. destruct (_ <=? _); [done|]. injection E as <- <-.
    split; [cbn; set_solver|done].
  - replace r' with (CompleteTask id o f (reg s)).1 by (by rewrite E). by apply complete_retained.
  - destruct (finished_collected _ _ _ _ _ _ Hw E) as [[-> _]|[-> _]]; [done|]. destruct Hk as [Hh Hf].
    split; [|done]. cbn. apply elem_of_difference. split; [done|]. intros ->%elem_of_singleton. done.
Qed.

Lemma steps_retained s es s' h k t :
  counted s -> steps s es s' -> nextID (reg s) + zlen es < 2 ^ 63 -> memory (reg s) !! h = Some t -> done t = true ->
  retained h k (reg s) -> Waited h ∉ es -> (k + completions es < maxRetainedTasks)%nat -> h ∈ tasks (reg s').
Proof.
  unfold zlen. intros Hs He. revert k Hs. induction He as [s|s e s1 es s' Ha He IH]; intros k Hs Hn Hm Hd Hk Hw Hc.
  { apply Hk. }
  cbn [length] in *. apply not_elem_of_cons in Hw as [Hne Hw].
  destruct (step_counted _ _ _ Hs ltac:(lia) Ha) as [H1 H2]. destruct (step_settled _ _ _ _ _ Hs Ha Hm Hd) as [H3 _].
  assert (completions (e :: es) = (if is_completed e then 1 else 0) + completions es)%nat as E.
  { unfold completions. rewrite filter_cons. destruct (is_completed e); case_decide; done. }
  rewrite E in Hc. eapply (IH (k + (if is_completed e then 1 else 0))%nat); [done|lia|done|done| |done|lia].
  apply (step_retained s); [done|done| |done|by intros ->|lia]. unfold hasFinished. by rewrite Hm.
Qed.

(** C31: a task's outcome is told once, and right.  A running task completes; after
    it, whatever events follow: (1) everyone who already waits on the task need wait
    no more and is told that first outcome, however often the task is completed
    again and even if another waiter took it or the registry has dropped it since;
    (2) a new waiter still finds the handle as long as no waiter has collected it and
    fewer than 4096 completions have followed; and (3) once the registry has let the
    handle go, because it was collected or because 4096 newer results pushed it out,
    or once anyone has waited on it, it is unknown for good. *)
Theorem an_outcome_is_collected_once (es es' : list event) (s s1 s' : runtime) (h : Z) (o : Object) (f : option failure) :
  steps empty_runtime es s -> is_running h (reg s) -> step s (Completed h o f) s1 -> steps s1 es' s' ->
  2 + zlen es + zlen es' < 2 ^ 63 ->
  (forall ms due, wait_over h ms due (reg s') = true /\ (TaskWait_end h ms (reg s')).1 = told o f) /\
  (Waited h ∉ es' -> (completions es' < maxRetainedTasks)%nat ->
     TaskWait_begin [Integer h] (reg s') = Some (inr (h, -1))) /\
  (forall es'' s'', steps s' es'' s'' -> 2 + zlen es + zlen es' + zlen es'' < 2 ^ 63 ->
     h ∉ tasks (reg s') \/ Waited h ∈ es'' ->
     exists e, TaskWait_begin [Integer h] (reg s'') = Some (inl (resultAndError None (Some e)))).
Proof.
  intros Hes Hrun Hstep Hes' Hb. assert (0 <= zlen es' /\ 0 <= zlen es) as [? ?] by (split; apply zlen_nonneg).
  destruct (steps_counted _ es s empty_counted Hes ltac:(cbn; lia)) as [Hc Hid]. cbn in Hid.
  destruct (step_counted _ _ _ Hc ltac:(lia) Hstep) as [Hc1 Hid1]. pose proof (c_registered _ Hc) as Hr.
  assert (memory (reg s1) !! h = Some (outcome_of o f) /\ retained h 0 (reg s1)) as [Hm1 Hk1].
  { inversion Hstep as [| |h0 o0 f0 r' b _ _ E| | | ]. subst. cbn [reg].
    replace r' with (CompleteTask h o f (reg s)).1 by (by rewrite E). split; [|by apply completed_retained].
    destruct (complete_cases h o f (reg s) Hr) as [[? _]|(_ & tasks' & -> & _)]; [done|]. cbn. by rewrite lookup_insert_eq. }
  destruct (steps_counted _ es' s' Hc1 Hes' ltac:(lia)) as [Hc2 Hid2].
  destruct (steps_settled _ es' s' h _ Hc1 Hes' ltac:(lia) Hm1 eq_refl) as [Hm2 _].
  assert (hasFinished h (reg s') = true) as Hfin by (unfold hasFinished; by rewrite Hm2).
  split_and!.
  - intros ms due. split; [unfold wait_over; by rewrite Hfin|]. unfold TaskWait_end. rewrite Hfin, andb_false_r, Hm2.
    by destruct f.
  - intros Hw Hn. pose proof (steps_retained _ es' s' h 0 _ Hc1 Hes' ltac:(lia) Hm1 eq_refl Hk1 Hw Hn) as Hin.
    unfold TaskWait_begin, lookupTask. cbn. by rewrite bool_decide_true.
  - intros es'' s'' Hes'' Hb'' Hgone. destruct (steps_settled _ es'' s'' h _ Hc2 Hes'' ltac:(lia) Hm2 eq_refl) as [_ Hout].
    unfold TaskWait_begin, lookupTask. cbn. rewrite bool_decide_false by auto. by eexists.
Qed.

(** The main program spawns a task and stops; the task completes, is completed once
    more and is collected before its completion has left the count. *)
Module Example_.
Definition r1 : registry := (RegisterTask empty_registry).2.
Definition r2 : registry := (CompleteTask 1 (Integer 7) None r1).1.

Definition s1 : runtime := Runtime r1 1 ∅ ∅ true.
Definition s2 : runtime := Runtime r2 1 ∅ {[1]} true.

Lemma spawned : steps empty_runtime [Spawned 1; Counted 1] s1.
Proof.
  apply (steps_cons _ _ (Runtime r1 0 {[1 := None]} ∅ true)); [by apply (step_spawn empty_runtime None 1 r1)|].
  apply (steps_cons _ _ s1); [|constructor].
  exact (step_count (Runtime r1 0 {[1 := None]} ∅ true) 1 None eq_refl).
Qed.

Lemma completed : step s1 (Completed 1 (Integer 7) None) s2.
Proof. by apply (step_complete s1 1 (Integer 7) None r2 true). Qed.


Lemma completed_again : steps s2 [Completed 1 (Integer 8) None] s2.
Proof. apply (steps_cons _ _ s2); [by apply (step_complete s2 1 (Integer 8) None r2 false)|constructor]. Qed.



Lemma an_outcome_is_collected_once_witness :
  (TaskWait_end 1 (-1) (reg s2)).1 = MultiValue [Integer 7; Null] /\
  TaskWait_begin [Integer 1] (reg s2) = Some (inr (1, -1)).
Proof.
  destruct (an_outcome_is_collected_once [Spawned 1; Counted 1] [Completed 1 (Integer 8) None] s1 s2 s2 1 (Integer 7) None)
    as (Htold & Hfound & _).
  - exact spawned.
  - split; [by apply elem_of_union_l, elem_of_singleton|reflexivity].
  - exact completed.
  - exact completed_again.
  - reflexivity.
  - split; [exact (proj2 (Htold (-1) false))|]. apply Hfound; [|vm_compute; lia].
    by intros [?|?%elem_of_nil]%elem_of_cons.
Defined.
End Example_.
