(* ===== verification/StackTyping.v ===== *)
(** * Stack typing of instruction streams

    What an instruction takes from the operand stack and leaves on it, and what
    it means for a stream to be typed: every offset an instruction starts at has
    one stack depth, however control reaches it.  The code generator of
    [Compiler.v] is proved against this in [CompilerFacts.v].

    A stream may be under construction: [P] maps the jumps whose targets are not
    known yet to the depth the target must have.  With [strict] false the depths
    are not compared and typing is only about the shape of the stream (its jumps
    land on instructions, its constants are in the pool). *)

From stdpp Require Import base list list_numbers numbers gmap strings relations.
From Stdlib Require Import ZArith Lia.
From S2P Require Import Prelude Code Stream LineTable Polymorphic Padding Mutation.

(* ------------------------------------------------------------------ *)
(** ** Effects *)

Definition operand (i : instr) (k : nat) : nat := Z.to_nat (iargs i !!! k).

(** Operands taken and values left, of an instruction that falls through. *)
Definition effect (i : instr) : nat * nat :=
  match iop i with
  | OpConstant | OpTrue | OpFalse | OpNull | OpGetGlobal | OpGetLocal | OpGetBuiltin | OpGetFree
  | OpCurrentClosure | OpGetLocalCell | OpCaptureLocal | OpCaptureFree | OpEnumValue | OpBreak | OpContinue => (0, 1)%nat
  | OpPop | OpSetGlobal | OpSetLocal | OpSetLocalCell | OpSetFree | OpJumpFalse | OpReturnValue
  | OpMatchFail => (1, 0)%nat
  | OpAdd | OpSub | OpMul | OpDiv | OpMod | OpEqual | OpUnEqual | OpGreater | OpGreaterEqual | OpLess
  | OpLessEqual | OpBitAnd | OpBitOr | OpBitXor | OpShiftLeft | OpShiftRight | OpIndex | OpSetField => (2, 1)%nat
  | OpMinus | OpBang | OpBitNot | OpIterInit | OpGetField => (1, 1)%nat
  | OpJump | OpReturn | OpChkDbg | OpChkSnd => (0, 0)%nat
  | OpArray | OpHash | OpMultiValue | OpConcat => (operand i 0, 1%nat)
  | OpCall => (S (operand i 0), 1%nat)
  | OpDup => (1, 2)%nat
  | OpDestructure => (1%nat, operand i 0)
  | OpClosure | OpMakeStruct => (operand i 1, 1%nat)
  | OpSetIndex => (3, 1)%nat
  | OpIterNext => (1%nat, if operand i 1 =? 2 then 3 else 2)%nat
  end.

Definition pops (i : instr) : nat := (effect i).1.
Definition pushes (i : instr) : nat := (effect i).2.

(** Whether control can pass to the next instruction. *)
Definition falls (i : instr) : bool :=
  match iop i with
  | OpJump | OpReturnValue | OpReturn | OpMatchFail => false
  | _ => true
  end.

Definition depth_after (i : instr) (d : nat) : nat := (d - pops i + pushes i)%nat.

(** The depth at the target of a jump that is taken: an exhausted iterator
    leaves its cursor where it was. *)
Definition depth_jumped (i : instr) (d : nat) : nat :=
  (d - pops i + match iop i with OpIterNext => 1 | _ => 0 end)%nat.

(** The constant operands of an instruction are in a pool of [N]. *)
Definition pooled (N : nat) (i : instr) : Prop :=
  forall k a, k ∈ ConstantOperands (opcode_byte (iop i)) -> iargs i !! k = Some a -> (Z.to_nat a < N)%nat.

(* ------------------------------------------------------------------ *)
(** ** Instructions by their offset *)

Definition at_ (l : list instr) (pos : nat) (i : instr) : Prop :=
  exists A B, l = A ++ i :: B /\ pos = length (encode A).

Definition starts (l : list instr) (pos : nat) : Prop := pos = length (encode l) \/ exists i, at_ l pos i.

Lemma at_range l pos i : at_ l pos i -> (pos + instr_width i <= length (encode l))%nat.
Proof.
  intros (A & B & -> & ->). rewrite encode_app. cbn [encode]. rewrite !length_app, length_instr_bytes. lia.
Qed.

Lemma starts_range l pos : starts l pos -> (pos <= length (encode l))%nat.
Proof. intros [->|[i H%at_range]]; lia. Qed.

Lemma at_snoc l j pos i :
  at_ (l ++ [j]) pos i <-> at_ l pos i \/ (i = j /\ pos = length (encode l)).
Proof.
  split.
  - intros (A & B & E & ->). destruct B as [|b B _] using rev_ind.
    + apply app_inj_tail in E as [-> ->]. by right.
    + left. rewrite app_comm_cons, app_assoc in E. apply app_inj_tail in E as [-> _]. by exists A, B.
  - intros [(A & B & -> & ->)|[-> ->]].
    + exists A, (B ++ [j]). by rewrite <- app_assoc.
    + by exists l, [].
Qed.

Lemma starts_snoc l j pos : starts l pos -> starts (l ++ [j]) pos.
Proof.
  intros [->|[i H]]; right; [exists j; apply at_snoc; by right | exists i; apply at_snoc; by left].
Qed.

Lemma starts_snoc_end l j : starts (l ++ [j]) (length (encode l) + instr_width j).
Proof. left. rewrite encode_snoc, length_app, length_instr_bytes. lia. Qed.

Lemma starts_boundary l pos : starts l pos -> boundary l pos.
Proof.
  intros [->|(i & A & B & -> & ->)]; [apply boundary_end | apply boundary_here].
Qed.

(** Two instructions at one offset are the same one. *)
Lemma at_split A B i l pos j :
  at_ (A ++ i :: B) pos j -> l = A ++ i :: B ->
  (pos < length (encode A))%nat /\ at_ A pos j \/
  pos = length (encode A) /\ j = i \/
  exists A' B', B = A' ++ j :: B' /\ pos = (length (encode A) + instr_width i + length (encode A'))%nat.
Proof.
  intros (A1 & B1 & E & ->) _. revert A1 E. induction A as [|a A IH]; intros [|b A1] E; cbn [app] in E; simplify_eq; cbn [encode].
  - right. left. done.
  - right. right. exists A1, B1. split; [done|]. rewrite length_app, length_instr_bytes. simpl. lia.
  - left. split; [|by exists [], A].
    rewrite length_app, length_instr_bytes. pose proof (instr_width_pos j). simpl. lia.
  - destruct (IH _ H0) as [[Hl (A2 & B2 & -> & Hp)]|[[Hp ->]|(A2 & B2 & -> & Hp)]]; rewrite !length_app.
    + left. split; [lia|]. exists (b :: A2), B2. split; [done|]. cbn [encode]. rewrite length_app. lia.
    + right. left. split; [lia|done].
    + right. right. exists A2, B2. split; [done|]. lia.
Qed.

Lemma at_unique l pos i j : at_ l pos i -> at_ l pos j -> i = j.
Proof.
  intros (A & B & -> & ->) H. destruct (at_split _ _ _ _ _ _ H eq_refl) as [[? _]|[[_ ->]|(A' & B' & _ & E)]];
    [lia | done |]. pose proof (instr_width_pos i). lia.
Qed.

(** An instruction replaced by one of the same width. *)
Lemma at_patch A i i' B pos j :
  instr_width i' = instr_width i ->
  at_ (A ++ i' :: B) pos j ->
  pos = length (encode A) /\ j = i' \/ pos <> length (encode A) /\ at_ (A ++ i :: B) pos j.
Proof.
  intros Hw H. destruct (at_split _ _ _ _ _ _ H eq_refl) as [[Hl (A' & B' & -> & ->)]|[?|(A' & B' & -> & ->)]].
  - right. split; [lia|]. exists A', (B' ++ i :: B). by rewrite <- app_assoc.
  - by left.
  - right. pose proof (instr_width_pos i'). split; [lia|]. exists (A ++ i :: A'), B'.
    rewrite <- app_assoc. split; [done|]. rewrite encode_app. cbn [encode]. rewrite !length_app, length_instr_bytes.
    lia.
Qed.

Lemma length_encode_patch A i i' B :
  instr_width i' = instr_width i -> length (encode (A ++ i' :: B)) = length (encode (A ++ i :: B)).
Proof. intros Hw. rewrite !encode_app. cbn [encode]. rewrite !length_app, !length_instr_bytes. lia. Qed.

Lemma starts_patch A i i' B pos :
  instr_width i' = instr_width i -> starts (A ++ i :: B) pos -> starts (A ++ i' :: B) pos.
Proof.
  intros Hw [->|[j H]]; [left; by rewrite (length_encode_patch A i i' B)|].
  right. destruct (at_patch _ i' _ _ _ _ (eq_sym Hw) H) as [[-> _]|[_ H']]; [|by exists j].
  exists i', A, B. done.
Qed.

(* ------------------------------------------------------------------ *)
(** ** Typing *)

Section Typing.
Context (strict : bool).

(** The instruction [i] at [pos]: [D] gives the depths of the offsets, [P] the
    depths unresolved jumps want. *)
Definition step_ok (N : nat) (D P : gmap nat nat) (pos : nat) (i : instr) : Prop :=
  exists d, D !! pos = Some d /\
    (strict = true -> (pops i <= d)%nat) /\
    (falls i = true -> D !! (pos + instr_width i)%nat = Some (depth_after i d)) /\
    (forall t, target i = Some t ->
       match P !! pos with
       | Some dt => strict = true -> dt = depth_jumped i d
       | None => exists dt, D !! t = Some dt /\ (strict = true -> dt = depth_jumped i d)
       end) /\
    pooled N i.

(** A stream of depth [d] at its end. *)
Definition stream (N : nat) (ins : list Z) (D P : gmap nat nat) (d : nat) : Prop :=
  exists l, Forall instr_ok l /\ ins = encode l /\
    D !! length ins = Some d /\
    (forall t, is_Some (D !! t) -> starts l t) /\
    (forall pos i, at_ l pos i -> step_ok N D P pos i) /\
    (forall pos, is_Some (P !! pos) -> exists i, at_ l pos i /\ is_Some (target i)).

(** A finished stream, entered with nothing on the operand stack. *)
Definition typed_stream (N : nat) (ins : list Z) : Prop :=
  exists D d, stream N ins D ∅ d /\ D !! 0%nat = Some 0%nat.

Lemma pooled_mono N N' i : (N <= N')%nat -> pooled N i -> pooled N' i.
Proof. intros HN H k a Hk Ha. pose proof (H k a Hk Ha). lia. Qed.

Lemma step_ok_mono N N' D D' P P' pos i :
  (N <= N')%nat -> D ⊆ D' -> P' !! pos = P !! pos -> step_ok N D P pos i -> step_ok N' D' P' pos i.
Proof.
  intros HN HD HP (d & Hd & Hp & Hf & Ht & Hc). exists d.
  split; [by eapply lookup_weaken|]. split; [done|]. split; [intros; eapply lookup_weaken; eauto|].
  split; [|by eapply pooled_mono]. intros t E. specialize (Ht t E). rewrite HP. destruct (P !! pos); [done|].
  destruct Ht as (dt & Hdt & ?). exists dt. split; [by eapply lookup_weaken | done].
Qed.

Lemma stream_pool N N' ins D P d : (N <= N')%nat -> stream N ins D P d -> stream N' ins D P d.
Proof.
  intros HN (l & Hok & -> & Hd & Hs & Hi & HP). exists l. repeat (split; [done|]). split; [|done].
  intros pos i H. eapply step_ok_mono; eauto.
Qed.

Lemma typed_stream_pool N N' ins : (N <= N')%nat -> typed_stream N ins -> typed_stream N' ins.
Proof. intros HN (D & d & H & H0). exists D, d. split; [by eapply stream_pool | done]. Qed.

Lemma stream_empty N : stream N [] {[0%nat := 0%nat]} ∅ 0.
Proof.
  exists []. split; [constructor|]. repeat (split; [done|]). split; [|split].
  - intros t [d H]. apply lookup_singleton_Some in H as [<- _]. by left.
  - intros pos i (A & B & E & _). by destruct A.
  - intros pos [d H]. by rewrite lookup_empty in H.
Qed.

(** Where a stream has a depth. *)
Lemma stream_lookup_range N ins D P d t : stream N ins D P d -> is_Some (D !! t) -> (t <= length ins)%nat.
Proof. intros (l & _ & -> & _ & Hs & _) H. by apply starts_range, Hs. Qed.

Lemma stream_pending_range N ins D P d pos : stream N ins D P d -> is_Some (P !! pos) -> (pos < length ins)%nat.
Proof.
  intros (l & _ & -> & _ & _ & _ & HP) H. destruct (HP _ H) as (i & Hi%at_range & _).
  pose proof (instr_width_pos i). lia.
Qed.

Lemma stream_end N ins D P d : stream N ins D P d -> D !! length ins = Some d.
Proof. by intros (l & _ & -> & H & _). Qed.

(** Room for the next instruction's depth. *)
Lemma stream_grows N ins D P d n e : stream N ins D P d -> (0 < n)%nat -> D ⊆ <[(length ins + n)%nat := e]> D.
Proof.
  intros H Hn. apply insert_subseteq, eq_None_not_Some. intros Hs.
  pose proof (stream_lookup_range _ _ _ _ _ _ H Hs). lia.
Qed.

(** An instruction appended.  [P'] may only differ at the new offset. *)
Lemma stream_snoc N ins D P d i d' P' :
  stream N ins D P d -> instr_ok i ->
  (forall pos, pos <> length ins -> P' !! pos = P !! pos) ->
  (is_Some (P' !! length ins) -> is_Some (target i)) ->
  step_ok N (<[(length ins + instr_width i)%nat := d']> D) P' (length ins) i ->
  stream N (ins ++ instr_bytes i) (<[(length ins + instr_width i)%nat := d']> D) P' d'.
Proof.
  intros H Hi HP Hnew Hstep. pose proof (stream_grows _ _ _ _ _ (instr_width i) d' H (instr_width_pos i)) as HD.
  destruct H as (l & Hok & -> & Hd & Hs & Hat & Hpend). exists (l ++ [i]).
  split; [by apply Forall_app; split; [|constructor]|].
  split; [by rewrite encode_snoc|].
  split; [rewrite length_app, length_instr_bytes; by rewrite lookup_insert_eq|].
  split; [|split].
  - intros t Ht. rewrite lookup_insert_is_Some in Ht. destruct Ht as [<-|[_ Ht]];
      [apply starts_snoc_end | by apply starts_snoc, Hs].
  - intros pos j [Hj|[-> ->]]%at_snoc; [|done].
    eapply step_ok_mono; [reflexivity | exact HD | | by apply Hat].
    apply HP. pose proof (at_range _ _ _ Hj). pose proof (instr_width_pos j). lia.
  - intros pos Hp. destruct (decide (pos = length (encode l))) as [->|Hne].
    + exists i. split; [apply at_snoc; by right | by apply Hnew].
    + rewrite HP in Hp by done. destruct (Hpend _ Hp) as (j & Hj & ?). exists j. split; [apply at_snoc; by left|done].
Qed.

(** A jump resolved: the instruction at [pos] with its target set. *)
Definition pointed_at (i : instr) (t : nat) : instr := Instr (iop i) (Z.of_nat t :: tail (iargs i)).

Lemma instr_width_pointed i t : instr_width (pointed_at i t) = instr_width i.
Proof. done. Qed.

Lemma target_slot i t : target i = Some t -> JumpOperands (opcode_byte (iop i)) = [0%nat].
Proof.
  unfold target, JumpOperands. rewrite opcode_of_byte_byte. by destruct (iop i).
Qed.

Lemma target_pointed i t : is_Some (target i) -> target (pointed_at i t) = Some t.
Proof.
  intros [t' E]. pose proof (target_slot _ _ E) as Hs. unfold target, pointed_at in *. simpl. rewrite Hs. simpl.
  f_equal. lia.
Qed.

Lemma effect_pointed i t : is_Some (target i) -> effect (pointed_at i t) = effect i.
Proof.
  intros [t' E]. pose proof (target_slot _ _ E) as Hs. unfold target in E. rewrite Hs in E.
  destruct i as [op [|a args]]; [done|]. unfold effect, operand. simpl in *. by destruct op.
Qed.

Lemma pooled_pointed N i t : is_Some (target i) -> pooled N (pointed_at i t).
Proof.
  intros [t' E]. pose proof (target_slot _ _ E) as Hs. intros k a Hk.
  unfold pointed_at, ConstantOperands, JumpOperands in *. simpl in Hk. rewrite opcode_of_byte_byte in *.
  destruct (iop i); simplify_eq; by apply not_elem_of_nil in Hk.
Qed.

Lemma stream_patch N ins D P d pos i t dt dj A B :
  stream N ins D P d -> ins = encode (A ++ i :: B) -> Forall instr_ok (A ++ i :: B) -> pos = length (encode A) ->
  P !! pos = Some dj -> D !! t = Some dt -> (strict = true -> dt = dj) -> instr_ok (pointed_at i t) ->
  stream N (encode (A ++ pointed_at i t :: B)) D (delete pos P) d.
Proof.
  intros (l & Hok & Hins & Hd & Hs & Hat & Hpend) E1 Hok' -> HPp Ht Heq Hr.
  assert (l = A ++ i :: B) as -> by (apply encode_inj; congruence).
  assert (Hi : at_ (A ++ i :: B) (length (encode A)) i) by by exists A, B.
  assert (Hti : is_Some (target i)).
  { destruct (Hpend (length (encode A))) as (j & Hj & ?); [by eexists|]. by rewrite (at_unique _ _ _ _ Hi Hj). }
  exists (A ++ pointed_at i t :: B).
  split. { apply Forall_app in Hok as [HA HB]. apply Forall_cons in HB as [_ HB]. apply Forall_app; split; [done|].
           by apply Forall_cons. }
  split; [done|]. split; [by rewrite (length_encode_patch A i), <- Hins|].
  split; [|split].
  - intros s Hx. by apply (starts_patch A i), Hs.
  - intros pos j Hj. destruct (at_patch _ i _ _ _ _ (instr_width_pointed i t) Hj) as [[-> ->]|[Hne Hj']].
    + destruct (Hat _ _ Hi) as (di & Hdi & Hpop & Hf & Htg & Hpl). exists di. split; [done|].
      unfold pops, pushes, depth_after, depth_jumped, pops, pushes in *. rewrite !effect_pointed by done.
      split; [done|]. split; [done|]. split; [|by apply pooled_pointed].
      intros t' Et. rewrite target_pointed in Et by done. injection Et as <-. rewrite lookup_delete_eq.
      exists dt. split; [done|]. intros Hst. rewrite Heq by done. destruct Hti as [t' Et'].
      specialize (Htg _ Et'). rewrite HPp in Htg. cbn [iop pointed_at]. by apply Htg.
    + eapply step_ok_mono; [reflexivity.. | | by apply Hat]. by rewrite lookup_delete_ne.
  - intros pos Hp. rewrite lookup_delete_is_Some in Hp. destruct Hp as [Hne Hp].
    destruct (Hpend _ Hp) as (j & Hj & Htj). exists j. split; [|done].
    destruct (at_patch A (pointed_at i t) i B pos j (eq_sym (instr_width_pointed i t)) Hj) as [[-> _]|[_ ?]]; done.
Qed.
End Typing.

(* ------------------------------------------------------------------ *)
(** ** Consequences of typing *)

Lemma stream_decodes strict N ins D d :
  stream strict N ins D ∅ d -> exists l, Forall instr_ok l /\ ins = encode l /\ well_targeted l /\ Forall (pooled N) l.
Proof.
  intros (l & Hok & -> & _ & Hs & Hat & _). exists l. repeat (split; [done|]). split.
  - intros i t Hi Ht. apply list_elem_of_split in Hi as (A & B & ->).
    destruct (Hat (length (encode A)) i) as (d0 & _ & _ & _ & Hj & _); [by exists A, B|].
    specialize (Hj t Ht). rewrite lookup_empty in Hj. destruct Hj as (dt & Hdt & _).
    apply starts_boundary, Hs. by exists dt.
  - apply Forall_forall. intros i Hi. apply list_elem_of_split in Hi as (A & B & ->).
    destruct (Hat (length (encode A)) i) as (d0 & _ & _ & _ & _ & ?); [by exists A, B | done].
Qed.

Lemma typed_stream_ok strict N ins : typed_stream strict N ins -> stream_ok ins.
Proof. intros (D & d & (l & Hok & -> & Hw & _)%stream_decodes & _). by exists l. Qed.

(** The ways control can pass through a stream, with the depth of the stack. *)
Inductive flow (l : list instr) : nat * nat -> nat * nat -> Prop :=
| flow_next pos d i : at_ l pos i -> falls i = true -> flow l (pos, d) ((pos + instr_width i)%nat, depth_after i d)
| flow_jump pos d i t : at_ l pos i -> target i = Some t -> flow l (pos, d) (t, depth_jumped i d).

(** However control reaches an offset of a typed stream, the stack is as deep as
    the typing says there. *)
Lemma stream_flow N l D d x y :
  stream true N (encode l) D ∅ d -> Forall instr_ok l -> rtc (flow l) x y ->
  D !! x.1 = Some x.2 -> D !! y.1 = Some y.2.
Proof.
  intros (l' & Hok & E & _ & _ & Hat & _) Hl Hr. apply encode_inj in E as <-; [|done..].
  induction Hr as [x|x y z Hxy _ IH]; [done|]. intros Hx. apply IH. clear IH.
  destruct Hxy as [pos e i Hi Hf|pos e i t Hi Ht]; simpl in *;
    destruct (Hat _ _ Hi) as (e' & He & _ & Hn & Hj & _); assert (e' = e) as -> by congruence.
  - by apply Hn.
  - specialize (Hj _ Ht). rewrite lookup_empty in Hj. destruct Hj as (dt & Hdt & Hq). by rewrite <- Hq.
Qed.

Lemma flow_never_underflows N ins l pos d i :
  typed_stream true N ins -> ins = encode l -> Forall instr_ok l ->
  rtc (flow l) (0%nat, 0%nat) (pos, d) -> at_ l pos i -> (pops i <= d)%nat.
Proof.
  intros (D & e & Hs & H0) -> Hl Hr Hi. pose proof (stream_flow _ _ _ _ _ _ Hs Hl Hr H0) as Hd. simpl in Hd.
  destruct Hs as (l' & Hok & E & _ & _ & Hat & _). apply encode_inj in E as <-; [|done..].
  destruct (Hat _ _ Hi) as (d' & Hd' & Hp & _). assert (d' = d) as -> by congruence. by apply Hp.
Qed.

Lemma flow_one_depth N ins l pos d d' :
  typed_stream true N ins -> ins = encode l -> Forall instr_ok l ->
  rtc (flow l) (0%nat, 0%nat) (pos, d) -> rtc (flow l) (0%nat, 0%nat) (pos, d') -> d = d'.
Proof.
  intros (D & e & Hs & H0) -> Hl H1 H2.
  pose proof (stream_flow _ _ _ _ _ _ Hs Hl H1 H0). pose proof (stream_flow _ _ _ _ _ _ Hs Hl H2 H0). simpl in *.
  congruence.
Qed.

(** Instructions rewritten one by one, keeping their widths, operands and
    effects. *)
Definition alike (i j : instr) : Prop :=
  iwidths j = iwidths i /\ iargs j = iargs i /\ effect j = effect i /\ falls j = falls i /\
  JumpOperands (opcode_byte (iop j)) = JumpOperands (opcode_byte (iop i)) /\
  ConstantOperands (opcode_byte (iop j)) = ConstantOperands (opcode_byte (iop i)) /\
  (iop j = OpIterNext <-> iop i = OpIterNext).

Lemma alike_width i j : alike i j -> instr_width j = instr_width i.
Proof. intros (Hw & _). unfold instr_width, def_width. unfold iwidths in Hw. by rewrite Hw. Qed.

Lemma at_map f l pos j :
  (forall i, alike i (f i)) -> at_ (f <$> l) pos j -> exists i, at_ l pos i /\ j = f i.
Proof.
  intros Hf (A & B & E & ->). apply fmap_app_inv in E as (A' & B' & -> & E & ->).
  symmetry in E. apply fmap_cons_inv in E as (i & B1 & -> & -> & ->). exists i. split; [|done]. exists A', B1.
  split; [done|]. clear B1. induction A' as [|a A' IH]; [done|]. cbn [fmap list_fmap encode].
  rewrite !length_app, !length_instr_bytes, (alike_width _ _ (Hf a)). f_equal. exact IH.
Qed.

Lemma length_encode_map f l : (forall i, alike i (f i)) -> length (encode (f <$> l)) = length (encode l).
Proof.
  intros Hf. induction l as [|a l IH]; [done|]. cbn [fmap list_fmap encode].
  rewrite !length_app, !length_instr_bytes, (alike_width _ _ (Hf a)). f_equal. exact IH.
Qed.

Lemma alike_step_ok strict N D P pos i j :
  alike i j -> step_ok strict N D P pos i -> step_ok strict N D P pos j.
Proof.
  intros Ha (d & Hd & Hp & Hf & Ht & Hc). pose proof (alike_width _ _ Ha) as Hw.
  destruct Ha as (_ & Ha & He & Hl & Hj & Hk & Hn). exists d.
  unfold depth_after, depth_jumped, pops, pushes, target, pooled in *. rewrite He, Hl, Hj, Hk, Ha, Hw.
  assert (match iop j with OpIterNext => 1 | _ => 0 end = match iop i with OpIterNext => 1 | _ => 0 end)%nat as ->.
  { destruct (decide (iop i = OpIterNext)) as [E|E].
    - by rewrite E, (proj2 Hn E).
    - assert (iop j <> OpIterNext) by tauto. by destruct (iop i), (iop j). }
  done.
Qed.

Lemma typed_stream_map strict N l f :
  (forall i, alike i (f i)) -> Forall instr_ok l -> typed_stream strict N (encode l) ->
  typed_stream strict N (encode (f <$> l)).
Proof.
  intros Hf Hl (D & d & (l' & Hok & E & Hd & Hs & Hat & _) & H0). apply encode_inj in E as <-; [|done..].
  exists D, d. split; [|done]. exists (f <$> l). split.
  { apply Forall_fmap. eapply Forall_impl; [exact Hl|]. intros i [H1 H2]. unfold compose, instr_ok.
    destruct (Hf i) as (-> & -> & _). done. }
  split; [done|]. split; [by rewrite length_encode_map|]. split; [|split].
  - intros t [->|(i & A & B & -> & ->)]%Hs; [left; by rewrite length_encode_map|].
    right. exists (f i), (f <$> A), (f <$> B). split; [by rewrite fmap_app|]. by rewrite length_encode_map.
  - intros pos j (i & Hi & ->)%at_map; [|done]. eapply alike_step_ok; eauto.
  - intros pos [x H]. by rewrite lookup_empty in H.
Qed.
