(* ===== verification/Compiler.v ===== *)
(** * The code generator: [src/compiler/compiler.go], [struct_fields.go]

    The compiler's state and every function that emits code, in a state and
    error monad.  [Compile] recurses over the tree, and through parts of it that
    are not its children (the indices of an assignment target), so it takes
    fuel; [CompilerFacts.v] shows the depth of the tree is enough.

    Stacks (scopes, loops, declarations) are lists with the innermost first.  A
    refusal is a value of an enumeration; its wording, and the range it is
    located at, are what the source attaches to it.  The registry of builtins
    and the random draws that place security checks are arguments. *)

From stdpp Require Import base list list_numbers numbers gmap strings sorting pretty.
From Stdlib Require Import ZArith Lia.
From S2P Require Import Prelude Code LineTable Polymorphic Text Paths Module Float64 Sha256 Object SymbolTable Ast.

(* ------------------------------------------------------------------ *)
(** ** State *)

(** [EmittedInstruction], [unresolvedJump], [CompilationScope]. *)
Record EmittedInstruction : Type := Emitted { em_Opcode : Opcode; em_Position : nat }.
Record unresolvedJump : Type := Unresolved { uj_op : Opcode; uj_line : Z; uj_col : Z }.

Record CompilationScope : Type := CScope {
  instructions : list Z;
  lastInstruction : EmittedInstruction;
  prevInstruction : EmittedInstruction;
  unresolvedJumps : gmap nat unresolvedJump;
  cs_lines : LineTableBuilder;
  cs_ends : LineTableBuilder;
  cs_macros : LineTableBuilder }.

Definition placeholderTarget : Z := 9999.

(** The zero values: opcode 0 at position 0, no table entries. *)
Definition zeroEmitted : EmittedInstruction := Emitted OpConstant 0.
Definition emptyScope : CompilationScope := CScope [] zeroEmitted zeroEmitted ∅ zeroBuilder zeroBuilder zeroBuilder.

(** [LoopContext]. *)
Record LoopContext : Type := Loop {
  breakPositions : list nat; continuePositions : list nat; pendingAtEntry : Z; inLoopStep : bool }.

(** The position instructions are attributed to. *)
Record attribution : Type := Attr {
  posLine : Z; posCol : Z; posEndLine : Z; posEndCol : Z; macroLine : Z; macroCol : Z }.

(** [Compiler]; [nextAddress] numbers the functions it allocates, [draws] the
    random numbers it has used. *)
Record Compiler : Type := Comp {
  constants : list Object;
  symbolTable : Chain;
  scopes : list CompilationScope;
  structDefinitions : gmap string (list string);
  enumDefinitions : gmap string (list string);
  loopContexts : list LoopContext;
  pendingOperands : Z;
  structLiteralDepth : nat;
  declScopes : list (gset string);
  moduleDisplays : gmap string string;
  structBindings : gmap string string;
  typeOwners : gmap string string;
  injectSecurityChecks : bool;
  hasChkDbg : bool;
  hasChkSnd : bool;
  draws : nat;
  positions : gmap nat Range;
  macroOrigins : gmap nat MacroOrigin;
  attr : attribution;
  nextAddress : nat }.

(** Field updates. *)
Definition with_constants (l : list Object) (c : Compiler) : Compiler :=
  Comp l (symbolTable c) (scopes c) (structDefinitions c) (enumDefinitions c) (loopContexts c) (pendingOperands c)
    (structLiteralDepth c) (declScopes c) (moduleDisplays c) (structBindings c) (typeOwners c) (injectSecurityChecks c)
    (hasChkDbg c) (hasChkSnd c) (draws c) (positions c) (macroOrigins c) (attr c) (nextAddress c).
Definition with_table (t : Chain) (c : Compiler) : Compiler :=
  Comp (constants c) t (scopes c) (structDefinitions c) (enumDefinitions c) (loopContexts c) (pendingOperands c)
    (structLiteralDepth c) (declScopes c) (moduleDisplays c) (structBindings c) (typeOwners c) (injectSecurityChecks c)
    (hasChkDbg c) (hasChkSnd c) (draws c) (positions c) (macroOrigins c) (attr c) (nextAddress c).
Definition with_scopes (l : list CompilationScope) (c : Compiler) : Compiler :=
  Comp (constants c) (symbolTable c) l (structDefinitions c) (enumDefinitions c) (loopContexts c) (pendingOperands c)
    (structLiteralDepth c) (declScopes c) (moduleDisplays c) (structBindings c) (typeOwners c) (injectSecurityChecks c)
    (hasChkDbg c) (hasChkSnd c) (draws c) (positions c) (macroOrigins c) (attr c) (nextAddress c).
Definition with_types (s e : gmap string (list string)) (owners : gmap string string) (c : Compiler) : Compiler :=
  Comp (constants c) (symbolTable c) (scopes c) s e (loopContexts c) (pendingOperands c)
    (structLiteralDepth c) (declScopes c) (moduleDisplays c) (structBindings c) owners (injectSecurityChecks c)
    (hasChkDbg c) (hasChkSnd c) (draws c) (positions c) (macroOrigins c) (attr c) (nextAddress c).
Definition with_loops (l : list LoopContext) (c : Compiler) : Compiler :=
  Comp (constants c) (symbolTable c) (scopes c) (structDefinitions c) (enumDefinitions c) l (pendingOperands c)
    (structLiteralDepth c) (declScopes c) (moduleDisplays c) (structBindings c) (typeOwners c) (injectSecurityChecks c)
    (hasChkDbg c) (hasChkSnd c) (draws c) (positions c) (macroOrigins c) (attr c) (nextAddress c).
Definition with_counts (pending : Z) (depth : nat) (c : Compiler) : Compiler :=
  Comp (constants c) (symbolTable c) (scopes c) (structDefinitions c) (enumDefinitions c) (loopContexts c) pending
    depth (declScopes c) (moduleDisplays c) (structBindings c) (typeOwners c) (injectSecurityChecks c)
    (hasChkDbg c) (hasChkSnd c) (draws c) (positions c) (macroOrigins c) (attr c) (nextAddress c).
Definition with_decls (l : list (gset string)) (c : Compiler) : Compiler :=
  Comp (constants c) (symbolTable c) (scopes c) (structDefinitions c) (enumDefinitions c) (loopContexts c)
    (pendingOperands c) (structLiteralDepth c) l (moduleDisplays c) (structBindings c) (typeOwners c)
    (injectSecurityChecks c) (hasChkDbg c) (hasChkSnd c) (draws c) (positions c) (macroOrigins c) (attr c)
    (nextAddress c).
Definition with_modules (displays bindings : gmap string string) (c : Compiler) : Compiler :=
  Comp (constants c) (symbolTable c) (scopes c) (structDefinitions c) (enumDefinitions c) (loopContexts c)
    (pendingOperands c) (structLiteralDepth c) (declScopes c) displays bindings (typeOwners c)
    (injectSecurityChecks c) (hasChkDbg c) (hasChkSnd c) (draws c) (positions c) (macroOrigins c) (attr c)
    (nextAddress c).
Definition with_checks (inject dbg snd_ : bool) (n : nat) (c : Compiler) : Compiler :=
  Comp (constants c) (symbolTable c) (scopes c) (structDefinitions c) (enumDefinitions c) (loopContexts c)
    (pendingOperands c) (structLiteralDepth c) (declScopes c) (moduleDisplays c) (structBindings c) (typeOwners c)
    inject dbg snd_ n (positions c) (macroOrigins c) (attr c) (nextAddress c).
Definition with_positions (p : gmap nat Range) (m : gmap nat MacroOrigin) (c : Compiler) : Compiler :=
  Comp (constants c) (symbolTable c) (scopes c) (structDefinitions c) (enumDefinitions c) (loopContexts c)
    (pendingOperands c) (structLiteralDepth c) (declScopes c) (moduleDisplays c) (structBindings c) (typeOwners c)
    (injectSecurityChecks c) (hasChkDbg c) (hasChkSnd c) (draws c) p m (attr c) (nextAddress c).
Definition with_attr (a : attribution) (c : Compiler) : Compiler :=
  Comp (constants c) (symbolTable c) (scopes c) (structDefinitions c) (enumDefinitions c) (loopContexts c)
    (pendingOperands c) (structLiteralDepth c) (declScopes c) (moduleDisplays c) (structBindings c) (typeOwners c)
    (injectSecurityChecks c) (hasChkDbg c) (hasChkSnd c) (draws c) (positions c) (macroOrigins c) a (nextAddress c).
Definition with_address (n : nat) (c : Compiler) : Compiler :=
  Comp (constants c) (symbolTable c) (scopes c) (structDefinitions c) (enumDefinitions c) (loopContexts c)
    (pendingOperands c) (structLiteralDepth c) (declScopes c) (moduleDisplays c) (structBindings c) (typeOwners c)
    (injectSecurityChecks c) (hasChkDbg c) (hasChkSnd c) (draws c) (positions c) (macroOrigins c) (attr c) n.

(* ------------------------------------------------------------------ *)
(** ** Errors and the monad *)

(** The refusals, [sema]'s included, and the errors the source calls internal. *)
Inductive compile_error : Type :=
| UnknownOperator (operator : string)
| UndefinedVariable (name : string)
| MacroNotAtTopLevel
| DuplicateDeclaration (already : list string)
| DuplicateParameter (name : string)
| LoopControl (keyword : string)
| ContinueInLoopStep
| ForInBindsTwice (name : string)
| NoCondition
| NoArms
| InvalidTarget
| UndeclaredAssignment (name : string)
| AssignsModuleMember (base field module : string)
| UnknownField (type_ field : string) (declared : list string) (isWrite : bool)
| ImpureIndex
| CannotAssignFunctionName (name : string)
| CannotAssignBuiltin (name : string)
| PrivateMember (alias name module : string)
| NoSuchMember (alias name module : string)
| UndefinedStruct (name : string)
| DuplicateStructField (type_ field : string)
| StructLiteralRefusal (type_ : string) (unknown missing declared : list string)
| DuplicateTypeName (kind name first second : string)
| MissingNode
| UnresolvedJumps (where_ : string) (left_ : list nat)
| PendingBelowEntry
| SemaDisagrees
| Located (e : compile_error) (rng : Range).

(** How a compilation step ends: [Overflow] is the panic of [code.Make] on an
    operand too wide for its field, [Crash] any other Go panic, [NoFuel] the
    model's. *)
Inductive compiled (A : Type) : Type :=
| Accept (a : A)
| Reject (e : compile_error)
| Overflow
| Crash
| NoFuel.
Arguments Accept {A} a.
Arguments Reject {A} e.
Arguments Overflow {A}.
Arguments Crash {A}.
Arguments NoFuel {A}.

Definition CM (A : Type) : Type := Compiler -> compiled A * Compiler.

#[export] Instance CM_ret : MRet CM := fun A a c => (Accept a, c).
#[export] Instance CM_bind : MBind CM := fun A B k m c =>
  match m c with
  | (Accept a, c) => k a c
  | (Reject e, c) => (Reject e, c)
  | (Overflow, c) => (Overflow, c)
  | (Crash, c) => (Crash, c)
  | (NoFuel, c) => (NoFuel, c)
  end.

Definition reject {A} (e : compile_error) : CM A := fun c => (Reject e, c).
Definition crash {A} : CM A := fun c => (Crash, c).
Definition no_fuel {A} : CM A := fun c => (NoFuel, c).
Definition gets {A} (f : Compiler -> A) : CM A := fun c => (Accept (f c), c).
Definition modify (f : Compiler -> Compiler) : CM unit := fun c => (Accept tt, f c).
Definition of_outcome {A} (o : outcome A) : CM A := match o with Ret a => mret a | Panic => fun c => (Overflow, c) end.

(** A deferred call: [f] runs however [m] ends. *)
Definition deferred {A} (m : CM A) (f : Compiler -> Compiler) : CM A := fun c =>
  let '(r, c) := m c in (r, f c).

Fixpoint each {A} (f : A -> CM unit) (l : list A) : CM unit :=
  match l with
  | [] => mret tt
  | a :: l => f a;; each f l
  end.

(** The loop of [for i, a := range l]. *)
Fixpoint each_from {A} (f : nat -> A -> CM unit) (i : nat) (l : list A) : CM unit :=
  match l with
  | [] => mret tt
  | a :: l => f i a;; each_from f (S i) l
  end.

(* ------------------------------------------------------------------ *)
(** ** The stream under construction *)

Definition current : CM CompilationScope := fun c =>
  match scopes c with
  | s :: _ => (Accept s, c)
  | [] => (Crash, c)
  end.

Definition set_current (s : CompilationScope) : CM unit := fun c =>
  match scopes c with
  | _ :: rest => (Accept tt, with_scopes (s :: rest) c)
  | [] => (Crash, c)
  end.

Definition currentInstructions : CM (list Z) := s ← current; mret (instructions s).
Definition here : CM nat := ins ← currentInstructions; mret (length ins).

(** [addInstruction]. *)
Definition addInstruction (ins : list Z) : CM nat :=
  s ← current;
  set_current (CScope (instructions s ++ ins) (lastInstruction s) (prevInstruction s) (unresolvedJumps s)
    (cs_lines s) (cs_ends s) (cs_macros s));;
  mret (length (instructions s)).

(** [recordPosition]. *)
Definition recordPosition (ip : nat) : CM unit :=
  s ← current;
  a ← gets attr;
  let ip := Z.of_nat ip in
  let lines := Add (cs_lines s) ip (posLine a) (posCol a) in
  let '(ends, macros) :=
    if posLine a <=? 0
    then (Add (cs_ends s) ip (posEndLine a) (posEndCol a), Add (cs_macros s) ip (macroLine a) (macroCol a))
    else (AddOrReset (cs_ends s) ip (posEndLine a) (posEndCol a),
          AddOrReset (cs_macros s) ip (macroLine a) (macroCol a)) in
  set_current (CScope (instructions s) (lastInstruction s) (prevInstruction s) (unresolvedJumps s) lines ends macros).

(** [setLastInstruction] and [lastInstructionIs]. *)
Definition setLastInstruction (op : Opcode) (pos : nat) : CM unit :=
  s ← current;
  set_current (CScope (instructions s) (Emitted op pos) (lastInstruction s) (unresolvedJumps s)
    (cs_lines s) (cs_ends s) (cs_macros s)).

Definition lastInstructionIs (op : Opcode) : CM bool :=
  s ← current;
  mret (negb (bool_decide (instructions s = [])) && bool_decide (em_Opcode (lastInstruction s) = op)).

(** [emit]. *)
Definition emit (op : Opcode) (operands : list Z) : CM nat :=
  ins ← of_outcome (Make (opcode_byte op) operands);
  pos ← addInstruction ins;
  recordPosition pos;;
  setLastInstruction op pos;;
  mret pos.

Definition emit_ (op : Opcode) (operands : list Z) : CM unit := _ ← emit op operands; mret tt.

(** [emitPlaceholder]. *)
Definition emitPlaceholder (op : Opcode) (rest : list Z) : CM nat :=
  pos ← emit op (placeholderTarget :: rest);
  s ← current;
  a ← gets attr;
  set_current (CScope (instructions s) (lastInstruction s) (prevInstruction s)
    (<[pos := Unresolved op (posLine a) (posCol a)]> (unresolvedJumps s)) (cs_lines s) (cs_ends s) (cs_macros s));;
  mret pos.

(** [replaceInstruction]: writing past the end panics. *)
Definition replaceInstruction (pos : nat) (new : list Z) : CM unit :=
  s ← current;
  let ins := instructions s in
  if (length ins <? pos + length new)%nat then crash
  else
    set_current (CScope (take pos ins ++ new ++ drop (pos + length new) ins) (lastInstruction s) (prevInstruction s)
      (unresolvedJumps s) (cs_lines s) (cs_ends s) (cs_macros s)).

(** [changeOperand]. *)
Definition changeOperand (pos operand : nat) : CM unit :=
  ins ← currentInstructions;
  match ins !! pos with
  | None => crash
  | Some op =>
      let operands :=
        match Lookup op with
        | Some def =>
            if (1 <? length (OperandWidths def))%nat
            then Z.of_nat operand :: tail (ReadOperands def (drop (S pos) ins)).1
            else [Z.of_nat operand]
        | None => [Z.of_nat operand]
        end in
      new ← of_outcome (Make op operands);
      replaceInstruction pos new;;
      s ← current;
      set_current (CScope (instructions s) (lastInstruction s) (prevInstruction s) (delete pos (unresolvedJumps s))
        (cs_lines s) (cs_ends s) (cs_macros s))
  end.

Definition changeOperands (l : list nat) (operand : nat) : CM unit := each (fun pos => changeOperand pos operand) l.

(** [removeLastPop] and [replaceLastPopWithReturn]. *)
Definition removeLastPop : CM unit :=
  s ← current;
  let pos := em_Position (lastInstruction s) in
  if (length (instructions s) <? pos)%nat then crash
  else
    set_current (CScope (take pos (instructions s)) (prevInstruction s) (prevInstruction s) (unresolvedJumps s)
      (cs_lines s) (cs_ends s) (cs_macros s)).

Definition replaceLastPopWithReturn : CM unit :=
  s ← current;
  let pos := em_Position (lastInstruction s) in
  new ← of_outcome (Make (opcode_byte OpReturnValue) []);
  replaceInstruction pos new;;
  s ← current;
  set_current (CScope (instructions s) (Emitted OpReturnValue (em_Position (lastInstruction s))) (prevInstruction s)
    (unresolvedJumps s) (cs_lines s) (cs_ends s) (cs_macros s)).

(** [assertJumpsResolved]. *)
Definition assertJumpsResolved (mark : nat) (where_ : string) : CM unit :=
  s ← current;
  let left_ := filter (fun pos => mark <= pos)%nat (map_to_list (unresolvedJumps s)).*1 in
  if bool_decide (left_ = []) then mret tt else reject (UnresolvedJumps where_ (merge_sort le left_)).

(** [addConstant]. *)
Definition addConstant (o : Object) : CM Z := fun c =>
  (Accept (zlen (constants c)), with_constants (constants c ++ [o]) c).

Definition addString (s : string) : CM Z := addConstant (Str (bytes s)).

(* ------------------------------------------------------------------ *)
(** ** Scopes and names *)

(** [enterScope] and [leaveScope]. *)
Definition enterScope : CM unit :=
  modify (fun c =>
    with_decls (∅ :: declScopes c)
      (with_table (NewEnclosedSymbolTable (symbolTable c)) (with_scopes (emptyScope :: scopes c) c))).

Definition pop_decl (l : list (gset string)) : list (gset string) :=
  match l with
  | _ :: (_ :: _) as rest => rest
  | _ => l
  end.

Definition outer_table (t : Chain) : Chain := match t with Enclosed _ o => o | Root _ => t end.

Definition leaveScope : CM CompilationScope :=
  assertJumpsResolved 0 "this function body";;
  s ← current;
  modify (fun c =>
    with_decls (pop_decl (declScopes c))
      (with_table (outer_table (symbolTable c)) (with_scopes (tail (scopes c)) c)));;
  mret s.

(** [openBlock] and [closeBlock]. *)
Definition openBlock : CM unit :=
  modify (fun c => with_decls (∅ :: declScopes c) (with_table (OpenBlock (symbolTable c)) c)).

Definition close_block (c : Compiler) : Compiler :=
  with_decls (pop_decl (declScopes c)) (with_table (CloseBlock (symbolTable c)) c).

Definition blankName : string := "_".

(** [noteDeclared], [declaredHere], [declare]. *)
Definition noteDeclared (name : string) : CM unit :=
  if bool_decide (name = "") || bool_decide (name = blankName) then mret tt
  else modify (fun c =>
    match declScopes c with
    | d :: rest => with_decls (({[name]} ∪ d) :: rest) c
    | [] => c
    end).

Definition declaredHere (name : string) : CM bool :=
  gets (fun c => match declScopes c with d :: _ => bool_decide (name ∈ d) | [] => false end).

(** An operation of the symbol table that answers. *)
Definition table_op {A} (f : Chain -> Chain * A) : CM A := fun c =>
  let '(t, a) := f (symbolTable c) in (Accept a, with_table t c).

Definition declare (name : string) : CM Symbol :=
  symbol ← table_op (Define name);
  noteDeclared name;;
  mret symbol.

(** [refuseIfNothingIsNew]. *)
Fixpoint sort_names (names : list string) (already : list string) (fresh : nat) : CM (list string * nat) :=
  match names with
  | [] => mret (already, fresh)
  | name :: names =>
      if bool_decide (name = blankName) then sort_names names already (S fresh)
      else
        d ← declaredHere name;
        if (d : bool) then sort_names names (already ++ [name]) fresh else sort_names names already (S fresh)
  end.

Definition refuseIfNothingIsNew (names : list string) : CM unit :=
  r ← sort_names names [] 0;
  if (r.2 =? 0)%nat && negb (bool_decide (r.1 = [])) then reject (DuplicateDeclaration r.1) else mret tt.

(** [loadSymbol]. *)
Definition loadSymbol (s : Symbol) : CM unit :=
  let index := Z.of_nat (SymbolTable.Index s) in
  match Scope s with
  | GlobalScope => emit_ OpGetGlobal [index]
  | LocalScope => emit_ OpGetLocal [index]
  | BuiltinScope =>
      i ← table_op (ReferenceBuiltin (SymbolTable.Name s));
      emit_ OpGetBuiltin [Z.lor BuiltinNameTableFlag (Z.of_nat i)]
  | FreeScope => emit_ OpGetFree [index]
  | FunctionScope => emit_ OpCurrentClosure []
  end.

(** [emitCapture]. *)
Definition emitCapture (s : Symbol) : CM unit :=
  let index := Z.of_nat (SymbolTable.Index s) in
  match Scope s with
  | LocalScope => emit_ OpCaptureLocal [index]
  | FreeScope => emit_ OpCaptureFree [index]
  | FunctionScope => emit_ OpCurrentClosure []
  | _ => loadSymbol s
  end.

(** [emitStoreOnly] and [emitAssignStore]. *)
Definition emitStoreOnly (s : Symbol) : CM unit :=
  let index := Z.of_nat (SymbolTable.Index s) in
  match Scope s with
  | GlobalScope => emit_ OpSetGlobal [index]
  | LocalScope => emit_ OpSetLocal [index]
  | FreeScope =>
      own_name ← gets (fun c => freeCapturesFunctionName (SymbolTable.Index s) (symbolTable c));
      if (own_name : bool) then reject (CannotAssignFunctionName (SymbolTable.Name s)) else emit_ OpSetFree [index]
  | BuiltinScope => reject (CannotAssignBuiltin (SymbolTable.Name s))
  | FunctionScope => reject (CannotAssignFunctionName (SymbolTable.Name s))
  end.

Definition emitAssignStore (s : Symbol) : CM unit := emitStoreOnly s;; loadSymbol s.

(** [emitBindingStore], also the store of a [let]. *)
Definition emitBindingStore (s : Symbol) : CM unit :=
  let index := Z.of_nat (SymbolTable.Index s) in
  if bool_decide (Scope s = GlobalScope) then emit_ OpSetGlobal [index] else emit_ OpSetLocal [index].

(** [boxCapturedLocals]: one turn per instruction. *)
Fixpoint box_loop (fuel : nat) (boxed : list Z) (ins : list Z) (ip : nat) : list Z :=
  match fuel with
  | O => ins
  | S fuel =>
      match ins !! ip with
      | None => ins
      | Some b =>
          match opcode_of_byte b with
          | None => ins
          | Some op =>
              let '(operands, read) := ReadOperands (definitions op) (drop (S ip) ins) in
              let captured := match operands with [o] => bool_decide (o ∈ boxed) | _ => false end in
              let ins :=
                match op with
                | OpGetLocal => if captured then <[ip := opcode_byte OpGetLocalCell]> ins else ins
                | OpSetLocal => if captured then <[ip := opcode_byte OpSetLocalCell]> ins else ins
                | _ => ins
                end in
              box_loop fuel boxed ins (ip + 1 + read)
          end
      end
  end.

Definition boxCapturedLocals (ins : list Z) (captured : list Z) : list Z :=
  if bool_decide (captured = []) then ins else box_loop (length ins) captured ins 0.

(** [moduleName]. *)
Definition moduleName (key : string) (c : Compiler) : string :=
  match moduleDisplays c !! key with
  | Some display => display
  | None => if bool_decide (key = "") then "this program" else key
  end.

(** [internalSlot]. *)
Definition internalSlot (kind : string) : CM Symbol :=
  let key := String.append " " kind in
  found ← gets (fun c => ResolveInternal key (symbolTable c));
  match found with
  | Some symbol => mret symbol
  | None => table_op (DefineInternal key)
  end.

(** [claimTypeName] and [refuseDuplicateFields]. *)
Definition claimTypeName (kind name : string) : CM unit :=
  c ← gets id;
  let key := CurrentModule (symbolTable c) in
  let claim := modify (fun c => with_types (structDefinitions c) (enumDefinitions c) (<[name := key]> (typeOwners c)) c) in
  match typeOwners c !! name with
  | Some owner =>
      if bool_decide (owner = key) then claim
      else reject (DuplicateTypeName kind name (moduleName owner c) (moduleName key c))
  | None => claim
  end.

Fixpoint first_repeat (seen : list string) (l : list string) : option string :=
  match l with
  | [] => None
  | x :: l => if bool_decide (x ∈ seen) then Some x else first_repeat (x :: seen) l
  end.

Definition refuseDuplicateFields (name : string) (fields : list string) : CM unit :=
  match first_repeat [] fields with
  | Some field => reject (DuplicateStructField name field)
  | None => mret tt
  end.

(** [structBindingKey], [structTypeOfBinding], [checkFieldIsDeclared]. *)
Definition structBindingKey (c : Compiler) (name : string) : string :=
  String.append (CurrentModule (symbolTable c)) (String.append moduleSeparator name).

Definition structTypeOfBinding (name : string) : CM (option string) :=
  gets (fun c => structBindings c !! structBindingKey c name).

Definition checkFieldIsDeclared (structType field : string) (isWrite : bool) : CM unit :=
  defs ← gets structDefinitions;
  match defs !! structType with
  | None => mret tt
  | Some typeDef =>
      if bool_decide (field ∈ typeDef) then mret tt else reject (UnknownField structType field typeDef isWrite)
  end.

(* ------------------------------------------------------------------ *)
(** ** Attribution *)

(** [anchorsPosition]. *)
Definition anchorsPosition (n : node) : bool :=
  match n with
  | NStmt _ | NBlock _ => true
  | NExpr (Expr _ e) =>
      match e with
      | CallExpression _ _ | InfixExpression _ _ _ | IndexExpression _ _ => true
      | _ => false
      end
  | NExpr Missing => false
  end.

(** [locate]. *)
Definition locate {A} (rng : option Range) (m : CM A) : CM A := fun c =>
  match m c, rng with
  | (Reject (Located e r), c), _ => (Reject (Located e r), c)
  | (Reject e, c), Some rng => (Reject (if IsValid (r_Start rng) then Located e rng else e), c)
  | r, _ => r
  end.

(** The bookkeeping of [Compile] around [compileNode]. *)
Definition attributed (n : node) (m : CM unit) : CM unit := fun c =>
  let rng := pointer n ≫= fun p => positions c !! p in
  let origin := pointer n ≫= fun p => macroOrigins c !! p in
  match rng with
  | Some r =>
      if negb (IsValid (r_Start r)) || (negb (bool_decide (is_Some origin)) && negb (anchorsPosition n)) then
        locate rng m c
      else
        let saved := attr c in
        let '(endLine, endCol) := if IsValid (r_End r) then (Line (r_End r), Column (r_End r)) else (0, 0) in
        let '(mLine, mCol) :=
          match origin with
          | Some o => if IsValid (r_Start (Definition_ o))
                      then (Line (r_Start (Definition_ o)), Column (r_Start (Definition_ o)))
                      else (macroLine saved, macroCol saved)
          | None => (macroLine saved, macroCol saved)
          end in
        deferred (locate rng m) (with_attr saved)
          (with_attr (Attr (Line (r_Start r)) (Column (r_Start r)) endLine endCol mLine mCol) c)
  | None => m c
  end.

(** [withPending]. *)
Definition add_pending (n : Z) (c : Compiler) : Compiler := with_counts (pendingOperands c + n) (structLiteralDepth c) c.

Definition withPending (n : nat) (m : CM unit) : CM unit :=
  modify (add_pending (Z.of_nat n));; deferred m (add_pending (- Z.of_nat n)).

(** [emitPendingPops]. *)
Definition emitPendingPops (entry : Z) : CM unit :=
  pending ← gets pendingOperands;
  if pending <? entry then reject PendingBelowEntry
  else each (fun _ => emit_ OpPop []) (seq 0 (Z.to_nat (pending - entry))).

(** [infixOpcode]. *)
Definition infixOpcode (operator : string) : option Opcode :=
  if bool_decide (operator = "+") then Some OpAdd
  else if bool_decide (operator = "-") then Some OpSub
  else if bool_decide (operator = "*") then Some OpMul
  else if bool_decide (operator = "/") then Some OpDiv
  else if bool_decide (operator = "%") then Some OpMod
  else if bool_decide (operator = "&") then Some OpBitAnd
  else if bool_decide (operator = "|") then Some OpBitOr
  else if bool_decide (operator = "^") then Some OpBitXor
  else if bool_decide (operator = "<<") then Some OpShiftLeft
  else if bool_decide (operator = ">>") then Some OpShiftRight
  else if bool_decide (operator = ">") then Some OpGreater
  else if bool_decide (operator = ">=") then Some OpGreaterEqual
  else if bool_decide (operator = "<") then Some OpLess
  else if bool_decide (operator = "<=") then Some OpLessEqual
  else if bool_decide (operator = "==") then Some OpEqual
  else if bool_decide (operator = "!=") then Some OpUnEqual
  else None.

(** [endsInExpressionStatement] and [leaveOneValue]. *)
Definition endsInExpressionStatement (b : block) : bool :=
  match last (statements b) with
  | Some (Stmt _ (ExpressionStatement _)) => true
  | _ => false
  end.

Definition leaveOneValue (b : block) : CM unit :=
  if endsInExpressionStatement b then removeLastPop else emit_ OpNull [].

(* ------------------------------------------------------------------ *)
(** ** Assignment targets *)

(** [assignStep], [flattenAssignTarget], [pureAssignIndex]. *)
Inductive assignStep : Type :=
| StepIndex (index : expr)
| StepField (field : string).

Fixpoint flatten (target : expr) (steps : list assignStep) : option (string * list assignStep) :=
  match target with
  | Missing => None
  | Expr _ e =>
      match e with
      | Identifier name => Some (name, steps)
      | IndexExpression l index =>
          match index with
          | Missing => None
          | Expr _ _ => flatten l (StepIndex index :: steps)
          end
      | FieldExpression l field => flatten l (StepField field :: steps)
      | _ => None
      end
  end.

Definition flattenAssignTarget (target : expr) : option (string * list assignStep) := flatten target [].

Fixpoint pureAssignIndex (e : expr) : bool :=
  match e with
  | Missing => false
  | Expr _ e =>
      match e with
      | Identifier _ | IntegerLiteral _ | FloatLiteral _ | StringLiteral _ | BooleanLiteral _ => true
      | IndexExpression l index => pureAssignIndex l && pureAssignIndex index
      | FieldExpression l _ => pureAssignIndex l
      | _ => false
      end
  end.

Definition impure_step (s : assignStep) : bool :=
  match s with StepIndex index => negb (pureAssignIndex index) | StepField _ => false end.

(* ------------------------------------------------------------------ *)
(** ** Field resolution: [src/sema/resolve.go] *)

(** [FieldResolution], by its kind; every module of a compilation is loaded, so
    no answer is provisional. *)
Inductive field_resolution : Type :=
| FieldValueAccess
| FieldEnumValue
| FieldModuleMember (key member : string)
| FieldBuiltinFold (builtin : string)
| FieldRefused (e : compile_error).

(** [resolveModuleMember] under the compiler's [scopeCtx]. *)
Definition resolveModuleMember (alias key name : string) (c : Compiler) : field_resolution :=
  if IsModulePrivate name then FieldRefused (PrivateMember alias name (moduleName key c))
  else match ResolveIn key name (symbolTable c) with
       | None => FieldRefused (NoSuchMember alias name (moduleName key c))
       | Some _ => FieldModuleMember key name
       end.

Section Emission.
Context (builtins : list string).               (* the names of [builtin.Builtins] *)
Context (Compile : node -> CM unit).

(** [ResolveField]: asking whether a name is bound resolves it, captures
    included. *)
Definition bound (name : string) : CM bool :=
  r ← table_op (Resolve name);
  mret (match r with Some s => negb (bool_decide (Scope s = BuiltinScope)) | None => false end).

Definition ResolveField (left field : string) : CM field_resolution :=
  if bool_decide (left = "") || bool_decide (field = "") then mret FieldValueAccess
  else
    c ← gets id;
    if bool_decide (is_Some (enumDefinitions c !! left)) then mret FieldEnumValue
    else match LookupNamespace left (symbolTable c) with
         | Some key => mret (resolveModuleMember left key field c)
         | None =>
             b ← bound left;
             let flat := String.append left (String.append "_" field) in
             mret (if negb b && bool_decide (flat ∈ builtins) then FieldBuiltinFold flat else FieldValueAccess)
         end.

Definition compile (e : expr) : CM unit := Compile (NExpr e).
Definition compilePending (n : nat) (e : expr) : CM unit := withPending n (compile e).

(** [compileBlockBody] and [compileBlockScope]. *)
Definition compileBlockBody (l : list statement) : CM unit := each (fun s => Compile (NStmt s)) l.

Definition compileBlockScope (l : list statement) : CM unit :=
  openBlock;; deferred (compileBlockBody l) close_block.

(** [compileLogicalExpression]. *)
Definition compileLogicalExpression (left : expr) (operator : string) (right : expr) : CM unit :=
  compile left;;
  if bool_decide (operator = "&&") then
    leftFalse ← emitPlaceholder OpJumpFalse [];
    compile right;;
    rightFalse ← emitPlaceholder OpJumpFalse [];
    emit_ OpTrue [];;
    toEnd ← emitPlaceholder OpJump [];
    falsePos ← here;
    changeOperand leftFalse falsePos;;
    changeOperand rightFalse falsePos;;
    emit_ OpFalse [];;
    end_ ← here;
    changeOperand toEnd end_
  else
    leftFalse ← emitPlaceholder OpJumpFalse [];
    emit_ OpTrue [];;
    trueEnd1 ← emitPlaceholder OpJump [];
    testRight ← here;
    changeOperand leftFalse testRight;;
    compile right;;
    rightFalse ← emitPlaceholder OpJumpFalse [];
    emit_ OpTrue [];;
    trueEnd2 ← emitPlaceholder OpJump [];
    falsePos ← here;
    changeOperand rightFalse falsePos;;
    emit_ OpFalse [];;
    endPos ← here;
    changeOperand trueEnd1 endPos;;
    changeOperand trueEnd2 endPos.

(** The [*ast.InfixExpression] arm. *)
Definition compileInfix (left : expr) (operator : string) (right : expr) : CM unit :=
  if bool_decide (operator = "&&") || bool_decide (operator = "||")
  then compileLogicalExpression left operator right
  else
    compile left;;
    compilePending 1 right;;
    match infixOpcode operator with
    | None => reject (UnknownOperator operator)
    | Some op => emit_ op []
    end.

Definition compilePrefix (operator : string) (right : expr) : CM unit :=
  compile right;;
  if bool_decide (operator = "-") then emit_ OpMinus []
  else if bool_decide (operator = "!") then emit_ OpBang []
  else if bool_decide (operator = "~") then emit_ OpBitNot []
  else reject (UnknownOperator operator).

(** The [*ast.IfExpression] arm. *)
Definition compileIf (condition : expr) (consequence : block) (alternative : option block) : CM unit :=
  compile condition;;
  jumpFalsePosition ← emitPlaceholder OpJumpFalse [];
  Compile (NBlock consequence);;
  leaveOneValue consequence;;
  jumpPos ← emitPlaceholder OpJump [];
  afterConsequence ← here;
  changeOperand jumpFalsePosition afterConsequence;;
  (match alternative with
   | None => emit_ OpNull []
   | Some b => Compile (NBlock b);; leaveOneValue b
   end);;
  afterAlternative ← here;
  changeOperand jumpPos afterAlternative.

(** [compileTemplateLiteral]: the pieces pushed so far. *)
Fixpoint template_loop (texts : list (list Z)) (parts : list expr) (pieces : nat) : CM nat :=
  match texts with
  | [] => mret pieces
  | text :: texts =>
      pieces ← (if bool_decide (text = []) then mret pieces
                else i ← addConstant (Str text); emit_ OpConstant [i];; mret (S pieces));
      match parts with
      | [] => template_loop texts [] pieces
      | part :: parts => compilePending pieces part;; template_loop texts parts (S pieces)
      end
  end.

Definition compileTemplateLiteral (texts : list (list Z)) (parts : list expr) : CM unit :=
  pieces ← template_loop texts parts 0;
  if (pieces =? 0)%nat then i ← addConstant (Str []); emit_ OpConstant [i]
  else emit_ OpConcat [Z.of_nat pieces].

(** The array, hash and call arms. *)
Definition compileArray (l : list expr) : CM unit :=
  each_from compilePending 0 l;; emit_ OpArray [zlen l].

Definition compileHash (l : list (expr * expr)) : CM unit :=
  each_from (fun i p => compilePending (2 * i) p.1;; compilePending (2 * i + 1) p.2) 0 l;;
  emit_ OpHash [zlen l * 2].

Definition compileCall (f : expr) (l : list expr) : CM unit :=
  compile f;;
  each_from (fun i a => compilePending (1 + i) a) 0 l;;
  emit_ OpCall [zlen l].

(** [compileMatchExpression]: the tests of one arm, giving the jumps into its
    body and the jump past it. *)
Fixpoint arm_tests (patterns : list expr) (matched : list nat) : CM (list nat * option nat) :=
  match patterns with
  | [] => mret (matched, None)
  | pattern :: rest =>
      emit_ OpDup [];;
      compilePending 2 pattern;;
      emit_ OpEqual [];;
      match rest with
      | [] => missed ← emitPlaceholder OpJumpFalse []; mret (matched, Some missed)
      | _ :: _ =>
          next ← emitPlaceholder OpJumpFalse [];
          m ← emitPlaceholder OpJump [];
          pos ← here;
          changeOperand next pos;;
          arm_tests rest (matched ++ [m])
      end
  end.

Definition compileArm (patterns : list expr) (body : block) : CM nat :=
  t ← arm_tests patterns [];
  pos ← here;
  changeOperands t.1 pos;;
  emit_ OpPop [];;
  Compile (NBlock body);;
  leaveOneValue body;;
  e ← emitPlaceholder OpJump [];
  match t.2 with
  | None => mret e
  | Some missed => pos ← here; changeOperand missed pos;; mret e
  end.

Fixpoint compileArms (arms : list (list expr * block)) (ends : list nat) : CM (list nat) :=
  match arms with
  | [] => mret ends
  | (patterns, body) :: arms => e ← compileArm patterns body; compileArms arms (ends ++ [e])
  end.

Definition is_wildcard (a : list expr * block) : bool := match a.1 with [] => true | _ => false end.

Definition compileMatchExpression (subject : expr) (arms : list (list expr * block)) : CM unit :=
  match arms with
  | [] => reject NoArms
  | _ =>
      compile subject;;
      ends ← compileArms arms [];
      (if existsb is_wildcard arms then mret tt else emit_ OpMatchFail []);;
      endPosition ← here;
      changeOperands ends endPosition
  end.

(* ------------------------------------------------------------------ *)
(** ** Functions *)

Definition declareParameter (name : string) : CM unit :=
  d ← declaredHere name;
  if negb (bool_decide (name = blankName)) && d then reject (DuplicateParameter name)
  else _ ← declare name; mret tt.

(** The body under a loop boundary of its own. *)
Definition function_body (body : block) : CM unit := fun c =>
  deferred (compileBlockBody (statements body)) (with_loops (loopContexts c)) (with_loops [] c).

(** The end of the body: the last value returned, or null. *)
Definition finish_body (body : block) : CM unit :=
  (if endsInExpressionStatement body then replaceLastPopWithReturn else mret tt);;
  r ← lastInstructionIs OpReturnValue;
  if (r : bool) then mret tt else emit_ OpReturn [].

Definition allocate : CM nat := fun c => (Accept (nextAddress c), with_address (S (nextAddress c)) c).

(** The [*ast.FunctionLiteral] arm. *)
Definition compileFunction (name : string) (parameters : list string) (body : block) : CM unit :=
  enterScope;;
  (if bool_decide (name = "") then mret tt else _ ← table_op (DefineFunctionName name); mret tt);;
  each declareParameter parameters;;
  function_body body;;
  finish_body body;;
  t ← gets symbolTable;
  let captured := Z.of_nat <$> CapturedLocals (head t) in
  s ← leaveScope;
  each emitCapture (FreeSymbols (head t));;
  a ← allocate;
  i ← addConstant (CompiledFn (Ptr a (Fn (boxCapturedLocals (instructions s) captured)
        (Z.of_nat (numDefinitions (head t))) (zlen parameters) captured name parameters
        (Build (cs_lines s)) (Build (cs_macros s)) (Build (cs_ends s)) (default [] (LocalSlotNames t)))));
  emit_ OpClosure [i; zlen (FreeSymbols (head t))].

(* ------------------------------------------------------------------ *)
(** ** Loops *)

Definition enter_loop : CM unit :=
  modify (fun c => with_loops (Loop [] [] (pendingOperands c) false :: loopContexts c) c).

Definition leave_loop (c : Compiler) : Compiler := with_loops (tail (loopContexts c)) c.

Definition top_loop : CM LoopContext := fun c =>
  match loopContexts c with l :: _ => (Accept l, c) | [] => (Crash, c) end.

Definition set_top_loop (l : LoopContext) : CM unit :=
  modify (fun c => with_loops (l :: tail (loopContexts c)) c).

(** A body in a loop context of its own, gone when the body is refused. *)
Definition loop_body (body : block) : CM unit := fun c =>
  match (enter_loop;; Compile (NBlock body)) c with
  | (Accept u, c) => (Accept u, c)
  | (r, c) => (r, leave_loop c)
  end.

(** [compileWhileStatement]. *)
Definition compileWhileStatement (condition : expr) (body : block) : CM unit :=
  start ← here;
  match condition with
  | Missing => reject NoCondition
  | _ =>
      compile condition;;
      jumpFalsePosition ← emitPlaceholder OpJumpFalse [];
      loop_body body;;
      ctx ← top_loop;
      changeOperands (continuePositions ctx) start;;
      emit_ OpJump [Z.of_nat start];;
      end_ ← here;
      changeOperand jumpFalsePosition end_;;
      changeOperands (breakPositions ctx) end_;;
      modify leave_loop
  end.

(** The post section: a [continue] inside it is refused. *)
Definition mark_step (b : bool) : CM unit :=
  l ← top_loop; set_top_loop (Loop (breakPositions l) (continuePositions l) (pendingAtEntry l) b).

Definition post_section (post : option expr) : CM unit :=
  mark_step true;;
  match post with
  | None => mret tt
  | Some e =>
      (fun c => match compile e c with
                | (Accept u, c) => (Accept u, c)
                | (r, c) => (r, leave_loop c)
                end);;
      emit_ OpPop [];;
      mark_step false
  end.

(** [compileForStatement]. *)
Definition compileForStatement (init : option statement) (condition post : option expr) (body : block) : CM unit :=
  openBlock;;
  deferred (
    (match init with Some s => Compile (NStmt s) | None => mret tt end);;
    start ← here;
    (match condition with Some e => compile e | None => emit_ OpTrue [] end);;
    jumpFalsePosition ← emitPlaceholder OpJumpFalse [];
    loop_body body;;
    postStart ← here;
    ctx ← top_loop;
    changeOperands (continuePositions ctx) postStart;;
    post_section post;;
    emit_ OpJump [Z.of_nat start];;
    end_ ← here;
    changeOperand jumpFalsePosition end_;;
    ctx ← top_loop;
    changeOperands (breakPositions ctx) end_;;
    modify leave_loop) close_block.

(** [compileForInStatement]. *)
Definition compileForInStatement (key : option string) (value : string) (iterable : expr) (body : block) : CM unit :=
  openBlock;;
  deferred (
    (match key with
     | Some k => if bool_decide (k = value) then reject (ForInBindsTwice k) else mret tt
     | None => mret tt
     end);;
    compile iterable;;
    emit_ OpIterInit [];;
    valueSymbol ← table_op (Define value);
    keySymbol ← (match key with
                 | Some k => s ← table_op (Define k); mret (Some s)
                 | None => mret None
                 end);
    head_ ← here;
    next ← emitPlaceholder OpIterNext [match key with Some _ => 2 | None => 1 end];
    emitBindingStore valueSymbol;;
    (match keySymbol with Some s => emitBindingStore s | None => mret tt end);;
    loop_body body;;
    ctx ← top_loop;
    changeOperands (continuePositions ctx) head_;;
    emit_ OpJump [Z.of_nat head_];;
    end_ ← here;
    changeOperand next end_;;
    changeOperands (breakPositions ctx) end_;;
    modify leave_loop;;
    emit_ OpPop []) close_block.

(** The [break] and [continue] arms. *)
Definition compileBreak : CM unit :=
  loops ← gets loopContexts;
  match loops with
  | [] => reject (LoopControl "break")
  | ctx :: _ =>
      emitPendingPops (pendingAtEntry ctx);;
      pos ← emitPlaceholder OpJump [];
      set_top_loop (Loop (breakPositions ctx ++ [pos]) (continuePositions ctx) (pendingAtEntry ctx) (inLoopStep ctx))
  end.

Definition compileContinue : CM unit :=
  loops ← gets loopContexts;
  match loops with
  | [] => reject (LoopControl "continue")
  | ctx :: _ =>
      if inLoopStep ctx then reject ContinueInLoopStep
      else
        emitPendingPops (pendingAtEntry ctx);;
        pos ← emitPlaceholder OpJump [];
        set_top_loop (Loop (breakPositions ctx) (continuePositions ctx ++ [pos]) (pendingAtEntry ctx) (inLoopStep ctx))
  end.

(* ------------------------------------------------------------------ *)
(** ** Assignments *)

(** [emitPathLoad]. *)
Fixpoint path_loop (indexSlot : option Symbol) (steps : list assignStep) : CM unit :=
  match steps with
  | [] => mret tt
  | StepIndex index :: rest =>
      (match indexSlot, rest with
       | Some slot, [] => loadSymbol slot
       | _, _ => compilePending 1 index
       end);;
      emit_ OpIndex [];;
      path_loop indexSlot rest
  | StepField field :: rest =>
      i ← addString field;
      emit_ OpGetField [i];;
      path_loop indexSlot rest
  end.

Definition emitPathLoad (symbol : Symbol) (steps : list assignStep) (depth : nat) (indexSlot : option Symbol) : CM unit :=
  loadSymbol symbol;; path_loop indexSlot (take depth steps).

(** [emitAssignChain] and the store it builds on. *)
Definition chain_store (step : assignStep) (indexSlot : option Symbol) (emitValue : CM unit) : CM unit :=
  match step with
  | StepIndex index =>
      compilePending 1 index;;
      (match indexSlot with
       | Some slot => emitStoreOnly slot;; loadSymbol slot
       | None => mret tt
       end);;
      withPending 2 emitValue;;
      emit_ OpSetIndex []
  | StepField field =>
      withPending 1 emitValue;;
      i ← addString field;
      emit_ OpSetField [i]
  end.

Fixpoint emitAssignChain (symbol : Symbol) (steps : list assignStep) (depth : nat) (indexSlot : option Symbol)
    (emitValue : CM unit) : CM unit :=
  match depth with
  | O => crash
  | S d =>
      match steps !! d with
      | None => crash
      | Some step =>
          let store := chain_store step indexSlot emitValue in
          match d with
          | O => loadSymbol symbol;; store;; emitStoreOnly symbol
          | S _ => emitAssignChain symbol steps d None (emitPathLoad symbol steps d None;; store)
          end
      end
  end.

(** The value of an assignment: the right-hand side, folded with the target's
    current value for a compound operator. *)
Definition assign_value (symbol : Symbol) (steps : list assignStep) (indexSlot : option Symbol)
    (left : expr) (operator : string) (value : expr) : CM unit :=
  match indexSlot with
  | Some _ =>
      emitPathLoad symbol steps (length steps) indexSlot;;
      compile value;;
      match infixOpcode operator with
      | None => reject (UnknownOperator operator)
      | Some op => emit_ op []
      end
  | None => if bool_decide (operator = "") then compile value else compileInfix left operator value
  end.

(** Writing through a namespace or to an undeclared field is refused. *)
Definition check_first_hop (base : string) (steps : list assignStep) : CM unit :=
  match steps with
  | StepField field :: _ =>
      if bool_decide (field = "") then mret tt
      else
        c ← gets id;
        match LookupNamespace base (symbolTable c) with
        | Some key => reject (AssignsModuleMember base field (moduleName key c))
        | None =>
            t ← structTypeOfBinding base;
            match t with
            | Some structType => checkFieldIsDeclared structType field true
            | None => mret tt
            end
        end
  | _ => mret tt
  end.

(** [compileAssignExpression]. *)
Definition compileAssignExpression (left : expr) (operator : string) (value : expr) : CM unit :=
  match flattenAssignTarget left with
  | None => reject InvalidTarget
  | Some (base, []) =>
      (if bool_decide (operator = "") then compile value else compileInfix left operator value);;
      r ← table_op (Resolve base);
      match r with
      | None => reject (UndeclaredAssignment base)
      | Some symbol => emitAssignStore symbol
      end
  | Some (base, steps) =>
      check_first_hop base steps;;
      r ← table_op (Resolve base);
      match r with
      | None => reject (UndefinedVariable base)
      | Some symbol =>
          if existsb impure_step (removelast steps) then reject ImpureIndex
          else
            let folds := negb (bool_decide (operator = "")) &&
                         match last steps with Some s => impure_step s | None => false end in
            spill ← internalSlot "assign";
            indexSlot ← (if folds then s ← internalSlot "assignindex"; mret (Some s) else mret None);
            emitAssignChain symbol steps (length steps) indexSlot
              (assign_value symbol steps indexSlot left operator value;; emitStoreOnly spill;; loadSymbol spill);;
            loadSymbol spill
      end
  end.

(* ------------------------------------------------------------------ *)
(** ** Fields and struct literals *)

(** [compileFieldExpression]. *)
Definition field_read (left : expr) (field : string) : CM unit :=
  compile left;;
  i ← addString field;
  emit_ OpGetField [i].

Definition compileFieldExpression (left : expr) (field : string) : CM unit :=
  match left with
  | Expr _ (Identifier name) =>
      r ← ResolveField name field;
      match r with
      | FieldEnumValue =>
          i ← addString name;
          j ← addString field;
          emit_ OpEnumValue [i; j]
      | FieldModuleMember key member =>
          s ← gets (fun c => ResolveIn key member (symbolTable c));
          match s with
          | None => reject SemaDisagrees
          | Some symbol => loadSymbol symbol
          end
      | FieldBuiltinFold builtin => loadSymbol (Sym builtin BuiltinScope 0)
      | FieldRefused e => reject e
      | FieldValueAccess =>
          t ← structTypeOfBinding name;
          (match t with
           | Some structType => checkFieldIsDeclared structType field false
           | None => mret tt
           end);;
          field_read left field
      end
  | _ => field_read left field
  end.

(** [emitStructFieldsInSourceOrder]. *)
Definition spill_key (depth i : nat) : string :=
  String.append "struct " (String.append (pretty depth) (String.append " " (pretty i))).

Fixpoint spill_fields (depth i : nat) (fields : list (string * expr)) (slots : list (string * Symbol))
    : CM (list (string * Symbol)) :=
  match fields with
  | [] => mret slots
  | (name, value) :: fields =>
      compile value;;
      slot ← internalSlot (spill_key depth i);
      emitStoreOnly slot;;
      spill_fields depth (S i) fields ((name, slot) :: slots)
  end.

Fixpoint assoc {A : Type} (name : string) (l : list (string * A)) : option A :=
  match l with
  | [] => None
  | (n, a) :: l => if bool_decide (n = name) then Some a else assoc name l
  end.

Definition emitStructFieldsInSourceOrder (fields : list (string * expr)) (typeDef : list string) : CM unit :=
  depth ← gets structLiteralDepth;
  modify (fun c => with_counts (pendingOperands c) (S (structLiteralDepth c)) c);;
  deferred (
    slots ← spill_fields depth 0 fields [];
    each (fun field => match assoc field slots with
                       | None => reject SemaDisagrees
                       | Some slot => loadSymbol slot
                       end) typeDef)
    (fun c => with_counts (pendingOperands c) (pred (structLiteralDepth c)) c).

(** [compileStructLiteral]. *)
Definition compileStructLiteral (name : string) (fields : list (string * expr)) : CM unit :=
  defs ← gets structDefinitions;
  match defs !! name with
  | None => reject (UndefinedStruct name)
  | Some typeDef =>
      match first_repeat [] fields.*1 with
      | Some field => reject (DuplicateStructField name field)
      | None =>
          let unknown := filter (fun n => n ∉ typeDef) fields.*1 in
          let missing := filter (fun n => n ∉ fields.*1) typeDef in
          if negb (bool_decide (unknown = [])) || negb (bool_decide (missing = [])) then
            reject (StructLiteralRefusal name unknown missing typeDef)
          else
            t ← addString name;
            (if bool_decide (fields.*1 = typeDef)
             then each_from (fun i field => compilePending i (default Missing (assoc field fields))) 0 typeDef
             else emitStructFieldsInSourceOrder fields typeDef);;
            emit_ OpMakeStruct [t; zlen typeDef]
      end
  end.

(* ------------------------------------------------------------------ *)
(** ** Statements *)

(** The [*ast.LetStatement] arm. *)
Definition compileLet (names : list string) (value : expr) : CM unit :=
  refuseIfNothingIsNew names;;
  compile value;;
  match names with
  | [] => crash
  | [name] => s ← declare name; emitBindingStore s
  | _ =>
      emit_ OpDestructure [zlen names];;
      each (fun name => s ← declare name; emitBindingStore s) (rev names)
  end.

(** The [*ast.ReturnStatement] arm. *)
Definition compileReturn (values : list expr) : CM unit :=
  match values with
  | [] => emit_ OpReturn []
  | [e] => compile e;; emit_ OpReturnValue []
  | _ =>
      each_from compilePending 0 values;;
      emit_ OpMultiValue [zlen values];;
      emit_ OpReturnValue []
  end.

Definition constant (o : Object) : CM unit := i ← addConstant o; emit_ OpConstant [i].

(** [compileNode]. *)
Definition compileExpression (e : expression) : CM unit :=
  match e with
  | Identifier name =>
      r ← table_op (Resolve name);
      match r with
      | None => reject (UndefinedVariable name)
      | Some s => loadSymbol s
      end
  | IntegerLiteral n => constant (Integer n)
  | FloatLiteral b => constant (Float b)
  | StringLiteral s => constant (Str s)
  | BooleanLiteral b => emit_ (if b then OpTrue else OpFalse) []
  | TemplateLiteral texts parts => compileTemplateLiteral texts parts
  | ArrayLiteral l => compileArray l
  | HashLiteral l => compileHash l
  | PrefixExpression operator r => compilePrefix operator r
  | InfixExpression l operator r => compileInfix l operator r
  | IndexExpression l index => compile l;; compilePending 1 index;; emit_ OpIndex []
  | FieldExpression l field => compileFieldExpression l field
  | CallExpression f l => compileCall f l
  | IfExpression c a b => compileIf c a b
  | MatchExpression s arms => compileMatchExpression s arms
  | FunctionLiteral name parameters body => compileFunction name parameters body
  | MacroLiteral _ _ => reject MacroNotAtTopLevel
  | AssignExpression l operator v => compileAssignExpression l operator v
  | StructLiteral name fields => compileStructLiteral name fields
  end.

Definition compileStatement (s : stmt) : CM unit :=
  match s with
  | LetStatement names value => compileLet names value
  | ReturnStatement values => compileReturn values
  | ExpressionStatement e => compile e;; emit_ OpPop []
  | BlockStatement l => compileBlockScope l
  | ForStatement i c p b => compileForStatement i c p b
  | ForInStatement k v e b => compileForInStatement k v e b
  | WhileStatement e b => compileWhileStatement e b
  | BreakStatement => compileBreak
  | ContinueStatement => compileContinue
  | StructStatement name fields =>
      claimTypeName "struct" name;;
      refuseDuplicateFields name fields;;
      modify (fun c => with_types (<[name := fields]> (structDefinitions c)) (enumDefinitions c) (typeOwners c) c)
  | EnumStatement name tags =>
      claimTypeName "enum" name;;
      modify (fun c => with_types (structDefinitions c) (<[name := tags]> (enumDefinitions c)) (typeOwners c) c)
  | ImportStatement _ _ => mret tt
  end.

Definition compileNode (n : node) : CM unit :=
  match n with
  | NExpr Missing => reject MissingNode
  | NExpr (Expr _ e) => compileExpression e
  | NStmt (Stmt _ s) => compileStatement s
  | NBlock (Block _ l) => compileBlockScope l
  end.
End Emission.

(** [Compile]. *)
Fixpoint Compile (builtins : list string) (fuel : nat) (n : node) : CM unit :=
  match fuel with
  | O => no_fuel
  | S fuel => attributed n (compileNode builtins (Compile builtins fuel) n)
  end.

(* ------------------------------------------------------------------ *)
(** ** Names that certainly hold a struct: [struct_fields.go] *)

(** [structBindingScan]. *)
Record structBindingScan : Type := Scan {
  candidate : gmap string string; poisoned : gset string; complete : bool }.

Definition newStructBindingScan : structBindingScan := Scan ∅ ∅ true.

Definition poison (name : string) (s : structBindingScan) : structBindingScan :=
  Scan (candidate s) ({[name]} ∪ poisoned s) (complete s).

Definition bind_name (name structType : string) (s : structBindingScan) : structBindingScan :=
  if bool_decide (name = "") then s
  else if bool_decide (is_Some (candidate s !! name)) || bool_decide (structType = "") then poison name s
  else Scan (<[name := structType]> (candidate s)) (poisoned s) (complete s).

Definition write_name (name : string) (s : structBindingScan) : structBindingScan :=
  if bool_decide (name = "") then s else poison name s.

Definition write_some (name : option string) (s : structBindingScan) : structBindingScan :=
  match name with Some n => write_name n s | None => s end.

(** The walk, over the walk of the parts. *)
Section ScanNode.
Context (scan : node -> structBindingScan -> structBindingScan).

Definition scan_expr (e : expr) := scan (NExpr e).
Definition scan_all (l : list expr) (s : structBindingScan) := foldl (fun s e => scan_expr e s) s l.
Definition scan_block (b : block) (s : structBindingScan) := foldl (fun s x => scan (NStmt x) s) s (statements b).
Definition scan_option {A} (f : A -> structBindingScan -> structBindingScan) (o : option A) (s : structBindingScan) :=
  match o with Some a => f a s | None => s end.

Definition scanExpression (e : expression) (s : structBindingScan) : structBindingScan :=
  match e with
  | Identifier _ | IntegerLiteral _ | FloatLiteral _ | StringLiteral _ | BooleanLiteral _ => s
  | AssignExpression l _ v =>
      scan_expr v (match l with Expr _ (Identifier name) => write_name name s | _ => scan_expr l s end)
  | InfixExpression l _ r | IndexExpression l r => scan_expr r (scan_expr l s)
  | PrefixExpression _ r => scan_expr r s
  | FieldExpression l _ => scan_expr l s
  | CallExpression f l => scan_all l (scan_expr f s)
  | ArrayLiteral l => scan_all l s
  | HashLiteral l => foldl (fun s p => scan_expr p.2 (scan_expr p.1 s)) s l
  | StructLiteral _ l => scan_all l.*2 s
  | TemplateLiteral _ l => scan_all l s
  | IfExpression c a b => scan_option scan_block b (scan_block a (scan_expr c s))
  | MatchExpression e l => foldl (fun s a => scan_block a.2 (scan_all a.1 s)) (scan_expr e s) l
  | FunctionLiteral name params b => scan_block b (write_name name (foldl (fun s p => write_name p s) s params))
  | MacroLiteral params b => scan_block b (foldl (fun s p => write_name p s) s params)
  end.

Definition scanStatement (st : stmt) (s : structBindingScan) : structBindingScan :=
  match st with
  | LetStatement names value =>
      let structType := match value, names with Expr _ (StructLiteral n _), [_] => n | _, _ => EmptyString end in
      scan_expr value (foldl (fun s n => bind_name n structType s) s names)
  | ReturnStatement l => scan_all l s
  | ExpressionStatement e => scan_expr e s
  | BlockStatement l => foldl (fun s x => scan (NStmt x) s) s l
  | ForStatement i c p b =>
      scan_block b (scan_option scan_expr p (scan_option scan_expr c (scan_option (fun x => scan (NStmt x)) i s)))
  | ForInStatement k v e b => scan_block b (scan_expr e (write_name v (write_some k s)))
  | WhileStatement e b => scan_block b (scan_expr e s)
  | ImportStatement alias _ => write_some alias s
  | StructStatement _ _ | EnumStatement _ _ | BreakStatement | ContinueStatement => s
  end.
End ScanNode.

Fixpoint scan (fuel : nat) (n : node) (s : structBindingScan) : structBindingScan :=
  match fuel with
  | O => s
  | S fuel =>
      match n with
      | NExpr Missing => s
      | NExpr (Expr _ e) => scanExpression (scan fuel) e s
      | NStmt (Stmt _ x) => scanStatement (scan fuel) x s
      | NBlock b => scan_block (scan fuel) b s
      end
  end.

(** [noteStructBindings]. *)
Definition noteStructBindings (l : list statement) (c : Compiler) : Compiler :=
  let s := foldl (fun s x => scan (statement_depth x) (NStmt x) s) newStructBindingScan l in
  let key := structBindingKey c in
  let names := elements (poisoned s ∪ dom (candidate s)) in
  let bindings := foldr (fun n m => delete (key n) m) (structBindings c) names in
  let bindings :=
    if complete s then
      foldr (fun p m => if bool_decide (p.1 ∈ poisoned s) then m else <[key p.1 := p.2]> m) bindings
        (map_to_list (candidate s))
    else bindings in
  with_modules (moduleDisplays c) bindings c.

(* ------------------------------------------------------------------ *)
(** ** Programs *)

Section Programs.
Context (builtins : list string).
Context (draw : nat -> option Z).               (* the random draws; [None]: reading one failed *)

(** [randomChance]. *)
Definition randomChance (n : Z) : CM bool := fun c =>
  let r := if n =? 0 then false else match draw (draws c) with Some x => u32 x mod n =? 0 | None => false end in
  (Accept r, with_checks (injectSecurityChecks c) (hasChkDbg c) (hasChkSnd c) (S (draws c)) c).

(** [maybeEmitRandomSecurityCheckOpcodes] and [ensureRequiredSecurityCheckOpcodes]. *)
Definition check_dbg : CM unit :=
  emit_ OpChkDbg [];; modify (fun c => with_checks (injectSecurityChecks c) true (hasChkSnd c) (draws c) c).
Definition check_snd : CM unit :=
  emit_ OpChkSnd [];; modify (fun c => with_checks (injectSecurityChecks c) (hasChkDbg c) true (draws c) c).

Definition maybeEmitRandomSecurityCheckOpcodes : CM unit :=
  inject ← gets injectSecurityChecks;
  if (inject : bool) then
    a ← randomChance 3;
    (if (a : bool) then check_dbg else mret tt);;
    b ← randomChance 3;
    if (b : bool) then check_snd else mret tt
  else mret tt.

Definition ensureRequiredSecurityCheckOpcodes : CM unit :=
  d ← gets hasChkDbg;
  (if (d : bool) then mret tt else check_dbg);;
  s ← gets hasChkSnd;
  if (s : bool) then mret tt else check_snd.

(** [Compile] of a program, with [absorbPositions]. *)
Definition compileProgram (fuel : nat) (p : source) : CM unit :=
  modify (fun c => with_positions (s_NodePositions p ∪ positions c) (s_MacroExpansions p ∪ macroOrigins c) c);;
  modify (noteStructBindings (s_Statements p));;
  mark ← here;
  each (fun s => Compile builtins fuel (NStmt s);; maybeEmitRandomSecurityCheckOpcodes) (s_Statements p);;
  assertJumpsResolved mark "the program".

(** [New], [NewWithState], [EnableSecurityOpcodeInjection]. *)
Definition builtin_table : Chain :=
  foldl (fun t p => (DefineBuiltin p.1 p.2 t).1) (Root NewSymbolTable) (imap pair builtins).

Definition fresh_compiler (t : Chain) (l : list Object) (address : nat) : Compiler :=
  Comp l t [emptyScope] ∅ ∅ [] 0 0 [∅] ∅ ∅ ∅ false false false 0 ∅ ∅ (Attr 0 0 0 0 0 0) address.

Definition New : Compiler := fresh_compiler builtin_table [] 0.
Definition NewWithState (t : Chain) (l : list Object) (address : nat) : Compiler := fresh_compiler t l address.

Definition EnableSecurityOpcodeInjection (c : Compiler) : Compiler :=
  with_checks true (hasChkDbg c) (hasChkSnd c) (draws c) c.

(** [SeedTypeDefinitions] and [EnterModule]. *)
Definition SeedTypeDefinitions (structs enums : gmap string (list string)) (c : Compiler) : Compiler :=
  with_types (structDefinitions c ∪ structs) (enumDefinitions c ∪ enums) (typeOwners c) c.

Definition EnterModule (key display : string) (namespaces : list (string * string)) (c : Compiler) : Compiler :=
  let displays := if bool_decide (display = "") then moduleDisplays c else <[key := display]> (moduleDisplays c) in
  let t := foldl (fun t p => BindNamespace p.1 p.2 t) (SetCurrentModule key (symbolTable c)) namespaces in
  with_table t (with_modules displays (structBindings c) (with_decls [∅] c)).

(** [ByteCode], before the polymorphic engine: a constant that is no function is
    known to the engine by its place in the pool. *)
Definition pool_entry_of (i : nat) (o : Object) : Constant :=
  match o with CompiledFn f => CFunction (fn_obj f) | _ => COther (Z.of_nat i) end.

Definition ByteCode_ (sourceFile sourceText : list Z) (spans : list ModuleSpan) : CM ByteCode :=
  inject ← gets injectSecurityChecks;
  (if (inject : bool) then ensureRequiredSecurityCheckOpcodes else mret tt);;
  s ← current;
  c ← gets id;
  mret (BC (instructions s) (imap pool_entry_of (constants c)) (structDefinitions c) (enumDefinitions c) ∅ 2
          (ReferencedBuiltins (symbolTable c)) None sourceFile (Build (cs_lines s)) (Build (cs_macros s))
          (Build (cs_ends s)) sourceText spans (default [] (GlobalSlotNames (symbolTable c))) LegacyRegistryV24).

(** The fuel a program needs. *)
Definition program_fuel (p : source) : nat := S (deepest statement_depth (s_Statements p)).
End Programs.
