(* ===== verification/CompilerLogic.v ===== *)
(** * A program logic for the code generator

    Weakest preconditions for the monad of [Compiler.v], and the rules for its
    primitives: what emitting, patching and truncating do to a stream that is
    typed in the sense of [StackTyping.v].  A step may be refused or overflow an
    operand; it may not panic otherwise, run out of fuel, or report one of the
    errors the source calls internal. *)

From stdpp Require Import base list list_numbers numbers gmap strings sorting.
From Stdlib Require Import ZArith Lia.
From S2P Require Import Prelude Code Stream LineTable Polymorphic Padding Mutation StackTyping Text Paths Module Float64.
From S2P Require Import Sha256 Object SymbolTable Ast Compiler.

(** The errors that say the compiler itself is wrong. *)
Fixpoint broken (e : compile_error) : bool :=
  match e with
  | UnresolvedJumps _ _ | PendingBelowEntry | SemaDisagrees => true
  | Located e _ => broken e
  | _ => false
  end.

Definition wp {A : Type} (m : CM A) (Q : A -> Compiler -> Prop) (c : Compiler) : Prop :=
  match m c with
  | (Accept a, c) => Q a c
  | (Reject e, _) => broken e = false
  | (Overflow, _) => True
  | (Crash, _) | (NoFuel, _) => False
  end.

Lemma wp_ret {A} (a : A) Q c : Q a c -> wp (mret a) Q c.
Proof. done. Qed.

Lemma wp_bind {A B} (m : CM A) (k : A -> CM B) Q c : wp m (fun a c => wp (k a) Q c) c -> wp (m ≫= k) Q c.
Proof. unfold wp, mbind, CM_bind. destruct (m c) as [[] ?]; done. Qed.

Lemma wp_mono {A} (m : CM A) (Q Q' : A -> Compiler -> Prop) c :
  wp m Q c -> (forall a c, Q a c -> Q' a c) -> wp m Q' c.
Proof. unfold wp. destruct (m c) as [[] ?]; auto. Qed.

Lemma wp_reject {A} e (Q : A -> Compiler -> Prop) c : broken e = false -> wp (reject e) Q c.
Proof. done. Qed.

Lemma wp_gets {A} (f : Compiler -> A) Q c : Q (f c) c -> wp (gets f) Q c.
Proof. done. Qed.

Lemma wp_modify f Q c : Q tt (f c) -> wp (modify f) Q c.
Proof. done. Qed.

Lemma wp_deferred {A} (m : CM A) f Q c : wp m (fun a c => Q a (f c)) c -> wp (deferred m f) Q c.
Proof. unfold wp, deferred. destruct (m c) as [[] ?]; done. Qed.

Lemma wp_locate {A} rng (m : CM A) Q c : wp m Q c -> wp (locate rng m) Q c.
Proof.
  unfold wp, locate. destruct (m c) as [[|e| | |] ?]; try done.
  intros He. destruct e; try done; destruct rng; try done; by destruct (IsValid _).
Qed.

Create HintDb wp discriminated.

(* ------------------------------------------------------------------ *)
(** ** Steps that emit nothing *)

(** What typing depends on. *)
Definition same_core (c c' : Compiler) : Prop :=
  scopes c' = scopes c /\ constants c' = constants c /\ loopContexts c' = loopContexts c /\
  pendingOperands c' = pendingOperands c.

#[export] Instance same_core_refl : Reflexive same_core.
Proof. by intros c. Qed.
#[export] Instance same_core_trans : Transitive same_core.
Proof. intros a b c (?&?&?&?) (?&?&?&?). repeat split; congruence. Qed.

Definition quiet {A : Type} (m : CM A) : Prop := forall c, wp m (fun _ c' => same_core c c') c.

Lemma wp_quiet {A} (m : CM A) (Q : A -> Compiler -> Prop) c :
  quiet m -> (forall a c', same_core c c' -> Q a c') -> wp m Q c.
Proof. intros Hm HQ. eapply wp_mono; [apply Hm | exact HQ]. Qed.

Lemma quiet_ret {A} (a : A) : quiet (mret a).
Proof. by intros c. Qed.

Lemma quiet_bind {A B} (m : CM A) (k : A -> CM B) : quiet m -> (forall a, quiet (k a)) -> quiet (m ≫= k).
Proof.
  intros Hm Hk c. apply wp_bind, wp_quiet; [done|]. intros a c1 H1. apply wp_quiet; [apply Hk|].
  intros b c2 H2. by etrans.
Qed.

Lemma quiet_gets {A} (f : Compiler -> A) : quiet (gets f).
Proof. by intros c. Qed.

Lemma quiet_reject {A} e : broken e = false -> quiet (@reject A e).
Proof. intros He c. done. Qed.

Lemma quiet_table {A} (f : Chain -> Chain * A) : quiet (table_op f).
Proof. intros c. unfold wp, table_op. destruct (f _). done. Qed.

Lemma quiet_if {A} (b : bool) (m k : CM A) : quiet m -> quiet k -> quiet (if b then m else k).
Proof. by destruct b. Qed.

Lemma quiet_each {A} (f : A -> CM unit) l : (forall a, quiet (f a)) -> quiet (each f l).
Proof. intros Hf. induction l; simpl; [apply quiet_ret | apply quiet_bind; auto]. Qed.

#[export] Hint Resolve quiet_ret quiet_bind quiet_gets quiet_table quiet_if quiet_each : wp.
#[export] Hint Extern 1 (quiet (reject _)) => apply quiet_reject; reflexivity : wp.
#[export] Hint Extern 5 (quiet (match ?x with _ => _ end)) => destruct x : wp.
#[export] Hint Extern 6 (quiet (if ?x then _ else _)) => destruct x : wp.

Ltac quietly := repeat first [progress intros | solve [auto 8 with wp] | apply quiet_bind | case_match].

Lemma quiet_noteDeclared name : quiet (noteDeclared name).
Proof. intros c. unfold wp, noteDeclared. destruct (_ || _); [done|]. simpl. by destruct (declScopes c). Qed.
#[export] Hint Resolve quiet_noteDeclared : wp.

Lemma quiet_declare name : quiet (declare name).
Proof. unfold declare. quietly. Qed.

Lemma quiet_declaredHere name : quiet (declaredHere name).
Proof. apply quiet_gets. Qed.
#[export] Hint Resolve quiet_declare quiet_declaredHere : wp.

Lemma quiet_sort_names l already fresh : quiet (sort_names l already fresh).
Proof. revert already fresh. induction l; intros already fresh; simpl; quietly. Qed.
#[export] Hint Resolve quiet_sort_names : wp.

Lemma quiet_refuseIfNothingIsNew l : quiet (refuseIfNothingIsNew l).
Proof. unfold refuseIfNothingIsNew. quietly. Qed.

Lemma quiet_internalSlot kind : quiet (internalSlot kind).
Proof. unfold internalSlot. quietly. Qed.

Lemma quiet_claimTypeName kind name : quiet (claimTypeName kind name).
Proof. unfold claimTypeName. quietly; by intros d. Qed.

Lemma quiet_refuseDuplicateFields name l : quiet (refuseDuplicateFields name l).
Proof. unfold refuseDuplicateFields. quietly. Qed.

Lemma quiet_checkFieldIsDeclared t f w : quiet (checkFieldIsDeclared t f w).
Proof. unfold checkFieldIsDeclared. quietly. Qed.

Lemma quiet_structTypeOfBinding n : quiet (structTypeOfBinding n).
Proof. apply quiet_gets. Qed.
#[export] Hint Resolve quiet_refuseIfNothingIsNew quiet_internalSlot quiet_claimTypeName quiet_refuseDuplicateFields
  quiet_checkFieldIsDeclared quiet_structTypeOfBinding : wp.

Lemma quiet_check_first_hop base steps : quiet (check_first_hop base steps).
Proof. unfold check_first_hop. quietly. Qed.

Lemma quiet_declareParameter name : quiet (declareParameter name).
Proof. unfold declareParameter. quietly. Qed.

Lemma quiet_openBlock : quiet openBlock.
Proof. by intros c. Qed.
#[export] Hint Resolve quiet_check_first_hop quiet_declareParameter quiet_openBlock : wp.

Lemma same_core_close_block c : same_core c (close_block c).
Proof. done. Qed.

(* ------------------------------------------------------------------ *)
(** ** What the primitives do to the innermost stream *)

Ltac unfold_cm := unfold addInstruction, recordPosition, setLastInstruction, current, set_current, gets, modify, mbind, CM_bind, mret, CM_ret.

Lemma bind_accept {A B} (m : CM A) (k : A -> CM B) c a c' : m c = (Accept a, c') -> (m ≫= k) c = k a c'.
Proof. unfold mbind, CM_bind. by intros ->. Qed.

Lemma bind_overflow {A B} (m : CM A) (k : A -> CM B) c c' : m c = (Overflow, c') -> (m ≫= k) c = (Overflow, c').
Proof. unfold mbind, CM_bind. by intros ->. Qed.

Lemma emit_run op args c s rest :
  scopes c = s :: rest -> length args = length (OperandWidths (definitions op)) ->
  emit op args c = (Overflow, c) \/
  instr_ok (Instr op args) /\ exists s',
    emit op args c = (Accept (length (instructions s)), with_scopes (s' :: rest) c) /\
    instructions s' = instructions s ++ instr_bytes (Instr op args) /\
    lastInstruction s' = Emitted op (length (instructions s)) /\ unresolvedJumps s' = unresolvedJumps s.
Proof.
  intros Hc Hl. destruct (make_never_truncates op args) as [[Hf E]|[_ E]].
  - right. split; [by split|]. unfold emit, of_outcome. rewrite E.
    destruct c. simpl in Hc. subst. unfold_cm. cbn. destruct (posLine attr <=? 0); cbn; eexists; (split; [reflexivity|]); done.
  - left. unfold emit, of_outcome. by rewrite E.
Qed.

Lemma placeholder_run op args c s rest :
  scopes c = s :: rest -> S (length args) = length (OperandWidths (definitions op)) ->
  let i := Instr op (placeholderTarget :: args) in
  emitPlaceholder op args c = (Overflow, c) \/
  instr_ok i /\ exists s' u,
    emitPlaceholder op args c = (Accept (length (instructions s)), with_scopes (s' :: rest) c) /\
    instructions s' = instructions s ++ instr_bytes i /\
    unresolvedJumps s' = <[length (instructions s) := u]> (unresolvedJumps s).
Proof.
  intros Hc Hl i. destruct (emit_run op (placeholderTarget :: args) c s rest Hc Hl) as [E|(Hi & s' & E & H1 & _ & H2)];
    unfold emitPlaceholder; [left; by rewrite (bind_overflow _ _ _ _ E)|].
  right. split; [done|]. rewrite (bind_accept _ _ _ _ _ E). unfold_cm. cbn. do 2 eexists. split; [reflexivity|]. simpl. by rewrite H2.
Qed.

(** The instruction [changeOperand] rebuilds. *)
Lemma jump_operand_count i t :
  target i = Some t -> instr_ok i -> (1 <? length (iwidths i))%nat = true \/ iargs i = [iargs i !!! 0%nat].
Proof.
  intros Ht [Hl _]. pose proof (target_slot _ _ Ht) as Hs. unfold JumpOperands in Hs. rewrite opcode_of_byte_byte in Hs.
  unfold iwidths in *. destruct i as [op args]. simpl in *. destruct op; simplify_eq; simpl in *; try (by left);
    right; destruct args as [|a [|? ?]]; done.
Qed.

Lemma read_back A i B :
  instr_ok i ->
  ReadOperands (definitions (iop i)) (drop (S (length (encode A))) (encode (A ++ i :: B))) = (iargs i, nsum (iwidths i)).
Proof.
  intros [Hl Hf]. rewrite encode_app. cbn [encode]. unfold instr_bytes.
  replace (encode A ++ (opcode_byte (iop i) :: operands_bytes (iwidths i) (iargs i)) ++ encode B)
    with ((encode A ++ [opcode_byte (iop i)]) ++ operands_bytes (iwidths i) (iargs i) ++ encode B)
    by (by rewrite <- app_assoc).
  replace (S (length (encode A))) with (length (encode A ++ [opcode_byte (iop i)])) by (rewrite length_app; simpl; lia).
  rewrite drop_app_at. unfold ReadOperands. fold (iwidths i).
  exact (read_loop_spec _ (iargs i) [] (encode B) (iwidths_ok i) Hf Hl).
Qed.

Lemma encoded_opcode A i B : encode (A ++ i :: B) !! length (encode A) = Some (opcode_byte (iop i)).
Proof. rewrite encode_app. cbn [encode]. unfold instr_bytes. by rewrite lookup_app_r, Nat.sub_diag. Qed.

Lemma replace_instr A i i' B :
  instr_width i' = instr_width i ->
  take (length (encode A)) (encode (A ++ i :: B)) ++ instr_bytes i' ++
    drop (length (encode A) + length (instr_bytes i')) (encode (A ++ i :: B)) = encode (A ++ i' :: B).
Proof.
  intros Hw. rewrite !encode_app. cbn [encode]. rewrite take_app_at, length_instr_bytes, Hw, <- length_instr_bytes.
  f_equal. f_equal. rewrite app_assoc, <- length_app. apply drop_app_at.
Qed.

Lemma replace_run A i i' B c s rest :
  scopes c = s :: rest -> instructions s = encode (A ++ i :: B) -> instr_width i' = instr_width i -> exists s',
  replaceInstruction (length (encode A)) (instr_bytes i') c = (Accept tt, with_scopes (s' :: rest) c) /\
  instructions s' = encode (A ++ i' :: B) /\ unresolvedJumps s' = unresolvedJumps s /\
  lastInstruction s' = lastInstruction s.
Proof.
  intros Hc Hs Hw. unfold replaceInstruction. destruct c. simpl in Hc. subst. unfold_cm. cbn -[Nat.ltb Nat.add length instr_bytes encode take drop].
  rewrite (proj2 (Nat.ltb_ge _ _)).
  2: { rewrite Hs, encode_app. cbn [encode]. rewrite !length_app, !length_instr_bytes. lia. }
  cbn -[instr_bytes encode take drop length]. eexists. split; [reflexivity|]. cbn [instructions unresolvedJumps lastInstruction]. by rewrite Hs, replace_instr.
Qed.

Lemma change_run pos t A i B c s rest :
  scopes c = s :: rest -> instructions s = encode (A ++ i :: B) -> Forall instr_ok (A ++ i :: B) ->
  pos = length (encode A) -> is_Some (target i) ->
  changeOperand pos t c = (Overflow, c) \/
  instr_ok (pointed_at i t) /\ exists s',
    changeOperand pos t c = (Accept tt, with_scopes (s' :: rest) c) /\
    instructions s' = encode (A ++ pointed_at i t :: B) /\ unresolvedJumps s' = delete pos (unresolvedJumps s).
Proof.
  intros Hc Hs Hok -> [t0 Ht].
  assert (Hi : instr_ok i) by (rewrite Forall_app, Forall_cons in Hok; tauto).
  assert (Hops : (if (1 <? length (OperandWidths (definitions (iop i))))%nat
                  then Z.of_nat t :: tail (ReadOperands (definitions (iop i))
                         (drop (S (length (encode A))) (instructions s))).1
                  else [Z.of_nat t]) = iargs (pointed_at i t)).
  { rewrite Hs, read_back by done. simpl. destruct (jump_operand_count _ _ Ht Hi) as [E|E]; unfold iwidths in *.
    - by rewrite E.
    - rewrite E. simpl. by case_match. }
  assert (Hlen : length (iargs (pointed_at i t)) = length (OperandWidths (definitions (iop i)))).
  { destruct Hi as [Hl _]. unfold iwidths in Hl. simpl. rewrite <- Hl. unfold target in Ht.
    rewrite (target_slot i t0 Ht) in Ht. by destruct (iargs i). }
  assert (Ec : currentInstructions c = (Accept (instructions s), c))
    by (unfold currentInstructions, current; unfold_cm; by rewrite Hc).
  unfold changeOperand. rewrite (bind_accept _ _ _ _ _ Ec), Hs, encoded_opcode, <- Hs, Lookup_opcode, Hops.
  destruct (make_never_truncates (iop i) (iargs (pointed_at i t))) as [[Hf E]|[_ E]]; rewrite E; [|by left].
  right. split; [by split|].
  destruct (replace_run A i (pointed_at i t) B c s rest Hc Hs (instr_width_pointed i t)) as (s' & Er & H1 & H2 & _).
  assert (Em : of_outcome (Ret (instr_bytes (pointed_at i t))) c = (Accept (instr_bytes (pointed_at i t)), c)) by done.
  cbv zeta. change (opcode_byte (iop i) :: _) with (instr_bytes (pointed_at i t)).
  rewrite (bind_accept _ _ _ _ _ Em), (bind_accept _ _ _ _ _ Er). unfold_cm. cbn. eexists. split; [reflexivity|].
  simpl. by rewrite H1, H2.
Qed.

(* ------------------------------------------------------------------ *)
(** ** Typed compilers *)

Section Logic.
Context (strict : bool).

(** A constant is a literal, or a function: a typed stream, over a number of
    locals. *)
Definition object_ok (N : nat) (o : Object) : Prop :=
  match o with
  | CompiledFn f => typed_stream strict N (fn_Instructions (fn_obj f)) /\ 0 <= NumLocals (fn_obj f)
  | Integer _ | Float _ | Str _ => True
  | _ => False
  end.

Lemma object_ok_mono N N' o : (N <= N')%nat -> object_ok N o -> object_ok N' o.
Proof. destruct o; simpl; intros ? ?; try done. split; [eapply typed_stream_pool; [done|]|]; tauto. Qed.

Definition pool_ok (l : list Object) : Prop := Forall (object_ok (length l)) l.

(** The innermost stream is typed, [P] being exactly its unresolved jumps. *)
Definition low (c : Compiler) (D P : gmap nat nat) (d : nat) : Prop :=
  exists s rest, scopes c = s :: rest /\ stream strict (length (constants c)) (instructions s) D P d /\
    dom P = dom (unresolvedJumps s) /\ pool_ok (constants c).

(** What a step that neither opens nor closes a scope or a loop keeps. *)
Definition framed (c c' : Compiler) : Prop :=
  tail (scopes c') = tail (scopes c) /\ pendingOperands c' = pendingOperands c /\
  loopContexts c' = loopContexts c /\ (length (constants c) <= length (constants c'))%nat.

Definition endpos (c : Compiler) : nat := match scopes c with s :: _ => length (instructions s) | [] => 0 end.

#[export] Instance framed_refl : Reflexive framed.
Proof. by intros c. Qed.
#[export] Instance framed_trans : Transitive framed.
Proof. intros a b c (?&?&?&?) (?&?&?&?). repeat split; congruence || lia. Qed.

Lemma same_core_framed c c' : same_core c c' -> framed c c'.
Proof. intros (E1 & E2 & E3 & E4). unfold framed. by rewrite E1, E2, E3, E4. Qed.

Lemma low_core c c' D P d : same_core c c' -> low c D P d -> low c' D P d.
Proof. intros (E1 & E2 & _). unfold low. by rewrite E1, E2. Qed.

Lemma low_end c D P d : low c D P d -> D !! endpos c = Some d.
Proof. intros (s & rest & E & H & _). unfold endpos. rewrite E. by eapply stream_end. Qed.

Lemma low_pending c D P d pos : low c D P d -> is_Some (P !! pos) -> (pos < endpos c)%nat.
Proof. intros (s & rest & E & H & _). unfold endpos. rewrite E. by eapply stream_pending_range. Qed.

Lemma low_append c s rest D P d i d' P' s' :
  low c D P d -> scopes c = s :: rest -> instr_ok i -> instructions s' = instructions s ++ instr_bytes i ->
  dom P' = dom (unresolvedJumps s') ->
  (forall pos, pos <> length (instructions s) -> P' !! pos = P !! pos) ->
  (is_Some (P' !! length (instructions s)) -> is_Some (target i)) ->
  (strict = true -> (pops i <= d)%nat) ->
  (falls i = true -> d' = depth_after i d) ->
  (forall t, target i = Some t ->
     match P' !! length (instructions s) with
     | Some dt => strict = true -> dt = depth_jumped i d
     | None => exists dt, D !! t = Some dt /\ (strict = true -> dt = depth_jumped i d)
     end) ->
  pooled (length (constants c)) i ->
  exists D', D ⊆ D' /\ low (with_scopes (s' :: rest) c) D' P' d' /\ framed c (with_scopes (s' :: rest) c).
Proof.
  intros (s0 & rest0 & E0 & Hst & _ & Hpool) E Hi Hs' Hdom HP Hnew Hpop Hf Ht Hc.
  rewrite E in E0. injection E0 as <- <-.
  exists (<[(length (instructions s) + instr_width i)%nat := d']> D).
  pose proof (stream_grows _ _ _ _ _ _ (instr_width i) d' Hst (instr_width_pos i)) as HD.
  split; [done|]. split; [|repeat split; simpl; by rewrite ?E].
  exists s', rest. split; [done|]. split; [|done]. rewrite Hs'. eapply stream_snoc; eauto.
  exists d. split; [eapply lookup_weaken; [by eapply stream_end | done]|]. split; [done|].
  split; [intros Hfi; rewrite lookup_insert_eq; f_equal; by apply Hf|]. split; [|done].
  intros t Et. specialize (Ht t Et). destruct (P' !! _); [done|]. destruct Ht as (dt & Hdt & ?).
  exists dt. split; [by eapply lookup_weaken | done].
Qed.

(** An instruction that is no jump. *)
Definition plain_op (op : Opcode) : bool := match op with OpJump | OpJumpFalse | OpIterNext => false | _ => true end.

Lemma plain_target i : plain_op (iop i) = true -> target i = None.
Proof. unfold target, JumpOperands. rewrite opcode_of_byte_byte. by destruct (iop i). Qed.

Lemma fresh_pending c s rest D P d : low c D P d -> scopes c = s :: rest -> P !! length (instructions s) = None.
Proof.
  intros H E. apply eq_None_not_Some. intros Hs. pose proof (low_pending _ _ _ _ _ H Hs) as Hl. unfold endpos in Hl.
  rewrite E in Hl. lia.
Qed.

Lemma low_emit op args c D P d d' :
  low c D P d -> plain_op op = true -> length args = length (OperandWidths (definitions op)) ->
  (strict = true -> (pops (Instr op args) <= d)%nat) ->
  (falls (Instr op args) = true -> d' = depth_after (Instr op args) d) ->
  pooled (length (constants c)) (Instr op args) ->
  wp (emit op args) (fun pos c' => pos = endpos c /\ exists D', D ⊆ D' /\ low c' D' P d' /\ framed c c') c.
Proof.
  intros H Hop Hl Hpop Hf Hc. pose proof H as (s & rest & E & Hst & Hdom & Hpool).
  destruct (emit_run op args c s rest E Hl) as [Er|(Hi & s' & Er & Hs & _ & Hu)]; unfold wp; rewrite Er; [done|].
  split; [unfold endpos; by rewrite E|]. pose proof (fresh_pending _ _ _ _ _ _ H E) as Hfr.
  apply (low_append c s rest D P d (Instr op args) d' P s'); eauto; [by rewrite Hu | intros [x Hx]; congruence |].
  intros t Ht. by rewrite plain_target in Ht.
Qed.

(** The jump back to the head of a loop. *)
Lemma low_jump_back t dt c D P d d' :
  low c D P d -> D !! t = Some dt -> (strict = true -> dt = d) ->
  wp (emit OpJump [Z.of_nat t])
    (fun pos c' => pos = endpos c /\ exists D', D ⊆ D' /\ low c' D' P d' /\ framed c c') c.
Proof.
  intros H Ht Heq. pose proof H as (s & rest & E & Hst & Hdom & Hpool).
  destruct (emit_run OpJump [Z.of_nat t] c s rest E eq_refl) as [Er|(Hi & s' & Er & Hs & _ & Hu)];
    unfold wp; rewrite Er; [done|].
  split; [unfold endpos; by rewrite E|]. pose proof (fresh_pending _ _ _ _ _ _ H E) as Hfr.
  apply (low_append c s rest D P d (Instr OpJump [Z.of_nat t]) d' P s'); eauto; try done.
  { by rewrite Hu. } { intros; unfold pops; simpl; lia. }
  - intros t' Ht'. unfold target in Ht'. simpl in Ht'. rewrite Nat2Z.id in Ht'. injection Ht' as <-.
    rewrite Hfr. exists dt. split; [done|]. intros Hst'. rewrite Heq by done. unfold depth_jumped, pops. simpl. lia.
  - intros k a Hk. by apply not_elem_of_nil in Hk.
Qed.

(** A jump whose target is not known yet. *)
Lemma low_placeholder op args c D P d d' dj :
  let i := Instr op (placeholderTarget :: args) in
  low c D P d -> plain_op op = false -> S (length args) = length (OperandWidths (definitions op)) ->
  (strict = true -> (pops i <= d)%nat) -> (falls i = true -> d' = depth_after i d) ->
  (strict = true -> dj = depth_jumped i d) ->
  wp (emitPlaceholder op args) (fun pos c' => pos = endpos c /\
    exists D', D ⊆ D' /\ low c' D' (<[pos := dj]> P) d' /\ framed c c') c.
Proof.
  intros i H Hop Hl Hpop Hf Hj. pose proof H as (s & rest & E & Hst & Hdom & Hpool).
  destruct (placeholder_run op args c s rest E Hl) as [Er|(Hi & s' & u & Er & Hs & Hu)]; unfold wp; rewrite Er; [done|].
  split; [unfold endpos; by rewrite E|].
  apply (low_append c s rest D P d i d' (<[length (instructions s) := dj]> P) s'); eauto.
  - rewrite Hu. by rewrite !dom_insert_L, Hdom.
  - intros pos Hne. by rewrite lookup_insert_ne.
  - intros _. unfold target, JumpOperands. rewrite opcode_of_byte_byte. unfold i. simpl. by destruct op.
  - intros t _. by rewrite lookup_insert_eq.
  - intros k a Hk. unfold ConstantOperands in Hk. rewrite opcode_of_byte_byte in Hk. unfold i in Hk. simpl in Hk.
    destruct op; done || by apply not_elem_of_nil in Hk.
Qed.

(** A jump whose target has become known. *)
Lemma low_change pos t dj dt c D P d :
  low c D P d -> P !! pos = Some dj -> D !! t = Some dt -> (strict = true -> dt = dj) ->
  wp (changeOperand pos t)
    (fun _ c' => low c' D (delete pos P) d /\ framed c c' /\ endpos c' = endpos c) c.
Proof.
  intros H HP Ht Heq. pose proof H as (s & rest & E & Hst & Hdom & Hpool).
  pose proof Hst as (l & Hok & Hins & _ & _ & _ & Hpend).
  destruct (Hpend pos) as (i & (A & B & -> & ->) & Hti); [by eexists|].
  destruct (change_run _ t A i B c s rest E Hins Hok eq_refl Hti) as [Er|(Hi & s' & Er & Hs & Hu)];
    unfold wp; rewrite Er; [done|].
  split; [|split; [repeat split; simpl; by rewrite ?E|]].
  - exists s', rest. split; [done|]. split; [|split; [by rewrite Hu, !dom_delete_L, Hdom | done]].
    rewrite Hs. simpl. by eapply stream_patch.
  - unfold endpos. simpl. rewrite E, Hs, Hins. apply length_encode_patch. done.
Qed.

(** Several of them, all wanting the same depth. *)
Fixpoint delete_all (l : list nat) (P : gmap nat nat) : gmap nat nat :=
  match l with
  | [] => P
  | pos :: l => delete_all l (delete pos P)
  end.

Lemma low_changes l t dj dt c D P d :
  low c D P d -> NoDup l -> (forall pos, pos ∈ l -> P !! pos = Some dj) -> D !! t = Some dt ->
  (strict = true -> dt = dj) ->
  wp (changeOperands l t) (fun _ c' => low c' D (delete_all l P) d /\ framed c c' /\ endpos c' = endpos c) c.
Proof.
  revert c P. induction l as [|pos l IH]; intros c P H Hnd HP Ht Heq; [by apply wp_ret|].
  apply NoDup_cons in Hnd as [Hn Hnd]. unfold changeOperands. simpl. apply wp_bind.
  eapply wp_mono; [eapply low_change; eauto; apply HP; by left|]. intros [] c1 (H1 & F1 & E1).
  eapply wp_mono; [eapply IH; eauto|].
  - intros pos' Hp. rewrite lookup_delete_ne; [apply HP; by right|]. intros ->. done.
  - intros [] c2 (H2 & F2 & E2). split; [done|]. split; [by etrans | by rewrite E2].
Qed.

Lemma lookup_delete_all l P k : delete_all l P !! k = if decide (k ∈ l) then None else P !! k.
Proof.
  revert P. induction l as [|p l IH]; intros P; simpl; [done|]. rewrite IH, lookup_delete.
  repeat case_decide; set_solver.
Qed.

(** Jumps that all want the depth [x]. *)
Definition mark_all (x : nat) (l : list nat) (P : gmap nat nat) : gmap nat nat :=
  gset_to_gmap x (list_to_set l) ∪ P.

Lemma lookup_mark_all x l P k : mark_all x l P !! k = if decide (k ∈ l) then Some x else P !! k.
Proof.
  unfold mark_all. destruct (decide (k ∈ l)) as [H|H].
  - apply lookup_union_Some_l, lookup_gset_to_gmap_Some. split; [set_solver | done].
  - apply lookup_union_r, lookup_gset_to_gmap_None. set_solver.
Qed.

Lemma mark_all_nil x P : mark_all x [] P = P.
Proof. apply map_eq. intros k. rewrite lookup_mark_all. by case_decide; [set_solver|]. Qed.

Lemma mark_all_snoc x l P p : <[p := x]> (mark_all x l P) = mark_all x (l ++ [p]) P.
Proof.
  apply map_eq. intros k. rewrite lookup_insert, !lookup_mark_all. repeat case_decide; set_solver.
Qed.

Lemma delete_mark_all x l P : (forall p, p ∈ l -> P !! p = None) -> delete_all l (mark_all x l P) = P.
Proof.
  intros Hn. apply map_eq. intros k. rewrite lookup_delete_all, lookup_mark_all. case_decide; [|done].
  symmetry. auto.
Qed.

(** A constant added to the pool. *)
Lemma low_constant o c D P d :
  low c D P d -> object_ok (S (length (constants c))) o ->
  wp (addConstant o) (fun i c' => low c' D P d /\ framed c c' /\ endpos c' = endpos c /\
    i = zlen (constants c) /\ length (constants c') = S (length (constants c))) c.
Proof.
  intros (s & rest & E & Hst & Hdom & Hpool) Ho.
  assert (Hlen : length (constants c ++ [o]) = S (length (constants c))) by (rewrite length_app; simpl; lia).
  unfold wp, addConstant. split; [|repeat split; simpl; by rewrite ?Hlen; auto].
  exists s, rest. split; [done|]. cbn [with_constants constants]. rewrite Hlen.
  split; [apply (stream_pool _ (length (constants c))); [lia | exact Hst]|]. split; [exact Hdom|].
  unfold pool_ok. rewrite Hlen. apply Forall_app. split; [|by constructor].
  eapply Forall_impl; [exact Hpool|]. intros x Hx. by eapply object_ok_mono; [|done]; lia.
Qed.

(* ------------------------------------------------------------------ *)
(** ** Inside a loop *)

(** The jumps out of the innermost loop that are still unresolved: a loop that
    is compiling its step has resolved its [continue]s. *)
Definition open_positions (ctx : LoopContext) : list nat :=
  breakPositions ctx ++ (if inLoopStep ctx then [] else continuePositions ctx).

Definition loop_map (l : list LoopContext) (dl : nat) : gmap nat nat :=
  match l with
  | [] => ∅
  | ctx :: _ => gset_to_gmap dl (list_to_set (open_positions ctx))
  end.

Definition loop_wf (c : Compiler) : Prop :=
  match loopContexts c with
  | [] => True
  | ctx :: _ => NoDup (open_positions ctx) /\ pendingAtEntry ctx <= pendingOperands c
  end.

(** The compiler at depth [d], the innermost loop wanting [dl] at its exits. *)
Definition typed (c : Compiler) (D P : gmap nat nat) (dl d : nat) : Prop :=
  low c D (P ∪ loop_map (loopContexts c) dl) d /\ P ##ₘ loop_map (loopContexts c) dl /\ loop_wf c.

Definition loops_ext (l l' : list LoopContext) : Prop :=
  match l, l' with
  | [], [] => True
  | a :: l, b :: l' => l' = l /\ pendingAtEntry b = pendingAtEntry a /\ inLoopStep b = inLoopStep a
  | _, _ => False
  end.

Definition frame (c c' : Compiler) : Prop :=
  tail (scopes c') = tail (scopes c) /\ pendingOperands c' = pendingOperands c /\
  loops_ext (loopContexts c) (loopContexts c') /\ (length (constants c) <= length (constants c'))%nat /\
  (endpos c <= endpos c')%nat.

#[export] Instance loops_ext_refl : Reflexive loops_ext.
Proof. by intros [|]. Qed.
#[export] Instance frame_refl : Reflexive frame.
Proof. by intros c. Qed.
#[export] Instance frame_trans : Transitive frame.
Proof.
  intros a b c (?&?&L1&?&?) (?&?&L2&?&?). split; [congruence|]. split; [congruence|]. split; [|split; lia].
  unfold loops_ext in *. destruct (loopContexts a), (loopContexts b), (loopContexts c); try done.
  destruct_and?. repeat split; congruence.
Qed.

Lemma endpos_mono c c' D D' P P' d d' : low c D P d -> low c' D' P' d' -> D ⊆ D' -> (endpos c <= endpos c')%nat.
Proof.
  intros H H' HD. pose proof (lookup_weaken _ _ _ _ (low_end _ _ _ _ H) HD) as Hl.
  destruct H' as (s & rest & E & Hst & _). unfold endpos at 2. rewrite E. by eapply stream_lookup_range.
Qed.

Lemma framed_frame c c' D D' P P' d d' :
  low c D P d -> low c' D' P' d' -> D ⊆ D' -> framed c c' -> frame c c'.
Proof.
  intros H H' HD (?&?&E&?). split; [done|]. split; [done|]. split; [by rewrite E|]. split; [done|].
  by eapply endpos_mono.
Qed.

Lemma typed_same_loops c c' D D' P P' dl d d' :
  typed c D P dl d -> framed c c' -> low c' D' (P' ∪ loop_map (loopContexts c) dl) d' ->
  P' ##ₘ loop_map (loopContexts c) dl -> typed c' D' P' dl d'.
Proof.
  intros (_ & _ & Hw) (_ & E2 & E3 & _) H Hd. unfold typed, loop_wf in *. rewrite E3, E2. done.
Qed.

Lemma typed_core c c' D P dl d : same_core c c' -> typed c D P dl d -> typed c' D P dl d.
Proof.
  intros Hc H. pose proof H as (H1 & H2 & H3). eapply typed_same_loops; eauto using same_core_framed, low_core.
Qed.

(** The steps of a compilation: from [c] at depth [d] with the unresolved jumps
    [P], to a state in which they are [P1] and the depth is [d1]. *)
Definition runs {A : Type} (m : CM A) (c : Compiler) (D P : gmap nat nat) (dl d : nat)
    (P1 : A -> gmap nat nat) (d1 : A -> nat) (R : A -> Compiler -> gmap nat nat -> Prop) : Prop :=
  typed c D P dl d ->
  wp m (fun a c' => exists D', D ⊆ D' /\ typed c' D' (P1 a) dl (d1 a) /\ frame c c' /\ R a c' D') c.

Definition nothing {A : Type} : A -> Compiler -> gmap nat nat -> Prop := fun _ _ _ => True.

(** The common case: depth [d1] and the jumps as they were. *)
Definition leaves (m : CM unit) (c : Compiler) (D P : gmap nat nat) (dl d d1 : nat) : Prop :=
  runs m c D P dl d (fun _ => P) (fun _ => d1) nothing.

Lemma runs_conseq {A} (m : CM A) c D P dl d P1 P1' d1 d1' (R R' : A -> Compiler -> gmap nat nat -> Prop) :
  runs m c D P dl d P1 d1 R ->
  (forall a c' D', D ⊆ D' -> frame c c' -> R a c' D' -> P1 a = P1' a /\ d1 a = d1' a /\ R' a c' D') ->
  runs m c D P dl d P1' d1' R'.
Proof.
  intros Hm HR Ht. eapply wp_mono; [by apply Hm|]. intros a c' (D' & HD & Ht' & Hf & Hr).
  destruct (HR a c' D' HD Hf Hr) as (E1 & E2 & ?). rewrite E1, E2 in Ht'. by exists D'.
Qed.

Lemma runs_ret {A} (a : A) c D P dl d P1 d1 R :
  P1 a = P -> d1 a = d -> R a c D -> runs (mret a) c D P dl d P1 d1 R.
Proof. intros <- <- HR Ht. apply wp_ret. by exists D. Qed.

Lemma runs_bind {A B} (m : CM A) (k : A -> CM B) c D P dl d P1 d1 R1 P2 d2 R2 :
  runs m c D P dl d P1 d1 R1 ->
  (forall a c' D', D ⊆ D' -> frame c c' -> R1 a c' D' ->
     runs (k a) c' D' (P1 a) dl (d1 a) P2 d2 (fun b c2 D2 => D ⊆ D2 -> frame c c2 -> R2 b c2 D2)) ->
  runs (m ≫= k) c D P dl d P2 d2 R2.
Proof.
  intros Hm Hk Ht. apply wp_bind. eapply wp_mono; [by apply Hm|]. intros a c1 (D1 & HD1 & Ht1 & Hf1 & Hr1).
  eapply wp_mono; [by apply (Hk a c1 D1)|]. intros b c2 (D2 & HD2 & Ht2 & Hf2 & Hr2).
  assert (D ⊆ D2) by (by etrans). assert (frame c c2) by (by etrans). exists D2. eauto.
Qed.

Lemma runs_reject {A} e c D P dl d P1 d1 R : broken e = false -> runs (@reject A e) c D P dl d P1 d1 R.
Proof. intros He _. by apply wp_reject. Qed.

Lemma runs_quiet {A} (m : CM A) c D P dl d :
  quiet m -> runs m c D P dl d (fun _ => P) (fun _ => d) (fun _ c' _ => same_core c c').
Proof.
  intros Hm Ht. apply wp_quiet; [done|]. intros a c' Hc. exists D.
  split; [done|]. split; [by eapply typed_core|]. split; [eapply framed_frame; [apply Ht | eapply low_core, Ht; done | done | by apply same_core_framed] | done].
Qed.

Lemma runs_gets {A} (f : Compiler -> A) c D P dl d :
  runs (gets f) c D P dl d (fun _ => P) (fun _ => d) (fun a c' _ => c' = c /\ a = f c).
Proof. intros Ht. apply wp_gets. by exists D. Qed.

Lemma runs_here c D P dl d :
  runs here c D P dl d (fun _ => P) (fun _ => d) (fun pos c' D' => D' !! pos = Some d).
Proof.
  intros Ht. pose proof Ht as ((s & rest & E & Hst & _) & _). unfold wp, here, currentInstructions, current.
  unfold_cm. rewrite E. exists D. do 3 (split; [done|]). by eapply stream_end.
Qed.

Lemma runs_emit_keeps op args c D P dl d d1 :
  plain_op op = true -> length args = length (OperandWidths (definitions op)) ->
  (strict = true -> (pops (Instr op args) <= d)%nat) ->
  (falls (Instr op args) = true -> d1 = depth_after (Instr op args) d) ->
  pooled (length (constants c)) (Instr op args) ->
  runs (emit_ op args) c D P dl d (fun _ => P) (fun _ => d1) (fun _ c' _ => loopContexts c' = loopContexts c).
Proof.
  intros Hop Hl Hp Hf Hc Ht. unfold emit_. apply wp_bind. pose proof Ht as (H1 & H2 & _).
  eapply wp_mono; [by eapply low_emit|]. intros pos c' (_ & D' & HD & H & Hfr). apply wp_ret.
  exists D'. split; [done|]. split; [by eapply typed_same_loops|]. split; [by eapply framed_frame | apply Hfr].
Qed.

Lemma runs_emit op args c D P dl d d1 :
  plain_op op = true -> length args = length (OperandWidths (definitions op)) ->
  (strict = true -> (pops (Instr op args) <= d)%nat) ->
  (falls (Instr op args) = true -> d1 = depth_after (Instr op args) d) ->
  pooled (length (constants c)) (Instr op args) ->
  leaves (emit_ op args) c D P dl d d1.
Proof. intros. eapply runs_conseq; [by apply runs_emit_keeps|]. done. Qed.

Lemma runs_typed {A} (m : CM A) c D P dl d P1 d1 R :
  (typed c D P dl d -> runs m c D P dl d P1 d1 R) -> runs m c D P dl d P1 d1 R.
Proof. intros H Ht. by apply H. Qed.

Lemma runs_jump_back t dt c D P dl d d1 :
  D !! t = Some dt -> (strict = true -> dt = d) -> leaves (emit_ OpJump [Z.of_nat t]) c D P dl d d1.
Proof.
  intros Ht Heq H. unfold emit_. apply wp_bind. pose proof H as (H1 & H2 & _).
  eapply wp_mono; [by eapply low_jump_back|]. intros pos c' (_ & D' & HD & H' & Hfr). apply wp_ret.
  exists D'. split; [done|]. split; [by eapply typed_same_loops|]. split; [by eapply framed_frame | done].
Qed.

Lemma runs_placeholder op args c D P dl d d1 :
  let i := Instr op (placeholderTarget :: args) in
  plain_op op = false -> S (length args) = length (OperandWidths (definitions op)) ->
  (strict = true -> (pops i <= d)%nat) -> (falls i = true -> d1 = depth_after i d) ->
  runs (emitPlaceholder op args) c D P dl d (fun pos => <[pos := depth_jumped i d]> P) (fun _ => d1)
    (fun pos c' _ => P !! pos = None /\ pos = endpos c /\ (pos < endpos c')%nat).
Proof.
  intros i Hop Hl Hp Hf Ht. pose proof Ht as (H1 & H2 & _).
  eapply wp_mono; [by eapply (low_placeholder _ _ _ _ _ _ d1 (depth_jumped i d))|].
  intros pos c' (-> & D' & HD & H & Hfr). pose proof H1 as (s & rest & E & _). pose proof (fresh_pending _ _ _ _ _ _ H1 E) as Hn.
  replace (length (instructions s)) with (endpos c) in Hn by (unfold endpos; by rewrite E).
  apply lookup_union_None in Hn as [Hn Hn'].
  exists D'. split; [done|]. split; [|split; [by eapply framed_frame |]].
  2: { split; [done|]. split; [done|]. eapply low_pending; [exact H|]. rewrite lookup_insert_eq. done. }
  eapply typed_same_loops; eauto; [by rewrite <- insert_union_l | by apply map_disjoint_insert_l].
Qed.

Lemma runs_change pos t dj dt c D P dl d :
  P !! pos = Some dj -> D !! t = Some dt -> (strict = true -> dt = dj) ->
  runs (changeOperand pos t) c D P dl d (fun _ => delete pos P) (fun _ => d) nothing.
Proof.
  intros HP HD Heq Ht. pose proof Ht as (H1 & H2 & _).
  eapply wp_mono.
  { eapply low_change; eauto. by apply lookup_union_Some_l. }
  intros [] c' (H & Hfr & _). exists D. split; [done|]. split; [|split; [by eapply framed_frame | done]].
  assert (Hn : loop_map (loopContexts c) dl !! pos = None) by (by eapply map_disjoint_Some_l).
  eapply typed_same_loops; eauto; [|by apply map_disjoint_delete_l].
  by rewrite delete_union, (delete_id (loop_map _ _)) in H.
Qed.

Lemma delete_all_union l P L :
  (forall p, p ∈ l -> L !! p = None) -> delete_all l (P ∪ L) = delete_all l P ∪ L.
Proof.
  intros Hn. apply map_eq. intros k. rewrite lookup_delete_all, !lookup_union, lookup_delete_all.
  case_decide; [|done]. by rewrite Hn.
Qed.

Lemma runs_changes l t dj dt c D P dl d :
  NoDup l -> (forall p, p ∈ l -> P !! p = Some dj) -> D !! t = Some dt -> (strict = true -> dt = dj) ->
  runs (changeOperands l t) c D P dl d (fun _ => delete_all l P) (fun _ => d) nothing.
Proof.
  intros Hnd HP HD Heq Ht. pose proof Ht as (H1 & H2 & _).
  assert (Hn : forall p, p ∈ l -> loop_map (loopContexts c) dl !! p = None)
    by (intros p Hp; eapply map_disjoint_Some_l; eauto).
  eapply wp_mono.
  { eapply (low_changes l t dj dt); eauto. intros p Hp. apply lookup_union_Some_l. auto. }
  intros [] c' (H & Hfr & _). exists D. split; [done|]. split; [|split; [by eapply framed_frame | done]].
  rewrite delete_all_union in H by done. eapply typed_same_loops; eauto.
  apply map_disjoint_spec. intros k x y Hx Hy. rewrite lookup_delete_all in Hx. case_decide; [done|].
  by eapply map_disjoint_spec.
Qed.

Lemma runs_constant o c D P dl d :
  object_ok (S (length (constants c))) o ->
  runs (addConstant o) c D P dl d (fun _ => P) (fun _ => d)
    (fun i c' _ => 0 <= i /\ (Z.to_nat i < length (constants c'))%nat).
Proof.
  intros Ho Ht. pose proof Ht as (H1 & H2 & _). eapply wp_mono; [by eapply low_constant|].
  intros i c' (H & Hfr & _ & -> & E). exists D. split; [done|]. split; [by eapply typed_same_loops|].
  split; [by eapply framed_frame|]. unfold zlen. lia.
Qed.

Lemma runs_then {A B} (m : CM A) (k : A -> CM B) c D P dl d P1 d1 R1 P2 d2 :
  runs m c D P dl d P1 d1 R1 ->
  (forall a c' D', D ⊆ D' -> frame c c' -> R1 a c' D' -> runs (k a) c' D' (P1 a) dl (d1 a) P2 d2 nothing) ->
  runs (m ≫= k) c D P dl d P2 d2 nothing.
Proof.
  intros Hm Hk. eapply runs_bind; [done|]. intros a c' D' HD HF HR. eapply runs_conseq; [by apply (Hk a c' D')|].
  done.
Qed.

Lemma runs_assoc {A B C} (m : CM A) (k : A -> CM B) (f : B -> CM C) c D P dl d P1 d1 R :
  runs ((m ≫= k) ≫= f) c D P dl d P1 d1 R -> runs (m ≫= fun a => k a ≫= f) c D P dl d P1 d1 R.
Proof. unfold runs, wp, mbind, CM_bind. by destruct (m c) as [[] ?]. Qed.

(** A list compiled element by element, each leaving [n] values. *)
Lemma leaves_each {A} (f : A -> CM unit) l c D P dl d :
  (forall a c' D', a ∈ l -> D ⊆ D' -> frame c c' -> leaves (f a) c' D' P dl d d) ->
  leaves (each f l) c D P dl d d.
Proof.
  revert c D. induction l as [|a l IH]; intros c D Hf; simpl; [by apply runs_ret|].
  eapply runs_then; [apply Hf; [by left | done | done]|]. intros [] c1 D1 HD HF _. apply IH.
  intros b c' D' Hb HD' HF'. apply Hf; [by right | by etrans | by etrans].
Qed.

Lemma leaves_each_from {A} (f : nat -> A -> CM unit) (n : nat) l i c D P dl d :
  (forall j a c' D', l !! j = Some a -> D ⊆ D' -> frame c c' ->
     leaves (f (i + j)%nat a) c' D' P dl (d + n * j) (d + n * S j)) ->
  leaves (each_from f i l) c D P dl d (d + n * length l).
Proof.
  revert i c D d. induction l as [|a l IH]; intros i c D d Hf; simpl.
  { apply runs_ret; [done | lia | done]. }
  eapply runs_then.
  { specialize (Hf 0%nat a c D eq_refl (reflexivity D) (reflexivity c)). by rewrite Nat.add_0_r, Nat.mul_0_r, Nat.add_0_r in Hf. }
  intros [] c1 D1 HD HF _. cbn beta.
  replace (d + n * S (length l))%nat with ((d + n * 1) + n * length l)%nat by lia. apply IH.
  intros j b c' D' Hj HD' HF'. specialize (Hf (S j) b c' D' Hj).
  replace (S i + j)%nat with (i + S j)%nat by lia. replace (d + n * 1 + n * j)%nat with (d + n * S j)%nat by lia.
  replace (d + n * 1 + n * S j)%nat with (d + n * S (S j))%nat by lia. apply Hf; by etrans.
Qed.

(** [withPending]. *)
Lemma typed_pending n c D P dl d :
  0 <= n -> typed c D P dl d -> typed (add_pending n c) D P dl d.
Proof.
  intros Hn (H1 & H2 & H3). split; [done|]. split; [done|]. unfold loop_wf in *. simpl.
  destruct (loopContexts c); [done|]. split; [tauto|]. lia.
Qed.

Lemma leaves_pending n m c D P dl d d1 :
  leaves m (add_pending (Z.of_nat n) c) D P dl d d1 -> leaves (withPending n m) c D P dl d d1.
Proof.
  intros Hm Ht. unfold withPending. apply wp_bind, wp_modify, wp_deferred.
  eapply wp_mono; [apply Hm; by apply typed_pending; [lia|]|].
  intros [] c' (D' & HD & (H1 & H2 & H3) & (F1 & F2 & F3 & F4 & F5) & _).
  assert (Ep : pendingOperands (add_pending (- Z.of_nat n) c') = pendingOperands c) by (simpl in *; lia).
  exists D'. split; [done|]. split; [|split; [|done]].
  - split; [done|]. split; [done|]. destruct Ht as (_ & _ & Hw). unfold loop_wf in *. rewrite Ep.
    simpl in *. unfold loops_ext in F3. destruct (loopContexts c), (loopContexts c'); try done.
    split; [tauto|]. destruct F3 as (_ & -> & _). tauto.
  - split; [done|]. split; [done|]. done.
Qed.

Lemma runs_deferred {A} (m : CM A) f c D P dl d P1 d1 :
  (forall c, same_core c (f c)) -> runs m c D P dl d P1 d1 nothing -> runs (deferred m f) c D P dl d P1 d1 nothing.
Proof.
  intros Hf Hm Ht. apply wp_deferred. eapply wp_mono; [by apply Hm|]. intros a c' (D' & HD & Ht' & HF & _).
  exists D'. split; [done|]. split; [eapply typed_core; [apply Hf | done]|]. split; [|done]. etrans; [exact HF|].
  eapply framed_frame; [apply Ht' | eapply low_core, Ht'; apply Hf | done | apply same_core_framed, Hf].
Qed.

(* ------------------------------------------------------------------ *)
(** ** Leaving a loop *)

(** A [break] or [continue] here leaves the depth the loop wants. *)
Definition balanced (c : Compiler) (dl d : nat) : Prop :=
  match loopContexts c with
  | [] => True
  | ctx :: _ => Z.of_nat d + pendingAtEntry ctx = Z.of_nat dl + pendingOperands c
  end.

(** Required only of code that can leave the loop ([E]). *)
Definition exits_ok (E : Prop) (c : Compiler) (dl d : nat) : Prop := strict = true -> E -> balanced c dl d.

Lemma exits_ok_frame E c c' dl d : frame c c' -> exits_ok E c dl d -> exits_ok E c' dl d.
Proof.
  intros (_ & F2 & F3 & _ & _) H Hs He. specialize (H Hs He). unfold balanced, loops_ext in *. rewrite F2.
  destruct (loopContexts c), (loopContexts c'); try done. by destruct F3 as (_ & -> & _).
Qed.

Lemma exits_ok_pending E c dl d (n : nat) :
  exits_ok E c dl d -> exits_ok E (add_pending (Z.of_nat n) c) dl (d + n).
Proof.
  intros H Hs He. specialize (H Hs He). unfold balanced in *. simpl. destruct (loopContexts c); [done|]. lia.
Qed.
End Logic.
