(* ===== verification/CompilerFacts.v ===== *)
(** * The code generator is correct

    Every function of [Compiler.v] that emits code, proved in the logic of
    [CompilerLogic.v]: an expression leaves one value and a statement none, jumps
    are resolved to instructions, constants are in the pool, the tree's depth is
    enough fuel, and neither an unexpected panic nor an internal error occurs. *)

From stdpp Require Import base list list_numbers numbers gmap strings sorting.
From Stdlib Require Import ZArith Lia.
From S2P Require Import Prelude Code Stream LineTable Polymorphic Padding Mutation StackTyping Text Paths Module Float64.
From S2P Require Import Sha256 Object SymbolTable Ast Compiler CompilerLogic.

(* ------------------------------------------------------------------ *)
(** ** The shape of a tree *)

(** Whether a [break] or [continue] in a tree leaves a loop around it. *)
Fixpoint escapes_expr (e : expr) : bool :=
  match e with
  | Missing => false
  | Expr _ e => escapes_expression e
  end
with escapes_expression (e : expression) : bool :=
  match e with
  | Identifier _ | IntegerLiteral _ | FloatLiteral _ | StringLiteral _ | BooleanLiteral _ => false
  | TemplateLiteral _ l | ArrayLiteral l => existsb escapes_expr l
  | HashLiteral l => existsb (fun p => escapes_expr p.1 || escapes_expr p.2) l
  | PrefixExpression _ e => escapes_expr e
  | InfixExpression l _ r | IndexExpression l r | AssignExpression l _ r => escapes_expr l || escapes_expr r
  | FieldExpression l _ => escapes_expr l
  | CallExpression f l => escapes_expr f || existsb escapes_expr l
  | IfExpression c a b =>
      escapes_expr c || escapes_block a || match b with Some b => escapes_block b | None => false end
  | MatchExpression e l => escapes_expr e || existsb (fun a => existsb escapes_expr a.1 || escapes_block a.2) l
  | FunctionLiteral _ _ _ | MacroLiteral _ _ => false
  | StructLiteral _ l => existsb (fun p => escapes_expr p.2) l
  end
with escapes_statement (s : statement) : bool :=
  match s with Stmt _ s => escapes_stmt s end
with escapes_stmt (s : stmt) : bool :=
  match s with
  | LetStatement _ e | ExpressionStatement e => escapes_expr e
  | ReturnStatement l => existsb escapes_expr l
  | BlockStatement l => existsb escapes_statement l
  | ForStatement i c _ _ =>
      match i with Some s => escapes_statement s | None => false end ||
      match c with Some e => escapes_expr e | None => false end
  | ForInStatement _ _ e _ | WhileStatement e _ => escapes_expr e
  | BreakStatement | ContinueStatement => true
  | StructStatement _ _ | EnumStatement _ _ | ImportStatement _ _ => false
  end
with escapes_block (b : block) : bool :=
  match b with Block _ l => existsb escapes_statement l end.

Definition escapes (n : node) : bool :=
  match n with
  | NExpr e => escapes_expr e
  | NStmt s => escapes_statement s
  | NBlock b => escapes_block b
  end.

(** The assignments [compileAssignExpression] folds through a saved index. *)
Definition folds (left : expr) (operator : string) : bool :=
  match flattenAssignTarget left with
  | Some (_, steps) =>
      negb (bool_decide (operator = "")) && match last steps with Some s => impure_step s | None => false end
  | None => false
  end.

Section Shape.
Context (strict : bool).

(** What the parser gives and, when [strict], what stack balance needs: a [let]
    names something, and no folded assignment leaves a loop from its value. *)
Fixpoint sound_expr (e : expr) : bool :=
  match e with
  | Missing => true
  | Expr _ e => sound_expression e
  end
with sound_expression (e : expression) : bool :=
  match e with
  | Identifier _ | IntegerLiteral _ | FloatLiteral _ | StringLiteral _ | BooleanLiteral _ => true
  | TemplateLiteral _ l | ArrayLiteral l => forallb sound_expr l
  | HashLiteral l => forallb (fun p => sound_expr p.1 && sound_expr p.2) l
  | PrefixExpression _ e => sound_expr e
  | InfixExpression l _ r | IndexExpression l r => sound_expr l && sound_expr r
  | AssignExpression l operator r =>
      sound_expr l && sound_expr r && negb (strict && folds l operator && escapes_expr r)
  | FieldExpression l _ => sound_expr l
  | CallExpression f l => sound_expr f && forallb sound_expr l
  | IfExpression c a b => sound_expr c && sound_block a && match b with Some b => sound_block b | None => true end
  | MatchExpression e l => sound_expr e && forallb (fun a => forallb sound_expr a.1 && sound_block a.2) l
  | FunctionLiteral _ _ b | MacroLiteral _ b => sound_block b
  | StructLiteral _ l => forallb (fun p => sound_expr p.2) l
  end
with sound_statement (s : statement) : bool :=
  match s with Stmt _ s => sound_stmt s end
with sound_stmt (s : stmt) : bool :=
  match s with
  | LetStatement names e => negb (bool_decide (names = [])) && sound_expr e
  | ExpressionStatement e => sound_expr e
  | ReturnStatement l => forallb sound_expr l
  | BlockStatement l => forallb sound_statement l
  | ForStatement i c p b =>
      match i with Some s => sound_statement s | None => true end &&
      match c with Some e => sound_expr e | None => true end &&
      match p with Some e => sound_expr e | None => true end && sound_block b
  | ForInStatement _ _ e b | WhileStatement e b => sound_expr e && sound_block b
  | BreakStatement | ContinueStatement | StructStatement _ _ | EnumStatement _ _ | ImportStatement _ _ => true
  end
with sound_block (b : block) : bool :=
  match b with Block _ l => forallb sound_statement l end.

Definition sound (n : node) : bool :=
  match n with
  | NExpr e => sound_expr e
  | NStmt s => sound_statement s
  | NBlock b => sound_block b
  end.

(** A tree that nests at most [f] deep, is sound, and leaves loops only if [E]. *)
Definition part (f : nat) (E : Prop) (n : node) : Prop :=
  (node_depth n <= f)%nat /\ sound n = true /\ (escapes n = true -> E).

Lemma deepest_le {A} (d : A -> nat) l n : (deepest d l <= n)%nat <-> Forall (fun a => (d a <= n)%nat) l.
Proof.
  unfold deepest. induction l as [|a l IH]; simpl; [split; [constructor | lia]|].
  rewrite Forall_cons, <- IH. lia.
Qed.

(** The parts of a list of nodes. *)
Lemma node_parts {A} (inj : A -> node) (l : list A) f (E : Prop) :
  (deepest (fun a => node_depth (inj a)) l <= f)%nat -> forallb (fun a => sound (inj a)) l = true ->
  (existsb (fun a => escapes (inj a)) l = true -> E) -> Forall (fun a => part f E (inj a)) l.
Proof.
  rewrite deepest_le. intros Hd Hs He. rewrite forallb_forall in Hs. apply Forall_forall. intros a Ha.
  rewrite Forall_forall in Hd. split; [by apply Hd|]. split; [by apply Hs, list_elem_of_In|].
  intros Hx. apply He. apply existsb_exists. exists a. split; [by apply list_elem_of_In | done].
Qed.
End Shape.

(** Take a node's parts apart. *)
Ltac take_parts :=
  unfold part in *; cbn [node_depth expr_depth expression_depth statement_depth stmt_depth block_depth
    sound sound_expr sound_expression sound_statement sound_stmt sound_block
    escapes escapes_expr escapes_expression escapes_statement escapes_stmt escapes_block] in *.

Ltac split_parts := repeat match goal with
  | H : _ /\ _ |- _ => destruct H
  | H : (_ && _)%bool = true |- _ => apply andb_true_iff in H; destruct H
  end.

Ltac parts_done :=
  take_parts; split_parts; repeat split; try lia; try done;
  try (intros; repeat match goal with H : ?x = true -> _ |- _ => apply H end; rewrite ?orb_true_iff; tauto).

(* ------------------------------------------------------------------ *)
(** ** Tactics *)

Lemma pooled_none N op args : ConstantOperands (opcode_byte op) = [] -> pooled N (Instr op args).
Proof. intros E k a Hk. simpl in Hk. rewrite E in Hk. by apply not_elem_of_nil in Hk. Qed.

Lemma pooled_first N op i args :
  ConstantOperands (opcode_byte op) = [0%nat] -> (Z.to_nat i < N)%nat -> pooled N (Instr op (i :: args)).
Proof.
  intros E Hi k a Hk Ha. simpl in *. rewrite E in Hk. apply list_elem_of_singleton in Hk as ->. by simplify_eq/=.
Qed.

Lemma zlen_operand {A} (l : list A) : Z.to_nat (zlen l) = length l.
Proof. unfold zlen. lia. Qed.

Ltac effects :=
  unfold depth_after, depth_jumped, pops, pushes, effect, operand in *; cbn [iop iargs fst snd] in *;
  repeat match goal with
  | |- context [(?a :: ?l) !!! 0%nat] => change ((a :: l) !!! 0%nat) with a
  | |- context [(?a :: ?b :: ?l) !!! 1%nat] => change ((a :: b :: l) !!! 1%nat) with b
  end; rewrite ?zlen_operand, ?Nat2Z.id; try lia.

Ltac emission :=
  first [reflexivity | by apply pooled_none | (apply pooled_first; [reflexivity | lia]) | (intros [=]; fail)
    | solve [intros _; effects] | done | idtac].

(** Depths known earlier, and the exits of the loop, still hold. *)
Ltac incl := solve [eassumption | reflexivity | (etrans; [|eassumption]; incl)].
Ltac mark := eapply lookup_weaken; [eassumption | incl].
Ltac exits := solve [eassumption | (eapply exits_ok_frame; [eassumption | exits])].

(** Bookkeeping of unresolved jumps: what was added has been resolved. *)
Ltac unpend := cbn beta in *; repeat match goal with
  | H : _ /\ _ /\ (_ < endpos _)%nat |- _ => destruct H as (? & ? & ?)
  | H : frame ?a ?b |- _ =>
      lazymatch goal with
      | _ : (endpos a <= endpos b)%nat |- _ => fail
      | _ => assert ((endpos a <= endpos b)%nat) by apply H
      end
  end;
  repeat match goal with
  | H : <[_ := _]> _ !! _ = None |- _ => rewrite lookup_insert_ne in H by lia
  | H : delete _ _ !! _ = None |- _ => rewrite lookup_delete_ne in H by lia
  end.

Ltac settle :=
  unpend; apply map_eq; intros ?k; rewrite ?lookup_insert, ?lookup_delete, ?lookup_insert, ?lookup_delete;
  repeat (case_decide; simplify_eq; try done; rewrite ?lookup_insert, ?lookup_delete); try congruence; lia.

Ltac find_pending := first
  [ apply lookup_insert_eq | eassumption
  | rewrite lookup_insert_ne by lia; find_pending | rewrite lookup_delete_ne by lia; find_pending ].
Ltac resolve := unpend; find_pending.

(* ------------------------------------------------------------------ *)
(** ** Captured locals *)

(** What [boxCapturedLocals] makes of one instruction. *)
Definition box (boxed : list Z) (i : instr) : instr :=
  match i with
  | Instr OpGetLocal [o] => if bool_decide (o ∈ boxed) then Instr OpGetLocalCell [o] else i
  | Instr OpSetLocal [o] => if bool_decide (o ∈ boxed) then Instr OpSetLocalCell [o] else i
  | _ => i
  end.

Lemma box_alike boxed i : alike i (box boxed i).
Proof.
  destruct i as [op args]. destruct op; try done; simpl; destruct args as [|o [|? ?]]; try done;
    by destruct (bool_decide _).
Qed.

Lemma box_bytes boxed A i B :
  instr_ok i ->
  let ins := encode (A ++ i :: B) in
  let captured := match iargs i with [o] => bool_decide (o ∈ boxed) | _ => false end in
  match iop i with
  | OpGetLocal => if captured then <[length (encode A) := opcode_byte OpGetLocalCell]> ins else ins
  | OpSetLocal => if captured then <[length (encode A) := opcode_byte OpSetLocalCell]> ins else ins
  | _ => ins
  end = encode (A ++ box boxed i :: B).
Proof.
  intros [Hl _] ins captured. subst ins captured. destruct i as [op args]. unfold iwidths in Hl. simpl in Hl.
  destruct op; try done; simpl in *; destruct args as [|o [|? ?]]; try done; destruct (bool_decide _); try done;
    rewrite !encode_app; cbn [encode]; unfold instr_bytes; cbn [iop iargs app]; by rewrite insert_app_at.
Qed.

Lemma box_loop_spec boxed l fuel A :
  Forall instr_ok l -> (length l <= fuel)%nat ->
  box_loop fuel boxed (encode (A ++ l)) (length (encode A)) = encode (A ++ (box boxed <$> l)).
Proof.
  intros Hok. revert fuel A. induction Hok as [|i l Hi Hok IH]; intros [|fuel] A Hf; simpl in Hf; try lia.
  { by cbn [box_loop fmap list_fmap]. }
  { cbn [box_loop fmap list_fmap]. rewrite app_nil_r. by rewrite lookup_ge_None_2. }
  cbn [box_loop]. rewrite encoded_opcode, opcode_of_byte_byte, read_back by done. rewrite box_bytes by done.
  replace (A ++ box boxed i :: l) with ((A ++ [box boxed i]) ++ l) by (by rewrite <- app_assoc).
  replace (length (encode A) + 1 + nsum (iwidths i))%nat with (length (encode (A ++ [box boxed i]))).
  2: { rewrite encode_snoc, length_app, length_instr_bytes, (alike_width _ _ (box_alike boxed i)).
       unfold instr_width, def_width, iwidths. lia. }
  rewrite IH by lia. cbn [fmap list_fmap]. by rewrite <- app_assoc.
Qed.

Lemma boxCapturedLocals_typed strict N ins captured :
  typed_stream strict N ins -> typed_stream strict N (boxCapturedLocals ins captured).
Proof.
  intros Ht. unfold boxCapturedLocals. destruct (bool_decide _); [done|].
  pose proof Ht as (D & d & (l & Hok & -> & _) & _).
  rewrite (box_loop_spec captured l _ [] Hok) by apply length_encode_ge. simpl.
  apply typed_stream_map; [intros; apply box_alike | done | done].
Qed.

Section Correct.
Context (strict : bool).
Context (builtins : list string) (fuel : nat) (Compile : node -> CM unit).

Local Notation leaves := (leaves strict).
Local Notation runs := (runs strict).
Local Notation typed := (typed strict).
Local Notation exits_ok := (exits_ok strict).
Local Notation part := (part strict fuel).

Definition leftover (n : node) : nat := match n with NExpr _ => 1 | _ => 0 end.

(** The stream ends in the pop of an expression statement: what it was before. *)
Definition popped (c : Compiler) (D P : gmap nat nat) (d : nat) : Prop :=
  exists s rest ins D1, scopes c = s :: rest /\ instructions s = ins ++ instr_bytes (Instr OpPop []) /\
    em_Position (lastInstruction s) = length ins /\ D ⊆ D1 /\ stream strict (length (constants c)) ins D1 P (S d).

Definition pop_last (c : Compiler) (D P : gmap nat nat) (dl d : nat) : Prop :=
  popped c D (P ∪ loop_map (loopContexts c) dl) d.

Definition ends (n : node) : bool :=
  match n with
  | NStmt (Stmt _ (ExpressionStatement _)) => true
  | NBlock b => endsInExpressionStatement b
  | _ => false
  end.

(** What [Compile] promises of the nodes below. *)
Definition compiles (n : node) (m : CM unit) : Prop := forall E c D P dl d,
  (escapes n = true -> E) -> exits_ok E c dl d ->
  runs m c D P dl d (fun _ => P) (fun _ => (d + leftover n)%nat)
    (fun _ c' _ => ends n = true -> pop_last c' D P dl d).

Hypothesis IH : forall n, (node_depth n <= fuel)%nat -> sound strict n = true -> compiles n (Compile n).

Lemma node_leaves n E c D P dl d :
  part E n -> exits_ok E c dl d -> leaves (Compile n) c D P dl d (d + leftover n).
Proof.
  intros (Hd & Hs & He) HE. eapply runs_conseq; [by apply (IH n Hd Hs E)|]. done.
Qed.

Lemma leaves_compile E e c D P dl d :
  part E (NExpr e) -> exits_ok E c dl d -> leaves (compile Compile e) c D P dl d (S d).
Proof. intros Hp HE. replace (S d) with (d + leftover (NExpr e))%nat by (simpl; lia). by eapply node_leaves. Qed.

(** Compiled over [n] operands. *)
Lemma leaves_compilePending E n e c D P dl d0 d :
  part E (NExpr e) -> exits_ok E c dl d0 -> d = (d0 + n)%nat -> leaves (compilePending Compile n e) c D P dl d (S d).
Proof.
  intros Hp HE ->. apply leaves_pending. eapply leaves_compile; [done|]. by apply exits_ok_pending.
Qed.

Lemma leaves_constant o c D P dl d :
  object_ok strict (S (length (constants c))) o -> leaves (constant o) c D P dl d (S d).
Proof.
  intros Ho. unfold constant. eapply runs_then; [by apply runs_constant|]. intros i c1 D1 _ _ [Hi Hl]. cbn beta.
  apply runs_emit; emission.
Qed.

(* ------------------------------------------------------------------ *)
(** ** Operators *)

Lemma infixOpcode_effect operator op :
  infixOpcode operator = Some op ->
  plain_op op = true /\ OperandWidths (definitions op) = [] /\ effect (Instr op []) = (2, 1)%nat /\
  falls (Instr op []) = true /\ ConstantOperands (opcode_byte op) = [].
Proof.
  unfold infixOpcode. intros H.
  repeat match type of H with (if ?b then _ else _) = _ => destruct b; [injection H as <-; done|] end. done.
Qed.

Lemma leaves_infix_op operator c D P dl d :
  leaves (match infixOpcode operator with None => reject (UnknownOperator operator) | Some op => emit_ op [] end)
    c D P dl (S (S d)) (S d).
Proof.
  destruct (infixOpcode operator) as [op|] eqn:E; [|by apply runs_reject].
  apply infixOpcode_effect in E as (H1 & H2 & H3 & H4 & H5).
  apply runs_emit; [done | by rewrite H2 | | | by apply pooled_none]; intros _;
    unfold depth_after, pops, pushes; rewrite H3; simpl; lia.
Qed.

Tactic Notation "next" tactic3(t) := eapply runs_then; [solve [t]|intros ?a ?c ?D ?HD ?HF ?HR; cbn beta in * ].

Ltac place d := apply (runs_placeholder _ _ _ _ _ _ _ _ d); emission.
Ltac put d := apply (runs_emit _ _ _ _ _ _ _ _ d); emission.
Ltac patch := eapply runs_change; [resolve | first [eassumption | mark] | intros _; effects].
Ltac patched := eapply runs_conseq; [patch | intros ? ? ? _ _ _; split; [settle | done]].

Lemma leaves_logical E l operator r c D P dl d :
  part E (NExpr l) -> part E (NExpr r) -> exits_ok E c dl d ->
  leaves (compileLogicalExpression Compile l operator r) c D P dl d (S d).
Proof.
  intros Hl Hr HE. unfold compileLogicalExpression. next (by eapply leaves_compile).
  destruct (bool_decide (operator = "&&")).
  - next (place d). next (eapply leaves_compile; [done | exits]). next (place d). next (put (S d)).
    next (place d). next (apply runs_here). next (patch). next (patch). next (put (S d)).
    next (apply runs_here). patched.
  - next (place d). next (put (S d)). next (place d). next (apply runs_here). next (patch).
    next (eapply leaves_compile; [done | exits]). next (place d). next (put (S d)). next (place d).
    next (apply runs_here). next (patch). next (put (S d)). next (apply runs_here). next (patch). patched.
Qed.

Lemma leaves_compileInfix E l operator r c D P dl d :
  part E (NExpr l) -> part E (NExpr r) -> exits_ok E c dl d ->
  leaves (compileInfix Compile l operator r) c D P dl d (S d).
Proof.
  intros Hl Hr HE. unfold compileInfix. destruct (_ || _); [by eapply leaves_logical|].
  next (by eapply leaves_compile). next (eapply (leaves_compilePending E _ _ _ _ _ _ d); [done | exits | lia]).
  apply leaves_infix_op.
Qed.

Lemma leaves_compilePrefix E operator r c D P dl d :
  part E (NExpr r) -> exits_ok E c dl d -> leaves (compilePrefix Compile operator r) c D P dl d (S d).
Proof.
  intros Hr HE. unfold compilePrefix. next (by eapply leaves_compile).
  destruct (bool_decide _); [put (S d)|]. destruct (bool_decide _); [put (S d)|].
  destruct (bool_decide _); [put (S d)|]. by apply runs_reject.
Qed.

(* ------------------------------------------------------------------ *)
(** ** Blocks that leave a value *)

Lemma removeLastPop_run c D D0 P dl d :
  typed c D P dl d -> pop_last c D0 P dl d ->
  wp removeLastPop (fun _ c' => framed c c' /\ (endpos c' <= endpos c)%nat /\
    exists D', D0 ⊆ D' /\ typed c' D' P dl (S d)) c.
Proof.
  intros Ht (s & rest & ins & D1 & E & Hs & Hl & HD & Hst).
  pose proof Ht as ((s0 & rest0 & E0 & _ & Hdom & Hpool) & Hdis & Hwf). rewrite E in E0. injection E0 as <- <-.
  unfold wp, removeLastPop, current, set_current. unfold_cm. rewrite E, Hl.
  rewrite (proj2 (Nat.ltb_ge _ _)) by (rewrite Hs, length_app; lia). rewrite E, Hs, take_app_at.
  split; [repeat split; simpl; by rewrite ?E|]. split.
  { unfold endpos. simpl. rewrite E, Hs, length_app. lia. }
  exists D1. split; [done|]. split; [|done]. eexists _, rest. split; [done|]. done.
Qed.

Lemma leaves_value_block E b c D P dl d :
  part E (NBlock b) -> exits_ok E c dl d -> leaves (Compile (NBlock b);; leaveOneValue b) c D P dl d (S d).
Proof.
  intros (Hd & Hs & He) HE Ht. apply wp_bind. eapply wp_mono; [by apply (IH (NBlock b) Hd Hs E c D P dl d He HE)|].
  intros [] c1 (D1 & HD1 & Ht1 & HF1 & Hends). cbn beta in *. simpl in Hends, Ht1. rewrite Nat.add_0_r in Ht1.
  unfold leaveOneValue. destruct (endsInExpressionStatement b).
  - eapply wp_mono; [eapply removeLastPop_run; eauto|]. intros [] c2 (F & _ & D2 & HD2 & Ht2).
    exists D2. split; [done|]. split; [done|]. split; [|done].
    destruct F as (F1 & F2 & F3 & F4), HF1 as (G1 & G2 & G3 & G4 & G5).
    split; [congruence|]. split; [congruence|]. split; [by rewrite F3|]. split; [lia|].
    eapply endpos_mono; [apply Ht | apply Ht2 | done].
  - assert (Hn : leaves (emit_ OpNull []) c1 D1 P dl d (S d)) by put (S d).
    eapply wp_mono; [by apply Hn|]. intros [] c2 (D2 & HD2 & Ht2 & HF2 & _).
    exists D2. split; [by etrans|]. split; [done|]. split; [by etrans | done].
Qed.

Lemma leaves_compileIf E x a b c D P dl d :
  part E (NExpr x) -> part E (NBlock a) -> (forall b', b = Some b' -> part E (NBlock b')) -> exits_ok E c dl d ->
  leaves (compileIf Compile x a b) c D P dl d (S d).
Proof.
  intros Hx Ha Hb HE. unfold compileIf. next (by eapply leaves_compile). next (place d).
  apply runs_assoc. next (eapply leaves_value_block; [done | exits]). next (place d). next (apply runs_here).
  next (patch).
  eapply runs_then; [|intros ?u ?c ?D ?HD ?HF ?HR; cbn beta in *].
  { destruct b as [b|]; [eapply leaves_value_block; [by apply Hb | exits] | put (S d)]. }
  next (apply runs_here). patched.
Qed.

(* ------------------------------------------------------------------ *)
(** ** Literals and calls *)

Lemma template_loop_runs E texts parts pieces c D P dl d :
  Forall (fun e => part E (NExpr e)) parts -> exits_ok E c dl d ->
  runs (template_loop Compile texts parts pieces) c D P dl (d + pieces) (fun _ => P) (fun n => d + n)%nat nothing.
Proof.
  revert parts pieces c D. induction texts as [|text texts IHt]; intros parts pieces c D Hp HE; cbn [template_loop].
  { by apply runs_ret. }
  eapply (runs_then _ _ _ _ _ _ _ _ (fun _ => P) (fun n => d + n)%nat nothing).
  { destruct (bool_decide (text = [])); [by apply runs_ret|]. apply runs_assoc.
    next (by apply leaves_constant). by apply runs_ret; [|lia|]. }
  intros n c1 D1 HD HF _. cbn beta. destruct parts as [|part parts]; [apply IHt; [done | exits]|].
  apply Forall_cons in Hp as [Hp Hps].
  next (eapply (leaves_compilePending E _ _ _ _ _ _ d); [done | exits | lia]).
  replace (S (d + n)) with (d + S n)%nat by lia. apply IHt; [done | exits].
Qed.

Lemma leaves_template E texts parts c D P dl d :
  Forall (fun e => part E (NExpr e)) parts -> exits_ok E c dl d ->
  leaves (compileTemplateLiteral Compile texts parts) c D P dl d (S d).
Proof.
  intros Hp HE. unfold compileTemplateLiteral. replace d with (d + 0)%nat at 1 by lia.
  eapply runs_then; [by eapply template_loop_runs|]. intros n c1 D1 HD HF _. cbn beta.
  destruct (n =? 0)%nat eqn:En; breflect; [subst; rewrite Nat.add_0_r; by apply leaves_constant|].
  put (S d).
Qed.

(** Elements compiled over the ones before them. *)
Lemma leaves_elements E k l c D P dl d0 :
  Forall (fun e => part E (NExpr e)) l -> exits_ok E c dl d0 ->
  leaves (each_from (fun i a => compilePending Compile (k + i) a) 0 l) c D P dl (d0 + k) (d0 + k + length l).
Proof.
  intros Hl HE. replace (d0 + k + length l)%nat with (d0 + k + 1 * length l)%nat by lia. apply leaves_each_from.
  intros j e c' D' Hj HD HF. replace (d0 + k + 1 * S j)%nat with (S (d0 + k + 1 * j)) by lia.
  eapply (leaves_compilePending E _ _ _ _ _ _ d0); [by eapply Forall_lookup_1 in Hl | exits | lia].
Qed.

Lemma leaves_compileArray E l c D P dl d :
  Forall (fun e => part E (NExpr e)) l -> exits_ok E c dl d -> leaves (compileArray Compile l) c D P dl d (S d).
Proof.
  intros Hl HE. unfold compileArray.
  eapply runs_then; [|intros [] c1 D1 HD HF _; cbn beta].
  - replace d with (d + 0)%nat at 1 by lia. by apply (leaves_elements E 0).
  - put (S d).
Qed.

Lemma leaves_compileHash E l c D P dl d :
  Forall (fun p => part E (NExpr p.1) /\ part E (NExpr p.2)) l -> exits_ok E c dl d ->
  leaves (compileHash Compile l) c D P dl d (S d).
Proof.
  intros Hl HE. unfold compileHash.
  eapply runs_then; [apply (leaves_each_from _ _ 2)|intros [] c1 D1 HD HF _; cbn beta].
  - intros j p c' D' Hj HD HF. cbn [Nat.add]. destruct (Forall_lookup_1 _ _ _ _ Hl Hj) as [H1 H2].
    next (eapply (leaves_compilePending E _ _ _ _ _ _ d); [done | exits | lia]).
    replace (d + 2 * S j)%nat with (S (S (d + 2 * j))) by lia.
    eapply (leaves_compilePending E _ _ _ _ _ _ d); [done | exits | lia].
  - apply runs_emit; emission; intros _; effects; unfold zlen; lia.
Qed.

Lemma leaves_compileCall E f l c D P dl d :
  part E (NExpr f) -> Forall (fun e => part E (NExpr e)) l -> exits_ok E c dl d ->
  leaves (compileCall Compile f l) c D P dl d (S d).
Proof.
  intros Hf Hl HE. unfold compileCall. next (by eapply leaves_compile).
  eapply runs_then; [|intros [] c1 D1 HD1 HF1 _; cbn beta].
  - replace (S d) with (d + 1)%nat by lia. apply (leaves_elements E 1); [done | exits].
  - put (S d).
Qed.

(* ------------------------------------------------------------------ *)
(** ** Match expressions *)

(** Fresh positions among jumps already collected. *)
Lemma fresh_mark x l (P : gmap nat nat) p : mark_all x l P !! p = None -> p ∉ l /\ P !! p = None.
Proof. rewrite lookup_mark_all. case_decide; [done|]. done. Qed.

Definition collected (P : gmap nat nat) (l : list nat) : Prop := NoDup l /\ forall p, p ∈ l -> P !! p = None.

Lemma collected_snoc x P l p : collected P l -> mark_all x l P !! p = None -> collected P (l ++ [p]).
Proof.
  intros [Hn Hf] [Hp HP]%fresh_mark. split.
  - apply NoDup_app. split; [done|]. split; [|apply NoDup_singleton]. intros q Hq Hq2. apply list_elem_of_singleton in Hq2 as ->. done.
  - intros q [Hq|Hq]%elem_of_app; [auto|]. apply list_elem_of_singleton in Hq as ->. done.
Qed.

Definition with_missed (x : nat) (P : gmap nat nat) (o : option nat) : gmap nat nat :=
  match o with Some p => <[p := x]> P | None => P end.

Lemma arm_tests_runs E patterns matched c D P dl d :
  Forall (fun e => part E (NExpr e)) patterns -> exits_ok E c dl d -> collected P matched ->
  runs (arm_tests Compile patterns matched) c D (mark_all (S d) matched P) dl (S d)
    (fun t => with_missed (S d) (mark_all (S d) t.1 P) t.2) (fun _ => S d)
    (fun t c' _ => collected P t.1 /\
       forall p, t.2 = Some p -> mark_all (S d) t.1 P !! p = None /\ p = p /\ (p < endpos c')%nat).
Proof.
  revert matched c D. induction patterns as [|e patterns IHp]; intros matched c D Hp HE Hm; cbn [arm_tests].
  { apply runs_ret; [done | done |]. split; [done|]. intros p [=]. }
  apply Forall_cons in Hp as [Hp Hps].
  eapply runs_bind; [put (S (S d))|intros ?u ?c ?D ?HD ?HF _; cbn beta].
  eapply runs_bind; [eapply (leaves_compilePending E 2 _ _ _ _ _ d); [done | exits | lia]
    | intros ?u ?c ?D ?HD ?HF _; cbn beta].
  eapply runs_bind; [put (S (S d))|intros ?u ?c ?D ?HD ?HF _; cbn beta].
  destruct patterns as [|e' patterns].
  - eapply runs_bind; [place (S d)|intros x ?c ?D ?HD ?HF HR; cbn beta].
    apply runs_ret; cbn [with_missed fst snd]; [|done|].
    + f_equal. effects.
    + cbn beta in *. intros. split; [done|]. intros p [= <-]. tauto.
  - eapply runs_bind; [place (S d)|intros x ?c ?D ?HD ?HF HR; cbn beta in *].
    eapply runs_bind; [place (S d)|intros m ?c ?D ?HD ?HF HR'; cbn beta in *].
    eapply runs_bind; [apply runs_here|intros here ?c ?D ?HD ?HF HR''; cbn beta in *].
    eapply runs_bind; [patch|intros ?u ?c ?D ?HD ?HF _; cbn beta].
    unpend.
    assert (Em : delete x (<[m := depth_jumped (Instr OpJump [placeholderTarget]) (S d)]>
      (<[x := depth_jumped (Instr OpJumpFalse [placeholderTarget]) (S (S d))]> (mark_all (S d) matched P)))
      = mark_all (S d) (matched ++ [m]) P).
    { rewrite <- mark_all_snoc. replace (depth_jumped (Instr OpJump [placeholderTarget]) (S d)) with (S d) by effects.
      settle. }
    rewrite Em. eapply runs_conseq; [apply IHp; [done | exits | by eapply collected_snoc]|].
    intros t c' D' _ _ HR. done.
Qed.

Tactic Notation "bind_with" tactic3(t) := eapply runs_bind; [solve [t]|intros ?a ?c ?D ?HD ?HF ?HR; cbn beta in * ].

Lemma compileArm_runs E patterns body c D P dl d :
  Forall (fun e => part E (NExpr e)) patterns -> part E (NBlock body) -> exits_ok E c dl d ->
  runs (compileArm Compile patterns body) c D P dl (S d) (fun e => <[e := S d]> P) (fun _ => S d)
    (fun e _ _ => P !! e = None).
Proof.
  intros Hp Hb HE. unfold compileArm.
  assert (H0 : collected P []) by (split; [constructor | by intros p Hp'%not_elem_of_nil]).
  eapply runs_bind.
  { pose proof (arm_tests_runs E patterns [] c D P dl d Hp HE H0) as Ht. rewrite mark_all_nil in Ht. exact Ht. }
  intros [ms missed] c1 D1 HD HF [[Hnd Hf] Hx]. cbn [fst snd] in *. bind_with (apply runs_here).
  bind_with (eapply (runs_changes _ ms _ (S d) (S d)); [done | | eassumption | done];
    intros p Hin; destruct missed as [q|]; cbn [with_missed]; [rewrite lookup_insert_ne|];
    [rewrite lookup_mark_all; by case_decide | by intros ->; destruct (Hx p eq_refl) as [[? _]%fresh_mark _]
    | rewrite lookup_mark_all; by case_decide]).
  assert (Em : delete_all ms (with_missed (S d) (mark_all (S d) ms P) missed) = with_missed (S d) P missed).
  { destruct missed as [q|]; cbn [with_missed]; [|by apply delete_mark_all].
    destruct (Hx q eq_refl) as [[Hq _]%fresh_mark _]. apply map_eq. intros k.
    rewrite lookup_delete_all, !lookup_insert, lookup_mark_all. repeat case_decide; simplify_eq; try done.
    symmetry. auto. }
  rewrite Em. bind_with (put d). apply runs_assoc. bind_with (eapply leaves_value_block; [done | exits]).
  bind_with (place (S d)). destruct missed as [q|]; cbn [with_missed] in *.
  - destruct (Hx q eq_refl) as [[Hq HPq]%fresh_mark [_ Hlt]]. bind_with (apply runs_here).
    bind_with (patch). unpend. apply runs_ret; [|done|].
    + replace (depth_jumped (Instr OpJump [placeholderTarget]) (S d)) with (S d) by effects. settle.
    + done.
  - apply runs_ret; [|done|by intros; destruct HR3]. f_equal. effects.
Qed.

Lemma compileArms_runs E arms found c D P dl d :
  Forall (fun a => Forall (fun e => part E (NExpr e)) a.1 /\ part E (NBlock a.2)) arms -> exits_ok E c dl d ->
  collected P found ->
  runs (compileArms Compile arms found) c D (mark_all (S d) found P) dl (S d)
    (fun l => mark_all (S d) l P) (fun _ => S d) (fun l _ _ => collected P l).
Proof.
  revert found c D. induction arms as [|[patterns body] arms IHa]; intros found c D Ha HE Hf; cbn [compileArms].
  { by apply runs_ret. }
  apply Forall_cons in Ha as [[H1 H2] Ha]. bind_with (eapply compileArm_runs; [exact H1 | exact H2 | exits]).
  rewrite mark_all_snoc. eapply runs_conseq; [apply IHa; [done | exits | by eapply collected_snoc]|]. done.
Qed.

Lemma leaves_match E subject arms c D P dl d :
  part E (NExpr subject) ->
  Forall (fun a => Forall (fun e => part E (NExpr e)) a.1 /\ part E (NBlock a.2)) arms -> exits_ok E c dl d ->
  leaves (compileMatchExpression Compile subject arms) c D P dl d (S d).
Proof.
  intros Hs Ha HE. unfold compileMatchExpression. destruct arms as [|a0 arms0] eqn:Ea; [by apply runs_reject|].
  rewrite <- Ea in *. clear Ea. next (by eapply leaves_compile).
  assert (H0 : collected P []) by (split; [constructor | by intros p Hp'%not_elem_of_nil]).
  eapply runs_then.
  { rewrite <- (mark_all_nil (S d) P) at 1. eapply compileArms_runs; [done | exits | done]. }
  intros l c1 D1 HD1 HF1 [Hnd Hf]. cbn beta.
  assert (Hm : leaves (if existsb is_wildcard arms then mret () else emit_ OpMatchFail []) c1 D1
    (mark_all (S d) l P) dl (S d) (S d)) by (destruct (existsb is_wildcard _); [by apply runs_ret | put (S d)]).
  next (exact Hm). next (apply runs_here). eapply runs_conseq.
  - eapply (runs_changes _ l _ (S d) (S d)); [done | | eassumption | done].
    intros p Hp. rewrite lookup_mark_all. by case_decide.
  - intros. split; [by apply delete_mark_all | done].
Qed.

(* ------------------------------------------------------------------ *)
(** ** Names *)

Ltac silent := apply runs_quiet; solve [auto with wp | quietly].

Lemma leaves_loadSymbol s c D P dl d : leaves (loadSymbol s) c D P dl d (S d).
Proof.
  unfold loadSymbol. destruct (Scope s); [put (S d) | put (S d) | next (silent); put (S d) | put (S d) | put (S d)].
Qed.

Lemma leaves_emitCapture s c D P dl d : leaves (emitCapture s) c D P dl d (S d).
Proof. unfold emitCapture. destruct (Scope s); try (put (S d)); apply leaves_loadSymbol. Qed.

Lemma leaves_emitStoreOnly s c D P dl d : leaves (emitStoreOnly s) c D P dl (S d) d.
Proof.
  unfold emitStoreOnly. destruct (Scope s); [put d | put d | by apply runs_reject | | by apply runs_reject].
  next (silent). destruct a; [by apply runs_reject | put d].
Qed.

Lemma leaves_emitAssignStore s c D P dl d : leaves (emitAssignStore s) c D P dl (S d) (S d).
Proof. unfold emitAssignStore. next (apply leaves_emitStoreOnly). apply leaves_loadSymbol. Qed.

Lemma leaves_emitBindingStore s c D P dl d : leaves (emitBindingStore s) c D P dl (S d) d.
Proof. unfold emitBindingStore. destruct (bool_decide _); put d. Qed.

Lemma leaves_store_names l c D P dl d :
  leaves (each (fun name => s ← declare name; emitBindingStore s) l) c D P dl (d + length l) d.
Proof.
  revert c D. induction l as [|x l IHl]; intros c D; cbn [each length].
  { apply runs_ret; [done | lia | done]. }
  rewrite Nat.add_succ_r. next (next (silent); apply leaves_emitBindingStore). apply IHl.
Qed.

Lemma leaves_compileLet E names value c D P dl d :
  names <> [] -> part E (NExpr value) -> exits_ok E c dl d -> leaves (compileLet Compile names value) c D P dl d d.
Proof.
  intros Hn Hv HE. unfold compileLet. next (silent). next (eapply leaves_compile; [done | exits]).
  destruct names as [|x [|y names]]; [done | next (silent); apply leaves_emitBindingStore |].
  set (l := x :: y :: names). next (put (d + length l)%nat).
  rewrite <- (length_rev l). apply leaves_store_names.
Qed.

Lemma leaves_compileReturn E values c D P dl d :
  Forall (fun e => part E (NExpr e)) values -> exits_ok E c dl d -> leaves (compileReturn Compile values) c D P dl d d.
Proof.
  intros Hv HE. unfold compileReturn. destruct values as [|e [|e' values]]; [put d | |].
  - apply Forall_cons in Hv as [Hv _]. next (by eapply leaves_compile). put d.
  - set (l := e :: e' :: values) in *. eapply runs_then.
    + replace d with (d + 0)%nat at 1 by lia. by apply (leaves_elements E 0).
    + intros [] c1 D1 HD HF _. cbn beta. next (put (S d)). put d.
Qed.

(* ------------------------------------------------------------------ *)
(** ** Statements in sequence *)

Lemma pop_last_mono c D D' P dl d : D ⊆ D' -> pop_last c D' P dl d -> pop_last c D P dl d.
Proof.
  intros HD (s & rest & ins & D1 & H1 & H2 & H3 & H4 & H5). exists s, rest, ins, D1. repeat (split; [done|]).
  split; [by etrans | done].
Qed.

Lemma pop_last_core c c' D P dl d : same_core c c' -> pop_last c D P dl d -> pop_last c' D P dl d.
Proof. intros (E1 & E2 & E3 & _). unfold pop_last, popped. by rewrite E1, E2, E3. Qed.

Definition ends_list (l : list statement) : bool :=
  match last l with Some (Stmt _ (ExpressionStatement _)) => true | _ => false end.

Lemma body_runs E l c D P dl d :
  Forall (fun s => part E (NStmt s)) l -> exits_ok E c dl d ->
  runs (compileBlockBody Compile l) c D P dl d (fun _ => P) (fun _ => d)
    (fun _ c' _ => ends_list l = true -> pop_last c' D P dl d).
Proof.
  unfold compileBlockBody. revert c D. induction l as [|s l IHl]; intros c D Hl HE; cbn [each].
  { by apply runs_ret. }
  apply Forall_cons in Hl as [(H1 & H2 & H3) Hl].
  eapply runs_bind; [by apply (IH (NStmt s) H1 H2 E)|]. intros [] c1 D1 HD HF Hend. cbn beta. simpl.
  rewrite Nat.add_0_r. destruct l as [|s' l].
  { apply runs_ret; [done..|]. intros _ _. done. }
  eapply runs_conseq; [apply IHl; [done | exits]|]. intros [] c2 D2 HD2 HF2 HR. split; [done|]. split; [done|].
  intros _ _ He. eapply pop_last_mono; [exact HD|]. apply HR. exact He.
Qed.

Lemma scope_runs E l c D P dl d :
  Forall (fun s => part E (NStmt s)) l -> exits_ok E c dl d ->
  runs (compileBlockScope Compile l) c D P dl d (fun _ => P) (fun _ => d)
    (fun _ c' _ => ends_list l = true -> pop_last c' D P dl d).
Proof.
  intros Hl HE. unfold compileBlockScope. bind_with (silent). intros Ht. apply wp_deferred.
  eapply wp_mono; [eapply body_runs; [exact Hl | exits | exact Ht]|].
  intros [] c2 (D2 & HD2 & Ht2 & HF2 & HR2). exists D2. split; [done|].
  split; [by eapply typed_core, Ht2|]. split; [exact HF2|]. intros _ _ He.
  eapply pop_last_core, pop_last_mono; [apply same_core_close_block | exact HD | by apply HR2].
Qed.

(* ------------------------------------------------------------------ *)
(** ** Leaving a loop *)

Lemma pops_runs n c D P dl d :
  (strict = true -> (n <= d)%nat) ->
  runs (each (fun _ => emit_ OpPop []) (seq 0 n)) c D P dl d (fun _ => P) (fun _ => (d - n)%nat)
    (fun _ c' _ => loopContexts c' = loopContexts c).
Proof.
  generalize 0%nat as i. revert c D d. induction n as [|n IHn]; intros c D d i Hn; cbn [seq each].
  { apply runs_ret; [done | lia | done]. }
  eapply runs_bind; [apply (runs_emit_keeps _ _ _ _ _ _ _ _ (d - 1)); emission; intros Hs; try specialize (Hn Hs); effects|].
  intros [] c1 D1 HD HF E1. cbn beta in *. replace (d - S n)%nat with (d - 1 - n)%nat by lia.
  eapply runs_conseq; [apply IHn; intros Hs; specialize (Hn Hs); lia|].
  intros [] c2 D2 _ _ E2. split; [done|]. split; [done|]. intros. congruence.
Qed.

(** A jump out of the loop recorded in its context. *)
Lemma exit_map dl ctx ctx' pos rest :
  open_positions ctx' ≡ₚ pos :: open_positions ctx ->
  loop_map (ctx' :: rest) dl = <[pos := dl]> (loop_map (ctx :: rest) dl).
Proof.
  intros Hp. apply map_eq. intros k. simpl. rewrite lookup_insert, !lookup_gset_to_gmap.
  assert (Hk : k ∈ (list_to_set (open_positions ctx') : gset nat) <-> k = pos \/ k ∈ (list_to_set (open_positions ctx) : gset nat)).
  { rewrite !elem_of_list_to_set, Hp. set_solver. }
  unfold guard. repeat case_decide; try done; simplify_eq; naive_solver.
Qed.

Lemma runs_exit (mk : nat -> LoopContext) ctx rest c D P dl d0 d :
  loopContexts c = ctx :: rest ->
  (forall pos, open_positions (mk pos) ≡ₚ pos :: open_positions ctx /\
     pendingAtEntry (mk pos) = pendingAtEntry ctx /\ inLoopStep (mk pos) = inLoopStep ctx) ->
  (strict = true -> d0 = dl) ->
  runs (pos ← emitPlaceholder OpJump []; set_top_loop (mk pos)) c D P dl d0 (fun _ => P) (fun _ => d) nothing.
Proof.
  intros Hc Hmk Hd Ht. pose proof Ht as (H1 & H2 & H3). apply wp_bind.
  eapply wp_mono; [eapply (low_placeholder _ _ _ _ _ _ _ d dl); [exact H1 | done | done | | done |]|].
  { intros _. effects. }
  { intros Hs. rewrite Hd by done. effects. }
  intros pos c1 (-> & D1 & HD1 & Hl1 & F1). apply wp_modify. set (pos := endpos c) in *.
  pose proof H1 as (s & sc & E & _). pose proof (fresh_pending _ _ _ _ _ _ _ H1 E) as Hn.
  replace (length (instructions s)) with pos in Hn by (unfold pos, endpos; by rewrite E).
  apply lookup_union_None in Hn as [HnP HnL]. destruct (Hmk pos) as (Hp & He & Hst).
  destruct F1 as (G1 & G2 & G3 & G4). unfold typed, loop_wf in *. rewrite Hc in *.
  exists D1. split; [done|]. split.
  - unfold CompilerLogic.typed. cbn [with_loops loopContexts]. rewrite G3. cbn [tail].
    rewrite (exit_map _ _ _ _ _ Hp). split; [|split].
    + rewrite <- insert_union_r by done. exact Hl1.
    + by apply map_disjoint_insert_r.
    + unfold loop_wf. simpl. rewrite Hp, He. destruct H3 as [H3 H4]. split; [|by rewrite G2].
      apply NoDup_cons. split; [|done]. intros Hin. simpl in HnL. rewrite lookup_gset_to_gmap_None in HnL.
      apply HnL. by apply elem_of_list_to_set.
  - split; [|done]. split; [done|]. split; [done|]. split; [simpl; rewrite Hc, G3; done|]. split; [done|].
    eapply endpos_mono; [exact H1 | exact Hl1 | done].
Qed.

Lemma leaves_exit E mk ctx rest c D P dl d :
  (E : Prop) -> loopContexts c = ctx :: rest ->
  (forall pos, open_positions (mk pos) ≡ₚ pos :: open_positions ctx /\
     pendingAtEntry (mk pos) = pendingAtEntry ctx /\ inLoopStep (mk pos) = inLoopStep ctx) ->
  exits_ok E c dl d ->
  leaves (emitPendingPops (pendingAtEntry ctx);; pos ← emitPlaceholder OpJump []; set_top_loop (mk pos)) c D P dl d d.
Proof.
  intros He Hc Hmk HE. apply runs_typed. intros (_ & _ & Hw). unfold loop_wf in Hw. rewrite Hc in Hw.
  assert (Hn : strict = true -> d = (dl + Z.to_nat (pendingOperands c - pendingAtEntry ctx))%nat).
  { intros Hs. specialize (HE Hs He). unfold balanced in HE. rewrite Hc in HE. lia. }
  set (n := Z.to_nat (pendingOperands c - pendingAtEntry ctx)) in *.
  eapply (runs_then _ _ _ _ _ _ _ _ (fun _ => P) (fun _ => d - n)%nat (fun _ c' _ => loopContexts c' = loopContexts c)).
  - unfold emitPendingPops. eapply runs_bind; [apply runs_gets|]. intros p c1 D1 _ HF [-> ->]. cbn beta.
    rewrite (proj2 (Z.ltb_ge _ _)) by lia. fold n. eapply runs_conseq.
    + apply pops_runs. intros Hs. specialize (Hn Hs). lia.
    + intros [] c2 D2 _ _ E2. done.
  - intros [] c1 D1 _ _ E1. cbn beta. rewrite Hc in E1. eapply runs_exit; [exact E1 | exact Hmk |].
    intros Hs. specialize (Hn Hs). lia.
Qed.

Lemma leaves_compileBreak c D P dl d : exits_ok True c dl d -> leaves compileBreak c D P dl d d.
Proof.
  intros HE. unfold compileBreak. eapply runs_then; [apply runs_gets|]. intros l c1 D1 _ _ [-> ->]. cbn beta.
  destruct (loopContexts c) as [|ctx rest] eqn:E; [by apply runs_reject|].
  eapply (leaves_exit True (fun pos => Loop (breakPositions ctx ++ [pos]) (continuePositions ctx) (pendingAtEntry ctx)
    (inLoopStep ctx))); [done | exact E | | done].
  intros pos. split; [|done]. unfold open_positions. simpl. rewrite <- app_assoc. symmetry. apply Permutation_middle.
Qed.

Lemma leaves_compileContinue c D P dl d : exits_ok True c dl d -> leaves compileContinue c D P dl d d.
Proof.
  intros HE. unfold compileContinue. eapply runs_then; [apply runs_gets|]. intros l c1 D1 _ _ [-> ->]. cbn beta.
  destruct (loopContexts c) as [|ctx rest] eqn:E; [by apply runs_reject|].
  destruct (inLoopStep ctx) eqn:Es; [by apply runs_reject|].
  eapply (leaves_exit True (fun pos => Loop (breakPositions ctx) (continuePositions ctx ++ [pos]) (pendingAtEntry ctx)
    false)); [done | exact E | | done].
  intros pos. split; [|by rewrite Es]. unfold open_positions. simpl. rewrite Es.
  rewrite app_assoc. symmetry. apply Permutation_cons_append.
Qed.

(* ------------------------------------------------------------------ *)
(** ** Loops *)

Local Notation low := (low strict).

(** A step that may have opened a loop. *)
Definition inner (c c' : Compiler) : Prop :=
  tail (scopes c') = tail (scopes c) /\ pendingOperands c' = pendingOperands c /\
  (length (constants c) <= length (constants c'))%nat.

#[local] Instance inner_refl : Reflexive inner.
Proof. by intros c. Qed.
#[local] Instance inner_trans : Transitive inner.
Proof. intros a b c (?&?&?) (?&?&?). repeat split; congruence || lia. Qed.
Lemma framed_inner c c' : framed c c' -> inner c c'.
Proof. intros (?&?&_&?). done. Qed.
Lemma frame_inner c c' : frame c c' -> inner c c'.
Proof. intros (?&?&_&?&_). done. Qed.

Lemma typed_open c D X x d ctx outer :
  loopContexts c = ctx :: outer ->
  typed c D X x d <->
    low c D (mark_all x (open_positions ctx) X) d /\ collected X (open_positions ctx) /\
    pendingAtEntry ctx <= pendingOperands c.
Proof.
  intros E. unfold CompilerLogic.typed, loop_wf, collected, mark_all. rewrite E. simpl.
  assert (Hd : X ##ₘ gset_to_gmap x (list_to_set (open_positions ctx)) <->
    (forall p, p ∈ open_positions ctx -> X !! p = None)).
  { rewrite map_disjoint_spec. split.
    - intros H p Hp. destruct (X !! p) as [y|] eqn:Ex; [|done]. exfalso. eapply H; [exact Ex|].
      apply lookup_gset_to_gmap_Some. split; [by apply elem_of_list_to_set | done].
    - intros H p y z Hy Hz. apply lookup_gset_to_gmap_Some in Hz as [Hz _]. apply elem_of_list_to_set, H in Hz.
      congruence. }
  split.
  - intros (H1 & H2 & H3 & H4). split; [by rewrite map_union_comm by done|]. split; [|done]. split; [done|].
    by apply Hd.
  - intros (H1 & [H2 H3] & H4). apply Hd in H3. split; [by rewrite map_union_comm by done | done].
Qed.

(** The loop's body has been compiled and its [continue]s resolved. *)
Definition closing (c : Compiler) (D X : gmap nat nat) (x : nat) (ctx : LoopContext) (outer : list LoopContext) : Prop :=
  loopContexts c = ctx :: outer /\ low c D (mark_all x (breakPositions ctx) X) x /\ collected X (breakPositions ctx).

Lemma loop_body_wp b c D P dl x :
  part True (NBlock b) -> typed c D P dl x ->
  wp (loop_body Compile b) (fun _ c' => exists D' ctx, D ⊆ D' /\ inner c c' /\
    loopContexts c' = ctx :: loopContexts c /\ inLoopStep ctx = false /\ pendingAtEntry ctx = pendingOperands c /\
    typed c' D' (P ∪ loop_map (loopContexts c) dl) x x) c.
Proof.
  intros Hb Ht. set (c1 := with_loops (Loop [] [] (pendingOperands c) false :: loopContexts c) c).
  assert (Ht1 : typed c1 D (P ∪ loop_map (loopContexts c) dl) x x).
  { eapply typed_open; [reflexivity|]. unfold open_positions. simpl. rewrite mark_all_nil. split; [apply Ht|].
    split; [|done]. split; [constructor | by intros p Hp%not_elem_of_nil]. }
  assert (HE : exits_ok True c1 x x) by (intros _ _; unfold balanced; simpl; lia).
  pose proof (node_leaves (NBlock b) True c1 D _ x x Hb HE Ht1) as Hw.
  unfold wp, loop_body, enter_loop in *. unfold modify. unfold_cm. cbn beta iota. fold c1.
  destruct (Compile (NBlock b) c1) as [[] c2]; try done.
  destruct Hw as (D2 & HD & Ht2 & HF & _). destruct HF as (G1 & G2 & G3 & G4 & G5).
  unfold loops_ext in G3. simpl in G3. destruct (loopContexts c2) as [|ctx outer] eqn:E2; [done|].
  destruct G3 as (-> & Gp & Gs). exists D2, ctx. split; [done|]. split; [done|]. split; [done|].
  split; [done|]. split; [done|]. simpl in Ht2. by rewrite Nat.add_0_r in Ht2.
Qed.

(** The [continue]s, to [t]. *)
Lemma continues_wp t c D X x ctx outer :
  typed c D X x x -> loopContexts c = ctx :: outer -> inLoopStep ctx = false -> D !! t = Some x ->
  wp (changeOperands (continuePositions ctx) t)
    (fun _ c' => inner c c' /\ endpos c' = endpos c /\ closing c' D X x ctx outer) c.
Proof.
  intros Ht Hc Hs HD. apply (typed_open _ _ _ _ _ _ _ Hc) in Ht as (Hl & [Hnd Hf] & _).
  unfold open_positions in *. rewrite Hs in *. apply NoDup_app in Hnd as (Hb & Hdis & Hk).
  eapply wp_mono; [eapply (low_changes _ _ _ x x); [exact Hl | exact Hk | | exact HD | done]|].
  - intros p Hp. rewrite lookup_mark_all. case_decide as H; [done|]. set_solver.
  - intros [] c' (Hl' & HF & He). split; [by apply framed_inner|]. split; [done|].
    split; [destruct HF as (_ & _ & -> & _); done|]. split; [|split; [done|]; intros; apply Hf; set_solver].
    replace (mark_all x (breakPositions ctx) X)
      with (delete_all (continuePositions ctx) (mark_all x (breakPositions ctx ++ continuePositions ctx) X)); [done|].
    apply map_eq. intros k. rewrite lookup_delete_all, !lookup_mark_all.
    repeat case_decide; set_solver.
Qed.

Lemma here_wp {A} (k : nat -> CM A) Q c D P d :
  low c D P d -> (D !! endpos c = Some d -> wp (k (endpos c)) Q c) -> wp (p ← here; k p) Q c.
Proof.
  intros Hl Hk. pose proof (low_end _ _ _ _ _ Hl) as He. pose proof Hl as (s & rest & Es & _).
  assert (Hh : here c = (Accept (endpos c), c)).
  { unfold here, currentInstructions, current, endpos. unfold_cm. by rewrite Es. }
  apply wp_bind. unfold wp at 1. rewrite Hh. by apply Hk.
Qed.

(** The jump back to [start], and the test's exit [jf] to the end. *)
Lemma jump_back_wp {A} start jf dj (k : nat -> CM A) Q c D X x ctx outer :
  closing c D X x ctx outer -> D !! start = Some x -> X !! jf = Some dj -> (strict = true -> dj = x) ->
  (forall c' D' end_, D ⊆ D' -> inner c c' -> D' !! end_ = Some x -> closing c' D' (delete jf X) x ctx outer ->
     wp (k end_) Q c') ->
  wp (emit_ OpJump [Z.of_nat start];; end_ ← here; changeOperand jf end_;; k end_) Q c.
Proof.
  intros (Hc & Hl & [Hnd Hf]) HD Hj Hdj Hk. apply wp_bind. unfold emit_. apply wp_bind.
  eapply wp_mono; [eapply (low_jump_back _ start x); [exact Hl | exact HD | done]|].
  intros pos c1 (_ & D1 & HD1 & Hl1 & F1). apply wp_ret. eapply here_wp; [exact Hl1|]. intros He1.
  apply wp_bind. eapply wp_mono.
  - eapply (low_change _ jf _ dj x); [exact Hl1 | | exact He1 | by intros Hs; rewrite Hdj].
    rewrite lookup_mark_all. case_decide as Hin; [|done]. rewrite (Hf _ Hin) in Hj. done.
  - intros [] c2 (Hl2 & F2 & _). apply Hk with D1; [done | etrans; by apply framed_inner | done|].
    destruct F1 as (_ & _ & G1 & _), F2 as (_ & _ & G2 & _). split; [congruence|]. split.
    + replace (mark_all x (breakPositions ctx) (delete jf X)) with (delete jf (mark_all x (breakPositions ctx) X)); [done|].
      apply map_eq. intros p. rewrite lookup_delete, !lookup_mark_all, lookup_delete.
      repeat case_decide; simplify_eq; try done. set_solver.
    + split; [done|]. intros p Hp. rewrite lookup_delete. case_decide; [done|]. auto.
Qed.

(** The [break]s, to the end; the loop is left. *)
Lemma breaks_wp end_ c D X x ctx outer :
  closing c D X x ctx outer -> D !! end_ = Some x ->
  wp (changeOperands (breakPositions ctx) end_;; modify leave_loop)
    (fun _ c' => inner c c' /\ loopContexts c' = outer /\ low c' D X x) c.
Proof.
  intros (Hc & Hl & [Hnd Hf]) HD. apply wp_bind.
  eapply wp_mono; [eapply (low_changes _ _ _ x x); [exact Hl | exact Hnd | | exact HD | done]|].
  - intros p Hp. rewrite lookup_mark_all. by case_decide.
  - intros [] c1 (Hl1 & (G1 & G2 & G3 & G4) & _). apply wp_modify. rewrite delete_mark_all in Hl1 by done.
    split; [done|]. split; [simpl; by rewrite G3, Hc | done].
Qed.

Lemma top_loop_wp {A} (k : LoopContext -> CM A) Q c ctx outer :
  loopContexts c = ctx :: outer -> wp (k ctx) Q c -> wp (ctx ← top_loop; k ctx) Q c.
Proof. intros E H. apply wp_bind. unfold wp at 1, top_loop. by rewrite E. Qed.

(** The body of a loop whose [continue]s go back to [start]. *)
Lemma loop_wp {A} b start jf dj (k : LoopContext -> nat -> CM A) Q c D P dl x :
  part True (NBlock b) -> typed c D P dl x -> D !! start = Some x -> P !! jf = Some dj -> (strict = true -> dj = x) ->
  (forall c' D' ctx end_, D ⊆ D' -> inner c c' -> D' !! end_ = Some x ->
     closing c' D' (delete jf (P ∪ loop_map (loopContexts c) dl)) x ctx (loopContexts c) -> wp (k ctx end_) Q c') ->
  wp (loop_body Compile b;; ctx ← top_loop; changeOperands (continuePositions ctx) start;;
      emit_ OpJump [Z.of_nat start];; end_ ← here; changeOperand jf end_;; k ctx end_) Q c.
Proof.
  intros Hb Ht HD HP Hj Hk. apply wp_bind. eapply wp_mono; [by eapply loop_body_wp|].
  intros [] c1 (D1 & ctx & HD1 & F1 & E1 & Es & _ & Ht1). eapply top_loop_wp; [exact E1|].
  assert (HD1' : D1 !! start = Some x) by (by eapply lookup_weaken).
  apply wp_bind. eapply wp_mono; [by eapply continues_wp|]. intros [] c2 (F2 & _ & Hc2).
  eapply jump_back_wp; [exact Hc2 | exact HD1' | by apply lookup_union_Some_l | exact Hj|].
  intros c3 D3 end_ HD3 F3 He Hc3. apply (Hk c3 D3); [by etrans | etrans; [done|by etrans] | done | done].
Qed.

(** Back in the state around the loop. *)
Lemma outer_typed c c' D D' P dl x jf dj d d' :
  typed c D (<[jf := dj]> P) dl d -> P !! jf = None -> D ⊆ D' -> inner c c' -> loopContexts c' = loopContexts c ->
  low c' D' (delete jf (<[jf := dj]> P ∪ loop_map (loopContexts c) dl)) d' -> x = d' ->
  typed c' D' P dl x /\ frame c c'.
Proof.
  intros (H1 & H2 & H3) Hn HD (F1 & F2 & F3) E Hl ->.
  apply map_disjoint_insert_l in H2 as [Hj H2].
  rewrite delete_union, delete_insert_id, (delete_id (loop_map _ _)) in Hl by done. split.
  - split; [by rewrite E|]. split; [by rewrite E|]. unfold loop_wf in *. by rewrite E, F2.
  - split; [done|]. split; [done|]. split; [by rewrite E|]. split; [done|].
    eapply endpos_mono; [exact H1 | exact Hl | done].
Qed.

Lemma leaves_while E x b c D P dl d :
  part E (NExpr x) -> part True (NBlock b) -> exits_ok E c dl d ->
  leaves (compileWhileStatement Compile x b) c D P dl d d.
Proof.
  intros Hx Hb HE. unfold compileWhileStatement. next (apply runs_here).
  destruct x as [|p x]; [by apply runs_reject|]. next (eapply leaves_compile; [done | exits]). next (place d).
  intros Ht. unpend. eapply loop_wp; [exact Hb | exact Ht | mark | by rewrite lookup_insert_eq | intros _; effects |].
  intros c4 D4 ctx end_ HD4 F4 He Hc4. eapply wp_mono; [by eapply breaks_wp|].
  intros [] c5 (F5 & E5 & Hl5). exists D4. split; [done|].
  edestruct (outer_typed c2 c5) as [? ?]; [exact Ht | done | exact HD4 | by etrans | done | exact Hl5 | reflexivity | ].
  done.
Qed.

(** The step section, in which a [continue] is refused. *)
Lemma mark_step_wp mark c D X x ctx outer :
  closing c D X x ctx outer ->
  wp (mark_step mark) (fun _ c' => inner c c' /\ low c' D (mark_all x (breakPositions ctx) X) x /\
    loopContexts c' = Loop (breakPositions ctx) (continuePositions ctx) (pendingAtEntry ctx) mark :: outer) c.
Proof.
  intros (E & Hl & _). unfold mark_step. eapply top_loop_wp; [exact E|]. apply wp_modify. split; [done|].
  split; [done|]. simpl. by rewrite E.
Qed.

Lemma post_section_wp post c D X x ctx outer :
  closing c D X x ctx outer -> pendingAtEntry ctx = pendingOperands c ->
  (forall e, post = Some e -> part True (NExpr e)) ->
  wp (post_section Compile post) (fun _ c' => exists D' ctx', D ⊆ D' /\ inner c c' /\ closing c' D' X x ctx' outer) c.
Proof.
  intros Hc Hp He. unfold post_section. apply wp_bind. eapply wp_mono; [by apply mark_step_wp|].
  intros [] c1 (F1 & Hl1 & E1). pose proof Hc as (_ & _ & Hf).
  destruct post as [e|]; [|apply wp_ret; do 2 eexists; split; [reflexivity|]; split; [done|]; split; [exact E1 | done]].
  assert (Ht1 : typed c1 D X x x).
  { eapply typed_open; [exact E1|]. unfold open_positions. simpl. rewrite app_nil_r. split; [done|]. split; [done|].
    destruct F1 as (_ & F1 & _). rewrite F1, Hp. done. }
  assert (HE : exits_ok True c1 x x).
  { intros _ _. unfold balanced. rewrite E1. simpl. destruct F1 as (_ & F1 & _). rewrite F1, Hp. lia. }
  pose proof (leaves_compile True e c1 D X x x (He e eq_refl) HE Ht1) as Hw. apply wp_bind. unfold wp at 1 in Hw.
  unfold wp at 1. destruct (compile Compile e c1) as [[] c2]; try done.
  destruct Hw as (D2 & HD2 & Ht2 & F2 & _). cbn beta in *. apply wp_bind.
  assert (Hpop : leaves (emit_ OpPop []) c2 D2 X x (S x) x) by put x.
  eapply wp_mono; [by apply Hpop|]. intros [] c3 (D3 & HD3 & Ht3 & F3 & _). cbn beta in *.
  destruct F2 as (F2a & F2b & F2c & F2d & F2e), F3 as (F3a & F3b & F3c & F3d & F3e).
  rewrite E1 in F2c. simpl in F2c. destruct (loopContexts c2) as [|ctx2 o2] eqn:E2; [done|].
  destruct F2c as (-> & _ & S2). simpl in F3c. destruct (loopContexts c3) as [|ctx3 o3] eqn:E3; [done|].
  destruct F3c as (-> & _ & S3). apply (typed_open _ _ _ _ _ _ _ E3) in Ht3 as (Hl3 & Hf3 & _).
  unfold open_positions in *. rewrite S3, S2 in *. simpl in *. rewrite app_nil_r in *.
  eapply wp_mono; [eapply (mark_step_wp false c3 D3 X x ctx3 outer); split; [exact E3 | done]|].
  intros [] c4 (F4 & Hl4 & E4). do 2 eexists. split; [etrans; [exact HD2 | exact HD3]|]. split.
  - etrans; [exact F1|]. etrans; [|exact F4]. repeat split; [congruence.. | lia].
  - split; [exact E4|]. done.
Qed.

Lemma leaves_for E init condition post b c D P dl d :
  (forall s, init = Some s -> part E (NStmt s)) -> (forall e, condition = Some e -> part E (NExpr e)) ->
  (forall e, post = Some e -> part True (NExpr e)) -> part True (NBlock b) -> exits_ok E c dl d ->
  leaves (compileForStatement Compile init condition post b) c D P dl d d.
Proof.
  intros Hi Hc Hp Hb HE. unfold compileForStatement. next (silent). apply runs_deferred; [done|].
  assert (Hinit : leaves (match init with Some s => Compile (NStmt s) | None => mret tt end) c0 D0 P dl d d).
  { destruct init as [s|]; [|by apply runs_ret]. replace d with (d + leftover (NStmt s))%nat at 2 by (simpl; lia).
    eapply node_leaves; [by apply Hi | exits]. }
  next (exact Hinit). next (apply runs_here).
  assert (Hcond : leaves (match condition with Some e => compile Compile e | None => emit_ OpTrue [] end) c2 D2 P dl d (S d)).
  { destruct condition as [e|]; [eapply leaves_compile; [by apply Hc | exits] | put (S d)]. }
  next (exact Hcond). next (place d). intros Ht. unpend.
  apply wp_bind. eapply wp_mono; [by eapply loop_body_wp|].
  intros [] c5 (D5 & ctx & HD5 & F5 & E5 & Es & Ep & Ht5). eapply here_wp; [apply Ht5|]. intros He5.
  eapply top_loop_wp; [exact E5|]. apply wp_bind. eapply wp_mono; [by eapply continues_wp|].
  intros [] c6 (F6 & _ & Hc6). apply wp_bind. eapply wp_mono.
  { eapply post_section_wp; [exact Hc6 | | done]. destruct F5 as (_ & F5 & _), F6 as (_ & F6 & _). congruence. }
  intros [] c7 (D7 & ctx7 & HD7 & F7 & Hc7).
  eapply jump_back_wp; [exact Hc7 | mark | apply lookup_union_Some_l, lookup_insert_eq | intros _; effects|].
  intros c8 D8 end_ HD8 F8 He8 Hc8. eapply top_loop_wp; [apply Hc8|]. eapply wp_mono; [by eapply breaks_wp|].
  intros [] c9 (F9 & E9 & Hl9). exists D8. split; [incl|].
  edestruct (outer_typed c4 c9 D4 D8) as [? ?];
    [exact Ht | done | incl | do 4 (etrans; [eassumption|]); done | done | exact Hl9 | reflexivity | done].
Qed.

(** From the iterator on the stack, its bindings stored by [store] and [store']. *)
Lemma forIn_loop_runs (n e : nat) (store store' : CM unit) b c D P dl d :
  n = 1%nat \/ n = 2%nat ->
  (forall c D P, leaves store c D P dl (S d + n) e) -> (forall c D P, leaves store' c D P dl e (S d)) ->
  part True (NBlock b) ->
  leaves (head_ ← here; next ← emitPlaceholder OpIterNext [Z.of_nat n]; store;; store';; loop_body Compile b;;
    ctx ← top_loop;
    changeOperands (continuePositions ctx) head_;; emit_ OpJump [Z.of_nat head_];; end_ ← here;
    changeOperand next end_;; changeOperands (breakPositions ctx) end_;; modify leave_loop;; emit_ OpPop [])
    c D P dl (S d) d.
Proof.
  intros Hn H1 H2 Hb. next (apply runs_here). next (place (S d + n)%nat; destruct Hn as [-> | ->]; intros _; effects; cbn; lia). next (apply H1). next (apply H2).
  intros Ht. unpend. eapply loop_wp; [exact Hb | exact Ht | mark | by rewrite lookup_insert_eq | intros _; effects |].
  intros cc Dc ctx end_ HDc F4 He Hcc.
  assert (Hw : wp ((changeOperands (breakPositions ctx) end_;; modify leave_loop);; emit_ OpPop [])
    (fun _ c' => exists D', D3 ⊆ D' /\ typed c' D' P dl d /\ frame c3 c' /\ True) cc).
  { apply wp_bind. eapply wp_mono; [by eapply breaks_wp|]. intros [] c5 (F5 & E5 & Hl5).
    edestruct (outer_typed c3 c5 D3 Dc) as [Ht5 HF5];
      [exact Ht | done | incl | by etrans | done | exact Hl5 | reflexivity |].
    assert (Hp : leaves (emit_ OpPop []) c5 Dc P dl (S d) d) by put d.
    eapply wp_mono; [by apply Hp|]. intros [] c6 (D6 & HD6 & Ht6 & F6 & _). exists D6.
    split; [by etrans|]. split; [done|]. split; [by etrans | done]. }
  unfold wp, mbind, CM_bind in *. by destruct (changeOperands _ _ cc) as [[] ?].
Qed.

Lemma leaves_forIn E key value iterable b c D P dl d :
  part E (NExpr iterable) -> part True (NBlock b) -> exits_ok E c dl d ->
  leaves (compileForInStatement Compile key value iterable b) c D P dl d d.
Proof.
  intros Hi Hb HE. unfold compileForInStatement. next (silent). apply runs_deferred; [done|].
  next (silent). next (eapply leaves_compile; [done | exits]). next (put (S d)). next (silent).
  assert (Hk : runs (match key with Some k => s ← table_op (Define k); mret (Some s) | None => mret None end)
    c4 D4 P dl (S d) (fun _ => P) (fun _ => S d) (fun r _ _ => r = None <-> key = None)).
  { destruct key as [k|]; [|by apply runs_ret]. bind_with (silent). by apply runs_ret. }
  next (exact Hk).
  destruct key as [k|], a4 as [s|]; [| by discriminate (proj1 HR4 eq_refl) | by discriminate (proj2 HR4 eq_refl) |].
  - apply (forIn_loop_runs 2 (S (S d)) (emitBindingStore a3) (emitBindingStore s)); [by right| | |done]; intros; [|apply leaves_emitBindingStore].
    replace (S d + 2)%nat with (S (S (S d))) by lia. apply leaves_emitBindingStore.
  - apply (forIn_loop_runs 1 (S d) (emitBindingStore a3) (mret tt)); [by left| | |done]; intros; [|by apply runs_ret].
    replace (S d + 1)%nat with (S (S d)) by lia. apply leaves_emitBindingStore.
Qed.

(* ------------------------------------------------------------------ *)
(** ** Assignments *)

Definition step_part (E : Prop) (s : assignStep) : Prop :=
  match s with StepIndex index => part E (NExpr index) | StepField _ => True end.

Lemma flatten_parts E n target acc base steps :
  (expr_depth target <= n)%nat -> part E (NExpr target) -> Forall (step_part E) acc ->
  flatten target acc = Some (base, steps) -> Forall (step_part E) steps.
Proof.
  revert target acc. induction n as [|n IHn]; intros [|p e] acc Hd Hp Hacc; cbn [flatten]; try done; [simpl in Hd; lia|].
  simpl in Hd. destruct e; try done.
  - by intros [= <- <-].
  - destruct Index as [|q i]; [done|]. apply IHn; [simpl in Hd |- *; lia | parts_done |].
    apply Forall_cons. split; [cbn [step_part]; parts_done | done].
  - apply IHn; [simpl in Hd |- *; lia | parts_done |]. by apply Forall_cons.
Qed.

Lemma leaves_path_loop E slot steps c D P dl d :
  Forall (step_part E) steps -> exits_ok E c dl d -> leaves (path_loop Compile slot steps) c D P dl (S d) (S d).
Proof.
  revert c D. induction steps as [|[index|field] steps IHs]; intros c D Hs HE; cbn [path_loop]; [by apply runs_ret| |];
    apply Forall_cons in Hs as [Hi Hs].
  - assert (Hx : leaves (match slot with
        | Some slot => match steps with [] => loadSymbol slot | _ :: _ => compilePending Compile 1 index end
        | None => compilePending Compile 1 index
        end) c D P dl (S d) (S (S d))).
    { assert (leaves (compilePending Compile 1 index) c D P dl (S d) (S (S d)))
        by (eapply (leaves_compilePending E _ _ _ _ _ _ d); [done | exits | lia]).
      destruct slot as [slot|], steps; try done; apply leaves_loadSymbol. }
    next (exact Hx). next (put (S d)). apply IHs; [done | exits].
  - next (by apply runs_constant). next (put (S d)). apply IHs; [done | exits].
Qed.

Lemma leaves_emitPathLoad E symbol steps n slot c D P dl d :
  Forall (step_part E) steps -> exits_ok E c dl d -> leaves (emitPathLoad Compile symbol steps n slot) c D P dl d (S d).
Proof.
  intros Hs HE. unfold emitPathLoad. next (apply leaves_loadSymbol).
  eapply leaves_path_loop; [by apply Forall_take | exits].
Qed.

(** Code that leaves a value wherever it is compiled. *)
Definition value_ok (E : Prop) (P : gmap nat nat) (dl : nat) (m : CM unit) : Prop :=
  forall c D e, exits_ok E c dl e -> leaves m c D P dl e (S e).

Lemma leaves_value_pending E P dl m n c D d0 d :
  value_ok E P dl m -> exits_ok E c dl d0 -> d = (d0 + n)%nat -> leaves (withPending n m) c D P dl d (S d).
Proof. intros Hm HE ->. apply leaves_pending, Hm. by apply exits_ok_pending. Qed.

Lemma leaves_chain_store E step slot m c D P dl d :
  step_part E step -> value_ok E P dl m -> exits_ok E c dl d ->
  leaves (chain_store Compile step slot m) c D P dl (S d) (S d).
Proof.
  intros Hs Hm HE. destruct step as [index|field]; cbn [chain_store].
  - next (eapply (leaves_compilePending E _ _ _ _ _ _ d); [done | exits | lia]).
    assert (Hslot : leaves (match slot with Some slot => emitStoreOnly slot;; loadSymbol slot | None => mret tt end)
      c0 D0 P dl (S (S d)) (S (S d))).
    { destruct slot as [slot|]; [|by apply runs_ret]. next (apply leaves_emitStoreOnly). apply leaves_loadSymbol. }
    next (exact Hslot). next (eapply (leaves_value_pending E _ _ _ _ _ _ d); [done | exits | lia]). put (S d).
  - next (eapply (leaves_value_pending E _ _ _ _ _ _ d); [done | exits | lia]). next (by apply runs_constant). put (S d).
Qed.

Lemma leaves_assign_chain E symbol steps n slot m c D P dl d :
  Forall (step_part E) steps -> (0 < n <= length steps)%nat -> value_ok E P dl m -> exits_ok E c dl d ->
  leaves (emitAssignChain Compile symbol steps n slot m) c D P dl d d.
Proof.
  intros Hs. revert slot m c D. induction n as [|n IHn]; intros slot m c D Hn Hm HE; [lia|]. cbn [emitAssignChain].
  destruct (lookup_lt_is_Some_2 steps n) as [step Hstep]; [lia|]. rewrite Hstep.
  assert (Hp : step_part E step) by (by eapply Forall_lookup_1 in Hs).
  destruct n as [|n].
  - next (apply leaves_loadSymbol). next (eapply leaves_chain_store; [done | done | exits]). apply leaves_emitStoreOnly.
  - apply IHn; [lia | | done]. intros c' D' e He. next (by eapply leaves_emitPathLoad).
    eapply leaves_chain_store; [done | done | exits].
Qed.

Lemma value_ok_assign E symbol steps slot l operator v P dl :
  Forall (step_part E) steps -> part E (NExpr l) -> part E (NExpr v) ->
  (strict = true -> is_Some slot -> escapes_expr v = false) ->
  value_ok E P dl (assign_value Compile symbol steps slot l operator v).
Proof.
  intros Hs Hl Hv Hx c D e HE. unfold assign_value. destruct slot as [slot|].
  - next (by eapply leaves_emitPathLoad). eapply runs_then; [|intros ?u ?c ?D ?HD ?HF _; apply leaves_infix_op].
    destruct (decide (strict = true)) as [Est|Est].
    + eapply (leaves_compile False); [|by intros _ []]. destruct Hv as (H1 & H2 & _). split; [done|]. split; [done|].
      intros H. simpl in H. by rewrite Hx in H.
    + eapply (leaves_compile E); [done | by intros ?].
  - destruct (bool_decide _); [by eapply leaves_compile | by eapply leaves_compileInfix].
Qed.

Lemma leaves_assign E l operator v c D P dl d :
  part E (NExpr l) -> part E (NExpr v) -> (strict = true -> folds l operator = true -> escapes_expr v = false) ->
  exits_ok E c dl d -> leaves (compileAssignExpression Compile l operator v) c D P dl d (S d).
Proof.
  intros Hl Hv Hx HE. unfold compileAssignExpression, folds in *.
  destruct (flattenAssignTarget l) as [[base steps]|] eqn:Ef; [|by apply runs_reject].
  assert (Hs : Forall (step_part E) steps) by (eapply flatten_parts; [reflexivity | exact Hl | constructor | exact Ef]).
  destruct steps as [|s0 steps0] eqn:Es.
  - assert (Hval : leaves (if bool_decide (operator = "") then compile Compile v else compileInfix Compile l operator v)
      c D P dl d (S d)) by (destruct (bool_decide _); [by eapply leaves_compile | by eapply leaves_compileInfix]).
    next (exact Hval). next (silent). destruct a0; [apply leaves_emitAssignStore | by apply runs_reject].
  - rewrite <- Es in *. assert (Hlen : (0 < length steps)%nat) by (subst; simpl; lia). clear Es.
    next (silent). next (silent). destruct a0 as [symbol|]; [|by apply runs_reject].
    destruct (existsb _ _); [by apply runs_reject|]. next (silent).
    set (f := negb (bool_decide (operator = "")) && match last steps with Some s => impure_step s | None => false end) in *.
    assert (Hslot : runs (if f then s ← internalSlot "assignindex"; mret (Some s) else mret None) c2 D2 P dl d
      (fun _ => P) (fun _ => d) (fun r _ _ => is_Some r -> f = true)).
    { destruct f; [bind_with (silent); by apply runs_ret | apply runs_ret; [done..|]; by intros [x Hn]]. }
    next (exact Hslot).
    eapply runs_then; [|intros ?u ?c ?D ?HD ?HF _; apply leaves_loadSymbol].
    apply (leaves_assign_chain E); [done | lia | | exits].
    intros c' D' e He. next (eapply value_ok_assign; eauto). next (apply leaves_emitStoreOnly). apply leaves_loadSymbol.
Qed.

(* ------------------------------------------------------------------ *)
(** ** Fields and struct literals *)

Lemma leaves_field_read E l field c D P dl d :
  part E (NExpr l) -> exits_ok E c dl d -> leaves (field_read Compile l field) c D P dl d (S d).
Proof.
  intros Hl HE. unfold field_read. next (by eapply leaves_compile). next (by apply runs_constant). put (S d).
Qed.

(** A module member [ResolveField] finds is in the symbol table. *)
Lemma ResolveField_runs l field c D P dl d :
  runs (ResolveField builtins l field) c D P dl d (fun _ => P) (fun _ => d)
    (fun r c' _ => match r with
       | FieldModuleMember key member => is_Some (ResolveIn key member (symbolTable c'))
       | FieldRefused e => broken e = false
       | _ => True
       end).
Proof.
  unfold ResolveField. destruct (_ || _); [by apply runs_ret|].
  eapply runs_bind; [apply runs_gets|]. intros c' c1 D1 _ _ [-> ->]. cbn beta. unfold id.
  destruct (bool_decide _); [by apply runs_ret|].
  destruct (LookupNamespace l _) as [key|].
  - unfold resolveModuleMember. destruct (IsModulePrivate field); [by apply runs_ret|].
    destruct (ResolveIn key field _) eqn:Er; apply runs_ret; done.
  - bind_with (apply runs_quiet; unfold bound; quietly). apply runs_ret; [done..|]. intros _ _. by destruct (_ && _).
Qed.

Lemma leaves_field E l field c D P dl d :
  part E (NExpr l) -> exits_ok E c dl d -> leaves (compileFieldExpression builtins Compile l field) c D P dl d (S d).
Proof.
  intros Hl HE. unfold compileFieldExpression.
  destruct l as [|p x]; [by eapply leaves_field_read|]. destruct x; try (by eapply leaves_field_read).
  next (apply ResolveField_runs). destruct a as [| |key member|builtin|e].
  - next (silent). eapply runs_then; [silent|]. intros ?u ?c ?D ?HD ?HF _. eapply leaves_field_read; [done | exits].
  - next (by apply runs_constant). next (by apply runs_constant). destruct HR0 as [H1 H2], HR1 as [H3 H4].
    apply runs_emit; emission. intros k w Hk Ha. destruct HF1 as (_ & _ & _ & Hgrow & _).
    apply elem_of_cons in Hk as [->|Hk]; [simplify_eq/=; lia|]. apply list_elem_of_singleton in Hk as ->.
    simplify_eq/=. lia.
  - eapply runs_then; [apply runs_gets|]. intros r c1 D1 _ _ [-> ->]. cbn beta. destruct HR as [s ->].
    apply leaves_loadSymbol.
  - apply leaves_loadSymbol.
  - by apply runs_reject.
Qed.

Lemma assoc_Some {A} name (l : list (string * A)) : name ∈ l.*1 -> exists a, assoc name l = Some a /\ (name, a) ∈ l.
Proof.
  induction l as [|[n a] l IHl]; simpl; [by intros H%not_elem_of_nil|]. intros H.
  destruct (bool_decide (n = name)) eqn:En.
  - apply bool_decide_eq_true in En as ->. exists a. split; [done | by left].
  - apply elem_of_cons in H as [->|H]; [by rewrite bool_decide_eq_false in En|].
    destruct (IHl H) as (b & -> & Hb). exists b. split; [done | by right].
Qed.

Lemma leaves_each_up {A} (f : A -> CM unit) l c D P dl d :
  (forall a c D e, a ∈ l -> leaves (f a) c D P dl e (S e)) -> leaves (each f l) c D P dl d (d + length l).
Proof.
  revert c D d. induction l as [|a l IHl]; intros c D d Hf; cbn [each length].
  { apply runs_ret; [done | lia | done]. }
  next (apply Hf; by left). replace (d + S (length l))%nat with (S d + length l)%nat by lia.
  apply IHl. intros. apply Hf. by right.
Qed.

Lemma spill_fields_runs E depth i fields slots c D P dl d :
  Forall (fun p => part E (NExpr p.2)) fields -> exits_ok E c dl d ->
  runs (spill_fields Compile depth i fields slots) c D P dl d (fun _ => P) (fun _ => d)
    (fun r _ _ => forall name, name ∈ fields.*1 \/ name ∈ slots.*1 -> name ∈ r.*1).
Proof.
  revert i slots c D. induction fields as [|[name value] fields IHf]; intros i slots c D Hf HE; cbn [spill_fields].
  { apply runs_ret; [done..|]. intros x [H%not_elem_of_nil|H]; done. }
  apply Forall_cons in Hf as [Hv Hf]. bind_with (by eapply leaves_compile). bind_with (silent).
  bind_with (apply leaves_emitStoreOnly).
  eapply runs_conseq; [apply IHf; [done | exits]|]. intros r c3 D3 _ _ Hr. split; [done|]. split; [done|].
  intros _ _ _ _ _ _ x Hx. apply Hr. simpl in *. rewrite !elem_of_cons in *. tauto.
Qed.

Lemma leaves_struct_in_order E fields typeDef c D P dl d :
  Forall (fun p => part E (NExpr p.2)) fields -> (forall f, f ∈ typeDef -> f ∈ fields.*1) -> exits_ok E c dl d ->
  leaves (emitStructFieldsInSourceOrder Compile fields typeDef) c D P dl d (d + length typeDef).
Proof.
  intros Hf Hall HE. unfold emitStructFieldsInSourceOrder. next (silent).
  next (apply runs_quiet; by intros ?). apply runs_deferred; [done|].
  next (eapply spill_fields_runs; [done | exits]).
  apply leaves_each_up. intros f c' D' e Hin.
  destruct (assoc_Some f a1) as (slot & -> & _); [apply HR1; left; by apply Hall|]. apply leaves_loadSymbol.
Qed.

Lemma filter_nil_all (P : string -> Prop) `{forall x, Decision (P x)} l : filter P l = [] -> forall x, x ∈ l -> ~ P x.
Proof. intros E x Hx HP. assert (Hin : x ∈ filter P l) by (by apply list_elem_of_filter). rewrite E in Hin. by apply not_elem_of_nil in Hin. Qed.

Lemma leaves_struct E name fields c D P dl d :
  Forall (fun p => part E (NExpr p.2)) fields -> exits_ok E c dl d ->
  leaves (compileStructLiteral Compile name fields) c D P dl d (S d).
Proof.
  intros Hf HE. unfold compileStructLiteral. next (silent).
  destruct (a !! name) as [typeDef|]; [|by apply runs_reject].
  destruct (first_repeat [] _); [by apply runs_reject|].
  destruct (negb _ || negb _) eqn:Eb; [by apply runs_reject|].
  apply orb_false_iff in Eb as [_ Hm]. apply negb_false_iff, bool_decide_eq_true in Hm.
  assert (Hall : forall f, f ∈ typeDef -> f ∈ fields.*1).
  { intros f Hin. destruct (decide (f ∈ fields.*1)); [done|]. by destruct (filter_nil_all _ _ Hm f Hin). }
  next (by apply runs_constant). destruct HR0 as [Hi Hn].
  eapply (runs_then _ _ _ _ _ _ _ _ (fun _ => P) (fun _ => d + length typeDef)%nat nothing).
  - destruct (bool_decide _); [|eapply leaves_struct_in_order; [done | done | exits]].
    replace (d + length typeDef)%nat with (d + 1 * length typeDef)%nat by lia. apply leaves_each_from.
    intros j f c' D' Hj HD' HF'. replace (d + 1 * S j)%nat with (S (d + 1 * j)) by lia.
    destruct (assoc_Some f fields) as (e & -> & He); [apply Hall; by eapply list_elem_of_lookup_2|].
    eapply (leaves_compilePending E _ _ _ _ _ _ d); [|exits | lia]. rewrite Forall_forall in Hf. by apply (Hf _ He).
  - intros [] c2 D2 _ (_ & _ & _ & Hgrow & _) _. cbn beta. apply runs_emit; emission.
Qed.

(* ------------------------------------------------------------------ *)
(** ** Functions *)

(** The last value of a body returned. *)
Lemma replaceLastPop_wp c D D0 P d :
  low c D P d -> popped c D0 P d ->
  wp replaceLastPopWithReturn (fun _ c' => framed c c' /\ exists D', D0 ⊆ D' /\ low c' D' P d) c.
Proof.
  intros Ht (s & rest & ins & D1 & E & Hs & Hl & HD & Hst).
  pose proof Ht as (s0 & rest0 & E0 & _ & Hdom & Hpool). rewrite E in E0. injection E0 as <- <-.
  pose proof Hst as (l & Hok & -> & _).
  set (pop := Instr OpPop []) in *. set (ret := Instr OpReturnValue []).
  assert (Hi : instr_ok ret) by (split; [done | split; [simpl; lia | done]]).
  destruct (replace_run l pop ret [] c s rest E) as (s' & Er & H1 & H2 & _); [by rewrite encode_snoc | done |].
  unfold wp, replaceLastPopWithReturn.
  assert (Ec : current c = (Accept s, c)) by (unfold current; by rewrite E).
  rewrite (bind_accept _ _ _ _ _ Ec).
  assert (Em : of_outcome (Make (opcode_byte OpReturnValue) []) c = (Accept (instr_bytes ret), c)) by done.
  rewrite (bind_accept _ _ _ _ _ Em), Hl, (bind_accept _ _ _ _ _ Er). unfold_cm. cbn -[encode].
  split; [repeat split; simpl; by rewrite ?E|].
  exists (<[(length (encode l) + 1)%nat := d]> D1).
  pose proof (stream_grows _ _ _ _ _ _ 1 d Hst ltac:(lia)) as Hg. split; [by etrans|].
  eexists _, rest. split; [reflexivity|]. cbn [instructions unresolvedJumps with_scopes constants].
  rewrite H1, H2. split; [|done]. rewrite encode_snoc.
  apply (stream_snoc _ _ _ _ _ _ ret d _ Hst Hi); [done| |].
  - intros Hx. pose proof (stream_pending_range _ _ _ _ _ _ _ Hst Hx). lia.
  - exists (S d). split; [eapply lookup_weaken; [by eapply stream_end | done]|].
    split; [intros _; subst ret; effects|]. split; [done|]. split; [done|]. by apply pooled_none.
Qed.

Lemma finish_body_wp body c D D0 P d :
  low c D P d -> D0 ⊆ D -> (endsInExpressionStatement body = true -> popped c D0 P d) ->
  wp (finish_body body) (fun _ c' => framed c c' /\ exists D', D0 ⊆ D' /\ low c' D' P d) c.
Proof.
  intros Hl HD Hp. unfold finish_body. apply wp_bind.
  assert (Hr : wp (if endsInExpressionStatement body then replaceLastPopWithReturn else mret tt)
    (fun _ c' => framed c c' /\ exists D', D0 ⊆ D' /\ low c' D' P d) c).
  { destruct (endsInExpressionStatement body); [eapply replaceLastPop_wp; eauto|]. apply wp_ret. split; [done|]. by exists D. }
  eapply wp_mono; [exact Hr|]. intros [] c1 (F1 & D1 & HD1 & Hl1). apply wp_bind.
  pose proof Hl1 as (s & rest & E & _). unfold wp at 1, lastInstructionIs, current. unfold_cm. rewrite E.
  destruct (negb _ && _); [apply wp_ret; split; [done|]; by exists D1|]. unfold emit_. apply wp_bind.
  eapply wp_mono; [eapply (low_emit _ OpReturn [] _ _ _ _ d); [exact Hl1 | emission..]|].
  intros pos c2 (_ & D2 & HD2 & Hl2 & F2). apply wp_ret. split; [by etrans|]. exists D2. split; [by etrans | done].
Qed.

(** A finished function body: its stream is typed and the scope around it is
    as it was. *)
Lemma leaveScope_wp c D d :
  low c D ∅ d -> D !! 0%nat = Some 0%nat ->
  wp leaveScope (fun s c' => typed_stream strict (length (constants c)) (instructions s) /\
    scopes c' = tail (scopes c) /\ constants c' = constants c /\ loopContexts c' = loopContexts c /\
    pendingOperands c' = pendingOperands c) c.
Proof.
  intros (s & rest & E & Hst & Hdom & _) H0. unfold leaveScope. apply wp_bind.
  assert (Hu : unresolvedJumps s = ∅) by (apply dom_empty_inv_L; by rewrite <- Hdom, dom_empty_L).
  unfold wp, assertJumpsResolved, current. unfold_cm. rewrite E, Hu, map_to_list_empty. cbn. rewrite E. cbn.
  split; [by exists D, d | by rewrite E].
Qed.

Lemma no_loop_map n : (∅ ∪ loop_map [] n : gmap nat nat) = ∅.
Proof. simpl. by rewrite (left_id_L ∅ (∪)). Qed.

(** A body compiled in a scope of its own. *)
Lemma function_body_wp body c :
  Forall (fun s => part True (NStmt s)) (statements body) -> low c {[0%nat := 0%nat]} ∅ 0 ->
  wp (function_body Compile body) (fun _ c' => framed c c' /\ exists D', {[0%nat := 0%nat]} ⊆ D' /\ low c' D' ∅ 0 /\
    (endsInExpressionStatement body = true -> popped c' {[0%nat := 0%nat]} ∅ 0)) c.
Proof.
  intros Hb Hl. unfold function_body. set (c1 := with_loops [] c).
  assert (Ht : typed c1 {[0%nat := 0%nat]} ∅ 0 0).
  { simpl. split; [by rewrite no_loop_map|]. split; [apply map_disjoint_empty_r | done]. }
  assert (HE : exits_ok True c1 0 0) by by intros _ _.
  pose proof (body_runs True (statements body) c1 _ ∅ 0 0 Hb HE Ht) as Hw.
  apply (wp_deferred (compileBlockBody Compile (statements body)) (with_loops (loopContexts c))).
  eapply wp_mono; [exact Hw|]. intros [] c2 (D2 & HD2 & (H1 & _) & (F1 & F2 & F3 & F4 & _) & Hend).
  assert (E2 : loopContexts c2 = []) by (simpl in F3; by destruct (loopContexts c2)).
  rewrite E2, no_loop_map in H1.
  split; [done|]. exists D2. split; [done|]. split; [done|]. intros He.
  assert (Hp := Hend He). unfold pop_last in Hp. by rewrite E2, no_loop_map in Hp.
Qed.

(** The scope around a finished function. *)
Lemma typed_around c c' D P dl d :
  typed c D P dl d -> scopes c' = scopes c -> loopContexts c' = loopContexts c ->
  pendingOperands c' = pendingOperands c -> (length (constants c) <= length (constants c'))%nat ->
  pool_ok strict (constants c') -> typed c' D P dl d /\ frame c c'.
Proof.
  intros ((s & rest & E & Hst & Hdom & _) & H2 & H3) E1 E2 E3 Hg Hpool. split.
  - split; [|split; [by rewrite E2 | unfold loop_wf in *; by rewrite E2, E3]].
    exists s, rest. rewrite E1, E2. split; [done|]. split; [by eapply stream_pool | done].
  - repeat split; [by rewrite E1 | done | by rewrite E2 | done | unfold endpos; by rewrite E1].
Qed.

Lemma leaves_function name parameters body c D P dl d :
  Forall (fun s => part True (NStmt s)) (statements body) ->
  leaves (compileFunction Compile name parameters body) c D P dl d (S d).
Proof.
  intros Hb Ht. unfold compileFunction. apply wp_bind, wp_modify. set (c1 := with_decls _ _).
  assert (Hl1 : low c1 {[0%nat := 0%nat]} ∅ 0).
  { exists emptyScope, (scopes c). split; [done|]. split; [apply stream_empty|]. split; [by rewrite !dom_empty_L|].
    by destruct Ht as ((? & ? & _ & _ & _ & ?) & _). }
  apply wp_bind, wp_quiet; [quietly|]. intros _ c2 F2. apply wp_bind, wp_quiet; [quietly|]. intros _ c3 F3.
  assert (F13 : same_core c1 c3) by (by etrans). assert (Hl3 := low_core _ _ _ _ _ _ F13 Hl1).
  apply wp_bind. eapply wp_mono; [by apply function_body_wp|]. intros [] c4 (F4 & D4 & HD4 & Hl4 & Hend).
  apply wp_bind. eapply wp_mono; [by eapply finish_body_wp|]. intros [] c5 (F5 & D5 & HD5 & Hl5).
  apply wp_bind, wp_gets. apply wp_bind. eapply wp_mono.
  { eapply leaveScope_wp; [exact Hl5|]. eapply lookup_weaken; [|exact HD5]. by rewrite lookup_singleton_eq. }
  intros s c6 (Hs & S6 & C6 & L6 & P6).
  assert (F16 : framed c1 c5) by (etrans; [by apply same_core_framed|]; by etrans).
  destruct F16 as (G1 & G2 & G3 & G4). simpl in G1, G2, G3, G4.
  assert (Hpool : pool_ok strict (constants c6)) by (rewrite C6; by destruct Hl5 as (? & ? & _ & _ & _ & ?)).
  destruct (typed_around c c6 D P dl d) as [Ht6 F6]; [done | congruence.. | by rewrite C6 | done |].
  assert (Hend6 : leaves (each emitCapture (FreeSymbols (head (symbolTable c5)));; a ← allocate;
    i ← addConstant (CompiledFn (Ptr a (Fn (boxCapturedLocals (instructions s) (Z.of_nat <$> CapturedLocals (head (symbolTable c5))))
        (Z.of_nat (numDefinitions (head (symbolTable c5)))) (zlen parameters)
        (Z.of_nat <$> CapturedLocals (head (symbolTable c5))) name parameters
        (Build (cs_lines s)) (Build (cs_macros s)) (Build (cs_ends s)) (default [] (LocalSlotNames (symbolTable c5))))));
    emit_ OpClosure [i; zlen (FreeSymbols (head (symbolTable c5)))]) c6 D P dl d (S d)).
  { next (apply leaves_each_up; intros; apply leaves_emitCapture). next (apply runs_quiet; by intros ?).
    next (apply runs_constant; simpl; split; [|lia]; apply boxCapturedLocals_typed; eapply typed_stream_pool; [|exact Hs];
      destruct HF as (_ & _ & _ & HF & _), HF0 as (_ & _ & _ & HF0 & _); rewrite <- C6; lia).
    put (S d). }
  eapply wp_mono; [by apply Hend6|]. intros [] c7 (D7 & HD7 & Ht7 & F7 & _). exists D7.
  split; [done|]. split; [done|]. split; [by etrans | done].
Qed.

(* ------------------------------------------------------------------ *)
(** ** Nodes *)

Lemma expression_statement_runs E e c D P dl d :
  part E (NExpr e) -> exits_ok E c dl d ->
  runs (compile Compile e;; emit_ OpPop []) c D P dl d (fun _ => P) (fun _ => d)
    (fun _ c' _ => pop_last c' D P dl d).
Proof.
  intros He HE. bind_with (by eapply leaves_compile). apply runs_typed. intros Ht1.
  pose proof Ht1 as ((s & rest & Es & Hst & Hdom & Hpool) & _).
  assert (Hp : leaves (emit_ OpPop []) c0 D0 P dl (S d) d) by put d.
  intros Ht. specialize (Hp Ht).
  destruct (emit_run OpPop [] c0 s rest Es eq_refl) as [Er|(_ & s' & Er & H1 & H2 & _)];
    unfold wp, emit_ in *; [by rewrite (bind_overflow _ _ _ _ Er)|]. rewrite (bind_accept _ _ _ _ _ Er) in *.
  destruct Hp as (D' & HD' & Ht' & HF' & _). exists D'. repeat (split; [done|]). intros _ _.
  exists s', rest, (instructions s), D0. split; [done|]. split; [done|]. split; [by rewrite H2|]. done.
Qed.

Lemma parts_of_stmts f E l :
  (deepest statement_depth l <= f)%nat -> forallb (sound_statement strict) l = true ->
  (existsb escapes_statement l = true -> E) -> Forall (fun s => CompilerFacts.part strict f E (NStmt s)) l.
Proof. intros. by apply (node_parts strict NStmt). Qed.

Lemma parts_of_exprs f E l :
  (deepest expr_depth l <= f)%nat -> forallb (sound_expr strict) l = true ->
  (existsb escapes_expr l = true -> E) -> Forall (fun e => CompilerFacts.part strict f E (NExpr e)) l.
Proof. intros. by apply (node_parts strict NExpr). Qed.

Lemma compileExpression_leaves E e c D P dl d :
  (expression_depth e <= fuel)%nat -> sound_expression strict e = true -> (escapes_expression e = true -> E) ->
  exits_ok E c dl d -> leaves (compileExpression builtins Compile e) c D P dl d (S d).
Proof.
  intros Hd Hs He HE. destruct e; cbn [compileExpression].
  - next (silent). destruct a; [apply leaves_loadSymbol | by apply runs_reject].
  - by apply leaves_constant.
  - by apply leaves_constant.
  - by apply leaves_constant.
  - destruct Value; put (S d).
  - eapply (leaves_template E); [by apply parts_of_exprs | done].
  - eapply (leaves_compileArray E); [by apply parts_of_exprs | done].
  - eapply (leaves_compileHash E); [|done]. apply Forall_forall. intros q Hq. take_parts.
    rewrite deepest_le, Forall_forall in Hd. specialize (Hd _ Hq). rewrite forallb_forall in Hs.
    apply list_elem_of_In in Hq as Hq'. specialize (Hs _ Hq'). breflect.
    assert (Hx : escapes_expr q.1 || escapes_expr q.2 = true -> E) by (intros; apply He, existsb_exists; eauto).
    rewrite orb_true_iff in Hx. repeat split; try lia; try done; tauto.
  - eapply (leaves_compilePrefix E); [parts_done | done].
  - eapply (leaves_compileInfix E); [parts_done | parts_done | done].
  - take_parts. breflect. next (eapply (leaves_compile E); [parts_done | done]).
    next (eapply (leaves_compilePending E _ _ _ _ _ _ d); [parts_done | exits | lia]). put (S d).
  - eapply (leaves_field E); [parts_done | done].
  - take_parts. breflect. eapply (leaves_compileCall E); [parts_done | | done].
    apply parts_of_exprs; [lia | done | intros Hx; apply He; by rewrite Hx, orb_true_r].
  - take_parts. breflect. eapply (leaves_compileIf E); [parts_done | parts_done | | done]. intros b ->. parts_done.
  - take_parts. breflect. eapply (leaves_match E); [parts_done | | done]. apply Forall_forall. intros q Hq.
    assert (Hdq : (deepest (fun a => deepest expr_depth a.1 `max` block_depth a.2) Arms <= fuel)%nat) by lia.
    rewrite deepest_le, Forall_forall in Hdq. specialize (Hdq _ Hq). rewrite forallb_forall in H0.
    apply list_elem_of_In in Hq as Hq'. specialize (H0 _ Hq'). breflect.
    assert (Hx : existsb escapes_expr q.1 || escapes_block q.2 = true -> E).
    { intros Hx. apply He. rewrite orb_true_iff. right. apply existsb_exists. eauto. }
    rewrite orb_true_iff in Hx. split; [apply parts_of_exprs; [lia | done | tauto] | repeat split; simpl; try lia; done || tauto].
  - apply leaves_function. destruct Body as [q l]. take_parts. apply parts_of_stmts; [simpl in *; lia | done | done].
  - by apply runs_reject.
  - take_parts. breflect. eapply (leaves_assign E); [parts_done | parts_done | | done].
    intros Hst Hf. rewrite Hst, Hf in H0. by destruct (escapes_expr Value).
  - eapply (leaves_struct E); [|done]. apply (node_parts strict (fun p : string * expr => NExpr p.2)); done.
Qed.

Lemma compileStatement_leaves E s c D P dl d :
  (stmt_depth s <= fuel)%nat -> sound_stmt strict s = true -> (escapes_stmt s = true -> E) ->
  exits_ok E c dl d -> leaves (compileStatement Compile s) c D P dl d d.
Proof.
  intros Hd Hs He HE. destruct s; cbn [compileStatement].
  - take_parts. breflect. eapply (leaves_compileLet E); [|parts_done | done].
    intros ->. by rewrite bool_decide_eq_true_2 in *.
  - eapply (leaves_compileReturn E); [by apply parts_of_exprs | done].
  - eapply runs_conseq; [eapply (expression_statement_runs E); [parts_done | done]|]. done.
  - eapply runs_conseq; [eapply (scope_runs E); [by apply parts_of_stmts | done]|]. done.
  - take_parts. breflect. eapply (leaves_for E); [intros x -> | intros x -> | intros x -> | | done]; parts_done.
  - take_parts. breflect. eapply (leaves_forIn E); [parts_done | parts_done | done].
  - take_parts. breflect. eapply (leaves_while E); [parts_done | parts_done | done].
  - apply leaves_compileBreak. intros Hst _. by apply HE; [|apply He].
  - apply leaves_compileContinue. intros Hst _. by apply HE; [|apply He].
  - next (silent). next (silent). eapply runs_conseq; [apply runs_quiet; by intros ?|]. done.
  - next (silent). eapply runs_conseq; [apply runs_quiet; by intros ?|]. done.
  - by apply runs_ret.
Qed.

Lemma compileNode_compiles n :
  (node_depth n <= S fuel)%nat -> sound strict n = true -> compiles n (compileNode builtins Compile n).
Proof.
  intros Hd Hs E c D P dl d He HE. destruct n as [[|p e]|[p s]|[p l]]; cbn [compileNode].
  - by apply runs_reject.
  - simpl leftover. rewrite Nat.add_1_r. eapply runs_conseq; [eapply (compileExpression_leaves E)|]; try done.
    simpl in Hd. lia.
  - simpl leftover. rewrite Nat.add_0_r. simpl in Hd. destruct (ends (NStmt (Stmt p s))) eqn:Een.
    + destruct s; try done. take_parts. eapply runs_conseq; [eapply (expression_statement_runs E); [parts_done | done]|].
      done.
    + eapply runs_conseq; [eapply (compileStatement_leaves E)|]; try done. lia.
  - simpl leftover. rewrite Nat.add_0_r. simpl in Hd.
    eapply (scope_runs E); [apply parts_of_stmts; [lia | done | done] | done].
Qed.

Lemma attributed_compiles n m : compiles n m -> compiles n (attributed n m).
Proof.
  intros Hm E c D P dl d He HE Ht. unfold wp, attributed.
  destruct (pointer n ≫= _) as [rng|] eqn:Er; [|by apply (Hm E c D P dl d He HE Ht)].
  destruct (_ || _); [apply wp_locate, (Hm E c D P dl d He HE Ht)|].
  assert (Hw : forall a, wp (deferred (locate (Some rng) m) (with_attr (attr c)))
    (fun _ c' => exists D', D ⊆ D' /\ typed c' D' P dl (d + leftover n) /\ frame c c' /\
       (ends n = true -> pop_last c' D P dl d)) (with_attr a c)).
  { intros a. apply wp_deferred, wp_locate.
    assert (HEa : exits_ok E (with_attr a c) dl d) by done.
    assert (Hta : typed (with_attr a c) D P dl d) by done.
    eapply wp_mono; [apply (Hm E _ D P dl d He HEa Hta)|]. intros [] c' (D' & HD & Ht' & HF & Hend).
    exists D'. split; [done|]. split; [done|]. split; [exact HF|]. exact Hend. }
  destruct (if IsValid (r_End rng) then _ else _) as [el ec].
  destruct (match pointer n ≫= _ with Some o => if IsValid _ then _ else _ | None => _ end) as [ml mc]. apply Hw.
Qed.
End Correct.

(** [Compile] with enough fuel. *)
Lemma Compile_compiles strict builtins fuel n :
  (node_depth n <= fuel)%nat -> sound strict n = true -> compiles strict n (Compile builtins fuel n).
Proof.
  revert n. induction fuel as [|fuel IH]; intros n Hd Hs.
  - destruct n as [[]|[]|[]]; simpl in Hd; lia.
  - cbn [Compile]. by apply attributed_compiles, compileNode_compiles with fuel.
Qed.

(* ------------------------------------------------------------------ *)
(** ** Programs *)

Section Programs.
Context (strict : bool) (builtins : list string) (draw : nat -> option Z).

(** What the parser gives: every [let] names something.  With [strict], no value
    of an assignment folded through a saved index leaves a loop. *)
Definition well_formed (p : source) : bool := forallb (sound_statement strict) (s_Statements p).

(** A compiler between programs. *)
Definition idle (c : Compiler) : Prop :=
  loopContexts c = [] /\ exists D, D !! 0%nat = Some 0%nat /\ low strict c D ∅ 0.

Lemma idle_core c c' : same_core c c' -> idle c -> idle c'.
Proof.
  intros Hc [E (D & H0 & Hl)]. split; [by destruct Hc as (_ & _ & -> & _)|]. exists D. split; [done|].
  by eapply low_core.
Qed.

Lemma idle_fresh t l address : pool_ok strict l -> idle (fresh_compiler t l address).
Proof.
  intros Hl. split; [done|]. exists {[0%nat := 0%nat]}. split; [by rewrite lookup_singleton_eq|].
  exists emptyScope, []. split; [done|]. split; [apply stream_empty|]. split; [by rewrite !dom_empty_L | done].
Qed.

Lemma idle_pool c : idle c -> pool_ok strict (constants c).
Proof. by intros [_ (D & _ & s & rest & _ & _ & _ & ?)]. Qed.

Lemma leaves_check_dbg c D P dl d : leaves strict check_dbg c D P dl d d.
Proof.
  eapply runs_then; [apply (runs_emit _ _ _ _ _ _ _ _ d); emission|]. intros [] c1 D1 _ _ _. cbn beta.
  eapply runs_conseq; [apply runs_quiet; by intros ?|]. done.
Qed.

Lemma leaves_check_snd c D P dl d : leaves strict check_snd c D P dl d d.
Proof.
  eapply runs_then; [apply (runs_emit _ _ _ _ _ _ _ _ d); emission|]. intros [] c1 D1 _ _ _. cbn beta.
  eapply runs_conseq; [apply runs_quiet; by intros ?|]. done.
Qed.

Lemma quiet_randomChance n : quiet (randomChance draw n).
Proof. by intros c. Qed.

Lemma leaves_random_checks c D P dl d : leaves strict (maybeEmitRandomSecurityCheckOpcodes draw) c D P dl d d.
Proof.
  unfold maybeEmitRandomSecurityCheckOpcodes. eapply runs_then; [apply runs_quiet, quiet_gets|].
  intros b c1 D1 _ _ _. cbn beta. destruct b; [|by apply runs_ret].
  eapply runs_then; [apply runs_quiet, quiet_randomChance|]. intros x c2 D2 _ _ _. cbn beta.
  eapply (runs_then _ _ _ _ _ _ _ _ (fun _ => P) (fun _ => d) nothing).
  { destruct x; [apply leaves_check_dbg | by apply runs_ret]. }
  intros [] c3 D3 _ _ _. cbn beta. eapply runs_then; [apply runs_quiet, quiet_randomChance|]. intros y c4 D4 _ _ _.
  cbn beta. destruct y; [apply leaves_check_snd | by apply runs_ret].
Qed.

Lemma leaves_required_checks c D P dl d : leaves strict ensureRequiredSecurityCheckOpcodes c D P dl d d.
Proof.
  unfold ensureRequiredSecurityCheckOpcodes. eapply runs_then; [apply runs_quiet, quiet_gets|].
  intros x c1 D1 _ _ _. cbn beta. eapply (runs_then _ _ _ _ _ _ _ _ (fun _ => P) (fun _ => d) nothing).
  { destruct x; [by apply runs_ret | apply leaves_check_dbg]. }
  intros [] c2 D2 _ _ _. cbn beta. eapply runs_then; [apply runs_quiet, quiet_gets|]. intros y c3 D3 _ _ _. cbn beta.
  destruct y; [by apply runs_ret | apply leaves_check_snd].
Qed.

Lemma idle_typed c D : loopContexts c = [] -> low strict c D ∅ 0 -> typed strict c D ∅ 0 0.
Proof.
  intros E Hl. split; [by rewrite E, no_loop_map|]. split; [rewrite E; apply map_disjoint_empty_r|].
  unfold loop_wf. by rewrite E.
Qed.

(** A step that leaves the stack as it was keeps a compiler idle. *)
Lemma leaves_idle (m : CM unit) c :
  idle c -> (forall D, leaves strict m c D ∅ 0 0 0) -> wp m (fun _ c' => idle c') c.
Proof.
  intros [E (D & H0 & Hl)] Hm. eapply wp_mono; [by apply (Hm D), idle_typed|].
  intros [] c' (D' & HD & (Hl' & _) & (_ & _ & F & _) & _). rewrite E in F.
  assert (E' : loopContexts c' = []) by (simpl in F; by destruct (loopContexts c')).
  split; [done|]. exists D'. split; [by eapply lookup_weaken|]. by rewrite E', no_loop_map in Hl'.
Qed.

Lemma idle_resolved mark where_ c (Q : unit -> Compiler -> Prop) :
  idle c -> Q tt c -> wp (assertJumpsResolved mark where_) Q c.
Proof.
  intros [_ (D & _ & s & rest & E & _ & Hdom & _)] HQ.
  assert (Hu : unresolvedJumps s = ∅) by (apply dom_empty_inv_L; by rewrite <- Hdom, dom_empty_L).
  unfold wp, assertJumpsResolved, current. unfold_cm. by rewrite E, Hu, map_to_list_empty.
Qed.

Lemma compileProgram_wp p c :
  well_formed p = true -> idle c -> wp (compileProgram builtins draw (program_fuel p) p) (fun _ c' => idle c') c.
Proof.
  intros Hp Hi. unfold compileProgram. apply wp_bind, wp_modify, wp_bind, wp_modify.
  set (c1 := noteStructBindings _ _). assert (Hi1 : idle c1) by (eapply idle_core; [|exact Hi]; done).
  destruct Hi1 as [E1 (D1 & H1 & Hl1)]. eapply here_wp; [exact Hl1|]. intros _. apply wp_bind.
  eapply wp_mono; [apply leaves_idle; [split; [exact E1 | by exists D1]|]|].
  - intros D. apply leaves_each. intros s c' D' Hs HD HF.
    eapply (runs_then _ _ _ _ _ _ _ _ (fun _ => ∅) (fun _ => 0%nat) nothing);
      [|intros [] c2 D2 _ _ _; cbn beta; apply leaves_random_checks].
    assert (Hd : (node_depth (NStmt s) <= program_fuel p)%nat).
    { unfold program_fuel. simpl. pose proof (proj1 (deepest_le statement_depth (s_Statements p) _) (le_n _)) as Hx.
      rewrite Forall_forall in Hx. specialize (Hx _ Hs). lia. }
    unfold well_formed in Hp. rewrite forallb_forall in Hp. apply list_elem_of_In in Hs.
    eapply runs_conseq; [apply (Compile_compiles strict builtins _ _ Hd (Hp _ Hs) True); [done|]|done].
    intros _ _. unfold balanced. destruct HF as (_ & _ & HF & _). rewrite E1 in HF. simpl in HF.
    by destruct (loopContexts c').
  - intros [] c2 Hi2. by apply idle_resolved.
Qed.

(** The compilers the program builds: a fresh one, a line of a session after
    another, programs compiled into them module by module. *)
Inductive built : Compiler -> Prop :=
| built_new : built (New builtins)
| built_session c : built c -> built (NewWithState (symbolTable c) (constants c) (nextAddress c))
| built_checks c : built c -> built (EnableSecurityOpcodeInjection c)
| built_types c structs enums : built c -> built (SeedTypeDefinitions structs enums c)
| built_module c key display namespaces : built c -> built (EnterModule key display namespaces c)
| built_program c c' p : built c -> well_formed p = true ->
    compileProgram builtins draw (program_fuel p) p c = (Accept tt, c') -> built c'.

Lemma built_idle c : built c -> idle c.
Proof.
  induction 1 as [|c _ IH|c _ IH|c structs enums _ IH|c key display namespaces _ IH|c c' p _ IH Hp E].
  - apply idle_fresh. constructor.
  - by apply idle_fresh, idle_pool.
  - by eapply idle_core, IH.
  - by eapply idle_core, IH.
  - by eapply idle_core, IH.
  - pose proof (compileProgram_wp p c Hp IH) as Hw. unfold wp in Hw. by rewrite E in Hw.
Qed.

(** The bytecode of an idle compiler: a typed main stream over a pool of typed
    functions. *)
Definition code_typed (bc : ByteCode) : Prop :=
  let N := length (Constants bc) in
  typed_stream strict N (Instructions bc) /\
  Forall (fun k => match k with
                   | CFunction fn => typed_stream strict N (fn_Instructions fn) /\ 0 <= NumLocals fn
                   | COther _ => True
                   end) (Constants bc).

Lemma ByteCode_wp file text spans c :
  idle c -> wp (ByteCode_ file text spans) (fun bc c' => code_typed bc /\
    Constants bc = imap pool_entry_of (constants c') /\ OpcodeMap bc = None /\
    Forall (object_ok strict (length (constants c'))) (constants c')) c.
Proof.
  intros Hi. unfold ByteCode_. apply wp_bind, wp_gets. apply wp_bind.
  eapply (wp_mono _ (fun _ c' => idle c')).
  { destruct (injectSecurityChecks c); [|by apply wp_ret]. apply leaves_idle; [done|]. intros D.
    apply leaves_required_checks. }
  intros [] c1 [_ (D & H0 & s & rest & E & Hst & _ & Hpool)]. apply wp_bind. unfold wp at 1, current. rewrite E.
  apply wp_bind, wp_gets, wp_ret. split; [|done]. unfold code_typed. simpl. rewrite length_imap. split; [by exists D, 0%nat|].
  apply Forall_forall. intros k Hk. apply list_elem_of_lookup in Hk as [i Hk]. rewrite list_lookup_imap in Hk.
  destruct (constants c1 !! i) as [o|] eqn:Eo; [|done]. injection Hk as <-.
  pose proof (Forall_lookup_1 _ _ _ _ Hpool Eo) as Ho. by destruct o.
Qed.
End Programs.
