(* ===== verification/Holes.v ===== *)
(** * Trees without holes

    A missing node, Go's nil, is what the compiler answers with "internal:
    nothing to compile where an expression was expected".  Compiling a tree in
    which nothing is missing never gives that answer: the one place that does,
    [compileNode], is never handed one, whatever else is refused. *)

From stdpp Require Import base list list_numbers numbers gmap sets strings sorting.
From Stdlib Require Import ZArith Lia.
From S2P Require Import Prelude Code Stream LineTable Polymorphic Text Paths Module Float64 Sha256 Object SymbolTable Ast.
From S2P Require Import Compiler CompilerLogic CompilerFacts.

(** The errors the source words [internal: ...]. *)
Fixpoint missing (e : compile_error) : bool :=
  match e with
  | MissingNode => true
  | Located e _ => missing e
  | _ => false
  end.

Definition internal (e : compile_error) : bool := broken e || missing e.

(* ------------------------------------------------------------------ *)
(** ** Whole trees *)

Fixpoint whole_expr (e : expr) : bool :=
  match e with
  | Missing => false
  | Expr _ e => whole_expression e
  end
with whole_expression (e : expression) : bool :=
  match e with
  | Identifier _ | IntegerLiteral _ | FloatLiteral _ | StringLiteral _ | BooleanLiteral _ => true
  | TemplateLiteral _ l | ArrayLiteral l => forallb whole_expr l
  | HashLiteral l => forallb (fun p => whole_expr p.1 && whole_expr p.2) l
  | PrefixExpression _ e | FieldExpression e _ => whole_expr e
  | InfixExpression l _ r | IndexExpression l r | AssignExpression l _ r => whole_expr l && whole_expr r
  | CallExpression f l => whole_expr f && forallb whole_expr l
  | IfExpression c a b => whole_expr c && whole_block a && match b with Some b => whole_block b | None => true end
  | MatchExpression e l => whole_expr e && forallb (fun a => forallb whole_expr a.1 && whole_block a.2) l
  | FunctionLiteral _ _ b | MacroLiteral _ b => whole_block b
  | StructLiteral _ l => forallb (fun p => whole_expr p.2) l
  end
with whole_statement (s : statement) : bool :=
  match s with Stmt _ s => whole_stmt s end
with whole_stmt (s : stmt) : bool :=
  match s with
  | LetStatement _ e | ExpressionStatement e => whole_expr e
  | ReturnStatement l => forallb whole_expr l
  | BlockStatement l => forallb whole_statement l
  | ForStatement i c p b =>
      match i with Some s => whole_statement s | None => true end &&
      match c with Some e => whole_expr e | None => true end &&
      match p with Some e => whole_expr e | None => true end && whole_block b
  | ForInStatement _ _ e b | WhileStatement e b => whole_expr e && whole_block b
  | BreakStatement | ContinueStatement | StructStatement _ _ | EnumStatement _ _ | ImportStatement _ _ => true
  end
with whole_block (b : block) : bool :=
  match b with Block _ l => forallb whole_statement l end.

Definition whole_node (n : node) : bool :=
  match n with
  | NExpr e => whole_expr e
  | NStmt s => whole_statement s
  | NBlock b => whole_block b
  end.

(** A program with no hole in it. *)
Definition whole (p : source) : bool := forallb whole_statement (s_Statements p).

(* ------------------------------------------------------------------ *)
(** ** What never answers that a node is missing *)

Definition spared {A : Type} (m : CM A) : Prop := forall c,
  match (m c).1 with Reject e => missing e = false | _ => True end.

Lemma spared_bind {A B} (m : CM A) (k : A -> CM B) : spared m -> (forall a, spared (k a)) -> spared (m ≫= k).
Proof.
  intros Hm Hk c. unfold mbind, CM_bind. specialize (Hm c). destruct (m c) as [[] c']; simpl in *; try done. apply Hk.
Qed.

Lemma spared_bind_post {A B} (P : A -> Prop) (m : CM A) (k : A -> CM B) :
  spared m -> (forall c a c', m c = (Accept a, c') -> P a) -> (forall a, P a -> spared (k a)) -> spared (m ≫= k).
Proof.
  intros Hm HP Hk c. unfold mbind, CM_bind. specialize (Hm c). specialize (HP c).
  destruct (m c) as [[] c']; simpl in *; try done. apply Hk. by eapply HP.
Qed.

Lemma spared_ret {A} (a : A) : spared (mret a).
Proof. done. Qed.
Lemma spared_reject {A} e : missing e = false -> spared (@reject A e).
Proof. by intros H c. Qed.
Lemma spared_crash {A} : spared (@crash A).
Proof. done. Qed.
Lemma spared_no_fuel {A} : spared (@no_fuel A).
Proof. done. Qed.
Lemma spared_gets {A} (f : Compiler -> A) : spared (gets f).
Proof. done. Qed.
Lemma spared_modify f : spared (modify f).
Proof. done. Qed.
Lemma spared_outcome {A} (o : outcome A) : spared (of_outcome o).
Proof. by destruct o. Qed.
Lemma spared_current : spared current.
Proof. intros c. unfold current. by destruct (scopes c). Qed.
Lemma spared_set_current s : spared (set_current s).
Proof. intros c. unfold set_current. by destruct (scopes c). Qed.
Lemma spared_table {A} (f : Chain -> Chain * A) : spared (table_op f).
Proof. intros c. unfold table_op. by destruct (f (symbolTable c)). Qed.
Lemma spared_constant o : spared (addConstant o).
Proof. done. Qed.
Lemma spared_deferred {A} (m : CM A) f : spared m -> spared (deferred m f).
Proof. intros Hm c. unfold deferred. specialize (Hm c). by destruct (m c) as [[] ?]. Qed.
Lemma spared_each {A} (f : A -> CM unit) l : (forall a, a ∈ l -> spared (f a)) -> spared (each f l).
Proof.
  induction l as [|a l IH]; intros Hf; simpl; [apply spared_ret|].
  apply spared_bind; [apply Hf; by left|intros _; apply IH; intros; apply Hf; by right].
Qed.
Lemma spared_each_from {A} (f : nat -> A -> CM unit) i l : (forall i a, a ∈ l -> spared (f i a)) -> spared (each_from f i l).
Proof.
  revert i. induction l as [|a l IH]; intros i Hf; simpl; [apply spared_ret|].
  apply spared_bind; [apply Hf; by left|intros _; apply IH; intros; apply Hf; by right].
Qed.

Create HintDb spared.
#[export] Hint Resolve spared_ret spared_crash spared_no_fuel spared_gets spared_modify spared_outcome spared_current
  spared_set_current spared_table spared_constant : spared.

(** Walk a step of the compiler. *)
Ltac spare_step :=
  lazymatch goal with
  | |- spared (mbind _ _) => apply spared_bind; [|intros ?]
  | |- spared (reject _) => by apply spared_reject
  | |- spared (deferred _ _) => apply spared_deferred
  | |- spared (if ?b then _ else _) => destruct b
  | |- spared (let '(_, _) := ?x in _) => destruct x
  | |- spared (match ?x with _ => _ end) => destruct x
  | |- _ => solve [auto with spared]
  end.
Ltac spare := repeat spare_step.

Lemma spared_here : spared here.
Proof. unfold here, currentInstructions. spare. Qed.
Lemma spared_emit op l : spared (emit op l).
Proof.
  unfold emit, addInstruction, recordPosition, setLastInstruction. cbv zeta. spare.
Qed.
#[export] Hint Resolve spared_here spared_emit : spared.
Lemma spared_emit_ op l : spared (emit_ op l).
Proof. unfold emit_. spare. Qed.
Lemma spared_placeholder op l : spared (emitPlaceholder op l).
Proof. unfold emitPlaceholder. spare. Qed.
Lemma spared_replace pos new : spared (replaceInstruction pos new).
Proof. unfold replaceInstruction. spare. Qed.
#[export] Hint Resolve spared_emit_ spared_placeholder spared_replace : spared.
Lemma spared_changeOperand pos operand : spared (changeOperand pos operand).
Proof. unfold changeOperand, currentInstructions. spare. Qed.
#[export] Hint Resolve spared_changeOperand : spared.
Lemma spared_changeOperands l operand : spared (changeOperands l operand).
Proof. apply spared_each. auto with spared. Qed.
Lemma spared_leaveOneValue b : spared (leaveOneValue b).
Proof. unfold leaveOneValue, removeLastPop. spare. Qed.
Lemma spared_assertJumps mark where_ : spared (assertJumpsResolved mark where_).
Proof. unfold assertJumpsResolved. spare. Qed.
Lemma spared_declare name : spared (declare name).
Proof. unfold declare, noteDeclared. spare. Qed.
Lemma spared_refuse names : spared (refuseIfNothingIsNew names).
Proof.
  unfold refuseIfNothingIsNew. apply spared_bind; [|intros ?; spare].
  generalize (@nil string) 0%nat. induction names as [|name names IH]; intros already fresh; simpl; [spare|].
  unfold declaredHere. spare; apply IH.
Qed.
Lemma spared_load s : spared (loadSymbol s).
Proof. unfold loadSymbol. spare. Qed.
#[export] Hint Resolve spared_changeOperands spared_leaveOneValue spared_assertJumps spared_declare spared_refuse
  spared_load : spared.
Lemma spared_capture s : spared (emitCapture s).
Proof. unfold emitCapture. spare. Qed.
Lemma spared_store s : spared (emitStoreOnly s).
Proof. unfold emitStoreOnly. spare. Qed.
Lemma spared_binding s : spared (emitBindingStore s).
Proof. unfold emitBindingStore. spare. Qed.
#[export] Hint Resolve spared_capture spared_store spared_binding : spared.
Lemma spared_assign_store s : spared (emitAssignStore s).
Proof. unfold emitAssignStore. spare. Qed.
Lemma spared_slot kind : spared (internalSlot kind).
Proof. unfold internalSlot. spare. Qed.
Lemma spared_claim kind name : spared (claimTypeName kind name).
Proof. unfold claimTypeName. spare. Qed.
Lemma spared_fields name l : spared (refuseDuplicateFields name l).
Proof. unfold refuseDuplicateFields. spare. Qed.
Lemma spared_check t field w : spared (checkFieldIsDeclared t field w).
Proof. unfold checkFieldIsDeclared. spare. Qed.
Lemma spared_pops entry : spared (emitPendingPops entry).
Proof. unfold emitPendingPops. spare. apply spared_each. auto with spared. Qed.
Lemma spared_top : spared top_loop.
Proof. intros c. unfold top_loop. by destruct (loopContexts c). Qed.
Lemma spared_leaveScope : spared leaveScope.
Proof. unfold leaveScope. spare. Qed.
Lemma spared_string s : spared (addString s).
Proof. apply spared_constant. Qed.
#[export] Hint Resolve spared_assign_store spared_slot spared_claim spared_fields spared_check spared_pops spared_top
  spared_leaveScope spared_string : spared.

Lemma spared_pending n m : spared m -> spared (withPending n m).
Proof. intros Hm. unfold withPending. spare. Qed.

Lemma spared_attributed n m : spared m -> spared (attributed n m).
Proof.
  intros Hm.
  assert (Hl : forall rng, spared (locate rng m)).
  { intros rng c. unfold locate. specialize (Hm c). destruct (m c) as [[|[]| | |] ?]; simpl in *; try done;
      destruct rng as [r|]; simpl; try done; by destruct (IsValid (r_Start r)). }
  intros c. unfold attributed. cbv zeta. destruct (pointer n ≫= _) as [r|]; [|apply Hm]. destruct (_ || _); [apply Hl|].
  destruct (if IsValid (r_End r) then _ else _) as [a b].
  destruct (match pointer n ≫= _ with Some _ => _ | None => _ end) as [d e]. apply spared_deferred, Hl.
Qed.

(* ------------------------------------------------------------------ *)
(** ** The parts of a whole tree *)

Ltac wholes := repeat match goal with
  | H : (_ && _)%bool = true |- _ => apply andb_true_iff in H; destruct H
  end.

Lemma whole_all {A} (f : A -> bool) l a : forallb f l = true -> a ∈ l -> f a = true.
Proof. rewrite forallb_forall. intros H Ha. by apply H, list_elem_of_In. Qed.

(** The steps of an assignment's target. *)
Definition whole_step (s : assignStep) : bool := match s with StepIndex i => whole_expr i | StepField _ => true end.

Lemma flatten_whole target steps base out :
  whole_expr target = true -> forallb whole_step steps = true -> flatten target steps = Some (base, out) ->
  forallb whole_step out = true.
Proof.
  revert steps. remember (expr_depth target) as d eqn:Ed. assert (expr_depth target <= d)%nat as Hd by lia. clear Ed.
  revert target Hd. induction d as [|d IH]; intros [|n e] Hd steps Ht Hs; cbn in Hd; try done; [lia|].
  destruct e as [| | | | | | | | | |l i|l field| | | | | | |]; cbn; try done; cbn in Ht, Hd.
  - by intros [= _ <-].
  - wholes. destruct i as [|m i]; [done|]. apply IH; [lia|done|]. simpl. by apply andb_true_iff.
  - apply IH; [lia|done..].
Qed.

Section Spared.
Context (builtins : list string) (Compile : node -> CM unit).
Hypothesis Compile_spared : forall n, whole_node n = true -> spared (Compile n).

Lemma spared_compile e : whole_expr e = true -> spared (compile Compile e).
Proof using All. intros. by apply Compile_spared. Qed.
Lemma spared_compilePending n e : whole_expr e = true -> spared (compilePending Compile n e).
Proof using All. intros. by apply spared_pending, spared_compile. Qed.
Lemma spared_stmt s : whole_statement s = true -> spared (Compile (NStmt s)).
Proof using All. intros. by apply Compile_spared. Qed.
Lemma spared_block b : whole_block b = true -> spared (Compile (NBlock b)).
Proof using All. intros. by apply Compile_spared. Qed.
#[local] Hint Resolve spared_compile spared_compilePending spared_stmt spared_block : spared.

Lemma spared_body l : forallb whole_statement l = true -> spared (compileBlockBody Compile l).
Proof using All. intros Hl. apply spared_each. intros s Hs. eapply spared_stmt, whole_all; done. Qed.
#[local] Hint Resolve spared_body : spared.
Lemma spared_scope l : forallb whole_statement l = true -> spared (compileBlockScope Compile l).
Proof using All. intros. unfold compileBlockScope, openBlock. spare. Qed.
Lemma spared_infix l o r : whole_expr l = true -> whole_expr r = true -> spared (compileInfix Compile l o r).
Proof using All. intros. unfold compileInfix, compileLogicalExpression. spare. Qed.
#[local] Hint Resolve spared_scope spared_infix : spared.

Lemma spared_pieces texts parts n : forallb whole_expr parts = true -> spared (template_loop Compile texts parts n).
Proof using All.
  revert parts n. induction texts as [|t texts IH]; intros parts n Hp; simpl; [spare|].
  apply spared_bind; [spare|intros k]. destruct parts as [|e parts]; [by apply IH|]. simpl in Hp. wholes.
  apply spared_bind; [auto with spared|intros _; by apply IH].
Qed.

Lemma spared_tests patterns l : forallb whole_expr patterns = true -> spared (arm_tests Compile patterns l).
Proof using All.
  revert l. induction patterns as [|e patterns IH]; intros l Hp; simpl; [spare|]. simpl in Hp. wholes. spare.
Qed.
#[local] Hint Resolve spared_pieces spared_tests : spared.

Lemma spared_arms arms ends :
  forallb (fun a : list expr * block => forallb whole_expr a.1 && whole_block a.2) arms = true ->
  spared (compileArms Compile arms ends).
Proof using All.
  revert ends. induction arms as [|[patterns b] arms IH]; intros ends Ha; simpl; [spare|]. simpl in Ha. wholes.
  apply spared_bind; [|intros e; by apply IH]. unfold compileArm. spare.
Qed.
#[local] Hint Resolve spared_arms : spared.

Lemma spared_function name params b : whole_block b = true -> spared (compileFunction Compile name params b).
Proof using All.
  intros Hb. unfold compileFunction, enterScope. spare.
  - apply spared_each. intros x _. unfold declareParameter, declaredHere. spare.
  - intros c. unfold function_body. apply spared_deferred, spared_body. by destruct b.
  - unfold finish_body, replaceLastPopWithReturn, lastInstructionIs. spare.
  - apply spared_each. auto with spared.
  - done.
Qed.

Lemma spared_undone m : spared m -> spared (fun c => match m c with
  | (Accept u, c) => (Accept (u : unit), c) | (r, c) => (r, leave_loop c) end).
Proof using Type. intros Hm c. specialize (Hm c). by destruct (m c) as [[] ?]. Qed.

Lemma spared_loop_body b : whole_block b = true -> spared (loop_body Compile b).
Proof using All.
  intros Hb. apply (spared_undone (enter_loop;; Compile (NBlock b))). unfold enter_loop. spare.
Qed.

Lemma spared_post post : match post with Some e => whole_expr e | None => true end = true -> spared (post_section Compile post).
Proof using All.
  intros Hp. unfold post_section, mark_step, set_top_loop. destruct post as [e|]; spare.
  by apply (spared_undone (compile Compile e)), spared_compile.
Qed.
#[local] Hint Resolve spared_loop_body spared_post : spared.

Lemma spared_path slot steps : forallb whole_step steps = true -> spared (path_loop Compile slot steps).
Proof using All.
  induction steps as [|[i|field] steps IH]; intros Hs; simpl; [spare|..]; simpl in Hs; wholes; spare; by apply IH.
Qed.

Lemma whole_take n steps : forallb whole_step steps = true -> forallb whole_step (take n steps) = true.
Proof using Type.
  rewrite !forallb_forall. intros H s Hs. apply H. apply list_elem_of_In. apply list_elem_of_In in Hs.
  by eapply elem_of_take in Hs as (? & ?%list_elem_of_lookup_2 & _).
Qed.

Lemma spared_pathLoad s steps n slot : forallb whole_step steps = true -> spared (emitPathLoad Compile s steps n slot).
Proof using All. intros Hs. unfold emitPathLoad. spare. by apply spared_path, whole_take. Qed.

Lemma spared_chain s steps n slot m :
  forallb whole_step steps = true -> spared m -> spared (emitAssignChain Compile s steps n slot m).
Proof using All.
  intros Hs. revert slot m. induction n as [|n IH]; intros slot m Hm; simpl; [spare|].
  destruct (steps !! n) as [step|] eqn:En; [|spare].
  assert (Hc : spared (chain_store Compile step slot m)).
  { assert (whole_step step = true) as Hw by (eapply whole_all; [done|by eapply list_elem_of_lookup_2]).
    unfold chain_store. destruct step as [i|field]; simpl in Hw; spare; by apply spared_pending. }
  destruct n as [|n]; [spare|]. apply IH. spare. by apply spared_pathLoad.
Qed.

Lemma spared_assignment left o value :
  whole_expr left = true -> whole_expr value = true -> spared (compileAssignExpression Compile left o value).
Proof using All.
  intros Hl Hv. unfold compileAssignExpression. destruct (flattenAssignTarget left) as [[base steps]|] eqn:Ef; [|spare].
  assert (Hs : forallb whole_step steps = true) by (by eapply flatten_whole in Ef).
  destruct steps as [|s steps]; [spare|]. generalize dependent (s :: steps). intros out _ Hs. spare.
  - unfold check_first_hop, structTypeOfBinding. spare.
  - apply spared_chain; [done|]. unfold assign_value. spare. by apply spared_pathLoad.
Qed.

(** What [ResolveField] refuses, it refuses for the name's sake. *)
Lemma ResolveField_refuses left field c r c' :
  ResolveField builtins left field c = (Accept r, c') -> match r with FieldRefused e => missing e = false | _ => True end.
Proof using Type.
  unfold ResolveField, resolveModuleMember, bound, mbind, CM_bind, gets, table_op, mret, CM_ret. cbn.
  repeat (case_match; simplify_eq/=; try done); by intros [= <- _].
Qed.

Lemma spared_field left field : whole_expr left = true -> spared (compileFieldExpression builtins Compile left field).
Proof using All.
  intros Hl.
  assert (Hr : spared (field_read Compile left field)) by (unfold field_read; spare).
  unfold compileFieldExpression. destruct left as [|n []]; try done.
  apply (spared_bind_post (fun r => match r with FieldRefused e => missing e = false | _ => True end)).
  - unfold ResolveField, bound. spare.
  - apply ResolveField_refuses.
  - intros r Hr'. unfold structTypeOfBinding. spare.
Qed.

Lemma assoc_whole field (fields : list (string * expr)) e :
  forallb (fun p => whole_expr p.2) fields = true -> assoc field fields = Some e -> whole_expr e = true.
Proof using Type.
  induction fields as [|[n a] fields IH]; simpl; [done|]. intros H. wholes. case_bool_decide; [by intros [= <-]|by apply IH].
Qed.

Lemma assoc_found {A} field (fields : list (string * A)) : field ∈ fields.*1 -> is_Some (assoc field fields).
Proof using Type.
  induction fields as [|[n a] fields IH]; simpl; [by intros ?%elem_of_nil|].
  intros [->|H]%elem_of_cons; case_bool_decide; eauto; done.
Qed.

Lemma spared_spill depth i fields slots :
  forallb (fun p : string * expr => whole_expr p.2) fields = true -> spared (spill_fields Compile depth i fields slots).
Proof using All.
  revert i slots. induction fields as [|[n e] fields IH]; intros i slots H; simpl; [spare|]. simpl in H. wholes. spare.
Qed.

Lemma spared_struct name fields :
  forallb (fun p : string * expr => whole_expr p.2) fields = true -> spared (compileStructLiteral Compile name fields).
Proof using All.
  intros Hf. unfold compileStructLiteral. apply spared_bind; [spare|intros defs].
  destruct (defs !! name) as [typeDef|]; [|spare]. destruct (first_repeat [] fields.*1); [spare|]. cbv zeta.
  destruct (_ || _); [spare|]. apply spared_bind; [spare|intros t]. apply spared_bind; [|intros _; spare].
  case_bool_decide as E.
  - apply spared_each_from. intros i field Hi. apply spared_compilePending. rewrite <- E in Hi.
    destruct (assoc_found _ _ Hi) as [e He]. rewrite He. by eapply assoc_whole.
  - unfold emitStructFieldsInSourceOrder. spare; [by apply spared_spill|].
    apply spared_each. intros field _. spare.
Qed.
#[local] Hint Resolve spared_struct spared_field spared_assignment spared_function : spared.

Lemma spared_list n l : forallb whole_expr l = true -> spared (each_from (compilePending Compile) n l).
Proof using All. intros Hl. apply spared_each_from. intros i e He. apply spared_compilePending. by eapply whole_all. Qed.
#[local] Hint Resolve spared_list : spared.

Lemma spared_expression e : whole_expression e = true -> spared (compileExpression builtins Compile e).
Proof using All.
  destruct e; cbn [whole_expression compileExpression]; intros Hw; wholes; unfold constant, compileTemplateLiteral,
    compileArray, compileHash, compilePrefix, compileCall, compileIf, compileMatchExpression; spare.
  - apply spared_each_from. intros i p Hp. apply (whole_all _ _ _ Hw) in Hp. wholes. spare.
  - apply spared_each_from. intros i x Hx. apply spared_compilePending. by eapply whole_all.
Qed.

Lemma spared_statement s : whole_stmt s = true -> spared (compileStatement Compile s).
Proof using All.
  destruct s as [names e| | |l|i c p b| | | | | | |]; cbn [whole_stmt compileStatement]; intros Hw; wholes;
    unfold compileLet, compileReturn, compileForStatement, compileForInStatement, compileWhileStatement, compileBreak,
      compileContinue, openBlock, set_top_loop; spare.
  all: try (apply spared_each; intros; spare).
  cbn in Hw. wholes. by apply spared_compile.
Qed.

Lemma spared_node n : whole_node n = true -> spared (compileNode builtins Compile n).
Proof using All.
  destruct n as [[|m e]|[m s]|[m l]]; cbn [whole_node compileNode whole_expr whole_statement whole_block]; intros Hw;
    [done|by apply spared_expression|by apply spared_statement|by apply spared_scope].
Qed.
End Spared.

Lemma spared_Compile builtins fuel n : whole_node n = true -> spared (Compile builtins fuel n).
Proof.
  revert n. induction fuel as [|fuel IH]; intros n Hn; cbn [Compile]; [spare|].
  by apply spared_attributed, spared_node.
Qed.

(** No hole, no complaint of one. *)
Lemma spared_program builtins draw fuel p : whole p = true -> spared (compileProgram builtins draw fuel p).
Proof.
  intros Hp. unfold compileProgram. spare. apply spared_each. intros s Hs. spare.
  - apply spared_Compile. by eapply whole_all in Hp.
  - unfold maybeEmitRandomSecurityCheckOpcodes, check_dbg, check_snd. spare; done.
Qed.

(** What [compileProgram] answers, then. *)
Lemma not_internal builtins draw fuel p c (Q : unit -> Compiler -> Prop) :
  wp (compileProgram builtins draw fuel p) Q c -> whole p = true ->
  match (compileProgram builtins draw fuel p c).1 with
  | Accept _ | Overflow => True
  | Reject e => internal e = false
  | Crash | NoFuel => False
  end.
Proof.
  intros Hw Hp. pose proof (spared_program builtins draw fuel p Hp c) as Hs. unfold wp in Hw.
  destruct (compileProgram _ _ _ _ _) as [[] ?]; try done. simpl in *. unfold internal. by rewrite Hw, Hs.
Qed.
