(* ===== verification/Compiled.v ===== *)
(** * What compiled programs satisfy

    The theorems about the code generator as a whole, from the invariant of
    [CompilerFacts.v]: a compilation ends in code or in a refusal, its jumps land
    on instructions, so that the polymorphic engine and the machine can read it,
    and the operand stack is balanced.  The last one has an exception, which is
    exhibited: a folded assignment whose value leaves a loop. *)

From stdpp Require Import base list list_numbers numbers gmap strings sorting relations.
From Stdlib Require Import ZArith Lia.
From S2P Require Import Prelude Code Stream LineTable Polymorphic Padding Mutation StackTyping Text Paths Module Float64.
From S2P Require Import Sha256 Object SymbolTable Ast Compiler CompilerLogic CompilerFacts Holes.

(* ------------------------------------------------------------------ *)
(** ** Sample programs *)

Definition id_ (x : string) : expr := Expr 0 (Identifier x).
Definition int_ (n : Z) : expr := Expr 0 (IntegerLiteral n).
Definition str_ (s : string) : expr := Expr 0 (StringLiteral (bytes s)).
Definition infix_ (l : expr) (op : string) (r : expr) : expr := Expr 0 (InfixExpression l op r).
Definition call_ (f : expr) (l : list expr) : expr := Expr 0 (CallExpression f l).
Definition fn_ (params : list string) (l : list statement) : expr := Expr 0 (FunctionLiteral "" params (Block 0 l)).
Definition if_ (c : expr) (a b : list statement) : expr := Expr 0 (IfExpression c (Block 0 a) (Some (Block 0 b))).
Definition let_ (x : string) (e : expr) : statement := Stmt 0 (LetStatement [x] e).
Definition expr_ (e : expr) : statement := Stmt 0 (ExpressionStatement e).
Definition break_ : statement := Stmt 0 BreakStatement.
Definition forIn_ (x : string) (e : expr) (l : list statement) : statement :=
  Stmt 0 (ForInStatement None x e (Block 0 l)).
Definition program (l : list statement) : source := Source l ∅ ∅ [] ∅.

(** [let total = 0;
     let add = fn(n) { total = total + n; total };
     for (x in [1, 2]) { if (x > 1 && true) { break; } else { add(x) } }
     add(5);] *)
Definition summing : source := program
  [ let_ "total" (int_ 0);
    let_ "add" (fn_ ["n"]
      [expr_ (Expr 0 (AssignExpression (id_ "total") "" (infix_ (id_ "total") "+" (id_ "n")))); expr_ (id_ "total")]);
    forIn_ "x" (Expr 0 (ArrayLiteral [int_ 1; int_ 2]))
      [expr_ (if_ (infix_ (infix_ (id_ "x") ">" (int_ 1)) "&&" (Expr 0 (BooleanLiteral true)))
         [break_] [expr_ (call_ (id_ "add") [id_ "x"])])];
    expr_ (call_ (id_ "add") [int_ 5]) ].

(** [let a = [0];
     let first = fn() { 0 };
     for (x in [1]) { a[first()] += if (true) { break; } else { 1 } }] *)
Definition folding : source := program
  [ let_ "a" (Expr 0 (ArrayLiteral [int_ 0]));
    let_ "first" (fn_ [] [expr_ (int_ 0)]);
    forIn_ "x" (Expr 0 (ArrayLiteral [int_ 1]))
      [expr_ (Expr 0 (AssignExpression (Expr 0 (IndexExpression (id_ "a") (call_ (id_ "first") []))) "+"
         (if_ (Expr 0 (BooleanLiteral true)) [break_] [expr_ (int_ 1)])))] ].

Definition no_draws : nat -> option Z := fun _ => None.

Definition compiled_from (p : source) : Compiler := (compileProgram [] no_draws (program_fuel p) p (New [])).2.
Definition code_of (p : source) : list Z :=
  match scopes (compiled_from p) with s :: _ => instructions s | [] => [] end.

(** Following a stream, taking the jumps the choices say. *)
Fixpoint instr_at (l : list instr) (pos : nat) : option instr :=
  match l with
  | [] => None
  | i :: l => if (pos =? 0)%nat then Some i else
      if (pos <? instr_width i)%nat then None else instr_at l (pos - instr_width i)
  end.

Definition follow (l : list instr) (jump : bool) (x : nat * nat) : option (nat * nat) :=
  match instr_at l x.1 with
  | None => None
  | Some i =>
      if jump then (fun t => (t, depth_jumped i x.2)) <$> target i
      else if falls i then Some ((x.1 + instr_width i)%nat, depth_after i x.2) else None
  end.

Fixpoint walk (l : list instr) (choices : list bool) (x : nat * nat) : option (nat * nat) :=
  match choices with
  | [] => Some x
  | j :: choices => match follow l j x with Some y => walk l choices y | None => None end
  end.

Lemma instr_at_sound l pos i : instr_at l pos = Some i -> at_ l pos i.
Proof.
  revert pos. induction l as [|j l IH]; intros pos; simpl; [done|]. bcase; [intros [= ->]; subst; by exists [], l|].
  bcase; [done|]. intros (A & B & -> & Hp)%IH. exists (j :: A), B. split; [done|]. cbn [encode].
  rewrite length_app, length_instr_bytes. lia.
Qed.

Lemma walk_flow l choices x y : walk l choices x = Some y -> rtc (flow l) x y.
Proof.
  revert x. induction choices as [|j choices IH]; intros x; simpl; [intros [= ->]; apply rtc_refl|].
  destruct (follow l j x) as [z|] eqn:Ef; [|done]. intros Hw. eapply rtc_l; [|by apply IH].
  destruct x as [pos d]. unfold follow in Ef. simpl in Ef.
  destruct (instr_at l pos) as [i|] eqn:Ei; [|done]. apply instr_at_sound in Ei. destruct j.
  - destruct (target i) as [t|] eqn:Et; simplify_eq/=. by eapply flow_jump.
  - destruct (falls i) eqn:Efl; simplify_eq. by apply flow_next.
Qed.

(* ------------------------------------------------------------------ *)
(** ** Theorems *)

Lemma built_sample strict p :
  well_formed strict p = true -> (compileProgram [] no_draws (program_fuel p) p (New [])).1 = Accept tt ->
  built strict [] no_draws (compiled_from p).
Proof.
  intros Hp E. eapply (built_program _ _ _ (New []) _ p); [apply built_new | done |]. unfold compiled_from.
  destruct (compileProgram _ _ _ _ _) as [r c]. simpl in *. by subst.
Qed.

(** C4: a compilation ends.  In a compiler built by any sequence of lines, modules
    and programs, compiling a program with fuel for the depth of its tree gives
    code, or a refusal that is the program's fault, or the panic of [code.Make] on
    an operand too wide to encode: it does not run out of fuel, does not panic in
    any other way (no index out of range, no scope or loop popped from nothing),
    and reports none of the errors the source words [internal: ...] (unresolved
    jumps, a pending count below the loop's, a disagreement with [sema], nothing to
    compile where an expression was expected).  The tree is one without holes in
    which a [let] names something. *)
Theorem compilation_ends (builtins : list string) (draw : nat -> option Z) (c : Compiler) (p : source) :
  built false builtins draw c -> well_formed false p = true -> whole p = true ->
  match (compileProgram builtins draw (program_fuel p) p c).1 with
  | Accept _ | Overflow => True
  | Reject e => internal e = false
  | Crash | NoFuel => False
  end.
Proof.
  intros Hc Hp Hh. pose proof (compileProgram_wp false builtins draw p c Hp (built_idle _ _ _ _ Hc)) as Hw.
  by eapply not_internal.
Qed.

Lemma compilation_ends_witness :
  (compileProgram [] no_draws (program_fuel folding) folding (compiled_from summing)).1 = Accept tt /\
  match (compileProgram [] no_draws (program_fuel folding) folding (compiled_from summing)).1 with
  | Accept _ | Overflow => True
  | Reject e => internal e = false
  | Crash | NoFuel => False
  end.
Proof.
  split; [vm_compute; reflexivity|]. apply compilation_ends; [|vm_compute; reflexivity..].
  apply built_sample; vm_compute; reflexivity.
Defined.

(** C6: what the code generator hands on is well formed.  Every stream of the
    bytecode of a compiler built this way, the main program's and each function's,
    is a sequence of encoded instructions whose jumps land on instructions of the
    same stream, which is what the polymorphic engine, the loader and the machine
    assume of it, and every constant an instruction names is in the pool. *)
Theorem compiled_streams_are_well_formed (builtins : list string) (draw : nat -> option Z) (c c' : Compiler)
    (file text : list Z) (spans : list ModuleSpan) (bc : ByteCode) :
  built false builtins draw c -> ByteCode_ file text spans c = (Accept bc, c') ->
  program_ok bc /\
  forall ins l, (ins = Instructions bc \/ exists fn, CFunction fn ∈ Constants bc /\ ins = fn_Instructions fn) ->
    Forall instr_ok l -> ins = encode l -> Forall (pooled (length (Constants bc))) l.
Proof.
  intros Hc E. pose proof (ByteCode_wp false file text spans c (built_idle _ _ _ _ Hc)) as Hw.
  unfold wp in Hw. rewrite E in Hw. destruct Hw as [[Hm Hf] _]. split.
  - split; [by eapply typed_stream_ok|]. eapply Forall_impl; [exact Hf|]. intros [fn|] Hk; [|done].
    eapply typed_stream_ok, Hk.
  - intros ins l Hin Hl El.
    assert (Ht : typed_stream false (length (Constants bc)) ins).
    { destruct Hin as [->|(fn & Hk & ->)]; [done|]. rewrite Forall_forall in Hf. by apply (Hf _ Hk). }
    destruct Ht as (D & d & (l' & Hl' & El' & _ & Hp)%stream_decodes & _).
    assert (l = l') as -> by (apply encode_inj; congruence). done.
Qed.

Lemma compiled_streams_are_well_formed_witness :
  exists bc c', ByteCode_ [] [] [] (compiled_from folding) = (Accept bc, c') /\ program_ok bc.
Proof.
  do 2 eexists. split; [vm_compute; reflexivity|].
  eapply (compiled_streams_are_well_formed [] no_draws (compiled_from folding) _ [] [] []);
    [apply built_sample; vm_compute; reflexivity | vm_compute; reflexivity].
Defined.

(** C3: the operand stack of compiled code is balanced.  Along any way control can
    take through a stream of the bytecode, from its start with nothing on its part
    of the stack, no instruction finds fewer operands than it takes, and an
    offset is always reached with the same number of operands on the stack,
    whichever way led there.  The programs are those in which the value of an
    assignment folded through a saved index does not [break] or [continue] a loop
    around it. *)
Theorem compiled_code_is_balanced (builtins : list string) (draw : nat -> option Z) (c c' : Compiler)
    (file text : list Z) (spans : list ModuleSpan) (bc : ByteCode) (ins : list Z) (l : list instr) :
  built true builtins draw c -> ByteCode_ file text spans c = (Accept bc, c') ->
  (ins = Instructions bc \/ exists fn, CFunction fn ∈ Constants bc /\ ins = fn_Instructions fn) ->
  Forall instr_ok l -> ins = encode l ->
  forall pos d, rtc (flow l) (0%nat, 0%nat) (pos, d) ->
    (forall i, at_ l pos i -> (pops i <= d)%nat) /\
    (forall d', rtc (flow l) (0%nat, 0%nat) (pos, d') -> d' = d).
Proof.
  intros Hc E Hin Hl El pos d Hr. pose proof (ByteCode_wp true file text spans c (built_idle _ _ _ _ Hc)) as Hw.
  unfold wp in Hw. rewrite E in Hw. destruct Hw as [[Hm Hf] _].
  assert (Ht : typed_stream true (length (Constants bc)) ins).
  { destruct Hin as [->|(fn & Hk & ->)]; [done|]. rewrite Forall_forall in Hf. by apply (Hf _ Hk). }
  split; [intros i Hi; by eapply flow_never_underflows | intros d' Hr'; by eapply flow_one_depth].
Qed.

(** The main stream of [summing], decoded. *)
Definition summing_main : list instr := Eval vm_compute in
  match decodeBoundaries (code_of summing) with
  | Some (starts, _) => omap (fun pos => fetch None (code_of summing) pos) starts
  | None => []
  end.

Lemma summing_main_ok : Forall instr_ok summing_main.
Proof.
  repeat (apply Forall_cons; split; [split; [reflexivity|]; split; [simpl; lia|];
    intros [|[|?]] ? ?; simpl; intros; simplify_eq/=; lia|]). constructor.
Qed.

Lemma compiled_code_is_balanced_witness :
  exists bc c', ByteCode_ [] [] [] (compiled_from summing) = (Accept bc, c') /\
    rtc (flow summing_main) (0%nat, 0%nat) (71%nat, 1%nat) /\
    forall d', rtc (flow summing_main) (0%nat, 0%nat) (71%nat, d') -> d' = 1%nat.
Proof.
  do 2 eexists. split; [vm_compute; reflexivity|].
  assert (Hr : rtc (flow summing_main) (0%nat, 0%nat) (71%nat, 1%nat)).
  { apply (walk_flow _ (repeat false 8 ++ [true])). vm_compute. reflexivity. }
  split; [exact Hr|].
  eapply (compiled_code_is_balanced [] no_draws (compiled_from summing) _ [] [] [] _ _ summing_main);
    [apply built_sample; vm_compute; reflexivity | vm_compute; reflexivity | left; reflexivity
    | exact summing_main_ok | vm_compute; reflexivity | exact Hr].
Defined.

(** The main stream of [folding], decoded. *)
Definition folding_main : list instr := Eval vm_compute in
  match decodeBoundaries (code_of folding) with
  | Some (starts, _) => omap (fun pos => fetch None (code_of folding) pos) starts
  | None => []
  end.

(** The exception is real.  [folding], whose assignment through a computed
    index breaks out of the loop around it from its value, compiles, and the code
    reaches the end of the loop with one operand (the loop's cursor) when the
    iterator is exhausted but with two when the [break] is taken: the left operand
    of the fold is not counted among the pending ones, so the pops before the jump
    leave one value too many and the pop that ends the loop takes that value
    instead of the cursor. *)
Theorem folded_break_unbalances :
  (compileProgram [] no_draws (program_fuel folding) folding (New [])).1 = Accept tt /\
  encode folding_main = code_of folding /\
  well_formed false folding = true /\ well_formed true folding = false /\
  exists end_, at_ folding_main end_ (Instr OpPop []) /\
    rtc (flow folding_main) (0%nat, 0%nat) (end_, 1%nat) /\ rtc (flow folding_main) (0%nat, 0%nat) (end_, 2%nat).
Proof.
  repeat (split; [vm_compute; reflexivity|]). exists 85%nat.
  split; [apply instr_at_sound; vm_compute; reflexivity|]. split.
  - apply (walk_flow _ (repeat false 8 ++ [true])). vm_compute. reflexivity.
  - apply (walk_flow _ (repeat false 22 ++ [true])). vm_compute. reflexivity.
Qed.
