(* ===== verification/FrontEnd.v ===== *)
(** * From text to bytecode

    The parser and the code generator together: what the parser gives when it
    reports nothing is what the code generator expects ([grammatical] implies
    [well_formed], and nothing is missing: [whole]), so a text goes all the way to streams the machine can read or
    is refused with a diagnostic. *)

From stdpp Require Import base list list_numbers numbers gmap strings pretty.
From Stdlib Require Import ZArith Lia.
From S2P Require Import Prelude Code Stream LineTable Polymorphic Padding Mutation StackTyping Text Lexer Paths Module.
From S2P Require Import Float64 Sha256 Object SymbolTable Ast Parser ParserLogic ParserFacts.
From S2P Require Import Compiler CompilerLogic CompilerFacts Holes.

(** A part of a list is no deeper than the list says. *)
Lemma deepest_in {A} (d : A -> nat) l n a : (deepest d l <= n)%nat -> In a l -> (d a <= n)%nat.
Proof. intros Hd%deepest_le Ha. rewrite Forall_forall in Hd. by apply Hd, list_elem_of_In. Qed.

Lemma forallb_deep {A} (f g : A -> bool) (d : A -> nat) l n :
  (deepest d l <= n)%nat -> (forall a, (d a <= n)%nat -> f a = true -> g a = true) -> forallb f l = true -> forallb g l = true.
Proof.
  intros Hd Hi. rewrite !forallb_forall. intros Hf a Ha. apply Hi; [by eapply deepest_in | by apply Hf].
Qed.

Ltac parts := repeat match goal with
  | H : (_ && _)%bool = true |- _ => apply andb_true_iff in H; destruct H
  | |- (_ && _)%bool = true => apply andb_true_iff; split
  end.

(** Go through a tree of the grammar: each part is one too. *)
Ltac grammar :=
  let n := fresh "n" in
  intros n; induction n as [|n (IHe & IHs & IHb)];
  [split; [|split]; [intros []|intros ? []|intros []]; cbn; intros; lia|];
  split; [|split];
  [ intros [|p e]; cbn [expr_depth expr_ok sound_expr whole_expr]; [done|]; intros Hd%le_S_n Hok;
    destruct e; cbn [expression_depth expression_ok sound_expression whole_expression] in *; try done; parts;
      try (apply IHe; [lia|done]); try (apply IHb; [lia|done]);
      try (eapply forallb_deep; [|exact IHe|done]; lia);
    [ eapply (forallb_deep _ _ _ _ n); [exact Hd| |done]; intros [k v] Hx Hy; cbn [fst snd] in *; parts; apply IHe; (lia || done)
    | match goal with |- match ?o with _ => _ end = true => destruct o end; [apply IHb; [lia|done] | done]
    | eapply (forallb_deep _ _ (fun a => Nat.max (deepest expr_depth a.1) (block_depth a.2)) _ n); [lia| |eassumption];
      intros [pats b] Hx Hy; cbn [fst snd] in *; parts; [|apply IHb; [lia|done]];
      eapply (forallb_deep _ _ expr_depth _ n); [lia| |eassumption]; intros; apply IHe; [done|]; by apply pattern_expr
    | first [ done
            | eapply (forallb_deep _ _ _ _ n); [exact Hd| |done]; intros [k v] Hx Hy; cbn [fst snd] in *; by apply IHe ] ..]
  | intros top [p s]; cbn [statement_depth statement_ok sound_statement whole_statement]; intros Hd%le_S_n Hok;
    destruct s; cbn [stmt_depth stmt_ok sound_stmt whole_stmt] in *; try done; parts; try done;
      try (apply IHe; [lia|done]); try (apply IHb; [lia|done]);
      try (eapply forallb_deep; [|exact IHe|done]; lia);
    match goal with |- match ?o with _ => _ end = true => destruct o end; try done; eauto with lia
  | intros [p l]; cbn [block_depth block_ok sound_block whole_block]; intros Hd%le_S_n Hok;
    eapply (forallb_deep _ _ _ _ n); [exact Hd| |exact Hok]; intros s; apply IHs ].

(** Trees of the grammar are trees the code generator compiles, and whole. *)
Lemma ok_sound : forall n,
  (forall e, (expr_depth e <= n)%nat -> expr_ok e = true -> sound_expr false e = true) /\
  (forall top s, (statement_depth s <= n)%nat -> statement_ok top s = true -> sound_statement false s = true) /\
  (forall b, (block_depth b <= n)%nat -> block_ok b = true -> sound_block false b = true).
Proof. grammar. Qed.

Lemma ok_whole : forall n,
  (forall e, (expr_depth e <= n)%nat -> expr_ok e = true -> whole_expr e = true) /\
  (forall top s, (statement_depth s <= n)%nat -> statement_ok top s = true -> whole_statement s = true) /\
  (forall b, (block_depth b <= n)%nat -> block_ok b = true -> whole_block b = true).
Proof. grammar. Qed.

Lemma grammatical_well_formed p : grammatical p = true -> well_formed false p = true.
Proof.
  unfold grammatical, well_formed. rewrite !forallb_forall. intros Hg s Hs.
  destruct (ok_sound (statement_depth s)) as (_ & Hk & _). by apply (Hk true), Hg.
Qed.

Lemma grammatical_whole p : grammatical p = true -> whole p = true.
Proof.
  unfold grammatical, whole. rewrite !forallb_forall. intros Hg s Hs.
  destruct (ok_whole (statement_depth s)) as (_ & Hk & _). by apply (Hk true), Hg.
Qed.

(** What compiling a tree of the grammar ends in. *)
Lemma grammatical_compiles builtins draw c p :
  built false builtins draw c -> grammatical p = true ->
  match (compileProgram builtins draw (program_fuel p) p c).1 with
  | Accept _ | Overflow => True
  | Reject e => internal e = false
  | Crash | NoFuel => False
  end.
Proof.
  intros Hc Hg. eapply not_internal; [|by apply grammatical_whole].
  apply (compileProgram_wp false); [by apply grammatical_well_formed|by eapply built_idle].
Qed.

(* ------------------------------------------------------------------ *)
(** ** Theorem *)

(** C5: a text becomes code the machine can read, or is refused.  Compiling what
    the parser makes of a text it reports nothing about, into a compiler built by
    any sequence of lines, modules and programs, ends in code, in a refusal that is
    the program's fault (none of the errors the source words [internal: ...], a node
    missing where one was expected among them), or in the panic of [code.Make] on an operand too wide to
    encode; and every stream of the bytecode of a program that compiles is a
    sequence of instructions whose jumps land on instructions. *)
Theorem text_becomes_code `{Unicode} (builtins : list string) (draw : nat -> option Z) (c : Compiler) (text : list Z)
    (p : source) (q : Parser.Parser) :
  parse text = Some (p, q) -> errors q = [] -> built false builtins draw c ->
  match compileProgram builtins draw (program_fuel p) p c with
  | (Accept _, c') => forall file source spans bc c'', ByteCode_ file source spans c' = (Accept bc, c'') -> program_ok bc
  | (Overflow, _) => True
  | (Reject e, _) => internal e = false
  | (Crash, _) | (NoFuel, _) => False
  end.
Proof.
  intros Hp Hq Hc. destruct (gives_parse text) as (p' & q' & E & _ & Hg). simplify_eq.
  pose proof (compileProgram_wp false builtins draw p c (grammatical_well_formed p (Hg Hq)) (built_idle _ _ _ _ Hc)) as Hw.
  pose proof (grammatical_compiles builtins draw c p Hc (Hg Hq)) as Hi. unfold wp in Hw. destruct (compileProgram _ _ _ _ _) as [[] c']; try done.
  intros file source spans bc c'' Hb. pose proof (ByteCode_wp false file source spans c' Hw) as Hbc.
  unfold wp in Hbc. rewrite Hb in Hbc. destruct Hbc as [[Hm Hf] _]. split; [by eapply typed_stream_ok|].
  eapply Forall_impl; [exact Hf|]. intros [fn|] Hk; [eapply typed_stream_ok, Hk | done].
Qed.

Definition front_sample : list Z :=
  bytes "let total = 0; let add = fn(n) { total += n; total }; for (x in [1, 2]) { if (x > 1 && true) { break; } else { add(x); } }".

Definition front_tree : source * Parser.Parser :=
  Eval vm_compute in default (Source [] ∅ ∅ [] ∅, NewParser (Lexer.New []) 0) (parse front_sample).

Lemma text_becomes_code_witness :
  (compileProgram [] (fun _ => None) (program_fuel front_tree.1) front_tree.1 (New [])).1 = Accept tt /\
  match compileProgram [] (fun _ => None) (program_fuel front_tree.1) front_tree.1 (New []) with
  | (Accept _, c') => forall file source spans bc c'', ByteCode_ file source spans c' = (Accept bc, c'') -> program_ok bc
  | (Overflow, _) => True
  | (Reject e, _) => internal e = false
  | (Crash, _) | (NoFuel, _) => False
  end.
Proof.
  split; [vm_compute; reflexivity|].
  apply (text_becomes_code [] (fun _ => None) (New []) front_sample front_tree.1 front_tree.2);
    [vm_compute; reflexivity | vm_compute; reflexivity | apply built_new].
Defined.

(* ------------------------------------------------------------------ *)
(** ** The files of a program *)

(** A statement, as linking tells them apart. *)
Definition as_statement (s : statement) : Statement :=
  match s with
  | Stmt n (ImportStatement alias path) => Module.ImportStatement n (bytes <$> alias) (Some path)
  | s => OtherStatement s
  end.

Definition as_program (p : source) : Program :=
  Prog (as_statement <$> s_Statements p) (s_NodePositions p) (s_Comments p) (s_MacroExpansions p).

(** A name's bytes are the name. *)
Lemma of_bytes_bytes s : of_bytes (bytes s) = s.
Proof. induction s as [|c s IH]; [done|]. cbn. rewrite Nat2Z.id, Ascii.ascii_nat_embedding. f_equal. exact IH. Qed.

(** The program in the graph is the tree, statement by statement. *)
Lemma as_statement_inj : Inj (=) (=) as_statement.
Proof.
  intros [n s] [m t] E. destruct s, t; simplify_eq/=; try done. f_equal. f_equal.
  match goal with E : _ <$> ?a = _ <$> ?b |- ?a = ?b => destruct a, b end; simplify_eq/=; [|done].
  match goal with E : bytes _ = bytes _ |- _ => apply (f_equal of_bytes) in E; rewrite !of_bytes_bytes in E; congruence end.
Qed.

Lemma as_program_inj p q : as_program p = as_program q ->
  s_Statements p = s_Statements q /\ s_NodePositions p = s_NodePositions q /\ s_Comments p = s_Comments q /\
  s_MacroExpansions p = s_MacroExpansions q.
Proof.
  intros [= E1 E2 E3 E4]. split_and!; try done. exact (list_fmap_eq_inj as_statement as_statement_inj _ _ E1).
Qed.

(** [fmt.Sprintf] of [PositionedErrors]; the wording of the messages is an
    argument. *)
Definition positioned_text (wording : message -> string) (path : list Z) (e : option Position * message) : string :=
  match e with
  | (None, m) => wording m
  | (Some at_, m) =>
      ((if bool_decide (path = []) then "" else of_bytes path +:+ ":") +:+ pretty (Line at_) +:+ ":" +:+
       pretty (Column at_) +:+ ": " +:+ wording m)%string
  end.

(** The parser, as the module graph uses it. *)
Definition text_parser `{Unicode} (wording : message -> string) : Module.Parser := {|
  Module.ParseProgram text :=
    match parse text with
    | Some (p, _) => as_program p
    | None => Prog [] ∅ [] ∅
    end;
  Module.PositionedErrors text path :=
    match parse text with
    | Some (_, q) => positioned_text wording path <$> PositionedErrors q
    | None => []
    end |}.

Lemma positioned_nil messages typed : positioned messages typed = [] -> messages = [].
Proof. by destruct messages, typed. Qed.

(** C30: only programs of the grammar are linked.  When the files reachable from the
    entry file load, over the parser of this development, each of them was read
    whole, with nothing reported, into a tree of the grammar, with no node missing;
    the program in the graph is that tree (the statements with everything in them,
    the positions, the comments and the macro table); and compiling the tree, in a
    compiler built by any sequence of lines, modules and programs, gives code, or a
    refusal that is the program's fault, or the panic of [code.Make] on an operand
    too wide to encode, and nothing else. *)
Theorem loaded_files_are_grammatical `{Unicode} `{Host} (wording : message -> string) (searchPaths : list (list Z))
    (fuel : nat) (entry : list Z) (g : Graph) (m : Module) :
  @Load _ _ (text_parser wording) searchPaths fuel entry = Done g -> m ∈ Modules g ->
  exists p q, parse (m_Source m) = Some (p, q) /\ errors q = [] /\ grammatical p = true /\ whole p = true /\
    m_Program m = as_program p /\
    (forall p', m_Program m = as_program p' ->
       s_Statements p' = s_Statements p /\ s_NodePositions p' = s_NodePositions p /\ s_Comments p' = s_Comments p /\
       s_MacroExpansions p' = s_MacroExpansions p) /\
    forall builtins draw c, built false builtins draw c ->
      match (compileProgram builtins draw (program_fuel p) p c).1 with
      | Accept _ | Overflow => True
      | Reject e => internal e = false
      | Crash | NoFuel => False
      end.
Proof.
  intros HL Hm. apply list_elem_of_lookup in Hm as [i Hi].
  destruct (proj2 (Load_modules searchPaths fuel entry g HL) i m Hi) as [(_ & _ & Ep & Ee) _].
  destruct (gives_parse (m_Source m)) as (p & q & E & _ & Hg). cbn in Ep, Ee. rewrite E in Ep, Ee.
  apply fmap_nil_inv, positioned_nil in Ee. exists p, q. specialize (Hg Ee).
  split; [done|]. split; [done|]. split; [done|]. split; [by apply grammatical_whole|]. split; [done|].
  split; [intros p' Ep'; apply as_program_inj; by rewrite <- Ep, <- Ep'|].
  intros builtins draw c Hc. by apply grammatical_compiles.
Qed.

(** [import lib "lib/a.mut"; lib.f(1);] over [let f = fn(x) { x + 1 };]. *)
Definition import_text : list Z :=
  bytes "import lib " ++ [cQuote] ++ bytes "lib/a.mut" ++ [cQuote] ++ bytes "; lib.f(1);".

Definition text_files : list (list Z * list Z) :=
  [(bytes "/p/main.mut", import_text); (bytes "/p/lib/a.mut", bytes "let f = fn(x) { x + 1 };")].

Definition text_host : Host := {|
  Getwd := Some (bytes "/p");
  fileExists p := bool_decide (p ∈ text_files.*1);
  ReadFile p := (fun r => r.2.2) <$> list_find (fun f => f.1 = p) text_files
|}.

Definition quiet_wording (_ : message) : string := "".

Definition text_graph : Graph :=
  match @Load _ text_host (text_parser quiet_wording) [] 3 (bytes "main.mut") with
  | Done g => g
  | _ => G [] (Module.Mod [] [] [] (Prog [] ∅ [] ∅) [])
  end.

Lemma loaded_files_are_grammatical_witness :
  Display <$> Modules text_graph = [bytes "lib/a.mut"; bytes "main.mut"] /\
  exists p q, parse (m_Source (Entry text_graph)) = Some (p, q) /\ errors q = [] /\ grammatical p = true /\
    whole p = true /\ m_Program (Entry text_graph) = as_program p /\
    (forall p', m_Program (Entry text_graph) = as_program p' ->
       s_Statements p' = s_Statements p /\ s_NodePositions p' = s_NodePositions p /\ s_Comments p' = s_Comments p /\
       s_MacroExpansions p' = s_MacroExpansions p) /\
    forall builtins draw c, built false builtins draw c ->
      match (compileProgram builtins draw (program_fuel p) p c).1 with
      | Accept _ | Overflow => True
      | Reject e => internal e = false
      | Crash | NoFuel => False
      end.
Proof.
  split; [vm_compute; reflexivity|].
  apply (@loaded_files_are_grammatical _ text_host quiet_wording [] 3 (bytes "main.mut") text_graph (Entry text_graph)).
  - vm_compute. reflexivity.
  - apply list_elem_of_lookup. exists 1%nat. vm_compute. reflexivity.
Defined.
