(* ===== verification/HashOrder.v ===== *)
(** * The order of a hash

    [src/object/hash_sorted_pairs.go] and [hashKeyLess] of [hashObj.go]: the
    order in which a hash is printed, looped over and listed.  The pairs live in
    a Go map, which a [range] visits in a different order every time, so the
    claim is that the order is a function of the pairs alone.  Also the cursor
    of a [for] loop, [src/object/iterator.go]. *)

From stdpp Require Import base list list_numbers numbers sorting.
From Stdlib Require Import ZArith Lia.
From S2P Require Import Prelude Lexer Index Polymorphic Float64 Sha256 Object.

(* ------------------------------------------------------------------ *)
(** ** Loop cursors *)

(** [Iterator]. *)
Record IteratorState : Type := Iter {
  it_Keys : list Object; it_Values : list Object; it_Index : Z; KeyIsPrimary : bool }.

(** [Iterator.Primary]. *)
Definition Primary (it : IteratorState) (key value : Object) : Object :=
  if KeyIsPrimary it then key else value.

(** [Iterator.Next]: the next pair and the cursor behind it. *)
Definition Next (it : IteratorState) : outcome (option (Object * Object * IteratorState)) :=
  if zlen (it_Values it) <=? it_Index it then Ret None
  else
    match it_Keys it !! Z.to_nat (it_Index it), it_Values it !! Z.to_nat (it_Index it) with
    | Some key, Some value =>
        Ret (Some (key, value,
          Iter (it_Keys it) (it_Values it) (it_Index it + 1) (KeyIsPrimary it)))
    | _, _ => Panic
    end.

Definition index_keys {A : Type} (l : list A) : list Object :=
  imap (fun i _ => Integer (Z.of_nat i)) l.

(** [NewIterator]. *)
Definition NewIterator `{Rendering} (over : Object) : option IteratorState :=
  match over with
  | Array elements => Some (Iter (index_keys elements) elements 0 false)
  | Hash pairs =>
      let pairs := SortedPairs pairs in
      Some (Iter pairs.*1 pairs.*2 0 true)
  | Str s => Some (Iter (index_keys (runes s)) ((fun r => Str (encodeRune r)) <$> runes s) 0 false)
  | Bytes s _ => Some (Iter (index_keys s) (Integer <$> s) 0 false)
  | _ => None
  end.

(* ------------------------------------------------------------------ *)
(** ** Comparisons as total orders *)

Lemma bytes_compare_eq a b : bytes_compare a b = Eq <-> a = b.
Proof.
  revert b. induction a as [|x a IH]; intros [|y b]; simpl; try (split; done).
  destruct (Z.compare_spec x y) as [->|?|?].
  - rewrite IH. split; congruence.
  - split; [done|intros [= -> ->]; lia].
  - split; [done|intros [= -> ->]; lia].
Qed.

Lemma bytes_compare_antisym a b : bytes_compare b a = CompOpp (bytes_compare a b).
Proof.
  revert b. induction a as [|x a IH]; intros [|y b]; simpl; try done.
  rewrite (Z.compare_antisym x y). by destruct (x ?= y); simpl.
Qed.

Lemma bytes_compare_trans a b c :
  bytes_compare a b = Lt -> bytes_compare b c = Lt -> bytes_compare a c = Lt.
Proof.
  revert b c. induction a as [|x a IH]; intros [|y b] [|z c]; simpl; try done.
  destruct (Z.compare_spec x y) as [->|Hxy|?], (Z.compare_spec y z) as [->|Hyz|?]; try done.
  - by apply IH.
  - intros _ _. by rewrite (proj2 (Z.compare_lt_iff _ _) Hxy).
  - intros _ _. by rewrite (proj2 (Z.compare_lt_iff x z)) by lia.
Qed.

Lemma bytes_lt_spec a b : bytes_lt a b = true <-> bytes_compare a b = Lt.
Proof. unfold bytes_lt. by destruct (bytes_compare a b). Qed.

(** Two comparisons one after the other. *)
Definition pair_compare (a b : list Z * list Z) : comparison :=
  match bytes_compare a.1 b.1 with Eq => bytes_compare a.2 b.2 | c => c end.

Lemma pair_compare_eq a b : pair_compare a b = Eq <-> a = b.
Proof.
  unfold pair_compare. destruct a as [a1 a2], b as [b1 b2]. simpl.
  destruct (bytes_compare a1 b1) eqn:E; [apply bytes_compare_eq in E as ->|..].
  - rewrite bytes_compare_eq. split; congruence.
  - split; [done|]. intros [= -> ->]. by rewrite (proj2 (bytes_compare_eq b1 b1)) in E.
  - split; [done|]. intros [= -> ->]. by rewrite (proj2 (bytes_compare_eq b1 b1)) in E.
Qed.

Lemma pair_compare_antisym a b : pair_compare b a = CompOpp (pair_compare a b).
Proof.
  unfold pair_compare. rewrite (bytes_compare_antisym a.1 b.1), (bytes_compare_antisym a.2 b.2).
  by destruct (bytes_compare a.1 b.1).
Qed.

Lemma pair_compare_trans a b c :
  pair_compare a b = Lt -> pair_compare b c = Lt -> pair_compare a c = Lt.
Proof.
  unfold pair_compare. intros Hab Hbc.
  destruct (bytes_compare a.1 b.1) eqn:E1; [apply bytes_compare_eq in E1 as ->| |done];
  destruct (bytes_compare b.1 c.1) eqn:E2; try done.
  - by eapply bytes_compare_trans.
  - apply bytes_compare_eq in E2 as <-. by rewrite E1.
  - by rewrite (bytes_compare_trans _ _ _ E1 E2).
Qed.

(* ------------------------------------------------------------------ *)
(** ** Sorting *)

Section Sorting.
Context {A : Type} (cmp : A -> A -> comparison).

Lemma insert_sorted_perm x l : Permutation (insert_sorted cmp x l) (x :: l).
Proof.
  induction l as [|y l IH]; simpl; [done|]. destruct (cmp x y); [done|done|].
  rewrite IH. apply perm_swap.
Qed.

Lemma sort_cmp_perm l : Permutation (sort_cmp cmp l) l.
Proof. induction l as [|x l IH]; simpl; [done|]. by rewrite insert_sorted_perm, IH. Qed.

Lemma insert_sorted_ext cmp' x l :
  (forall y, y ∈ l -> cmp x y = cmp' x y) -> insert_sorted cmp x l = insert_sorted cmp' x l.
Proof.
  induction l as [|y l IH]; intros H; simpl; [done|].
  rewrite (H y) by (by left). destruct (cmp' x y); [done..|].
  f_equal. apply IH. intros z Hz. apply H. by right.
Qed.

Lemma sort_cmp_ext cmp' l :
  (forall x y, x ∈ l -> y ∈ l -> cmp x y = cmp' x y) -> sort_cmp cmp l = sort_cmp cmp' l.
Proof.
  induction l as [|x l IH]; intros H; simpl; [done|].
  rewrite IH by (intros; apply H; by right).
  apply insert_sorted_ext. intros y Hy. apply H; [by left|]. right.
  assert (Permutation (sort_cmp cmp' l) l) as Hp.
  { clear. induction l as [|x l IH]; simpl; [done|].
    rewrite <- IH at 2. generalize (sort_cmp cmp' l). intros k.
    induction k as [|y k IHk]; simpl; [done|]. destruct (cmp' x y); [done|done|].
    rewrite IHk. apply perm_swap. }
  by rewrite <- Hp.
Qed.

Definition before (x y : A) : Prop := cmp x y <> Gt.

Hypothesis cmp_antisym : forall x y, cmp y x = CompOpp (cmp x y).
Hypothesis cmp_trans : forall x y z, before x y -> before y z -> before x z.

Lemma insert_sorted_sorted x l :
  StronglySorted before l -> StronglySorted before (insert_sorted cmp x l).
Proof.
  induction 1 as [|y l Hl IH Hy]; simpl; [repeat constructor|].
  destruct (cmp x y) eqn:E.
  1,2: constructor; [by constructor|]; constructor; [unfold before; congruence|];
       eapply Forall_impl; [exact Hy|]; intros z Hz; eapply cmp_trans; [|exact Hz]; unfold before; congruence.
  constructor; [done|]. rewrite insert_sorted_perm. constructor; [|done].
  unfold before. by rewrite cmp_antisym, E.
Qed.

Lemma sort_cmp_sorted l : StronglySorted before (sort_cmp cmp l).
Proof. induction l as [|x l IH]; simpl; [constructor|by apply insert_sorted_sorted]. Qed.

(** Where the order tells all the elements apart, sorting forgets the order of
    its argument. *)
Lemma sort_cmp_unique l k :
  Permutation l k -> (forall x y, x ∈ l -> y ∈ l -> cmp x y = Eq -> x = y) ->
  sort_cmp cmp l = sort_cmp cmp k.
Proof.
  intros Hp Heq. eapply (StronglySorted_unique_strong before).
  - intros x y Hx Hy Hxy Hyx. apply Heq.
    + by rewrite <- (sort_cmp_perm l).
    + by rewrite Hp, <- (sort_cmp_perm k).
    + unfold before in *. rewrite (cmp_antisym x y) in Hyx. by destruct (cmp x y).
  - apply sort_cmp_sorted.
  - apply sort_cmp_sorted.
  - by rewrite !sort_cmp_perm.
Qed.
End Sorting.

(* ------------------------------------------------------------------ *)
(** ** The key order is a total order *)

(** A float key's place: numbers by value, the zeros apart, then NaNs by bits. *)
Definition float_code (b : Z) : list Z :=
  if IsNaN b then [1; b] else [0; frank b; if Signbit b then 0 else 1].

Definition key_code (o : Object) : list Z :=
  match o with
  | Integer n => [n]
  | Float b => float_code b
  | Boolean b => [if b then 1 else 0]
  | Str s => s
  | Bytes s _ => s
  | _ => []
  end.

(** What a key object holds is what its Go type can hold. *)
Definition key_ok (o : Object) : Prop :=
  match o with
  | Integer n => is_i64 n
  | Float b => is_u64 b
  | Boolean _ | Str _ | Bytes _ _ => True
  | _ => False
  end.

Lemma floatKeyLess_code l r :
  floatKeyLess l r = true <-> bytes_compare (float_code l) (float_code r) = Lt.
Proof.
  unfold floatKeyLess, float_code.
  destruct (IsNaN l) eqn:Nl, (IsNaN r) eqn:Nr; simpl; try (split; done).
  - rewrite Z.ltb_lt. destruct (Z.compare_spec l r); split; try done; lia.
  - unfold feqb, fltb, SpecFloat.SFeqb, SpecFloat.SFltb. rewrite SFcompare_frank by done.
    destruct (Z.compare_spec (frank l) (frank r)); simpl; [|split; done..].
    by destruct (Signbit l), (Signbit r).
Qed.

Lemma float_code_inj l r : is_u64 l -> is_u64 r -> float_code l = float_code r -> l = r.
Proof.
  intros Ul Ur. unfold float_code. destruct (IsNaN l) eqn:Nl, (IsNaN r) eqn:Nr; try done.
  - by intros [= ->].
  - intros [= Hf Hs]. apply frank_inj; try done. by destruct (Signbit l), (Signbit r).
Qed.

Lemma key_less_code a ta b tb :
  key_ok a -> key_ok b ->
  key_less a ta b tb = true <->
  pair_compare (type_name (Type_ a), key_code a) (type_name (Type_ b), key_code b) = Lt.
Proof.
  intros Ha Hb. unfold key_less, pair_compare. cbn [fst snd].
  case_bool_decide as Ht; simpl.
  - rewrite Ht, (proj2 (bytes_compare_eq _ _)) by done.
    destruct a, b; simpl in *; try done.
    + rewrite Z.ltb_lt. destruct (Z.compare_spec Value Value0); split; try done; lia.
    + apply floatKeyLess_code.
    + by destruct Value, Value0.
    + apply bytes_lt_spec.
    + apply bytes_lt_spec.
  - rewrite bytes_lt_spec. destruct a, b; simpl in *; done.
Qed.

(** A place belongs to one key. *)
Lemma key_code_inj a b ka kb :
  key_ok a -> key_ok b -> hash_key a = Some ka -> hash_key b = Some kb ->
  (type_name (Type_ a), key_code a) = (type_name (Type_ b), key_code b) -> ka = kb.
Proof.
  intros Ha Hb Hka Hkb [= Ht Hc].
  destruct a, b; simpl in *; try done; simplify_eq; try done.
  - f_equal. by apply float_code_inj.
  - by destruct Value, Value0.
Qed.

(** A hash: one entry per key, each under the key of its key object. *)
Record pairs_ok (pairs : list (HashKey * (Object * Object))) : Prop := {
  pairs_nodup : NoDup pairs.*1;
  pairs_keyed : forall k a b, (k, (a, b)) ∈ pairs -> key_ok a /\ hash_key a = Some k }.

Lemma pairs_ok_perm p q : Permutation p q -> pairs_ok p -> pairs_ok q.
Proof. intros Hp [H1 H2]. split; [by rewrite <- Hp|]. intros k a b. rewrite <- Hp. apply H2. Qed.

Definition place (o : Object) : list Z * list Z := (type_name (Type_ o), key_code o).

Definition place_compare (a b : entry) : comparison := pair_compare (place a.1.2.1) (place b.1.2.1).

Lemma place_compare_trans a b c :
  before place_compare a b -> before place_compare b c -> before place_compare a c.
Proof.
  unfold before, place_compare. intros H1 H2.
  destruct (pair_compare (place a.1.2.1) _) eqn:E1 in H1; try done;
  destruct (pair_compare (place b.1.2.1) _) eqn:E2 in H2; try done.
  - apply pair_compare_eq in E1, E2. rewrite E1, E2. by rewrite (proj2 (pair_compare_eq _ _)).
  - apply pair_compare_eq in E1. by rewrite E1, E2.
  - apply pair_compare_eq in E2. by rewrite <- E2, E1.
  - by rewrite (pair_compare_trans _ _ _ E1 E2).
Qed.

(** On the entries of a hash the comparison the sort is given is the order of
    their places, which tells entries of different keys apart. *)
Lemma entry_compare_place x y :
  key_ok x.1.2.1 -> key_ok y.1.2.1 ->
  hash_key x.1.2.1 = Some x.1.1 -> hash_key y.1.2.1 = Some y.1.1 ->
  entry_compare x y = place_compare x y.
Proof.
  destruct x as [[kx [ox vx]] tx], y as [[ky [oy vy]] ty]. simpl. intros Hx Hy Kx Ky.
  unfold entry_compare, place_compare. cbn [fst snd].
  pose proof (key_less_code ox tx oy ty Hx Hy) as H1.
  pose proof (key_less_code oy ty ox tx Hy Hx) as H2.
  fold (place ox) (place oy) in *. rewrite (pair_compare_antisym (place ox)) in H2.
  destruct (key_less ox tx oy ty); [by rewrite (proj1 H1)|].
  destruct (key_less oy ty ox tx).
  { specialize (proj1 H2 eq_refl). by destruct (pair_compare (place ox) (place oy)). }
  destruct (pair_compare (place ox) (place oy)) eqn:E; [|by discriminate (proj2 H1)|by discriminate (proj2 H2)].
  apply pair_compare_eq in E. rewrite (key_code_inj ox oy kx ky) by done.
  unfold compareHashKeys. by rewrite (proj2 (bytes_compare_eq _ _)), Z.compare_refl,
    (proj2 (bytes_compare_eq _ _)).
Qed.

Lemma NoDup_fmap_same {A B} (f : A -> B) (l : list A) x y :
  NoDup (f <$> l) -> x ∈ l -> y ∈ l -> f x = f y -> x = y.
Proof.
  intros Hd [i Hi]%list_elem_of_lookup [j Hj]%list_elem_of_lookup Hf.
  assert (i = j) as ->; [|congruence].
  apply (NoDup_lookup (f <$> l) i j (f x) Hd); rewrite list_lookup_fmap; [by rewrite Hi|].
  by rewrite Hj, Hf.
Qed.

(** Sorting what carries the entries of a hash forgets the order they came in. *)
Lemma sort_entries_unique {E} (proj : E -> entry) (l k : list E) :
  Permutation l k ->
  (forall x, x ∈ l -> key_ok (proj x).1.2.1 /\ hash_key (proj x).1.2.1 = Some (proj x).1.1) ->
  NoDup ((fun x => (proj x).1.1) <$> l) ->
  sort_cmp (fun x y => entry_compare (proj x) (proj y)) l =
  sort_cmp (fun x y => entry_compare (proj x) (proj y)) k.
Proof.
  intros Hp Hok Hd.
  assert (Hext : forall m, Permutation l m ->
    sort_cmp (fun x y => entry_compare (proj x) (proj y)) m =
    sort_cmp (fun x y => place_compare (proj x) (proj y)) m).
  { intros m Hm. apply sort_cmp_ext. intros x y Hx Hy. rewrite <- Hm in Hx, Hy.
    apply entry_compare_place; by apply Hok. }
  rewrite !Hext by done. apply sort_cmp_unique.
  - intros. apply pair_compare_antisym.
  - intros x y z. apply (place_compare_trans (proj x) (proj y) (proj z)).
  - done.
  - intros x y Hx Hy He%pair_compare_eq. destruct (Hok x Hx), (Hok y Hy).
    eapply (NoDup_fmap_same (fun x => (proj x).1.1) l); try done.
    eapply key_code_inj; [| | | |exact He]; done.
Qed.

Section Definite.
Context {R : Rendering}.

Lemma SortedPairs_perm p q : Permutation p q -> pairs_ok p -> SortedPairs p = SortedPairs q.
Proof.
  intros Hp [Hd Hk]. unfold SortedPairs. f_equal.
  apply (sort_entries_unique (fun e : entry => e)); [by rewrite Hp|..].
  - intros x (y & -> & Hy)%list_elem_of_fmap. destruct y as [k [a b]]. by apply Hk in Hy.
  - by rewrite <- list_fmap_compose.
Qed.

Lemma SortedPairs_pairs p : Permutation (SortedPairs p) p.*2.
Proof. unfold SortedPairs. rewrite sort_cmp_perm, <- list_fmap_compose. done. Qed.

Lemma Inspect_hash_perm p q : Permutation p q -> pairs_ok p -> Inspect (Hash p) = Inspect (Hash q).
Proof.
  intros Hp [Hd Hk]. cbn [Inspect]. do 3 f_equal. f_equal.
  apply (sort_entries_unique (fun e : entry * list Z => e.1)); [by rewrite Hp|..].
  - intros x (y & -> & Hy)%list_elem_of_fmap. destruct y as [k [a b]]. by apply Hk in Hy.
  - rewrite <- list_fmap_compose. erewrite list_fmap_ext; [exact Hd|]. by intros ? [? [? ?]] _.
Qed.

(** The sorted list is sorted: keys of one type by value, of two types by name. *)
Lemma SortedPairs_sorted p :
  pairs_ok p -> StronglySorted (fun x y => hashKeyLess y.1 x.1 = false) (SortedPairs p).
Proof.
  intros [Hd Hk]. unfold SortedPairs.
  assert (Hok : forall x, x ∈ ((fun p : HashKey * (Object * Object) => (p, Inspect p.2.1)) <$> p) ->
    key_ok x.1.2.1 /\ hash_key x.1.2.1 = Some x.1.1 /\ x.2 = Inspect x.1.2.1).
  { intros x (y & -> & Hy)%list_elem_of_fmap. destruct y as [k [a b]]. apply Hk in Hy. naive_solver. }
  rewrite (sort_cmp_ext _ place_compare) by
    (intros x y Hx Hy; destruct (Hok x Hx) as (? & ? & _), (Hok y Hy) as (? & ? & _);
     by apply entry_compare_place).
  pose proof (sort_cmp_sorted place_compare ltac:(intros; apply pair_compare_antisym)
    place_compare_trans ((fun p : HashKey * (Object * Object) => (p, Inspect p.2.1)) <$> p)) as Hs.
  pose proof (sort_cmp_perm place_compare
    ((fun p : HashKey * (Object * Object) => (p, Inspect p.2.1)) <$> p)) as Hperm.
  assert (Hok' : forall x, x ∈ sort_cmp place_compare
    ((fun p : HashKey * (Object * Object) => (p, Inspect p.2.1)) <$> p) -> key_ok x.1.2.1).
  { intros x Hx. rewrite Hperm in Hx. by apply Hok. }
  clear Hperm Hok. induction Hs as [|x l Hl IH Hx]; [constructor|].
  rewrite fmap_cons. constructor; [apply IH; intros; apply Hok'; by right|].
  rewrite Forall_fmap. rewrite Forall_forall in Hx |- *. intros y Hy. specialize (Hx y Hy).
  unfold hashKeyLess. apply not_true_is_false. intros Hlt.
  apply key_less_code in Hlt; [|apply (Hok' y); by right|apply (Hok' x); by left].
  unfold before, place_compare, place in Hx. rewrite pair_compare_antisym, Hlt in Hx. done.
Qed.

(** C34: a hash has one order.  Whatever order a range over the Go map delivers
    the entries in, [SortedPairs] lists the same pairs in the same order, all of
    them and no others, sorted by [hashKeyLess]; printing the hash and looping
    over it give the same text and the same cursor.  Every Integer, Float
    (NaNs and the two zeros included), String, Boolean and Bytes key is
    covered. *)
Theorem hash_order_is_definite p q :
  pairs_ok p -> Permutation p q ->
  SortedPairs p = SortedPairs q /\ Permutation (SortedPairs p) p.*2 /\
  StronglySorted (fun x y => hashKeyLess y.1 x.1 = false) (SortedPairs p) /\
  Inspect (Hash p) = Inspect (Hash q) /\ NewIterator (Hash p) = NewIterator (Hash q).
Proof.
  intros Hok Hp. split_and!.
  - by apply SortedPairs_perm.
  - apply SortedPairs_pairs.
  - by apply SortedPairs_sorted.
  - by apply Inspect_hash_perm.
  - cbn [NewIterator]. by rewrite (SortedPairs_perm p q).
Qed.
End Definite.

#[local] Instance no_cells : Rendering := {| cell_text _ := [] |}.

Definition sample_pairs : list (HashKey * (Object * Object)) :=
  [(Key FLOAT_OBJ 0 [], (Float 0, Integer 1));
   (Key FLOAT_OBJ signBit [], (Float signBit, Integer 2));
   (Key STRING_OBJ 0 [98], (Str [98], Integer 3));
   (Key FLOAT_OBJ 0x7FF8000000000001 [], (Float 0x7FF8000000000001, Integer 4))].

Lemma hash_order_is_definite_witness :
  SortedPairs (rev sample_pairs) =
  [(Float signBit, Integer 2); (Float 0, Integer 1); (Float 0x7FF8000000000001, Integer 4);
   (Str [98], Integer 3)].
Proof.
  assert (Hok : pairs_ok sample_pairs).
  { split; [by apply (bool_decide_eq_true_1 (NoDup _))|].
    intros k a b H. unfold sample_pairs in H.
    repeat (apply elem_of_cons in H as [[= -> -> ->]|H]; [split; [simpl; unfold is_u64, signBit; lia|done]|]).
    by apply elem_of_nil in H. }
  destruct (hash_order_is_definite sample_pairs (rev sample_pairs) Hok) as (<- & _).
  - symmetry. apply Permutation_rev.
  - vm_compute. reflexivity.
Defined.
