(* ===== verification/Numeric.v ===== *)
(** * Numbers: [src/object/infix.go] and [src/object/numeric_order.go]

    The arithmetic, comparison and bitwise operators on INTEGER and FLOAT that
    the evaluator and the web REPL share, and the exact order of mixed numbers
    that [sort_by] uses.  Integers are 64 bits wide and wrap; a shift count may
    be any [int64]. *)

From stdpp Require Import base list numbers strings.
From Stdlib Require Import ZArith Lia SpecFloat.
From S2P Require Import Prelude Polymorphic Float64 Object.

(* ------------------------------------------------------------------ *)
(** ** Operators *)

Definition infixError (msg : list Z) : Object := Error (Info msg [] [] 0 0 0 0 [] []) [].

(** [numericToFloat]; the assertion panics on any other type. *)
Definition numericToFloat (o : Object) : outcome Z :=
  match o with
  | Integer n => Ret (of_int n)
  | Float b => Ret b
  | _ => Panic
  end.

(** The operator is the one spelled so. *)
Definition is_op (operator : list Z) (s : string) : bool := bool_decide (operator = bytes s).

(** [IsBitwiseOperator]. *)
Definition IsBitwiseOperator (operator : list Z) : bool :=
  is_op operator "&" || is_op operator "|" || is_op operator "^" ||
  is_op operator "<<" || is_op operator ">>".

(** [BitwiseOperandError]. *)
Definition BitwiseOperandError (operator : list Z) (left right : Object) : Object :=
  infixError (bytes "bitwise operator " ++ operator ++ bytes " requires INTEGER operands, got " ++
              type_name (Type_ left) ++ bytes " and " ++ type_name (Type_ right)).

(** Go's [l << uint64(r)] and [l >> uint64(r)] for a count of zero or more. *)
Definition shift_left (l r : Z) : Z := if 64 <=? r then 0 else i64 (Z.shiftl l r).
Definition shift_right (l r : Z) : Z :=
  if 64 <=? r then (if l <? 0 then -1 else 0) else Z.shiftr l r.

Definition negative_shift (r : Z) : Object :=
  infixError (bytes "negative shift count: " ++ decimal r).

(** [BitwiseInfix]. *)
Definition BitwiseInfix (operator : list Z) (l r : Z) : Object :=
  if is_op operator "&" then Integer (Z.land l r)
  else if is_op operator "|" then Integer (Z.lor l r)
  else if is_op operator "^" then Integer (Z.lxor l r)
  else if is_op operator "<<" then
    if r <? 0 then negative_shift r else Integer (shift_left l r)
  else if is_op operator ">>" then
    if r <? 0 then negative_shift r else Integer (shift_right l r)
  else infixError (bytes "unknown bitwise operator: " ++ operator).

(** [BitwiseNot]. *)
Definition BitwiseNot (operand : Object) : Object :=
  match operand with
  | Integer n => Integer (Z.lnot n)
  | Nil => infixError (bytes "bitwise complement requires an INTEGER, got NULL")
  | _ => infixError (bytes "bitwise complement requires an INTEGER, got " ++ type_name (Type_ operand))
  end.

(** [integerInfix]. *)
Definition integerInfix (operator : list Z) (l r : Z) : Object :=
  if IsBitwiseOperator operator then BitwiseInfix operator l r
  else if is_op operator "+" then Integer (i64 (l + r))
  else if is_op operator "-" then Integer (i64 (l - r))
  else if is_op operator "*" then Integer (i64 (l * r))
  else if is_op operator "/" then
    if r =? 0 then infixError (bytes "integer division by zero") else Integer (i64 (Z.quot l r))
  else if is_op operator "%" then
    if r =? 0 then infixError (bytes "integer modulo by zero") else Integer (i64 (Z.rem l r))
  else if is_op operator "<" then Boolean (l <? r)
  else if is_op operator ">" then Boolean (r <? l)
  else if is_op operator "<=" then Boolean (l <=? r)
  else if is_op operator ">=" then Boolean (r <=? l)
  else if is_op operator "==" then Boolean (l =? r)
  else if is_op operator "!=" then Boolean (negb (l =? r))
  else infixError (bytes "unknown operator: INTEGER " ++ operator ++ bytes " INTEGER").

Section Floats.
Context {F : Fpu}.

(** [floatInfix]. *)
Definition floatInfix (operator : list Z) (l r : Z) : Object :=
  if is_op operator "+" then Float (fadd l r)
  else if is_op operator "-" then Float (fsub l r)
  else if is_op operator "*" then Float (fmul l r)
  else if is_op operator "/" then Float (fdiv l r)
  else if is_op operator "%" then Float (Mod l r)
  else if is_op operator "<" then Boolean (fltb l r)
  else if is_op operator ">" then Boolean (fltb r l)
  else if is_op operator "<=" then Boolean (fleb l r)
  else if is_op operator ">=" then Boolean (fleb r l)
  else if is_op operator "==" then Boolean (feqb l r)
  else if is_op operator "!=" then Boolean (negb (feqb l r))
  else infixError (bytes "unknown operator: FLOAT " ++ operator ++ bytes " FLOAT").

(** [NumericInfix]. *)
Definition NumericInfix (operator : list Z) (left right : Object) : outcome Object :=
  let ints := bool_decide (Type_ left = INTEGER_OBJ) && bool_decide (Type_ right = INTEGER_OBJ) in
  if IsBitwiseOperator operator && negb ints then Ret (BitwiseOperandError operator left right)
  else
    match left, right with
    | Integer l, Integer r => Ret (integerInfix operator l r)
    | _, _ =>
        let! l := numericToFloat left in
        let! r := numericToFloat right in
        Ret (floatInfix operator l r)
    end.
End Floats.

(* ------------------------------------------------------------------ *)
(** ** Exact order *)

Definition twoPow63Float : Z := 0x43E0000000000000.

(** [compareIntFloat]. *)
Definition compareIntFloat (a b : Z) : Z * bool :=
  if IsNaN b then (0, false)
  else if fleb twoPow63Float b then (-1, true)
  else if fltb b (fneg twoPow63Float) then (1, true)
  else
    let whole := Floor b in
    let ib := to_int whole in
    if a <? ib then (-1, true)
    else if ib <? a then (1, true)
    else if fltb whole b then (-1, true)
    else (0, true).

(** [CompareNumeric]. *)
Definition CompareNumeric (a b : Object) : Z * bool :=
  match a, b with
  | Integer x, Integer y =>
      if x <? y then (-1, true) else if y <? x then (1, true) else (0, true)
  | Integer x, Float y => compareIntFloat x y
  | Float x, Integer y => let '(c, ok) := compareIntFloat y x in (- c, ok)
  | Float x, Float y =>
      if IsNaN x || IsNaN y then (0, false)
      else if fltb x y then (-1, true)
      else if fltb y x then (1, true)
      else (0, true)
  | _, _ => (0, false)
  end.

(** [objectKeyLess] of [src/vm/higher_order.go]: the order [sort_by] sorts by,
    or the error it stops with. *)
Definition objectKeyLess (a b : Object) : bool + Object :=
  if IsNumeric a && IsNumeric b then
    let '(c, ok) := CompareNumeric a b in inl (ok && (c <? 0))
  else
    match a, b with
    | Str x, Str y => inl (bytes_lt x y)
    | Bytes x _, Bytes y _ => inl (bytes_lt x y)
    | _, _ => inr (infixError (bytes "sort_by: cannot compare keys of type " ++
                               type_name (Type_ a) ++ bytes " and " ++ type_name (Type_ b)))
    end.

Example compare_above_2_53 :
  CompareNumeric (Integer (2 ^ 53 + 1)) (Float (of_int (2 ^ 53))) = (1, true).
Proof. vm_compute. reflexivity. Qed.

(* ------------------------------------------------------------------ *)
(** ** Exactness *)

(** A number is what its Go type can hold. *)
Definition num_ok (o : Object) : Prop :=
  match o with
  | Integer n => is_i64 n
  | Float b => is_u64 b
  | _ => True
  end.

(** The exact place of a number in units of [2 ^ -1074]; a NaN and what is not a
    number have none. *)
Definition unit_scale : Z := 2 ^ 1074.

Definition rank (o : Object) : option Z :=
  match o with
  | Integer n => Some (n * unit_scale)
  | Float b => if IsNaN b then None else Some (frank b)
  | _ => None
  end.

(** -1, 0 or 1. *)
Definition sign_of (c : comparison) : Z := match c with Lt => -1 | Eq => 0 | Gt => 1 end.

Lemma fltb_frank a b :
  IsNaN a = false -> IsNaN b = false -> fltb a b = (frank a <? frank b).
Proof.
  intros. unfold fltb, SFltb. rewrite SFcompare_frank by done. unfold Z.ltb.
  by destruct (frank a ?= frank b).
Qed.

Lemma fleb_frank a b :
  IsNaN a = false -> IsNaN b = false -> fleb a b = (frank a <=? frank b).
Proof.
  intros. unfold fleb, SFleb. rewrite SFcompare_frank by done. unfold Z.leb.
  by destruct (frank a ?= frank b).
Qed.

Lemma feqb_frank a b :
  IsNaN a = false -> IsNaN b = false -> feqb a b = (frank a =? frank b).
Proof.
  intros. unfold feqb, SFeqb. rewrite SFcompare_frank by done.
  destruct (Z.compare_spec (frank a) (frank b)) as [->|?|?]; symmetry;
    [apply Z.eqb_refl|apply Z.eqb_neq; lia..].
Qed.

Lemma frank_twoPow63 :
  frank twoPow63Float = 2 ^ 63 * unit_scale /\ frank (fneg twoPow63Float) = - 2 ^ 63 * unit_scale.
Proof. split; vm_compute; reflexivity. Qed.

Lemma unit_scale_pos : 0 < unit_scale.
Proof. reflexivity. Qed.

#[local] Opaque unit_scale.

Lemma compareIntFloat_exact a b :
  is_i64 a -> is_u64 b ->
  compareIntFloat a b =
    if IsNaN b then (0, false) else (sign_of (a * unit_scale ?= frank b), true).
Proof.
  intros Ha Hb. unfold compareIntFloat. destruct (IsNaN b) eqn:Nb; [done|].
  pose proof unit_scale_pos as Hu. destruct frank_twoPow63 as [H63 H63']. unfold is_i64 in Ha.
  rewrite fleb_frank, fltb_frank, H63, H63' by done.
  destruct (Z.leb_spec (2 ^ 63 * unit_scale) (frank b)) as [Hge|Hlt].
  { rewrite (proj2 (Z.compare_lt_iff _ _)); [done|]. nia. }
  destruct (Z.ltb_spec (frank b) (- 2 ^ 63 * unit_scale)) as [Hlow|Hin].
  { rewrite (proj2 (Z.compare_gt_iff _ _)); [done|]. nia. }
  assert (Hfin : is_finite b = true).
  { destruct (classes b) as [(? & _)|[(_ & Ib & _)|(_ & _ & ?)]]; [congruence| |done].
    unfold frank in Hlt, Hin. rewrite Ib in Hlt, Hin. pose proof infRank_big as Hbig.
    change (2 ^ 1074) with unit_scale in Hbig. destruct (Signbit b); lia. }
  rewrite (frank_finite b Hfin) in *.
  destruct (Floor_spec b Hb Hfin) as (Hfu & Hff & Hfs & ->). change (2 ^ 1074) with unit_scale in *.
  pose proof (Z.div_mod (scaled b) unit_scale ltac:(lia)) as Hdiv.
  pose proof (Z.mod_pos_bound (scaled b) unit_scale Hu) as Hmod.
  rewrite fltb_frank, !frank_finite, Hfs;
    [|done|done| |done]; [|by destruct (classes (Floor b)) as [(_ & _ & ?)|[(? & _)|(? & _)]]; congruence].
  set (fl := scaled b / unit_scale) in *.
  destruct (Z.ltb_spec a fl); [rewrite (proj2 (Z.compare_lt_iff _ _)); [done|nia]|].
  destruct (Z.ltb_spec fl a); [rewrite (proj2 (Z.compare_gt_iff _ _)); [done|nia]|].
  assert (a = fl) as -> by lia.
  destruct (Z.ltb_spec (fl * unit_scale) (scaled b)).
  - by rewrite (proj2 (Z.compare_lt_iff _ _)).
  - by rewrite (proj2 (Z.compare_eq_iff _ _)) by lia.
Qed.

(** Comparing is comparing ranks. *)
Lemma CompareNumeric_rank a b :
  num_ok a -> num_ok b ->
  CompareNumeric a b =
    match rank a, rank b with
    | Some x, Some y => (sign_of (x ?= y), true)
    | _, _ => (0, false)
    end.
Proof.
  pose proof unit_scale_pos as Hu.
  intros Ha Hb. destruct a as [|x|x| | | | | | | | | | | | | | | | | | | | ]; try done;
    destruct b as [|y|y| | | | | | | | | | | | | | | | | | | | ]; try done; simpl in *; try (by destruct (IsNaN x)).
  - rewrite <- Zmult_compare_compat_r by lia.
    destruct (Z.compare_spec x y), (Z.ltb_spec x y), (Z.ltb_spec y x); done || lia.
  - rewrite compareIntFloat_exact by done. by destruct (IsNaN y).
  - rewrite compareIntFloat_exact by done. destruct (IsNaN x); [done|].
    rewrite (Z.compare_antisym (frank x)). by destruct (frank x ?= y * unit_scale).
  - destruct (IsNaN x) eqn:Nx; [done|]. destruct (IsNaN y) eqn:Ny; [done|]. simpl.
    rewrite !fltb_frank by done.
    destruct (Z.compare_spec (frank x) (frank y)), (Z.ltb_spec (frank x) (frank y)),
      (Z.ltb_spec (frank y) (frank x)); done || lia.
Qed.

(** Mixed numbers are ordered exactly.  For any two 64-bit integers and
    floats, [CompareNumeric] answers the order of their exact values, with no
    rounding anywhere (above [2 ^ 53] included), infinities beyond everything,
    the two zeros equal; it declines exactly for a NaN or for what is no number.
    The order [sort_by] sorts numeric keys by is this one. *)
Theorem numeric_order_exact a b :
  num_ok a -> num_ok b ->
  CompareNumeric a b =
    match rank a, rank b with
    | Some x, Some y => (sign_of (x ?= y), true)
    | _, _ => (0, false)
    end /\
  (IsNumeric a = true -> IsNumeric b = true ->
   objectKeyLess a b =
     inl match rank a, rank b with Some x, Some y => x <? y | _, _ => false end).
Proof.
  intros Ha Hb. split; [by apply CompareNumeric_rank|]. intros Na Nb.
  unfold objectKeyLess. rewrite Na, Nb, CompareNumeric_rank by done. simpl.
  destruct (rank a) as [x|], (rank b) as [y|]; try done. unfold Z.ltb. by destruct (x ?= y).
Qed.

Lemma numeric_order_exact_witness :
  CompareNumeric (Float (of_int (2 ^ 53))) (Integer (2 ^ 53 + 1)) = (-1, true) /\
  objectKeyLess (Float (of_int (2 ^ 53))) (Integer (2 ^ 53 + 1)) = inl true.
Proof.
  destruct (numeric_order_exact (Float (of_int (2 ^ 53))) (Integer (2 ^ 53 + 1)))
    as [-> H]; [vm_compute; intuition discriminate|vm_compute; intuition discriminate|].
  rewrite H by reflexivity. split; vm_compute; reflexivity.
Defined.

(* ------------------------------------------------------------------ *)
(** ** Integers *)

Lemma is_i64_shiftr z : is_i64 z <-> Z.shiftr z 63 = 0 \/ Z.shiftr z 63 = -1.
Proof.
  unfold is_i64. rewrite Z.shiftr_div_pow2 by lia. split.
  - intros Hz. destruct (Z.leb_spec 0 z); [left; apply Z.div_small; lia|right].
    symmetry. apply (Z.div_unique _ _ _ (z + 2 ^ 63)); lia.
  - pose proof (Z.div_mod z (2 ^ 63) ltac:(lia)). pose proof (Z.mod_pos_bound z (2 ^ 63) ltac:(lia)). lia.
Qed.

Lemma i64_bitwise (f : Z -> Z -> Z) l r :
  (forall n, Z.shiftr (f l r) n = f (Z.shiftr l n) (Z.shiftr r n)) ->
  (forall a b, (a = 0 \/ a = -1) -> (b = 0 \/ b = -1) -> f a b = 0 \/ f a b = -1) ->
  is_i64 l -> is_i64 r -> is_i64 (f l r).
Proof.
  intros Hf Hc Hl%is_i64_shiftr Hr%is_i64_shiftr. apply is_i64_shiftr. rewrite Hf. by apply Hc.
Qed.

Lemma land_i64 l r : is_i64 l -> is_i64 r -> is_i64 (Z.land l r).
Proof. apply i64_bitwise; [intros; apply Z.shiftr_land|intros ?? [->| ->] [->| ->]; auto]. Qed.
Lemma lor_i64 l r : is_i64 l -> is_i64 r -> is_i64 (Z.lor l r).
Proof. apply i64_bitwise; [intros; apply Z.shiftr_lor|intros ?? [->| ->] [->| ->]; auto]. Qed.
Lemma lxor_i64 l r : is_i64 l -> is_i64 r -> is_i64 (Z.lxor l r).
Proof. apply i64_bitwise; [intros; apply Z.shiftr_lxor|intros ?? [->| ->] [->| ->]; auto]. Qed.
Lemma lnot_i64 z : is_i64 z -> is_i64 (Z.lnot z).
Proof. unfold is_i64. pose proof (Z.add_lnot_diag z). lia. Qed.

Lemma shift_right_i64 l r : is_i64 l -> 0 <= r -> is_i64 (shift_right l r).
Proof.
  intros Hl Hr. unfold shift_right. destruct (Z.leb_spec 64 r); [bcases; by split|].
  unfold is_i64 in *. rewrite Z.shiftr_div_pow2 by lia.
  assert (0 < 2 ^ r) by (apply Z.pow_pos_nonneg; lia).
  split; [apply Z.div_le_lower_bound; nia|apply Z.div_lt_upper_bound; nia].
Qed.

Lemma shift_left_i64 l r : is_i64 (shift_left l r).
Proof. unfold shift_left. bcases; [by split|apply i64_range]. Qed.

(** A shift moves by any count: multiplication and floor division by the power
    of two, on 64 bits. *)
Lemma shift_left_spec l r : 0 <= r -> shift_left l r = i64 (l * 2 ^ r).
Proof.
  intros Hr. unfold shift_left. destruct (Z.leb_spec 64 r); [|by rewrite Z.shiftl_mul_pow2].
  change 0 with (i64 0). apply i64_mod. replace r with (64 + (r - 64)) by lia.
  rewrite Z.pow_add_r, Z.mul_assoc, (Z.mul_comm l), <- Z.mul_assoc, Z.mul_comm, Z.mod_mul by lia. done.
Qed.

Lemma shift_right_spec l r : is_i64 l -> 0 <= r -> shift_right l r = l / 2 ^ r.
Proof.
  unfold is_i64. intros Hl Hr. unfold shift_right.
  destruct (Z.leb_spec 64 r); [|by rewrite Z.shiftr_div_pow2].
  assert (2 ^ 64 <= 2 ^ r) by (apply Z.pow_le_mono_r; lia).
  destruct (Z.ltb_spec l 0).
  - apply (Z.div_unique _ _ _ (l + 2 ^ r)); lia.
  - symmetry. apply Z.div_small. lia.
Qed.

#[export] Hint Resolve land_i64 lor_i64 lxor_i64 lnot_i64 shift_right_i64 shift_left_i64 : mutant.

Lemma bitwise_spellings operator :
  IsBitwiseOperator operator = true <->
  operator ∈ [bytes "&"; bytes "|"; bytes "^"; bytes "<<"; bytes ">>"].
Proof.
  unfold IsBitwiseOperator, is_op. rewrite !orb_true_iff, !bool_decide_eq_true.
  rewrite !elem_of_cons, elem_of_nil. tauto.
Qed.

(** The arms of [integerInfix] that have a guard. *)
Lemma division l r :
  integerInfix (bytes "/") l r =
  if r =? 0 then infixError (bytes "integer division by zero") else Integer (i64 (Z.quot l r)).
Proof. reflexivity. Qed.
Lemma modulo l r :
  integerInfix (bytes "%") l r =
  if r =? 0 then infixError (bytes "integer modulo by zero") else Integer (i64 (Z.rem l r)).
Proof. reflexivity. Qed.
Lemma left_shift l r :
  integerInfix (bytes "<<") l r = if r <? 0 then negative_shift r else Integer (shift_left l r).
Proof. reflexivity. Qed.
Lemma right_shift l r :
  integerInfix (bytes ">>") l r = if r <? 0 then negative_shift r else Integer (shift_right l r).
Proof. reflexivity. Qed.

(** Integer operators compute on 64 bits.  For every pair of [int64]s:
    addition, subtraction, multiplication and left shift by any count are the
    mathematical result modulo [2 ^ 64], right shift is floor division by the
    power of two, division truncates and with the remainder rebuilds the
    dividend, the bitwise operators act on every bit; division or modulo by
    zero and a negative count are errors, and nothing else is. *)
Theorem integer_operators l r :
  is_i64 l -> is_i64 r ->
  integerInfix (bytes "+") l r = Integer (i64 (l + r)) /\
  integerInfix (bytes "-") l r = Integer (i64 (l - r)) /\
  integerInfix (bytes "*") l r = Integer (i64 (l * r)) /\
  (if r =? 0 then
     integerInfix (bytes "/") l r = infixError (bytes "integer division by zero") /\
     integerInfix (bytes "%") l r = infixError (bytes "integer modulo by zero")
   else exists q m,
     integerInfix (bytes "/") l r = Integer q /\ integerInfix (bytes "%") l r = Integer m /\
     i64 (q * r + m) = l /\ Z.abs m < Z.abs r /\ 0 <= m * l) /\
  (if r <? 0 then
     integerInfix (bytes "<<") l r = negative_shift r /\ integerInfix (bytes ">>") l r = negative_shift r
   else
     integerInfix (bytes "<<") l r = Integer (i64 (l * 2 ^ r)) /\
     integerInfix (bytes ">>") l r = Integer (l / 2 ^ r)) /\
  (forall spelling f, (spelling, f) ∈ [("&", andb); ("|", orb); ("^", xorb)]%string ->
     exists z, integerInfix (bytes spelling) l r = Integer z /\
       forall i, 0 <= i -> Z.testbit z i = f (Z.testbit l i) (Z.testbit r i)).
Proof.
  intros Hl Hr. split_and!; [done..| | |].
  - destruct (Z.eqb_spec r 0) as [->|Hr0]; [done|].
    exists (i64 (Z.quot l r)), (i64 (Z.rem l r)).
    assert (Hrem : i64 (Z.rem l r) = Z.rem l r).
    { apply i64_id. unfold is_i64 in *. pose proof (Z.rem_bound_abs l r Hr0). lia. }
    split_and!.
    + rewrite division. by rewrite (proj2 (Z.eqb_neq _ _) Hr0).
    + rewrite modulo. by rewrite (proj2 (Z.eqb_neq _ _) Hr0).
    + rewrite Hrem. transitivity (i64 l); [|by apply i64_id].
      rewrite (Z.quot_rem l r) at 3 by done. apply i64_mod. unfold i64.
      rewrite (Z.mul_comm r), Z.add_mod, Z.mul_mod by lia.
      rewrite (Z.add_mod (Z.quot l r * r)), (Z.mul_mod (Z.quot l r)) by lia.
      do 4 f_equal. rewrite Zminus_mod_idemp_l. f_equal. lia.
    + rewrite Hrem. by apply Z.rem_bound_abs.
    + rewrite Hrem. by apply Z.rem_sign_mul.
  - rewrite left_shift, right_shift. destruct (Z.ltb_spec r 0) as [Hn|Hn].
    + done.
    + by rewrite shift_left_spec, shift_right_spec.
  - intros sp f Hf. rewrite !elem_of_cons, elem_of_nil in Hf.
    destruct Hf as [[= -> ->]|[[= -> ->]|[[= -> ->]|[]]]]; eexists; (split; [reflexivity|]); intros i _;
    [apply Z.land_spec|apply Z.lor_spec|apply Z.lxor_spec].
Qed.

Lemma integer_operators_witness :
  integerInfix (bytes "/") (- 2 ^ 63) (-1) = Integer (- 2 ^ 63) /\
  integerInfix (bytes "+") (2 ^ 63 - 1) 1 = Integer (- 2 ^ 63) /\
  integerInfix (bytes ">>") (-8) 70 = Integer (-1).
Proof.
  split_and!.
  - reflexivity.
  - destruct (integer_operators (2 ^ 63 - 1) 1 ltac:(by split) ltac:(by split)) as [-> _]. reflexivity.
  - destruct (integer_operators (-8) 70 ltac:(by split) ltac:(by split)) as (_ & _ & _ & _ & [_ ->] & _).
    reflexivity.
Defined.

(* ------------------------------------------------------------------ *)
(** ** Types *)

Definition IsArithmeticOperator (operator : list Z) : bool :=
  is_op operator "+" || is_op operator "-" || is_op operator "*" || is_op operator "/" ||
  is_op operator "%".

Definition IsComparisonOperator (operator : list Z) : bool :=
  is_op operator "<" || is_op operator ">" || is_op operator "<=" || is_op operator ">=" ||
  is_op operator "==" || is_op operator "!=".

(** The type an operator gives on numbers of two types. *)
Definition infix_type (operator : list Z) (l r : ObjectType) : ObjectType :=
  let ints := bool_decide (l = INTEGER_OBJ) && bool_decide (r = INTEGER_OBJ) in
  if IsBitwiseOperator operator then if ints then INTEGER_OBJ else ERROR_OBJ
  else if IsComparisonOperator operator then BOOLEAN_OBJ
  else if IsArithmeticOperator operator then if ints then INTEGER_OBJ else FLOAT_OBJ
  else ERROR_OBJ.

(** The integer operands an operator refuses. *)
Definition refused (operator : list Z) (left right : Object) : Prop :=
  exists r, right = Integer r /\ Type_ left = INTEGER_OBJ /\
    (((operator = bytes "/" \/ operator = bytes "%") /\ r = 0) \/
     ((operator = bytes "<<" \/ operator = bytes ">>") /\ r < 0)).

Section Typing.
Context {F : Fpu}.

Lemma fop_u64 f a b : is_u64 (fop f a b).
Proof. apply pack_u64, nan_of_nan. Qed.

Lemma integerInfix_typed operator l r :
  is_i64 l -> is_i64 r ->
  num_ok (integerInfix operator l r) /\
  (Type_ (integerInfix operator l r) = infix_type operator INTEGER_OBJ INTEGER_OBJ \/
   Type_ (integerInfix operator l r) = ERROR_OBJ /\ refused operator (Integer l) (Integer r)).
Proof.
  intros Hl Hr.
  assert (Href : forall s, (s = "/" \/ s = "%")%string -> r = 0 ->
    refused (bytes s) (Integer l) (Integer r)).
  { intros s Hs ->. exists 0. split_and!; [done..|]. left. destruct Hs as [->| ->]; auto. }
  assert (Hshf : forall s, (s = "<<" \/ s = ">>")%string -> r < 0 ->
    refused (bytes s) (Integer l) (Integer r)).
  { intros s Hs ?. exists r. split_and!; [done..|]. right. destruct Hs as [->| ->]; auto. }
  unfold integerInfix, infix_type. destruct (IsBitwiseOperator operator) eqn:Eb.
  - apply bitwise_spellings in Eb. unfold BitwiseInfix. rewrite !elem_of_cons, elem_of_nil in Eb.
    destruct Eb as [->|[->|[->|[->|[->|[]]]]]]; simpl; auto with mutant;
      destruct (Z.ltb_spec r 0); simpl; auto with mutant; (split; [done|right; split; [done|]]);
      first [by apply (Hshf "<<"%string); auto | by apply (Hshf ">>"%string); auto].
  - unfold IsComparisonOperator, IsArithmeticOperator, is_op.
    repeat (case_bool_decide; [subst operator; simpl; auto with mutant|]); simpl; auto with mutant;
      destruct (Z.eqb_spec r 0); simpl; auto with mutant; (split; [done|right; split; [done|]]);
      first [by apply (Href "/"%string); auto | by apply (Href "%"%string); auto].
Qed.

Lemma floatInfix_typed operator l r lt rt :
  IsBitwiseOperator operator = false -> lt = FLOAT_OBJ \/ rt = FLOAT_OBJ ->
  num_ok (floatInfix operator l r) /\ Type_ (floatInfix operator l r) = infix_type operator lt rt.
Proof.
  intros Eb Ht. unfold floatInfix, infix_type. rewrite Eb.
  assert (bool_decide (lt = INTEGER_OBJ) && bool_decide (rt = INTEGER_OBJ) = false) as ->.
  { destruct Ht as [-> | ->]; [done|apply andb_false_r]. }
  unfold IsComparisonOperator, IsArithmeticOperator, is_op, fadd, fsub, fmul, fdiv, Mod.
  repeat (case_bool_decide; [subst operator; simpl; eauto using fop_u64|]); done.
Qed.

(** Numeric operators are typed.  On numbers the operator never panics, the
    result is a value its Go type can hold, and its type is the one [infix_type]
    gives: a bitwise operator needs two integers, a comparison gives a BOOLEAN,
    arithmetic stays in INTEGER or promotes to FLOAT; the only other answer is
    the error for a zero divisor or a negative shift count. *)
Theorem numeric_infix_typed operator left right :
  IsNumeric left = true -> IsNumeric right = true -> num_ok left -> num_ok right ->
  exists o, NumericInfix operator left right = Ret o /\ num_ok o /\
    (Type_ o = infix_type operator (Type_ left) (Type_ right) \/
     Type_ o = ERROR_OBJ /\ refused operator left right).
Proof.
  intros Nl Nr Hl Hr. unfold NumericInfix.
  destruct left as [|l|l| | | | | | | | | | | | | | | | | | | | ]; try done;
  destruct right as [|r|r| | | | | | | | | | | | | | | | | | | | ]; try done; cbn [Type_];
  destruct (IsBitwiseOperator operator) eqn:Eb; cbn [andb negb bool_decide decide_rel];
  try (eexists; split; [reflexivity|]; split; [done|]; left; unfold infix_type; by rewrite Eb).
  1,2: eexists; split; [reflexivity|]; by apply integerInfix_typed.
  all: eexists; split; [reflexivity|]; cbn [numericToFloat outcome_bind];
    match goal with |- context [floatInfix _ ?x ?y] => 
      match goal with |- context [infix_type _ ?a ?b] =>
        destruct (floatInfix_typed operator x y a b Eb ltac:(auto)) end end; auto.
Qed.
End Typing.

#[local] Existing Instance quiet_fpu.

Lemma numeric_infix_typed_witness :
  exists o, NumericInfix (bytes "%") (Float 0x4014000000000000) (Integer 3) = Ret o /\
    Type_ o = FLOAT_OBJ /\ o = Float 0x4000000000000000.
Proof.
  destruct (numeric_infix_typed (bytes "%") (Float 0x4014000000000000) (Integer 3))
    as (o & Ho & _ & [Ht|[_ (r & [= <-] & Hty & _)]]); [done|done|by split|by split| |done].
  exists o. split; [done|]. split; [by rewrite Ht|]. vm_compute in Ho. congruence.
Defined.
