(* ===== verification/Equality.v ===== *)
(** * Equality of values: [src/object/equality.go]

    [ValuesEqual] with the [Equals] methods it calls ([struct.go],
    [errorObj.go]) and [SameFunction] and [HoldsFunction]
    ([closure_identity.go]); [JoinClassification] of [bytesObj.go].  The engines
    reach it from [==], and the builtins from [contains], [index_of] and
    [assert_eq]. *)

From stdpp Require Import base list list_numbers numbers strings.
From Stdlib Require Import ZArith Lia SpecFloat.
From S2P Require Import Prelude Polymorphic Float64 Object HashOrder Numeric.

(* ------------------------------------------------------------------ *)
(** ** Definitions *)

(** Two maps with as many entries, every entry of the first in the second. *)
Definition maps_equal {K A : Type} `{EqDecision K} (equal : A -> A -> bool) (m n : list (K * A)) : bool :=
  (length m =? length n)%nat &&
  forallb (fun p => match map_get p.1 n with Some w => equal p.2 w | None => false end) m.

(** Two slices of one length, element by element. *)
Fixpoint slices_equal {A : Type} (equal : A -> A -> bool) (l k : list A) : bool :=
  match l, k with
  | [], [] => true
  | x :: l, y :: k => equal x y && slices_equal equal l k
  | _, _ => false
  end.

(** [Closure.SameFunction]: one pointer, or one identity.  A closure not made by
    [NewClosure] has no identity, so only the pointer can make it the same. *)
Definition SameFunction (pointer : bool) (c d : option nat) : bool :=
  pointer ||
  match c, d with
  | Some i, Some j => (i =? j)%nat
  | _, _ => false
  end.

Section Equality.
Context {R : Rendering}.

(** Values have no addresses here, so the comparison is told which closures met in
    its two operands are the [same] object in memory. *)
Context (same : Object -> Object -> bool).

(** [ValuesEqual], with [Struct.Equals] and [Error.Equals]. *)
Fixpoint ValuesEqual (a b : Object) {struct a} : bool :=
  match a, b with
  | Nil, Nil => true
  | Nil, _ | _, Nil => false
  | Integer x, Integer y => x =? y
  | Float x, Float y => feqb x y
  | Str x, Str y => bool_decide (x = y)
  | Boolean x, Boolean y => eqb x y
  | Null, Null => true
  | Bytes x _, Bytes y _ => bool_decide (x = y)
  | Struct n _ f, Struct n' _ f' => bool_decide (n = n') && maps_equal ValuesEqual f f'
  | EnumValue n t _, EnumValue n' t' _ => bool_decide (n = n') && bool_decide (t = t')
  | Error i r, Error i' r' =>
      bool_decide (Message i = Message i') && bool_decide (Context i = Context i') &&
      maps_equal ValuesEqual r r'
  | Closure _ _ i, Closure _ _ j => SameFunction (same a b) i j
  | Array l, Array k => slices_equal ValuesEqual l k
  | Hash p, Hash q => maps_equal (fun x y => ValuesEqual x.2 y.2) p q
  | BuiltIn x, BuiltIn y => (x =? y)%nat
  | Other KFunction x _, Other KFunction y _ => (x =? y)%nat
  | _, _ => bool_decide (Type_ a = Type_ b) && bool_decide (Inspect a = Inspect b)
  end.

End Equality.

(** No closure of the one operand is an object of the other: the machine opens
    every operand anew, and opening rebuilds each closure. *)
Definition apart (_ _ : Object) : bool := false.

(** What being one object in memory has to it: it is an equivalence where it holds,
    and one object has one identity. *)
Record addresses (same : Object -> Object -> bool) : Prop := {
  same_sym x y : same x y = true -> same y x = true;
  same_trans x y z : same x y = true -> same y z = true -> same x z = true;
  same_identity f l i g k j : same (Closure f l i) (Closure g k j) = true -> i = j }.

(** [HoldsFunction]. *)
Fixpoint HoldsFunction (o : Object) : bool :=
  match o with
  | Closure _ _ _ | Other KFunction _ _ | BuiltIn _ => true
  | Array l => existsb HoldsFunction l
  | Hash p => existsb (fun e => HoldsFunction e.2.2) p
  | Struct _ _ f => existsb (fun e => HoldsFunction e.2) f
  | Error _ r => existsb (fun e => HoldsFunction e.2) r
  | _ => false
  end.

(** [JoinClassification]: the tags of both marks, each once, with its label. *)
Fixpoint join_tags (acc : list (list Z) * list (list Z)) (tags labels : list (list Z)) :
    list (list Z) * list (list Z) :=
  match tags with
  | [] => acc
  | tag :: tags =>
      let label := default [] (head labels) in
      join_tags
        (if bool_decide (tag ∈ acc.1) then acc else (acc.1 ++ [tag], acc.2 ++ [label]))
        tags (tail labels)
  end.

Definition JoinClassification (fresh : nat) (a b : option Classification) : option Classification :=
  match a, b with
  | None, _ => b
  | _, None => a
  | Some x, Some y =>
      if (mark_addr x =? mark_addr y)%nat then a
      else
        let uid := if bool_decide (RecordUID y = RecordUID x) then RecordUID x
                   else RecordUID x ++ bytes " and " ++ RecordUID y in
        let '(tags, labels) := join_tags (join_tags ([], []) (Tags x) (Labels x)) (Tags y) (Labels y) in
        Some (Mark fresh uid tags labels)
  end.

(* ------------------------------------------------------------------ *)
(** ** Maps *)

Section MapFacts.
Context {K A : Type} `{EqDecision K}.
Implicit Types m n : list (K * A).

Lemma map_get_elem k a m : map_get k m = Some a -> (k, a) ∈ m.
Proof.
  induction m as [|[k' a'] m IH]; simpl; [done|]. destruct (decide (k = k')) as [->|].
  - intros [= ->]. by left.
  - intros H. right. by apply IH.
Qed.

Lemma elem_map_get k a m : NoDup m.*1 -> (k, a) ∈ m -> map_get k m = Some a.
Proof.
  induction m as [|[k' a'] m IH]; simpl; intros Hd H; [by apply elem_of_nil in H|].
  apply NoDup_cons in Hd as [Hk Hd]. apply elem_of_cons in H as [[= -> ->]|H].
  - by rewrite decide_True.
  - rewrite decide_False; [by apply IH|]. intros ->. apply Hk, list_elem_of_fmap. by exists (k', a).
Qed.

Lemma maps_equal_spec (E : A -> A -> bool) m n :
  maps_equal E m n = true <->
  length m = length n /\ forall k a, (k, a) ∈ m -> exists b, map_get k n = Some b /\ E a b = true.
Proof.
  unfold maps_equal. rewrite andb_true_iff, Nat.eqb_eq, forallb_forall.
  split; intros [Hl H]; (split; [done|]).
  - intros k a Hk%list_elem_of_In. specialize (H _ Hk). simpl in H. case_match; [eauto|done].
  - intros [k a] Hk%list_elem_of_In. destruct (H k a Hk) as (b & Hb & He). simpl. by rewrite Hb.
Qed.

(** Entries of one map that are all in the other are all there is, when the two
    are equally long. *)
Lemma maps_equal_back (E : A -> A -> bool) m n :
  NoDup m.*1 -> NoDup n.*1 -> maps_equal E m n = true ->
  forall k b, (k, b) ∈ n -> exists a, map_get k m = Some a /\ E a b = true.
Proof.
  intros Hm Hn [Hl H]%maps_equal_spec k b Hk.
  assert (Hsub : m.*1 ⊆ n.*1).
  { intros x (p & -> & Hp)%list_elem_of_fmap. destruct p as [x a]. destruct (H x a Hp) as (w & Hw & _).
    apply list_elem_of_fmap. exists (x, w). split; [done|]. by apply map_get_elem. }
  assert (Hperm : Permutation m.*1 n.*1).
  { apply submseteq_length_Permutation; [by apply NoDup_submseteq|]. rewrite !length_fmap. lia. }
  assert (Hin : k ∈ m.*1). { rewrite Hperm. apply list_elem_of_fmap. by exists (k, b). }
  apply list_elem_of_fmap in Hin as ([k' a] & ? & Hin). simpl in *. subst k'.
  exists a. split; [by apply elem_map_get|]. destruct (H k a Hin) as (w & Hw & He).
  rewrite (elem_map_get k b) in Hw by done. congruence.
Qed.
End MapFacts.

(* ------------------------------------------------------------------ *)
(** ** Well-formed objects *)

(** What a node holds is what its Go type can hold: numbers of their width, maps
    with one entry per key. *)
Definition node_ok (o : Object) : Prop :=
  match o with
  | Integer n => is_i64 n
  | Float b => is_u64 b
  | Hash p => pairs_ok p
  | Struct _ _ f => NoDup f.*1
  | Error _ r => NoDup r.*1
  | _ => True
  end.

Definition obj_ok : Object -> Prop := everywhere node_ok.

(** What [ValuesEqual] compares inside an object. *)
Definition parts (o : Object) : list Object :=
  match o with
  | Array l => l
  | Hash p => (fun e : HashKey * (Object * Object) => e.2.2) <$> p
  | Struct _ _ f | Error _ f => f.*2
  | _ => []
  end.

Lemma parts_children o : parts o ⊆ children o.
Proof.
  destruct o; simpl; try done; try (intros x Hx; by apply elem_of_nil in Hx).
  intros x (e & -> & He)%list_elem_of_fmap. apply list_elem_of_join.
  exists [e.2.1; e.2.2]. split; [by right; left|]. apply list_elem_of_fmap. by exists e.
Qed.

Lemma obj_ok_parts o : obj_ok o -> Forall obj_ok (parts o).
Proof.
  intros H%everywhere_below. rewrite Forall_forall in *. intros x Hx.
  by apply H, parts_children.
Qed.

Lemma parts_ind (P : Object -> Prop) :
  (forall o, Forall P (parts o) -> P o) -> forall o, P o.
Proof.
  intros H o. induction o as [o IH] using children_ind. apply H.
  rewrite Forall_forall in *. intros x Hx.
  by apply IH, parts_children.
Qed.

(** A value that holds something not equal to itself: a NaN and, between two
    copies, a closure without an identity. *)
Fixpoint holds_unequal (one : bool) (o : Object) : bool :=
  let holds_unequal := holds_unequal one in
  match o with
  | Float b => IsNaN b
  | Closure _ _ id => negb one && bool_decide (id = None)
  | Array l => existsb holds_unequal l
  | Hash p => existsb (fun e => holds_unequal e.2.2) p
  | Struct _ _ f => existsb (fun e => holds_unequal e.2) f
  | Error _ r => existsb (fun e => holds_unequal e.2) r
  | _ => false
  end.

Lemma feqb_refl b : feqb b b = negb (IsNaN b).
Proof.
  destruct (IsNaN b) eqn:Hn.
  - unfold feqb, SFeqb. by rewrite unpack_nan.
  - rewrite feqb_frank by done. apply Z.eqb_refl.
Qed.

Lemma feqb_true a b :
  feqb a b = true <-> IsNaN a = false /\ IsNaN b = false /\ frank a = frank b.
Proof.
  destruct (IsNaN a) eqn:Na; [|destruct (IsNaN b) eqn:Nb].
  - unfold feqb, SFeqb. rewrite (unpack_nan a) by done. simpl. split; [done|]. by intros [? _].
  - unfold feqb, SFeqb. rewrite (unpack_nan b) by done. split; [|by intros (_ & ? & _)].
    by destruct (unpack a) as [| | |].
  - rewrite feqb_frank, Z.eqb_eq by done. naive_solver.
Qed.

#[local] Opaque maps_equal.

Section Laws.
Context {R : Rendering} (same : Object -> Object -> bool) (same_ok : addresses same).
#[local] Notation ValuesEqual := (ValuesEqual same).

Lemma equal_same_type a b : ValuesEqual a b = true -> Type_ a = Type_ b.
Proof.
  destruct a, b; cbn [ValuesEqual Type_]; try done; try (intros [H _]%andb_true_iff; by apply bool_decide_eq_true in H).
  all: repeat match goal with k : evaluator_kind |- _ => destruct k end; try done;
    intros [H _]%andb_true_iff; by apply bool_decide_eq_true in H.
Qed.

(** Two objects of one type: the equations [ValuesEqual] has for them. *)
Ltac same_type a b H :=
  pose proof (equal_same_type a b H) as Ht; destruct a, b;
  try (discriminate Ht);
  try (repeat match goal with k : evaluator_kind |- _ => destruct k end; discriminate Ht);
  clear Ht; cbn [ValuesEqual] in *.

Lemma slices_equal_spec (E : Object -> Object -> bool) l k :
  slices_equal E l k = true <-> Forall2 (fun x y => E x y = true) l k.
Proof.
  revert k. induction l as [|x l IH]; intros [|y k]; simpl; split; try done; try (by inversion 1).
  - intros [H1 H2]%andb_true_iff. constructor; [done|]. by apply IH.
  - inversion 1; subst. apply andb_true_iff. split; [done|]. by apply IH.
Qed.

Lemma fallback_sym (P Q : Prop) `{Decision P} `{Decision Q} (P' Q' : Prop) `{Decision P'} `{Decision Q'} :
  (P -> P') -> (Q -> Q') -> bool_decide P && bool_decide Q = true -> bool_decide P' && bool_decide Q' = true.
Proof. rewrite !andb_true_iff, !bool_decide_eq_true. tauto. Qed.

Lemma equal_sym a b : obj_ok a -> obj_ok b -> ValuesEqual a b = true -> ValuesEqual b a = true.
Proof.
  revert b. induction a as [a IH] using parts_ind. intros b Ha Hb H.
  pose proof (obj_ok_parts _ Ha) as Hpa. pose proof (obj_ok_parts _ Hb) as Hpb.
  pose proof (everywhere_here _ _ Ha) as Na. pose proof (everywhere_here _ _ Hb) as Nb.
  assert (Hmap : forall {K} `{EqDecision K} {A} (val : A -> Object) (m n : list (K * A)),
    NoDup m.*1 -> NoDup n.*1 -> (forall k x, (k, x) ∈ m -> val x ∈ parts a) ->
    (forall k x, (k, x) ∈ n -> val x ∈ parts b) ->
    maps_equal (fun x y => ValuesEqual (val x) (val y)) m n = true ->
    maps_equal (fun x y => ValuesEqual (val x) (val y)) n m = true).
  { intros K ? A val m n Hm Hn Hma Hnb E. apply maps_equal_spec. split.
    { apply maps_equal_spec in E as [-> _]. done. }
    intros k y Hy. destruct (maps_equal_back _ _ _ Hm Hn E k y Hy) as (x & Hx & He).
    exists x. split; [done|]. apply map_get_elem, Hma in Hx. apply Hnb in Hy.
    rewrite Forall_forall in IH, Hpa, Hpb. by apply IH; auto. }
  clear Ha Hb. same_type a b H; try done.
  - by rewrite Z.eqb_sym.
  - apply feqb_true in H. apply feqb_true. naive_solver.
  - by destruct Value, Value0.
  - apply bool_decide_eq_true in H as ->. by apply bool_decide_eq_true.
  - apply bool_decide_eq_true in H as ->. by apply bool_decide_eq_true.
  - apply slices_equal_spec in H. apply slices_equal_spec. simpl in *. clear Hmap Na Nb.
    induction H as [|x y l k Hxy Hl IHl]; [constructor|].
    apply Forall_cons in IH as [IHx IH], Hpa as [Hx Hpa], Hpb as [Hy Hpb]. constructor; [by apply IHx|by apply IHl].
  - simpl in Na, Nb. apply (Hmap _ _ _ snd); try done; try apply Na; try apply Nb;
      intros k x Hx; apply list_elem_of_fmap; by exists (k, x).
  - apply andb_true_iff in H as [Hn H]. apply bool_decide_eq_true in Hn as ->.
    apply andb_true_iff. split; [by apply bool_decide_eq_true|].
    apply (Hmap _ _ _ (fun x => x)); try done; intros k x Hx; apply list_elem_of_fmap; by exists (k, x).
  - by eapply fallback_sym; [| |exact H].
  - apply andb_true_iff in H as [Hn H]. apply andb_true_iff. split.
    + by eapply fallback_sym; [| |exact Hn].
    + apply (Hmap _ _ _ (fun x => x)); try done; intros k x Hx; apply list_elem_of_fmap; by exists (k, x).
  - by eapply fallback_sym; [| |exact H].
  - by eapply fallback_sym; [| |exact H].
  - unfold SameFunction in *. apply orb_true_iff in H as [H|H]; [by rewrite (same_sym _ same_ok _ _ H)|].
    apply orb_true_iff. right. destruct id as [i|], id0 as [j|]; try done. by rewrite Nat.eqb_sym.
  - by rewrite Nat.eqb_sym.
  - by eapply fallback_sym; [| |exact H].
  - by eapply fallback_sym; [| |exact H].
  - by eapply fallback_sym; [| |exact H].
  - destruct kind, kind0; try done; first [by rewrite Nat.eqb_sym | by eapply fallback_sym; [| |exact H]].
Qed.

Lemma equal_trans a b c :
  obj_ok a -> obj_ok b -> obj_ok c ->
  ValuesEqual a b = true -> ValuesEqual b c = true -> ValuesEqual a c = true.
Proof.
  revert b c. induction a as [a IH] using parts_ind. intros b c Ha Hb Hc H1 H2.
  pose proof (obj_ok_parts _ Ha) as Hpa. pose proof (obj_ok_parts _ Hb) as Hpb.
  pose proof (obj_ok_parts _ Hc) as Hpc.
  rewrite Forall_forall in IH, Hpa, Hpb, Hpc.
  assert (Hmap : forall {K} `{EqDecision K} {A} (val : A -> Object) (m n o : list (K * A)),
    (forall k x, (k, x) ∈ m -> val x ∈ parts a) -> (forall k x, (k, x) ∈ n -> val x ∈ parts b) ->
    (forall k x, (k, x) ∈ o -> val x ∈ parts c) ->
    maps_equal (fun x y => ValuesEqual (val x) (val y)) m n = true ->
    maps_equal (fun x y => ValuesEqual (val x) (val y)) n o = true ->
    maps_equal (fun x y => ValuesEqual (val x) (val y)) m o = true).
  { intros K ? A val m n o Hm Hn Ho [L1 E1]%maps_equal_spec [L2 E2]%maps_equal_spec.
    apply maps_equal_spec. split; [congruence|]. intros k x Hx.
    destruct (E1 k x Hx) as (y & Hy & Hxy). apply map_get_elem in Hy.
    destruct (E2 k y Hy) as (z & Hz & Hyz). exists z. split; [done|]. apply map_get_elem in Hz.
    apply (IH (val x) (Hm k x Hx) (val y) (val z)); eauto. }
  pose proof (equal_same_type b c H2) as Hty. same_type a b H1; destruct c; try (discriminate Hty);
    try (repeat match goal with k : evaluator_kind |- _ => destruct k end; discriminate Hty); try done;
    cbn [ValuesEqual] in *;
    try (apply andb_true_iff in H1 as [H1 H1']); try (apply andb_true_iff in H2 as [H2 H2']);
    try (apply andb_true_iff; split);
    repeat match goal with
    | H : bool_decide _ = true |- _ => apply bool_decide_eq_true in H
    | |- bool_decide _ = true => apply bool_decide_eq_true
    end; try congruence.
  - breflect. apply Z.eqb_eq. congruence.
  - apply feqb_true in H1, H2. apply feqb_true. naive_solver congruence.
  - by destruct Value, Value0, Value1.
  - rewrite slices_equal_spec in *. simpl in *. clear Hmap Ha Hb Hc.
    revert Elements1 H2 Hpc. induction H1 as [|x y l k Hxy Hl IHl]; intros m H2 Hpc; inversion H2; subst; constructor.
    + eapply (IH x); [by left|apply Hpa; by left|apply Hpb; by left|apply Hpc; by left|done..].
    + apply IHl; [intros z Hz; apply (IH z); by right|intros z Hz; apply Hpa; by right
        |intros z Hz; apply Hpb; by right|done|intros z Hz; apply Hpc; by right].
  - eapply (Hmap _ _ _ snd); try done; intros k x Hx; apply list_elem_of_fmap; by exists (k, x).
  - eapply (Hmap _ _ _ (fun x => x)); try done; intros k x Hx; apply list_elem_of_fmap; by exists (k, x).
  - apply andb_true_iff in H1 as [H1 ?], H2 as [H2 ?]. apply andb_true_iff.
    repeat match goal with
    | H : bool_decide _ = true |- _ => apply bool_decide_eq_true in H
    end. rewrite !bool_decide_eq_true. split; congruence.
  - eapply (Hmap _ _ _ (fun x => x)); try done; intros k x Hx; apply list_elem_of_fmap; by exists (k, x).
  - unfold SameFunction in *. apply orb_true_iff in H1, H2. apply orb_true_iff.
    destruct H1 as [H1|H1], H2 as [H2|H2]; [left; by eapply same_trans|..];
      try (apply (same_identity _ same_ok) in H1; subst); try (apply (same_identity _ same_ok) in H2; subst); right; try done.
    destruct id as [i|], id0 as [j|], id1 as [k|]; try done. breflect. apply Nat.eqb_eq. congruence.
  - breflect. apply Nat.eqb_eq. congruence.
  - destruct kind, kind0, kind1; try done; breflect; try (apply Nat.eqb_eq; congruence);
      rewrite andb_true_iff, !bool_decide_eq_true in *; intuition congruence.
Qed.

(** What is not equal to itself: a NaN, or what holds one where equality looks. *)
Lemma equal_refl one a :
  (forall x, same x x = one) -> obj_ok a -> ValuesEqual a a = negb (holds_unequal one a).
Proof using Type.
  intros Hone.
  induction a as [a IH] using parts_ind. intros Ha.
  pose proof (obj_ok_parts _ Ha) as Hp. pose proof (everywhere_here _ _ Ha) as Hn.
  rewrite Forall_forall in IH, Hp.
  assert (Hmap : forall {K} `{EqDecision K} {A} (val : A -> Object) (m : list (K * A)),
    NoDup m.*1 -> (forall k x, (k, x) ∈ m -> val x ∈ parts a) ->
    maps_equal (fun x y => ValuesEqual (val x) (val y)) m m =
    negb (existsb (fun e => holds_unequal one (val e.2)) m)).
  { intros K ? A val m Hd Hm. apply eq_true_iff_eq. rewrite maps_equal_spec, negb_true_iff.
    rewrite <- not_true_iff_false, existsb_exists. split.
    - intros [_ H] ([k x] & Hx%list_elem_of_In & Hu). destruct (H k x Hx) as (y & Hy & He).
      rewrite (elem_map_get k x) in Hy by done. simplify_eq.
      cbn [snd] in Hu. rewrite IH, Hu in He by eauto. done.
    - intros H. split; [done|]. intros k x Hx. exists x. split; [by apply elem_map_get|].
      rewrite IH by eauto. apply negb_true_iff, not_true_iff_false. intros Hu. apply H.
      exists (k, x). split; [by apply list_elem_of_In|done]. }
  clear Ha. destruct a; cbn [ValuesEqual holds_unequal]; try done;
    try (rewrite !bool_decide_eq_true_2 by done; done).
  - apply Z.eqb_refl.
  - apply feqb_refl.
  - by destruct Value.
  - clear Hmap Hn. simpl in *. induction Elements as [|x l IHl]; simpl; [done|].
    rewrite negb_orb, IH by ((by left) || (apply Hp; by left)). f_equal.
    apply IHl; intros y Hy; [apply IH; by right|apply Hp; by right].
  - rewrite (Hmap _ _ _ snd); [done|apply Hn|].
    intros k x Hx; apply list_elem_of_fmap; by exists (k, x).
  - rewrite bool_decide_eq_true_2 by done. simpl. rewrite (Hmap _ _ _ (fun x => x)); [done|apply Hn|].
    intros k x Hx; apply list_elem_of_fmap; by exists (k, x).
  - rewrite !bool_decide_eq_true_2 by done. simpl. rewrite (Hmap _ _ _ (fun x => x)); [done|apply Hn|].
    intros k x Hx; apply list_elem_of_fmap; by exists (k, x).
  - unfold SameFunction. rewrite Hone. destruct one; [done|]. destruct id; [apply Nat.eqb_refl|done].
  - apply Nat.eqb_refl.
  - destruct kind; try apply Nat.eqb_refl; by rewrite !bool_decide_eq_true_2.
Qed.

End Laws.

(** A NaN where equality looks, and a closure without an identity there. *)
Definition holds_nan (o : Object) : bool := holds_unequal true o.

Fixpoint holds_bare (o : Object) : bool :=
  match o with
  | Closure _ _ id => bool_decide (id = None)
  | Array l => existsb holds_bare l
  | Hash p => existsb (fun e => holds_bare e.2.2) p
  | Struct _ _ f => existsb (fun e => holds_bare e.2) f
  | Error _ r => existsb (fun e => holds_bare e.2) r
  | _ => false
  end.

Lemma existsb_orb {A} (f g h : A -> bool) l :
  (forall a, a ∈ l -> f a = g a || h a) -> existsb f l = existsb g l || existsb h l.
Proof.
  induction l as [|a l IH]; intros H; simpl; [done|]. rewrite (H a), IH; [|intros x Hx; apply H; by right|by left].
  by destruct (g a), (h a), (existsb g l), (existsb h l).
Qed.

Lemma holds_unequal_cases o : holds_unequal false o = holds_nan o || holds_bare o.
Proof.
  unfold holds_nan. induction o as [o IH] using parts_ind. rewrite Forall_forall in IH.
  destruct o; cbn [holds_unequal holds_bare negb andb]; rewrite ?orb_false_r; try done;
    apply existsb_orb; intros x Hx; apply IH; simpl; try done; apply list_elem_of_fmap; by exists x.
Qed.

Section Theorem_.
Context {R : Rendering}.

(** C36: equality of values is an equivalence, except at NaN.  Whatever closures the
    operands share as objects in memory, on well-formed values [ValuesEqual] is
    symmetric and transitive and relates only values of one type, in whatever order
    the maps inside are visited.  A value compared with itself, as the same objects in
    memory, is equal unless it is a NaN or holds one where equality looks (an array
    element, a hash value, a struct field, a fact of an error); compared with a copy
    that storage rebuilt of it, it is equal unless, besides, it holds a closure
    without an identity there. *)
Theorem values_equal_laws (same : Object -> Object -> bool) a b c :
  addresses same -> obj_ok a -> obj_ok b -> obj_ok c ->
  ValuesEqual same a b = ValuesEqual same b a /\
  (ValuesEqual same a b = true -> Type_ a = Type_ b) /\
  (ValuesEqual same a b = true -> ValuesEqual same b c = true -> ValuesEqual same a c = true) /\
  ((forall x, same x x = true) -> ValuesEqual same a a = negb (holds_nan a)) /\
  ((forall x, same x x = false) -> ValuesEqual same a a = negb (holds_nan a || holds_bare a)).
Proof.
  intros Hs Ha Hb Hc. split_and!.
  - apply eq_true_iff_eq. split; by apply equal_sym.
  - apply equal_same_type.
  - by apply equal_trans.
  - intros Hone. by apply equal_refl.
  - intros Hone. rewrite <- holds_unequal_cases. by apply equal_refl.
Qed.
End Theorem_.

Section Witness.
#[local] Instance plain_cells : Rendering := {| cell_text _ := [] |}.

Lemma leaf_ok o : node_ok o -> children o = [] -> obj_ok o.
Proof. intros H Hc. constructor; [done|]. by rewrite Hc. Qed.

Definition zeros (b : Z) : Object := Array [Float b; Str [97]].

Lemma zeros_ok b : is_u64 b -> obj_ok (zeros b).
Proof.
  intros Hb. constructor; [done|]. repeat (apply Forall_cons_2; [by apply leaf_ok|]). apply Forall_nil_2.
Qed.

(** Objects in memory told apart by their values: a value is the object it is. *)
Definition by_value (x y : Object) : bool :=
  match x, y with
  | Closure f l i, Closure g k j => bool_decide (fn_addr f = fn_addr g) && bool_decide (i = j)
  | Closure _ _ _, _ | _, Closure _ _ _ => false
  | _, _ => true
  end.

Lemma by_value_addresses : addresses by_value.
Proof.
  split.
  - intros [] []; cbn; try done. intros [H1%bool_decide_eq_true H2%bool_decide_eq_true]%andb_true_iff.
    by rewrite !bool_decide_eq_true_2.
  - intros [] [] []; cbn; try done. intros [H1%bool_decide_eq_true H2%bool_decide_eq_true]%andb_true_iff.
    intros [H3%bool_decide_eq_true H4%bool_decide_eq_true]%andb_true_iff. rewrite !bool_decide_eq_true_2 by congruence. done.
  - intros f l i g k j [_ H%bool_decide_eq_true]%andb_true_iff. done.
Qed.

Lemma by_value_refl x : by_value x x = true.
Proof. destruct x; cbn; try done. by rewrite !bool_decide_eq_true_2. Qed.

Lemma apart_addresses : addresses apart.
Proof. by split. Qed.

Lemma values_equal_laws_witness :
  ValuesEqual apart (zeros 0) (zeros signBit) = true /\ ValuesEqual apart (zeros signBit) (zeros 0) = true /\
  ValuesEqual by_value (zeros canonicalNaN) (zeros canonicalNaN) = false.
Proof.
  pose proof (zeros_ok 0 ltac:(by split)) as H0. pose proof (zeros_ok signBit ltac:(by split)) as H1.
  pose proof (zeros_ok canonicalNaN (proj1 canonicalNaN_nan)) as H2.
  split; [reflexivity|]. split.
  - destruct (values_equal_laws apart (zeros 0) (zeros signBit) (zeros 0) apart_addresses H0 H1 H0) as [<- _]. reflexivity.
  - destruct (values_equal_laws by_value _ _ _ by_value_addresses H2 H2 H2) as (_ & _ & _ & Hn & _).
    rewrite (Hn by_value_refl). reflexivity.
Defined.

(** A closure without an identity, against itself and against a copy of it. *)
Example bare_closures :
  let bare := Closure (Ptr 0 (Fn [] 0 0 [] "" [] [] [] [] [])) [] None in
  ValuesEqual by_value bare bare = true /\ ValuesEqual apart bare bare = false.
Proof. by split. Qed.
End Witness.

(* ------------------------------------------------------------------ *)
(** ** Marks *)

Lemma join_tags_spec acc tags labels :
  NoDup acc.1 -> length acc.2 = length acc.1 ->
  NoDup (join_tags acc tags labels).1 /\
  length (join_tags acc tags labels).2 = length (join_tags acc tags labels).1 /\
  forall t, t ∈ (join_tags acc tags labels).1 <-> t ∈ acc.1 \/ t ∈ tags.
Proof.
  revert acc labels. induction tags as [|tag tags IH]; intros acc labels Hd Hl; cbn [join_tags].
  { split_and!; [done..|]. intros t. rewrite elem_of_nil. tauto. }
  case_bool_decide as Hin.
  - destruct (IH acc (tail labels) Hd Hl) as (H1 & H2 & H3). split_and!; [done..|].
    intros t. rewrite H3, elem_of_cons. naive_solver.
  - destruct (IH (acc.1 ++ [tag], acc.2 ++ [default [] (head labels)]) (tail labels)) as (H1 & H2 & H3).
    + simpl. apply NoDup_app. split; [done|]. split; [|apply NoDup_singleton].
      intros x Hx ->%list_elem_of_singleton. done.
    + simpl. rewrite !length_app. simpl. lia.
    + split_and!; [done..|]. intros t. rewrite H3. simpl. rewrite elem_of_app, list_elem_of_singleton, elem_of_cons.
      tauto.
Qed.

Definition mark_tags (c : option Classification) : list (list Z) := from_option Tags [] c.

(** An address is the address of one mark. *)
Definition one_address (a b : option Classification) : Prop :=
  forall x y, a = Some x -> b = Some y -> mark_addr x = mark_addr y -> x = y.

(** No class is lost when buffers are joined.  A buffer built from two
    others carries a mark as soon as one of them did; the tags of that mark are
    exactly the tags of the two, and when it is a new mark each tag is named
    once with its label beside it. *)
Theorem joined_marks_keep_classes fresh a b :
  one_address a b ->
  (JoinClassification fresh a b = None <-> a = None /\ b = None) /\
  (forall t, t ∈ mark_tags (JoinClassification fresh a b) <-> t ∈ mark_tags a \/ t ∈ mark_tags b) /\
  (forall x y, a = Some x -> b = Some y -> x <> y ->
   exists m, JoinClassification fresh a b = Some m /\ NoDup (Tags m) /\
     length (Labels m) = length (Tags m) /\
     (RecordUID x = RecordUID y -> RecordUID m = RecordUID x)).
Proof.
  intros Hone. destruct a as [x|], b as [y|]; cbn [JoinClassification].
  2-4: split_and!; [naive_solver| |naive_solver]; intros t; simpl; rewrite ?elem_of_nil; naive_solver.
  destruct (Nat.eqb_spec (mark_addr x) (mark_addr y)) as [He|He].
  - rewrite (Hone x y) by done. split_and!; [naive_solver| |naive_solver]. intros t. simpl. tauto.
  - destruct (join_tags_spec ([], []) (Tags x) (Labels x) (NoDup_nil_2) eq_refl) as (D1 & L1 & S1).
    destruct (join_tags_spec _ (Tags y) (Labels y) D1 L1) as (D2 & L2 & S2).
    destruct (join_tags _ (Tags y) (Labels y)) as [tags labels]. simpl in *. split_and!.
    + naive_solver.
    + intros t. rewrite S2, S1, elem_of_nil. tauto.
    + intros x' y' [= <-] [= <-] _. eexists. split; [done|]. simpl. split_and!; [done..|].
      intros Hu. by rewrite bool_decide_eq_true_2.
Qed.

Definition mark_a : option Classification := Some (Mark 1 [82] [[1]; [2]] [[65]; [66]]).
Definition mark_b : option Classification := Some (Mark 2 [82] [[2]; [3]] [[66]]).

Lemma joined_marks_keep_classes_witness :
  [3] ∈ mark_tags (JoinClassification 9 mark_a mark_b) /\
  JoinClassification 9 mark_a mark_b = Some (Mark 9 [82] [[1]; [2]; [3]] [[65]; [66]; []]).
Proof.
  split; [|reflexivity].
  destruct (joined_marks_keep_classes 9 mark_a mark_b) as (_ & H & _); [by intros x y [= <-] [= <-]|].
  apply H. right. right. left.
Defined.
