(* ===== verification/Keystream.v ===== *)
(** * The keystream: [src/security/secure_random.go]

    Instructions and stored values are sealed by XOR with a ChaCha20 keystream
    addressed by byte offset, so that one opcode or operand can be opened
    without opening what precedes it.  ChaCha20 is a library the program calls:
    its block function is the parameter [Cipher] (a 64-byte block per key, nonce
    and counter).  A stream is shorter than [2 ^ 38] bytes, the cipher's own
    limit of [2 ^ 32] blocks.  Also the self-contained XOR of
    [src/security/crypto.go]. *)

From stdpp Require Import base list list_numbers numbers strings.
From Stdlib Require Import ZArith Lia.
From S2P Require Import Prelude Sha256.

(** [golang.org/x/crypto/chacha20]: RFC 8439's block function. *)
Class Cipher : Type := {
  chacha_block : list Z -> list Z -> Z -> list Z;
  chacha_block_ok : forall key nonce counter,
    length (chacha_block key nonce counter) = 64%nat /\ is_bytes (chacha_block key nonce counter) }.

(** [binary.LittleEndian.PutUint64] and [Uint64] (which needs eight bytes). *)
Fixpoint le_bytes (n : nat) (z : Z) : list Z :=
  match n with
  | O => []
  | S n => z mod 256 :: le_bytes n (z / 256)
  end.

Fixpoint le_value (l : list Z) : Z :=
  match l with
  | [] => 0
  | b :: l => b + 256 * le_value l
  end.

Section Keystream.
Context {C : Cipher}.

(** [XORStream]: the derived key and nonce. *)
Record XORStream : Type := Stream { xs_key : list Z; xs_nonce : list Z }.

Definition streamVersionPrefix : list Z := bytes "mutant-stream-v1".

(** [deriveStreamKeyAndNonce]. *)
Definition deriveStreamKeyAndNonce (seed : Z) (password : list Z) : list Z * list Z :=
  let base := streamVersionPrefix ++ bytes "|" ++ le_bytes 8 (u64 seed) ++ bytes "|" ++ password in
  (Sum256 (bytes "key|" ++ base), take 12 (Sum256 (bytes "nonce|" ++ base))).

(** [NewXORStream] and [XORStream.Zero]. *)
Definition NewXORStream (seed : Z) (password : list Z) : XORStream :=
  let '(key, nonce) := deriveStreamKeyAndNonce seed password in Stream key nonce.

Definition Zero (s : XORStream) : XORStream :=
  Stream (replicate (length (xs_key s)) 0) (replicate (length (xs_nonce s)) 0).

(** The byte of the keystream at a position, and XOR from a position on: a
    cipher whose counter was set to the block and whose first bytes were
    discarded. *)
Definition keystream (s : XORStream) (pos : Z) : Z :=
  chacha_block (xs_key s) (xs_nonce s) (pos / 64) !!! Z.to_nat (pos mod 64).

Fixpoint XORKeyStream (s : XORStream) (pos : Z) (data : list Z) : list Z :=
  match data with
  | [] => []
  | b :: data => Z.lxor b (keystream s pos) :: XORKeyStream s (pos + 1) data
  end.

(** Where the cipher stands for a stream offset: the counter is a [uint32]. *)
Definition cipher_position (offset : Z) : Z := 64 * u32 (offset / 64) + offset mod 64.

(** [XORStream.XORAt] and [XORStream.XOROneAt]; [None] is the error. *)
Definition XORAt (s : XORStream) (data : list Z) (offset : Z) : option (list Z) :=
  if bool_decide (data = []) then None
  else if offset <? 0 then None
  else Some (XORKeyStream s (cipher_position offset) data).

Definition XOROneAt (s : XORStream) (b offset : Z) : option Z :=
  if offset <? 0 then None
  else head (XORKeyStream s (cipher_position offset) [b]).

(** [SecureXORAt], [SecureXOR] and [SecureXOROneAt] derive on every call. *)
Definition SecureXORAt (data : list Z) (seed : Z) (password : list Z) (offset : Z) : option (list Z) :=
  if bool_decide (data = []) then None
  else if offset <? 0 then None
  else
    let '(key, nonce) := deriveStreamKeyAndNonce seed password in
    Some (XORKeyStream (Stream key nonce) (cipher_position offset) data).

Definition SecureXOR (data : list Z) (seed : Z) (password : list Z) : option (list Z) :=
  SecureXORAt data seed password 0.

Definition SecureXOROneAt (b seed : Z) (password : list Z) (offset : Z) : option Z :=
  SecureXORAt [b] seed password offset ≫= head.

(** [DerivePasswordFromInstructions]. *)
Definition DerivePasswordFromInstructions (ins : list Z) : Z :=
  if bool_decide (ins = []) then 0 else le_value (take 8 (Sum256 ins)).

(** [SecureCompare]. *)
Definition SecureCompare (a b : list Z) : bool := bool_decide (a = b).

(** [SecureXOREncrypt] with the random key it drew, and [SecureXORDecrypt]. *)
Fixpoint xor_lists (a b : list Z) : list Z :=
  match a, b with
  | x :: a, y :: b => Z.lxor x y :: xor_lists a b
  | _, _ => []
  end.

Definition SecureXOREncrypt (key data : list Z) : list Z :=
  let n := zlen key in
  [u8 (n / 2 ^ 24); u8 (n / 2 ^ 16); u8 (n / 2 ^ 8); u8 n] ++ key ++ xor_lists data key.

Definition SecureXORDecrypt (data : list Z) : option (list Z) :=
  match data with
  | b0 :: b1 :: b2 :: b3 :: rest =>
      let keyLen := b0 * 2 ^ 24 + b1 * 2 ^ 16 + b2 * 2 ^ 8 + b3 in
      if zlen data <? 4 + keyLen then None
      else
        let key := take (Z.to_nat keyLen) rest in
        let xored := drop (Z.to_nat keyLen) rest in
        if zlen key <? zlen xored then None else Some (xor_lists xored key)
  | _ => None
  end.

(* ------------------------------------------------------------------ *)
(** ** Lemmas *)

Lemma le_value_bytes n z : 0 <= z < 2 ^ (8 * Z.of_nat n) -> le_value (le_bytes n z) = z.
Proof.
  revert z. induction n as [|n IH]; intros z Hz; cbn [le_bytes le_value].
  { change (2 ^ _) with 1 in Hz. lia. }
  rewrite IH.
  - pose proof (Z.div_mod z 256 ltac:(lia)). lia.
  - split; [apply Z.div_pos; lia|]. apply Z.div_lt_upper_bound; [lia|].
    replace (8 * Z.of_nat (S n)) with (8 + 8 * Z.of_nat n) in Hz by lia.
    rewrite Z.pow_add_r in Hz by lia. lia.
Qed.

Lemma le_bytes_bytes n z : is_bytes (le_bytes n z).
Proof.
  revert z. induction n as [|n IH]; intros z; simpl; constructor; [|apply IH].
  apply Z.mod_pos_bound. lia.
Qed.

Lemma length_le_bytes n z : length (le_bytes n z) = n.
Proof. revert z. induction n as [|n IH]; intros z; simpl; [done|]. by rewrite IH. Qed.

Lemma byte_xor a b : is_byte a -> is_byte b -> is_byte (Z.lxor a b).
Proof.
  unfold is_byte. intros Ha Hb. split; [apply Z.lxor_nonneg; lia|].
  destruct (Z.eq_dec (Z.lxor a b) 0) as [->|Hx]; [lia|].
  assert (0 < Z.lxor a b) by (pose proof (proj2 (Z.lxor_nonneg a b)); lia).
  change 256 with (2 ^ 8). apply Z.log2_lt_pow2; [done|].
  pose proof (Z.log2_lxor a b ltac:(lia) ltac:(lia)).
  assert (Hlog : forall x, 0 <= x < 256 -> Z.log2 x < 8).
  { intros x Hx'. destruct (Z.eq_dec x 0) as [->|]; [done|]. apply Z.log2_lt_pow2; [lia|]. simpl. lia. }
  pose proof (Hlog a Ha). pose proof (Hlog b Hb). lia.
Qed.

Lemma keystream_byte s pos : is_byte (keystream s pos).
Proof.
  unfold keystream. destruct (chacha_block_ok (xs_key s) (xs_nonce s) (pos / 64)) as [Hl Hb].
  unfold is_bytes in Hb. rewrite Forall_forall in Hb. apply Hb, list_elem_of_lookup_total_2.
  pose proof (Z.mod_pos_bound pos 64 ltac:(lia)). lia.
Qed.

Lemma length_XORKeyStream s pos data : length (XORKeyStream s pos data) = length data.
Proof. revert pos. induction data as [|b data IH]; intros pos; simpl; [done|]. by rewrite IH. Qed.

Lemma XORKeyStream_bytes s pos data : is_bytes data -> is_bytes (XORKeyStream s pos data).
Proof.
  intros H. revert pos. induction H as [|b data Hb _ IH]; intros pos; simpl; constructor; [|apply IH].
  apply byte_xor; [done|apply keystream_byte].
Qed.

Lemma XORKeyStream_twice s pos data : XORKeyStream s pos (XORKeyStream s pos data) = data.
Proof.
  revert pos. induction data as [|b data IH]; intros pos; simpl; [done|].
  by rewrite Z.lxor_assoc, Z.lxor_nilpotent, Z.lxor_0_r, IH.
Qed.

Lemma XORKeyStream_app s pos a b :
  XORKeyStream s pos (a ++ b) = XORKeyStream s pos a ++ XORKeyStream s (pos + zlen a) b.
Proof.
  revert pos. induction a as [|x a IH]; intros pos; simpl; [by rewrite Z.add_0_r|].
  rewrite IH. do 3 f_equal. unfold zlen. simpl. lia.
Qed.

Lemma XORKeyStream_take s pos n data :
  take n (XORKeyStream s pos data) = XORKeyStream s pos (take n data).
Proof.
  revert pos n. induction data as [|b data IH]; intros pos [|n]; simpl; [done..|]. by rewrite IH.
Qed.

Lemma XORKeyStream_drop s pos n data :
  drop n (XORKeyStream s pos data) = XORKeyStream s (pos + Z.of_nat n) (drop n data).
Proof.
  revert pos n. induction data as [|b data IH]; intros pos [|n]; simpl; [done|done|by rewrite Z.add_0_r|].
  rewrite IH. f_equal. lia.
Qed.

Lemma cipher_position_id offset : 0 <= offset < 2 ^ 38 -> cipher_position offset = offset.
Proof.
  intros Ho. unfold cipher_position, u32. pose proof (Z.div_mod offset 64 ltac:(lia)).
  rewrite Z.mod_small; [lia|].
  split; [apply Z.div_pos; lia|apply Z.div_lt_upper_bound; lia].
Qed.

Lemma XORAt_SecureXORAt data seed password offset :
  XORAt (NewXORStream seed password) data offset = SecureXORAt data seed password offset.
Proof. unfold XORAt, SecureXORAt, NewXORStream. by destruct (deriveStreamKeyAndNonce seed password). Qed.

Lemma XORAt_some s data offset :
  data <> [] -> 0 <= offset < 2 ^ 38 -> XORAt s data offset = Some (XORKeyStream s offset data).
Proof.
  intros Hd Ho. unfold XORAt. rewrite bool_decide_eq_false_2 by done.
  by rewrite (proj2 (Z.ltb_ge _ _)), cipher_position_id by lia.
Qed.

Lemma SecureXOR_some data seed password :
  data <> [] -> SecureXOR data seed password = Some (XORKeyStream (NewXORStream seed password) 0 data).
Proof. intros Hd. unfold SecureXOR. rewrite <- XORAt_SecureXORAt. by apply XORAt_some. Qed.

Lemma XOROneAt_some s b offset :
  0 <= offset < 2 ^ 38 -> XOROneAt s b offset = Some (Z.lxor b (keystream s offset)).
Proof.
  intros Ho. unfold XOROneAt. by rewrite (proj2 (Z.ltb_ge _ _)), cipher_position_id by lia.
Qed.

Lemma XOROneAt_sealed s data i b :
  zlen data <= 2 ^ 38 -> data !! i = Some b ->
  XOROneAt s (XORKeyStream s 0 data !!! i) (Z.of_nat i) = Some b.
Proof.
  intros Hlen Hi. pose proof (lookup_lt_Some _ _ _ Hi) as Hlt. unfold zlen in Hlen.
  rewrite XOROneAt_some by lia. f_equal.
  rewrite <- (take_drop_middle data i b Hi), XORKeyStream_app.
  rewrite list_lookup_total_alt, lookup_app_r; rewrite length_XORKeyStream, length_take_le by lia; [|lia].
  rewrite Nat.sub_diag. cbn [XORKeyStream lookup list_lookup from_option].
  replace (0 + zlen (take i data)) with (Z.of_nat i) by (unfold zlen; rewrite length_take_le; lia).
  cbn. by rewrite Z.lxor_assoc, Z.lxor_nilpotent, Z.lxor_0_r.
Qed.

(** C35: Random access to sealed bytes.  A payload is refused exactly when it is
    empty; what [SecureXOR] seals keeps its length and its byte range, and the
    stream the runtime derives once opens any slice of it at the slice's own
    offset, and any single byte at its position, to the bytes of the payload,
    exactly as a derivation per call does. *)
Theorem sealed_bytes_open_anywhere (data : list Z) (seed : Z) (password : list Z) :
  is_bytes data -> zlen data <= 2 ^ 38 ->
  (SecureXOR data seed password = None <-> data = []) /\
  forall sealed, SecureXOR data seed password = Some sealed ->
    length sealed = length data /\ is_bytes sealed /\
    (forall i n : nat, take n (drop i data) <> [] ->
       XORAt (NewXORStream seed password) (take n (drop i sealed)) (Z.of_nat i) =
         Some (take n (drop i data)) /\
       SecureXORAt (take n (drop i sealed)) seed password (Z.of_nat i) = Some (take n (drop i data))) /\
    (forall (i : nat) b, data !! i = Some b ->
       XOROneAt (NewXORStream seed password) (sealed !!! i) (Z.of_nat i) = Some b /\
       SecureXOROneAt (sealed !!! i) seed password (Z.of_nat i) = Some b).
Proof.
  intros Hb Hlen. split.
  { split; [|by intros ->]. intros Hn. destruct data as [|b data]; [done|].
    by rewrite SecureXOR_some in Hn. }
  intros sealed Hs. assert (Hne : data <> []) by (by intros ->).
  rewrite SecureXOR_some in Hs by done. injection Hs as <-.
  split; [apply length_XORKeyStream|]. split; [by apply XORKeyStream_bytes|]. split.
  - intros i n Hsl. rewrite <- XORAt_SecureXORAt.
    enough (Hx : XORAt (NewXORStream seed password)
      (take n (drop i (XORKeyStream (NewXORStream seed password) 0 data))) (Z.of_nat i) =
      Some (take n (drop i data))) by done.
    rewrite XORKeyStream_drop, XORKeyStream_take, Z.add_0_l.
    rewrite XORAt_some, XORKeyStream_twice; [done|..].
    + intros E. apply (f_equal length) in E. rewrite length_XORKeyStream in E.
      by apply Hsl, nil_length_inv.
    + assert (i < length data)%nat by (destruct (decide (i < length data)%nat); [done|];
        by rewrite drop_ge, take_nil in Hsl by lia). unfold zlen in Hlen. lia.
  - intros i b Hi. pose proof (XOROneAt_sealed (NewXORStream seed password) data i b Hlen Hi) as Hx.
    split; [done|]. unfold SecureXOROneAt. rewrite <- XORAt_SecureXORAt, <- Hx.
    unfold XORAt, XOROneAt. rewrite bool_decide_eq_false_2 by done. by case_match.
Qed.

Lemma xor_lists_twice data key : length data = length key -> xor_lists (xor_lists data key) key = data.
Proof.
  revert key. induction data as [|x data IH]; intros [|y key] Hl; simplify_eq/=; [done|].
  by rewrite Z.lxor_assoc, Z.lxor_nilpotent, Z.lxor_0_r, IH.
Qed.

End Keystream.

(** A cipher whose block spells its counter. *)
Definition counting_cipher : Cipher.
Proof.
  refine {| chacha_block _ _ counter := u8 <$> ((fun i => 37 * i + 11 * counter) <$> seqZ 0 64) |}.
  intros _ _ counter. split; [done|]. unfold is_bytes. rewrite Forall_fmap.
  apply Forall_forall. intros x _. apply Z.mod_pos_bound. lia.
Defined.

Lemma sealed_bytes_open_anywhere_witness :
  let C := counting_cipher in
  exists sealed, SecureXOR [1; 2; 3; 250] 7 [112] = Some sealed /\
    XORAt (NewXORStream 7 [112]) (drop 2 sealed) 2 = Some [3; 250].
Proof.
  intros C. destruct (sealed_bytes_open_anywhere [1; 2; 3; 250] 7 [112]) as [He Ho].
  - repeat constructor; lia.
  - unfold zlen. simpl. lia.
  - destruct (SecureXOR [1; 2; 3; 250] 7 [112]) as [sealed|] eqn:Es; [|by destruct He as [He _]; discriminate (He eq_refl)].
    exists sealed. split; [done|]. destruct (Ho sealed eq_refl) as (Hl & _ & Hsl & _).
    destruct (Hsl 2%nat 2%nat ltac:(done)) as [Hx _].
    by rewrite (take_ge (drop 2 sealed)) in Hx by (rewrite length_drop, Hl; done).
Defined.
