(* ===== verification/Seal.v ===== *)
(** * Values at rest: [src/mutil]

    Every value the runtime stores (a stack slot, a global, a captured
    variable, a constant) is sealed: a scalar becomes an [Encrypted] holding
    its bytes XORed with the run's keystream, a container becomes a container
    of sealed values.  [util.go]: [sealKey], [encryptObject], [decryptObject],
    [EncryptByteCode]; [repl_seal.go]: [ReplSealer].

    [encoding/gob], through which an error is sealed whole, is the parameter
    [Gob].  A map is visited in the order of its association list. *)

From stdpp Require Import base list list_numbers numbers gmap strings.
From Stdlib Require Import ZArith Lia.
From S2P Require Import Prelude Polymorphic Sha256 Lexer Object Keystream.

(* ------------------------------------------------------------------ *)
(** ** Parameters and results *)

(** [gob.NewEncoder(...).Encode] of an [*object.Error] and its inverse. *)
Class Gob : Type := {
  encodeError : ErrorInfo -> list (list Z * Object) -> option (list Z);
  decodeError : list Z -> option (ErrorInfo * list (list Z * Object)) }.

(** Opening a value: it opens, is refused with an error, or panics in
    [binary.LittleEndian.Uint64] on fewer than eight bytes. *)
Inductive opening (A : Type) : Type :=
| Opened (a : A)
| Refused
| Crashed.
Arguments Opened {A} a.
Arguments Refused {A}.
Arguments Crashed {A}.

#[export] Instance opening_ret : MRet opening := fun A => Opened.
#[export] Instance opening_bind : MBind opening := fun A B f o =>
  match o with Opened a => f a | Refused => Refused | Crashed => Crashed end.
#[export] Instance opening_fmap : FMap opening := fun A B f o =>
  match o with Opened a => Opened (f a) | Refused => Refused | Crashed => Crashed end.

Section Seal.
Context {C : Cipher} {G : Gob}.

(* ------------------------------------------------------------------ *)
(** ** The key *)

(** [sealKey]. *)
Record sealKey : Type := SealKey {
  sk_length : Z; sk_password : list Z; sk_stream : option XORStream }.

(** [sealKey.seed], [sealKey.xorAtSeed], [sealKey.xor], [sealKey.xorPayload]. *)
Definition seed (k : sealKey) : Z := i64 (sk_length k).

Definition xorAtSeed (k : sealKey) (data : list Z) (s : Z) : option (list Z) :=
  match sk_stream k with
  | Some stream => if s =? seed k then XORAt stream data 0 else SecureXOR data s (sk_password k)
  | None => SecureXOR data s (sk_password k)
  end.

Definition xor (k : sealKey) (data : list Z) : option (list Z) := xorAtSeed k data (seed k).

Definition xorPayload (k : sealKey) (data : list Z) : option (list Z) :=
  if bool_decide (data = []) then Some [] else xor k data.

(* ------------------------------------------------------------------ *)
(** ** Sealing and opening a value *)

(** An [Encrypted] under the key's seed. *)
Definition wrap (k : sealKey) (t : ObjectType) (mark : option Classification) (payload : list Z) : Object :=
  Encrypted payload t (seed k) mark.

Definition format_bool (b : bool) : list Z := bytes (if b then "true" else "false").

(** [encryptObject]; [None] is the error. *)
Fixpoint encryptObject (k : sealKey) (o : Object) : option Object :=
  match o with
  | Nil => None
  | Encrypted _ _ _ _ => Some o
  | Integer n => wrap k INTEGER_OBJ None <$> xor k (le_bytes 8 (u64 n))
  | Str s => wrap k STRING_OBJ None <$> xorPayload k s
  | Bytes s mark => wrap k BYTES_OBJ mark <$> xorPayload k s
  | Boolean b => wrap k BOOLEAN_OBJ None <$> xor k (format_bool b)
  | Float b => wrap k FLOAT_OBJ None <$> xor k (le_bytes 8 b)
  | Null => Some (wrap k NULL_OBJ None [])
  | Array l => Array <$> mapM (encryptObject k) l
  | Hash pairs =>
      Hash <$> mapM (fun p : HashKey * (Object * Object) =>
        let '(h, (a, b)) := p in
        a' ← encryptObject k a; b' ← encryptObject k b; Some (h, (a', b'))) pairs
  | Struct name order fields =>
      Struct name order <$> mapM (fun p : list Z * Object =>
        let '(n, v) := p in v' ← encryptObject k v; Some (n, v')) fields
  | EnumValue name tag v =>
      match v with
      | Nil => Some (EnumValue name tag Nil)
      | _ => EnumValue name tag <$> encryptObject k v
      end
  | Closure f free id => (fun free' => Closure f free' id) <$> mapM (encryptObject k) free
  | LuaPatch name payload sum => (fun x => LuaPatch name x sum) <$> xorPayload k payload
  | MultiValue l => MultiValue <$> mapM (encryptObject k) l
  | Error i related =>
      encoded ← encodeError i related; wrap k ERROR_OBJ None <$> xorPayload k encoded
  | Cell _ | Iterator _ | CompiledFn _ | BuiltIn _ | Break | Continue | Other _ _ _ => Some o
  end.

Definition to_lower (b : Z) : Z := if (65 <=? b) && (b <=? 90) then b + 32 else b.

(** The switch on [EncType], over the opened bytes; a type with no arm hands
    the [Encrypted] itself back. *)
Definition unwrap (o : Object) (t : ObjectType) (mark : option Classification) (x : list Z) : opening Object :=
  match t with
  | INTEGER_OBJ => if (length x <? 8)%nat then Crashed else Opened (Integer (i64 (le_value (take 8 x))))
  | FLOAT_OBJ => if (length x <? 8)%nat then Crashed else Opened (Float (le_value (take 8 x)))
  | STRING_OBJ => Opened (Str x)
  | BYTES_OBJ => Opened (Bytes x mark)
  | BOOLEAN_OBJ => Opened (Boolean (bool_decide (to_lower <$> x = bytes "true")))
  | NULL_OBJ => Opened Null
  | ERROR_OBJ => match decodeError x with Some (i, r) => Opened (Error i r) | None => Refused end
  | _ => Opened o
  end.

(** The [Encrypted] half of [decryptObject]. *)
Definition open_encrypted (k : sealKey) (o : Object) (v : list Z) (t : ObjectType) (s : Z)
    (mark : option Classification) : opening Object :=
  if bool_decide (t = NULL_OBJ) then Opened Null
  else if bool_decide (v = [] /\ t = STRING_OBJ) then Opened (Str [])
  else if bool_decide (v = [] /\ t = BYTES_OBJ) then Opened (Bytes [] mark)
  else match xorAtSeed k v (if s =? 0 then seed k else s) with
       | None => Refused
       | Some x => unwrap o t mark x
       end.

(** [decryptObject]. *)
Fixpoint decryptObject (k : sealKey) (o : Object) : opening Object :=
  match o with
  | Nil => Refused
  | Encrypted v t s mark => open_encrypted k o v t s mark
  | Array l => Array <$> mapM (decryptObject k) l
  | Hash pairs =>
      Hash <$> mapM (fun p : HashKey * (Object * Object) =>
        let '(h, (a, b)) := p in
        a' ← decryptObject k a; b' ← decryptObject k b; Opened (h, (a', b'))) pairs
  | Struct name order fields =>
      Struct name order <$> mapM (fun p : list Z * Object =>
        let '(n, v) := p in v' ← decryptObject k v; Opened (n, v')) fields
  | EnumValue name tag v =>
      match v with
      | Nil => Opened (EnumValue name tag Nil)
      | _ => EnumValue name tag <$> decryptObject k v
      end
  | LuaPatch name payload sum =>
      match xorPayload k payload with
      | Some x => Opened (LuaPatch name x sum)
      | None => Refused
      end
  | Closure f free id => (fun free' => Closure f free' id) <$> mapM (decryptObject k) free
  | MultiValue l => MultiValue <$> mapM (decryptObject k) l
  | Cell _ | Iterator _ | CompiledFn _ | BuiltIn _ | Break | Continue | Other _ _ _ => Opened o
  (* A scalar or an error in the clear has no arm: "wrong obj type". *)
  | Integer _ | Float _ | Boolean _ | Null | Str _ | Bytes _ _ | Error _ _ => Refused
  end.

(* ------------------------------------------------------------------ *)
(** ** Programs *)

(** The function object with its stream sealed. *)
Definition seal_fn (s : Z) (password : list Z) (f : FnPtr) : FnPtr :=
  let fn := fn_obj f in
  match SecureXOR (fn_Instructions fn) s password with
  | Some x => Ptr (fn_addr f) (fn_with fn x (fn_LineTable fn) (fn_MacroTable fn) (fn_EndTable fn))
  | None => f
  end.

Definition seal_constant (n : Z) (password : list Z) (o : Object) : Object :=
  match o with
  | CompiledFn f => CompiledFn (seal_fn n password f)
  | _ => default o (encryptObject (SealKey n password None) o)
  end.

Definition i32 (z : Z) : Z := (z + 2 ^ 31) mod 2 ^ 32 - 2 ^ 31.

(** [EncryptByteCode], over the stream and the pool: a constant that cannot be
    sealed stays as it is, and no password means one made from the stream. *)
Definition effective_password (ins password : list Z) : list Z :=
  if bool_decide (password = []) then encodeRune (i32 (DerivePasswordFromInstructions ins))
  else password.

Definition EncryptByteCode (ins : list Z) (pool : list Object) (password : list Z)
    : list Z * list Object :=
  let n := zlen ins in
  let password := effective_password ins password in
  (default ins (SecureXOR ins n password), seal_constant n password <$> pool).

(** [DecryptLuaPatch] of a patch. *)
Definition DecryptLuaPatch (payload : list Z) (n : Z) (password : list Z) : option (list Z) :=
  SecureXOR payload n password.

(* ------------------------------------------------------------------ *)
(** ** The cipher under a key *)

Definition key_ok (k : sealKey) : Prop :=
  match sk_stream k with
  | Some s => s = NewXORStream (seed k) (sk_password k)
  | None => True
  end.

Lemma xorAtSeed_secure k data s :
  key_ok k -> xorAtSeed k data s = SecureXOR data s (sk_password k).
Proof.
  unfold key_ok, xorAtSeed. destruct (sk_stream k) as [st|]; [|done]. intros ->.
  destruct (Z.eqb_spec s (seed k)) as [->|]; [|done]. apply XORAt_SecureXORAt.
Qed.

Lemma SecureXOR_nonempty data s password : data <> [] -> is_Some (SecureXOR data s password).
Proof. intros Hd. rewrite SecureXOR_some by done. by eexists. Qed.

Lemma SecureXOR_opens data s password x :
  SecureXOR data s password = Some x -> x <> [] /\ SecureXOR x s password = Some data.
Proof.
  intros Hx. assert (Hd : data <> []) by (by intros ->).
  rewrite SecureXOR_some in Hx by done. injection Hx as <-.
  assert (Hne : XORKeyStream (NewXORStream s password) 0 data <> []).
  { intros E. apply Hd, nil_length_inv. by rewrite <- (length_XORKeyStream (NewXORStream s password) 0), E. }
  split; [done|]. by rewrite SecureXOR_some, XORKeyStream_twice.
Qed.

(** Two keys of one session: the second opens what the first sealed, by the
    recorded seed unless that is zero. *)
Definition opens_for (k k' : sealKey) : Prop :=
  key_ok k' /\ sk_password k' = sk_password k /\ (seed k' = seed k \/ seed k <> 0).

Lemma opens_for_refl k : key_ok k -> opens_for k k.
Proof. intros. split_and!; [done..|by left]. Qed.

Lemma xor_opens k k' data x :
  key_ok k -> opens_for k k' -> xor k data = Some x ->
  x <> [] /\ xorAtSeed k' x (if seed k =? 0 then seed k' else seed k) = Some data.
Proof.
  intros Hk (Hk' & Hp & Hs) Hx. unfold xor in Hx.
  rewrite xorAtSeed_secure in Hx |- * by done. rewrite Hp.
  assert ((if seed k =? 0 then seed k' else seed k) = seed k) as ->.
  { destruct (Z.eqb_spec (seed k) 0); [|done]. by destruct Hs. }
  by apply SecureXOR_opens.
Qed.

Lemma xor_nonempty k data : key_ok k -> data <> [] -> is_Some (xor k data).
Proof. intros Hk Hd. unfold xor. rewrite xorAtSeed_secure by done. by apply SecureXOR_nonempty. Qed.

(* ------------------------------------------------------------------ *)
(** ** Which values seal *)

(** What sealing visits below a value. *)
Definition held (o : Object) : list Object :=
  match o with
  | Error _ _ | EnumValue _ _ Nil => []
  | _ => children o
  end.

Lemma held_children o : held o ⊆ children o.
Proof.
  destruct o as [| | | | | | | | | |? ? v|i r| | | | | | | | | | |]; try done; [by destruct v; [set_solver|..]|].
  simpl. set_solver.
Qed.

Lemma held_ind (P : Object -> Prop) : (forall o, Forall P (held o) -> P o) -> forall o, P o.
Proof.
  intros H o. induction o as [o IH] using children_ind. apply H.
  rewrite Forall_forall in *. intros x Hx. by apply IH, held_children.
Qed.

(** The errors [gob] carries: what is decoded is what was encoded. *)
Definition gob_carries (i : ErrorInfo) (related : list (list Z * Object)) : Prop :=
  exists b, encodeError i related = Some b /\ b <> [] /\ decodeError b = Some (i, related).

(** A value in the clear, of the types a program computes with. *)
Definition node_sealable (o : Object) : Prop :=
  match o with
  | Integer n => is_i64 n
  | Float b => is_u64 b
  | Error i related => gob_carries i related
  | Nil | Encrypted _ _ _ _ | LuaPatch _ _ _ => False
  | _ => True
  end.

Inductive sealable (o : Object) : Prop :=
| sealable_intro : node_sealable o -> Forall sealable (held o) -> sealable o.

(** Nothing of the value is in the clear. *)
Fixpoint covered (o : Object) : bool :=
  match o with
  | Integer _ | Float _ | Boolean _ | Null | Str _ | Bytes _ _ | Error _ _ => false
  | Array l | MultiValue l | Closure _ l _ => forallb covered l
  | Hash pairs => forallb (fun p : HashKey * (Object * Object) => let '(_, (a, b)) := p in covered a && covered b) pairs
  | Struct _ _ fields => forallb (fun p : list Z * Object => let '(_, v) := p in covered v) fields
  | EnumValue _ _ v => match v with Nil => true | _ => covered v end
  | _ => true
  end.

(** What sealing makes of a value. *)
Definition seals_to (k : sealKey) (o s : Object) : Prop :=
  encryptObject k o = Some s /\ s <> Nil /\ covered s = true /\
  (forall k', encryptObject k' s = Some s) /\
  (forall k', opens_for k k' -> decryptObject k' s = Opened o).

Section Lists.
Context {A : Type} (enc : A -> option A) (Q : A -> A -> Prop).

Lemma mapM_seals l :
  Forall (fun x => exists s, enc x = Some s /\ Q x s) l ->
  exists ls, mapM enc l = Some ls /\ Forall2 Q l ls.
Proof.
  induction 1 as [|x l [s [Hs HQ]] _ [ls [Hls HF]]]; [by exists []; split|].
  exists (s :: ls). simpl. rewrite Hs. simpl. rewrite Hls. split; [done|by constructor].
Qed.

Lemma mapM_fixed l : Forall (fun s => enc s = Some s) l -> mapM enc l = Some l.
Proof. induction 1 as [|s l Hs _ IH]; simpl; [done|]. rewrite Hs. simpl. by rewrite IH. Qed.

Lemma mapM_opened (dec : A -> opening A) l ls :
  Forall2 (fun x s => dec s = Opened x) l ls -> mapM dec ls = Opened l.
Proof. induction 1 as [|x s l ls Hs _ IH]; simpl; [done|]. rewrite Hs. simpl. by rewrite IH. Qed.
End Lists.

Lemma wrap_seals k o t mark data x :
  key_ok k -> xor k data = Some x -> t <> NULL_OBJ ->
  encryptObject k o = Some (wrap k t mark x) ->
  (forall o', unwrap o' t mark data = Opened o) ->
  seals_to k o (wrap k t mark x).
Proof.
  intros Hk Hx Ht He Hu. split_and!; try done.
  intros k' Hk'. destruct (xor_opens k k' data x Hk Hk' Hx) as [Hne Ho].
  cbn [decryptObject wrap]. unfold open_encrypted.
  rewrite !bool_decide_eq_false_2 by naive_solver. unfold wrap. rewrite Ho. apply Hu.
Qed.

Lemma le_value_8 z : is_u64 z -> le_value (take 8 (le_bytes 8 z)) = z.
Proof. intros Hz. rewrite take_ge by done. by apply le_value_bytes. Qed.

Lemma lower_bool b : bool_decide (to_lower <$> format_bool b = bytes "true") = b.
Proof. by destruct b. Qed.

Lemma seal_leaf k o :
  key_ok k -> node_sealable o -> held o = [] -> exists s, seals_to k o s.
Proof.
  intros Hk Hn Hc.
  assert (Hself : forall o, encryptObject k o = Some o -> o <> Nil -> covered o = true ->
    (forall k', encryptObject k' o = Some o) -> (forall k', decryptObject k' o = Opened o) ->
    exists s, seals_to k o s) by (intros o' ?????; exists o'; by split_and!).
  destruct o; try done; try (by apply Hself); cbn [node_sealable] in Hn.
  - destruct (xor_nonempty k (le_bytes 8 (u64 Value)) Hk ltac:(done)) as [x Hx].
    exists (wrap k INTEGER_OBJ None x). apply (wrap_seals k _ _ _ _ _ Hk Hx); [done|by cbn [encryptObject]; rewrite Hx|].
    intros o'. unfold unwrap. rewrite le_value_8, i64_u64 by auto with mutant. done.
  - destruct (xor_nonempty k (le_bytes 8 Value) Hk ltac:(done)) as [x Hx].
    exists (wrap k FLOAT_OBJ None x). apply (wrap_seals k _ _ _ _ _ Hk Hx); [done|by cbn [encryptObject]; rewrite Hx|].
    intros o'. unfold unwrap. by rewrite le_value_8.
  - destruct (xor_nonempty k (format_bool Value) Hk ltac:(by destruct Value)) as [x Hx].
    exists (wrap k BOOLEAN_OBJ None x). apply (wrap_seals k _ _ _ _ _ Hk Hx); [done|by cbn [encryptObject]; rewrite Hx|].
    intros o'. unfold unwrap. by rewrite lower_bool.
  - exists (wrap k NULL_OBJ None []). split_and!; done.
  - destruct (decide (Value = [])) as [->|Hne].
    + exists (wrap k STRING_OBJ None []). split_and!; try done.
    + destruct (xor_nonempty k Value Hk Hne) as [x Hx]. exists (wrap k STRING_OBJ None x).
      apply (wrap_seals k _ _ _ _ _ Hk Hx); [done| |done].
      cbn [encryptObject]. unfold xorPayload. by rewrite bool_decide_eq_false_2, Hx.
  - destruct (decide (Value = [])) as [->|Hne].
    + exists (wrap k BYTES_OBJ Classified []). split_and!; try done.
    + destruct (xor_nonempty k Value Hk Hne) as [x Hx]. exists (wrap k BYTES_OBJ Classified x).
      apply (wrap_seals k _ _ _ _ _ Hk Hx); [done| |done].
      cbn [encryptObject]. unfold xorPayload. by rewrite bool_decide_eq_false_2, Hx.
  - exists (Array []). destruct Elements; [|done]. by split_and!.
  - destruct Pairs as [|[h [a b]]]; [|done]. exists (Hash []). by split_and!.
  - destruct Fields; [|done]. eexists (Struct _ _ []). by split_and!.
  - destruct o; [by apply Hself|done..].
  - destruct Hn as (b & Hb & Hne & Hd). destruct (xor_nonempty k b Hk Hne) as [x Hx].
    exists (wrap k ERROR_OBJ None x). apply (wrap_seals k _ _ _ _ _ Hk Hx); [done|..].
    + cbn [encryptObject]. rewrite Hb. cbn. unfold xorPayload. by rewrite bool_decide_eq_false_2, Hx.
    + intros o'. cbn [unwrap]. by rewrite Hd.
  - destruct Values; [|done]. exists (MultiValue []). by split_and!.
  - destruct Free; [|done]. eexists (Closure _ [] _). by split_and!.
Qed.

(** Elements, pairs and fields. *)
Lemma seal_elements k l :
  Forall (fun x => exists s, seals_to k x s) l ->
  exists ls, mapM (encryptObject k) l = Some ls /\ Forall2 (seals_to k) l ls.
Proof.
  intros Hl. apply mapM_seals. eapply Forall_impl; [done|]. intros x [s Hs]. exists s. split; [apply Hs|done].
Qed.

Lemma elements_fixed k k' l ls : Forall2 (seals_to k) l ls -> mapM (encryptObject k') ls = Some ls.
Proof. intros H. apply mapM_fixed. eapply Forall2_Forall_r; [done|]. apply Forall_true. intros x y Hs. apply Hs. Qed.

Lemma elements_opened k k' l ls :
  Forall2 (seals_to k) l ls -> opens_for k k' -> mapM (decryptObject k') ls = Opened l.
Proof. intros H Hk. apply mapM_opened. eapply Forall2_impl; [done|]. intros x s Hs. by apply Hs. Qed.

Lemma elements_covered k l ls : Forall2 (seals_to k) l ls -> forallb covered ls = true.
Proof. induction 1 as [|x s l ls Hs _ IH]; simpl; [done|]. rewrite IH. destruct Hs as (_ & _ & -> & _). done. Qed.

Lemma seal_container k o :
  key_ok k -> node_sealable o -> Forall (fun x => exists s, seals_to k x s) (held o) ->
  exists s, seals_to k o s.
Proof.
  intros Hk Hn Hh. destruct (decide (length (held o) = 0%nat)) as [Hl|Hl].
  { apply seal_leaf; [done..|]. by apply nil_length_inv. }
  destruct o as [| | | | | | |l|ps|n ord fs|n t v| |l| |f l id| | | | | | | |]; try done; cbn [held children] in Hh.
  - destruct (seal_elements k l Hh) as [ls [Hm Hls]]. exists (Array ls). split_and!; try done.
    + cbn [encryptObject]. by rewrite Hm.
    + by eapply elements_covered.
    + intros k'. cbn [encryptObject]. by erewrite elements_fixed.
    + intros k' Hk'. cbn [decryptObject]. by erewrite elements_opened.
  - destruct (mapM_seals (fun p : HashKey * (Object * Object) =>
        let '(h, (a, b)) := p in a' ← encryptObject k a; b' ← encryptObject k b; Some (h, (a', b')))
      (fun p q => p.1 = q.1 /\ seals_to k p.2.1 q.2.1 /\ seals_to k p.2.2 q.2.2) ps) as [qs [Hm Hq]].
    { clear Hl. induction ps as [|[h [a b]] ps IH]; [constructor|]. cbn in Hh.
      apply Forall_cons in Hh as [[a' Ha] Hh]. apply Forall_cons in Hh as [[b' Hb] Hh].
      constructor; [|by apply IH]. exists (h, (a', b')).
      pose proof Ha as [Ea _]. pose proof Hb as [Eb _]. rewrite Ea. cbn. rewrite Eb. by split_and!. }
    exists (Hash qs). split_and!; try done.
    + cbn [encryptObject]. by rewrite Hm.
    + clear Hm Hh Hl. cbn [covered]. induction Hq as [|[h [a b]] [h' [a' b']] ps qs (? & Ha & Hb) _ IH]; [done|].
      destruct Ha as (_ & _ & Ca & _), Hb as (_ & _ & Cb & _). cbn in *. rewrite Ca, Cb. exact (IH I).
    + intros k'. cbn [encryptObject]. rewrite mapM_fixed; [done|].
      eapply Forall2_Forall_r; [done|]. apply Forall_true. intros [h [a b]] [h' [a' b']] (? & Ha & Hb).
      destruct Ha as (_ & _ & _ & Ha & _), Hb as (_ & _ & _ & Hb & _). cbn in *. rewrite Ha. cbn. by rewrite Hb.
    + intros k' Hk'. cbn [decryptObject]. erewrite mapM_opened; [done|].
      eapply Forall2_impl; [done|]. intros [h [a b]] [h' [a' b']] (Hh' & Ha & Hb). cbn in *. subst h'.
      destruct Ha as (_ & _ & _ & _ & Ha), Hb as (_ & _ & _ & _ & Hb). rewrite Ha by done. cbn. by rewrite Hb.
  - destruct (mapM_seals (fun p : list Z * Object =>
        let '(n, v) := p in v' ← encryptObject k v; Some (n, v'))
      (fun p q => p.1 = q.1 /\ seals_to k p.2 q.2) fs) as [qs [Hm Hq]].
    { rewrite Forall_fmap in Hh. unfold compose in Hh. eapply Forall_impl; [exact Hh|]. intros [m v] [v' Hv]. exists (m, v').
      cbn in *. pose proof Hv as [Ev _]. rewrite Ev. by split_and!. }
    exists (Struct n ord qs). split_and!; try done.
    + cbn [encryptObject]. by rewrite Hm.
    + clear Hm Hh Hl. cbn [covered]. induction Hq as [|[h a] [h' a'] fs qs (? & Ha) _ IH]; [done|].
      destruct Ha as (_ & _ & Ca & _). cbn in *. rewrite Ca. exact (IH I).
    + intros k'. cbn [encryptObject]. rewrite mapM_fixed; [done|].
      eapply Forall2_Forall_r; [done|]. apply Forall_true. intros [h a] [h' a'] (? & Ha).
      destruct Ha as (_ & _ & _ & Ha & _). cbn in *. by rewrite Ha.
    + intros k' Hk'. cbn [decryptObject]. erewrite mapM_opened; [done|].
      eapply Forall2_impl; [done|]. intros [h a] [h' a'] (Hh' & Ha). cbn in *. subst h'.
      destruct Ha as (_ & _ & _ & _ & Ha). by rewrite Ha.
  - assert (Hv : v <> Nil) by (by intros ->).
    assert (exists s, seals_to k v s) as [s (He & Hs & Hc & Hf & Ho)].
    { destruct v; try done; by inversion Hh. }
    exists (EnumValue n t s). split_and!; try done.
    + cbn [encryptObject]. destruct v; try done; by rewrite He.
    + cbn [covered]. destruct s; try done.
    + intros k'. specialize (Hf k'). cbn [encryptObject]. destruct s; try done; by rewrite Hf.
    + intros k' Hk'. specialize (Ho k' Hk'). cbn [decryptObject]. destruct s; try done; by rewrite Ho.
  - destruct (seal_elements k l Hh) as [ls [Hm Hls]]. exists (MultiValue ls). split_and!; try done.
    + cbn [encryptObject]. by rewrite Hm.
    + by eapply elements_covered.
    + intros k'. cbn [encryptObject]. by erewrite elements_fixed.
    + intros k' Hk'. cbn [decryptObject]. by erewrite elements_opened.
  - destruct (seal_elements k l Hh) as [ls [Hm Hls]]. exists (Closure f ls id). split_and!; try done.
    + cbn [encryptObject]. by rewrite Hm.
    + by eapply elements_covered.
    + intros k'. cbn [encryptObject]. by erewrite elements_fixed.
    + intros k' Hk'. cbn [decryptObject]. by erewrite elements_opened.
Qed.

Lemma seal_spec k o : key_ok k -> sealable o -> exists s, seals_to k o s.
Proof.
  intros Hk. induction o as [o IH] using held_ind. intros [Hn Hh].
  apply seal_container; [done..|]. rewrite Forall_forall in *. intros x Hx. apply IH; [done|]. by apply Hh.
Qed.

(* ------------------------------------------------------------------ *)
(** ** Theorems on values *)

(** C19: Round trip of storage.  Every value of a program (with the errors [gob]
    carries) seals; the stored form holds nothing in the clear; it opens to the
    very value, under the same key and under every later key of the session
    whose password is the same, whether the key is cached or derived; and
    sealing the stored form again, under any key, leaves it as it is. *)
Theorem sealed_values_open (k k' : sealKey) (o : Object) :
  key_ok k -> sealable o -> opens_for k k' ->
  exists s, encryptObject k o = Some s /\ covered s = true /\ decryptObject k' s = Opened o /\
    forall k'', encryptObject k'' s = Some s.
Proof.
  intros Hk Ho Hk'. destruct (seal_spec k o Hk Ho) as [s (He & _ & Hc & Hf & Hd)].
  exists s. split_and!; [done..|by apply Hd|done].
Qed.

(** A value sealing has no form for: a nil, or an error [gob] refuses,
    anywhere inside. *)
Fixpoint blocks (o : Object) : bool :=
  match o with
  | Nil => true
  | Error i r => match encodeError i r with Some _ => false | None => true end
  | Array l | MultiValue l | Closure _ l _ => existsb blocks l
  | Hash pairs => existsb (fun p : HashKey * (Object * Object) => let '(_, (a, b)) := p in blocks a || blocks b) pairs
  | Struct _ _ fields => existsb (fun p : list Z * Object => let '(_, v) := p in blocks v) fields
  | EnumValue _ _ v => match v with Nil => false | _ => blocks v end
  | _ => false
  end.

Definition seals_or_blocks (k : sealKey) (o : Object) : Prop :=
  if blocks o then encryptObject k o = None else is_Some (encryptObject k o).

Lemma mapM_blocks {A} (enc : A -> option A) (b : A -> bool) l :
  Forall (fun x => if b x then enc x = None else is_Some (enc x)) l ->
  if existsb b l then mapM enc l = None else is_Some (mapM enc l).
Proof.
  induction 1 as [|x l Hx _ IH]; simpl; [by eexists|].
  destruct (b x); simpl; [by rewrite Hx|]. destruct Hx as [y ->]. simpl.
  destruct (existsb b l); [by rewrite IH|]. destruct IH as [ys ->]. by eexists.
Qed.

Lemma fmap_blocks {A B} (f : A -> B) (b : bool) (x : option A) :
  (if b then x = None else is_Some x) -> if b then f <$> x = None else is_Some (f <$> x).
Proof. destruct b; [by intros ->|]. intros [y ->]. by eexists. Qed.

Lemma xorPayload_some k data : key_ok k -> is_Some (xorPayload k data).
Proof. intros Hk. unfold xorPayload. case_bool_decide; [by eexists|by apply xor_nonempty]. Qed.

Lemma blocks_spec k o : key_ok k -> seals_or_blocks k o.
Proof.
  intros Hk. induction o as [o IH] using held_ind. unfold seals_or_blocks in *.
  destruct o as [| | |b| | | |l|ps|n ord fs|n t v|i r|l| |f l id| | | | | | | |]; cbn [blocks encryptObject];
    try done; try (by eexists); cbn [held children] in IH;
    try (by apply fmap_blocks, mapM_blocks); try (apply fmap_is_Some; by apply xorPayload_some).
  - apply fmap_is_Some. by apply xor_nonempty.
  - apply fmap_is_Some. by apply xor_nonempty.
  - apply fmap_is_Some, xor_nonempty; [done|]. by destruct b.
  - apply fmap_blocks, mapM_blocks. clear -IH. induction ps as [|[h [a b]] ps IHp]; [constructor|].
    cbn in IH. apply Forall_cons in IH as [Ha IH]. apply Forall_cons in IH as [Hb IH].
    constructor; [|by apply IHp]. destruct (blocks a); simpl; [by rewrite Ha|]. destruct Ha as [a' ->]. simpl.
    destruct (blocks b); simpl; [by rewrite Hb|]. destruct Hb as [b' ->]. by eexists.
  - apply fmap_blocks, mapM_blocks. clear -IH. induction fs as [|[m v] fs IHp]; [constructor|].
    cbn in IH. apply Forall_cons in IH as [Ha IH]. constructor; [|by apply IHp].
    destruct (blocks v); simpl; [by rewrite Ha|]. destruct Ha as [a' ->]. by eexists.
  - destruct v; [by eexists|..]; apply Forall_cons in IH as [IH _]; by apply fmap_blocks.
  - destruct (encodeError i r) as [e|]; simpl; [|done]. apply fmap_is_Some. by apply xorPayload_some.
Qed.

(** C37: When a value stays in the clear.  Sealing refuses a value exactly when
    a nil, or an error whose encoding fails, sits somewhere in it; the refusal
    is of the whole value, so every other part of it stays in the clear too. *)
Theorem sealing_refuses_exactly (k : sealKey) (o : Object) :
  key_ok k -> (encryptObject k o = None <-> blocks o = true).
Proof.
  intros Hk. pose proof (blocks_spec k o Hk) as H. unfold seals_or_blocks in H.
  destruct (blocks o); [done|]. destruct H as [s Hs]. rewrite Hs. done.
Qed.

(* ------------------------------------------------------------------ *)
(** ** Theorems on programs *)

Lemma seal_stream ins s password :
  default ins (SecureXOR ins s password) = XORKeyStream (NewXORStream s password) 0 ins.
Proof. destruct ins as [|b ins]; [done|]. by rewrite SecureXOR_some. Qed.

Lemma sealed_stream_length ins s password : zlen (default ins (SecureXOR ins s password)) = zlen ins.
Proof. rewrite seal_stream. unfold zlen. by rewrite length_XORKeyStream. Qed.

Lemma seal_fn_stream s password f :
  fn_Instructions (fn_obj (seal_fn s password f)) =
  default (fn_Instructions (fn_obj f)) (SecureXOR (fn_Instructions (fn_obj f)) s password).
Proof. unfold seal_fn. by destruct (SecureXOR _ _ _). Qed.

(** The byte a runtime with this stream fetches at a position. *)
Definition fetches (st : XORStream) (sealed plain : list Z) : Prop :=
  length sealed = length plain /\
  forall (i : nat) b, plain !! i = Some b -> XOROneAt st (sealed !!! i) (Z.of_nat i) = Some b.

Lemma sealed_fetches ins s password :
  zlen ins <= 2 ^ 38 -> fetches (NewXORStream s password) (default ins (SecureXOR ins s password)) ins.
Proof.
  intros Hl. rewrite seal_stream. split; [apply length_XORKeyStream|].
  intros i b Hi. by apply XOROneAt_sealed.
Qed.

(** How a constant of the program reads from the sealed pool. *)
Definition reads_as (k : sealKey) (st : XORStream) (sealed plain : Object) : Prop :=
  match plain with
  | CompiledFn f =>
      exists f', sealed = CompiledFn f' /\ fn_addr f' = fn_addr f /\
        fetches st (fn_Instructions (fn_obj f')) (fn_Instructions (fn_obj f))
  | _ => sealable plain -> covered sealed = true /\ decryptObject k sealed = Opened plain
  end.

Definition stream_fits (o : Object) : Prop :=
  match o with
  | CompiledFn f => zlen (fn_Instructions (fn_obj f)) <= 2 ^ 38
  | _ => True
  end.

(** C11: A sealed program runs as it was compiled.  The runtime derives its key
    from the length of the stream it is handed, which sealing keeps; with that
    key every byte of the program and of every function in the pool is fetched
    as compiled, and every other constant opens to the constant the compiler
    put there, no part of it in the clear. *)
Theorem sealed_program_reads_as_compiled (ins : list Z) (pool : list Object) (password : list Z) :
  zlen ins <= 2 ^ 38 -> Forall stream_fits pool ->
  let '(ins', pool') := EncryptByteCode ins pool password in
  let secret := effective_password ins password in
  let st := NewXORStream (zlen ins') secret in
  fetches st ins' ins /\
  Forall2 (reads_as (SealKey (zlen ins') secret (Some st)) st) pool' pool.
Proof.
  intros Hl Hp. unfold EncryptByteCode. cbv zeta. rewrite sealed_stream_length.
  set (secret := effective_password ins password).
  split; [by apply sealed_fetches|].
  assert (Hi64 : i64 (zlen ins) = zlen ins) by (apply i64_id; pose proof (zlen_nonneg ins); wide_lia).
  apply Forall2_fmap_l. apply Forall_Forall2_diag. eapply Forall_impl; [exact Hp|].
  intros o Ho. unfold compose, reads_as.
  assert (Hk : key_ok (SealKey (zlen ins) secret None)) by done.
  assert (Hk' : opens_for (SealKey (zlen ins) secret None)
    (SealKey (zlen ins) secret (Some (NewXORStream (zlen ins) secret)))).
  { split_and!; [|done|by left]. unfold key_ok, seed. cbn. by rewrite Hi64. }
  destruct o as [| | | | | | | | | | | | |f| | | | | | | | |]; cbn [seal_constant];
    try (intros Hs; destruct (seal_spec _ _ Hk Hs) as [s (He & _ & Hc & _ & Hd)];
         rewrite He; split; [exact Hc|by apply Hd]).
  eexists. split; [done|]. split; [unfold seal_fn; by destruct (SecureXOR _ _ _)|].
  rewrite seal_fn_stream. by apply sealed_fetches.
Qed.

End Seal.

(** An encoder for the one error of the examples. *)
Definition sample_info : ErrorInfo := Info (bytes "boom") [] [] 0 0 0 0 [] [].

Definition sample_gob : Gob := {|
  encodeError i r := match r with [] => Some [7] | _ => None end;
  decodeError b := Some (sample_info, []) |}.

Definition sample_value : Object :=
  Array [Integer (-5); Str []; Hash [(Key STRING_OBJ 0 [107], (Str [107], Boolean true))];
         Closure (Ptr 3 (bare_function [1])) [Cell 4] (Some 9%nat); Error sample_info []].

Definition sample_key : sealKey := SealKey 40 [112] None.

Lemma sample_sealable : let C := counting_cipher in let G := sample_gob in sealable sample_value.
Proof.
  intros C G. constructor; [done|]. cbn [held children sample_value].
  repeat constructor; try done. exists [7]. by split_and!.
Qed.

Lemma sealed_values_open_witness :
  let C := counting_cipher in let G := sample_gob in
  exists s, encryptObject sample_key sample_value = Some s /\
    decryptObject (SealKey 77 [112] (Some (NewXORStream 77 [112]))) s = Opened sample_value.
Proof.
  intros C G.
  destruct (sealed_values_open sample_key (SealKey 77 [112] (Some (NewXORStream 77 [112]))) sample_value)
    as [s (He & _ & Hd & _)]; [done|exact sample_sealable| |by exists s].
  split_and!; [done|done|by right].
Defined.

Lemma sealing_refuses_exactly_witness :
  let C := counting_cipher in let G := sample_gob in
  encryptObject sample_key (Array [Str [115]; Error sample_info [([102], BuiltIn 1)]]) = None.
Proof.
  intros C G. apply (sealing_refuses_exactly sample_key); [done|]. vm_compute. reflexivity.
Defined.

Lemma sealed_program_reads_as_compiled_witness :
  let C := counting_cipher in let G := sample_gob in
  let '(ins', pool') := EncryptByteCode [1; 2; 3] [CompiledFn (Ptr 0 (bare_function [9; 8])); sample_value] [112] in
  XOROneAt (NewXORStream 3 [112]) (ins' !!! 1%nat) 1 = Some 2 /\ length pool' = 2%nat.
Proof.
  intros C G.
  pose proof (sealed_program_reads_as_compiled [1; 2; 3]
    [CompiledFn (Ptr 0 (bare_function [9; 8])); sample_value] [112]) as H.
  destruct (EncryptByteCode _ _ _) as [ins' pool'] eqn:E. cbv zeta in H.
  destruct H as [[Hl Hf] Hp].
  - unfold zlen. cbn [length]. lia.
  - repeat constructor. cbn. unfold zlen. cbn [length]. lia.
  - assert (zlen ins' = 3) as Hz by (unfold zlen; by rewrite Hl).
    rewrite Hz in Hf. split; [by apply (Hf 1%nat)|]. by apply Forall2_length in Hp.
Defined.
