(* ===== verification/ReplSeal.v ===== *)
(** * One REPL session under changing keys: [src/mutil/repl_seal.go]

    A REPL compiles every line into a program of its own over a constant pool
    it carries forward, and each line's runtime derives its key from that
    line's length.  [ReplSealer.Seal] therefore re-keys the functions carried
    over.  Functions are shared by pointer with the globals, so their streams
    live in a store by address and are re-keyed there; any closure that holds
    the address reads the store. *)

From stdpp Require Import base list list_numbers numbers gmap strings.
From Stdlib Require Import ZArith Lia.
From S2P Require Import Prelude Polymorphic Sha256 Object Keystream Seal.

(** A slot of the pool: nil, a function by address, or another constant. *)
Inductive pool_entry : Type :=
| PNil
| PFn (addr : nat)
| PObj (o : Object).

(** The streams of the functions, by address. *)
Notation store := (gmap nat (list Z)).
Definition stream_at (h : store) (a : nat) : list Z := default [] (h !! a).

(** [ReplSealer], and what [Seal] answers. *)
Record ReplSealer : Type := Sealer { rs_password : list Z; rs_seed : Z; rs_sealed : nat }.

Definition NewReplSealer (password : list Z) : ReplSealer := Sealer password 0 0.

Inductive seal_error : Type := ErrReplSealerNoPassword | ErrReplSealerPoolShrank | ErrRekey (i : nat).

Section Repl.
Context {C : Cipher} {G : Gob}.

(** Phase one: the re-keyed stream of every carried function that has one. *)
Fixpoint rekeyed (s : ReplSealer) (next : Z) (h : store) (i : nat) (carried : list pool_entry)
    : seal_error + list (nat * list Z) :=
  match carried with
  | [] => inr []
  | PFn a :: rest =>
      if bool_decide (stream_at h a = []) then rekeyed s next h (S i) rest
      else match SecureXOR (stream_at h a) (rs_seed s) (rs_password s) with
           | None => inl (ErrRekey i)
           | Some plain =>
               match SecureXOR plain next (rs_password s) with
               | None => inl (ErrRekey i)
               | Some x =>
                   match rekeyed s next h (S i) rest with
                   | inl e => inl e
                   | inr l => inr ((a, x) :: l)
                   end
               end
           end
  | _ :: rest => rekeyed s next h (S i) rest
  end.

(** The constants, in order: a carried function has been re-keyed already. *)
Definition seal_object (next : Z) (password : list Z) (o : Object) : Object :=
  default o (encryptObject (SealKey next password None) o).

Definition seal_carried (next : Z) (password : list Z) (e : pool_entry) : pool_entry :=
  match e with
  | PObj o => PObj (seal_object next password o)
  | e => e
  end.

Fixpoint seal_new (next : Z) (password : list Z) (h : store) (fresh : list pool_entry)
    : store * list pool_entry :=
  match fresh with
  | [] => (h, [])
  | PNil :: rest => let '(h, l) := seal_new next password h rest in (h, PNil :: l)
  | PFn a :: rest =>
      let h := if bool_decide (stream_at h a = []) then h
               else match SecureXOR (stream_at h a) next password with
                    | Some x => <[a := x]> h
                    | None => h
                    end in
      let '(h, l) := seal_new next password h rest in (h, PFn a :: l)
  | PObj o :: rest =>
      let '(h, l) := seal_new next password h rest in (h, PObj (seal_object next password o) :: l)
  end.

(** [ReplSealer.Seal]: the sealer, the store, the sealed stream and the pool. *)
Definition Seal (s : ReplSealer) (h : store) (ins : list Z) (pool : list pool_entry)
    : seal_error + (ReplSealer * store * list Z * list pool_entry) :=
  if bool_decide (rs_password s = []) then inl ErrReplSealerNoPassword
  else if (length pool <? rs_sealed s)%nat then inl ErrReplSealerPoolShrank
  else
    let next := zlen ins in
    match (if next =? rs_seed s then inr []
           else rekeyed s next h 0 (take (rs_sealed s) pool)) with
    | inl e => inl e
    | inr l =>
        let h := foldl (fun h p => <[p.1 := p.2]> h) h l in
        let ins' := default ins (SecureXOR ins next (rs_password s)) in
        let carried := seal_carried next (rs_password s) <$> take (rs_sealed s) pool in
        let '(h, fresh) := seal_new next (rs_password s) h (drop (rs_sealed s) pool) in
        inr (Sealer (rs_password s) next (length pool), h, ins', carried ++ fresh)
    end.

(* ------------------------------------------------------------------ *)
(** ** A session *)

(** A line: its stream and the constants its compilation appended. *)
Record Line : Type := ALine { l_ins : list Z; l_new : list pool_entry }.

Definition functions (l : list pool_entry) : list nat :=
  omap (fun e => match e with PFn a => Some a | _ => None end) l.

Record Session : Type := ASession {
  s_sealer : ReplSealer; s_store : store; s_pool : list pool_entry; s_ins : list Z }.

Section Lines.
Context (code_of : nat -> list Z).   (* what the compiler emitted for a function *)

Definition compiled (h : store) (fresh : list pool_entry) : store :=
  foldr (fun a h => <[a := code_of a]> h) h (functions fresh).

Definition run_line (s : Session) (l : Line) : seal_error + Session :=
  match Seal (s_sealer s) (compiled (s_store s) (l_new l)) (l_ins l) (s_pool s ++ l_new l) with
  | inl e => inl e
  | inr (sealer, h, ins, pool) => inr (ASession sealer h pool ins)
  end.

Fixpoint run_lines (s : Session) (ls : list Line) : seal_error + Session :=
  match ls with
  | [] => inr s
  | l :: ls => match run_line s l with inl e => inl e | inr s => run_lines s ls end
  end.

Definition start (password : list Z) : Session := ASession (NewReplSealer password) ∅ [] [].

(* ------------------------------------------------------------------ *)
(** ** The invariant *)

(** A function's stream under a line's key. *)
Definition keyed (password : list Z) (s : Z) (plain : list Z) : list Z :=
  XORKeyStream (NewXORStream s password) 0 plain.

Lemma keyed_nil password s plain : keyed password s plain = [] <-> plain = [].
Proof.
  split; [|by intros ->]. intros E. apply nil_length_inv.
  rewrite <- (length_XORKeyStream (NewXORStream s password) 0). by apply (f_equal length) in E.
Qed.

Lemma SecureXOR_keyed password s plain : plain <> [] -> SecureXOR plain s password = Some (keyed password s plain).
Proof. apply SecureXOR_some. Qed.

Lemma SecureXOR_unkeyed password s plain :
  plain <> [] -> SecureXOR (keyed password s plain) s password = Some plain.
Proof.
  intros Hp. rewrite SecureXOR_some by (by rewrite keyed_nil). unfold keyed. by rewrite XORKeyStream_twice.
Qed.

(** How a slot of the carried pool stands to the constant it was compiled as. *)
Definition slot_ok (password : list Z) (e plain : pool_entry) : Prop :=
  match e, plain with
  | PNil, PNil => True
  | PFn a, PFn b => a = b
  | PObj s, PObj o =>
      sealable o -> exists n, i64 n <> 0 /\ seals_to (SealKey n password None) o s
  | _, _ => False
  end.

Record invariant (password : list Z) (plain : list pool_entry) (s : Session) : Prop := {
  inv_password : rs_password (s_sealer s) = password;
  inv_sealed : rs_sealed (s_sealer s) = length (s_pool s);
  inv_slots : Forall2 (slot_ok password) (s_pool s) plain;
  inv_keyed : forall a, a ∈ functions plain ->
    stream_at (s_store s) a = keyed password (rs_seed (s_sealer s)) (code_of a) }.

Lemma slots_functions password pool plain :
  Forall2 (slot_ok password) pool plain -> functions pool = functions plain.
Proof.
  induction 1 as [|e p pool plain Hs _ IH]; [done|].
  destruct e, p; try done; cbn in *; by f_equal.
Qed.

Lemma stream_compiled h fresh a :
  stream_at (compiled h fresh) a = if decide (a ∈ functions fresh) then code_of a else stream_at h a.
Proof.
  unfold compiled. induction (functions fresh) as [|b l IH]; [done|]. cbn [foldr].
  unfold stream_at in *. destruct (decide (a = b)) as [->|Hab].
  - rewrite lookup_insert_eq. rewrite decide_True by set_solver. done.
  - rewrite lookup_insert_ne by done. rewrite IH. by repeat case_decide; set_solver.
Qed.

(** Phase one answers, and re-keys exactly the carried streams. *)
Lemma rekeyed_spec s next h pool i :
  (forall a, a ∈ functions pool -> stream_at h a = keyed (rs_password s) (rs_seed s) (code_of a)) ->
  exists l, rekeyed s next h i pool = inr l /\
    (forall a, stream_at (foldl (fun h p => <[p.1 := p.2]> h) h l) a =
       if decide (a ∈ functions pool) then keyed (rs_password s) next (code_of a) else stream_at h a).
Proof.
  intros Hk.
  assert (exists l, rekeyed s next h i pool = inr l /\
    (forall a x, (a, x) ∈ l -> x = keyed (rs_password s) next (code_of a)) /\
    (forall a, a ∈ functions pool <-> a ∈ l.*1 \/ (a ∈ functions pool /\ code_of a = []))) as (l & Hl & Hv & Hd).
  { revert i. induction pool as [|e pool IH]; intros i.
    { exists []. split_and!; [done| |]; set_solver. }
    destruct e as [|a|o].
    - by apply IH.
    - destruct (IH ltac:(intros b Hb; apply Hk; set_solver) (S i)) as (l & Hl & Hv & Hd).
      cbn [rekeyed]. rewrite (Hk a) by set_solver. case_bool_decide as E.
      + apply keyed_nil in E. exists l. split_and!; [done|done|]. intros b. cbn in *. set_solver.
      + rewrite keyed_nil in E. rewrite SecureXOR_unkeyed, SecureXOR_keyed, Hl by done.
        eexists. split_and!; [done| |].
        * intros b x Hb. apply elem_of_cons in Hb as [Hb|Hb]; [|by apply Hv]. by simplify_eq.
        * intros b. cbn in *. set_solver.
    - by apply IH. }
  exists l. split; [done|]. clear Hl. intros a.
  assert (forall h, (forall a x, (a, x) ∈ l -> x = keyed (rs_password s) next (code_of a)) ->
    stream_at (foldl (fun h p => <[p.1 := p.2]> h) h l) a =
    if decide (a ∈ l.*1) then keyed (rs_password s) next (code_of a) else stream_at h a) as Hf.
  { clear. induction l as [|[b x] l IH]; intros h Hv; [done|]. cbn [foldl].
    rewrite IH by (intros; apply Hv; set_solver). destruct (decide (a = b)) as [->|Hab].
    - rewrite (decide_True (P := b ∈ ((b, x) :: l).*1)) by set_solver. case_decide; [done|].
      unfold stream_at. rewrite lookup_insert_eq. cbn. apply Hv. set_solver.
    - unfold stream_at. rewrite lookup_insert_ne by done. by repeat case_decide; set_solver. }
  rewrite Hf by done. specialize (Hd a). repeat case_decide; try set_solver.
  assert (Hn : code_of a = []) by set_solver. by rewrite Hk, !Hn by done.
Qed.
Lemma functions_app l k : functions (l ++ k) = functions l ++ functions k.
Proof. apply omap_app. Qed.

Lemma slot_sealed password n o :
  i64 n <> 0 -> slot_ok password (PObj (seal_object n password o)) (PObj o).
Proof.
  intros Hn Ho. exists n. split; [done|].
  destruct (seal_spec (SealKey n password None) o ltac:(done) Ho) as [s Hs].
  unfold seal_object. pose proof Hs as [-> _]. exact Hs.
Qed.

Lemma slot_carried password n e plain :
  slot_ok password e plain -> slot_ok password (seal_carried n password e) plain.
Proof.
  destruct e as [| |s], plain as [| |o]; try done. intros Hs Ho. destruct (Hs Ho) as (m & Hm & Hse).
  exists m. split; [done|]. cbn. unfold seal_object.
  pose proof Hse as (_ & _ & _ & Hf & _). by rewrite Hf.
Qed.

Lemma seal_new_spec next password fresh h :
  i64 next <> 0 -> NoDup (functions fresh) ->
  (forall a, a ∈ functions fresh -> stream_at h a = code_of a) ->
  let '(h', l) := seal_new next password h fresh in
  (forall a, stream_at h' a =
     if decide (a ∈ functions fresh) then keyed password next (code_of a) else stream_at h a) /\
  Forall2 (slot_ok password) l fresh.
Proof.
  intros Hn. revert h. induction fresh as [|e fresh IH]; intros h Hnd Hh; [by split|].
  destruct e as [|b|o]; cbn [seal_new].
  - specialize (IH h Hnd Hh). destruct (seal_new _ _ _ _) as [h' l]. destruct IH. split; [done|by constructor].
  - cbn in Hnd. apply NoDup_cons in Hnd as [Hb Hnd].
    set (h1 := if bool_decide (stream_at h b = []) then h else _).
    assert (H1 : forall a, stream_at h1 a = if decide (a = b) then keyed password next (code_of b) else stream_at h a).
    { intros a. unfold h1. rewrite (Hh b) by set_solver. case_bool_decide as E.
      - case_decide; [subst|done]. rewrite (Hh b) by set_solver. by rewrite E.
      - rewrite SecureXOR_keyed by done. unfold stream_at. case_decide; [subst; by rewrite lookup_insert_eq|].
        by rewrite lookup_insert_ne. }
    specialize (IH h1 Hnd). destruct (seal_new _ _ _ _) as [h' l]. destruct IH as [IH Hl].
    { intros a Ha. rewrite H1, decide_False by (by intros ->). apply Hh. set_solver. }
    split; [|by constructor]. intros a. rewrite IH, H1. clear IH. repeat case_decide; set_solver.
  - specialize (IH h Hnd Hh). destruct (seal_new _ _ _ _) as [h' l]. destruct IH.
    split; [done|]. constructor; [by apply slot_sealed|done].
Qed.

(** What a line needs: instructions, within the reach of the cipher. *)
Definition line_ok (l : Line) : Prop := l_ins l <> [] /\ zlen (l_ins l) <= 2 ^ 38.

Lemma line_seed l : line_ok l -> i64 (zlen (l_ins l)) <> 0.
Proof.
  intros [Hne Hl]. pose proof (zlen_nonneg (l_ins l)). rewrite i64_id by wide_lia.
  destruct (l_ins l); [done|]. unfold zlen. simpl. lia.
Qed.

Lemma line_step password plain s l :
  password <> [] -> line_ok l -> NoDup (functions (plain ++ l_new l)) ->
  invariant password plain s ->
  exists s', run_line s l = inr s' /\ invariant password (plain ++ l_new l) s' /\
    rs_seed (s_sealer s') = zlen (l_ins l) /\
    s_ins s' = default (l_ins l) (SecureXOR (l_ins l) (zlen (l_ins l)) password).
Proof.
  intros Hp Hl Hnd [Hpw Hse Hsl Hke]. rewrite functions_app in Hnd.
  apply NoDup_app in Hnd as (Hn1 & Hdis & Hn2).
  unfold run_line, Seal. rewrite Hpw, bool_decide_eq_false_2 by done.
  rewrite Hse, (proj2 (Nat.ltb_ge _ _)) by (rewrite length_app; lia).
  rewrite take_app_length, drop_app_length. set (next := zlen (l_ins l)).
  set (h0 := compiled (s_store s) (l_new l)).
  assert (H0 : forall a, a ∈ functions plain -> stream_at h0 a = keyed password (rs_seed (s_sealer s)) (code_of a)).
  { intros a Ha. unfold h0. rewrite stream_compiled, decide_False by (by apply Hdis). by apply Hke. }
  assert (exists rk, (if next =? rs_seed (s_sealer s) then inr []
      else rekeyed (s_sealer s) next h0 0 (s_pool s)) = inr rk /\
    forall a, stream_at (foldl (fun h p => <[p.1 := p.2]> h) h0 rk) a =
      if decide (a ∈ functions plain) then keyed password next (code_of a) else stream_at h0 a) as (rk & Hrk & Hst).
  { destruct (Z.eqb_spec next (rs_seed (s_sealer s))) as [En|En].
    - exists []. split; [done|]. intros a. cbn. case_decide; [|done]. rewrite En. by apply H0.
    - rewrite <- Hpw, <- (slots_functions _ _ _ Hsl). apply rekeyed_spec. rewrite Hpw.
      by rewrite (slots_functions _ _ _ Hsl). }
  rewrite Hrk. pose proof (seal_new_spec next password (l_new l)
    (foldl (fun h p => <[p.1 := p.2]> h) h0 rk) (line_seed l Hl) Hn2) as Hnew.
  destruct (seal_new _ _ _ _) as [h2 fresh]. destruct Hnew as [Hh2 Hfr].
  { intros a Ha. rewrite Hst, decide_False by (intros Ha'; by apply (Hdis a)).
    unfold h0. by rewrite stream_compiled, decide_True. }
  eexists. split; [done|]. split_and!; [|done|done].
  split; cbn; [done| | |].
  - by rewrite !length_app, length_fmap, (Forall2_length _ _ _ Hfr).
  - apply Forall2_app; [|done]. apply Forall2_fmap_l. eapply Forall2_impl; [done|].
    intros e p. apply slot_carried.
  - intros a. rewrite functions_app, elem_of_app, Hh2, Hst. intros [Ha|Ha]; repeat case_decide; set_solver.
Qed.

Lemma lines_step password plain s ls :
  password <> [] -> Forall line_ok ls -> NoDup (functions (plain ++ concat (l_new <$> ls))) ->
  invariant password plain s ->
  exists s', run_lines s ls = inr s' /\ invariant password (plain ++ concat (l_new <$> ls)) s' /\
    (ls <> [] -> exists l, last ls = Some l /\ rs_seed (s_sealer s') = zlen (l_ins l) /\
       s_ins s' = default (l_ins l) (SecureXOR (l_ins l) (zlen (l_ins l)) password)).
Proof.
  intros Hp Hls. revert plain s. induction Hls as [|l ls Hl _ IH]; intros plain s Hnd Hinv.
  { exists s. cbn. rewrite app_nil_r. split_and!; done. }
  cbn in Hnd |- *. rewrite app_assoc in Hnd |- *.
  destruct (line_step password plain s l Hp Hl) as (s1 & Hs1 & Hi1 & Hse & Hin); [|done|].
  { rewrite functions_app in Hnd. by apply NoDup_app in Hnd as (? & _ & _). }
  rewrite Hs1. destruct (IH _ s1 Hnd Hi1) as (s2 & Hs2 & Hi2 & Hlast).
  exists s2. split_and!; [done..|]. intros _. destruct ls as [|l2 ls].
  - cbn in Hs2. injection Hs2 as <-. by exists l.
  - rewrite last_cons_cons. by apply Hlast.
Qed.

(** C18: Functions survive the session.  After any sequence of lines, every
    function any line compiled is in the store under the key of the line that
    is about to run, so the runtime fetches its code byte for byte; the line's
    own stream is fetched as compiled; and every constant of every earlier line
    opens to the value it was compiled as. *)
Theorem repl_code_opens_on_every_line (password : list Z) (ls : list Line) :
  password <> [] -> ls <> [] -> Forall line_ok ls ->
  let pool := concat (l_new <$> ls) in
  NoDup (functions pool) -> (forall a, zlen (code_of a) <= 2 ^ 38) ->
  exists s l, run_lines (start password) ls = inr s /\ last ls = Some l /\
    let st := NewXORStream (zlen (l_ins l)) password in
    fetches st (s_ins s) (l_ins l) /\
    (forall a, a ∈ functions pool -> fetches st (stream_at (s_store s) a) (code_of a)) /\
    Forall2 (fun e p => match p with
      | PObj o => sealable o -> exists x, e = PObj x /\ covered x = true /\
          decryptObject (SealKey (zlen (l_ins l)) password (Some st)) x = Opened o
      | p => e = p
      end) (s_pool s) pool.
Proof.
  intros Hp Hne Hls pool Hnd Hlen.
  destruct (lines_step password [] (start password) ls Hp Hls Hnd) as (s & Hs & [Hpw _ Hsl Hke] & Hlast).
  { split; [done|done|constructor|set_solver]. }
  destruct (Hlast Hne) as (l & Hl & Hse & Hin). exists s, l. split_and!; [done|done|].
  assert (Hok : line_ok l). { rewrite last_lookup in Hl. by eapply Forall_lookup_1 in Hls. }
  cbv zeta. split_and!.
  - rewrite Hin. apply sealed_fetches. apply Hok.
  - intros a Ha. rewrite (Hke a Ha), Hse. split; [apply length_XORKeyStream|].
    intros i b Hi. by apply XOROneAt_sealed.
  - eapply Forall2_impl; [exact Hsl|]. intros e p Hep. destruct e as [|a|x], p as [|b|o]; try done.
    { by cbn in Hep; subst. }
    intros Ho. destruct (Hep Ho) as (n & Hn & (_ & _ & Hc & _ & Hd)). exists x. split_and!; [done..|].
    apply Hd. split_and!; [|done|by right]. unfold key_ok, seed. cbn.
    rewrite i64_id; [done|]. destruct Hok as [_ ?]. pose proof (zlen_nonneg (l_ins l)). wide_lia.
Qed.
End Lines.
End Repl.

Definition sample_code (a : nat) : list Z := [10; Z.of_nat (a mod 2)].

Lemma repl_code_opens_on_every_line_witness :
  let C := counting_cipher in let G := sample_gob in
  let ls := [ALine [1; 2] [PFn 1; PObj (Integer 7)]; ALine [5] []; ALine [6; 7; 8] [PFn 2]] in
  exists s, run_lines sample_code (start [112]) ls = inr s /\
    fetches (NewXORStream 3 [112]) (stream_at (s_store s) 1) (sample_code 1).
Proof.
  intros C G ls.
  destruct (repl_code_opens_on_every_line sample_code [112] ls) as (s & l & Hs & Hl & _ & Hf & _).
  - done.
  - done.
  - repeat constructor; done.
  - apply (bool_decide_unpack _). vm_compute. exact I.
  - intros a. unfold zlen, sample_code. cbn [length]. lia.
  - injection Hl as <-. exists s. split; [done|]. apply (Hf 1%nat). apply (bool_decide_unpack _). vm_compute. exact I.
Defined.
