(* ===== verification/Traceback.v ===== *)
(** * Tracebacks: [src/vm/traceback.go]

    Where a failing program was: the frames of the machine resolved against
    the functions' line tables and the linked source, the collapsing of
    repeated calls, the quoted source line with its underline
    ([SpanUnderline] of [src/object/errorObj.go]), and the stamp an error value
    gets ([stampError], [decorateError]).  The rendered arguments of a frame
    are part of the frame's view; reading them off the stack is the machine's. *)

From stdpp Require Import base list list_numbers numbers gmap strings.
From Stdlib Require Import ZArith Lia.
From S2P Require Import Prelude Code LineTable Polymorphic Text Lexer Index Paths Module Link Object Equality.

(* ------------------------------------------------------------------ *)
(** ** Frames *)

(** [TracebackFrame]. *)
Record TracebackFrame : Type := TFrame {
  t_Function : list Z; t_File : list Z; t_Line : Z; t_Column : Z; AbsLine : Z;
  t_EndLine : Z; t_EndColumn : Z; t_Args : list (list Z); MacroLine : Z; MacroColumn : Z }.

Definition mainFrameName : list Z := bytes "<main>".
Definition anonymousFrameName : list Z := bytes "<anonymous>".
Definition maxCycleLength : nat := 8.
Definition minCycleRepeats : nat := 3.
Definition maxRenderedFrames : nat := 40.

(** [Signature] and [String]. *)
Definition Signature (f : TracebackFrame) : list Z :=
  if bool_decide (t_Args f = []) then t_Function f
  else t_Function f ++ bytes "(" ++ join (bytes ", ") (t_Args f) ++ bytes ")".

Definition position_text (f : TracebackFrame) : list Z :=
  let at_ := decimal (t_Line f) ++ bytes ":" ++ decimal (t_Column f) ++ bytes ")" in
  if (0 <? t_Line f) && negb (bool_decide (t_File f = [])) then bytes " (" ++ t_File f ++ bytes ":" ++ at_
  else if 0 <? t_Line f then bytes " (line " ++ at_
  else if negb (bool_decide (t_File f = [])) then bytes " (" ++ t_File f ++ bytes ")"
  else [].

Definition frame_text (f : TracebackFrame) : list Z :=
  bytes "at " ++ Signature f ++ position_text f ++
  (if 0 <? MacroLine f
   then bytes ", expanded from a macro defined at line " ++ decimal (MacroLine f) ++ bytes ":" ++
        decimal (MacroColumn f)
   else []).

(** [sameSite]. *)
Definition sameSite (f g : TracebackFrame) : bool :=
  bool_decide (t_Function f = t_Function g) && bool_decide (t_File f = t_File g) &&
  (t_Line f =? t_Line g) && (t_Column f =? t_Column g).

(** [resolveLine]. *)
Definition resolveLine (bc : ByteCode) (absLine : Z) : list Z * Z :=
  match ModuleAt bc absLine with
  | Some (p, local) => (p, local)
  | None => (SourceFile bc, absLine)
  end.

(** One frame of the machine: its function, where it stands, its arguments. *)
Record frame_view : Type := View { v_fn : CompiledFunction; v_ip : Z; v_args : list (list Z) }.

(** The body of the loop of [Traceback]. *)
Definition traceback_entry (bc : ByteCode) (v : frame_view) : TracebackFrame :=
  let fn := v_fn v in
  let name := if bool_decide (Polymorphic.Name fn = EmptyString) then anonymousFrameName
              else bytes (Polymorphic.Name fn) in
  let started := 0 <=? v_ip v in
  let at_table t := if started then At t (v_ip v) else None in
  let '(abs, (file, line), col) :=
    match at_table (fn_LineTable fn) with
    | Some (l, c) => (l, resolveLine bc l, c)
    | None => (0, ([], 0), 0)
    end in
  let '(endLine, endCol) :=
    match at_table (fn_EndTable fn) with
    | Some (l, c) => ((resolveLine bc l).2, c)
    | None => (0, 0)
    end in
  let '(macroLine, macroCol) :=
    match at_table (fn_MacroTable fn) with
    | Some (l, c) => ((resolveLine bc l).2, c)
    | None => (0, 0)
    end in
  TFrame name (if bool_decide (file = []) then SourceFile bc else file)
    line col abs endLine endCol (v_args v) macroLine macroCol.

(** [Traceback], over the active frames, innermost first. *)
Definition Traceback (bc : ByteCode) (views : list frame_view) : list TracebackFrame :=
  traceback_entry bc <$> views.

(* ------------------------------------------------------------------ *)
(** ** Collapsing *)

(** [tracebackEntry]: a frame, or a note standing for frames. *)
Inductive tracebackEntry : Type :=
| EFrame (f : TracebackFrame)
| ERepeat (len more : nat)
| EOmitted (n : nat).

Definition note_text (e : tracebackEntry) : list Z :=
  match e with
  | EFrame _ => []
  | ERepeat len more =>
      bytes "... previous " ++
      (if (1 <? len)%nat then decimal (Z.of_nat len) ++ bytes " frames" else bytes "frame") ++
      bytes " repeated " ++ decimal (Z.of_nat more) ++ bytes " more times ..."
  | EOmitted n => bytes "... " ++ decimal (Z.of_nat n) ++ bytes " frames omitted ..."
  end.

(** [runsMatch] of two runs of one length. *)
Fixpoint runsMatch (a b : list TracebackFrame) : bool :=
  match a, b with
  | x :: a, y :: b => sameSite x y && runsMatch a b
  | _, _ => true
  end.

(** The inner loop of [cycleAt]: how many runs after the first match it. *)
Fixpoint count_runs (fuel : nat) (block rest : list TracebackFrame) : nat :=
  match fuel with
  | O => 0
  | S fuel =>
      if (length block <=? length rest)%nat && runsMatch block (take (length block) rest)
      then S (count_runs fuel block (drop (length block) rest))
      else 0
  end.

(** [cycleAt], on the frames from [i] on, trying the lengths in order. *)
Fixpoint cycle_from (tries len : nat) (frames : list TracebackFrame) : nat * nat :=
  match tries with
  | O => (1, 1)%nat
  | S tries =>
      if (length frames <? len)%nat then (1, 1)%nat
      else
        let count := S (count_runs (length frames) (take len frames) (drop len frames)) in
        if (minCycleRepeats <=? count)%nat then (len, count) else cycle_from tries (S len) frames
  end.

Definition cycleAt (frames : list TracebackFrame) : nat * nat := cycle_from maxCycleLength 1 frames.

(** The loop of [collapseCycles]: every turn consumes at least one frame. *)
Fixpoint collapse_loop (fuel : nat) (frames : list TracebackFrame) : list tracebackEntry :=
  match fuel, frames with
  | S fuel, f :: rest =>
      let '(len, repeats) := cycleAt frames in
      if (repeats <? minCycleRepeats)%nat then EFrame f :: collapse_loop fuel rest
      else (EFrame <$> take len frames) ++ ERepeat len (repeats - 1) ::
           collapse_loop fuel (drop (len * repeats) frames)
  | _, _ => []
  end.

(** [truncateEntries]. *)
Definition truncateEntries (entries : list tracebackEntry) : list tracebackEntry :=
  if (length entries <=? maxRenderedFrames)%nat then entries
  else
    let head := (maxRenderedFrames * 3 / 4)%nat in
    let tail := (maxRenderedFrames - head)%nat in
    take head entries ++ EOmitted (length entries - head - tail) ::
    drop (length entries - tail) entries.

Definition collapseCycles (frames : list TracebackFrame) : list tracebackEntry :=
  truncateEntries (collapse_loop (length frames) frames).

(* ------------------------------------------------------------------ *)
(** ** The quoted line *)

(** [strings.TrimRight(s, "\r")]. *)
Fixpoint trim_return (s : list Z) : list Z :=
  match s with
  | [] => []
  | b :: s => if bool_decide (Forall (eq cReturn) (b :: s)) then [] else b :: trim_return s
  end.

(** [sourceLine]: line [line], from 1, of the program text. *)
Definition sourceLine (source : list Z) (line : Z) : option (list Z) :=
  if line <=? 0 then None
  else trim_return <$> Split (replace_crlf source) cNewline !! Z.to_nat (line - 1).

(** [unicode.IsSpace], and whether [strings.TrimSpace] leaves nothing. *)
Definition IsSpace (r : Z) : bool :=
  in_range 9 13 r || (r =? 32) || (r =? 0x85) || (r =? 0xA0) || (r =? 0x1680) ||
  in_range 0x2000 0x200A r || (r =? 0x2028) || (r =? 0x2029) || (r =? 0x202F) || (r =? 0x205F) ||
  (r =? 0x3000).

Definition blank (s : list Z) : bool := forallb IsSpace (runes s).

(** [object.SpanUnderline]. *)
Definition SpanUnderline (text : list Z) (startCol endCol : Z) : list Z :=
  let rs := runes text in
  let n := zlen rs in
  let start := Z.min (Z.max (startCol - 1) 0) n in
  let width := Z.max (endCol - startCol) 1 in
  let width := if n <? start + width then n - start else width in
  let width := Z.max width 1 in
  ((fun r => if r =? cTab then cTab else cSpace) <$> take (Z.to_nat start) rs) ++
  replicate (Z.to_nat width) 94.

(** [underlineFor] and [snippetFor]. *)
Definition underlineFor (text : list Z) (f : TracebackFrame) : list Z :=
  let endCol := if t_Line f <? t_EndLine f then zlen (runes text) + 1
                else if t_EndLine f =? t_Line f then t_EndColumn f else 0 in
  SpanUnderline text (t_Column f) endCol.

Definition lookup_line (f : TracebackFrame) : Z := if AbsLine f <=? 0 then t_Line f else AbsLine f.

Definition snippetFor (f : TracebackFrame) (source : list Z) : list (list Z) :=
  if (t_Line f <=? 0) || bool_decide (source = []) then []
  else match sourceLine source (lookup_line f) with
       | None => []
       | Some text =>
           if blank text then []
           else
             let number := decimal (t_Line f) in
             let lead := cTab :: bytes "  " in
             [lead ++ number ++ bytes " | " ++ text;
              lead ++ replicate (length number) cSpace ++ bytes " | " ++ underlineFor text f]
       end.

(** [renderFrames]. *)
Definition renderFrames (frames : list TracebackFrame) (source : list Z) : list Z :=
  join [cNewline] (concat ((fun e => match e with
    | EFrame f => (cTab :: frame_text f) :: snippetFor f source
    | e => [cTab :: note_text e]
    end) <$> collapseCycles frames)).

(* ------------------------------------------------------------------ *)
(** ** Stamping an error value *)

(** [stampError], given the traceback: a position already set is kept. *)
Definition stampError (bc : ByteCode) (frames : list TracebackFrame) (i : ErrorInfo) : ErrorInfo :=
  if 0 <? err_Line i then i
  else match frames with
       | [] => i
       | top :: _ =>
           Info (Message i) (Context i) (t_File top) (t_Line top) (t_Column top)
             (t_EndLine top) (t_EndColumn top)
             (default (SourceLine i) (sourceLine (SourceText bc) (lookup_line top)))
             (frame_text <$> frames)
       end.

(** [decorateError]: an error, or the errors of a multi-value. *)
Definition decorateError (bc : ByteCode) (frames : list TracebackFrame) (o : Object) : Object :=
  match o with
  | Error i r => Error (stampError bc frames i) r
  | MultiValue l =>
      MultiValue ((fun v => match v with
        | Error i r => Error (stampError bc frames i) r
        | v => v
        end) <$> l)
  | o => o
  end.

(* ------------------------------------------------------------------ *)
(** ** What the collapsed report says *)

(** The frames a report stands for: a repeat copies the frames before it. *)
Fixpoint expand (shown : list TracebackFrame) (entries : list tracebackEntry) : list TracebackFrame :=
  match entries with
  | [] => shown
  | EFrame f :: es => expand (shown ++ [f]) es
  | ERepeat len more :: es =>
      expand (shown ++ concat (replicate more (drop (length shown - len) shown))) es
  | EOmitted _ :: es => expand shown es
  end.

Definition same_calls : list TracebackFrame -> list TracebackFrame -> Prop :=
  Forall2 (fun f g => sameSite f g = true).

Lemma sameSite_refl f : sameSite f f = true.
Proof. unfold sameSite. by rewrite !bool_decide_eq_true_2, !Z.eqb_refl. Qed.

Lemma same_calls_refl l : same_calls l l.
Proof. induction l; constructor; [apply sameSite_refl|done]. Qed.

Lemma runsMatch_spec a b : length a = length b -> runsMatch a b = true -> same_calls a b.
Proof.
  revert b. induction a as [|x a IH]; intros [|y b] Hl H; simplify_eq/=; [constructor|].
  apply andb_true_iff in H as [? ?]. constructor; [done|by apply IH].
Qed.

Lemma count_runs_spec fuel block rest :
  let n := count_runs fuel block rest in
  (n * length block <= length rest)%nat /\
  same_calls (concat (replicate n block)) (take (n * length block) rest).
Proof.
  revert rest. induction fuel as [|fuel IH]; intros rest; cbn [count_runs]; [split; [lia|constructor]|].
  destruct (length block <=? length rest)%nat eqn:Hl; [|split; [simpl; lia|constructor]].
  destruct (runsMatch _ _) eqn:Hm; [|split; [simpl; lia|constructor]].
  breflect. cbn [andb]. destruct (IH (drop (length block) rest)) as [Hn Hs]. set (n := count_runs _ _ _) in *.
  rewrite length_drop in Hn. cbn [replicate concat]. split; [lia|].
  replace (S n * length block)%nat with (length block + n * length block)%nat by lia.
  rewrite <- take_take_drop. apply Forall2_app; [|done].
  apply runsMatch_spec; [|done]. rewrite length_take. lia.
Qed.

(** A cycle that counts: the run, its copies, and what is left. *)
Lemma cycle_from_spec tries len frames :
  (1 <= len)%nat ->
  let '(l, r) := cycle_from tries len frames in
  (r < minCycleRepeats)%nat \/
  ((1 <= l)%nat /\ (l * r <= length frames)%nat /\
   same_calls (take l frames ++ concat (replicate (r - 1) (take l frames))) (take (l * r) frames) /\
   length (take l frames) = l).
Proof.
  revert len. induction tries as [|tries IH]; intros len Hlen; cbn [cycle_from]; [left; unfold minCycleRepeats; lia|].
  destruct (length frames <? len)%nat eqn:Hl; [left; unfold minCycleRepeats; lia|]. breflect. cbv zeta.
  destruct (minCycleRepeats <=? _)%nat eqn:Hr; [|by apply IH; lia]. right.
  destruct (count_runs_spec (length frames) (take len frames) (drop len frames)) as [Hn Hs].
  set (n := count_runs _ _ _) in *. rewrite length_take, length_drop in Hn.
  rewrite (Nat.min_l len) in Hn by lia. split_and!; [lia|lia| |rewrite length_take; lia].
  replace (len * S n)%nat with (len + n * len)%nat by lia. rewrite <- take_take_drop.
  replace (S n - 1)%nat with n by lia. apply Forall2_app; [apply same_calls_refl|].
  rewrite length_take, (Nat.min_l len) in Hs by lia. done.
Qed.

Lemma expand_frames shown l es : expand shown ((EFrame <$> l) ++ es) = expand (shown ++ l) es.
Proof.
  revert shown. induction l as [|f l IH]; intros shown; simpl; [by rewrite app_nil_r|].
  by rewrite IH, <- app_assoc.
Qed.

Lemma collapse_expands fuel frames shown :
  (length frames <= fuel)%nat ->
  exists g, expand shown (collapse_loop fuel frames) = shown ++ g /\ same_calls g frames.
Proof.
  revert frames shown. induction fuel as [|fuel IH]; intros frames shown Hf.
  { destruct frames; [|simpl in Hf; lia]. exists []. split; [by rewrite app_nil_r|constructor]. }
  destruct frames as [|f rest] eqn:Ef; [exists []; split; [by rewrite app_nil_r|constructor]|].
  rewrite <- Ef in *. replace (collapse_loop (S fuel) frames) with
    (let '(len, repeats) := cycleAt frames in
     if (repeats <? minCycleRepeats)%nat then EFrame f :: collapse_loop fuel rest
     else (EFrame <$> take len frames) ++ ERepeat len (repeats - 1) ::
          collapse_loop fuel (drop (len * repeats) frames)) by (by rewrite Ef).
  pose proof (cycle_from_spec maxCycleLength 1 frames ltac:(lia)) as Hc. unfold cycleAt.
  destruct (cycle_from maxCycleLength 1 frames) as [len r]. destruct (r <? minCycleRepeats)%nat eqn:Hr; breflect.
  - cbn [expand]. destruct (IH rest (shown ++ [f])) as (g & Hg & Hs); [rewrite Ef in Hf; simpl in Hf; lia|].
    exists (f :: g). rewrite Hg, <- app_assoc, Ef. split; [done|]. constructor; [apply sameSite_refl|done].
  - destruct Hc as [Hc|(Hl & Hle & Hs & Hlen)]; [lia|].
    rewrite expand_frames. cbn [expand].
    replace (drop (length (shown ++ take len frames) - len) (shown ++ take len frames)) with (take len frames)
      by (rewrite length_app, Hlen, Nat.add_sub; by rewrite drop_app_length).
    unfold minCycleRepeats in Hr.
    destruct (IH (drop (len * r) frames)
      ((shown ++ take len frames) ++ concat (replicate (r - 1) (take len frames)))) as (g & Hg & Hs').
    { rewrite length_drop. nia. }
    rewrite Hg. eexists. split; [by rewrite <- !app_assoc|].
    rewrite app_assoc. unfold same_calls in *.
    enough (Hall : Forall2 (fun f g => sameSite f g = true)
      ((take len frames ++ concat (replicate (r - 1) (take len frames))) ++ g)
      (take (len * r) frames ++ drop (len * r) frames)) by (by rewrite take_drop in Hall).
    by apply Forall2_app.
Qed.

(** A collapsed traceback tells the whole stack.  Reading the report's
    entries back, each "repeated n more times" as n further copies of the run
    before it, gives a stack of the same calls at the same places as the one
    that failed, call for call.  The report is at most 41 entries: it is those
    entries, or their first 30 and last 10 around a note counting the rest. *)
Theorem traceback_collapse_is_faithful (frames : list TracebackFrame) :
  exists entries,
    same_calls (expand [] entries) frames /\
    (length (collapseCycles frames) <= 41)%nat /\
    ((length entries <= 40)%nat -> collapseCycles frames = entries) /\
    ((40 < length entries)%nat ->
       exists omitted, entries = take 30 entries ++ omitted ++ drop (length entries - 10) entries /\
         collapseCycles frames =
           take 30 entries ++ EOmitted (length omitted) :: drop (length entries - 10) entries).
Proof.
  exists (collapse_loop (length frames) frames).
  destruct (collapse_expands (length frames) frames []) as (g & Hg & Hs); [lia|].
  split; [by rewrite Hg|]. unfold collapseCycles, truncateEntries.
  set (es := collapse_loop _ _). change maxRenderedFrames with 40%nat.
  change (40 * 3 / 4)%nat with 30%nat. change (40 - 30)%nat with 10%nat.
  destruct (length es <=? 40)%nat eqn:Hl; breflect; split_and!; try lia; try done.
  - rewrite length_app. cbn [length]. rewrite length_take, length_drop. lia.
  - intros _. exists (take (length es - 10 - 30) (drop 30 es)). split.
    + rewrite <- (take_drop 30 es) at 1. f_equal.
      rewrite <- (take_drop (length es - 10 - 30) (drop 30 es)) at 1. f_equal.
      rewrite drop_drop. f_equal. lia.
    + do 3 f_equal. rewrite length_take, length_drop. lia.
Qed.

(** The lines of the source a position names are the lines of the text. *)
Section Stamp.
Context {R : Rendering}.

(** A stamp tells where, and nothing else.  An error a builtin returns
    keeps its message, context and related values, so it equals exactly what it
    equalled before; an error that already has a line keeps every field, so
    the first stamp stays; and a fresh one gets the file, the line and the call
    stack of the innermost frame, and that line's text from the source. *)
Theorem stamped_error_is_the_same_error (bc : ByteCode) (frames : list TracebackFrame)
    (i : ErrorInfo) (r : list (list Z * Object)) :
  (forall same x, ValuesEqual same (decorateError bc frames (Error i r)) x = ValuesEqual same (Error i r) x) /\
  (0 < err_Line i -> decorateError bc frames (Error i r) = Error i r) /\
  (err_Line i <= 0 -> forall top rest, frames = top :: rest ->
     exists i', decorateError bc frames (Error i r) = Error i' r /\
       (err_File i', err_Line i', err_Column i') = (t_File top, t_Line top, t_Column top) /\
       Stack i' = frame_text <$> frames /\
       forall text, sourceLine (SourceText bc) (lookup_line top) = Some text -> SourceLine i' = text).
Proof.
  unfold decorateError, stampError. split_and!.
  - intros one x. destruct (0 <? err_Line i), frames; [done..|]. by destruct x as [| | | | | | | | | | | | | | | | | | | | | |[] ? ?].
  - intros Hl. by rewrite (proj2 (Z.ltb_lt _ _)).
  - intros Hl top rest ->. rewrite (proj2 (Z.ltb_ge _ _)) by done.
    eexists. split_and!; [done..|]. cbn [SourceLine]. intros text Ht. by rewrite Ht.
Qed.
End Stamp.

Definition sample_frame : TracebackFrame := TFrame (bytes "f") (bytes "a.mut") 1 1 1 1 4 [] 0 0.

Lemma stamped_error_is_the_same_error_witness :
  let R := no_cells in
  let bc := bc_with (bare_program [] [] [] [] []) [] [] None [] [] [] in
  exists i', decorateError bc [sample_frame] (Error (Info (bytes "m") [] [] 0 0 0 0 [] []) []) = Error i' [] /\
    err_Line i' = 1.
Proof.
  intros R bc.
  destruct (stamped_error_is_the_same_error bc [sample_frame] (Info (bytes "m") [] [] 0 0 0 0 [] []) [])
    as (_ & _ & H).
  destruct (H ltac:(cbn; lia) sample_frame [] eq_refl) as (i' & He & Hp & _).
  exists i'. split; [done|]. by simplify_eq.
Defined.

Example recursion_collapses :
  renderFrames (replicate 50 sample_frame) (bytes "f();") =
  9 :: bytes "at f (a.mut:1:1)" ++ [10; 9] ++ bytes "  1 | f();" ++ [10; 9] ++ bytes "    | ^^^" ++
  [10; 9] ++ bytes "... previous frame repeated 49 more times ...".
Proof. vm_compute. reflexivity. Qed.
