(* ===== verification/Machine.v ===== *)
(** * The machine's state: [src/vm/vm.go], [frame.go], [fault.go]

    The stack, globals, frames, captured variables and loop cursors of a run,
    the monad its operations live in, and everything below the dispatch loop
    that keeps the state: growing slices, pushing and popping in storage form,
    fetching an opcode, the boundary map and the integrity probes.

    How a value is kept is the interface [Storage]; [sealed] is the one the
    runtime uses ([encryptForStorage], [decryptForUse]).  What the run asks of
    its surroundings is the interface [Host]: the builtin registry, the
    debugger and sandbox probes, and how an argument is rendered in a
    traceback.  Cells and cursors are shared by pointer and live in the state
    by location.  Audit records and messages to standard error are left out, as
    are an attached debugger and the coverage recorder. *)

From stdpp Require Import base list list_numbers numbers gmap strings.
From Stdlib Require Import ZArith Lia.
From S2P Require Import Prelude Code Stream LineTable Polymorphic Link Lexer Index Float64 Sha256 Object.
From S2P Require Import HashOrder Numeric Equality Keystream Seal Traceback.

(* ------------------------------------------------------------------ *)
(** ** Results *)

(** An error leaving the machine: a message, the two sentinel errors, an
    [instructionError], and a [RuntimeError] with its call stack. *)
Inductive vm_error : Type :=
| Plain (message : list Z)
| ErrDebuggerDetected
| ErrSandboxDetected
| At_instruction (ip op : Z) (e : vm_error)
| Traced (e : vm_error) (stack : list TracebackFrame).

(** How an operation ends.  [Faulted] is a fault the machine raised and
    [Panicked] a Go run-time panic, both unwinding to [execLoop].  The last two
    are the model's: a run that exhausts its fuel, and a write into a container
    that could not be opened and is therefore shared with other slots. *)
Inductive result (A : Type) : Type :=
| Ok (a : A)
| Fail (e : vm_error)
| Faulted (message : list Z)
| Panicked
| OutOfFuel
| Shared.
Arguments Ok {A} a.
Arguments Fail {A} e.
Arguments Faulted {A} message.
Arguments Panicked {A}.
Arguments OutOfFuel {A}.
Arguments Shared {A}.

(** The builtins the machine runs itself. *)
Inductive native : Type := NMap | NFilter | NReduce | NEach.

(** What a run asks of its surroundings, over their state. *)
Class Host (W : Type) : Type := {
  call_builtin : nat -> list Object -> W -> option Object * W;   (* [None]: it panics *)
  ExecutorNativeKind : nat -> option native;
  isDebuggerPresent : W -> bool * W;
  isSandboxed : W -> bool * W;
  warns_only : bool;                                             (* the tamper policy outside secure mode's *)
  render_arg : Object -> list Z }.

(** How values are kept: the stored form, what it opens to ([None]: opening
    panics), and whether opening makes a value of its own. *)
Class Storage : Type := {
  encryptForStorage : Object -> Object;
  decryptForUse : Object -> option Object;
  rebuilds : Object -> bool }.

(** [encryptForStorage] and [decryptForUse] of the runtime, under its key. *)
Definition sealed `{Cipher} `{Gob} (k : sealKey) : Storage := {|
  encryptForStorage o := default o (encryptObject k o);
  decryptForUse o := match decryptObject k o with
                     | Opened v => Some v
                     | Refused => Some o
                     | Crashed => None
                     end;
  rebuilds o := match decryptObject k o with Opened _ => true | _ => false end |}.

(* ------------------------------------------------------------------ *)
(** ** The program and the state *)

(** What a machine is built over: the linked program (its stream sealed), the
    pool's objects, the password, the mode and the resolved builtins. *)
Record Program : Type := Prog {
  p_bc : ByteCode;
  p_constants : list Object;
  p_password : list Z;
  p_secure : bool;
  p_enforce : bool;
  p_builtins : list nat }.

(** [Frame], with the closure it runs. *)
Record Frame : Type := AFrame {
  f_fn : FnPtr; f_free : list Object; f_id : option nat; f_ip : Z; f_bp : Z }.

Definition with_ip (f : Frame) (ip : Z) : Frame := AFrame (f_fn f) (f_free f) (f_id f) ip (f_bp f).

Definition frame_closure (f : Frame) : Object := Closure (f_fn f) (f_free f) (f_id f).

(** [frame.Instructions]. *)
Definition frame_ins (f : Frame) : list Z := fn_Instructions (fn_obj (f_fn f)).

(** The values: the stack up to its capacity, the stack pointer, the globals,
    the active frames (innermost first), cells and cursors by location, and the
    next unused address. *)
Record Values : Type := Vals {
  stack : list Object; sp : Z; globals : list Object; frames : list Frame;
  cells : list Object; cursors : list IteratorState; fresh : nat }.

(** The probes' state: [stepCount], [integrityJitter], [nextIntegrityAt],
    [nextSweepAt], [frameIntegrity] by function, and whether the boundary map
    is allocated. *)
Record Probes : Type := Prb {
  stepCount : Z; integrityJitter : Z; nextIntegrityAt : Z; nextSweepAt : Z;
  frameIntegrity : list (nat * list Z); mapped : bool }.

(** A machine, with the stages it has reported to
    [security.RecordIntegrityFailure], the latest first. *)
Record VM (W : Type) : Type := Mk { vals : Values; probes : Probes; recorded : list string; world : W }.
Arguments Mk {W} vals probes recorded world.
Arguments vals {W} v.
Arguments probes {W} v.
Arguments recorded {W} v.
Arguments world {W} v.

Definition with_stack (v : Values) (l : list Object) (n : Z) : Values :=
  Vals l n (globals v) (frames v) (cells v) (cursors v) (fresh v).
Definition with_globals (v : Values) (l : list Object) : Values :=
  Vals (stack v) (sp v) l (frames v) (cells v) (cursors v) (fresh v).
Definition with_frames (v : Values) (l : list Frame) : Values :=
  Vals (stack v) (sp v) (globals v) l (cells v) (cursors v) (fresh v).
Definition with_cells (v : Values) (l : list Object) : Values :=
  Vals (stack v) (sp v) (globals v) (frames v) l (cursors v) (fresh v).
Definition with_cursors (v : Values) (l : list IteratorState) : Values :=
  Vals (stack v) (sp v) (globals v) (frames v) (cells v) l (fresh v).
Definition with_fresh (v : Values) (n : nat) : Values :=
  Vals (stack v) (sp v) (globals v) (frames v) (cells v) (cursors v) n.

(* ------------------------------------------------------------------ *)
(** ** The monad *)

Definition M (W A : Type) : Type := VM W -> result A * VM W.

#[export] Instance M_ret {W} : MRet (M W) := fun A a s => (Ok a, s).
#[export] Instance M_bind {W} : MBind (M W) := fun A B k m s =>
  match m s with
  | (Ok a, s) => k a s
  | (Fail e, s) => (Fail e, s)
  | (Faulted f, s) => (Faulted f, s)
  | (Panicked, s) => (Panicked, s)
  | (OutOfFuel, s) => (OutOfFuel, s)
  | (Shared, s) => (Shared, s)
  end.

Definition fail {W A} (e : vm_error) : M W A := fun s => (Fail e, s).
Definition faultf {W A} (m : string) : M W A := fun s => (Faulted (bytes m), s).
Definition panic {W A} : M W A := fun s => (Panicked, s).
Definition get_vals {W} : M W Values := fun s => (Ok (vals s), s).
Definition set_vals {W} (v : Values) : M W unit := fun s => (Ok tt, Mk v (probes s) (recorded s) (world s)).
Definition get_probes {W} : M W Probes := fun s => (Ok (probes s), s).
Definition set_probes {W} (p : Probes) : M W unit := fun s => (Ok tt, Mk (vals s) p (recorded s) (world s)).
Definition ask_world {W A} (f : W -> A * W) : M W A := fun s =>
  let '(a, w) := f (world s) in (Ok a, Mk (vals s) (probes s) (recorded s) w).

(** [security.RecordIntegrityFailure]. *)
Definition RecordIntegrityFailure {W} (stage : string) : M W unit := fun s =>
  (Ok tt, Mk (vals s) (probes s) (stage :: recorded s) (world s)).

(** An address, a cell's or a cursor's location of its own. *)
Definition fresh_addr {W} : M W nat := fun s =>
  let v := vals s in (Ok (fresh v), Mk (with_fresh v (S (fresh v))) (probes s) (recorded s) (world s)).
Definition new_cell {W} (o : Object) : M W nat := fun s =>
  let v := vals s in (Ok (length (cells v)), Mk (with_cells v (cells v ++ [o])) (probes s) (recorded s) (world s)).
Definition new_cursor {W} (it : IteratorState) : M W nat := fun s =>
  let v := vals s in (Ok (length (cursors v)), Mk (with_cursors v (cursors v ++ [it])) (probes s) (recorded s) (world s)).
Definition cell_set {W} (loc : nat) (o : Object) : M W unit := fun s =>
  let v := vals s in (Ok tt, Mk (with_cells v (<[loc := o]> (cells v))) (probes s) (recorded s) (world s)).
Definition cursor_set {W} (loc : nat) (it : IteratorState) : M W unit := fun s =>
  let v := vals s in (Ok tt, Mk (with_cursors v (<[loc := it]> (cursors v))) (probes s) (recorded s) (world s)).

Definition of_option {W A} (o : option A) : M W A := match o with Some a => mret a | None => panic end.

(** A failure as the dispatch loop wraps it ([runtimeErrorAt]). *)
Definition runtimeErrorAt {W A} (ip op : Z) (m : M W A) : M W A := fun s =>
  match m s with
  | (Fail e, s) => (Fail (At_instruction ip op e), s)
  | r => r
  end.

Definition text (s : string) : list Z := bytes s.
Definition failf {W A} (pieces : list (list Z)) : M W A := fail (Plain (concat pieces)).

(** [x.Type()], which panics on a nil interface. *)
Definition type_of {W} (o : Object) : M W ObjectType :=
  match o with Nil => panic | o => mret (Type_ o) end.

(* ------------------------------------------------------------------ *)
(** ** Growing slices *)

(** [growSize]: the doubling loop, on a 64-bit [int]. *)
Fixpoint grow_loop (fuel : nat) (newSize required : Z) : option Z :=
  match fuel with
  | O => None
  | S fuel => if newSize <? required then grow_loop fuel (i64 (newSize * 2)) required else Some newSize
  end.

Definition growSize (current required fallback : Z) : option Z :=
  if required <=? current then Some current
  else
    let newSize := if current =? 0 then fallback else current in
    let newSize := if newSize =? 0 then 1 else newSize in
    grow_loop 64 newSize required.

Definition initialStackCapacity : Z := 2048.
Definition initialGlobalsCapacity : Z := 65536.
Definition maxCallDepth : Z := 10000.

Definition grown (l : list Object) (n : Z) : list Object := l ++ replicate (Z.to_nat n - length l) Nil.

Section Machine.
Context {W : Type} {H : Host W} {S : Storage} {C : Cipher} {R : Rendering}.
Context (p : Program).

(** [ensureStackCapacity] and [ensureGlobalCapacity]. *)
Definition ensureStackCapacity (required : Z) : M W unit :=
  v ← get_vals;
  if required <=? zlen (stack v) then mret tt
  else
    n ← of_option (growSize (zlen (stack v)) required initialStackCapacity);
    set_vals (with_stack v (grown (stack v) n) (sp v)).

Definition ensureGlobalCapacity (index : Z) : M W unit :=
  v ← get_vals;
  if index + 1 <=? zlen (globals v) then mret tt
  else
    n ← of_option (growSize (zlen (globals v)) (index + 1) initialGlobalsCapacity);
    set_vals (with_globals v (grown (globals v) n)).

(* ------------------------------------------------------------------ *)
(** ** Pushing and popping *)

(** A read and a write of a slot, by Go's bounds. *)
Definition slot_get (i : Z) : M W Object :=
  v ← get_vals;
  if i <? 0 then panic else of_option (stack v !! Z.to_nat i).

Definition slot_set (i : Z) (o : Object) : M W unit :=
  v ← get_vals;
  if (i <? 0) || (zlen (stack v) <=? i) then panic
  else set_vals (with_stack v (<[Z.to_nat i := o]> (stack v)) (sp v)).

Definition set_sp (n : Z) : M W unit := v ← get_vals; set_vals (with_stack v (stack v) n).
Definition get_sp : M W Z := v ← get_vals; mret (sp v).

(** [decryptForUse] inside the machine. *)
Definition use (o : Object) : M W Object := of_option (decryptForUse o).

(** [pushStored] and [push]. *)
Definition pushStored (o : Object) : M W unit :=
  n ← get_sp;
  ensureStackCapacity (n + 1);;
  slot_set n o;;
  set_sp (n + 1).

Definition push (o : Object) : M W unit := pushStored (encryptForStorage o).

(** [popStored] and [pop]. *)
Definition popStored : M W Object :=
  n ← get_sp;
  if n <=? 0 then faultf "stack underflow: pop with nothing on the stack"
  else
    o ← slot_get (n - 1);
    set_sp (n - 1);;
    mret o.

Definition pop : M W Object :=
  n ← get_sp;
  if n <=? 0 then faultf "stack underflow: pop with nothing on the stack"
  else
    o ← slot_get (n - 1);
    v ← use o;
    set_sp (n - 1);;
    mret v.

(** [pushGlobal] and [setGlobalStored] (no global is wrapped: the memory mode
    is "runtime"). *)
Definition pushGlobal (index : Z) : M W unit :=
  v ← get_vals;
  if index <? 0 then panic
  else match globals v !! Z.to_nat index with
       | Some o => pushStored o
       | None => panic
       end.

Definition setGlobalStored (index : Z) : M W unit :=
  o ← popStored;
  v ← get_vals;
  if (index <? 0) || (zlen (globals v) <=? index) then panic
  else set_vals (with_globals v (<[Z.to_nat index := o]> (globals v))).

(** The slots [from .. from + n) of the stack, opened. *)
Fixpoint opened_slots (n : nat) (from : Z) : M W (list Object) :=
  match n with
  | O => mret []
  | Datatypes.S n =>
      o ← slot_get from;
      v ← use o;
      rest ← opened_slots n (from + 1);
      mret (v :: rest)
  end.

(* ------------------------------------------------------------------ *)
(** ** Frames *)

(** [currentFrame], and moving its [ip]. *)
Definition currentFrame : M W Frame :=
  v ← get_vals;
  match frames v with
  | f :: _ => mret f
  | [] => faultf "frame underflow: no frame is executing"
  end.

Definition set_ip (ip : Z) : M W unit :=
  v ← get_vals;
  match frames v with
  | f :: rest => set_vals (with_frames v (with_ip f ip :: rest))
  | [] => faultf "frame underflow: no frame is executing"
  end.

(** [popFrame]. *)
Definition popFrame : M W Frame :=
  v ← get_vals;
  match frames v with
  | f :: rest => set_vals (with_frames v rest);; mret f
  | [] => faultf "frame underflow: returning from no frame"
  end.

(** [registerFrameIntegrity]. *)
Definition registerFrameIntegrity (f : FnPtr) : M W unit :=
  q ← get_probes;
  let known := frameIntegrity q in
  let known := match map_get (fn_addr f) known with
               | Some _ => known
               | None => (fn_addr f, Sum256 (fn_Instructions (fn_obj f))) :: known
               end in
  set_probes (Prb (stepCount q) (integrityJitter q) (nextIntegrityAt q) (nextSweepAt q) known true).

(** [pushFrame]. *)
Definition pushFrame (f : Frame) : M W unit :=
  v ← get_vals;
  if maxCallDepth <=? zlen (frames v) then
    failf [text "this call would be "; decimal (zlen (frames v) + 1); text " deep, over the limit of ";
           decimal maxCallDepth; text " nested calls"]
  else
    set_vals (with_frames v (f :: frames v));;
    registerFrameIntegrity (f_fn f).

(* ------------------------------------------------------------------ *)
(** ** Reading the instruction stream *)

Definition inslen : Z := zlen (Instructions (p_bc p)).

(** [instructionStream]. *)
Definition instructionStream : XORStream := NewXORStream inslen (p_password p).

(** [normalizeOpcodeMap] and [decodeOpcode]. *)
Definition normalizeOpcodeMap (reverse : option (list Z)) : option (list Z) :=
  match reverse with
  | Some table => if (length table =? 256)%nat then Some table else None
  | None => None
  end.

Definition decodeOpcode (b : Z) : Z :=
  match normalizeOpcodeMap (OpcodeMap (p_bc p)) with
  | Some table => table !!! Z.to_nat b
  | None => b
  end.

(** [readUint16] and [readUint8]. *)
Definition readUint16 (ins : list Z) (at_ : Z) : M W Z :=
  if (at_ <? 0) || (zlen ins <? at_ + 2) then fail (Plain (text "instruction slice too short for uint16"))
  else match XORAt instructionStream (take 2 (drop (Z.to_nat at_) ins)) at_ with
       | Some dec => mret (u16 (Uint16 dec 0))
       | None => fail (Plain (text "data cannot be empty"))
       end.

Definition readUint8 (ins : list Z) (at_ : Z) : M W Z :=
  if (at_ <? 0) || (zlen ins <=? at_) then fail (Plain (text "instruction slice too short for uint8"))
  else match XOROneAt instructionStream (ins !!! Z.to_nat at_) at_ with
       | Some b => mret (u8 b)
       | None => fail (Plain (text "offset cannot be negative"))
       end.

(** The opcode byte at a position of a stream, decoded. *)
Definition opcode_at (ins : list Z) (i : Z) : option Z :=
  decodeOpcode <$> XOROneAt instructionStream (ins !!! Z.to_nat i) i.

(** [buildInstructionBoundaries]: one turn per instruction. *)
Fixpoint boundaries_loop (fuel : nat) (ins : list Z) (i : Z) : list Z :=
  match fuel with
  | O => []
  | Datatypes.S fuel =>
      if zlen ins <=? i then []
      else i :: match opcode_at ins i ≫= Lookup with
                | None => []
                | Some def => boundaries_loop fuel ins (i + Z.of_nat (def_width def))
                end
  end.

Definition buildInstructionBoundaries (ins : list Z) : list Z :=
  if bool_decide (p_password p = []) then [] else boundaries_loop (length ins) ins 0.

(** [scanInstructionsForSecurityCheckOpcodes]: [None] is the error. *)
Fixpoint scan_loop (fuel : nat) (ins : list Z) (i : Z) (dbg snd_ : bool) : option (bool * bool) :=
  match fuel with
  | O => None
  | Datatypes.S fuel =>
      if zlen ins <=? i then Some (dbg, snd_)
      else
        op ← opcode_at ins i;
        let dbg := dbg || (op =? opcode_byte OpChkDbg) in
        let snd_ := snd_ || (op =? opcode_byte OpChkSnd) in
        def ← Lookup op;
        scan_loop fuel ins (i + Z.of_nat (def_width def)) dbg snd_
  end.

Definition scanInstructionsForSecurityCheckOpcodes (ins : list Z) : option (bool * bool) :=
  scan_loop (Datatypes.S (length ins)) ins 0 false false.

(** [scanSecurityCheckOpcodes]: the current frame's stream, then the pool's. *)
Fixpoint scan_constants (pool : list Object) (found : bool * bool) : option (bool * bool) :=
  match pool with
  | [] => Some found
  | CompiledFn f :: pool =>
      r ← scanInstructionsForSecurityCheckOpcodes (fn_Instructions (fn_obj f));
      scan_constants pool (found.1 || r.1, found.2 || r.2)
  | _ :: pool => scan_constants pool found
  end.

Definition scanSecurityCheckOpcodes (current : list Z) : option (bool * bool) :=
  r ← scanInstructionsForSecurityCheckOpcodes current;
  scan_constants (p_constants p) r.

(** [validateSecurityCheckOpcodes]. *)
Definition bool_text (b : bool) : list Z := text (if b then "true" else "false").

Definition validateSecurityCheckOpcodes (stage : string) : M W unit :=
  v ← get_vals;
  if negb (p_enforce p) then mret tt
  else match frames v with
       | [] => mret tt
       | f :: _ =>
           match scanSecurityCheckOpcodes (frame_ins f) with
           | None => fail (Plain (text "undecodable instruction"))
           | Some (dbg, snd_) =>
               if dbg && snd_ then mret tt
               else failf [text "required security check opcodes missing "; text stage; text ": OpChkDbg=";
                           bool_text dbg; text " OpChkSnd="; bool_text snd_]
           end
       end.

(* ------------------------------------------------------------------ *)
(** ** Integrity probes *)

(** [security.ApplyTamperResponse]: only a warning, or the error. *)
Definition ApplyTamperResponse (m : list Z) : M W unit :=
  if warns_only || negb (p_secure p) then mret tt else fail (Plain m).

(** [verifyFrameControlFlow] (the boundaries are a function of the stream; the
    map that caches them is not allocated without a password, and writing to it
    then panics). *)
Definition verifyFrameControlFlow (stage : string) (f : Frame) : M W unit :=
  if f_ip f <? 0 then mret tt
  else
    q ← get_probes;
    if bool_decide (p_password p = []) && negb (mapped q) then panic
    else
      set_probes (Prb (stepCount q) (integrityJitter q) (nextIntegrityAt q) (nextSweepAt q)
                      (frameIntegrity q) true);;
      let starts := buildInstructionBoundaries (frame_ins f) in
      if bool_decide (f_ip f ∈ starts) then mret tt
      else if bool_decide (f_ip f + 1 ∈ starts) then mret tt
      else
        RecordIntegrityFailure stage;;
        ApplyTamperResponse (text "control-flow integrity check failed at ip=" ++ decimal (f_ip f)).

(** [verifyFrameIntegrity]. *)
Definition verifyFrameIntegrity (stage : string) (f : Frame) : M W unit :=
  q ← get_probes;
  (match map_get (fn_addr (f_fn f)) (frameIntegrity q) with
   | Some _ => mret tt
   | None => registerFrameIntegrity (f_fn f)
   end);;
  q ← get_probes;
  let expected := default [] (map_get (fn_addr (f_fn f)) (frameIntegrity q)) in
  if SecureCompare expected (Sum256 (frame_ins f)) then mret tt
  else RecordIntegrityFailure stage;; ApplyTamperResponse (text "runtime integrity check failed").

(** [verifyActiveFramesIntegrity], outermost frame first. *)
Fixpoint verify_frames (l : list Frame) : M W unit :=
  match l with
  | [] => mret tt
  | f :: l =>
      verifyFrameControlFlow "vm-cfi-sweep" f;; verifyFrameIntegrity "vm-frame-sweep" f;; verify_frames l
  end.

Definition verifyActiveFramesIntegrity : M W unit :=
  v ← get_vals; verify_frames (rev (frames v)).

(** [deriveIntegritySeed] and [nextIntegrityJitter]. *)
Definition golden : Z := 0x9e3779b97f4a7c15.

Definition deriveIntegritySeed (ins : list Z) : Z :=
  let seed := le_value (take 8 (Sum256 ins)) in
  if seed =? 0 then golden else seed.

Definition nextIntegrityJitter (state : Z) : Z :=
  let state := if state =? 0 then golden else state in
  let state := Z.lxor state (u64 (Z.shiftl state 13)) in
  let state := Z.lxor state (Z.shiftr state 7) in
  Z.lxor state (u64 (Z.shiftl state 17)).

Definition integrityEvery : Z := 64.
Definition integritySweepBase : Z := 251.
Definition integritySweepSpread : Z := 83.
Definition integrityProbeSpread : Z := 31.

(** [nextProbeInterval] and [nextSweepInterval]: the interval and the jitter. *)
Definition nextProbeInterval (jitter : Z) : Z * Z :=
  let j := nextIntegrityJitter jitter in (integrityEvery + j mod integrityProbeSpread, j).

Definition nextSweepInterval (jitter : Z) : Z * Z :=
  let j := nextIntegrityJitter jitter in (integritySweepBase + j mod integritySweepSpread, j).

(** [runIntegrityProbes]. *)
Definition runIntegrityProbes : M W unit :=
  q ← get_probes;
  (if nextIntegrityAt q <=? stepCount q then
     f ← currentFrame;
     verifyFrameControlFlow "vm-cfi" f;;
     verifyFrameIntegrity "vm-frame" f;;
     q ← get_probes;
     let '(n, j) := nextProbeInterval (integrityJitter q) in
     set_probes (Prb (stepCount q) j (u64 (stepCount q + n)) (nextSweepAt q) (frameIntegrity q) (mapped q))
   else mret tt);;
  q ← get_probes;
  if nextSweepAt q <=? stepCount q then
    f ← currentFrame;
    verifyFrameControlFlow "vm-cfi-sweep" f;;
    verifyActiveFramesIntegrity;;
    q ← get_probes;
    let '(n, j) := nextSweepInterval (integrityJitter q) in
    set_probes (Prb (stepCount q) j (nextIntegrityAt q) (u64 (stepCount q + n)) (frameIntegrity q) (mapped q))
  else mret tt.

(* ------------------------------------------------------------------ *)
(** ** Constants, builtins and tracebacks *)

(** [constantAt] and [constantString]. *)
Definition constantAt (index : Z) : M W Object :=
  match (if index <? 0 then None else p_constants p !! Z.to_nat index) with
  | Some o => mret o
  | None => failf [text "constant index "; decimal index; text " out of range, len=";
                   decimal (zlen (p_constants p))]
  end.

Definition constantString (what : string) (index : Z) : M W (list Z) :=
  match (if index <? 0 then None else p_constants p !! Z.to_nat index) with
  | None => failf [text what; text ": constant index "; decimal index; text " out of range, len=";
                   decimal (zlen (p_constants p))]
  | Some o =>
      v ← use o;
      match v with
      | Str s => mret s
      | _ => failf [text what; text " is not string at index="; decimal index]
      end
  end.

(** [compiler.NormalizeVersion] and [builtinTableIndex]. *)
Definition NormalizeVersion (version : Z) : Z := if version <=? 0 then 1 else version.
Definition BytecodeVersionNamedBuiltins : Z := 2.

Definition builtinTableIndex (operand : Z) : M W Z :=
  let named := BytecodeVersionNamedBuiltins <=? NormalizeVersion (Version (p_bc p)) in
  if named && (Z.land operand BuiltinNameTableFlag =? 0) then
    failf [text "OpGetBuiltin: operand "; decimal operand;
           text " is not a name-table index, but this program declares bytecode container v";
           decimal (NormalizeVersion (Version (p_bc p)));
           text "; the file is corrupt or was assembled by hand"]
  else
    let index := if named then Z.ldiff operand BuiltinNameTableFlag else operand in
    if zlen (p_builtins p) <=? index then
      failf [text "OpGetBuiltin: invalid builtin index="; decimal index; text ", len=";
             decimal (zlen (p_builtins p))]
    else mret index.

(** [frameArguments]: the arguments at the frame's base, opened, a captured one
    out of its cell; nothing at all when opening one panics. *)
Definition maxRenderedArgs : Z := 6.

Definition unwrapForDisplay (v : Values) (raw : Object) : option Object :=
  match raw with
  | Nil => Some Nil
  | Cell loc => match default Nil (cells v !! loc) with
                | Nil => Some Nil
                | o => decryptForUse o
                end
  | raw => decryptForUse raw
  end.

Fixpoint argument_texts (v : Values) (params : list string) (slots : list Object) : option (list (list Z)) :=
  match slots with
  | [] => Some []
  | raw :: slots =>
      o ← unwrapForDisplay v raw;
      rest ← argument_texts v (tail params) slots;
      let label := match params with
                   | name :: _ => if bool_decide (name = EmptyString) then [] else bytes name ++ text "="
                   | [] => []
                   end in
      Some ((label ++ render_arg o) :: rest)
  end.

Definition frameArguments (v : Values) (f : Frame) : list (list Z) :=
  let fn := fn_obj (f_fn f) in
  let count := NumParams fn in
  if (count <=? 0) || (f_bp f <? 0) then []
  else if bool_decide (Params fn = []) then []
  else
    let shown := Z.min count maxRenderedArgs in
    match argument_texts v (Params fn) (take (Z.to_nat shown) (drop (Z.to_nat (f_bp f)) (stack v))) with
    | None => []
    | Some args =>
        args ++ (if shown <? count then [text "... " ++ decimal (count - shown) ++ text " more"] else [])
    end.

(** [Traceback] of the state. *)
Definition frame_views (v : Values) : list frame_view :=
  (fun f => View (fn_obj (f_fn f)) (f_ip f) (frameArguments v f)) <$> frames v.

Definition vm_traceback (v : Values) : list TracebackFrame := Traceback (p_bc p) (frame_views v).

(** [attachTraceback]. *)
Fixpoint traced (e : vm_error) : bool :=
  match e with
  | Traced _ _ => true
  | At_instruction _ _ e => traced e
  | _ => false
  end.

Definition attachTraceback (v : Values) (e : vm_error) : vm_error :=
  if traced e then e
  else match vm_traceback v with
       | [] => e
       | stack => Traced e stack
       end.

End Machine.
