(* ===== verification/Operations.v ===== *)
(** * The machine's operations on values: [src/vm/vm.go]

    Arithmetic, comparison, indexing, field access and the building of
    containers, each popping its operands and pushing its result as the source
    does.  What an instruction then does with an error is the dispatch loop's
    ([Vm.v]). *)

From stdpp Require Import base list list_numbers numbers gmap strings.
From Stdlib Require Import ZArith Lia.
From S2P Require Import Prelude Code Stream LineTable Polymorphic Link Lexer Index Float64 Sha256 Object.
From S2P Require Import HashOrder Numeric Equality Keystream Seal Traceback Machine.

Section Operations.
Context {W : Type} {H : Host W} {S : Storage} {C : Cipher} {R : Rendering} {F : Fpu}.
Context (p : Program).

#[local] Notation exec := (M W).

Definition type_text (o : Object) : list Z := type_name (Type_ o).

(* ------------------------------------------------------------------ *)
(** ** Arithmetic *)

(** [bitwiseOperatorSymbol]. *)
Definition bitwiseOperatorSymbol (op : Opcode) : option (list Z) :=
  match op with
  | OpBitAnd => Some (bytes "&")
  | OpBitOr => Some (bytes "|")
  | OpBitXor => Some (bytes "^")
  | OpShiftLeft => Some (bytes "<<")
  | OpShiftRight => Some (bytes ">>")
  | _ => None
  end.

Definition op_text (op : Opcode) : list Z := decimal (opcode_byte op).

(** A refusal the object package words. *)
Definition push_or_refuse (o : Object) : exec unit :=
  match o with
  | Error i _ => fail (Plain (Message i))
  | o => push o
  end.

(** [execBinaryIntegerOperation]: Go's wrapping 64-bit operators. *)
Definition execBinaryIntegerOperation (op : Opcode) (l r : Z) : exec unit :=
  match bitwiseOperatorSymbol op with
  | Some sym => push_or_refuse (BitwiseInfix sym l r)
  | None =>
      match op with
      | OpAdd => push (Integer (i64 (l + r)))
      | OpSub => push (Integer (i64 (l - r)))
      | OpMul => push (Integer (i64 (l * r)))
      | OpDiv => if r =? 0 then failf [text "integer division by zero"] else push (Integer (i64 (Z.quot l r)))
      | OpMod => if r =? 0 then failf [text "integer modulo by zero"] else push (Integer (i64 (Z.rem l r)))
      | op => failf [text "Unknown integer operator: "; op_text op]
      end
  end.

(** [getFloatVal], on the two numeric types. *)
Definition getFloatVal (o : Object) : Z :=
  match o with
  | Integer n => of_int n
  | Float b => b
  | _ => 0
  end.

(** [execBinaryFloatOperation]. *)
Definition execBinaryFloatOperation (op : Opcode) (l r : Z) : exec unit :=
  match op with
  | OpAdd => push (Float (fadd l r))
  | OpSub => push (Float (fsub l r))
  | OpMul => push (Float (fmul l r))
  | OpDiv => push (Float (fdiv l r))
  | OpMod => push (Float (Mod l r))
  | op => failf [text "Unknown float operator: "; op_text op]
  end.

(** [execBinaryStringOperation] and [execBinaryBytesOperation]. *)
Definition execBinaryStringOperation (op : Opcode) (l r : list Z) : exec unit :=
  match op with
  | OpAdd => push (Str (l ++ r))
  | op => failf [text "Unknown string operator: "; op_text op]
  end.

Definition execBinaryBytesOperation (op : Opcode) (l r : list Z) (lm rm : option Classification) : exec unit :=
  match op with
  | OpAdd =>
      a ← fresh_addr;
      push (Bytes (l ++ r) (JoinClassification a lm rm))
  | op => failf [text "unknown bytes operator: "; op_text op]
  end.

(** [execBinaryOperation]. *)
Definition binary_dispatch (op : Opcode) (left right : Object) : exec unit :=
  match left, right with
  | Integer l, Integer r => execBinaryIntegerOperation op l r
  | Str l, Str r => execBinaryStringOperation op l r
  | Bytes l lm, Bytes r rm => execBinaryBytesOperation op l r lm rm
  | _, _ =>
      if IsNumeric left && IsNumeric right
      then execBinaryFloatOperation op (getFloatVal left) (getFloatVal right)
      else
        f ← currentFrame;
        failf [bytes (Code.Name (definitions op)); text " at ip="; decimal (f_ip f);
               text ": unsupported types for binary operation: "; type_text left; text ", "; type_text right]
  end.

Definition binary_checked (op : Opcode) (left right : Object) : exec unit :=
  match bitwiseOperatorSymbol op with
  | Some sym =>
      if bool_decide (Type_ left = INTEGER_OBJ /\ Type_ right = INTEGER_OBJ) then binary_dispatch op left right
      else push_or_refuse (BitwiseOperandError sym left right)
  | None => binary_dispatch op left right
  end.

Definition execBinaryOperation (op : Opcode) : exec unit :=
  right ← pop;
  left ← pop;
  _ ← type_of right;
  _ ← type_of left;
  binary_checked op left right.

(** [execBangOperation], [execMinusOperation] and [execBitNotOperation]. *)
Definition execBangOperation : exec unit := o ← pop; push (Boolean (negb (IsTruthy o))).

Definition execMinusOperation : exec unit :=
  o ← pop;
  t ← type_of o;
  match o with
  | Integer n => push (Integer (i64 (- n)))
  | Float b => push (Float (fneg b))
  | _ => failf [text "unsupported object type for negation: "; type_name t]
  end.

Definition execBitNotOperation : exec unit :=
  o ← pop;
  _ ← type_of o;
  push_or_refuse (BitwiseNot o).

(* ------------------------------------------------------------------ *)
(** ** Comparison *)

(** [comparisonSymbol] and [comparisonRefusal]. *)
Definition comparisonSymbol (op : Opcode) : list Z :=
  match op with
  | OpEqual => bytes "==" | OpUnEqual => bytes "!=" | OpGreater => bytes ">"
  | OpGreaterEqual => bytes ">=" | OpLess => bytes "<" | OpLessEqual => bytes "<="
  | op => text "opcode " ++ op_text op
  end.

Definition comparisonRefusal (op : Opcode) (left right : Object) : exec unit :=
  failf [text "unknown operator: "; type_text left; text " "; comparisonSymbol op; text " "; type_text right].

(** Equality and nothing else: [execEnumComparison], [execStructComparison],
    [execErrorComparison] and [execBytesComparison] differ in [equal] alone. *)
Definition equality_only (op : Opcode) (left right : Object) (equal : bool) : exec unit :=
  match op with
  | OpEqual => push (Boolean equal)
  | OpUnEqual => push (Boolean (negb equal))
  | _ => comparisonRefusal op left right
  end.

Definition execEnumComparison (op : Opcode) (left right : Object) : exec unit :=
  equality_only op left right
    match left, right with
    | EnumValue n t _, EnumValue n' t' _ => bool_decide (n = n') && bool_decide (t = t')
    | _, _ => false
    end.

Definition execStructComparison (op : Opcode) (left right : Object) : exec unit :=
  equality_only op left right
    match left, right with
    | Struct _ _ _, Struct _ _ _ => ValuesEqual apart left right
    | _, _ => false
    end.

Definition execErrorComparison (op : Opcode) (left right : Object) : exec unit :=
  equality_only op left right
    match left, right with
    | Error _ _, Error _ _ => ValuesEqual apart left right
    | _, _ => false
    end.

Definition execBytesComparison (op : Opcode) (left right : Object) : exec unit :=
  equality_only op left right
    match left, right with
    | Bytes l _, Bytes r _ => bool_decide (l = r)
    | _, _ => false
    end.

(** [execFloatComparison] and [execIntegerComparison]. *)
Definition execFloatComparison (op : Opcode) (left right : Object) : exec unit :=
  let l := getFloatVal left in
  let r := getFloatVal right in
  match op with
  | OpEqual => push (Boolean (feqb r l))
  | OpUnEqual => push (Boolean (negb (feqb r l)))
  | OpGreater => push (Boolean (fltb r l))
  | OpGreaterEqual => push (Boolean (fleb r l))
  | OpLess => push (Boolean (fltb l r))
  | OpLessEqual => push (Boolean (fleb l r))
  | _ => comparisonRefusal op left right
  end.

Definition execIntegerComparison (op : Opcode) (l r : Z) : exec unit :=
  match op with
  | OpEqual => push (Boolean (r =? l))
  | OpUnEqual => push (Boolean (negb (r =? l)))
  | OpGreater => push (Boolean (r <? l))
  | OpGreaterEqual => push (Boolean (r <=? l))
  | OpLess => push (Boolean (l <? r))
  | OpLessEqual => push (Boolean (l <=? r))
  | _ => comparisonRefusal op (Integer l) (Integer r)
  end.

Definition is_equality (op : Opcode) : bool := bool_decide (op = OpEqual \/ op = OpUnEqual).

(** The rendered fallback of [execComparison]. *)
Definition rendered_comparison (op : Opcode) (left right : Object) : exec unit :=
  let same := bool_decide (Type_ left = Type_ right) && bool_decide (Inspect right = Inspect left) in
  match op with
  | OpEqual => push (Boolean same)
  | OpUnEqual => push (Boolean (negb same))
  | _ => comparisonRefusal op left right
  end.

Definition comparison_dispatch (op : Opcode) (left right : Object) : exec unit :=
  let one t := bool_decide (Type_ left = t \/ Type_ right = t) in
  let by_value := push (Boolean (eqb (ValuesEqual apart left right) (bool_decide (op = OpEqual)))) in
  match left, right with
  | Integer l, Integer r => execIntegerComparison op l r
  | _, _ =>
      if IsNumeric left && IsNumeric right then execFloatComparison op left right
      else if is_equality op && (HoldsFunction left || HoldsFunction right) then by_value
      else if one BYTES_OBJ then execBytesComparison op left right
      else if one ERROR_OBJ then execErrorComparison op left right
      else if one ENUM_VALUE_OBJ then execEnumComparison op left right
      else if one STRUCT_OBJ then execStructComparison op left right
      else if bool_decide (Type_ left = Type_ right) && is_equality op &&
              bool_decide (Type_ left = ARRAY_OBJ \/ Type_ left = HASH_OBJ) then by_value
      else rendered_comparison op left right
  end.

(** [execComparison]. *)
Definition execComparison (op : Opcode) : exec unit :=
  right ← pop;
  left ← pop;
  _ ← type_of left;
  _ ← type_of right;
  comparison_dispatch op left right.

(* ------------------------------------------------------------------ *)
(** ** Indexing *)

(** [Error.relatedHash] and [Error.Field]. *)
Definition relatedHash (r : list (list Z * Object)) : Object :=
  Hash ((fun e : list Z * Object =>
    let '(name, value) := e in
    (Key STRING_OBJ 0 name, (Str name, match value with Nil => Null | v => v end))) <$> r).

Definition error_field (i : ErrorInfo) (r : list (list Z * Object)) (name : list Z) : option Object :=
  if bool_decide (name = bytes "message") then Some (Str (Message i))
  else if bool_decide (name = bytes "context") then Some (Str (Context i))
  else if bool_decide (name = bytes "related") then Some (relatedHash r)
  else if bool_decide (name = bytes "file") then Some (Str (err_File i))
  else if bool_decide (name = bytes "line") then Some (Integer (err_Line i))
  else if bool_decide (name = bytes "column") then Some (Integer (err_Column i))
  else if bool_decide (name = bytes "end_line") then Some (Integer (EndLine i))
  else if bool_decide (name = bytes "end_column") then Some (Integer (EndColumn i))
  else if bool_decide (name = bytes "source_line") then Some (Str (SourceLine i))
  else if bool_decide (name = bytes "stack") then Some (Array (Str <$> Stack i))
  else None.

(** An element by a program's index, null when there is none. *)
Definition push_at {A : Type} (l : list A) (index : Z) (f : A -> Object) : exec unit :=
  match IndexOf index (zlen l) with
  | None => push Null
  | Some at_ => o ← of_option (l !! Z.to_nat at_); push (f o)
  end.

(** [execHashIndex]. *)
Definition execHashIndex (pairs : list (HashKey * (Object * Object))) (index : Object) : exec unit :=
  t ← type_of index;
  match hash_key index with
  | None => failf [text "unusable as hash key: "; type_name t]
  | Some k => match map_get k pairs with
              | Some (_, v) => push v
              | None => push Null
              end
  end.

(** [execIndexOperation], with the element of an array or a multi-value, the
    rune of a string, the byte of a buffer, the value of a hash and the field of
    an error. *)
Definition execIndexOperation (left index : Object) : exec unit :=
  lt ← type_of left;
  match left, index with
  | Hash pairs, _ => execHashIndex pairs index
  | _, Nil =>
      if bool_decide (lt = ARRAY_OBJ \/ lt = MULTI_VALUE_OBJ \/ lt = STRING_OBJ \/ lt = BYTES_OBJ \/ lt = ERROR_OBJ)
      then panic else failf [text "index operator not supported: "; type_name lt]
  | Array l, Integer i => push_at l i id
  | MultiValue l, Integer i => push_at l i id
  | Str s, Integer i => match RuneAt s i with
                        | Some c => push (Str c)
                        | None => push Null
                        end
  | Bytes s _, Integer i => push_at s i Integer
  | Error i r, Str name => push (default Null (error_field i r name))
  | _, _ => failf [text "index operator not supported: "; type_name lt]
  end.

(** [execSetIndex], on a container opened for the write. *)
Definition execSetIndex (container index value : Object) : exec Object :=
  match container with
  | Array l =>
      match index with
      | Integer i =>
          if (i <? 0) || (zlen l <=? i)
          then failf [text "array index out of bounds: "; decimal i; text " (len "; decimal (zlen l); text ")"]
          else mret (Array (<[Z.to_nat i := value]> l))
      | _ => t ← type_of index; failf [text "array index must be INTEGER, got "; type_name t]
      end
  | Bytes s mark =>
      match index with
      | Integer i =>
          if (i <? 0) || (zlen s <=? i)
          then failf [text "bytes index out of bounds: "; decimal i; text " (len "; decimal (zlen s); text ")"]
          else match value with
               | Integer b =>
                   if (b <? 0) || (255 <? b)
                   then failf [text "bytes element out of range: "; decimal b; text " (want 0-255)"]
                   else mret (Bytes (<[Z.to_nat i := b]> s) mark)
               | _ => t ← type_of value; failf [text "bytes element must be INTEGER, got "; type_name t]
               end
      | _ => t ← type_of index; failf [text "bytes index must be INTEGER, got "; type_name t]
      end
  | Hash pairs =>
      match hash_key index with
      | Some k => mret (Hash (map_set k (index, value) pairs))
      | None => t ← type_of index; failf [text "unusable as a hashkey: "; type_name t]
      end
  | _ => t ← type_of container; failf [text "index assignment not supported on "; type_name t]
  end.

(* ------------------------------------------------------------------ *)
(** ** Containers *)

(** [buildArray], [buildMultiValue], [buildInterpolation] and [buildHash], over
    the opened slots. *)
Definition interpolate (piece : Object) : list Z :=
  match piece with
  | Nil => []
  | Str s => s
  | o => Inspect o
  end.

Fixpoint build_pairs (l : list Object) (pairs : list (HashKey * (Object * Object))) : exec Object :=
  match l with
  | key :: value :: l =>
      match hash_key key with
      | Some k => build_pairs l (map_set k (key, value) pairs)
      | None => t ← type_of key; failf [text "unusable as a hashkey: "; type_name t]
      end
  | _ => mret (Hash pairs)
  end.

(** [destructureValues]. *)
Definition or_null (o : option Object) : Object :=
  match o with
  | None | Some Nil => Null
  | Some o => o
  end.

Definition destructureValues (source : Object) (arity : nat) : list Object :=
  match source with
  | MultiValue l | Array l => (fun i => or_null (l !! i)) <$> seq 0 arity
  | Nil => replicate arity Null
  | o => (fun i => if (i =? 0)%nat then o else Null) <$> seq 0 arity
  end.

(** [declaresClause] and the two refusals of [src/object/struct.go]. *)
Definition declaresClause (declared : list (list Z)) : list Z :=
  match declared with
  | [] => text "it declares no fields"
  | _ => text "it declares " ++ join (text ", ") declared
  end.

Definition UnknownStructFieldMessage (typeName field : list Z) (declared : list (list Z)) : list Z :=
  text "struct " ++ typeName ++ text " has no field " ++ field ++ text ": " ++ declaresClause declared.

Definition UnknownStructFieldWriteMessage (typeName field : list Z) (declared : list (list Z)) : list Z :=
  text "cannot set field " ++ field ++ text " on struct " ++ typeName ++ text ": " ++
  declaresClause declared ++ text ", and a struct's fields are fixed by its declaration".

(** [OpGetField]. *)
Definition getField (o : Object) (name : list Z) : exec unit :=
  match o with
  | Struct tn order fields =>
      match map_get name fields with
      | Some v => push v
      | None => fail (Plain (UnknownStructFieldMessage tn name (field_names order fields)))
      end
  | Error i r => push (default Null (error_field i r name))
  | o => t ← type_of o; failf [text "cannot access field on non-struct: "; type_name t]
  end.

(** [OpSetField], on a struct opened for the write. *)
Definition setField (o value : Object) (name : list Z) : exec unit :=
  match o with
  | Struct tn order fields =>
      match map_get name fields with
      | Some _ => push (Struct tn order (map_set name value fields))
      | None => fail (Plain (UnknownStructFieldWriteMessage tn name (field_names order fields)))
      end
  | o => t ← type_of o; failf [text "cannot set field on non-struct: "; type_name t]
  end.

(** [OpMakeStruct]: the fields popped, the last declared one first. *)
Fixpoint pop_fields (names : list (list Z)) (fields : list (list Z * Object)) : exec (list (list Z * Object)) :=
  match names with
  | [] => mret fields
  | name :: names => v ← pop; pop_fields names (map_set name v fields)
  end.

Definition makeStruct (typeName : list Z) (fieldCount : Z) : exec unit :=
  let names := bytes <$> default [] (StructDefs (p_bc p) !! of_bytes typeName) in
  if zlen names =? fieldCount then
    fields ← pop_fields (rev names) [];
    push (Struct typeName names fields)
  else failf [text "struct "; typeName; text " expects "; decimal (zlen names); text " fields, got ";
              decimal fieldCount].

(** [OpEnumValue]. *)
Definition enumValue (typeName tag : list Z) : exec unit :=
  match EnumDefs (p_bc p) !! of_bytes typeName with
  | None => push (EnumValue typeName tag (Integer (-1)))
  | Some tags =>
      match list_find (fun t => bytes t = tag) tags with
      | Some (i, _) => push (EnumValue typeName tag (Integer (Z.of_nat i)))
      | None => failf [text "unknown enum tag "; typeName; text "."; tag]
      end
  end.

End Operations.
