(* ===== verification/Vm.v ===== *)
(** * The virtual machine: [src/vm/vm.go], [higher_order.go]

    Calls, the dispatch loop with every opcode, the bridge through which a
    builtin runs a function of the program ([CallClosureSync]) and the
    collection builtins built on it.  [runInstructions] is a loop without a
    bound, so a run takes fuel: one unit per instruction and per nested call. *)

From stdpp Require Import base list list_numbers numbers gmap strings.
From Stdlib Require Import ZArith Lia.
From S2P Require Import Prelude Code Stream LineTable Polymorphic Link Lexer Index Float64 Sha256 Object.
From S2P Require Import HashOrder Numeric Equality Keystream Seal Traceback Machine Operations.

Section Vm.
Context {W : Type} {H : Host W} {S : Storage} {C : Cipher} {R : Rendering} {F : Fpu}.
Context (p : Program).

#[local] Notation exec := (M W).

(** A closure, taken apart. *)
Record callee : Type := Callee { c_fn : FnPtr; c_free : list Object; c_id : option nat }.

(* ------------------------------------------------------------------ *)
(** ** Calls *)

(** [boxCapturedSlots]: each captured slot gets a cell, a parameter's with the
    argument in it and another local's with null. *)
Fixpoint box_slots (bp numParams : Z) (captured : list Z) : exec unit :=
  match captured with
  | [] => mret tt
  | index :: captured =>
      v ← get_vals;
      let slot := bp + index in
      (if (slot <? 0) || (zlen (stack v) <=? slot) then mret tt
       else
         loc ← new_cell (if index <? numParams then stack v !!! Z.to_nat slot else Null);
         slot_set slot (Cell loc));;
      box_slots bp numParams captured
  end.

(** [callClosure]. *)
Definition callClosure (c : callee) (numArgs : Z) : exec unit :=
  let fn := fn_obj (c_fn c) in
  if numArgs =? NumParams fn then
    n ← get_sp;
    let bp := n - numArgs in
    pushFrame (AFrame (c_fn c) (c_free c) (c_id c) (-1) bp);;
    ensureStackCapacity (bp + NumLocals fn);;
    set_sp (bp + NumLocals fn);;
    box_slots bp (NumParams fn) (fn_CapturedLocals fn)
  else failf [text "wrong number of arguments. want="; decimal (NumParams fn); text ", got="; decimal numArgs].

(** [containFault] and [attachTraceback] around the loop: [execLoop].  A fault
    and a panic are recorded as what they are. *)
Definition contain {A} (m : exec A) : exec A := fun s =>
  match m s with
  | (Fail e, s) => (Fail (attachTraceback p (vals s) e), s)
  | (Faulted f, s) =>
      (RecordIntegrityFailure "vm-decode";; fail (attachTraceback p (vals s) (Plain f))) s
  | (Panicked, s) =>
      (RecordIntegrityFailure "vm-panic";;
       fail (attachTraceback p (vals s) (Plain (text "vm_runtime_error: recovered panic")))) s
  | r => r
  end.

Fixpoint push_all (l : list Object) : exec unit :=
  match l with
  | [] => mret tt
  | o :: l => push o;; push_all l
  end.

(** [CallClosureSync], over the loop that runs the frames above a base; a
    failure puts the frames and the stack pointer back. *)
Definition restoring {A} (m : exec A) : exec A := fun s =>
  match m s with
  | (Fail e, s') =>
      let v := vals s' in
      let extra := (length (frames v) - length (frames (vals s)))%nat in
      (Fail e, Mk (with_frames (with_stack v (stack v) (sp (vals s))) (drop extra (frames v)))
                  (probes s') (recorded s') (world s'))
  | r => r
  end.

Definition CallClosureSync (loop : nat -> exec unit) (c : callee) (args : list Object) : exec Object :=
  restoring (
    v ← get_vals;
    push (Closure (c_fn c) (c_free c) (c_id c));;
    push_all args;;
    callClosure c (zlen args);;
    contain (loop (length (frames v)));;
    n ← get_sp;
    if n <=? sp v then mret Null else pop).

(* ------------------------------------------------------------------ *)
(** ** The collection builtins: [higher_order.go] *)

Definition vmErrorf (pieces : list (list Z)) : Object := infixError (concat pieces).

(** [arrayAndCallback]: the elements and the function, or the error value. *)
Definition arrayAndCallback (op : string) (args : list Object) : exec (Object + (list Object * callee)) :=
  match args with
  | [a; f] =>
      match a with
      | Array l =>
          match f with
          | Closure fn free id =>
              let n := NumParams (fn_obj fn) in
              if (n <? 1) || (2 <? n) then
                mret (inl (vmErrorf [text op; text ": function must take 1 or 2 parameters (element[, index]), got ";
                                     decimal n]))
              else mret (inr (l, Callee fn free id))
          | _ => t ← type_of f;
                 mret (inl (vmErrorf [text op; text ": second argument must be a function, got "; type_name t]))
          end
      | _ => t ← type_of a; mret (inl (vmErrorf [text op; text ": first argument must be ARRAY, got "; type_name t]))
      end
  | _ => mret (inl (vmErrorf [text op; text ": want 2 arguments (array, function), got "; decimal (zlen args)]))
  end.

Section HigherOrder.
Context (sync : callee -> list Object -> exec Object).

(** [callElement]. *)
Definition callElement (c : callee) (el : Object) (index : Z) : exec Object :=
  if NumParams (fn_obj (c_fn c)) =? 2 then sync c [el; Integer index] else sync c [el].

(** The loop of [hoMap], [hoFilter] and [hoEach]: the callback's results. *)
Fixpoint call_each (c : callee) (l : list Object) (index : Z) : exec (list Object) :=
  match l with
  | [] => mret []
  | el :: l =>
      r ← callElement c el index;
      rs ← call_each c l (index + 1);
      mret (r :: rs)
  end.

Definition hoMap (args : list Object) : exec Object :=
  a ← arrayAndCallback "map" args;
  match a with
  | inl e => mret e
  | inr (l, c) => rs ← call_each c l 0; mret (Array rs)
  end.

Definition hoFilter (args : list Object) : exec Object :=
  a ← arrayAndCallback "filter" args;
  match a with
  | inl e => mret e
  | inr (l, c) =>
      rs ← call_each c l 0;
      mret (Array ((zip l rs ≫= fun e => if IsTruthy e.2 then [e.1] else [])))
  end.

Definition hoEach (args : list Object) : exec Object :=
  a ← arrayAndCallback "each" args;
  match a with
  | inl e => mret e
  | inr (l, c) => _ ← call_each c l 0; mret Null
  end.

Fixpoint reduce_loop (c : callee) (acc : Object) (l : list Object) : exec Object :=
  match l with
  | [] => mret acc
  | el :: l => r ← sync c [acc; el]; reduce_loop c r l
  end.

Definition hoReduce (args : list Object) : exec Object :=
  match args with
  | [a; f; acc] =>
      match a with
      | Array l =>
          match f with
          | Closure fn free id =>
              let n := NumParams (fn_obj fn) in
              if n =? 2 then reduce_loop (Callee fn free id) acc l
              else mret (vmErrorf [text "reduce: function must take 2 parameters (accumulator, element), got ";
                                   decimal n])
          | _ => t ← type_of f; mret (vmErrorf [text "reduce: second argument must be a function, got "; type_name t])
          end
      | _ => t ← type_of a; mret (vmErrorf [text "reduce: first argument must be ARRAY, got "; type_name t])
      end
  | _ => mret (vmErrorf [text "reduce: want 3 arguments (array, function, initial), got "; decimal (zlen args)])
  end.

Definition applyExecutorNative (kind : native) (args : list Object) : exec Object :=
  match kind with
  | NMap => hoMap args
  | NFilter => hoFilter args
  | NReduce => hoReduce args
  | NEach => hoEach args
  end.

(** [callBuiltin] and [callExecutorNative]: the result is stamped with the
    call's position and takes the place of the call. *)
Definition nil_to_null (o : Object) : Object := match o with Nil => Null | o => o end.

Definition callBuiltin (addr : nat) (numArgs : Z) : exec unit :=
  n ← get_sp;
  args ← opened_slots (Z.to_nat numArgs) (n - numArgs);
  result ← match ExecutorNativeKind addr with
           | Some kind => applyExecutorNative kind args
           | None => r ← ask_world (call_builtin addr args); of_option r
           end;
  v ← get_vals;
  let result := decorateError (p_bc p) (vm_traceback p v) (nil_to_null result) in
  n ← get_sp;
  set_sp (n - numArgs - 1);;
  push result.

(** [execCall]. *)
Definition execCall (numArgs : Z) : exec unit :=
  v ← get_vals;
  let calleeIndex := sp v - 1 - numArgs in
  if (numArgs <? 0) || (calleeIndex <? 0) || (zlen (stack v) <=? calleeIndex) then
    failf [text "call with "; decimal numArgs; text " arguments reaches outside the stack (sp="; decimal (sp v);
           text ")"]
  else match stack v !!! Z.to_nat calleeIndex with
       | Closure fn free id => callClosure (Callee fn free id) numArgs
       | BuiltIn addr => callBuiltin addr numArgs
       | Nil => failf [text "calling non-function and non-built-in: the callee slot holds nothing"]
       | o => u ← use o;
              t ← type_of u;
              failf [text "calling non-function and non-built-in: "; type_name t]
       end.

(* ------------------------------------------------------------------ *)
(** ** Operands *)

(** The operand checks: an error named by the instruction, or plain text. *)
Definition short_at (ip op : Z) (what : string) (n : Z) : exec unit :=
  runtimeErrorAt ip op (failf [text "not enough bytes for "; text what; text ", len="; decimal n]).

Definition short (op : Opcode) (ip : Z) (what : string) (n : Z) : exec unit :=
  failf [bytes (Code.Name (definitions op)); text ": not enough bytes for "; text what; text " at ip="; decimal ip;
         text ", len="; decimal n].

Definition operand16_at (op : Opcode) (ip : Z) (ins : list Z) : exec Z :=
  (if zlen ins <=? ip + 2 then short_at ip (opcode_byte op) "operand" (zlen ins) else mret tt);;
  x ← runtimeErrorAt ip (opcode_byte op) (readUint16 p ins (ip + 1));
  set_ip (ip + 2);;
  mret x.

Definition operand16 (op : Opcode) (ip : Z) (ins : list Z) : exec Z :=
  (if zlen ins <=? ip + 2 then short op ip "operand" (zlen ins) else mret tt);;
  x ← readUint16 p ins (ip + 1);
  set_ip (ip + 2);;
  mret x.

Definition operand8 (op : Opcode) (ip : Z) (ins : list Z) : exec Z :=
  (if zlen ins <=? ip + 1 then short op ip "operand" (zlen ins) else mret tt);;
  x ← readUint8 p ins (ip + 1);
  set_ip (ip + 1);;
  mret x.

(** The slot of a local, and the free variable an operand names. *)
Definition local_slot (op : Opcode) (ip : Z) (index : Z) : exec Z :=
  f ← currentFrame;
  v ← get_vals;
  let slot := f_bp f + index in
  if (slot <? 0) || (zlen (stack v) <=? slot) then
    runtimeErrorAt ip (opcode_byte op)
      (failf [text "local slot "; decimal slot; text " outside the stack (bp="; decimal (f_bp f); text ", len=";
              decimal (zlen (stack v)); text ")"])
  else mret slot.

Definition free_variable (op : Opcode) (ip : Z) (index : Z) : exec Object :=
  f ← currentFrame;
  match f_free f !! Z.to_nat index with
  | Some o => mret o
  | None => runtimeErrorAt ip (opcode_byte op)
      (failf [text "free variable index="; decimal index; text " outside this closure's ";
              decimal (zlen (f_free f)); text " captured values"])
  end.

Definition cell_get (loc : nat) : exec Object := v ← get_vals; of_option (cells v !! loc).

(** [pop] with the stored form it opened; a write into what could not be
    opened would land in every slot that shares it. *)
Definition pop_raw : exec (Object * Object) :=
  v ← get_vals;
  o ← pop;
  mret (stack v !!! Z.to_nat (sp v - 1), o).

Definition owned (raw : Object) : exec unit := fun s => (if rebuilds raw then Ok tt else Shared, s).

(** [pushClosure]: a function value of its own, over the captured slots. *)
Fixpoint raw_slots (n : nat) (from : Z) : exec (list Object) :=
  match n with
  | O => mret []
  | Datatypes.S n => o ← slot_get from; rest ← raw_slots n (from + 1); mret (o :: rest)
  end.

Definition pushClosure (constIndex numFree : Z) : exec unit :=
  o ← constantAt p constIndex;
  match o with
  | CompiledFn f =>
      n ← get_sp;
      if (numFree <? 0) || (n - numFree <? 0) then
        failf [text "free-variable count "; decimal numFree; text " reaches below the stack floor (sp="; decimal n;
               text ")"]
      else
        free ← raw_slots (Z.to_nat numFree) (n - numFree);
        set_sp (n - numFree);;
        a ← fresh_addr;
        push (Closure f free (Some a))
  | o => failf [text "not a function: "; type_text o]
  end.

(** Taking [n] values off the stack to build one. *)
Definition gather (op : Opcode) (ip : Z) (what : string) (n : Z) : exec (list Object) :=
  s ← get_sp;
  (if s - n <? 0 then
     runtimeErrorAt ip (opcode_byte op)
       (failf [text "stack underflow for "; decimal n; text " "; text what; text " (sp="; decimal s; text ")"])
   else mret tt);;
  opened_slots (Z.to_nat n) (s - n).

Definition drop_slots (n : Z) : exec unit := s ← get_sp; set_sp (s - n).

(** [settleProgramResult]. *)
Definition settleProgramResult : exec unit :=
  v ← get_vals;
  if bool_decide (frames v = []) && (0 <? sp v) then set_sp (sp v - 1) else mret tt.

Definition return_with (o : Object) : exec unit :=
  f ← popFrame;
  set_sp (Z.max 0 (f_bp f - 1));;
  push o;;
  settleProgramResult.

(** [OpIterInit] and [OpIterNext]: the cursor stays on the stack. *)
Definition iterInit (ip : Z) : exec unit :=
  runtimeErrorAt ip (opcode_byte OpIterInit) (
    o ← pop;
    over ← use o;
    match over with
    | Nil => failf [text "nothing to iterate over"]
    | over =>
        match NewIterator over with
        | None => failf [text "cannot iterate over "; type_text over]
        | Some it =>
            loc ← new_cursor it;
            push (Iterator loc)
        end
    end).

Definition iterNext (ip : Z) (ins : list Z) : exec unit :=
  let at_ {A} (m : exec A) := runtimeErrorAt ip (opcode_byte OpIterNext) m in
  (if zlen ins <=? ip + 3 then short_at ip (opcode_byte OpIterNext) "operands" (zlen ins) else mret tt);;
  endPosition ← at_ (readUint16 p ins (ip + 1));
  bindings ← at_ (readUint8 p ins (ip + 3));
  set_ip (ip + 3);;
  v ← get_vals;
  if sp v <? 1 then at_ (failf [text "stack underflow reading the loop cursor"])
  else match stack v !!! Z.to_nat (sp v - 1) with
       | Iterator loc =>
           it ← of_option (cursors v !! loc);
           match Next it with
           | Panic => panic
           | Ret None => set_ip (endPosition - 1)
           | Ret (Some (key, value, it')) =>
               cursor_set loc it';;
               if bindings =? 2 then push key;; push value else push (Primary it key value)
           end
       | _ => at_ (failf [text "loop cursor was replaced on the stack"])
       end.

(* ------------------------------------------------------------------ *)
(** ** Dispatch *)

(** One definition per instruction that is more than a call. *)
Definition on_ChkDbg : exec unit :=
  present ← ask_world isDebuggerPresent;
  if present && p_secure p then fail ErrDebuggerDetected else mret tt.

Definition on_ChkSnd : exec unit :=
  present ← ask_world isSandboxed;
  if present && p_secure p then fail ErrSandboxDetected else mret tt.

Definition on_Constant (ip : Z) (ins : list Z) : exec unit :=
  i ← operand16_at OpConstant ip ins;
  runtimeErrorAt ip (opcode_byte OpConstant) (o ← constantAt p i; push o).

Definition on_Array (ip : Z) (ins : list Z) : exec unit :=
  n ← operand16_at OpArray ip ins;
  l ← gather OpArray ip "elements" n;
  drop_slots n;;
  runtimeErrorAt ip (opcode_byte OpArray) (push (Array l)).

Definition on_Concat (ip : Z) (ins : list Z) : exec unit :=
  n ← operand16_at OpConcat ip ins;
  l ← gather OpConcat ip "pieces" n;
  drop_slots n;;
  runtimeErrorAt ip (opcode_byte OpConcat) (push (Str (concat (interpolate <$> l)))).

Definition on_Hash (ip : Z) (ins : list Z) : exec unit :=
  n ← operand16_at OpHash ip ins;
  s ← get_sp;
  if (s - n <? 0) || negb (n mod 2 =? 0) then
    runtimeErrorAt ip (opcode_byte OpHash)
      (failf [text "stack underflow for "; decimal n; text " key/value slots (sp="; decimal s; text ")"])
  else
    runtimeErrorAt ip (opcode_byte OpHash) (
      l ← opened_slots (Z.to_nat n) (s - n);
      h ← build_pairs l [];
      drop_slots n;;
      push h).

Definition on_Jump (ip : Z) (ins : list Z) : exec unit :=
  pos ← operand16 OpJump ip ins;
  set_ip (pos - 1).

Definition on_JumpFalse (ip : Z) (ins : list Z) : exec unit :=
  pos ← operand16 OpJumpFalse ip ins;
  condition ← pop;
  if IsTruthy condition then mret tt else set_ip (pos - 1).

Definition on_MatchFail (ip : Z) : exec unit :=
  o ← pop;
  runtimeErrorAt ip (opcode_byte OpMatchFail)
    (failf [text "no match arm matched "; match o with Nil => text "null" | o => Inspect o end]).

Definition on_SetGlobal (ip : Z) (ins : list Z) : exec unit :=
  i ← operand16 OpSetGlobal ip ins;
  ensureGlobalCapacity i;;
  setGlobalStored i.

Definition on_GetGlobal (ip : Z) (ins : list Z) : exec unit :=
  i ← operand16 OpGetGlobal ip ins;
  ensureGlobalCapacity i;;
  pushGlobal i.

Definition on_SetLocal (ip : Z) (ins : list Z) : exec unit :=
  i ← operand8 OpSetLocal ip ins;
  slot ← local_slot OpSetLocal ip i;
  o ← popStored;
  slot_set slot o.

Definition on_GetLocal (ip : Z) (ins : list Z) : exec unit :=
  i ← operand8 OpGetLocal ip ins;
  slot ← local_slot OpGetLocal ip i;
  o ← slot_get slot;
  pushStored o.

Definition on_GetBuiltin (ip : Z) (ins : list Z) : exec unit :=
  i ← operand16 OpGetBuiltin ip ins;
  index ← builtinTableIndex p i;
  b ← of_option (p_builtins p !! Z.to_nat index);
  push (BuiltIn b).

Definition on_GetFree (ip : Z) (ins : list Z) : exec unit :=
  i ← operand8 OpGetFree ip ins;
  o ← free_variable OpGetFree ip i;
  o ← match o with Cell loc => cell_get loc | o => mret o end;
  pushStored o.

Definition on_SetFree (ip : Z) (ins : list Z) : exec unit :=
  i ← operand8 OpSetFree ip ins;
  o ← free_variable OpSetFree ip i;
  match o with
  | Cell loc => v ← popStored; cell_set loc v
  | _ => runtimeErrorAt ip (opcode_byte OpSetFree)
           (failf [text "captured variable "; decimal i; text " is not assignable storage"])
  end.

Definition on_LocalCell (op : Opcode) (ip : Z) (ins : list Z) : exec unit :=
  i ← operand8 op ip ins;
  slot ← local_slot op ip i;
  o ← slot_get slot;
  match o with
  | Cell loc =>
      match op with
      | OpGetLocalCell => v ← cell_get loc; pushStored v
      | OpSetLocalCell => v ← popStored; cell_set loc v
      | _ => push (Cell loc)
      end
  | _ => runtimeErrorAt ip (opcode_byte op) (failf [text "local slot "; decimal i; text " is not boxed"])
  end.

Definition on_CaptureFree (ip : Z) (ins : list Z) : exec unit :=
  i ← operand8 OpCaptureFree ip ins;
  o ← free_variable OpCaptureFree ip i;
  push o.

Definition on_Index : exec unit :=
  index ← pop;
  left ← pop;
  execIndexOperation left index.

Definition on_SetIndex (ip : Z) : exec unit :=
  value ← pop; value ← use value;
  index ← pop; index ← use index;
  r ← pop_raw; container ← use r.2;
  runtimeErrorAt ip (opcode_byte OpSetIndex) (
    o ← execSetIndex container index value;
    owned r.1;;
    push o).

Definition on_Closure (ip : Z) (ins : list Z) : exec unit :=
  (if zlen ins <=? ip + 3 then short OpClosure ip "operands" (zlen ins) else mret tt);;
  i ← readUint16 p ins (ip + 1);
  n ← readUint8 p ins (ip + 3);
  set_ip (ip + 3);;
  pushClosure i n.

Definition on_CurrentClosure : exec unit :=
  f ← currentFrame;
  o ← use (frame_closure f);
  push o.

Definition on_Call (ip : Z) (ins : list Z) : exec unit :=
  (if zlen ins <=? ip + 1 then short_at ip (opcode_byte OpCall) "operand" (zlen ins) else mret tt);;
  n ← runtimeErrorAt ip (opcode_byte OpCall) (readUint8 p ins (ip + 1));
  set_ip (ip + 1);;
  runtimeErrorAt ip (opcode_byte OpCall) (execCall n).

Definition on_ReturnValue : exec unit :=
  o ← pop;
  return_with o.

Definition on_MultiValue (ip : Z) (ins : list Z) : exec unit :=
  n ← operand16 OpMultiValue ip ins;
  s ← get_sp;
  if s - n <? 0 then failf [text "OpMultiValue: stack underflow for count="; decimal n]
  else
    l ← opened_slots (Z.to_nat n) (s - n);
    drop_slots n;;
    push (MultiValue l).

Definition on_Dup (ip : Z) : exec unit :=
  s ← get_sp;
  if s <=? 0 then runtimeErrorAt ip (opcode_byte OpDup) (failf [text "stack underflow"])
  else runtimeErrorAt ip (opcode_byte OpDup) (o ← slot_get (s - 1); pushStored o).

Definition on_Destructure (ip : Z) (ins : list Z) : exec unit :=
  n ← operand16 OpDestructure ip ins;
  source ← pop;
  push_all (destructureValues source (Z.to_nat n)).

Definition on_MakeStruct (ip : Z) (ins : list Z) : exec unit :=
  (if zlen ins <=? ip + 3 then short OpMakeStruct ip "operands" (zlen ins) else mret tt);;
  i ← readUint16 p ins (ip + 1);
  n ← readUint8 p ins (ip + 3);
  set_ip (ip + 3);;
  name ← constantString p "OpMakeStruct: type constant" i;
  makeStruct p name n.

Definition on_GetField (ip : Z) (ins : list Z) : exec unit :=
  i ← operand16 OpGetField ip ins;
  name ← constantString p "OpGetField: field constant" i;
  o ← pop;
  getField o name.

Definition on_SetField (ip : Z) (ins : list Z) : exec unit :=
  i ← operand16 OpSetField ip ins;
  name ← constantString p "OpSetField: field constant" i;
  value ← pop;
  r ← pop_raw;
  (match r.2 with
   | Struct _ _ fields => match map_get name fields with Some _ => owned r.1 | None => mret tt end
   | _ => mret tt
   end);;
  setField r.2 value name.

Definition on_EnumValue (ip : Z) (ins : list Z) : exec unit :=
  (if zlen ins <=? ip + 4 then short OpEnumValue ip "operands" (zlen ins) else mret tt);;
  i ← readUint16 p ins (ip + 1);
  j ← readUint16 p ins (ip + 3);
  set_ip (ip + 4);;
  name ← constantString p "OpEnumValue: type constant" i;
  tag ← constantString p "OpEnumValue: tag constant" j;
  enumValue p name tag.

Definition exec_op (op : Opcode) (ip : Z) (ins : list Z) : exec unit :=
  let at_ {A} (m : exec A) := runtimeErrorAt ip (opcode_byte op) m in
  match op with
  | OpChkDbg => on_ChkDbg
  | OpChkSnd => on_ChkSnd
  | OpConstant => on_Constant ip ins
  | OpBang => at_ execBangOperation
  | OpMinus => at_ execMinusOperation
  | OpBitNot => at_ execBitNotOperation
  | OpAdd | OpSub | OpMul | OpDiv | OpMod | OpBitAnd | OpBitOr | OpBitXor | OpShiftLeft | OpShiftRight =>
      at_ (execBinaryOperation op)
  | OpTrue => push (Boolean true)
  | OpFalse => push (Boolean false)
  | OpNull => push Null
  | OpArray => on_Array ip ins
  | OpConcat => on_Concat ip ins
  | OpHash => on_Hash ip ins
  | OpEqual | OpUnEqual | OpGreater | OpGreaterEqual | OpLess | OpLessEqual => at_ (execComparison op)
  | OpJump => on_Jump ip ins
  | OpJumpFalse => on_JumpFalse ip ins
  | OpMatchFail => on_MatchFail ip
  | OpIterInit => iterInit ip
  | OpIterNext => iterNext ip ins
  | OpSetGlobal => on_SetGlobal ip ins
  | OpGetGlobal => on_GetGlobal ip ins
  | OpSetLocal => on_SetLocal ip ins
  | OpGetLocal => on_GetLocal ip ins
  | OpGetBuiltin => on_GetBuiltin ip ins
  | OpGetFree => on_GetFree ip ins
  | OpSetFree => on_SetFree ip ins
  | OpGetLocalCell | OpSetLocalCell | OpCaptureLocal => on_LocalCell op ip ins
  | OpCaptureFree => on_CaptureFree ip ins
  | OpIndex => on_Index
  | OpSetIndex => on_SetIndex ip
  | OpClosure => on_Closure ip ins
  | OpCurrentClosure => on_CurrentClosure
  | OpCall => on_Call ip ins
  | OpReturnValue => on_ReturnValue
  | OpReturn => return_with Null
  | OpMultiValue => on_MultiValue ip ins
  | OpPop => _ ← pop; mret tt
  | OpDup => on_Dup ip
  | OpDestructure => on_Destructure ip ins
  | OpBreak => push Break
  | OpContinue => push Continue
  | OpMakeStruct => on_MakeStruct ip ins
  | OpGetField => on_GetField ip ins
  | OpSetField => on_SetField ip ins
  | OpEnumValue => on_EnumValue ip ins
  end.

Definition unknown_opcode (ip op : Z) : exec unit :=
  runtimeErrorAt ip op
    (failf [text "unknown opcode "; decimal op;
            text ": this instruction did not decode -- the bytecode may be damaged or decrypted with the wrong key, or it may have been built by a newer version of mutant"]).

(** One turn of [runInstructions]. *)
Definition step : exec unit :=
  runIntegrityProbes p;;
  f ← currentFrame;
  set_ip (f_ip f + 1);;
  q ← get_probes;
  set_probes (Prb (u64 (stepCount q + 1)) (integrityJitter q) (nextIntegrityAt q) (nextSweepAt q)
                  (frameIntegrity q) (mapped q));;
  let ip := f_ip f + 1 in
  let ins := frame_ins f in
  match opcode_at p ins ip with
  | None => fail (At_instruction ip 0 (Plain (text "offset cannot be negative")))
  | Some op =>
      match opcode_of_byte op with
      | Some o => exec_op o ip ins
      | None => unknown_opcode ip op
      end
  end.
End HigherOrder.

(** The condition of [runInstructions]. *)
Definition running (base : nat) (v : Values) : bool :=
  match frames v with
  | [] => false
  | f :: _ => (base <? length (frames v))%nat && (f_ip f <? zlen (frame_ins f) - 1)
  end.

(** [runInstructions]. *)
Fixpoint run (fuel : nat) (base : nat) : exec unit :=
  match fuel with
  | O => fun s => (OutOfFuel, s)
  | Datatypes.S fuel =>
      v ← get_vals;
      if running base v then
        step (CallClosureSync (run fuel));;
        run fuel base
      else mret tt
  end.

(** [execLoop]. *)
Definition execLoop (fuel : nat) (base : nat) : exec unit := contain (run fuel base).

(* ------------------------------------------------------------------ *)
(** ** Starting and ending a run *)

(** The function [New] makes of the program itself, at an address of its own. *)
Definition main_addr : nat :=
  Datatypes.S (foldr (fun o n => match o with CompiledFn f => Nat.max (fn_addr f) n | _ => n end)
                     0%nat (p_constants p)).

Definition main_fn : FnPtr :=
  Ptr main_addr (Fn (Instructions (p_bc p)) 0 0 [] "<main>" [] (bc_LineTable (p_bc p)) (bc_MacroTable (p_bc p))
                    (bc_EndTable (p_bc p)) []).

(** [New], with the globals it is handed. *)
Definition New (globals : list Object) (w : W) : VM W :=
  let '(sweep, jitter) := nextSweepInterval (deriveIntegritySeed (Instructions (p_bc p))) in
  Mk (Vals (replicate (Z.to_nat initialStackCapacity) Nil) 0 globals [AFrame main_fn [] None (-1) 0] [] [] 0)
     (Prb 0 jitter 0 sweep [(main_addr, Sum256 (Instructions (p_bc p)))]
          (negb (bool_decide (p_password p = []))))
     [] w.

(** [Run]. *)
Definition Run (fuel : nat) : exec unit :=
  validateSecurityCheckOpcodes p "before-execution";;
  execLoop fuel 0;;
  validateSecurityCheckOpcodes p "after-execution".

(** [StackTop] and [LastPoppedStackElement]. *)
Definition StackTop (v : Values) : option Object :=
  if sp v =? 0 then Some Nil
  else match (if sp v <? 0 then None else stack v !! Z.to_nat (sp v - 1)) with
       | Some o => decryptForUse o
       | None => None
       end.

Definition LastPoppedStackElement (v : Values) : option Object :=
  if (sp v <? 0) || (zlen (stack v) <=? sp v) then Some Null
  else decryptForUse (stack v !!! Z.to_nat (sp v)).

End Vm.
