(* ===== verification/Parallel.v ===== *)
(** * Worker pools: [src/vm/parallel.go]

    [pmap] and [peach] hand the elements of an array to worker machines from a
    shared index.  The pool is a step relation: a step is one worker's next
    critical section ([failed], [takeNext], [recordErr]) or the end of what it
    does on its own (building its machine, running the callback, storing the
    answer in a slot that is its alone), and workers interleave freely.  What a
    worker does on its own is the pair of relations [builds] and [calls];
    [vm_builds] and [vm_calls] are the ones of the machine of [Vm.v] behind the
    boundary of [Detach.v]. *)

From stdpp Require Import base list list_numbers numbers gmap strings relations.
From Stdlib Require Import ZArith Lia.
From S2P Require Import Prelude Code Stream LineTable Polymorphic Link Lexer Index Float64 Sha256 Object.
From S2P Require Import HashOrder Numeric Equality Keystream Seal Traceback Machine Operations Vm Detach.

Definition maxParallelWorkers : Z := 1024.

(** [resolveWorkerCount], on a host of [cpus] processors. *)
Definition resolveWorkerCount (cpus requested elements : Z) : Z :=
  let count := if requested <=? 0 then cpus else requested in
  let count := if elements <? count then elements else count in
  let count := if maxParallelWorkers <? count then maxParallelWorkers else count in
  if count <? 1 then 1 else count.

(** How a callback ends, when it does. *)
Inductive outcome : Type :=
| Returned (o : Object)
| Failed (e : vm_error)
| Panics (r : list Z).

(** Where a worker is: building its machine, before [failed], before [takeNext],
    in the callback for an index, gone. *)
Inductive phase (St : Type) : Type :=
| Building
| Looping (st : St)
| Taking (st : St)
| Calling (st : St) (index : nat)
| Finished.
Arguments Building {St}.
Arguments Looping {St} st.
Arguments Taking {St} st.
Arguments Calling {St} st index.
Arguments Finished {St}.

(** The variables [runParallel] shares with its workers. *)
Record pool (St : Type) : Type := Pool {
  next : nat; firstErr : option vm_error; results : list Object; workers : list (phase St) }.
Arguments Pool {St} next firstErr results workers.
Arguments next {St} p.
Arguments firstErr {St} p.
Arguments results {St} p.
Arguments workers {St} p.

Section Pool.
Context {St : Type}.
Context (op : list Z) (elements : list Object).
Context (builds : nat -> St + list Z -> Prop).                    (* [inr]: it panics *)
Context (calls : St -> Object -> nat -> outcome -> St -> Prop).

#[local] Notation pool := (pool St).

Definition set_phase (w : nat) (ph : phase St) (p : pool) : pool :=
  Pool (next p) (firstErr p) (results p) (<[w := ph]> (workers p)).

(** [recordErr]. *)
Definition recordErr (e : vm_error) (p : pool) : pool :=
  Pool (next p) (match firstErr p with None => Some e | Some first => Some first end) (results p) (workers p).

Definition worker_panicked (r : list Z) : vm_error := Plain (op ++ bytes ": worker panicked: " ++ r).

(** [failed] and [takeNext]. *)
Definition failed (p : pool) : bool := match firstErr p with None => false | Some _ => true end.

Definition takeNext (p : pool) : option nat * pool :=
  if (length elements <=? next p)%nat then (None, p)
  else (Some (next p), Pool (S (next p)) (firstErr p) (results p) (workers p)).

Definition store_result (index : nat) (o : Object) (p : pool) : pool :=
  Pool (next p) (firstErr p) (<[index := o]> (results p)) (workers p).

(** One step of the worker [w]. *)
Inductive move (w : nat) (p : pool) : pool -> Prop :=
| move_built st : workers p !! w = Some Building -> builds w (inl st) -> move w p (set_phase w (Looping st) p)
| move_not_built r :
    workers p !! w = Some Building -> builds w (inr r) ->
    move w p (set_phase w Finished (recordErr (worker_panicked r) p))
| move_stop st : workers p !! w = Some (Looping st) -> failed p = true -> move w p (set_phase w Finished p)
| move_go st : workers p !! w = Some (Looping st) -> failed p = false -> move w p (set_phase w (Taking st) p)
| move_take st i p' :
    workers p !! w = Some (Taking st) -> takeNext p = (Some i, p') -> move w p (set_phase w (Calling st i) p')
| move_none st p' :
    workers p !! w = Some (Taking st) -> takeNext p = (None, p') -> move w p (set_phase w Finished p')
| move_return st i o st' :
    workers p !! w = Some (Calling st i) -> calls st (elements !!! i) i (Returned o) st' ->
    move w p (set_phase w (Looping st') (store_result i o p))
| move_fail st i e st' :
    workers p !! w = Some (Calling st i) -> calls st (elements !!! i) i (Failed e) st' ->
    move w p (set_phase w Finished (recordErr e p))
| move_panic st i r st' :
    workers p !! w = Some (Calling st i) -> calls st (elements !!! i) i (Panics r) st' ->
    move w p (set_phase w Finished (recordErr (worker_panicked r) p)).

(** The pool as [runParallel] starts it, and when [wg.Wait] returns. *)
Definition start_pool (count : nat) : pool :=
  Pool 0 None (replicate (length elements) Nil) (replicate count Building).

Definition waited (p : pool) : Prop := forall w ph, workers p !! w = Some ph -> ph = Finished.

Definition steps (p p' : pool) : Prop := rtc (fun p p' => exists w, move w p p') p p'.

(** What [runParallel] returns of a pool it has waited for. *)
Definition pool_result (p : pool) : list Object + vm_error :=
  match firstErr p with None => inl (results p) | Some e => inr e end.

(** [runParallel]: nothing for no elements, else what some run of the pool
    leaves ([None] is the nil slice). *)
Inductive runParallel (cpus requested : Z) : option (list Object) + vm_error -> Prop :=
| run_empty : elements = [] -> runParallel cpus requested (inl None)
| run_waited p :
    elements <> [] ->
    steps (start_pool (Z.to_nat (resolveWorkerCount cpus requested (zlen elements)))) p -> waited p ->
    runParallel cpus requested (match pool_result p with inl l => inl (Some l) | inr e => inr e end).

(* ------------------------------------------------------------------ *)
(** ** Every step is progress *)

Definition weight (ph : phase St) : nat :=
  match ph with Building => 3 | Looping _ => 2 | Taking _ => 1 | Calling _ _ => 3 | Finished => 0 end.

Definition work (p : pool) : nat := (3 * (length elements - next p) + sum_list (weight <$> workers p))%nat.

Lemma weight_set w ph ph' (l : list (phase St)) :
  l !! w = Some ph -> (sum_list (weight <$> <[w := ph']> l) + weight ph = sum_list (weight <$> l) + weight ph')%nat.
Proof.
  revert w. induction l as [|x l IH]; intros [|w] Hw; simpl in *; simplify_eq; [lia|].
  specialize (IH _ Hw). unfold fmap in IH. lia.
Qed.

Lemma move_works w p p' : move w p p' -> (work p' < work p)%nat.
Proof.
  intros Hm. unfold work.
  destruct Hm as [st Hw _|r Hw _|st Hw _|st Hw _|st i p' Hw Ht|st p' Hw Ht|st i o st' Hw _|st i e st' Hw _|st i r st' Hw _];
    try (unfold takeNext in Ht; destruct (length elements <=? next p)%nat eqn:En; simplify_eq); cbn;
    match goal with |- context [<[w := ?ph']> _] => pose proof (weight_set _ _ ph' _ Hw) as Hs end; cbn in Hs; try lia.
  apply Nat.leb_gt in En. lia.
Qed.

Lemma move_count w p p' : move w p p' -> length (workers p') = length (workers p).
Proof.
  intros Hm. destruct Hm; cbn; try (unfold takeNext in *; destruct (_ <=? _)%nat; simplify_eq; cbn); by rewrite length_insert.
Qed.

(** Only the worker that moves changes its phase. *)
Lemma move_others w p p' v : move w p p' -> v <> w -> workers p' !! v = workers p !! v.
Proof.
  intros Hm Hv. destruct Hm; cbn; try (unfold takeNext in *; destruct (_ <=? _)%nat; simplify_eq; cbn);
    by rewrite list_lookup_insert_ne.
Qed.

(** A worker that is not gone can always move, when what it does on its own
    ends. *)
Definition callbacks_end : Prop :=
  (forall w, exists b, builds w b) /\ (forall st el i, exists o st', calls st el i o st').

Lemma unfinished_moves w p ph :
  callbacks_end -> workers p !! w = Some ph -> ph <> Finished -> exists p', move w p p'.
Proof.
  intros [Hb Hc] Hw Hne. destruct ph as [|st|st|st i|]; try done.
  - destruct (Hb w) as [[st|r] H]; eexists; [by eapply move_built | by eapply move_not_built].
  - destruct (failed p) eqn:Ef; eexists; [by eapply move_stop | by eapply move_go].
  - destruct (takeNext p) as [[i|] p'] eqn:Et; eexists; [by eapply move_take | by eapply move_none].
  - destruct (Hc st (elements !!! i) i) as ([o|e|r] & st' & H); eexists;
      [by eapply move_return | by eapply move_fail | by eapply move_panic].
Qed.

(* ------------------------------------------------------------------ *)
(** ** The pool ends *)

(** A run in time: at each instant some worker moves or nothing happens. *)
Definition execution (e : nat -> pool) (count : nat) : Prop :=
  e 0%nat = start_pool count /\ forall k, e (S k) = e k \/ exists w, move w (e k) (e (S k)).

(** Weak fairness: no worker is able to move from some instant on without ever
    moving. *)
Definition weakly_fair (e : nat -> pool) : Prop := forall w k, exists j,
  (k <= j)%nat /\ (move w (e j) (e (S j)) \/ forall p', ~ move w (e j) p').

Lemma execution_mono e count k j :
  execution e count -> (k <= j)%nat -> e j = e k \/ (work (e j) < work (e k))%nat.
Proof.
  intros [_ He]. induction 1 as [|j _ [IH|IH]]; [by left|..]; destruct (He j) as [E|[w Hw%move_works]];
    rewrite ?E, ?IH in *; auto with lia.
Qed.

Lemma unfinished_or_waited (p : pool) : (exists w ph, workers p !! w = Some ph /\ ph <> Finished) \/ waited p.
Proof.
  destruct (decide (Exists (fun ph : phase St => weight ph <> 0%nat) (workers p))) as [H|H].
  - left. apply Exists_exists in H as (ph & [w Hw]%list_elem_of_lookup & Hne). exists w, ph. split; [done|].
    intros ->. done.
  - right. intros w ph Hw. apply not_Exists_Forall in H; [|apply _]. rewrite Forall_lookup in H. specialize (H _ _ Hw).
    destruct ph; cbn in H; try lia; done.
Qed.

Lemma execution_moves e count k :
  callbacks_end -> execution e count -> weakly_fair e ->
  waited (e k) \/ exists j, (k <= j)%nat /\ (work (e j) < work (e k))%nat.
Proof.
  intros Hc He Hf. destruct (unfinished_or_waited (e k)) as [(w & ph & Hw & Hne)|]; [right|by left].
  destruct (Hf w k) as (j & Hj & Hm). destruct (execution_mono e count k j He Hj) as [E|Hlt]; [|by exists j].
  destruct Hm as [Hm|Hno].
  - exists (S j). split; [lia|]. apply move_works in Hm. by rewrite <- E.
  - destruct (unfinished_moves w (e j) ph Hc) as [p' Hp']; [by rewrite E|done|]. by destruct (Hno p').
Qed.

Lemma waited_stays p p' : waited p -> steps p p' -> p' = p.
Proof.
  intros Hw Hs. destruct (rtc_inv _ _ Hs) as [->|(p1 & [w Hm] & _)]; [done|].
  destruct Hm; match goal with H : workers p !! w = Some _ |- _ => by apply Hw in H end.
Qed.

Lemma execution_steps e count k j : execution e count -> (k <= j)%nat -> steps (e k) (e j).
Proof.
  intros [_ He]. induction 1 as [|j _ IH]; [apply rtc_refl|].
  destruct (He j) as [->|Hm]; [done|]. by eapply rtc_r.
Qed.

Lemma execution_ends e count m : forall k,
  callbacks_end -> execution e count -> weakly_fair e -> (work (e k) <= m)%nat -> exists j, waited (e j).
Proof.
  induction m as [|m IH]; intros k Hc He Hf Hm; destruct (execution_moves e count k Hc He Hf) as [?|(j & _ & Hj)];
    [by exists k|lia|by exists k|]. apply (IH j); [done..|lia].
Qed.

(* ------------------------------------------------------------------ *)
(** ** What the slots hold *)

(** An answer some callback gave for an index, and an error one gave. *)
Definition answered (i : nat) (o : Object) : Prop := exists st st', calls st (elements !!! i) i (Returned o) st'.

Definition raised (e : vm_error) : Prop :=
  (exists i st st', (i < length elements)%nat /\
     (calls st (elements !!! i) i (Failed e) st' \/
      exists r, e = worker_panicked r /\ calls st (elements !!! i) i (Panics r) st')) \/
  (exists w r, e = worker_panicked r /\ builds w (inr r)).

Definition calling (p : pool) (w i : nat) : Prop := exists st, workers p !! w = Some (Calling st i).

(** Each index handed out is with one worker, answered, or lost to an error;
    a worker leaves only when the elements are out or something failed. *)
Record keeps_count (p : pool) : Prop := {
  kc_length : length (results p) = length elements;
  kc_next : (next p <= length elements)%nat;
  kc_calling w i : calling p w i -> (i < next p)%nat;
  kc_once w w' i : calling p w i -> calling p w' i -> w = w';
  kc_answers i : (i < next p)%nat -> firstErr p = None ->
    (exists w, calling p w i) \/ exists o, results p !! i = Some o /\ answered i o;
  kc_left w : workers p !! w = Some Finished -> firstErr p = None -> next p = length elements;
  kc_err e : firstErr p = Some e -> raised e }.

Lemma calling_set w ph p v i :
  (w < length (workers p))%nat ->
  calling (set_phase w ph p) v i <-> v <> w /\ calling p v i \/ v = w /\ exists st, ph = Calling st i.
Proof.
  intros Hw. unfold calling. cbn. destruct (decide (v = w)) as [->|Hne].
  - rewrite list_lookup_insert_eq by done. naive_solver.
  - rewrite list_lookup_insert_ne by done. naive_solver.
Qed.

Definition is_calling (ph : phase St) : bool := match ph with Calling _ _ => true | _ => false end.

Lemma not_calling p w ph i : workers p !! w = Some ph -> is_calling ph = false -> ~ calling p w i.
Proof. intros Hw Hp [st Hst]. rewrite Hw in Hst. by simplify_eq. Qed.

(** A worker changes to a phase that calls nothing; if it was calling, its index
    is answered or the pool has failed. *)
Lemma keeps_phase w ph ph' p :
  keeps_count p -> workers p !! w = Some ph -> is_calling ph' = false ->
  (forall st i, ph = Calling st i -> firstErr p = None -> exists o, results p !! i = Some o /\ answered i o) ->
  (ph' = Finished -> firstErr p = None -> next p = length elements) ->
  keeps_count (set_phase w ph' p).
Proof.
  intros [Hl Hn Hc Ho Ha Hf He] Hw Hp Hans Hfin. pose proof (lookup_lt_Some _ _ _ Hw) as Hlt.
  assert (forall v i, calling (set_phase w ph' p) v i <-> v <> w /\ calling p v i) as Hcall.
  { intros v i. rewrite calling_set by done. split; [|by left]. intros [?|[_ [st ->]]]; done. }
  split; cbn; try done.
  - intros v i [_ ?]%Hcall. by eapply Hc.
  - intros v v' i [_ ?]%Hcall [_ ?]%Hcall. by eapply Ho.
  - intros i Hi E. destruct (Ha i Hi E) as [[v Hv]|?]; [|by right]. destruct (decide (v = w)) as [->|Hne].
    + right. destruct Hv as [st Hst]. rewrite Hw in Hst. simplify_eq. by eapply Hans.
    + left. exists v. by apply Hcall.
  - intros v. destruct (decide (v = w)) as [->|Hne].
    + rewrite list_lookup_insert_eq by done. intros [= ->]. by apply Hfin.
    + rewrite list_lookup_insert_ne by done. apply Hf.
Qed.

Lemma keeps_record e p : keeps_count p -> raised e -> keeps_count (recordErr e p).
Proof.
  intros [Hl Hn Hc Ho Ha Hf He] Hr. split; cbn; try done.
  - intros i Hi. by destruct (firstErr p).
  - intros v Hv. by destruct (firstErr p).
  - intros e'. destruct (firstErr p) as [e0|]; intros [= <-]; [by apply He | done].
Qed.

Lemma recorded e p : firstErr (recordErr e p) <> None.
Proof. cbn. by destruct (firstErr p). Qed.

Lemma keeps_take w st i p p' :
  keeps_count p -> workers p !! w = Some (Taking st) -> takeNext p = (Some i, p') ->
  keeps_count (set_phase w (Calling st i) p').
Proof.
  intros [Hl Hn Hc Ho Ha Hf He] Hw Ht. pose proof (lookup_lt_Some _ _ _ Hw) as Hlt.
  unfold takeNext in Ht. destruct (length elements <=? next p)%nat eqn:En; [done|]. apply Nat.leb_gt in En. simplify_eq.
  set (p1 := Pool _ _ _ _).
  assert (forall v i, calling (set_phase w (Calling st (next p)) p1) v i <->
            v <> w /\ calling p v i \/ v = w /\ i = next p) as Hcall.
  { intros v i. rewrite (calling_set w _ p1) by done. split.
    - intros [?|[-> [? [= _ <-]]]]; [by left | by right].
    - intros [?|[-> ->]]; [by left | right; split; [done|by exists st]]. }
  split; cbn; try done.
  - intros v i [[_ H%Hc]|[_ ->]]%Hcall; lia.
  - intros v v' i [[? Hv]|[-> ->]]%Hcall [[? Hv']|[-> ?]]%Hcall; subst; try done; [by eapply Ho|..];
      [apply Hc in Hv | apply Hc in Hv']; lia.
  - intros i Hi E. destruct (decide (i = next p)) as [->|Hne]; [left; exists w; apply Hcall; by right|].
    destruct (Ha i ltac:(lia) E) as [[v Hv]|?]; [|by right]. left. exists v. apply Hcall. left. split; [|done].
    intros ->. eapply (not_calling p w) in Hv; [|done|done]. done.
  - intros v. destruct (decide (v = w)) as [->|Hne]; [by rewrite list_lookup_insert_eq|].
    rewrite list_lookup_insert_ne by done. intros Hv E. specialize (Hf v Hv E). lia.
Qed.

Lemma keeps_answer w st i o p :
  keeps_count p -> workers p !! w = Some (Calling st i) -> answered i o -> keeps_count (store_result i o p).
Proof.
  intros [Hl Hn Hc Ho Ha Hf He] Hw Hans. assert (i < next p)%nat as Hi by (eapply Hc; by exists st).
  split; cbn; try done; [by rewrite length_insert|].
  intros j Hj E. destruct (decide (j = i)) as [->|Hne].
  - right. exists o. rewrite list_lookup_insert_eq by lia. done.
  - rewrite list_lookup_insert_ne by done. by apply Ha.
Qed.

Lemma move_keeps w p p' : keeps_count p -> move w p p' -> keeps_count p'.
Proof.
  intros Hk Hm.
  destruct Hm as [st Hw _|r Hw Hb|st Hw Hf|st Hw Hf|st i p' Hw Ht|st p' Hw Ht|st i o st' Hw Hcl|st i e st' Hw Hcl|st i r st' Hw Hcl].
  - by eapply keeps_phase.
  - eapply keeps_phase; [|done..|]; [|by intros _ ?%recorded]. apply keeps_record; [done|]. right. by exists w, r.
  - eapply keeps_phase; [done..|]. intros _ E. unfold failed in Hf. by rewrite E in Hf.
  - by eapply keeps_phase.
  - by eapply keeps_take.
  - unfold takeNext in Ht. destruct (length elements <=? next p)%nat eqn:En; [|done]. apply Nat.leb_le in En. simplify_eq.
    eapply keeps_phase; [done..|]. intros _ _. pose proof (kc_next _ Hk). lia.
  - assert (answered i o) as Ha by (by exists st, st'). pose proof (keeps_answer _ _ _ _ _ Hk Hw Ha) as Hk'.
    eapply keeps_phase; [done|done|done| |done]. intros st0 i0 [= -> ->] _. exists o. split; [|done]. cbn.
    rewrite list_lookup_insert_eq; [done|]. rewrite (kc_length _ Hk). pose proof (kc_next _ Hk).
    assert (i0 < next p)%nat by (eapply (kc_calling _ Hk w); by exists st0). lia.
  - assert (i < length elements)%nat as Hi.
    { pose proof (kc_next _ Hk). assert (i < next p)%nat by (eapply (kc_calling _ Hk w); by exists st). lia. }
    eapply keeps_phase; [|done|done|by intros ? ? _ ?%recorded|by intros _ ?%recorded]. apply keeps_record; [done|].
    left. exists i, st, st'. auto.
  - assert (i < length elements)%nat as Hi.
    { pose proof (kc_next _ Hk). assert (i < next p)%nat by (eapply (kc_calling _ Hk w); by exists st). lia. }
    eapply keeps_phase; [|done|done|by intros ? ? _ ?%recorded|by intros _ ?%recorded]. apply keeps_record; [done|].
    left. exists i, st, st'. split; [done|]. right. by exists r.
Qed.

Lemma start_keeps count : keeps_count (start_pool count).
Proof.
  assert (forall w i, ~ calling (start_pool count) w i) as Hn.
  { intros w i [st Hst]. cbn in Hst. by apply lookup_replicate in Hst as [? _]. }
  split; cbn; try done; try lia; [by rewrite length_replicate|by intros w i ?%Hn|by intros w w' i ?%Hn|].
  intros w Hw. by apply lookup_replicate in Hw as [? _].
Qed.

Lemma steps_keep p p' : keeps_count p -> steps p p' -> keeps_count p'.
Proof. intros Hk Hs. induction Hs as [|p p1 p' [w Hm] _ IH]; [done|]. apply IH. by eapply move_keeps. Qed.

Lemma steps_count p p' : steps p p' -> length (workers p') = length (workers p).
Proof. induction 1 as [|p p1 p' [w Hm%move_count] _ IH]; [done|]. congruence. Qed.

Lemma waited_answers count p :
  (0 < count)%nat -> steps (start_pool count) p -> waited p ->
  match pool_result p with
  | inl l => length l = length elements /\ forall i o, l !! i = Some o -> answered i o
  | inr e => raised e
  end.
Proof.
  intros Hc Hs Hw. pose proof (steps_keep _ _ (start_keeps count) Hs) as Hk. unfold pool_result.
  destruct (firstErr p) as [e|] eqn:E; [by apply (kc_err _ Hk)|]. split; [apply (kc_length _ Hk)|]. intros i o Ho.
  assert (next p = length elements) as Hn.
  { destruct (lookup_lt_is_Some_2 (workers p) 0) as [ph Hph].
    - rewrite (steps_count _ _ Hs). cbn. rewrite length_replicate. lia.
    - apply (kc_left _ Hk 0); [|done]. rewrite Hph. f_equal. by eapply Hw. }
  assert (i < next p)%nat as Hi by (rewrite Hn, <- (kc_length _ Hk); by eapply lookup_lt_Some).
  destruct (kc_answers _ Hk i Hi E) as [[w [st Hst]]|(o' & Ho' & Ha)]; [by apply Hw in Hst|]. congruence.
Qed.
End Pool.

Lemma resolve_bounds cpus requested elements :
  1 <= elements -> 1 <= resolveWorkerCount cpus requested elements <= Z.min elements maxParallelWorkers.
Proof. intros He. unfold resolveWorkerCount, maxParallelWorkers. repeat case_match; lia. Qed.

(** C13: the pool ends.  Whatever the order in which workers run, as long as each
    callback ends and no worker that could move is passed over for ever, there
    is an instant from which every worker is gone, nothing changes any more and
    [runParallel] has its answer. *)
Theorem every_worker_pool_finishes {St} op elements (builds : nat -> St + list Z -> Prop) calls cpus requested
    (e : nat -> pool St) :
  elements <> [] -> callbacks_end builds calls ->
  execution op elements builds calls e (Z.to_nat (resolveWorkerCount cpus requested (zlen elements))) ->
  weakly_fair op elements builds calls e ->
  exists k, (forall j, (k <= j)%nat -> waited (e j) /\ e j = e k) /\
    runParallel op elements builds calls cpus requested
      (match pool_result (e k) with inl l => inl (Some l) | inr err => inr err end).
Proof.
  intros Hne Hc He Hf. destruct (execution_ends _ _ _ _ e _ _ 0%nat Hc He Hf (le_n _)) as [k Hk]. exists k. split.
  - intros j Hj. assert (e j = e k) as E; [|by rewrite E].
    eapply waited_stays; [done|]. by eapply execution_steps.
  - apply run_waited; [done| |done]. destruct He as [E0 He']. rewrite <- E0. eapply execution_steps; [by split|lia].
Qed.

Lemma some_worker cpus requested (elements : list Object) :
  elements <> [] -> (0 < Z.to_nat (resolveWorkerCount cpus requested (zlen elements)))%nat.
Proof.
  intros Hne. assert (1 <= zlen elements) by (destruct elements; [done|unfold zlen; simpl; lia]).
  pose proof (resolve_bounds cpus requested (zlen elements)). lia.
Qed.

(** C21: whatever the schedule, a call that succeeds has one answer per element,
    each in its element's slot and given by a callback for that element, and a
    call that fails reports an error a callback (or a worker that could not be
    built) raised. *)
Theorem answers_are_in_order {St} op elements (builds : nat -> St + list Z -> Prop) calls cpus requested r :
  runParallel op elements builds calls cpus requested r ->
  match r with
  | inl None => elements = []
  | inl (Some l) => elements <> [] /\ length l = length elements /\ forall i o, l !! i = Some o -> answered elements calls i o
  | inr e => raised op elements builds calls e
  end.
Proof.
  intros [E|p Hne Hs Hw]; [done|]. apply waited_answers in Hs; [by destruct (pool_result p)|by apply some_worker|done].
Qed.

(** C27: with callbacks that answer from their element alone, a pool of any size
    under any schedule is the sequential map. *)
Theorem pmap_is_map {St} op elements (builds : nat -> St + list Z -> Prop) calls cpus requested r
    (f : nat -> Object -> Object) :
  (forall w m, ~ builds w (inr m)) ->
  (forall st el i o st', calls st el i o st' -> o = Returned (f i el)) ->
  runParallel op elements builds calls cpus requested r ->
  r = inl (match elements with [] => None | _ => Some (imap f elements) end).
Proof.
  intros Hb Hf [E|p Hne Hs Hw]; [by rewrite E|]. apply waited_answers in Hs; [|by apply some_worker|done].
  destruct (pool_result p) as [l|e].
  - destruct Hs as (Hl & Ha). f_equal. transitivity (Some (imap f elements)); [|by destruct elements].
    f_equal. apply list_eq_same_length with (length elements); [by rewrite length_imap|done|].
    intros i x y Hi Hx Hy. rewrite list_lookup_imap in Hy. destruct (Ha i x Hx) as (st & st' & Hc). apply Hf in Hc.
    destruct (elements !! i) as [el|] eqn:Ee; simplify_eq/=. by rewrite (list_lookup_total_correct _ _ _ Ee).
  - destruct Hs as [(i & st & st' & _ & [H|(m & -> & H)])|(w & m & -> & H)]; [by apply Hf in H..|by destruct (Hb w m)].
Qed.

(** No run of a pool is longer than three steps per element and per worker. *)
Lemma pool_steps_bounded {St} op elements (builds : nat -> St + list Z -> Prop) calls count n p :
  nsteps (fun p p' => exists w, move op elements builds calls w p p') n (start_pool elements count) p ->
  (n <= 3 * (length elements + count))%nat.
Proof.
  intros Hn. assert (forall q, nsteps (fun p p' => exists w, move op elements builds calls w p p') n q p ->
                        (n + work elements p <= work elements q)%nat) as H.
  { clear Hn. induction n as [|n IH]; intros q Hq; inversion Hq as [|? ? q1 ? [w Hm%move_works] Hr]; subst; [lia|].
    specialize (IH _ Hr). lia. }
  apply H in Hn. unfold work at 2 in Hn. cbn in Hn.
  rewrite fmap_replicate, sum_list_replicate in Hn. cbn in Hn. lia.
Qed.

(* ------------------------------------------------------------------ *)
(** ** Workers that are machines *)

Section Workers.
Context {W : Type} {H : Host W} {S : Storage} {C : Cipher} {R : Rendering} {F : Fpu}.
Context (p : Program).

(** A worker's machine, the cells its boundary has replaced and its copy of the
    callback. *)
Record worker : Type := Worker { w_vm : VM W; w_seen : gmap nat nat; w_closure : callee }.

(** A machine over a store and a host. *)
Definition over (store : list Object) (w : W) (s : VM W) : VM W := Mk (with_cells (vals s) store) (probes s) (Machine.recorded s) w.

(** [newWorkerVMWithGlobals], of a caller whose next address is [a]. *)
Definition newWorkerVMWithGlobals (globals : list Object) (a : nat) (store : list Object) (w : W) : VM W :=
  let s := New p globals w in
  over store w (Mk (with_fresh (vals s) a) (probes s) (Machine.recorded s) w).

(** [newWorkerVM] and [boundary.closure(cl)]: [None] when the walk has no fuel. *)
Definition newWorker (caller : Values) (cl : callee) (holding : list nat) (w : W) : option worker :=
  let fuel := length (cells caller) in
  '(globals, b) ← detach_slots fuel (globals caller) holding (newWorkerBoundary (cells caller));
  match closure fuel (Closure (c_fn cl) (c_free cl) (c_id cl)) b with
  | Some (Closure fn free id, _, b) =>
      Some (Worker (newWorkerVMWithGlobals globals (fresh caller) (b_store b) w) (b_cells b) (Callee fn free id))
  | _ => None
  end.

(** A worker builds its machine over whatever the surroundings are then. *)
Definition vm_builds (caller : Values) (cl : callee) (_ : nat) (r : worker + list Z) : Prop :=
  match r with
  | inl st => exists holding w,
      globalsHoldingCells (length (cells caller)) (globals caller) (cells caller) = Some holding /\
      newWorker caller cl holding w = Some st
  | inr _ => False
  end.

(** How a callback on a machine ends. *)
Definition ends_as (r : result Object) (o : outcome) : Prop :=
  match r with
  | Ok v => o = Returned v
  | Fail e => o = Failed e
  | Faulted m => o = Panics m
  | Panicked => exists m, o = Panics m
  | OutOfFuel | Shared => False
  end.

(** The element crosses the boundary, then [callElement]. *)
Definition vm_calls (st : worker) (el : Object) (i : nat) (o : outcome) (st' : worker) : Prop :=
  exists fuel w el' moved b r s',
    let store := cells (vals (w_vm st)) in
    value (length store) el (Bound (w_seen st) store) = Some (el', moved, b) /\
    callElement (CallClosureSync p (run p fuel)) (w_closure st) el' (Z.of_nat i) (over (b_store b) w (w_vm st)) = (r, s') /\
    ends_as r o /\ st' = Worker s' (b_cells b) (w_closure st).

(** [parallelArgs]: the error value, or the elements, the function and the
    number of workers asked for. *)
Definition parallelArgs (op : string) (args : list Object) : M W (Object + (list Object * callee * Z)) :=
  if negb ((length args =? 2)%nat || (length args =? 3)%nat) then
    mret (inl (vmErrorf [text op; text ": want 2 or 3 arguments (array, function[, workers]), got "; decimal (zlen args)]))
  else
    r ← arrayAndCallback op (take 2 args);
    match r with
    | inl e => mret (inl e)
    | inr (l, c) =>
        match args !! 2%nat with
        | None => mret (inr (l, c, 0))
        | Some (Integer n) =>
            if n <? 1 then mret (inl (vmErrorf [text op; text ": workers must be at least 1, got "; decimal n]))
            else mret (inr (l, c, n))
        | Some o => t ← type_of o;
                    mret (inl (vmErrorf [text op; text ": third argument (workers) must be INTEGER, got "; type_name t]))
        end
    end.

(** What [hoPMap] and [hoPEach] may answer, on a host of [cpus] processors. *)
Definition ho_parallel (op : string) (finish : option (list Object) -> Object) (cpus : Z) (args : list Object)
    (s : VM W) (r : result Object) : Prop :=
  match (parallelArgs op args s).1 with
  | Ok (inl e) => r = Ok e
  | Ok (inr (l, c, requested)) =>
      exists q, runParallel (text op) l (vm_builds (vals s) c) vm_calls cpus requested q /\
        r = match q with inl l => Ok (finish l) | inr e => Fail e end
  | Panicked => r = Panicked
  | _ => False
  end.

Definition hoPMap : Z -> list Object -> VM W -> result Object -> Prop :=
  ho_parallel "pmap" (fun l => Array (default [] l)).

Definition hoPEach : Z -> list Object -> VM W -> result Object -> Prop := ho_parallel "peach" (fun _ => Null).

(** A worker can be built for any caller whose cells are in its store. *)
Lemma workers_can_be_built (caller : Values) (cl : callee) (w : W) :
  sound (cells caller) (globals caller ++ [Closure (c_fn cl) (c_free cl) (c_id cl)]) ->
  exists st, vm_builds caller cl 0 (inl st).
Proof.
  intros Hs. set (o := Closure _ _ _) in Hs. set (D := reach (cells caller) (globals caller ++ [o])).
  pose proof (sound_fits _ _ Hs) as Hb. fold D in Hb.
  pose proof (reach_held_all (cells caller) (globals caller ++ [o])) as Hr. fold D in Hr.
  apply Forall_app in Hr as [Hg Ho]. rewrite Forall_singleton in Ho.
  assert (unseen (length (cells caller)) (newWorkerBoundary (cells caller)) <= length (cells caller))%nat as Hu.
  { unfold unseen. cbn. by rewrite dom_empty_L, difference_empty_L, size_set_seq. }
  destruct (holding_ends D _ (length (cells caller)) (globals caller) 0 _ Hs Hb Hg Hu) as [holding Eh].
  destruct (slice_ends D _ Hs (length (cells caller)) (globals caller) _ Hb Hg Hu) as [[[g ch] b] Eg].
  destruct (slice_detaches D _ _ _ _ _ _ Eg Hb Hg) as (Hb' & Wk & _).
  pose proof (unseen_grows D _ Hs _ _ (walked_cells _ _ _ Wk)) as Hm.
  destruct (value_ends D _ Hs (length (cells caller)) o b Hb' Ho ltac:(lia)) as [[[o' mv] b'] Eo].
  destruct (value_detaches D _ _ _ _ _ _ Eo Hb' Ho) as (_ & _ & _ & -> & _).
  eexists (Worker _ _ _), holding, w. split; [done|]. unfold newWorker.
  rewrite (detach_holding D _ (globals caller) [] _ _ holding Hb Hg Eh), Eg. cbn [mbind option_bind app].
  unfold closure. fold o. rewrite Eo. reflexivity.
Qed.
End Workers.

(* ------------------------------------------------------------------ *)
(** ** One worker and one element, to the end *)

Module Example_.
Definition op : list Z := bytes "pmap".
Definition els : list Object := [Integer 20].
Definition twice (i : nat) (o : Object) : Object := match o with Integer n => Integer (2 * n) | o => o end.
Definition built (w : nat) (r : unit + list Z) : Prop := r = inl tt.
Definition called (st : unit) (el : Object) (i : nat) (o : outcome) (st' : unit) : Prop := o = Returned (twice i el).

Definition trace (k : nat) : pool unit :=
  match k with
  | 0%nat => Pool 0 None [Nil] [Building]
  | 1%nat => Pool 0 None [Nil] [Looping tt]
  | 2%nat => Pool 0 None [Nil] [Taking tt]
  | 3%nat => Pool 1 None [Nil] [Calling tt 0]
  | 4%nat => Pool 1 None [Integer 40] [Looping tt]
  | 5%nat => Pool 1 None [Integer 40] [Taking tt]
  | _ => Pool 1 None [Integer 40] [Finished]
  end.

Lemma trace_end : waited (trace 6).
Proof. intros [|[|w]] ph Hw; cbn in Hw; congruence. Qed.

Lemma trace_executes : execution op els built called trace 1.
Proof.
  split; [done|]. intros [|[|[|[|[|[|k]]]]]]; [right; exists 0%nat..|by left].
  - exact (move_built op els built called 0 (trace 0) tt eq_refl eq_refl).
  - exact (move_go op els built called 0 (trace 1) tt eq_refl eq_refl).
  - exact (move_take op els built called 0 (trace 2) tt 0 (Pool 1 None [Nil] [Taking tt]) eq_refl eq_refl).
  - exact (move_return op els built called 0 (trace 3) tt 0 (Integer 40) tt eq_refl eq_refl).
  - exact (move_go op els built called 0 (trace 4) tt eq_refl eq_refl).
  - exact (move_none op els built called 0 (trace 5) tt (trace 5) eq_refl eq_refl).
Qed.

Lemma trace_fair : weakly_fair op els built called trace.
Proof.
  intros w k. exists (Nat.max k 6). split; [lia|]. right. intros p' Hm.
  assert (trace (Nat.max k 6) = trace 6) as E.
  { destruct (Nat.max k 6) as [|[|[|[|[|[|j]]]]]] eqn:Ej; try lia. done. }
  rewrite E in Hm. destruct Hm; match goal with H : workers (trace 6) !! w = Some _ |- _ => by apply trace_end in H end.
Qed.

Lemma trace_runs : runParallel op els built called 1 0 (inl (Some [Integer 40])).
Proof.
  refine (run_waited op els built called 1 0 (trace 6) _ _ trace_end); [done|].
  apply (execution_steps _ _ _ _ _ 1 0 6 trace_executes). lia.
Qed.

Lemma every_worker_pool_finishes_witness :
  callbacks_end built called /\
  exists k, (forall j, (k <= j)%nat -> waited (trace j) /\ trace j = trace k) /\
    runParallel op els built called 1 0
      (match pool_result (trace k) with inl l => inl (Some l) | inr err => inr err end).
Proof.
  assert (callbacks_end built called) as Hc.
  { split; [intros w; by exists (inl tt)|]. intros st el i. by exists (Returned (twice i el)), tt. }
  split; [done|]. apply (every_worker_pool_finishes op els built called 1 0 trace); [done|done|exact trace_executes|exact trace_fair].
Defined.

Lemma answers_are_in_order_witness :
  runParallel op els built called 1 0 (inl (Some [Integer 40])) /\
  els <> [] /\ length [Integer 40] = length els /\ forall i o, [Integer 40] !! i = Some o -> answered els called i o.
Proof.
  split; [exact trace_runs|]. exact (answers_are_in_order op els built called 1 0 (inl (Some [Integer 40])) trace_runs).
Defined.

Lemma pmap_is_map_witness : (inl (Some [Integer 40]) : option (list Object) + vm_error) = inl (Some (imap twice els)).
Proof.
  apply (pmap_is_map op els built called 1 0 (inl (Some [Integer 40])) twice); [| |exact trace_runs].
  - intros w m Hb. unfold built in Hb. congruence.
  - intros st el i o st' Hc. exact Hc.
Defined.
End Example_.
