(* ===== verification/VmFacts.v ===== *)
(** * The machine's instructions

    The arithmetic of the machine against the evaluator's, growing slices, and
    the two readers of a sealed instruction stream that are not the dispatch
    loop: the boundary map behind the control-flow check and the scan for the
    security opcodes. *)

From stdpp Require Import base list list_numbers numbers gmap strings.
From Stdlib Require Import ZArith Lia SpecFloat.
From S2P Require Import Prelude Code Stream LineTable Polymorphic Link Lexer Index Float64 Sha256 Object.
From S2P Require Import HashOrder Numeric Equality Keystream Seal Traceback Machine Operations Vm.

(* ------------------------------------------------------------------ *)
(** ** One arithmetic in both engines *)

Lemma SFeqb_comm a b : SFeqb a b = SFeqb b a.
Proof.
  unfold SFeqb. destruct a as [[]|[]| |[] m e], b as [[]|[]| |[] m' e']; try reflexivity;
    cbn [SFcompare]; rewrite (Z.compare_antisym e e'); change (Pos.compare_cont Eq) with Pos.compare;
    rewrite (Pos.compare_antisym m m'); destruct (e ?= e'); simpl; try done; by destruct (m ?= m')%positive.
Qed.

Lemma feqb_comm a b : feqb a b = feqb b a.
Proof. apply SFeqb_comm. Qed.

(** How the program spells an operator's opcode. *)
Definition spelling (op : Opcode) : option (list Z) :=
  match op with
  | OpAdd => Some (bytes "+") | OpSub => Some (bytes "-") | OpMul => Some (bytes "*")
  | OpDiv => Some (bytes "/") | OpMod => Some (bytes "%")
  | OpEqual => Some (bytes "==") | OpUnEqual => Some (bytes "!=")
  | OpGreater => Some (bytes ">") | OpGreaterEqual => Some (bytes ">=")
  | OpLess => Some (bytes "<") | OpLessEqual => Some (bytes "<=")
  | op => bitwiseOperatorSymbol op
  end.

Definition is_comparison (op : Opcode) : bool :=
  match op with
  | OpEqual | OpUnEqual | OpGreater | OpGreaterEqual | OpLess | OpLessEqual => true
  | _ => false
  end.

(** What the machine pushes for two integers and for two floats. *)
Definition integer_answer (op : Opcode) (l r : Z) : Object :=
  match op with
  | OpAdd => Integer (i64 (l + r))
  | OpSub => Integer (i64 (l - r))
  | OpMul => Integer (i64 (l * r))
  | OpDiv => if r =? 0 then infixError (bytes "integer division by zero") else Integer (i64 (Z.quot l r))
  | OpMod => if r =? 0 then infixError (bytes "integer modulo by zero") else Integer (i64 (Z.rem l r))
  | OpEqual => Boolean (r =? l)
  | OpUnEqual => Boolean (negb (r =? l))
  | OpGreater => Boolean (r <? l)
  | OpGreaterEqual => Boolean (r <=? l)
  | OpLess => Boolean (l <? r)
  | OpLessEqual => Boolean (l <=? r)
  | op => BitwiseInfix (default [] (bitwiseOperatorSymbol op)) l r
  end.

Lemma integer_answer_spec op sym l r : spelling op = Some sym -> integerInfix sym l r = integer_answer op l r.
Proof. destruct op; try discriminate; intros [= <-]; try reflexivity; unfold integer_answer; by rewrite Z.eqb_sym. Qed.

Section Parity.
Context {W : Type} {H : Host W} {S : Storage} {C : Cipher} {R : Rendering} {F : Fpu}.

Definition float_answer (op : Opcode) (l r : Z) : Object :=
  match op with
  | OpAdd => Float (fadd l r)
  | OpSub => Float (fsub l r)
  | OpMul => Float (fmul l r)
  | OpDiv => Float (fdiv l r)
  | OpMod => Float (Mod l r)
  | OpEqual => Boolean (feqb r l)
  | OpUnEqual => Boolean (negb (feqb r l))
  | OpGreater => Boolean (fltb r l)
  | OpGreaterEqual => Boolean (fleb r l)
  | OpLess => Boolean (fltb l r)
  | _ => Boolean (fleb l r)
  end.

Lemma float_answer_spec op sym l r :
  spelling op = Some sym -> bitwiseOperatorSymbol op = None -> floatInfix sym l r = float_answer op l r.
Proof.
  destruct op; try discriminate; intros [= <-] _; try reflexivity; unfold float_answer; by rewrite feqb_comm.
Qed.

(** The instruction behind an operator. *)
Definition exec_operator (op : Opcode) : M W unit :=
  if is_comparison op then execComparison op else execBinaryOperation op.

Definition operate (op : Opcode) (left right : Object) : M W unit :=
  if is_comparison op then comparison_dispatch op left right else binary_checked op left right.

Lemma push_or_refuse_eq o (s : VM W) :
  push_or_refuse o s = match o with Error i _ => (Fail (Plain (Message i)), s) | o => push o s end.
Proof. by destruct o. Qed.

Lemma operate_integers op sym l r (s : VM W) :
  spelling op = Some sym ->
  operate op (Integer l) (Integer r) s =
  match integer_answer op l r with Error i _ => (Fail (Plain (Message i)), s) | o => push o s end.
Proof.
  destruct op; try discriminate; intros _; try reflexivity.
  - change (operate OpDiv (Integer l) (Integer r)) with
      (if r =? 0 then @failf W unit [text "integer division by zero"] else push (Integer (i64 (Z.quot l r)))).
    unfold integer_answer. by destruct (r =? 0).
  - change (operate OpMod (Integer l) (Integer r)) with
      (if r =? 0 then @failf W unit [text "integer modulo by zero"] else push (Integer (i64 (Z.rem l r)))).
    unfold integer_answer. by destruct (r =? 0).
  - refine (eq_trans (push_or_refuse_eq (BitwiseInfix (bytes "<<") l r) s) _).
    unfold integer_answer. cbn [bitwiseOperatorSymbol default]. by destruct (BitwiseInfix _ _ _).
  - refine (eq_trans (push_or_refuse_eq (BitwiseInfix (bytes ">>") l r) s) _).
    unfold integer_answer. cbn [bitwiseOperatorSymbol default]. by destruct (BitwiseInfix _ _ _).
Qed.

Lemma operate_floats op sym left right (s : VM W) :
  spelling op = Some sym -> bitwiseOperatorSymbol op = None ->
  IsNumeric left && IsNumeric right = true -> (Type_ left = FLOAT_OBJ \/ Type_ right = FLOAT_OBJ) ->
  operate op left right s = push (float_answer op (getFloatVal left) (getFloatVal right)) s.
Proof.
  intros Hsym Hb Hn Hf. destruct left, right; try discriminate; try (by destruct Hf);
    destruct op; try discriminate; reflexivity.
Qed.

(** C20: The machine and the evaluator compute alike.  On two numbers, every
    arithmetic, bitwise and comparison instruction pushes exactly the value
    [NumericInfix], the evaluator's operator, answers, and fails exactly when
    that answers an error, with the error's message: overflow wraps, division
    by zero and negative shifts are refused, and mixed operands are compared
    and combined as floats in both. *)
Theorem vm_numbers_match_the_evaluator (op : Opcode) (sym : list Z) (left right : Object) (s s1 s2 : VM W) :
  spelling op = Some sym -> IsNumeric left = true -> IsNumeric right = true ->
  pop s = (Ok right, s1) -> pop s1 = (Ok left, s2) ->
  exists o, NumericInfix sym left right = Ret o /\
    exec_operator op s = match o with
                         | Error i _ => (Fail (Plain (Message i)), s2)
                         | o => push o s2
                         end.
Proof.
  intros Hsym Hl Hr Hp1 Hp2.
  assert (Hx : exec_operator op s =
    (if is_comparison op then comparison_dispatch op left right else binary_checked op left right) s2).
  { unfold exec_operator. destruct (is_comparison op).
    - unfold execComparison, mbind, M_bind. rewrite Hp1, Hp2. by destruct left, right.
    - unfold execBinaryOperation, mbind, M_bind. rewrite Hp1, Hp2. by destruct left, right. }
  rewrite Hx. clear Hx Hp1 Hp2.
  fold (operate op left right).
  destruct (decide (Type_ left = INTEGER_OBJ /\ Type_ right = INTEGER_OBJ)) as [[Hil Hir]|Hmix].
  - destruct left as [|l| | | | | | | | | | | | | | | | | | | | |[] ? ?], right as [|r| | | | | | | | | | | | | | | | | | | | |[] ? ?];
      try discriminate.
    exists (integerInfix sym l r). split.
    + unfold NumericInfix. cbn [Type_]. rewrite !bool_decide_eq_true_2, andb_false_r by done. done.
    + rewrite (integer_answer_spec op), (operate_integers op sym) by done. by destruct (integer_answer op l r).
  - assert (Hf : Type_ left = FLOAT_OBJ \/ Type_ right = FLOAT_OBJ)
      by (destruct left, right; try discriminate; tauto).
    destruct (bitwiseOperatorSymbol op) as [bit|] eqn:Hbit.
    + assert (sym = bit) as -> by (destruct op; try discriminate; cbn in *; congruence).
      exists (BitwiseOperandError bit left right). split.
      * unfold NumericInfix. replace (IsBitwiseOperator bit) with true by (destruct op; try discriminate; injection Hbit as <-; reflexivity).
        by destruct left, right; try discriminate; try tauto.
      * unfold operate. replace (is_comparison op) with false by (by destruct op).
        unfold binary_checked. by rewrite Hbit, bool_decide_eq_false_2.
    + exists (floatInfix sym (getFloatVal left) (getFloatVal right)). split.
      * unfold NumericInfix. replace (IsBitwiseOperator sym) with false by (destruct op; try discriminate; injection Hsym as <-; reflexivity).
        by destruct left, right; try discriminate; try tauto.
      * rewrite (float_answer_spec op), (operate_floats op sym) by (done || by rewrite Hl, Hr).
        by destruct op.
Qed.
End Parity.

(* ------------------------------------------------------------------ *)
(** ** Growing slices *)

Lemma grow_loop_spec fuel x required :
  0 < x -> required <= 2 ^ 62 -> required <= x * 2 ^ Z.of_nat fuel ->
  exists n, grow_loop (S fuel) x required = Some n /\ required <= n /\ x <= n /\ (n = x \/ n < 2 * required).
Proof.
  revert x. induction fuel as [|fuel IH]; intros x Hx Hr Hb.
  { exists x. cbn [grow_loop]. change (2 ^ Z.of_nat 0) with 1 in Hb.
    rewrite (proj2 (Z.ltb_ge _ _)) by lia. split_and!; [done|lia|lia|by left]. }
  remember (S fuel) as f eqn:Ef. cbn [grow_loop]. destruct (Z.ltb_spec x required) as [Hlt|Hge].
  2: { exists x. split_and!; [done|lia|lia|by left]. }
  rewrite i64_id by (unfold is_i64; lia). subst f.
  destruct (IH (x * 2)) as (n & Hn & Hge & Hx2 & Hn2); [lia|done| |].
  { rewrite Nat2Z.inj_succ, Z.pow_succ_r in Hb by lia. lia. }
  exists n. split_and!; [done|lia|lia|]. destruct Hn2 as [->|]; [right; lia|by right].
Qed.

(** Growing a slice ends and is enough.  For sizes up to [2 ^ 62] the
    doubling loop stops, what it returns holds the required size and never less
    than there was, is the old size when that was enough, and is less than twice
    the requirement whenever it had to double; no step overflows. *)
Theorem grow_size_is_enough (current required fallback : Z) :
  0 <= current -> 0 <= fallback -> required <= 2 ^ 62 ->
  exists n, growSize current required fallback = Some n /\ required <= n /\ current <= n /\
    (required <= current -> n = current) /\
    (n = current \/ n = fallback \/ n = 1 \/ n < 2 * required).
Proof.
  intros Hc Hf Hr. unfold growSize. destruct (Z.leb_spec required current) as [Hle|Hgt].
  { exists current. split_and!; [done|lia|lia|done|by left]. }
  set (x := if _ =? 0 then 1 else _).
  assert (Hx : 0 < x /\ current <= x /\ (x = current \/ x = fallback \/ x = 1)).
  { unfold x. destruct (Z.eqb_spec current 0), (Z.eqb_spec fallback 0); subst; cbn; bcases; lia. }
  destruct (grow_loop_spec 63 x required) as (n & Hn & Hge & Hxn & Hor); [lia|done|lia|].
  exists n. split_and!; [exact Hn|lia|lia|lia|]. destruct Hor as [->|]; [|lia]. destruct Hx as (_ & _ & [|[|]]); lia.
Qed.

Lemma grow_size_is_enough_witness :
  exists n, growSize 2048 5000 2048 = Some n /\ 5000 <= n < 10000.
Proof.
  destruct (grow_size_is_enough 2048 5000 2048) as (n & Hn & Hge & Hc & _ & Hor); [lia|lia|lia|].
  exists n. split; [done|]. lia.
Defined.

(* ------------------------------------------------------------------ *)
(** ** Reading a sealed, remapped stream *)

Section Streams.
Context {W : Type} {H : Host W} {S : Storage} {C : Cipher} {R : Rendering}.
Context (p : Program) (enc : Z -> Z).

(** The program's opcode table undoes the permutation its bytes went through. *)
Hypothesis undoes : forall op, decodeOpcode p (enc (opcode_byte op)) = opcode_byte op.

Definition spelled_instr (i : instr) : list Z :=
  enc (opcode_byte (iop i)) :: operands_bytes (iwidths i) (iargs i).

Fixpoint spelled (l : list instr) : list Z :=
  match l with
  | [] => []
  | i :: l => spelled_instr i ++ spelled l
  end.

(** A function's stream as the runtime holds it. *)
Definition at_rest (l : list instr) : list Z := XORKeyStream (instructionStream p) 0 (spelled l).

Lemma length_spelled_instr i : length (spelled_instr i) = instr_width i.
Proof. rewrite <- length_instr_bytes. done. Qed.

Lemma spelled_app l k : spelled (l ++ k) = spelled l ++ spelled k.
Proof. induction l as [|i l IH]; simpl; [done|]. by rewrite IH, app_assoc. Qed.

Lemma opcode_at_rest pre i post :
  zlen (spelled (pre ++ i :: post)) <= 2 ^ 38 ->
  opcode_at p (at_rest (pre ++ i :: post)) (zlen (spelled pre)) = Some (opcode_byte (iop i)).
Proof.
  intros Hl. unfold opcode_at, at_rest. rewrite to_nat_zlen.
  unfold zlen at 1. rewrite (XOROneAt_sealed _ _ _ (enc (opcode_byte (iop i)))); [|done|].
  - cbn. by rewrite undoes.
  - rewrite spelled_app. cbn [spelled spelled_instr app]. apply lookup_app_at.
Qed.

Lemma zlen_at_rest l : zlen (at_rest l) = zlen (spelled l).
Proof. unfold at_rest, zlen. by rewrite length_XORKeyStream. Qed.

Lemma spelled_cons_len pre i : zlen (spelled pre) + Z.of_nat (def_width (definitions (iop i))) = zlen (spelled (pre ++ [i])).
Proof. rewrite spelled_app, zlen_app. cbn [spelled]. rewrite app_nil_r. unfold zlen at 3. by rewrite length_spelled_instr. Qed.

Lemma boundaries_spec fuel pre post :
  zlen (spelled (pre ++ post)) <= 2 ^ 38 -> (length post <= fuel)%nat ->
  boundaries_loop p fuel (at_rest (pre ++ post)) (zlen (spelled pre)) =
  Z.of_nat <$> starts_from (length (spelled pre)) post.
Proof.
  intros Hl. revert pre fuel Hl. induction post as [|i post IH]; intros pre fuel Hl Hf.
  - destruct fuel; [done|]. cbn [boundaries_loop]. rewrite zlen_at_rest, app_nil_r, Z.leb_refl. done.
  - destruct fuel as [|fuel]; [simpl in Hf; lia|]. cbn [boundaries_loop].
    rewrite (proj2 (Z.leb_gt _ _)).
    2: { rewrite zlen_at_rest, spelled_app, zlen_app. cbn [spelled spelled_instr app]. unfold zlen. simpl. lia. }
    rewrite opcode_at_rest by done. cbn [mbind option_bind]. rewrite Lookup_opcode, spelled_cons_len.
    cbn [starts_from fmap list_fmap]. f_equal.
    specialize (IH (pre ++ [i]) fuel). rewrite <- app_assoc in IH. cbn [app] in IH. rewrite IH by (done || (simpl in Hf; lia)).
    f_equal. f_equal. rewrite spelled_app, length_app. cbn [spelled]. rewrite app_nil_r.
    by rewrite length_spelled_instr.
Qed.

Lemma length_spelled_ge l : (length l <= length (spelled l))%nat.
Proof. induction l as [|i l IH]; simpl; [lia|]. rewrite length_app. lia. Qed.

(** C23: The control-flow check knows the instructions.  On a well-formed stream
    at rest, in a program with a password, the boundary map is exactly the set of
    offsets its instructions start at, through the keystream and the opcode
    permutation.  So the check reports an integrity failure exactly when the frame
    has started ([ip] is not negative) and its [ip] is neither the start of an
    instruction nor the byte before one; it stops the frame exactly then in secure
    mode under a policy that does not just warn, and passes otherwise. *)
Theorem control_flow_check_is_exact (l : list instr) (stage : string) (f : Frame) (s : VM W) :
  p_password p <> [] -> zlen (spelled l) <= 2 ^ 38 -> frame_ins f = at_rest l ->
  let lost := 0 <= f_ip f /\ ~ exists n, n ∈ starts_from 0 l /\ (f_ip f = Z.of_nat n \/ f_ip f + 1 = Z.of_nat n) in
  let stops := p_secure p = true /\ warns_only = false in
  let '(r, s') := verifyFrameControlFlow p stage f s in
  buildInstructionBoundaries p (at_rest l) = Z.of_nat <$> starts_from 0 l /\
  (lost -> recorded s' = stage :: recorded s) /\ (~ lost -> recorded s' = recorded s) /\
  (lost /\ stops -> exists e, r = Fail e) /\ (~ (lost /\ stops) -> r = Ok tt).
Proof.
  intros Hp Hl Hf lost stops.
  assert (Hb : buildInstructionBoundaries p (at_rest l) = Z.of_nat <$> starts_from 0 l).
  { unfold buildInstructionBoundaries. rewrite bool_decide_eq_false_2 by done.
    apply (boundaries_spec _ []); [done|]. unfold at_rest. rewrite length_XORKeyStream. apply length_spelled_ge. }
  assert (Hin : forall z, z ∈ (Z.of_nat <$> starts_from 0 l) <-> exists n, n ∈ starts_from 0 l /\ z = Z.of_nat n).
  { intros z. rewrite list_elem_of_fmap. split; intros (n & H1 & H2); by exists n. }
  unfold verifyFrameControlFlow. rewrite Hf, Hb, (bool_decide_eq_false_2 _ Hp). cbn [andb].
  destruct (Z.ltb_spec (f_ip f) 0) as [Hip|Hip].
  { assert (~ lost) by (intros [? _]; lia). cbn. tauto. }
  unfold get_probes, set_probes, mbind, M_bind. cbn.
  case_bool_decide as H1; [|case_bool_decide as H2].
  - assert (~ lost) by (intros [_ []]; apply Hin in H1 as (n & Hn & Hz); exists n; tauto). cbn. tauto.
  - assert (~ lost) by (intros [_ []]; apply Hin in H2 as (n & Hn & Hz); exists n; tauto). cbn. tauto.
  - assert (lost) as Hlost.
    { split; [done|]. intros (n & Hn & [Hz|Hz]); [apply H1|apply H2]; apply Hin; by exists n. }
    unfold ApplyTamperResponse, stops. cbn. destruct warns_only, (p_secure p); cbn;
      split_and!; try done; try tauto; try (by intros [_ [? ?]]); try (by intros _; eexists); by intros [].
Qed.

Definition has_op (op : Opcode) (l : list instr) : bool := existsb (fun i => bool_decide (iop i = op)) l.

Lemma opcode_byte_eqb a b : (opcode_byte a =? opcode_byte b) = bool_decide (a = b).
Proof.
  case_bool_decide as E; [subst; apply Z.eqb_refl|]. apply Z.eqb_neq. intros Hb. apply E.
  by apply (f_equal opcode_of_byte) in Hb; rewrite !opcode_of_byte_byte in Hb; simplify_eq.
Qed.

Lemma scan_spec fuel pre post dbg snd_ :
  zlen (spelled (pre ++ post)) <= 2 ^ 38 -> (length post < fuel)%nat ->
  scan_loop p fuel (at_rest (pre ++ post)) (zlen (spelled pre)) dbg snd_ =
  Some (dbg || has_op OpChkDbg post, snd_ || has_op OpChkSnd post).
Proof.
  intros Hl. revert pre fuel Hl dbg snd_. induction post as [|i post IH]; intros pre fuel Hl dbg snd_ Hf.
  - destruct fuel; [lia|]. cbn [scan_loop]. rewrite zlen_at_rest, app_nil_r, Z.leb_refl. cbn. by rewrite !orb_false_r.
  - destruct fuel as [|fuel]; [lia|]. cbn [scan_loop].
    rewrite (proj2 (Z.leb_gt _ _)).
    2: { rewrite zlen_at_rest, spelled_app, zlen_app. cbn [spelled spelled_instr app]. unfold zlen. simpl. lia. }
    rewrite opcode_at_rest by done. cbn [mbind option_bind]. rewrite Lookup_opcode.
    cbn [mbind option_bind]. rewrite spelled_cons_len.
    specialize (IH (pre ++ [i]) fuel). rewrite <- app_assoc in IH. cbn [app] in IH.
    rewrite IH by (done || (simpl in Hf; lia)). cbn [has_op existsb]. by rewrite !opcode_byte_eqb, !orb_assoc.
Qed.

(** C24: The security scan misses nothing.  A program passes the check made
    before and after a run exactly when an [OpChkDbg] and an [OpChkSnd] are
    among the instructions of its stream and of the functions of its pool,
    whatever key the streams are sealed under and however the opcodes are
    permuted; a byte of an operand is never taken for one. *)
Theorem security_scan_is_exact (main : list instr) (pool : list (option (list instr))) :
  zlen (spelled main) <= 2 ^ 38 ->
  Forall (fun l => match l with Some l => zlen (spelled l) <= 2 ^ 38 | None => True end) pool ->
  Forall2 (fun o l => match l, o with
    | Some l, CompiledFn f => fn_Instructions (fn_obj f) = at_rest l
    | None, CompiledFn _ => False
    | None, _ => True
    | Some _, _ => False
    end) (p_constants p) pool ->
  let everywhere op := has_op op main || existsb (fun l => from_option (has_op op) false l) pool in
  scanSecurityCheckOpcodes p (at_rest main) = Some (everywhere OpChkDbg, everywhere OpChkSnd).
Proof.
  intros Hm Hp Hpool everywhere_.
  assert (Hone : forall l, zlen (spelled l) <= 2 ^ 38 ->
    scanInstructionsForSecurityCheckOpcodes p (at_rest l) = Some (has_op OpChkDbg l, has_op OpChkSnd l)).
  { intros l Hl. unfold scanInstructionsForSecurityCheckOpcodes. apply (scan_spec _ []); [done|].
    unfold at_rest. rewrite length_XORKeyStream. pose proof (length_spelled_ge l). lia. }
  unfold scanSecurityCheckOpcodes. rewrite Hone by done. cbn [mbind option_bind]. unfold everywhere_. clear everywhere_ Hm.
  generalize (has_op OpChkDbg main), (has_op OpChkSnd main).
  induction Hpool as [|o l os ls Ho _ IH]; intros dbg snd_; [cbn; by rewrite !orb_false_r|].
  apply Forall_cons in Hp as [Hl Hp]. cbn [existsb]. rewrite !orb_assoc.
  destruct l as [l|].
  - destruct o; try done. cbn [scan_constants from_option]. rewrite Ho, Hone by done. cbn [mbind option_bind fst snd].
    by apply IH.
  - cbn [from_option]. rewrite !orb_false_r. destruct o; try done; by apply IH.
Qed.
End Streams.

(* ------------------------------------------------------------------ *)
(** ** A small machine *)

Module Sample.
#[export] Instance cipher : Cipher := counting_cipher.
#[export] Instance gob : Gob := sample_gob.
#[export] Instance rendering : Rendering := no_cells.
#[export] Instance fpu : Fpu := quiet_fpu.
#[export] Instance host : Host unit := {|
  call_builtin _ _ w := (Some Null, w); ExecutorNativeKind _ := None;
  isDebuggerPresent w := (false, w); isSandboxed w := (false, w);
  warns_only := false; render_arg _ := [] |}.

(** [fn(x) { return x * 2; }] called with 21. *)
Definition body : list instr :=
  [Instr OpGetLocal [0]; Instr OpConstant [2]; Instr OpMul []; Instr OpReturnValue []].
Definition main : list instr :=
  [Instr OpChkDbg []; Instr OpChkSnd []; Instr OpClosure [0; 0]; Instr OpConstant [1]; Instr OpCall [1];
   Instr OpPop []].

Definition pool : list Object :=
  [CompiledFn (Ptr 0 (Fn (encode body) 1 1 [] "double" ["x"%string] [] [] [] [])); Integer 21; Integer 2].

Definition artifact : list Z * list Object := EncryptByteCode (encode main) pool [112].
Definition program : Program := Prog (bare_program artifact.1 [] [] [] []) artifact.2 [112] true true [].
Definition key : sealKey := SealKey (inslen program) [112] (Some (instructionStream program)).
#[export] Instance storage : Storage := sealed key.

Example doubled :
  let r := Run program 40 (New program [] tt) in
  (r.1, LastPoppedStackElement (vals r.2)) = (Ok tt, Some (Integer 42)).
Proof. vm_compute. reflexivity. Qed.
End Sample.
Import Sample.

Lemma vm_numbers_match_the_evaluator_witness :
  let s := Mk (Vals [Integer 7; Integer 0] 2 [] [] [] [] 0) (Prb 0 1 0 0 [] true) [] tt in
  (exec_operator OpDiv s).1 = Fail (Plain (bytes "integer division by zero")).
Proof.
  intros s.
  destruct (vm_numbers_match_the_evaluator OpDiv (bytes "/") (Integer 7) (Integer 0) s
    (Mk (Vals [Integer 7; Integer 0] 1 [] [] [] [] 0) (Prb 0 1 0 0 [] true) [] tt)
    (Mk (Vals [Integer 7; Integer 0] 0 [] [] [] [] 0) (Prb 0 1 0 0 [] true) [] tt)) as (o & Ho & He);
    [reflexivity..|].
  rewrite He. injection Ho as <-. reflexivity.
Defined.

(** A frame at the start of the second instruction, and one in the middle of the
    third. *)
Lemma control_flow_check_is_exact_witness :
  let f ip := AFrame (Ptr 9 (bare_function (at_rest program id main))) [] None ip 0 in
  (verifyFrameControlFlow program "vm-cfi" (f 1) (New program [] tt)).1 = Ok tt /\
  recorded (verifyFrameControlFlow program "vm-cfi" (f 3) (New program [] tt)).2 = ["vm-cfi"%string].
Proof.
  intros f. split.
  - pose proof (control_flow_check_is_exact program id (fun op => eq_refl) main "vm-cfi" (f 1) (New program [] tt)) as Hc.
    cbv zeta in Hc. destruct (verifyFrameControlFlow _ _ _ _) as [r s'].
    destruct Hc as (_ & _ & _ & _ & Hok); [discriminate|vm_compute; discriminate|reflexivity|].
    apply Hok. intros [[_ Hno] _]. apply Hno. exists 1%nat. split; [|by left]. apply (bool_decide_unpack _). vm_compute. exact I.
  - pose proof (control_flow_check_is_exact program id (fun op => eq_refl) main "vm-cfi" (f 3) (New program [] tt)) as Hc.
    cbv zeta in Hc. assert (recorded (New program [] tt) = []) as E by (vm_compute; reflexivity). rewrite E in Hc.
    destruct (verifyFrameControlFlow _ _ _ _) as [r s'].
    destruct Hc as (_ & Hlost & _); [discriminate|vm_compute; discriminate|reflexivity|].
    apply Hlost. split; [vm_compute; discriminate|]. intros (n & Hn & Hip). vm_compute in Hn. cbn in Hip.
    repeat (apply elem_of_cons in Hn as [->|Hn]; [lia|]). by apply elem_of_nil in Hn.
Defined.

Lemma security_scan_is_exact_witness :
  scanSecurityCheckOpcodes program (at_rest program id main) = Some (true, true).
Proof.
  assert (Hz : forall l, (length (spelled id l) < 100)%nat -> zlen (spelled id l) <= 2 ^ 38) by (unfold zlen; lia).
  pose proof (security_scan_is_exact program id (fun op => eq_refl) main [Some body; None; None]) as Hx.
  rewrite Hx; [reflexivity|..].
  - apply Hz. vm_compute. lia.
  - repeat constructor. apply Hz. vm_compute. lia.
  - repeat constructor.
Defined.
