(* ===== verification/VmInvariant.v ===== *)
(** * What every instruction keeps

    The stack pointer and every frame's base stay within the stack's capacity, the
    call depth within its limit, and no instruction touches a frame below the one it
    runs in.  The claims are proved for every program, well formed or not: a
    corrupt stream may fail, fault or panic, but never leaves the bounds. *)

From stdpp Require Import base list list_numbers numbers gmap strings.
From Stdlib Require Import ZArith Lia.
From S2P Require Import Prelude Code Stream LineTable Polymorphic Link Lexer Index Float64 Sha256 Object.
From S2P Require Import HashOrder Numeric Equality Keystream Seal Traceback Machine Operations Vm VmFacts.

(* ------------------------------------------------------------------ *)
(** ** The invariant and its two judgements *)

Definition cap (v : Values) : Z := zlen (stack v).

Record bounded (v : Values) : Prop := {
  sp_bound : sp v <= cap v;
  bp_bound : Forall (fun f => f_bp f <= cap v) (frames v);
  depth_bound : zlen (frames v) <= maxCallDepth }.

(** The outermost [n] frames. *)
Definition bottom (n : nat) (l : list Frame) : list Frame := drop (length l - n) l.

Lemma bottom_cons n f l : (n <= length l)%nat -> bottom n (f :: l) = bottom n l.
Proof. intros Hn. unfold bottom. cbn [length]. replace (S (length l) - n)%nat with (S (length l - n)) by lia. done. Qed.

Lemma bottom_all l : bottom (length l) l = l.
Proof. unfold bottom. by rewrite Nat.sub_diag. Qed.

Lemma bottom_bottom n m l k :
  (n <= m)%nat -> (m <= length l)%nat -> (m <= length k)%nat -> bottom m l = bottom m k -> bottom n l = bottom n k.
Proof.
  intros Hnm Hl Hk E. unfold bottom in *.
  assert (forall l : list Frame, (m <= length l)%nat -> drop (length l - n) l = drop (m - n) (drop (length l - m) l)) as Hd.
  { intros q Hq. rewrite drop_drop. f_equal. lia. }
  by rewrite (Hd l), (Hd k), E.
Qed.

(** The base pointer of the frame just above the outermost [n]. *)
Definition bp_at (n : nat) (l : list Frame) : option Z := f_bp <$> head (bottom (S n) l).

Lemma bp_at_cons n f l : (n < length l)%nat -> bp_at n (f :: l) = bp_at n l.
Proof. intros Hn. unfold bp_at. by rewrite bottom_cons by lia. Qed.

Lemma bp_at_head f l : bp_at (length l) (f :: l) = Some (f_bp f).
Proof. unfold bp_at, bottom. cbn [length]. by rewrite Nat.sub_diag. Qed.

Lemma bp_at_bottom n m l k :
  (n < m)%nat -> (m <= length l)%nat -> (m <= length k)%nat -> bottom m l = bottom m k -> bp_at n l = bp_at n k.
Proof. intros ? ? ? E. unfold bp_at. by rewrite (bottom_bottom (S n) m l k) by (done || lia). Qed.

Definition succeeded {A} (r : result A) : Prop := match r with Ok _ => True | _ => False end.

Section Invariant.
Context {W : Type} {H : Host W} {S : Storage} {C : Cipher} {R : Rendering} {F : Fpu}.
Context (p : Program).

(** [still c m]: with a stack of at least [c] slots, [m] keeps the bounds and
    the frames, and never shrinks the stack. *)
Definition still {A} (c : Z) (m : M W A) : Prop := forall s,
  bounded (vals s) -> c <= cap (vals s) ->
  let v := vals (m s).2 in
  bounded v /\ cap (vals s) <= cap v /\ frames v = frames (vals s).

(** What happens to the frame above the outermost [n]: while it is there its
    base stays, and a successful return from it leaves the stack pointer one
    above its closure's slot. *)
Definition returned (n : nat) (l l' : list Frame) (ok : Prop) (sp' : Z) : Prop :=
  ((n < length l')%nat -> bp_at n l' = bp_at n l) /\
  (length l' = n -> n <> 0%nat -> ok -> exists b, bp_at n l = Some b /\ sp' = Z.max 0 (b - 1) + 1).

(** [keeps e c n m]: run in a frame above the outermost [n], [m] keeps the
    bounds and those frames; [e] allows it to return from the last one above. *)
Definition keeps {A} (e : bool) (c : Z) (n : nat) (m : M W A) : Prop := forall s,
  bounded (vals s) -> c <= cap (vals s) -> (n < length (frames (vals s)))%nat ->
  let v := vals (m s).2 in
  bounded v /\ cap (vals s) <= cap v /\ bottom n (frames v) = bottom n (frames (vals s)) /\
  (n < length (frames v) + (if e then 1 else 0))%nat /\
  returned n (frames (vals s)) (frames v) (succeeded (m s).1) (sp v).

Lemma returned_same n l ok z : (n < length l)%nat -> returned n l l ok z.
Proof. intros Hn. split; [done|lia]. Qed.

Lemma returned_weaken n l l' (ok ok' : Prop) z : (ok' -> ok) -> returned n l l' ok z -> returned n l l' ok' z.
Proof. intros Hok [H1 H2]. split; [done|]. intros ? ? ?. apply H2; tauto. Qed.

Lemma returned_trans n l l1 l' ok z :
  (n < length l1)%nat -> bp_at n l1 = bp_at n l -> returned n l1 l' ok z -> returned n l l' ok z.
Proof. intros Hn E [H1 H2]. split; [intros ?; rewrite H1 by done; done|]. by rewrite <- E. Qed.

Lemma still_bind {A B} c (m : M W A) (k : A -> M W B) :
  still c m -> (forall a, still c (k a)) -> still c (mbind k m).
Proof.
  intros Hm Hk s Hb Hc. unfold mbind, M_bind. specialize (Hm s Hb Hc).
  destruct (m s) as [r s1]. destruct Hm as (Hb1 & Hc1 & Hf1). destruct r as [a| | | | |]; try done. cbn in *.
  destruct (Hk a s1 Hb1 ltac:(lia)) as (Hb2 & Hc2 & Hf2). split_and!; [done|lia|congruence].
Qed.

(** A result whose every value has a property hands it on. *)
Lemma keeps_bind_post {A B} (P : A -> Prop) e c n (m : M W A) (k : A -> M W B) :
  keeps false c n m -> (forall s a s', m s = (Ok a, s') -> P a) ->
  (forall a, P a -> keeps e c n (k a)) -> keeps e c n (mbind k m).
Proof.
  intros Hm HP Hk s Hb Hc Hn. unfold mbind, M_bind. specialize (Hm s Hb Hc Hn).
  destruct (m s) as [r s1] eqn:Em. destruct Hm as (Hb1 & Hc1 & Hf1 & Hn1 & Hr1). cbn -[bottom] in *.
  destruct r as [a| | | | |].
  2-6: split_and!; try done; destruct e; cbn; lia.
  destruct (Hk a (HP _ _ _ Em) s1 Hb1 ltac:(lia) ltac:(lia)) as (Hb2 & Hc2 & Hf2 & Hn2 & Hr2).
  split_and!; [done|lia|congruence|done|]. eapply returned_trans; [| |exact Hr2]; [lia|]. apply Hr1. lia.
Qed.

Lemma keeps_bind {A B} e c n (m : M W A) (k : A -> M W B) :
  keeps false c n m -> (forall a, keeps e c n (k a)) -> keeps e c n (mbind k m).
Proof. intros Hm Hk. by apply (keeps_bind_post (fun _ => True)). Qed.

Lemma still_keeps {A} e c n (m : M W A) : still c m -> keeps e c n m.
Proof.
  intros Hm s Hb Hc Hn. destruct (Hm s Hb Hc) as (Hb1 & Hc1 & Hf1).
  cbv zeta. rewrite Hf1. split_and!; [done|done|done|destruct e; cbn; lia|by apply returned_same].
Qed.

Lemma keeps_weaken {A} c n (m : M W A) : keeps false c n m -> keeps true c n m.
Proof. intros Hm s Hb Hc Hn. destruct (Hm s Hb Hc Hn) as (? & ? & ? & ? & ?). split_and!; [done..|lia|done]. Qed.

(** Nothing happens to the values. *)
Lemma still_same {A} c (m : M W A) : (forall s, vals (m s).2 = vals s) -> still c m.
Proof. intros Hm s Hb Hc. cbv zeta. rewrite Hm. split_and!; [done|lia|done]. Qed.

Lemma still_at {A} c ip op (m : M W A) : still c m -> still c (runtimeErrorAt ip op m).
Proof.
  intros Hm s Hb Hc. unfold runtimeErrorAt. specialize (Hm s Hb Hc). by destruct (m s) as [[] ?].
Qed.

Lemma keeps_at {A} e c n ip op (m : M W A) : keeps e c n m -> keeps e c n (runtimeErrorAt ip op m).
Proof.
  intros Hm s Hb Hc Hn. unfold runtimeErrorAt. specialize (Hm s Hb Hc Hn). by destruct (m s) as [[] ?].
Qed.

(** Reading the state hands on what is known of it. *)
Lemma still_get_vals {A} c (k : Values -> M W A) :
  (forall v, bounded v -> still (Z.max c (cap v)) (k v)) -> still c (mbind k get_vals).
Proof.
  intros Hk s Hb Hc. destruct (Hk (vals s) Hb s Hb ltac:(lia)) as (? & ? & ?). by split_and!.
Qed.

Lemma still_get_sp {A} c (k : Z -> M W A) :
  (forall n, still (Z.max c n) (k n)) -> still c (mbind k get_sp).
Proof.
  intros Hk s Hb Hc. unfold get_sp, get_vals, mbind, M_bind, mret, M_ret. cbn.
  apply Hk; [done|]. destruct Hb. lia.
Qed.

Lemma keeps_get_sp {A} e c n (k : Z -> M W A) :
  (forall m, keeps e (Z.max c m) n (k m)) -> keeps e c n (mbind k get_sp).
Proof.
  intros Hk s Hb Hc Hn. unfold get_sp, get_vals, mbind, M_bind, mret, M_ret. cbn.
  apply Hk; [done| |done]. destruct Hb. lia.
Qed.

Lemma keeps_get_vals {A} e c n (k : Values -> M W A) :
  (forall v, bounded v -> keeps e (Z.max c (cap v)) n (k v)) -> keeps e c n (mbind k get_vals).
Proof. intros Hk s Hb Hc Hn. apply (Hk (vals s) Hb s); [done|lia|done]. Qed.

Lemma set_sp_still c n : n <= c -> still c (set_sp (W := W) n).
Proof.
  intros Hn s [Hs Hb Hd] Hc. unfold set_sp, get_vals, set_vals, mbind, M_bind. cbn.
  split_and!; [split; cbn; [unfold cap in *; cbn; lia|done|done]|done|done].
Qed.

(** Growing. *)
Lemma growSize_ge current required fallback n : growSize current required fallback = Some n -> required <= n.
Proof.
  unfold growSize. destruct (Z.leb_spec required current); [intros [= <-]; lia|].
  assert (forall fuel x, grow_loop fuel x required = Some n -> required <= n) as Hg; [|apply Hg].
  intros fuel. induction fuel as [|fuel IH]; intros x; [done|]. cbn [grow_loop].
  destruct (Z.ltb_spec x required); [apply IH|intros [= <-]; lia].
Qed.

Lemma zlen_grown l n : zlen (grown l n) = Z.max (zlen l) n.
Proof. unfold grown, zlen. rewrite length_app, length_replicate. lia. Qed.

Lemma bounded_stack v l n :
  bounded v -> cap v <= zlen l -> n <= zlen l -> bounded (with_stack v l n).
Proof.
  intros [Hs Hb Hd] Hl Hn. split; unfold cap; cbn; [done| |done].
  eapply Forall_impl; [exact Hb|]. cbn. lia.
Qed.

Lemma ensureStackCapacity_spec required (s : VM W) :
  bounded (vals s) ->
  let r := ensureStackCapacity required s in
  let v := vals r.2 in
  bounded v /\ cap (vals s) <= cap v /\ frames v = frames (vals s) /\ sp v = sp (vals s) /\
  (r.1 = Ok tt -> required <= cap v).
Proof.
  intros Hb. unfold ensureStackCapacity, mbind, M_bind, get_vals. cbn.
  destruct (Z.leb_spec required (zlen (stack (vals s)))); cbn; [by split_and!|].
  destruct (growSize _ _ _) as [n|] eqn:Hg; cbn; [|by split_and!].
  apply growSize_ge in Hg. pose proof (zlen_grown (stack (vals s)) n). destruct Hb as [Hs Hb Hd].
  unfold cap in *. cbn. split_and!; try done; try lia.
  apply bounded_stack; [by split|unfold cap; lia|lia].
Qed.

Lemma ensureStackCapacity_still c required : still c (ensureStackCapacity (W := W) required).
Proof. intros s Hb _. destruct (ensureStackCapacity_spec required s Hb) as (? & ? & ? & _). by split_and!. Qed.

Lemma ensureGlobalCapacity_still c index : still c (ensureGlobalCapacity (W := W) index).
Proof.
  intros s [Hs Hb Hd] _. unfold ensureGlobalCapacity, mbind, M_bind, get_vals. cbn.
  destruct (_ <=? _); cbn; [by split_and!|]. destruct (growSize _ _ _); cbn; by split_and!.
Qed.

Lemma slot_set_spec i o (s : VM W) :
  bounded (vals s) ->
  let v := vals (slot_set i o s).2 in
  bounded v /\ cap v = cap (vals s) /\ frames v = frames (vals s) /\ sp v = sp (vals s).
Proof.
  intros Hb. unfold slot_set, mbind, M_bind, get_vals. cbn. destruct (_ || _); cbn; [by split_and!|].
  assert (Hl : zlen (<[Z.to_nat i:=o]> (stack (vals s))) = zlen (stack (vals s))) by (unfold zlen; by rewrite length_insert).
  split_and!; try done. apply bounded_stack; [done|unfold cap; lia|]. destruct Hb. unfold cap in *. lia.
Qed.

Lemma slot_set_still c i o : still c (slot_set (W := W) i o).
Proof. intros s Hb _. destruct (slot_set_spec i o s Hb) as (? & ? & ? & _). split_and!; [done|lia|done]. Qed.

Lemma pushStored_still c o : still c (pushStored (W := W) o).
Proof.
  intros s Hb Hc. unfold pushStored, get_sp, get_vals, mbind, M_bind, mret, M_ret. cbn.
  pose proof (ensureStackCapacity_spec (sp (vals s) + 1) s Hb) as He. cbv zeta in He.
  destruct (ensureStackCapacity (sp (vals s) + 1) s) as [r s1]. cbn [fst snd] in He.
  destruct He as (Hb1 & Hc1 & Hf1 & Hsp1 & Hok1). destruct r as [[]| | | | |]; try done.
  pose proof (slot_set_spec (sp (vals s)) o s1 Hb1) as Hs. cbv zeta in Hs.
  destruct (slot_set (sp (vals s)) o s1) as [r2 s2]. cbn [snd] in Hs. destruct Hs as (Hb2 & Hc2 & Hf2 & Hsp2).
  destruct r2 as [[]| | | | |]; cbn [fst snd]; try (split_and!; [done|lia|congruence]).
  destruct (set_sp_still (sp (vals s) + 1) (sp (vals s) + 1) ltac:(lia) s2 Hb2) as (? & ? & ?).
  { specialize (Hok1 eq_refl). lia. }
  split_and!; [done|lia|congruence].
Qed.

Lemma push_still c o : still c (push (W := W) o).
Proof. apply pushStored_still. Qed.

(** Operations that leave the stack, its pointer and the frames alone. *)
Lemma still_other {A} c (m : M W A) :
  (forall s, let v := vals (m s).2 in
     stack v = stack (vals s) /\ sp v = sp (vals s) /\ frames v = frames (vals s)) -> still c m.
Proof.
  intros Hm s [Hs Hb Hd] Hc. destruct (Hm s) as (Es & Ep & Ef). unfold cap in *. cbv zeta. rewrite Es.
  split_and!; [|lia|done]. split; unfold cap; rewrite ?Es, ?Ep, ?Ef; done.
Qed.

Lemma mret_still {A} c (a : A) : still c (mret (M := M W) a).
Proof. by apply still_same. Qed.
Lemma fail_still {A} c e : still c (fail (W := W) (A := A) e).
Proof. by apply still_same. Qed.
Lemma failf_still {A} c l : still c (failf (W := W) (A := A) l).
Proof. by apply still_same. Qed.
Lemma faultf_still {A} c m : still c (faultf (W := W) (A := A) m).
Proof. by apply still_same. Qed.
Lemma panic_still {A} c : still c (panic (W := W) (A := A)).
Proof. by apply still_same. Qed.
Lemma get_vals_still c : still c (get_vals (W := W)).
Proof. by apply still_same. Qed.
Lemma get_sp_still c : still c (get_sp (W := W)).
Proof. by apply still_same. Qed.
Lemma get_probes_still c : still c (get_probes (W := W)).
Proof. by apply still_same. Qed.
Lemma record_still c stage : still c (RecordIntegrityFailure (W := W) stage).
Proof. by apply still_same. Qed.
Lemma set_probes_still c q : still c (set_probes (W := W) q).
Proof. by apply still_same. Qed.
Lemma ask_world_still {A} c (f : W -> A * W) : still c (ask_world f).
Proof. apply still_same. intros s. unfold ask_world. by destruct (f (world s)). Qed.
Lemma of_option_still {A} c (o : option A) : still c (of_option (W := W) o).
Proof. apply still_same. by destruct o. Qed.
Lemma type_of_still c o : still c (type_of (W := W) o).
Proof. apply still_same. by destruct o. Qed.
Lemma fresh_addr_still c : still c (fresh_addr (W := W)).
Proof. by apply still_other. Qed.
Lemma new_cell_still c o : still c (new_cell (W := W) o).
Proof. by apply still_other. Qed.
Lemma new_cursor_still c it : still c (new_cursor (W := W) it).
Proof. by apply still_other. Qed.
Lemma cell_set_still c l o : still c (cell_set (W := W) l o).
Proof. by apply still_other. Qed.
Lemma cursor_set_still c l it : still c (cursor_set (W := W) l it).
Proof. by apply still_other. Qed.
Lemma owned_still c o : still c (owned (W := W) o).
Proof. apply still_same. intros s. unfold owned. by destruct (rebuilds o). Qed.

Lemma still_ensure {B} c k (m : M W B) :
  still (Z.max c k) m -> still c (mbind (fun _ => m) (ensureStackCapacity k)).
Proof.
  intros Hm s Hb Hc. unfold mbind, M_bind. pose proof (ensureStackCapacity_spec k s Hb) as He. cbv zeta in He.
  destruct (ensureStackCapacity k s) as [r s1]. cbn [fst snd] in He. destruct He as (Hb1 & Hc1 & Hf1 & _ & Hok).
  destruct r as [[]| | | | |]; try done. destruct (Hm s1 Hb1) as (? & ? & ?); [specialize (Hok eq_refl); lia|].
  cbn. split_and!; [done|lia|congruence].
Qed.

End Invariant.

#[export] Hint Resolve mret_still fail_still failf_still faultf_still panic_still get_vals_still get_sp_still
  get_probes_still set_probes_still record_still ask_world_still of_option_still type_of_still fresh_addr_still new_cell_still
  new_cursor_still cell_set_still cursor_set_still owned_still ensureStackCapacity_still
  ensureGlobalCapacity_still slot_set_still pushStored_still push_still : still.

(** Walk an operation, statement by statement. *)
Ltac still_step :=
  lazymatch goal with
  | |- still _ (mbind _ get_sp) => apply still_get_sp; intros ?
  | |- still _ (mbind _ get_vals) => apply still_get_vals; intros ? ?
  | |- still _ (mbind _ (ensureStackCapacity _)) => apply still_ensure
  | |- still _ (mbind _ _) => apply still_bind; [|intros ?]
  | |- still _ (runtimeErrorAt _ _ _) => apply still_at
  | |- still _ (set_sp _) => apply set_sp_still; lia
  | |- still _ (if ?b then _ else _) => destruct b eqn:?
  | |- still _ (let '(_, _) := ?x in _) => destruct x
  | |- still _ (match ?x with _ => _ end) => destruct x
  | |- _ => solve [auto with still]
  end.
Ltac still_walk := repeat still_step.

Section Walks.
Context {W : Type} {H : Host W} {S : Storage} {C : Cipher} {R : Rendering} {F : Fpu}.
Context (p : Program).

Lemma slot_get_still c i : still c (slot_get (W := W) i).
Proof. unfold slot_get. still_walk. Qed.
Lemma use_still c o : still c (use (W := W) o).
Proof. unfold use. still_walk. Qed.
#[local] Hint Resolve slot_get_still use_still : still.
Lemma popStored_still c : still c (popStored (W := W)).
Proof. unfold popStored. still_walk. Qed.
Lemma pop_still c : still c (pop (W := W)).
Proof. unfold pop. still_walk. Qed.
#[local] Hint Resolve popStored_still pop_still : still.
Lemma pushGlobal_still c i : still c (pushGlobal (W := W) i).
Proof. unfold pushGlobal. still_walk. Qed.
Lemma setGlobalStored_still c i : still c (setGlobalStored (W := W) i).
Proof.
  unfold setGlobalStored. apply still_bind; [still_walk|intros o]. apply still_other.
  intros s. unfold mbind, M_bind, get_vals. cbn. by destruct (_ || _).
Qed.
Lemma opened_slots_still c n from : still c (opened_slots (W := W) n from).
Proof. revert from. induction n as [|n IH]; intros from; cbn [opened_slots]; still_walk. Qed.
Lemma currentFrame_still c : still c (currentFrame (W := W)).
Proof. unfold currentFrame. still_walk. Qed.
Lemma registerFrameIntegrity_still c f : still c (registerFrameIntegrity (W := W) f).
Proof. unfold registerFrameIntegrity. still_walk. Qed.
#[local] Hint Resolve pushGlobal_still setGlobalStored_still opened_slots_still currentFrame_still
  registerFrameIntegrity_still : still.
Lemma readUint16_still c ins i : still c (readUint16 (W := W) p ins i).
Proof. unfold readUint16. still_walk. Qed.
Lemma readUint8_still c ins i : still c (readUint8 (W := W) p ins i).
Proof. unfold readUint8. still_walk. Qed.
Lemma ApplyTamperResponse_still c m : still c (ApplyTamperResponse (W := W) p m).
Proof. unfold ApplyTamperResponse. still_walk. Qed.
#[local] Hint Resolve readUint16_still readUint8_still ApplyTamperResponse_still : still.
Lemma verifyFrameControlFlow_still c st f : still c (verifyFrameControlFlow (W := W) p st f).
Proof. unfold verifyFrameControlFlow. still_walk. Qed.
Lemma verifyFrameIntegrity_still c st f : still c (verifyFrameIntegrity (W := W) p st f).
Proof. unfold verifyFrameIntegrity. still_walk. Qed.
#[local] Hint Resolve verifyFrameControlFlow_still verifyFrameIntegrity_still : still.
Lemma verify_frames_still c l : still c (verify_frames (W := W) p l).
Proof. induction l; cbn [verify_frames]; still_walk. Qed.
#[local] Hint Resolve verify_frames_still : still.
Lemma runIntegrityProbes_still c : still c (runIntegrityProbes (W := W) p).
Proof. unfold runIntegrityProbes, verifyActiveFramesIntegrity. still_walk. Qed.
Lemma constantAt_still c i : still c (constantAt (W := W) p i).
Proof. unfold constantAt. still_walk. Qed.
Lemma constantString_still c w i : still c (constantString (W := W) p w i).
Proof. unfold constantString. still_walk. Qed.
Lemma builtinTableIndex_still c i : still c (builtinTableIndex (W := W) p i).
Proof. unfold builtinTableIndex. cbv zeta. still_walk. Qed.
Lemma validate_still c st : still c (validateSecurityCheckOpcodes (W := W) p st).
Proof. unfold validateSecurityCheckOpcodes. still_walk. Qed.

(** Operations on values. *)
Lemma push_or_refuse_still c o : still c (push_or_refuse (W := W) o).
Proof. unfold push_or_refuse. still_walk. Qed.
#[local] Hint Resolve push_or_refuse_still : still.
Lemma binary_integer_still c op l r : still c (execBinaryIntegerOperation (W := W) op l r).
Proof. unfold execBinaryIntegerOperation. destruct (bitwiseOperatorSymbol op); [still_walk|]. destruct op; still_walk. Qed.
Lemma binary_float_still c op l r : still c (execBinaryFloatOperation (W := W) op l r).
Proof. unfold execBinaryFloatOperation. destruct op; still_walk. Qed.
Lemma binary_string_still c op l r : still c (execBinaryStringOperation (W := W) op l r).
Proof. unfold execBinaryStringOperation. destruct op; still_walk. Qed.
Lemma binary_bytes_still c op l r a b : still c (execBinaryBytesOperation (W := W) op l r a b).
Proof. unfold execBinaryBytesOperation. destruct op; still_walk. Qed.
#[local] Hint Resolve binary_integer_still binary_float_still binary_string_still binary_bytes_still : still.

(** The five ways an arithmetic instruction goes on with its operands. *)
Lemma binary_cases (P : M W unit -> Prop) op left right :
  (forall l r, P (execBinaryIntegerOperation op l r)) ->
  (forall l r, P (execBinaryStringOperation op l r)) ->
  (forall l r a b, P (execBinaryBytesOperation op l r a b)) ->
  P (if IsNumeric left && IsNumeric right
     then execBinaryFloatOperation op (getFloatVal left) (getFloatVal right)
     else
       f ← currentFrame;
       failf [bytes (Code.Name (definitions op)); text " at ip="; decimal (f_ip f);
              text ": unsupported types for binary operation: "; type_text left; text ", "; type_text right]) ->
  P (binary_dispatch op left right).
Proof.
  intros Hi Hs Hb Hd. destruct left; try exact Hd; destruct right; first [exact Hd|apply Hi|apply Hs|apply Hb].
Qed.

Lemma binary_still c op : still c (execBinaryOperation (W := W) op).
Proof.
  unfold execBinaryOperation, binary_checked. do 4 (apply still_bind; [auto with still|intros ?]).
  assert (Hd : still c (binary_dispatch (W := W) op a0 a)) by (apply binary_cases; still_walk).
  destruct (bitwiseOperatorSymbol op); still_walk.
Qed.
Lemma bang_still c : still c (execBangOperation (W := W)).
Proof. unfold execBangOperation. still_walk. Qed.
Lemma minus_still c : still c (execMinusOperation (W := W)).
Proof. unfold execMinusOperation. still_walk. Qed.
Lemma bitnot_still c : still c (execBitNotOperation (W := W)).
Proof. unfold execBitNotOperation. still_walk. Qed.
Lemma comparisonRefusal_still c op l r : still c (comparisonRefusal (W := W) op l r).
Proof. unfold comparisonRefusal. still_walk. Qed.
#[local] Hint Resolve comparisonRefusal_still : still.
Lemma equality_only_still c op l r b : still c (equality_only (W := W) op l r b).
Proof. unfold equality_only. still_walk. Qed.
#[local] Hint Resolve equality_only_still : still.
Lemma comparison_still c op : still c (execComparison (W := W) op).
Proof.
  unfold execComparison. do 4 (apply still_bind; [still_walk|intros ?]).
  unfold comparison_dispatch, execIntegerComparison, execFloatComparison, execBytesComparison, execErrorComparison,
    execEnumComparison, execStructComparison, rendered_comparison. cbv zeta.
  generalize (push (W := W)) (push_still (W := W) c). intros f Hf.
  destruct a0; still_walk.
Qed.
Lemma push_at_still {A} c (l : list A) i f : still c (push_at (W := W) l i f).
Proof. unfold push_at. still_walk. Qed.
#[local] Hint Resolve push_at_still : still.
Lemma index_still c l i : still c (execIndexOperation (W := W) l i).
Proof. unfold execIndexOperation, execHashIndex. apply still_bind; [auto with still|intros ?]. destruct l; still_walk. Qed.
Lemma set_index_still c o i v : still c (execSetIndex (W := W) o i v).
Proof. unfold execSetIndex. still_walk. Qed.
Lemma build_pairs_still c n l acc : (length l <= n)%nat -> still c (build_pairs (W := W) l acc).
Proof.
  revert l acc. induction n as [|n IH]; intros [|a [|b l]] acc Hl; cbn [build_pairs]; simpl in Hl; try lia; still_walk.
  apply IH. lia.
Qed.
Lemma push_all_still c l : still c (push_all (W := W) l).
Proof. induction l; cbn [push_all]; still_walk. Qed.
Lemma getField_still c o n : still c (getField (W := W) o n).
Proof. unfold getField. still_walk. Qed.
Lemma setField_still c o v n : still c (setField (W := W) o v n).
Proof. unfold setField. still_walk. Qed.
Lemma pop_fields_still c names acc : still c (pop_fields (W := W) names acc).
Proof. revert acc. induction names; intros acc; cbn [pop_fields]; still_walk. Qed.
#[local] Hint Resolve pop_fields_still : still.
Lemma makeStruct_still c t n : still c (makeStruct (W := W) p t n).
Proof. unfold makeStruct. cbv zeta. still_walk. Qed.
Lemma enumValue_still c t n : still c (enumValue (W := W) p t n).
Proof. unfold enumValue. still_walk. Qed.
Lemma box_slots_still c bp n l : still c (box_slots (W := W) bp n l).
Proof.
  induction l as [|i l IH]; cbn [box_slots]; [still_walk|]. apply still_get_vals. intros v Hv. cbv zeta.
  apply still_bind; [still_walk|]. intros _ s Hb Hc. apply IH; [done|lia].
Qed.
Lemma raw_slots_still c n from : still c (raw_slots (W := W) n from).
Proof. revert from. induction n as [|n IH]; intros from; cbn [raw_slots]; still_walk. Qed.
#[local] Hint Resolve index_still set_index_still push_all_still getField_still setField_still makeStruct_still
  enumValue_still box_slots_still raw_slots_still binary_still bang_still minus_still bitnot_still comparison_still
  constantAt_still constantString_still builtinTableIndex_still runIntegrityProbes_still validate_still : still.
Lemma pushClosure_still c i n : still c (pushClosure (W := W) p i n).
Proof.
  unfold pushClosure. apply still_bind; [auto with still|intros o]. destruct o; try (by auto with still).
  apply still_get_sp. intros m. destruct ((n <? 0) || (m - n <? 0)) eqn:E; [auto with still|]. breflect.
  apply still_bind; [auto with still|intros ?]. apply still_bind; [apply set_sp_still; lia|intros ?]. still_walk.
Qed.
Lemma pop_raw_still c : still c (pop_raw (W := W)).
Proof. unfold pop_raw. still_walk. Qed.
Lemma cell_get_still c l : still c (cell_get (W := W) l).
Proof. unfold cell_get. still_walk. Qed.
Lemma free_variable_still c op ip i : still c (free_variable (W := W) op ip i).
Proof. unfold free_variable. still_walk. Qed.
Lemma local_slot_still c op ip i : still c (local_slot (W := W) op ip i).
Proof. unfold local_slot. cbv zeta. still_walk. Qed.
Lemma gather_still c op ip w n : still c (gather (W := W) op ip w n).
Proof. unfold gather. still_walk. Qed.
Lemma drop_slots_still c n : 0 <= n -> still c (drop_slots (W := W) n).
Proof. intros Hn. unfold drop_slots. still_walk. Qed.
Lemma settle_still c : still c (settleProgramResult (W := W)).
Proof.
  unfold settleProgramResult. apply still_get_vals. intros v [Hv _ _]. destruct (_ && _); [|auto with still].
  apply set_sp_still. lia.
Qed.
Lemma short_at_still c ip op w n : still c (short_at (W := W) ip op w n).
Proof. unfold short_at. still_walk. Qed.
Lemma short_still c ip op w n : still c (short (W := W) ip op w n).
Proof. unfold short. still_walk. Qed.
#[local] Hint Resolve pushClosure_still pop_raw_still cell_get_still free_variable_still local_slot_still gather_still
  settle_still short_at_still short_still : still.

(** Moving, leaving and entering a frame. *)
Lemma set_ip_keeps c n ip : keeps false c n (set_ip (W := W) ip).
Proof.
  intros s [Hs Hb Hd] Hc Hn. unfold set_ip, mbind, M_bind, get_vals, set_vals. cbn -[bottom].
  destruct (frames (vals s)) as [|f rest] eqn:Ef; cbn -[bottom] in *; [lia|].
  apply Forall_cons in Hb as [Hf Hb].
  split_and!; [split; cbn; [done|by constructor|unfold zlen in *; cbn in *; lia]|unfold cap; cbn; lia| |lia|].
  - by rewrite !bottom_cons by lia.
  - split; cbn -[bottom bp_at]; [intros _|lia]. destruct (decide (n = length rest)) as [->|]; [by rewrite !bp_at_head|].
    by rewrite !bp_at_cons by lia.
Qed.

(** [pushStored] and [settleProgramResult], on the stack pointer. *)
Lemma pushStored_sp o (s : VM W) :
  bounded (vals s) -> succeeded (pushStored o s).1 -> sp (vals (pushStored o s).2) = sp (vals s) + 1.
Proof.
  intros Hb. unfold pushStored, get_sp, get_vals, mbind, M_bind, mret, M_ret.
  destruct (ensureStackCapacity _ s) as [r s1]. destruct r as [[]| | | | |]; try done.
  destruct (slot_set _ o s1) as [r2 s2]. by destruct r2 as [[]| | | | |].
Qed.

Lemma settle_sp (s : VM W) : frames (vals s) <> [] -> settleProgramResult s = (Ok tt, s).
Proof.
  intros Hf. unfold settleProgramResult, get_vals, mbind, M_bind. by rewrite bool_decide_false by done.
Qed.

Lemma return_tail_still c b o : b <= c -> still c (set_sp (W := W) (Z.max 0 (b - 1));; push o;; settleProgramResult).
Proof.
  intros Hb s Hs Hc. assert (0 <= cap (vals s)) by (unfold cap; apply zlen_nonneg).
  assert (still (Z.max 0 b) (set_sp (W := W) (Z.max 0 (b - 1));; push o;; settleProgramResult)) as Hx.
  { apply still_bind; [apply set_sp_still; lia|intros ?]. still_walk. }
  apply Hx; [done|lia].
Qed.

Lemma return_tail_sp b o (s : VM W) :
  bounded (vals s) -> b <= cap (vals s) -> frames (vals s) <> [] ->
  let r := (set_sp (Z.max 0 (b - 1));; push o;; settleProgramResult) s in
  succeeded r.1 -> sp (vals r.2) = Z.max 0 (b - 1) + 1.
Proof.
  intros Hs Hb Hf. cbv zeta. unfold mbind, M_bind. assert (0 <= cap (vals s)) by (unfold cap; apply zlen_nonneg).
  destruct (set_sp_still (W := W) (Z.max 0 b) (Z.max 0 (b - 1)) ltac:(lia) s Hs ltac:(lia)) as (Hs1 & _ & Hf1).
  destruct (set_sp (Z.max 0 (b - 1)) s) as [r1 s1] eqn:E1.
  assert (sp (vals s1) = Z.max 0 (b - 1) /\ r1 = Ok tt) as [Ep ->] by (by injection E1 as <- <-). cbn [snd] in Hs1, Hf1.
  destruct (push_still 0 o s1 Hs1 ltac:(unfold cap; apply zlen_nonneg)) as (_ & _ & Hf2).
  pose proof (pushStored_sp (encryptForStorage o) s1 Hs1) as Hp. fold (push (W := W) o) in Hp.
  destruct (push o s1) as [r2 s2]. cbn [fst snd] in *. destruct r2 as [u| | | | |]; try done.
  rewrite settle_sp by congruence. intros _. cbn [snd]. rewrite Hp by done. lia.
Qed.

Lemma return_with_tail o (s : VM W) f rest :
  frames (vals s) = f :: rest ->
  return_with o s = (set_sp (Z.max 0 (f_bp f - 1));; push o;; settleProgramResult)
                      (Mk (with_frames (vals s) rest) (probes s) (recorded s) (world s)).
Proof. intros Ef. unfold return_with, popFrame, get_vals, set_vals, mbind, M_bind. by rewrite Ef. Qed.

Lemma return_with_keeps c n o : keeps true c n (return_with (W := W) o).
Proof.
  intros s [Hs Hb Hd] Hc Hn. destruct (frames (vals s)) as [|f rest] eqn:Ef; [cbn in *; lia|].
  rewrite (return_with_tail o s f rest Ef). apply Forall_cons in Hb as [Hf Hb]. cbn [length] in Hn.
  set (s1 := Mk (with_frames (vals s) rest) (probes s) (recorded s) (world s)).
  assert (Hb1 : bounded (vals s1)) by (split; [done|done|unfold zlen in *; cbn in *; lia]).
  set (m := set_sp (W := W) (Z.max 0 (f_bp f - 1));; push o;; settleProgramResult). cbv zeta.
  destruct (return_tail_still (cap (vals s)) (f_bp f) o Hf s1 Hb1 ltac:(apply Z.le_refl)) as (Hb2 & Hc2 & Hf2).
  fold m in Hb2, Hc2, Hf2. rewrite Hf2. change (frames (vals s1)) with rest.
  split_and!; [done|done|by rewrite bottom_cons by lia|lia|]. split; [intros ?; by rewrite bp_at_cons|].
  intros <- Hne Hok. exists (f_bp f). split; [apply bp_at_head|].
  apply (return_tail_sp (f_bp f) o s1 Hb1 Hf); [|exact Hok]. cbn. by destruct rest.
Qed.

(** Entering a frame adds it, or fails with the frames as they were. *)
Definition enters {A} (c : Z) (m : M W A) : Prop := forall s,
  bounded (vals s) -> c <= cap (vals s) ->
  let v := vals (m s).2 in
  bounded v /\ cap (vals s) <= cap v /\
  (frames v = frames (vals s) \/ exists f, frames v = f :: frames (vals s)).

Lemma enters_keeps {A} c n (m : M W A) : enters c m -> keeps false c n m.
Proof.
  intros Hm s Hb Hc Hn. destruct (Hm s Hb Hc) as (? & ? & [E|[f E]]); cbv zeta; rewrite E;
    split_and!; try done; cbn -[bottom bp_at]; try lia.
  - by apply returned_same.
  - by rewrite bottom_cons by lia.
  - split; cbn -[bp_at]; [intros _; by rewrite bp_at_cons|lia].
Qed.

(** [pushFrame] refuses with the state as it was, or goes on to register the frame. *)
Lemma pushFrame_cases f (s : VM W) :
  (exists e, pushFrame f s = (Fail e, s)) \/
  zlen (frames (vals s)) < maxCallDepth /\
  pushFrame f s = registerFrameIntegrity (f_fn f)
    (Mk (with_frames (vals s) (f :: frames (vals s))) (probes s) (recorded s) (world s)).
Proof.
  unfold pushFrame, mbind, M_bind, get_vals, set_vals.
  destruct (Z.leb_spec maxCallDepth (zlen (frames (vals s)))); [left; by eexists|by right].
Qed.

Lemma pushFrame_enters {B} c f (k : unit -> M W B) :
  f_bp f <= c -> (forall u, still c (k u)) -> enters c (mbind k (pushFrame f)).
Proof.
  intros Hbp Hk s Hb0 Hc. pose proof Hb0 as [Hs Hb Hd].
  assert (Hx : still c (mbind k (registerFrameIntegrity (W := W) (f_fn f)))) by (still_walk; apply Hk).
  unfold mbind, M_bind in Hx |- *. cbv beta. destruct (pushFrame_cases f s) as [[e ->]|[Hlt ->]].
  { split_and!; [exact Hb0|apply Z.le_refl|by left]. }
  set (s1 := Mk _ _ _ _). destruct (Hx s1) as (Hb1 & Hc1 & Hf1).
  - split; [exact Hs|constructor; [change (f_bp f <= cap (vals s)); lia|exact Hb]|].
    unfold zlen in *. cbn. lia.
  - done.
  - split_and!; [exact Hb1|exact Hc1|]. right. exists f. cbv zeta. by rewrite Hf1.
Qed.

Lemma enters_get_sp {A} c (k : Z -> M W A) :
  (forall n, enters (Z.max c n) (k n)) -> enters c (mbind k get_sp).
Proof. intros Hk s Hb Hc. apply (Hk (sp (vals s)) s Hb). destruct Hb. lia. Qed.

Lemma callClosure_enters c callee numArgs : 0 <= numArgs -> enters c (callClosure (W := W) callee numArgs).
Proof.
  intros Hn. unfold callClosure. cbv zeta. destruct (_ =? _).
  2: { intros s Hb Hc. split_and!; [exact Hb|apply Z.le_refl|by left]. }
  apply enters_get_sp. intros m. apply pushFrame_enters; [cbn; lia|]. intros _.
  apply still_ensure. apply still_bind; [apply set_sp_still; lia|intros ?]. auto with still.
Qed.

(* ------------------------------------------------------------------ *)
(** ** Calling back into the program *)

(** [above c n m]: started with the outermost [n] frames in place, [m] keeps
    the bounds and those frames. *)
Definition above {A} (c : Z) (n : nat) (m : M W A) : Prop := forall s,
  bounded (vals s) -> c <= cap (vals s) -> (n <= length (frames (vals s)))%nat ->
  let v := vals (m s).2 in
  bounded v /\ cap (vals s) <= cap v /\ bottom n (frames v) = bottom n (frames (vals s)) /\
  (n <= length (frames v))%nat.

Lemma above_bind {A B} c n (m : M W A) (k : A -> M W B) :
  above c n m -> (forall a, above c n (k a)) -> above c n (mbind k m).
Proof.
  intros Hm Hk s Hb Hc Hn. unfold mbind, M_bind. specialize (Hm s Hb Hc Hn).
  destruct (m s) as [r s1]. destruct Hm as (Hb1 & Hc1 & Hf1 & Hn1). destruct r as [a| | | | |]; try done. cbn in *.
  destruct (Hk a s1 Hb1 ltac:(lia) Hn1) as (Hb2 & Hc2 & Hf2 & Hn2). split_and!; [done|lia|congruence|done].
Qed.

Lemma still_above {A} c n (m : M W A) : still c m -> above c n m.
Proof. intros Hm s Hb Hc Hn. destruct (Hm s Hb Hc) as (Hb1 & Hc1 & Hf1). cbv zeta. by rewrite Hf1. Qed.

Lemma enters_above {A} c n (m : M W A) : enters c m -> above c n m.
Proof.
  intros Hm s Hb Hc Hn. destruct (Hm s Hb Hc) as (? & ? & [E|[f E]]); cbv zeta; rewrite E;
    split_and!; try done; cbn -[bottom]; try lia.
  by rewrite bottom_cons by lia.
Qed.

Lemma contain_above {A} c n (m : M W A) : above c n m -> above c n (contain p m).
Proof. intros Hm s Hb Hc Hn. unfold contain. specialize (Hm s Hb Hc Hn). by destruct (m s) as [[] ?]. Qed.

(** [above] at the frames a run starts with puts them back on a failure. *)
Lemma restoring_above {A} c (m : M W A) s :
  bounded (vals s) -> c <= cap (vals s) -> above c (length (frames (vals s))) m ->
  let '(r, s') := restoring m s in
  bounded (vals s') /\ cap (vals s) <= cap (vals s') /\
  bottom (length (frames (vals s))) (frames (vals s')) = frames (vals s) /\
  (length (frames (vals s)) <= length (frames (vals s')))%nat /\
  (forall e, r = Fail e -> frames (vals s') = frames (vals s) /\ sp (vals s') = sp (vals s)).
Proof.
  intros Hb Hc Hm. unfold restoring. specialize (Hm s Hb Hc (le_n _)).
  destruct (m s) as [r s1]. cbn [snd] in Hm. rewrite bottom_all in Hm. destruct Hm as ([Hs1 Hf1 Hd1] & Hc1 & E1 & Hl1).
  assert (forall s' : VM W, bounded (vals s') /\ cap (vals s) <= cap (vals s') /\ frames (vals s') = frames (vals s) ->
    bounded (vals s') /\ cap (vals s) <= cap (vals s') /\
    bottom (length (frames (vals s))) (frames (vals s')) = frames (vals s) /\
    (length (frames (vals s)) <= length (frames (vals s')))%nat) as Hsame.
  { intros s' (? & ? & ->). split_and!; [done|done|apply bottom_all|done]. }
  destruct r; try (split_and!; [by split|done|done|done|done]).
  unfold bottom in E1. cbv zeta. rewrite E1.
  destruct (Hsame (Mk (with_frames (with_stack (vals s1) (stack (vals s1)) (sp (vals s))) (frames (vals s)))
    (probes s1) (recorded s1) (world s1))) as (? & ? & ? & ?); [|by split_and!].
  destruct Hb as [Hs Hf Hd]. split_and!; [split|exact Hc1|done].
  - change (sp (vals s) <= cap (vals s1)). lia.
  - change (Forall (fun f => f_bp f <= cap (vals s1)) (frames (vals s))). eapply Forall_impl; [exact Hf|]. cbn. lia.
  - exact Hd.
Qed.

Lemma above_get_vals {A} c n (k : Values -> M W A) :
  (forall v, above c n (k v)) -> above c n (mbind k get_vals).
Proof. intros Hk s. apply (Hk (vals s) s). Qed.

(** The body of a call back, over any loop that keeps the frames below its base. *)
Definition sync_body (loop : nat -> M W unit) (c : callee) (args : list Object) (base : nat) (floor : Z) : M W Object :=
  push (Closure (c_fn c) (c_free c) (c_id c));;
  push_all args;;
  callClosure c (zlen args);;
  contain p (loop base);;
  n ← get_sp;
  if n <=? floor then mret Null else pop.

Lemma sync_body_above loop c callee args n floor :
  above c n (loop n) -> above c n (sync_body loop callee args n floor).
Proof.
  intros Hl. unfold sync_body. do 2 (apply above_bind; [apply still_above; auto with still|intros _]).
  apply above_bind; [apply enters_above, callClosure_enters, zlen_nonneg|intros _].
  apply above_bind; [by apply contain_above|intros _]. apply still_above. still_walk.
Qed.

Lemma CallClosureSync_body loop callee args (s : VM W) :
  CallClosureSync p loop callee args s =
  restoring (sync_body loop callee args (length (frames (vals s))) (sp (vals s))) s.
Proof. done. Qed.

Lemma CallClosureSync_keeps loop c n callee args :
  (forall m, above c m (loop m)) -> keeps false c n (CallClosureSync p loop callee args).
Proof.
  intros Hl s Hb Hc Hn. rewrite CallClosureSync_body.
  pose proof (restoring_above c _ s Hb Hc (sync_body_above loop c callee args _ (sp (vals s)) (Hl _))) as Hr.
  destruct (restoring _ s) as [r s1]. destruct Hr as (Hb1 & Hc1 & E1 & Hl1 & _). cbn [snd].
  split_and!; [done|done| |lia|].
  - apply (bottom_bottom n (length (frames (vals s)))); [lia|done|done|]. by rewrite E1, bottom_all.
  - split; [intros _|lia]. apply (bp_at_bottom n (length (frames (vals s)))); [lia|done|done|]. by rewrite E1, bottom_all.
Qed.

(** Results of a sequence come from its last part. *)
Lemma bind_ok {A B} (m : M W A) (k : A -> M W B) s b s' :
  mbind k m s = (Ok b, s') -> exists a s1, m s = (Ok a, s1) /\ k a s1 = (Ok b, s').
Proof. unfold mbind, M_bind. destruct (m s) as [[] ?]; try done. eauto. Qed.

Lemma at_ok {A} ip op (m : M W A) s a s' : runtimeErrorAt ip op m s = (Ok a, s') -> m s = (Ok a, s').
Proof. unfold runtimeErrorAt. by destruct (m s) as [[] ?]. Qed.

Lemma readUint16_nonneg ins i (s : VM W) a s' : readUint16 p ins i s = (Ok a, s') -> 0 <= a.
Proof.
  unfold readUint16. destruct (_ || _); [done|]. destruct (XORAt _ _ _); [|done]. intros [= <- _].
  unfold u16. apply Z.mod_pos_bound. lia.
Qed.

Lemma readUint8_nonneg ins i (s : VM W) a s' : readUint8 p ins i s = (Ok a, s') -> 0 <= a.
Proof.
  unfold readUint8. destruct (_ || _); [done|]. destruct (XOROneAt _ _ _); [|done]. intros [= <- _].
  unfold u8. apply Z.mod_pos_bound. lia.
Qed.

Lemma operand16_at_nonneg op ip ins (s : VM W) a s' : operand16_at p op ip ins s = (Ok a, s') -> 0 <= a.
Proof.
  unfold operand16_at. intros (u & s1 & _ & Hx)%bind_ok. apply bind_ok in Hx as (x & s2 & Hr%at_ok & Hx).
  apply bind_ok in Hx as (u' & s3 & _ & [= <- _]). by eapply readUint16_nonneg.
Qed.
Lemma operand16_nonneg op ip ins (s : VM W) a s' : operand16 p op ip ins s = (Ok a, s') -> 0 <= a.
Proof.
  unfold operand16. intros (u & s1 & _ & Hx)%bind_ok. apply bind_ok in Hx as (x & s2 & Hr & Hx).
  apply bind_ok in Hx as (u' & s3 & _ & [= <- _]). by eapply readUint16_nonneg.
Qed.

Lemma operand16_at_keeps c n op ip ins : keeps false c n (operand16_at (W := W) p op ip ins).
Proof.
  unfold operand16_at. do 2 (apply keeps_bind; [apply still_keeps; still_walk|intros ?]).
  apply keeps_bind; [apply set_ip_keeps|intros ?]. apply still_keeps. still_walk.
Qed.
Lemma operand16_keeps c n op ip ins : keeps false c n (operand16 (W := W) p op ip ins).
Proof.
  unfold operand16. do 2 (apply keeps_bind; [apply still_keeps; still_walk|intros ?]).
  apply keeps_bind; [apply set_ip_keeps|intros ?]. apply still_keeps. still_walk.
Qed.
Lemma operand8_keeps c n op ip ins : keeps false c n (operand8 (W := W) p op ip ins).
Proof.
  unfold operand8. do 2 (apply keeps_bind; [apply still_keeps; still_walk|intros ?]).
  apply keeps_bind; [apply set_ip_keeps|intros ?]. apply still_keeps. still_walk.
Qed.
End Walks.

#[export] Hint Resolve slot_get_still use_still popStored_still pop_still pushGlobal_still setGlobalStored_still
  opened_slots_still currentFrame_still readUint16_still readUint8_still constantAt_still constantString_still
  builtinTableIndex_still runIntegrityProbes_still validate_still index_still set_index_still push_all_still
  getField_still setField_still makeStruct_still enumValue_still raw_slots_still binary_still bang_still minus_still
  bitnot_still comparison_still pushClosure_still pop_raw_still cell_get_still free_variable_still local_slot_still
  gather_still settle_still short_at_still short_still : still.
#[export] Hint Extern 1 (still _ (drop_slots _)) => apply drop_slots_still; lia : still.
#[export] Hint Extern 1 (still _ (build_pairs _ _)) => apply (build_pairs_still _ _ _ _ (le_n _)) : still.

(** Walk an instruction: what leaves the frames alone is [still]; an operand is
    not negative. *)
Ltac keeps_step :=
  lazymatch goal with
  | |- keeps _ _ _ (runtimeErrorAt _ _ _) => apply keeps_at
  | |- keeps _ _ _ (mbind _ get_sp) => apply keeps_get_sp; intros ?
  | |- keeps _ _ _ (mbind _ get_vals) => apply keeps_get_vals; intros ? ?
  | |- keeps _ _ _ (mbind _ (operand16_at _ _ _ _)) =>
      apply (keeps_bind_post (fun n => 0 <= n));
        [apply operand16_at_keeps|intros ? ? ?; apply operand16_at_nonneg|intros ? ?]
  | |- keeps _ _ _ (mbind _ (operand16 _ _ _ _)) =>
      apply (keeps_bind_post (fun n => 0 <= n)); [apply operand16_keeps|intros ? ? ?; apply operand16_nonneg|intros ? ?]
  | |- keeps _ _ _ (mbind _ (operand8 _ _ _ _)) => apply keeps_bind; [apply operand8_keeps|intros ?]
  | |- keeps _ _ _ (mbind _ (runtimeErrorAt _ _ (readUint8 _ _ _))) =>
      apply (keeps_bind_post (fun n => 0 <= n));
        [apply still_keeps; still_walk|intros ? ? ? ?%at_ok; by eapply readUint8_nonneg|intros ? ?]
  | |- keeps _ _ _ (mbind _ (set_ip _)) => apply keeps_bind; [apply set_ip_keeps|intros ?]
  | |- keeps true _ _ (set_ip _) => apply keeps_weaken, set_ip_keeps
  | |- keeps false _ _ (set_ip _) => apply set_ip_keeps
  | |- keeps true _ _ (return_with _) => apply return_with_keeps
  | |- keeps _ _ _ (mbind _ _) => apply keeps_bind; [apply still_keeps; solve [still_walk]|intros ?]
  | |- keeps _ _ _ (if ?b then _ else _) => destruct b eqn:?
  | |- keeps _ _ _ (match ?x with _ => _ end) => destruct x
  | |- keeps _ _ _ _ => apply still_keeps; solve [still_walk]
  end.
Ltac keeps_walk := repeat keeps_step.

Section Dispatch.
Context {W : Type} {H : Host W} {S : Storage} {C : Cipher} {R : Rendering} {F : Fpu}.
Context (p : Program) (c : Z) (n : nat) (sync : callee -> list Object -> M W Object).
Hypothesis sync_keeps : forall callee args, keeps false c n (sync callee args).

Lemma callElement_keeps callee el i : keeps false c n (callElement sync callee el i).
Proof using All. unfold callElement. destruct (_ =? _); apply sync_keeps. Qed.

Lemma call_each_keeps callee l i : keeps false c n (call_each sync callee l i).
Proof using All.
  revert i. induction l as [|el l IH]; intros i; cbn [call_each]; [keeps_walk|].
  apply keeps_bind; [apply callElement_keeps|intros ?]. apply keeps_bind; [apply IH|intros ?]. keeps_walk.
Qed.

Lemma reduce_loop_keeps callee acc l : keeps false c n (reduce_loop sync callee acc l).
Proof using All.
  revert acc. induction l as [|el l IH]; intros acc; cbn [reduce_loop]; [keeps_walk|].
  apply keeps_bind; [apply sync_keeps|intros ?]. apply IH.
Qed.

Lemma arrayAndCallback_still op args : still c (arrayAndCallback (W := W) op args).
Proof using Type. unfold arrayAndCallback. still_walk. Qed.

Lemma native_keeps kind args : keeps false c n (applyExecutorNative sync kind args).
Proof using All.
  destruct kind; cbn [applyExecutorNative]; unfold hoMap, hoFilter, hoEach.
  3: { unfold hoReduce. destruct args as [|a [|f [|acc []]]]; try (by keeps_walk).
       destruct a; try (by keeps_walk). destruct f; try (by keeps_walk).
       cbv zeta. destruct (_ =? _); [apply reduce_loop_keeps|keeps_walk]. }
  all: (apply keeps_bind; [apply still_keeps, arrayAndCallback_still|intros [e|[l callee]]]; [keeps_walk|]).
  all: apply keeps_bind; [apply call_each_keeps|intros ?]; keeps_walk.
Qed.

Lemma keeps_mono {A} e c' (m : M W A) : keeps e c n m -> c <= c' -> keeps e c' n m.
Proof using Type. intros Hm Hc s Hb Hs Hn. apply Hm; [done|lia|done]. Qed.

Lemma callBuiltin_keeps addr numArgs : 0 <= numArgs -> keeps false c n (callBuiltin p sync addr numArgs).
Proof using All.
  intros Hn. unfold callBuiltin. do 2 keeps_step. apply keeps_bind.
  { destruct (ExecutorNativeKind addr); [eapply keeps_mono; [apply native_keeps|lia]|keeps_walk]. }
  intros r. keeps_walk.
Qed.

Lemma execCall_keeps numArgs : keeps false c n (execCall p sync numArgs).
Proof using All.
  unfold execCall. keeps_step. cbv zeta.
  destruct ((numArgs <? 0) || _ || _) eqn:Hg; [keeps_walk|]. breflect.
  destruct (stack _ !!! _); try (by keeps_walk).
  - eapply keeps_mono; [apply enters_keeps, callClosure_enters; lia|lia].
  - eapply keeps_mono; [apply callBuiltin_keeps; lia|lia].
Qed.
Lemma iter_keeps ip ins : keeps false c n (iterInit (W := W) ip) /\ keeps false c n (iterNext (W := W) p ip ins).
Proof using All.
  split; [unfold iterInit; keeps_walk|]. unfold iterNext. cbv zeta. keeps_walk.
Qed.

(** Every instruction stays within the bounds and above the frames it was
    started over; only a return may leave the last frame above them. *)
Lemma exec_op_keeps op ip ins : keeps true c n (exec_op p sync op ip ins).
Proof using All.
  destruct op; cbn [exec_op]; cbv zeta; unfold on_ChkDbg, on_ChkSnd, on_Constant, on_Array, on_Concat, on_Hash,
    on_Jump, on_JumpFalse, on_MatchFail, on_SetGlobal, on_GetGlobal, on_SetLocal, on_GetLocal, on_GetBuiltin,
    on_GetFree, on_SetFree, on_LocalCell, on_CaptureFree, on_Index, on_SetIndex, on_Closure, on_CurrentClosure,
    on_Call, on_ReturnValue, on_MultiValue, on_Dup, on_Destructure, on_MakeStruct, on_GetField, on_SetField,
    on_EnumValue; try (by keeps_walk).
  - do 3 keeps_step. apply keeps_weaken, keeps_at, execCall_keeps.
  - apply keeps_weaken, iter_keeps, [].
  - apply keeps_weaken, iter_keeps.
Qed.

Lemma step_keeps : keeps true c n (step p sync).
Proof using All.
  unfold step. do 5 keeps_step. cbv zeta. destruct (opcode_at _ _ _) as [op|]; [|keeps_walk].
  destruct (opcode_of_byte op); [apply exec_op_keeps|]. unfold unknown_opcode. keeps_walk.
Qed.
End Dispatch.

(* ------------------------------------------------------------------ *)
(** ** Runs *)

Section Runs.
Context {W : Type} {H : Host W} {S : Storage} {C : Cipher} {R : Rendering} {F : Fpu}.
Context (p : Program).

Lemma run_stop fuel n (s : VM W) : length (frames (vals s)) = n -> (run p fuel n s).2 = s.
Proof.
  intros <-. destruct fuel; cbn [run]; [done|]. unfold mbind, M_bind, get_vals, running.
  rewrite Nat.ltb_irrefl. by destruct (frames (vals s)).
Qed.

Lemma run_one fuel n (s : VM W) :
  (run p (Datatypes.S fuel) n s).2 = s \/
  (n < length (frames (vals s)))%nat /\
  run p (Datatypes.S fuel) n s = mbind (fun _ => run p fuel n) (step p (CallClosureSync p (run p fuel))) s.
Proof.
  assert (run p (Datatypes.S fuel) n s = (if running n (vals s)
    then mbind (fun _ => run p fuel n) (step p (CallClosureSync p (run p fuel))) else mret tt) s) as -> by done.
  destruct (running n (vals s)) eqn:Er; [right|by left]. split; [|done].
  unfold running in Er. destruct (frames (vals s)); [done|]. apply andb_prop in Er as [Er _].
  by apply Nat.ltb_lt.
Qed.

(** A run keeps the bounds and the frames below its base, and a run that comes
    back to its base with success leaves the stack pointer just above the slot
    of the closure it ran. *)
Lemma run_spec fuel n (s : VM W) :
  bounded (vals s) -> (n <= length (frames (vals s)))%nat ->
  let r := run p fuel n s in
  let v := vals r.2 in
  (bounded v /\ cap (vals s) <= cap v /\ bottom n (frames v) = bottom n (frames (vals s)) /\
   (n <= length (frames v))%nat) /\
  ((n < length (frames (vals s)))%nat -> returned n (frames (vals s)) (frames v) (succeeded r.1) (sp v)).
Proof.
  revert n s. induction fuel as [|fuel IH]; intros n s Hb Hn.
  { split_and!; [done|apply Z.le_refl|done|done|intros; by apply returned_same]. }
  destruct (run_one fuel n s) as [E|[Hlt E]]; cbv zeta; [rewrite E|rewrite E].
  { split_and!; [done|apply Z.le_refl|done|done|intros; by apply returned_same]. }
  assert (Hs : keeps true 0 n (step p (CallClosureSync p (run p fuel)))).
  { apply step_keeps. intros callee args. apply CallClosureSync_keeps. intros m s' Hb' _ Hn'. by apply IH. }
  specialize (Hs s Hb ltac:(unfold cap; apply zlen_nonneg) Hlt). unfold mbind, M_bind.
  destruct (step _ _ s) as [r1 s1]. cbn [fst snd] in Hs. destruct Hs as (Hb1 & Hc1 & E1 & Hn1 & Hr1).
  destruct r1 as [[]| | | | |].
  2-6: split_and!; [done|done|done|cbn; lia|intros _; exact Hr1].
  destruct (IH n s1 Hb1 ltac:(lia)) as ((Hb2 & Hc2 & E2 & Hn2) & Hr2).
  split; [split_and!; [done|lia|congruence|done]|intros _].
  destruct (decide (n < length (frames (vals s1)))%nat) as [Hl|Hl].
  - eapply returned_trans; [exact Hl| |by apply Hr2]. by apply Hr1.
  - rewrite run_stop by lia. exact (returned_weaken _ _ _ True _ _ (fun _ => I) Hr1).
Qed.

Lemma push_sp o (s : VM W) :
  bounded (vals s) -> succeeded (push o s).1 -> sp (vals (push o s).2) = sp (vals s) + 1.
Proof. apply pushStored_sp. Qed.

Lemma push_all_sp l (s : VM W) :
  bounded (vals s) -> succeeded (push_all l s).1 -> sp (vals (push_all l s).2) = sp (vals s) + zlen l.
Proof.
  revert s. induction l as [|o l IH]; intros s Hb; cbn [push_all]; [unfold zlen; cbn; lia|].
  unfold mbind, M_bind. destruct (push_still 0 o s Hb ltac:(unfold cap; apply zlen_nonneg)) as (Hb1 & _ & _).
  pose proof (push_sp o s Hb) as Hp. destruct (push o s) as [r1 s1]. cbn [fst snd] in *.
  destruct r1 as [[]| | | | |]; try done. intros Hok. rewrite IH by done. rewrite Hp by done.
  unfold zlen. cbn [length]. lia.
Qed.

(** The frame a successful call enters. *)
Lemma callClosure_frame callee numArgs (s : VM W) :
  bounded (vals s) -> 0 <= numArgs -> succeeded (callClosure callee numArgs s).1 ->
  exists f, frames (vals (callClosure callee numArgs s).2) = f :: frames (vals s) /\
            f_bp f = sp (vals s) - numArgs.
Proof.
  intros Hb Hn. unfold callClosure. cbv zeta. destruct (_ =? _); [|done].
  unfold get_sp. set (k := fun bp => _ ← ensureStackCapacity (W := W) (bp + NumLocals (fn_obj (c_fn callee)));
    set_sp (bp + NumLocals (fn_obj (c_fn callee)));;
    box_slots bp (NumParams (fn_obj (c_fn callee))) (fn_CapturedLocals (fn_obj (c_fn callee)))).
  set (f := AFrame (c_fn callee) (c_free callee) (c_id callee) (-1) (sp (vals s) - numArgs)).
  change (succeeded (mbind (fun _ => k (sp (vals s) - numArgs)) (pushFrame f) s).1 ->
    exists g, frames (vals (mbind (fun _ => k (sp (vals s) - numArgs)) (pushFrame f) s).2) = g :: frames (vals s) /\
              f_bp g = sp (vals s) - numArgs).
  assert (Hx : still (sp (vals s)) (mbind (fun _ => k (sp (vals s) - numArgs)) (registerFrameIntegrity (W := W) (f_fn f)))).
  { apply still_bind; [apply registerFrameIntegrity_still|intros _]. apply still_ensure.
    apply still_bind; [apply set_sp_still; lia|intros _]. apply box_slots_still. }
  clearbody k. unfold mbind, M_bind in Hx |- *. destruct (pushFrame_cases f s) as [[e ->]|[Hlt ->]]; [done|].
  set (s1 := Mk _ _ _ _). intros _. exists f. split; [|done].
  destruct Hb as [Hs Hf Hd]. destruct (Hx s1) as (_ & _ & E); [|exact Hs|exact E].
  split; [exact Hs|constructor; [change (sp (vals s) - numArgs <= cap (vals s)); lia|exact Hf]|].
  unfold zlen in *. cbn. lia.
Qed.

Lemma pop_sp (s : VM W) : succeeded (pop s).1 -> sp (vals (pop s).2) = sp (vals s) - 1.
Proof.
  unfold pop, get_sp, get_vals, mbind, M_bind, mret, M_ret. destruct (_ <=? 0); [done|].
  unfold slot_get, get_vals, mbind, M_bind. destruct (_ <? 0); [done|]. destruct (stack (vals s) !! _); [|done].
  unfold use. cbn. by destruct (decryptForUse _).
Qed.

Lemma cap_pos (v : Values) : 0 <= cap v.
Proof. unfold cap. apply zlen_nonneg. Qed.

(** Pushing the closure and its arguments and entering its frame. *)
Lemma sync_entry callee args (s : VM W) :
  bounded (vals s) ->
  let r := (push (Closure (c_fn callee) (c_free callee) (c_id callee));; push_all args;; callClosure callee (zlen args)) s in
  bounded (vals r.2) /\
  (succeeded r.1 -> exists f, frames (vals r.2) = f :: frames (vals s) /\ f_bp f = sp (vals s) + 1).
Proof.
  intros Hb. unfold mbind, M_bind. set (o := Closure _ _ _).
  destruct (push_still 0 o s Hb (cap_pos _)) as (Hb1 & _ & Hf1). pose proof (push_sp o s Hb) as Hp1.
  destruct (push o s) as [[[]| | | | |] s1]; cbn [fst snd] in *; try (split; done).
  destruct (push_all_still 0 args s1 Hb1 (cap_pos _)) as (Hb2 & _ & Hf2). pose proof (push_all_sp args s1 Hb1) as Hp2.
  destruct (push_all args s1) as [[[]| | | | |] s2]; cbn [fst snd] in *; try (split; done).
  destruct (callClosure_enters 0 callee (zlen args) (zlen_nonneg _) s2 Hb2 (cap_pos _)) as (Hb3 & _ & _).
  split; [done|]. intros Hok. destruct (callClosure_frame callee (zlen args) s2 Hb2 (zlen_nonneg _) Hok) as (f & E & Ebp).
  exists f. split; [by rewrite E, Hf2, Hf1|]. rewrite Ebp, Hp2, Hp1 by done. lia.
Qed.

(** A call back that succeeds and has left its own frame. *)
Lemma sync_body_sp fuel callee args (s : VM W) :
  bounded (vals s) -> 0 <= sp (vals s) -> frames (vals s) <> [] ->
  let r := sync_body p (run p fuel) callee args (length (frames (vals s))) (sp (vals s)) s in
  succeeded r.1 -> length (frames (vals r.2)) = length (frames (vals s)) -> sp (vals r.2) = sp (vals s).
Proof.
  intros Hb Hsp Hne. set (n := length (frames (vals s))).
  set (entry := (push (Closure (c_fn callee) (c_free callee) (c_id callee));; push_all args;;
    callClosure callee (zlen args)) : M W unit).
  assert (sync_body p (run p fuel) callee args n (sp (vals s)) s =
    mbind (fun _ => contain p (run p fuel n);; m ← get_sp; if m <=? sp (vals s) then mret Null else pop) entry s) as ->.
  { unfold sync_body, entry, mbind, M_bind. destruct (push _ s) as [[] ?]; try done. by destruct (push_all _ _) as [[] ?]. }
  pose proof (sync_entry callee args s Hb) as He. fold entry in He. clearbody entry. unfold mbind, M_bind.
  destruct (entry s) as [[[]| | | | |] s1]; cbn [fst snd] in He; try done.
  destruct He as (Hb1 & (f & Ef & Ebp)); [done|]. cbv zeta.
  destruct (run_spec fuel n s1 Hb1) as ((Hb2 & _ & _ & Hn2) & Hr); [rewrite Ef; cbn; lia|].
  specialize (Hr ltac:(rewrite Ef; cbn; lia)).
  unfold mbind, M_bind, contain, get_sp, get_vals, mret, M_ret.
  destruct (run p fuel n s1) as [[[]| | | | |] s2]; cbn [fst snd] in *; try done.
  assert (Hx : length (frames (vals s2)) = n -> sp (vals s2) = sp (vals s) + 1).
  { intros E. destruct (proj2 Hr E) as (b & Hb' & ->); [unfold n; by destruct (frames (vals s))|done|].
    rewrite Ef in Hb'. unfold n in Hb'. rewrite bp_at_head in Hb'. injection Hb' as <-. lia. }
  unfold mbind, M_bind. destruct (Z.leb_spec (sp (vals s2)) (sp (vals s))); cbn [fst snd].
  { intros _ E. specialize (Hx E). lia. }
  intros Hok E. destruct (pop_still 0 s2 Hb2 (cap_pos _)) as (_ & _ & Hf3). rewrite Hf3 in E. rewrite pop_sp by done.
  rewrite Hx by done. lia.
Qed.

Lemma New_bounded globals (w : W) : bounded (vals (New p globals w)).
Proof.
  unfold New. destruct (nextSweepInterval _). split; unfold cap, zlen; cbn -[replicate].
  - lia.
  - repeat constructor. cbn. lia.
  - unfold maxCallDepth. lia.
Qed.

(** However many instructions have run, and however the run ended. *)
Lemma Run_bounded fuel globals (w : W) :
  let v := vals (Run p fuel (New p globals w)).2 in
  sp v <= zlen (stack v) /\ Forall (fun f => f_bp f <= zlen (stack v)) (frames v) /\
  zlen (frames v) <= maxCallDepth.
Proof.
  cbv zeta. assert (Hr : above 0 0 (Run (W := W) p fuel)).
  { unfold Run, execLoop. apply above_bind; [apply still_above; auto with still|intros _].
    apply above_bind; [apply contain_above|intros _; apply still_above; auto with still].
    intros s Hb _ Hn. by apply run_spec. }
  destruct (Hr (New p globals w) (New_bounded globals w) (cap_pos _) ltac:(lia)) as ([Hs Hf Hd] & _). by split_and!.
Qed.

(** C16: A builtin that calls a function of the program ([CallClosureSync]: the
    callback of [map], [filter], [reduce], [each]) leaves its caller as it
    found it, whatever the function does and however deep it calls: every
    frame that was active is still there, unchanged.  If the call fails, the
    frames and the stack pointer are exactly the caller's; if it succeeds and
    its own frames have returned, the stack pointer is the caller's too. *)
Theorem callback_leaves_the_caller fuel callee args (s : VM W) :
  bounded (vals s) -> 0 <= sp (vals s) -> frames (vals s) <> [] ->
  let '(r, s') := CallClosureSync p (run p fuel) callee args s in
  bounded (vals s') /\
  bottom (length (frames (vals s))) (frames (vals s')) = frames (vals s) /\
  match r with
  | Fail _ => frames (vals s') = frames (vals s) /\ sp (vals s') = sp (vals s)
  | Ok _ => length (frames (vals s')) = length (frames (vals s)) ->
            frames (vals s') = frames (vals s) /\ sp (vals s') = sp (vals s)
  | _ => True
  end.
Proof.
  intros Hb Hsp Hne. rewrite CallClosureSync_body. set (m := sync_body _ _ _ _ _ _).
  assert (Hm : above 0 (length (frames (vals s))) m).
  { apply sync_body_above. intros s' Hb' _ Hn'. by apply run_spec. }
  pose proof (restoring_above 0 m s Hb (cap_pos _) Hm) as Hr.
  pose proof (sync_body_sp fuel callee args s Hb Hsp Hne) as Hok. fold m in Hok. unfold restoring in *.
  destruct (m s) as [[] s1]; cbn [fst snd] in *; destruct Hr as (Hb1 & _ & E & _ & Hfail); split_and!; try done.
  - intros El. split; [|by apply Hok]. rewrite <- E. rewrite <- El at 1. by rewrite bottom_all.
  - by apply (Hfail e).
Qed.
End Runs.

Import Sample.

Definition double : callee :=
  match artifact.2 with CompiledFn f :: _ => Callee f [] None | _ => Callee (main_fn program) [] None end.

Lemma callback_leaves_the_caller_witness :
  let s := New program [] tt in
  let '(r, s') := CallClosureSync program (run program 40) double [Integer 21] s in
  r = Ok (Integer 42) /\ frames (vals s') = frames (vals s) /\ sp (vals s') = 0.
Proof.
  intros s.
  pose proof (callback_leaves_the_caller program 40 double [Integer 21] s
    (New_bounded program [] tt) ltac:(vm_compute; discriminate) ltac:(discriminate)) as Hx.
  assert (Hr : let r := CallClosureSync program (run program 40) double [Integer 21] s in
    (r.1, length (frames (vals r.2))) = (Ok (Integer 42), 1%nat)) by (vm_compute; reflexivity).
  destruct (CallClosureSync _ _ _ _ s) as [r s']. cbv zeta in Hr. cbn [fst snd] in Hr. injection Hr as -> Hl.
  split; [reflexivity|exact (proj2 (proj2 Hx) Hl)].
Defined.
