(* ===== verification/VmFloor.v ===== *)
(** * What every instruction stands on

    The lower half of the machine's bounds.  The stack grows on demand
    ([VmInvariant.v] has the upper half); below it there is nothing, and what keeps
    the stack pointer from going there is the guard of every instruction that takes
    values off the stack.  Between any two instructions of any program, hostile ones
    included, every frame's base is on the stack, and so is the stack pointer,
    unless the function being run declares a negative number of locals. *)

From stdpp Require Import base list list_numbers numbers gmap strings.
From Stdlib Require Import ZArith Lia.
From S2P Require Import Prelude Code Stream LineTable Polymorphic Link Lexer Index Float64 Sha256 Object.
From S2P Require Import HashOrder Numeric Equality Keystream Seal Traceback Machine Operations Vm VmFacts VmInvariant.

(* ------------------------------------------------------------------ *)
(** ** The invariant and its judgement *)

(** The locals of the innermost frame's function. *)
Definition innermost_locals (l : list Frame) : Z :=
  match l with f :: _ => NumLocals (fn_obj (f_fn f)) | [] => 0 end.

Definition afloat (v : Values) : Prop := 0 <= innermost_locals (frames v) -> 0 <= sp v.

Definition bases (v : Values) : Prop := Forall (fun f => 0 <= f_bp f) (frames v).

(** What is known of the values: the frames' bases, and with [b] the stack pointer. *)
Definition level (b : bool) (v : Values) : Prop := bases v /\ (b = true -> afloat v).

(** [lifts a b m]: from level [a], [m] when it succeeds is at level [b]; when it
    stops between two instructions it is at the upper level. *)
Definition lifts {W A} (a b : bool) (m : M W A) : Prop := forall s,
  level a (vals s) ->
  match m s with
  | (Ok _, s') => level b (vals s')
  | (OutOfFuel, s') => level true (vals s')
  | _ => True
  end.

Section Rules.
Context {W : Type} {H : Host W} {S : Storage} {C : Cipher} {R : Rendering} {F : Fpu}.
Context (p : Program).

Lemma lifts_bind {A B} b a c (m : M W A) (k : A -> M W B) :
  lifts a b m -> (forall x, lifts b c (k x)) -> lifts a c (mbind k m).
Proof.
  intros Hm Hk s Hs. unfold mbind, M_bind. specialize (Hm s Hs). destruct (m s) as [[] s']; try done. by apply Hk.
Qed.

Lemma lifts_any {A} b (m : M W A) : lifts false b m -> lifts true b m.
Proof. intros Hm s [Hb _]. by apply Hm. Qed.

Lemma lifts_at {A} a b ip op (m : M W A) : lifts a b m -> lifts a b (runtimeErrorAt ip op m).
Proof. intros Hm s Hs. unfold runtimeErrorAt. specialize (Hm s Hs). by destruct (m s) as [[] ?]. Qed.

(** Reading the state. *)
Lemma lifts_get_vals {A} a b (k : Values -> M W A) :
  (forall v, lifts a b (k v)) -> lifts a b (mbind k get_vals).
Proof. intros Hk s Hs. exact (Hk (vals s) s Hs). Qed.

Lemma lifts_get_sp {A} a b (k : Z -> M W A) : (forall n, lifts a b (k n)) -> lifts a b (mbind k get_sp).
Proof. intros Hk s Hs. exact (Hk (sp (vals s)) s Hs). Qed.

(** What leaves the stack pointer and the frames alone. *)
Definition aside {A} (m : M W A) : Prop := forall s,
  let v := vals (m s).2 in sp v = sp (vals s) /\ frames v = frames (vals s) /\ (m s).1 <> OutOfFuel.

Lemma level_same a v v' : sp v' = sp v -> frames v' = frames v -> level a v -> level a v'.
Proof. intros E1 E2 Hl. unfold level, afloat, bases in *. by rewrite E1, E2. Qed.

Lemma aside_lifts {A} a (m : M W A) : aside m -> lifts a a m.
Proof.
  intros Hm s Hs. destruct (Hm s) as (E1 & E2 & Ef). destruct (m s) as [[] s']; try done. by eapply level_same.
Qed.

Lemma aside_bind {A B} (m : M W A) (k : A -> M W B) : aside m -> (forall x, aside (k x)) -> aside (mbind k m).
Proof.
  intros Hm Hk s. unfold mbind, M_bind. destruct (Hm s) as (E1 & E2 & E0). destruct (m s) as [[] s']; try done.
  destruct (Hk a s') as (E3 & E4 & E5). cbn in *. split_and!; [congruence..|done].
Qed.

Lemma aside_at {A} ip op (m : M W A) : aside m -> aside (runtimeErrorAt ip op m).
Proof. intros Hm s. unfold runtimeErrorAt. destruct (Hm s) as (? & ? & ?). by destruct (m s) as [[] ?]. Qed.

(** Nothing is read, written or counted. *)
Lemma aside_ret {A} (x : A) : aside (mret (M := M W) x).
Proof. by intros s. Qed.
Lemma aside_fail {A} e : aside (fail (W := W) (A := A) e).
Proof. by intros s. Qed.
Lemma aside_failf {A} l : aside (failf (W := W) (A := A) l).
Proof. by intros s. Qed.
Lemma aside_faultf {A} m : aside (faultf (W := W) (A := A) m).
Proof. by intros s. Qed.
Lemma aside_panic {A} : aside (panic (W := W) (A := A)).
Proof. by intros s. Qed.
Lemma aside_get_vals : aside (get_vals (W := W)).
Proof. by intros s. Qed.
Lemma aside_get_sp : aside (get_sp (W := W)).
Proof. by intros s. Qed.
Lemma aside_get_probes : aside (get_probes (W := W)).
Proof. by intros s. Qed.
Lemma aside_set_probes q : aside (set_probes (W := W) q).
Proof. by intros s. Qed.
Lemma aside_record stage : aside (RecordIntegrityFailure (W := W) stage).
Proof. by intros s. Qed.
Lemma aside_ask {A} (f : W -> A * W) : aside (ask_world f).
Proof. intros s. unfold ask_world. by destruct (f (world s)). Qed.
Lemma aside_of_option {A} (o : option A) : aside (of_option (W := W) o).
Proof. intros s. by destruct o. Qed.
Lemma aside_type_of o : aside (type_of (W := W) o).
Proof. intros s. by destruct o. Qed.
Lemma aside_owned o : aside (owned (W := W) o).
Proof. intros s. unfold owned. by destruct (rebuilds o). Qed.
Lemma aside_fresh : aside (fresh_addr (W := W)).
Proof. by intros s. Qed.
Lemma aside_new_cell o : aside (new_cell (W := W) o).
Proof. by intros s. Qed.
Lemma aside_new_cursor it : aside (new_cursor (W := W) it).
Proof. by intros s. Qed.
Lemma aside_cell_set l o : aside (cell_set (W := W) l o).
Proof. by intros s. Qed.
Lemma aside_cursor_set l it : aside (cursor_set (W := W) l it).
Proof. by intros s. Qed.

Lemma aside_ensureStack n : aside (ensureStackCapacity (W := W) n).
Proof.
  intros s. unfold ensureStackCapacity, mbind, M_bind, get_vals. destruct (_ <=? _); [done|]. by destruct (growSize _ _ _).
Qed.
Lemma aside_ensureGlobal n : aside (ensureGlobalCapacity (W := W) n).
Proof.
  intros s. unfold ensureGlobalCapacity, mbind, M_bind, get_vals. destruct (_ <=? _); [done|]. by destruct (growSize _ _ _).
Qed.
Lemma aside_slot_set i o : aside (slot_set (W := W) i o).
Proof. intros s. unfold slot_set, mbind, M_bind, get_vals. by destruct (_ || _). Qed.
Lemma aside_slot_get i : aside (slot_get (W := W) i).
Proof. intros s. unfold slot_get, mbind, M_bind, get_vals. destruct (_ <? _); [done|]. by apply aside_of_option. Qed.
End Rules.

Create HintDb aside.
#[export] Hint Resolve aside_ret aside_fail aside_failf aside_faultf aside_panic aside_get_vals aside_get_sp
  aside_get_probes aside_set_probes aside_record aside_ask aside_of_option aside_type_of aside_owned aside_fresh
  aside_new_cell aside_new_cursor aside_cell_set aside_cursor_set aside_ensureStack aside_ensureGlobal aside_slot_set
  aside_slot_get : aside.

Ltac aside_step :=
  lazymatch goal with
  | |- aside (mbind _ _) => apply aside_bind; [|intros ?]
  | |- aside (runtimeErrorAt _ _ _) => apply aside_at
  | |- aside (if ?b then _ else _) => destruct b
  | |- aside (let '(_, _) := ?x in _) => destruct x
  | |- aside (match ?x with _ => _ end) => destruct x
  | |- _ => solve [auto with aside]
  end.
Ltac aside_walk := repeat aside_step.

Section Walks.
Context {W : Type} {H : Host W} {S : Storage} {C : Cipher} {R : Rendering} {F : Fpu}.
Context (p : Program).

Lemma aside_use o : aside (use (W := W) o).
Proof. unfold use. aside_walk. Qed.
#[local] Hint Resolve aside_use : aside.
Lemma aside_opened n from : aside (opened_slots (W := W) n from).
Proof. revert from. induction n as [|n IH]; intros from; cbn [opened_slots]; aside_walk. Qed.
Lemma aside_raw n from : aside (raw_slots (W := W) n from).
Proof. revert from. induction n as [|n IH]; intros from; cbn [raw_slots]; aside_walk. Qed.
Lemma aside_currentFrame : aside (currentFrame (W := W)).
Proof. unfold currentFrame. aside_walk. Qed.
Lemma aside_register f : aside (registerFrameIntegrity (W := W) f).
Proof. unfold registerFrameIntegrity. aside_walk. Qed.
Lemma aside_read16 ins i : aside (readUint16 (W := W) p ins i).
Proof. unfold readUint16. aside_walk. Qed.
Lemma aside_read8 ins i : aside (readUint8 (W := W) p ins i).
Proof. unfold readUint8. aside_walk. Qed.
Lemma aside_tamper m : aside (ApplyTamperResponse (W := W) p m).
Proof. unfold ApplyTamperResponse. aside_walk. Qed.
#[local] Hint Resolve aside_opened aside_raw aside_currentFrame aside_register aside_read16 aside_read8 aside_tamper : aside.
Lemma aside_controlFlow st f : aside (verifyFrameControlFlow (W := W) p st f).
Proof. unfold verifyFrameControlFlow. aside_walk. Qed.
Lemma aside_integrity st f : aside (verifyFrameIntegrity (W := W) p st f).
Proof. unfold verifyFrameIntegrity. aside_walk. Qed.
#[local] Hint Resolve aside_controlFlow aside_integrity : aside.
Lemma aside_verify l : aside (verify_frames (W := W) p l).
Proof. induction l; cbn [verify_frames]; aside_walk. Qed.
#[local] Hint Resolve aside_verify : aside.
Lemma aside_probes : aside (runIntegrityProbes (W := W) p).
Proof. unfold runIntegrityProbes, verifyActiveFramesIntegrity. aside_walk. Qed.
Lemma aside_constantAt i : aside (constantAt (W := W) p i).
Proof. unfold constantAt. aside_walk. Qed.
Lemma aside_constantString w i : aside (constantString (W := W) p w i).
Proof. unfold constantString. aside_walk. Qed.
Lemma aside_builtinIndex i : aside (builtinTableIndex (W := W) p i).
Proof. unfold builtinTableIndex. cbv zeta. aside_walk. Qed.
Lemma aside_validate st : aside (validateSecurityCheckOpcodes (W := W) p st).
Proof. unfold validateSecurityCheckOpcodes. aside_walk. Qed.
Lemma aside_cell_get l : aside (cell_get (W := W) l).
Proof. unfold cell_get. aside_walk. Qed.
Lemma aside_free op ip i : aside (free_variable (W := W) op ip i).
Proof. unfold free_variable. aside_walk. Qed.
Lemma aside_local op ip i : aside (local_slot (W := W) op ip i).
Proof. unfold local_slot. cbv zeta. aside_walk. Qed.
Lemma aside_gather op ip w n : aside (gather (W := W) op ip w n).
Proof. unfold gather. aside_walk. Qed.
Lemma aside_box bp n l : aside (box_slots (W := W) bp n l).
Proof. induction l as [|i l IH]; cbn [box_slots]; cbv zeta; aside_walk. Qed.
Lemma aside_set_index o i v : aside (execSetIndex (W := W) o i v).
Proof. unfold execSetIndex. aside_walk. Qed.
Lemma aside_pairs n l acc : (length l <= n)%nat -> aside (build_pairs (W := W) l acc).
Proof.
  revert l acc. induction n as [|n IH]; intros [|a [|b l]] acc Hl; cbn [build_pairs]; simpl in Hl; try lia; aside_walk.
  apply IH. lia.
Qed.
Lemma aside_short_at ip op w n : aside (short_at (W := W) ip op w n).
Proof. unfold short_at. aside_walk. Qed.
Lemma aside_short ip op w n : aside (short (W := W) ip op w n).
Proof. unfold short. aside_walk. Qed.
Lemma aside_arguments op args : aside (arrayAndCallback (W := W) op args).
Proof. unfold arrayAndCallback. aside_walk. Qed.
Lemma aside_refusal op l r : aside (comparisonRefusal (W := W) op l r).
Proof. unfold comparisonRefusal. aside_walk. Qed.
End Walks.

#[export] Hint Resolve aside_use aside_opened aside_raw aside_currentFrame aside_register aside_read16 aside_read8
  aside_probes aside_constantAt aside_constantString aside_builtinIndex aside_validate aside_cell_get aside_free
  aside_local aside_gather aside_box aside_set_index aside_short_at aside_short aside_arguments aside_refusal : aside.
#[export] Hint Extern 1 (aside (build_pairs _ _)) => apply (aside_pairs _ _ _ (le_n _)) : aside.

(* ------------------------------------------------------------------ *)
(** ** What moves the stack pointer *)

Section Moves.
Context {W : Type} {H : Host W} {S : Storage} {C : Cipher} {R : Rendering} {F : Fpu}.
Context (p : Program).

Lemma lifts_set_sp a n : 0 <= n -> lifts a true (set_sp (W := W) n).
Proof. intros Hn s [Hb _]. split; [done|]. intros _ _. exact Hn. Qed.

Lemma lifts_move a n : lifts a false (set_sp (W := W) n).
Proof. intros s [Hb _]. by split. Qed.

Lemma lifts_drop a n : lifts a false (drop_slots (W := W) n).
Proof. intros s [Hb _]. by split. Qed.

(** A value pushed lies on the stack. *)
Lemma pushStored_raises o (s s' : VM W) :
  pushStored o s = (Ok tt, s') -> 0 <= sp (vals s) /\ sp (vals s') = sp (vals s) + 1 /\ frames (vals s') = frames (vals s).
Proof.
  unfold pushStored, get_sp, get_vals, mbind, M_bind, mret, M_ret.
  destruct (aside_ensureStack (W := W) (sp (vals s) + 1) s) as (E1 & E2 & _).
  destruct (ensureStackCapacity _ s) as [[] s1]; try done. cbn [snd] in E1, E2.
  unfold slot_set, get_vals, mbind, M_bind. destruct (_ || _) eqn:Eg; [done|]. breflect. intros [= <-]. cbn.
  split_and!; [lia|done|done].
Qed.

Lemma pushStored_fuel o (s : VM W) : (pushStored o s).1 <> OutOfFuel.
Proof.
  unfold pushStored, get_sp, get_vals, mbind, M_bind, mret, M_ret.
  destruct (aside_ensureStack (W := W) (sp (vals s) + 1) s) as (_ & _ & E).
  destruct (ensureStackCapacity _ s) as [[] s1]; try done.
  destruct (aside_slot_set (W := W) (sp (vals s)) o s1) as (_ & _ & E').
  by destruct (slot_set _ o s1) as [[] s2].
Qed.

Lemma lifts_pushStored a o : lifts a true (pushStored (W := W) o).
Proof.
  intros s [Hb _]. pose proof (pushStored_raises o s) as Hr. pose proof (pushStored_fuel o s) as Hf.
  destruct (pushStored o s) as [[[]| | | | |] s']; try done. destruct (Hr _ eq_refl) as (H0 & E1 & E2).
  split; unfold bases, afloat; rewrite ?E2; [done|lia].
Qed.

Lemma lifts_push a o : lifts a true (push (W := W) o).
Proof. apply lifts_pushStored. Qed.

(** The frames. *)
Lemma lifts_set_ip ip : lifts true true (set_ip (W := W) ip).
Proof.
  intros s [Hb Ha]. unfold set_ip, mbind, M_bind, get_vals, bases, afloat in *. destruct (frames (vals s)) as [|f rest] eqn:E; [done|].
  inversion_clear Hb. split; unfold bases, afloat; cbn; [by constructor|]. intros _. by apply Ha.
Qed.

Lemma lifts_popFrame : lifts true false (popFrame (W := W)).
Proof.
  intros s [Hb _]. unfold popFrame, mbind, M_bind, get_vals, bases in *. destruct (frames (vals s)) as [|f rest] eqn:E; [done|].
  inversion_clear Hb. by split.
Qed.
End Moves.

Create HintDb lifts.
#[export] Hint Resolve lifts_push lifts_pushStored lifts_set_ip lifts_popFrame lifts_drop : lifts.

(** Walk an operation, statement by statement: what leaves the stack pointer alone
    stays on its level, and a push comes back to the upper one. *)
Ltac lifts_step :=
  lazymatch goal with
  | |- lifts _ _ (mbind _ get_sp) => apply lifts_get_sp; intros ?
  | |- lifts _ _ (mbind _ get_vals) => apply lifts_get_vals; intros ?
  | |- lifts _ _ (mbind _ (set_sp _)) =>
      first [ apply (lifts_bind true); [apply lifts_set_sp; breflect; lia|intros ?]
            | apply (lifts_bind false); [apply lifts_move|intros ?] ]
  | |- lifts _ _ (mbind _ (drop_slots _)) => apply (lifts_bind false); [apply lifts_drop|intros ?]
  | |- lifts _ _ (mbind _ popFrame) => apply (lifts_bind false); [apply lifts_popFrame|intros ?]
  | |- lifts _ _ (mbind _ (push _)) => apply (lifts_bind true); [apply lifts_push|intros ?]
  | |- lifts ?a _ (mbind _ _) => apply (lifts_bind a); [|intros ?]
  | |- lifts _ _ (runtimeErrorAt _ _ _) => apply lifts_at
  | |- lifts _ _ (set_sp _) => apply lifts_set_sp; breflect; lia
  | |- lifts _ _ (if ?b then _ else _) => destruct b eqn:?
  | |- lifts _ _ (let '(_, _) := ?x in _) => destruct x
  | |- lifts _ _ (match ?x with _ => _ end) => destruct x
  | |- _ => first [solve [auto with lifts] | apply aside_lifts; solve [auto with aside]]
  end.
Ltac lifts_walk := repeat lifts_step.

(* ------------------------------------------------------------------ *)
(** ** Instructions *)

Section Instructions.
Context {W : Type} {H : Host W} {S : Storage} {C : Cipher} {R : Rendering} {F : Fpu}.
Context (p : Program).

#[local] Notation keep m := (lifts (W := W) true true m).

Lemma lifts_popStored : keep popStored.
Proof. unfold popStored. lifts_walk. Qed.
Lemma lifts_pop : keep pop.
Proof. unfold pop. lifts_walk. Qed.
#[local] Hint Resolve lifts_popStored lifts_pop : lifts.
Lemma lifts_pushGlobal i : keep (pushGlobal i).
Proof. unfold pushGlobal. lifts_walk. Qed.
Lemma lifts_setGlobal i : keep (setGlobalStored i).
Proof.
  unfold setGlobalStored. apply (lifts_bind true); [auto with lifts|intros o]. apply aside_lifts. intros s.
  unfold mbind, M_bind, get_vals. by destruct (_ || _).
Qed.
Lemma lifts_push_all l : keep (push_all l).
Proof. induction l; cbn [push_all]; lifts_walk. Qed.
Lemma lifts_push_or_refuse o : keep (push_or_refuse o).
Proof. unfold push_or_refuse. lifts_walk. Qed.
#[local] Hint Resolve lifts_pushGlobal lifts_setGlobal lifts_push_all lifts_push_or_refuse : lifts.
Lemma lifts_binary_integer op l r : keep (execBinaryIntegerOperation op l r).
Proof. unfold execBinaryIntegerOperation. destruct (bitwiseOperatorSymbol op); [lifts_walk|]. destruct op; lifts_walk. Qed.
Lemma lifts_binary_float op l r : keep (execBinaryFloatOperation op l r).
Proof. unfold execBinaryFloatOperation. destruct op; lifts_walk. Qed.
Lemma lifts_binary_string op l r : keep (execBinaryStringOperation op l r).
Proof. unfold execBinaryStringOperation. destruct op; lifts_walk. Qed.
Lemma lifts_binary_bytes op l r a b : keep (execBinaryBytesOperation op l r a b).
Proof. unfold execBinaryBytesOperation. destruct op; lifts_walk. Qed.
#[local] Hint Resolve lifts_binary_integer lifts_binary_float lifts_binary_string lifts_binary_bytes : lifts.
Lemma lifts_binary op : keep (execBinaryOperation op).
Proof.
  unfold execBinaryOperation, binary_checked. do 4 (apply (lifts_bind true); [lifts_walk|intros ?]).
  assert (Hd : keep (binary_dispatch op x0 x)) by (apply binary_cases; lifts_walk).
  destruct (bitwiseOperatorSymbol op); lifts_walk.
Qed.
Lemma lifts_unary : keep execBangOperation /\ keep execMinusOperation /\ keep execBitNotOperation.
Proof. unfold execBangOperation, execMinusOperation, execBitNotOperation. split_and!; lifts_walk. Qed.
Lemma lifts_equality op l r b : keep (equality_only op l r b).
Proof. unfold equality_only. lifts_walk. Qed.
#[local] Hint Resolve lifts_equality : lifts.
Lemma lifts_comparison op : keep (execComparison op).
Proof.
  unfold execComparison. do 4 (apply (lifts_bind true); [lifts_walk|intros ?]).
  unfold comparison_dispatch, execIntegerComparison, execFloatComparison, execBytesComparison, execErrorComparison,
    execEnumComparison, execStructComparison, rendered_comparison. cbv zeta.
  generalize (push (W := W)) (lifts_push (W := W) true). intros f Hf. destruct x0; lifts_walk.
Qed.
Lemma lifts_push_at {A} (l : list A) i f : keep (push_at l i f).
Proof. unfold push_at. lifts_walk. Qed.
#[local] Hint Resolve lifts_push_at : lifts.
Lemma lifts_index l i : keep (execIndexOperation l i).
Proof. unfold execIndexOperation, execHashIndex. apply (lifts_bind true); [lifts_walk|intros ?]. destruct l; lifts_walk. Qed.
Lemma lifts_getField o n : keep (getField o n).
Proof. unfold getField. lifts_walk. Qed.
Lemma lifts_setField o v n : keep (setField o v n).
Proof. unfold setField. lifts_walk. Qed.
Lemma lifts_pop_fields names acc : keep (pop_fields names acc).
Proof. revert acc. induction names; intros acc; cbn [pop_fields]; lifts_walk. Qed.
#[local] Hint Resolve lifts_pop_fields : lifts.
Lemma lifts_makeStruct t n : keep (makeStruct p t n).
Proof. unfold makeStruct. cbv zeta. lifts_walk. Qed.
Lemma lifts_enumValue t n : keep (enumValue p t n).
Proof. unfold enumValue. lifts_walk. Qed.
Lemma lifts_pushClosure i n : keep (pushClosure p i n).
Proof.
  unfold pushClosure. apply (lifts_bind true); [lifts_walk|intros o]. destruct o; lifts_walk.
Qed.
Lemma lifts_pop_raw : keep pop_raw.
Proof. unfold pop_raw. lifts_walk. Qed.
Lemma lifts_settle a : lifts a a (settleProgramResult (W := W)).
Proof.
  unfold settleProgramResult. apply lifts_get_vals. intros v. destruct (_ && _) eqn:E; [|lifts_walk].
  apply andb_prop in E as [_ E%Z.ltb_lt]. destruct a; [apply lifts_set_sp; lia|apply lifts_move].
Qed.
#[local] Hint Resolve lifts_settle : lifts.
Lemma lifts_return o : keep (return_with o).
Proof. unfold return_with. lifts_walk. Qed.
Lemma lifts_operand16_at op ip ins : keep (operand16_at p op ip ins).
Proof. unfold operand16_at. lifts_walk. Qed.
Lemma lifts_operand16 op ip ins : keep (operand16 p op ip ins).
Proof. unfold operand16. lifts_walk. Qed.
Lemma lifts_operand8 op ip ins : keep (operand8 p op ip ins).
Proof. unfold operand8. lifts_walk. Qed.
End Instructions.

#[export] Hint Resolve lifts_popStored lifts_pop lifts_pushGlobal lifts_setGlobal lifts_push_all lifts_binary
  lifts_comparison lifts_index lifts_getField lifts_setField lifts_makeStruct lifts_enumValue lifts_pushClosure
  lifts_pop_raw lifts_return lifts_operand16_at lifts_operand16 lifts_operand8 : lifts.

(* ------------------------------------------------------------------ *)
(** ** Calls *)

Section Calls.
Context {W : Type} {H : Host W} {S : Storage} {C : Cipher} {R : Rendering} {F : Fpu}.
Context (p : Program).

(** A frame over arguments that are on the stack.  Its locals may be counted
    negative: then the pointer is below the stack until the frame returns. *)
Lemma callClosure_level c n (s : VM W) :
  bases (vals s) -> 0 <= sp (vals s) - n ->
  match callClosure c n s with (Ok _, s') => level true (vals s') | (OutOfFuel, _) => False | _ => True end.
Proof.
  intros Hb Hn. unfold callClosure. cbv zeta. destruct (_ =? _); [|done]. unfold get_sp, get_vals, mbind, M_bind, mret, M_ret.
  set (f := AFrame _ _ _ _ _). destruct (pushFrame_cases f s) as [[e ->]|[_ ->]]; [done|].
  set (s0 := Mk _ _ _ _). assert (Hb0 : bases (vals s0)) by (by constructor).
  destruct (aside_register (W := W) (f_fn f) s0) as (E1 & E2 & Ef).
  destruct (registerFrameIntegrity (f_fn f) s0) as [[] s1]; try done. cbn [snd] in E1, E2. clear Ef.
  set (z := sp (vals s) - n + _). destruct (aside_ensureStack (W := W) z s1) as (E3 & E4 & Ef).
  destruct (ensureStackCapacity z s1) as [[] s2]; try done. cbn [snd] in E3, E4. clear Ef.
  unfold set_sp, get_vals, set_vals, mbind, M_bind. set (s3 := Mk _ _ _ _).
  assert (level true (vals s3)) as H3.
  { split; unfold bases, afloat; cbn; rewrite E4, E2; [exact Hb0|]. cbn. unfold z. lia. }
  set (k := box_slots _ _ _). destruct (aside_box (W := W) (sp (vals s) - n) (NumParams (fn_obj (c_fn c)))
    (fn_CapturedLocals (fn_obj (c_fn c))) s3) as (E5 & E6 & Ef). fold k in E5, E6, Ef.
  destruct (k s3) as [[] s4]; try done. by eapply level_same.
Qed.

Lemma push_all_raises l (s s' : VM W) :
  push_all l s = (Ok tt, s') -> sp (vals s') = sp (vals s) + zlen l /\ frames (vals s') = frames (vals s).
Proof.
  revert s. induction l as [|o l IH]; intros s; cbn [push_all]; [intros [= <-]; unfold zlen; cbn; split; [lia|done]|].
  unfold mbind, M_bind, push. destruct (pushStored _ s) as [[[]| | | | |] s1] eqn:E; try done. intros E'.
  destruct (pushStored_raises _ _ _ E) as (_ & E1 & E2). destruct (IH _ E') as [E3 E4].
  unfold zlen in *. cbn [length]. split; [lia|congruence].
Qed.

Lemma push_all_fuel l (s : VM W) : (push_all l s).1 <> OutOfFuel.
Proof.
  revert s. induction l as [|o l IH]; intros s; cbn [push_all]; [done|]. unfold mbind, M_bind, push.
  pose proof (pushStored_fuel (W := W) (encryptForStorage o) s). by destruct (pushStored _ s) as [[] s1].
Qed.

(** [CallClosureSync], over a loop that keeps the level. *)
Lemma lifts_sync loop c args :
  (forall n, lifts true true (loop n)) -> lifts true true (CallClosureSync (W := W) p loop c args).
Proof.
  intros Hloop s Hs. rewrite CallClosureSync_body.
  assert (forall n floor, lifts true true (sync_body p loop c args n floor)) as Hb.
  { clear s Hs. intros n floor. unfold sync_body. intros s [Hb Ha]. unfold mbind at 1, M_bind at 1, push at 1.
    pose proof (pushStored_fuel (W := W) (encryptForStorage (Closure (c_fn c) (c_free c) (c_id c))) s) as Hf.
    destruct (pushStored _ s) as [[[]| | | | |] s1] eqn:E1; try done. destruct (pushStored_raises _ _ _ E1) as (H0 & E2 & E3).
    unfold mbind at 1, M_bind at 1. pose proof (push_all_fuel args s1) as Hf1.
    destruct (push_all args s1) as [[[]| | | | |] s2] eqn:E4; try done. destruct (push_all_raises _ _ _ E4) as (E5 & E6).
    unfold mbind at 1, M_bind at 1. pose proof (callClosure_level c (zlen args) s2) as Hc.
    unfold bases in Hc. rewrite E6, E3 in Hc. specialize (Hc Hb ltac:(lia)).
    destruct (callClosure c (zlen args) s2) as [[[]| | | | |] s3]; try done. revert s3 Hc.
    change (lifts true true (contain p (loop n);; m ← get_sp; if m <=? floor then mret Null else pop)).
    apply (lifts_bind true); [|intros ?; lifts_walk]. intros s3 H3. unfold contain. specialize (Hloop n s3 H3).
    by destruct (loop n s3) as [[] ?]. }
  specialize (Hb (length (frames (vals s))) (sp (vals s)) s Hs). unfold restoring. by destruct (sync_body _ _ _ _ _ _ s) as [[] ?].
Qed.

Section Dispatch.
Context (sync : callee -> list Object -> M W Object).
Hypothesis sync_lifts : forall c args, lifts true true (sync c args).

Lemma lifts_call_each c l i : lifts true true (call_each sync c l i).
Proof using All.
  revert i. induction l as [|el l IH]; intros i; cbn [call_each]; [lifts_walk|].
  apply (lifts_bind true); [unfold callElement; destruct (_ =? _); apply sync_lifts|intros ?].
  apply (lifts_bind true); [apply IH|intros ?]. lifts_walk.
Qed.

Lemma lifts_reduce c acc l : lifts true true (reduce_loop sync c acc l).
Proof using All.
  revert acc. induction l as [|el l IH]; intros acc; cbn [reduce_loop]; [lifts_walk|].
  apply (lifts_bind true); [apply sync_lifts|intros ?]. apply IH.
Qed.

Lemma lifts_native kind args : lifts true true (applyExecutorNative sync kind args).
Proof using All.
  destruct kind; cbn [applyExecutorNative]; unfold hoMap, hoFilter, hoEach.
  3: { unfold hoReduce. destruct args as [|a [|f [|acc []]]]; try (by lifts_walk).
       destruct a; try (by lifts_walk). destruct f; try (by lifts_walk).
       cbv zeta. destruct (_ =? _); [apply lifts_reduce|lifts_walk]. }
  all: (apply (lifts_bind true); [lifts_walk|intros [e|[l c]]]; [lifts_walk|]).
  all: apply (lifts_bind true); [apply lifts_call_each|intros ?]; lifts_walk.
Qed.

Lemma lifts_callBuiltin addr n : lifts true true (callBuiltin p sync addr n).
Proof using All.
  unfold callBuiltin. do 2 lifts_step. { lifts_walk. } apply (lifts_bind true).
  { destruct (ExecutorNativeKind addr); [apply lifts_native|lifts_walk]. }
  intros r. lifts_walk.
Qed.

Lemma lifts_execCall n : lifts true true (execCall p sync n).
Proof using All.
  intros s Hs. unfold execCall, get_vals. unfold mbind at 1, M_bind at 1. cbv zeta.
  destruct ((n <? 0) || _ || _) eqn:Hg; [done|]. breflect.
  destruct (stack (vals s) !!! _) eqn:Eo; clear Eo; try done; try solve [refine ((_ : lifts true true _) s Hs); lifts_walk].
  - match goal with |- match callClosure ?c _ _ with _ => _ end =>
      pose proof (callClosure_level c n s (proj1 Hs) ltac:(lia)) as Hc; by destruct (callClosure c n s) as [[] ?]
    end.
  - refine ((_ : lifts true true _) s Hs). apply lifts_callBuiltin.
Qed.

Lemma lifts_exec_op op ip ins : lifts true true (exec_op p sync op ip ins).
Proof using All.
  pose proof (lifts_unary (W := W)) as (Hbang & Hminus & Hnot).
  destruct op; cbn [exec_op]; cbv zeta; unfold on_ChkDbg, on_ChkSnd, on_Constant, on_Array, on_Concat, on_Hash,
    on_Jump, on_JumpFalse, on_MatchFail, on_SetGlobal, on_GetGlobal, on_SetLocal, on_GetLocal, on_GetBuiltin,
    on_GetFree, on_SetFree, on_LocalCell, on_CaptureFree, on_Index, on_SetIndex, on_Closure, on_CurrentClosure,
    on_Call, on_ReturnValue, on_MultiValue, on_Dup, on_Destructure, on_MakeStruct, on_GetField, on_SetField,
    on_EnumValue, iterInit, iterNext; cbv zeta; try (by lifts_walk).
  pose proof lifts_execCall as Hcall. lifts_walk.
Qed.

Lemma lifts_turn : lifts true true (step p sync).
Proof using All.
  unfold step. pose proof lifts_exec_op as Hop. unfold unknown_opcode. lifts_walk.
Qed.
End Dispatch.

Lemma lifts_run fuel n : lifts true true (run (W := W) p fuel n).
Proof.
  revert n. induction fuel as [|fuel IH]; intros n; [by intros s|]. cbn [run]. apply lifts_get_vals. intros v.
  destruct (running n v); [|lifts_walk]. apply (lifts_bind true); [|intros ?; apply IH].
  apply lifts_turn. intros c args. by apply lifts_sync.
Qed.

Lemma lifts_Run fuel : lifts true true (Run (W := W) p fuel).
Proof.
  unfold Run, execLoop. apply (lifts_bind true); [lifts_walk|intros ?]. apply (lifts_bind true); [|intros ?; lifts_walk].
  intros s Hs. unfold contain. pose proof (lifts_run fuel 0 s Hs) as Hr. by destruct (run p fuel 0 s) as [[] ?].
Qed.

Lemma New_level globals (w : W) : level true (vals (New p globals w)).
Proof. unfold New. destruct (nextSweepInterval _). split; [by repeat constructor|]. intros _ _. cbn. lia. Qed.

(** C15: Whatever the program, its password, its globals and its builtins are, and
    however many instructions have run, the stack pointer and the base of every
    active frame are at most the stack's length and at most [maxCallDepth] calls are
    active, however the run ended.  Between two instructions (the fuel is arbitrary,
    so a run that is out of fuel stands at any such moment, also inside a callback)
    and at the end of a run that succeeded they are not below the stack either: every
    base is at least 0, and the stack pointer is, unless the function being run
    declares a negative number of locals, which no compiler writes but a hostile
    artifact may; the pointer is then below the stack until that function returns.
    After an error or a panic in the middle of an instruction nothing is said of the
    lower bound. *)
Theorem runs_stay_in_bounds fuel globals (w : W) :
  let '(r, s) := Run p fuel (New p globals w) in
  let v := vals s in
  (sp v <= zlen (stack v) /\ Forall (fun f => f_bp f <= zlen (stack v)) (frames v) /\
   zlen (frames v) <= maxCallDepth) /\
  (r = Ok tt \/ r = OutOfFuel ->
   Forall (fun f => 0 <= f_bp f) (frames v) /\ (0 <= innermost_locals (frames v) -> 0 <= sp v)).
Proof.
  pose proof (Run_bounded p fuel globals w) as Hu. pose proof (lifts_Run fuel _ (New_level globals w)) as Hl.
  destruct (Run p fuel (New p globals w)) as [r s]. split; [exact Hu|].
  intros [->| ->]; (split; [apply Hl|by apply Hl]).
Qed.
End Calls.

Import VmFacts.Sample.

(** After five instructions of the sample program, and at its end. *)
Lemma runs_stay_in_bounds_witness :
  (let v := vals (Run program 5 (New program [] tt)).2 in
   (0 <= sp v <= zlen (stack v)) /\ Forall (fun f => 0 <= f_bp f) (frames v)) /\
  (let v := vals (Run program 100 (New program [] tt)).2 in
   (0 <= sp v <= zlen (stack v)) /\ Forall (fun f => 0 <= f_bp f) (frames v)).
Proof.
  assert ((Run program 5 (New program [] tt)).1 = OutOfFuel) as E5 by (vm_compute; reflexivity).
  assert ((Run program 100 (New program [] tt)).1 = Ok tt) as E100 by (vm_compute; reflexivity).
  assert (0 <= innermost_locals (frames (vals (Run program 5 (New program [] tt)).2))) as L5 by (vm_compute; discriminate).
  assert (0 <= innermost_locals (frames (vals (Run program 100 (New program [] tt)).2))) as L100 by (vm_compute; discriminate).
  pose proof (runs_stay_in_bounds program 5 [] tt) as H5. pose proof (runs_stay_in_bounds program 100 [] tt) as H100.
  destruct (Run program 5 _) as [r5 s5]. destruct (Run program 100 _) as [r100 s100]. cbn [fst snd] in *.
  destruct H5 as [(U5 & _ & _) H5]. destruct (H5 (or_intror E5)) as [B5 S5].
  destruct H100 as [(U100 & _ & _) H100]. destruct (H100 (or_introl E100)) as [B100 S100].
  exact (conj (conj (conj (S5 L5) U5) B5) (conj (conj (S100 L100) U100) B100)).
Defined.
