(* ===== verification/VmLogic.v ===== *)
(** * A logic for instructions that cannot fault

    [safe m z fs Q]: with the stack pointer at [z] and the frames [fs], the
    operation [m] of the machine does not fault, also not in a callback, where a
    fault would only be seen in what was recorded; however it ends, the stack
    pointer and the frames' bases are not negative; and where it succeeds [Q]
    holds of the new stack pointer and frames.  A rule for every operation below the
    dispatch loop, read off the number of values it pops and pushes.

    A run touches functions as values, so the judgement also says where functions
    come from: every function the machine can reach, in a slot, a global, a cell, a
    cursor, a frame or a sealed error, is one of the program's own.  What the
    surroundings must keep of that are the classes [HonestStore], [HonestHost] and
    [HonestGob]. *)

From stdpp Require Import base list list_numbers numbers gmap strings.
From Stdlib Require Import ZArith Lia.
From S2P Require Import Prelude Code Stream LineTable Polymorphic Link Lexer Index Float64 Sha256.
From S2P Require Import Object HashOrder Numeric Equality Keystream Seal Traceback Machine Operations Vm VmFacts VmInvariant.

(* ------------------------------------------------------------------ *)
(** ** Known functions *)

(** Where the machine's functions come from: the program's own functions, and
    which errors a sealed payload (its bytes and the seed it was sealed under) may
    open to. *)
Record Origin : Type := From {
  own :> FnPtr -> Prop;
  made : list Z -> Z -> ErrorInfo -> list (list Z * Object) -> Prop }.

Section Known.
Context (K : Origin).

Definition fn_known (o : Object) : Prop := match o with Closure f _ _ | CompiledFn f => K f | _ => True end.

(** Every function in an object is known, and every sealed error was made from
    one in which they are. *)
Inductive known (o : Object) : Prop :=
| known_intro :
    fn_known o -> Forall known (children o) ->
    (forall v s mark, o = Encrypted v ERROR_OBJ s mark -> exists i r, made K v s i r /\ Forall known r.*2) ->
    known o.

Definition cursor_known (it : IteratorState) : Prop := Forall known (it_Keys it) /\ Forall known (it_Values it).
Definition frame_known (f : Frame) : Prop := K (f_fn f) /\ Forall known (f_free f).

Record good (v : Values) : Prop := {
  good_stack : Forall known (stack v);
  good_globals : Forall known (globals v);
  good_cells : Forall known (cells v);
  good_cursors : Forall cursor_known (cursors v);
  good_frames : Forall frame_known (frames v) }.

Lemma known_node o : Type_ o <> ENCRYPTED_OBJ -> fn_known o -> Forall known (children o) -> known o.
Proof. intros Ht Hf Hc. constructor; [done..|]. by intros v s mark ->. Qed.

Lemma known_leaf o : children o = [] -> Type_ o <> ENCRYPTED_OBJ -> fn_known o -> known o.
Proof. intros E Ht Hf. apply known_node; [done..|]. by rewrite E. Qed.

Lemma known_here o : known o -> fn_known o.
Proof. by destruct 1. Qed.

Lemma known_below o : known o -> Forall known (children o).
Proof. by destruct 1. Qed.

Lemma known_array l : Forall known l -> known (Array l).
Proof. intros. by apply known_node. Qed.
Lemma known_multi l : Forall known l -> known (MultiValue l).
Proof. intros. by apply known_node. Qed.
Lemma known_closure f l id : K f -> Forall known l -> known (Closure f l id).
Proof. intros Hf Hl. apply known_node; [done|exact Hf|exact Hl]. Qed.
Lemma known_closure_inv f l id : known (Closure f l id) -> K f /\ Forall known l.
Proof. intros Hk. split; [exact (known_here _ Hk) | exact (known_below _ Hk)]. Qed.
Lemma known_struct n order l : Forall known l.*2 -> known (Struct n order l).
Proof. intros. by apply known_node. Qed.
Lemma known_error i l : Forall known l.*2 -> known (Error i l).
Proof. intros. by apply known_node. Qed.
Lemma known_error_nil i : known (Error i []).
Proof. by apply known_error. Qed.
Lemma known_enum n t v : known v -> known (EnumValue n t v).
Proof. intros. apply known_node; [done..|]. by constructor. Qed.
Lemma known_hash l : Forall (fun e : HashKey * (Object * Object) => known e.2.1 /\ known e.2.2) l -> known (Hash l).
Proof.
  intros Hl. apply known_node; [done..|]. simpl. induction Hl as [|[k [a b]] l [Ha Hb] _ IH]; [by constructor|].
  simpl. constructor; [done|]. constructor; [done|exact IH].
Qed.
Lemma known_hash_inv l : known (Hash l) -> Forall (fun e : HashKey * (Object * Object) => known e.2.1 /\ known e.2.2) l.
Proof.
  intros Hk%known_below. simpl in Hk. induction l as [|[k [a b]] l IH]; [done|]. simpl in Hk.
  inversion_clear Hk as [|? ? Ha Hk1]. inversion_clear Hk1 as [|? ? Hb Hk2]. constructor; [done|by apply IH].
Qed.

Lemma map_get_known {X} `{EqDecision X} {A} (P : A -> Prop) (k : X) (m : list (X * A)) a :
  Forall (fun e => P e.2) m -> map_get k m = Some a -> P a.
Proof.
  induction 1 as [|[x y] m Hy _ IH]; simpl; [done|]. destruct (decide (k = x)); [by intros [= <-]|done].
Qed.

Lemma map_set_known {X} `{EqDecision X} {A} (P : A -> Prop) (k : X) a (m : list (X * A)) :
  Forall (fun e => P e.2) m -> P a -> Forall (fun e => P e.2) (map_set k a m).
Proof.
  induction 1 as [|[x y] m Hy Hm IH]; simpl; intros Ha; [by repeat constructor|].
  destruct (decide (k = x)); constructor; auto.
Qed.

Lemma known_lookup l i o : Forall known l -> l !! i = Some o -> known o.
Proof. intros Hl Hi. by eapply Forall_lookup_1. Qed.

Lemma known_total (l : list Object) i : Forall known l -> known (l !!! i).
Proof.
  intros Hl. rewrite list_lookup_total_alt. destruct (l !! i) as [o|] eqn:E; [by eapply known_lookup|]. by apply known_leaf.
Qed.
End Known.

#[export] Hint Resolve known_array known_multi known_closure known_struct known_error known_error_nil known_enum known_hash : known.
#[export] Hint Extern 1 (known _ (Integer _)) => by apply known_leaf : known.
#[export] Hint Extern 1 (known _ (Float _)) => by apply known_leaf : known.
#[export] Hint Extern 1 (known _ (Boolean _)) => by apply known_leaf : known.
#[export] Hint Extern 1 (known _ (Str _)) => by apply known_leaf : known.
#[export] Hint Extern 1 (known _ (Bytes _ _)) => by apply known_leaf : known.
#[export] Hint Extern 1 (known _ Null) => by apply known_leaf : known.
#[export] Hint Extern 1 (known _ Nil) => by apply known_leaf : known.
#[export] Hint Extern 1 (known _ Break) => by apply known_leaf : known.
#[export] Hint Extern 1 (known _ Continue) => by apply known_leaf : known.
#[export] Hint Extern 1 (known _ (Cell _)) => by apply known_leaf : known.
#[export] Hint Extern 1 (known _ (Iterator _)) => by apply known_leaf : known.
#[export] Hint Extern 1 (known _ (BuiltIn _)) => by apply known_leaf : known.
#[export] Hint Extern 1 (known _ (LuaPatch _ _ _)) => by apply known_leaf : known.
#[export] Hint Extern 1 (known _ (Other ?k _ _)) => (apply known_leaf; [done|by destruct k|done]) : known.

(* ------------------------------------------------------------------ *)
(** ** A logic for what cannot fault *)

(** What the stored form keeps, and what the builtins do. *)
Class HonestStore `{Storage} (K : Origin) : Prop := {
  stores_known o : known K o -> known K (encryptForStorage o);
  opens_known o v : known K o -> decryptForUse o = Some v -> known K v }.

Class HonestHost {W : Type} `{Host W} (K : Origin) : Prop :=
  answers_known addr args w o w' : Forall (known K) args -> call_builtin addr args w = (Some o, w') -> known K o.

(** What [encoding/gob] hands back of an error holds nothing that did not go in. *)
Class HonestGob `{Gob} (K : Origin) : Prop :=
  carried i r x i' r' : encodeError i r = Some x -> decodeError x = Some (i', r') ->
    Forall (known K) r.*2 -> Forall (known K) r'.*2.

Section Logic.
Context {W : Type} {H : Host W} {S : Storage} {C : Cipher} {R : Rendering} {F : Fpu}.
Context (K : Origin).

#[local] Notation known := (known K).
#[local] Notation good := (good K).

(** What holds at every moment of a run: nothing is below the stack, and no fault
    was contained. *)
Definition floored (v : Values) : Prop := 0 <= sp v /\ Forall (fun f => 0 <= f_bp f) (frames v).
Definition calm (s : VM W) : Prop := floored (vals s) /\ "vm-decode" ∉ recorded s.

(** [safe m z fs Q]: with the stack pointer at [z] and the frames [fs], [m] does
    not fault, and when it succeeds [Q] holds of its value, the new stack pointer
    and the new frames; errors and panics end the run. *)
Definition safe {A} (m : M W A) (z : Z) (fs : list Frame) (Q : A -> Z -> list Frame -> Prop) : Prop := forall s,
  good (vals s) -> calm s -> sp (vals s) = z -> frames (vals s) = fs ->
  let '(r, s') := m s in
  calm s' /\
  match r with
  | Ok a => good (vals s') /\ Q a (sp (vals s')) (frames (vals s'))
  | Faulted _ => False
  | _ => True
  end.

Lemma safe_mono {A} (m : M W A) z fs (Q Q' : A -> Z -> list Frame -> Prop) :
  safe m z fs Q -> (forall a z' fs', Q a z' fs' -> Q' a z' fs') -> safe m z fs Q'.
Proof.
  intros Hm HQ s Hg Hc Hz Hf. specialize (Hm s Hg Hc Hz Hf). destruct (m s) as [[] s']; try done.
  destruct Hm as (? & ? & ?). auto.
Qed.

Lemma safe_bind {A B} (m : M W A) (k : A -> M W B) z fs Q :
  safe m z fs (fun a z' fs' => safe (k a) z' fs' Q) -> safe (mbind k m) z fs Q.
Proof.
  intros Hm s Hg Hc Hz Hf. specialize (Hm s Hg Hc Hz Hf). unfold mbind, M_bind.
  destruct (m s) as [[] s']; try done. destruct Hm as (Hc' & Hg' & Hk). by apply Hk.
Qed.

Lemma safe_floor {A} (m : M W A) z fs Q : (0 <= z -> Forall (fun f => 0 <= f_bp f) fs -> safe m z fs Q) -> safe m z fs Q.
Proof. intros Hm s Hg Hc <- <-. by apply Hm; [apply Hc..| | | |]. Qed.

Lemma safe_ret {A} (a : A) z fs (Q : A -> Z -> list Frame -> Prop) : Q a z fs -> safe (mret a) z fs Q.
Proof. intros HQ s Hg Hc <- <-. done. Qed.

Lemma safe_at {A} ip op (m : M W A) z fs Q : safe m z fs Q -> safe (runtimeErrorAt ip op m) z fs Q.
Proof. intros Hm s Hg Hc Hz Hf. specialize (Hm s Hg Hc Hz Hf). unfold runtimeErrorAt. by destruct (m s) as [[] s']. Qed.

(** What ends the run. *)
Lemma safe_fail {A} e z fs (Q : A -> Z -> list Frame -> Prop) : safe (fail e) z fs Q.
Proof. by intros s. Qed.
Lemma safe_failf {A} l z fs (Q : A -> Z -> list Frame -> Prop) : safe (failf l) z fs Q.
Proof. by intros s. Qed.
Lemma safe_panic {A} z fs (Q : A -> Z -> list Frame -> Prop) : safe panic z fs Q.
Proof. by intros s. Qed.
Lemma safe_of_option {A} (o : option A) z fs (Q : A -> Z -> list Frame -> Prop) :
  (forall a, o = Some a -> Q a z fs) -> safe (of_option o) z fs Q.
Proof. destruct o; cbn; intros HQ; [apply safe_ret; auto | apply safe_panic]. Qed.
Lemma safe_type_of o z fs (Q : ObjectType -> Z -> list Frame -> Prop) : (forall t, Q t z fs) -> safe (type_of o) z fs Q.
Proof. intros HQ. destruct o; cbn; try (apply safe_ret, HQ). apply safe_panic. Qed.
Lemma safe_owned o z fs (Q : unit -> Z -> list Frame -> Prop) : Q tt z fs -> safe (owned o) z fs Q.
Proof. intros HQ s Hg Hc <- <-. unfold owned. by destruct (rebuilds o). Qed.

(** Reading the state. *)
Lemma safe_get_sp {A} (k : Z -> M W A) z fs Q : (0 <= z -> safe (k z) z fs Q) -> safe (mbind k get_sp) z fs Q.
Proof. intros Hk s Hg Hc <- Hf. exact (Hk (proj1 (proj1 Hc)) s Hg Hc eq_refl Hf). Qed.
Lemma safe_get_vals {A} (k : Values -> M W A) z fs Q :
  (forall v, good v -> floored v -> sp v = z -> frames v = fs -> safe (k v) z fs Q) -> safe (mbind k get_vals) z fs Q.
Proof. intros Hk s Hg Hc Hz Hf. exact (Hk (vals s) Hg (proj1 Hc) Hz Hf s Hg Hc Hz Hf). Qed.
Lemma safe_get_probes z fs (Q : Probes -> Z -> list Frame -> Prop) : (forall q, Q q z fs) -> safe get_probes z fs Q.
Proof. intros HQ s Hg Hc <- <-. cbn. auto. Qed.
Lemma safe_set_probes q z fs (Q : unit -> Z -> list Frame -> Prop) : Q tt z fs -> safe (set_probes q) z fs Q.
Proof. intros HQ s Hg Hc <- <-. done. Qed.
Lemma safe_record stage z fs (Q : unit -> Z -> list Frame -> Prop) :
  stage <> "vm-decode"%string -> Q tt z fs -> safe (RecordIntegrityFailure stage) z fs Q.
Proof. intros Hs HQ s Hg [Hf Hc] <- <-. split; [|done]. split; [done|]. apply not_elem_of_cons. by split. Qed.

(** Changing the values. *)
Lemma safe_set_vals v z fs (Q : unit -> Z -> list Frame -> Prop) :
  good v -> floored v -> Q tt (sp v) (frames v) -> safe (set_vals v) z fs Q.
Proof. intros Hv Hf HQ s _ [_ Hc] _ _. done. Qed.
Lemma safe_set_sp n z fs (Q : unit -> Z -> list Frame -> Prop) : 0 <= n -> Q tt n fs -> safe (set_sp n) z fs Q.
Proof.
  intros Hn HQ. unfold set_sp. apply safe_get_vals. intros v [] [_ Hf] <- <-. apply safe_set_vals; [by split|by split|exact HQ].
Qed.
Lemma safe_fresh_addr z fs (Q : nat -> Z -> list Frame -> Prop) : (forall a, Q a z fs) -> safe fresh_addr z fs Q.
Proof. intros HQ s [] Hc <- <-. split; [done|]. split; [by split|apply HQ]. Qed.
Lemma safe_new_cell o z fs (Q : nat -> Z -> list Frame -> Prop) : known o -> (forall a, Q a z fs) -> safe (new_cell o) z fs Q.
Proof.
  intros Ho HQ s [] Hc <- <-. split; [done|]. split; [|apply HQ]. split; cbn; try done. apply Forall_app. by split; [|constructor].
Qed.
Lemma safe_new_cursor it z fs (Q : nat -> Z -> list Frame -> Prop) :
  cursor_known K it -> (forall a, Q a z fs) -> safe (new_cursor it) z fs Q.
Proof.
  intros Ho HQ s [] Hc <- <-. split; [done|]. split; [|apply HQ]. split; cbn; try done. apply Forall_app. by split; [|constructor].
Qed.
Lemma safe_cell_set l o z fs (Q : unit -> Z -> list Frame -> Prop) : known o -> Q tt z fs -> safe (cell_set l o) z fs Q.
Proof. intros Ho HQ s [] Hc <- <-. split; [done|]. split; [|done]. split; cbn; try done. by apply Forall_insert. Qed.
Lemma safe_cursor_set l it z fs (Q : unit -> Z -> list Frame -> Prop) :
  cursor_known K it -> Q tt z fs -> safe (cursor_set l it) z fs Q.
Proof. intros Ho HQ s [] Hc <- <-. split; [done|]. split; [|done]. split; cbn; try done. by apply Forall_insert. Qed.

Lemma known_grown l n : Forall known l -> Forall known (grown l n).
Proof. intros Hl. unfold grown. apply Forall_app. split; [done|]. apply Forall_replicate. auto with known. Qed.

Lemma safe_ensureStack n z fs (Q : unit -> Z -> list Frame -> Prop) : Q tt z fs -> safe (ensureStackCapacity n) z fs Q.
Proof.
  intros HQ. unfold ensureStackCapacity. apply safe_get_vals. intros v [] Hfl <- <-. destruct (_ <=? _); [by apply safe_ret|].
  apply safe_bind, safe_of_option. intros m _. apply safe_set_vals; [|done|done]. split; cbn; try done. by apply known_grown.
Qed.
Lemma safe_ensureGlobal n z fs (Q : unit -> Z -> list Frame -> Prop) : Q tt z fs -> safe (ensureGlobalCapacity n) z fs Q.
Proof.
  intros HQ. unfold ensureGlobalCapacity. apply safe_get_vals. intros v [] Hfl <- <-. destruct (_ <=? _); [by apply safe_ret|].
  apply safe_bind, safe_of_option. intros m _. apply safe_set_vals; [|done|done]. split; cbn; try done. by apply known_grown.
Qed.
Lemma safe_slot_get i z fs (Q : Object -> Z -> list Frame -> Prop) :
  (forall o, known o -> Q o z fs) -> safe (slot_get i) z fs Q.
Proof.
  intros HQ. unfold slot_get. apply safe_get_vals. intros v [Hs] _ _ _. destruct (_ <? _); [apply safe_panic|].
  apply safe_of_option. intros o Ho. apply HQ. exact (known_lookup K _ _ _ Hs Ho).
Qed.
Lemma safe_slot_set i o z fs (Q : unit -> Z -> list Frame -> Prop) : known o -> Q tt z fs -> safe (slot_set i o) z fs Q.
Proof.
  intros Ho HQ. unfold slot_set. apply safe_get_vals. intros v [] Hfl <- <-. destruct (_ || _); [apply safe_panic|].
  apply safe_set_vals; [|done|done]. split; cbn; try done. by apply Forall_insert.
Qed.
End Logic.

(** Walk an operation. *)
Ltac safe_known := try solve [auto with known].
Ltac safe_done :=
  match goal with
  | HQ : ?Q _ ?z' _ |- ?Q _ ?z _ => replace z with z' by lia; exact HQ
  | HQ : forall _, _ -> ?Q _ ?z' _ |- ?Q _ ?z _ => replace z with z' by lia; apply HQ; safe_known
  | HQ : forall _, ?Q _ ?z' _ |- ?Q _ ?z _ => replace z with z' by lia; apply HQ
  end.
Ltac safe_step :=
  lazymatch goal with
  | |- safe _ (mbind _ get_sp) _ _ _ => apply safe_get_sp; intros ?
  | |- safe _ (mbind _ get_vals) _ _ _ => apply safe_get_vals; intros ? ? ? ? ?
  | |- safe _ (mbind _ _) _ _ _ => apply safe_bind
  | |- safe _ (mret _) _ _ _ => apply safe_ret
  | |- safe _ (fail _) _ _ _ => apply safe_fail
  | |- safe _ (failf _) _ _ _ => apply safe_failf
  | |- safe _ panic _ _ _ => apply safe_panic
  | |- safe _ (runtimeErrorAt _ _ _) _ _ _ => apply safe_at
  | |- safe _ (of_option _) _ _ _ => apply safe_of_option; intros ? ?
  | |- safe _ (type_of _) _ _ _ => apply safe_type_of; intros ?
  | |- safe _ (owned _) _ _ _ => apply safe_owned
  | |- safe _ get_probes _ _ _ => apply safe_get_probes; intros ?
  | |- safe _ (set_probes _) _ _ _ => apply safe_set_probes
  | |- safe _ (RecordIntegrityFailure _) _ _ _ => apply safe_record; [done|]
  | |- safe _ (set_sp _) _ _ _ => apply safe_set_sp; [lia|]
  | |- safe _ fresh_addr _ _ _ => apply safe_fresh_addr; intros ?
  | |- safe _ (new_cell _) _ _ _ => apply safe_new_cell; [safe_known|intros ?]
  | |- safe _ (cell_set _ _) _ _ _ => apply safe_cell_set; [safe_known|]
  | |- safe _ (ensureStackCapacity _) _ _ _ => apply safe_ensureStack
  | |- safe _ (ensureGlobalCapacity _) _ _ _ => apply safe_ensureGlobal
  | |- safe _ (slot_get _) _ _ _ => apply safe_slot_get; intros ? ?
  | |- safe _ (slot_set _ _) _ _ _ => apply safe_slot_set; [safe_known|]
  | |- safe _ (if ?b then _ else _) _ _ _ => destruct b eqn:?
  | |- safe _ (let '(_, _) := ?x in _) _ _ _ => destruct x eqn:?
  | |- safe _ (match ?x with _ => _ end) _ _ _ => destruct x eqn:?
  | |- _ => safe_done
  end.
Ltac safe_walk := repeat safe_step.

Section Operations.
Context {W : Type} {H : Host W} {S : Storage} {C : Cipher} {R : Rendering} {F : Fpu}.
Context (p : Program) (K : Origin) `{!HonestStore K}.

#[local] Notation known := (known K).
#[local] Notation good := (good K).
#[local] Notation safe := (safe (W := W) K).
#[local] Notation post A := (A -> Z -> list Frame -> Prop).

Lemma safe_use o z fs (Q : post Object) : known o -> (forall v, known v -> Q v z fs) -> safe (use o) z fs Q.
Proof. intros Ho HQ. unfold use. safe_step. apply HQ. by eapply opens_known. Qed.

Lemma safe_pushStored o z fs (Q : post unit) : known o -> Q tt (z + 1) fs -> safe (pushStored o) z fs Q.
Proof. intros Ho HQ. unfold pushStored. safe_walk. Qed.

Lemma safe_push o z fs (Q : post unit) : known o -> Q tt (z + 1) fs -> safe (push o) z fs Q.
Proof. intros Ho HQ. apply safe_pushStored; [by apply stores_known|done]. Qed.

Lemma safe_popStored z fs (Q : post Object) :
  0 < z -> (forall o, known o -> Q o (z - 1) fs) -> safe popStored z fs Q.
Proof. intros Hz HQ. unfold popStored. safe_step. rewrite (proj2 (Z.leb_gt _ _)) by lia. safe_walk. Qed.

Lemma safe_pop z fs (Q : post Object) :
  0 < z -> (forall o, known o -> Q o (z - 1) fs) -> safe pop z fs Q.
Proof.
  intros Hz HQ. unfold pop. safe_step. rewrite (proj2 (Z.leb_gt _ _)) by lia. do 2 safe_step. apply safe_bind, safe_use; [done|].
  intros v Hv. safe_walk.
Qed.
End Operations.

Ltac op_step :=
  lazymatch goal with
  | HS : HonestStore _ |- safe _ (use _) _ _ _ => apply (safe_use _ (HonestStore0 := HS)); [safe_known|intros ? ?]
  | HS : HonestStore _ |- safe _ (push _) _ _ _ => apply (safe_push _ (HonestStore0 := HS)); [safe_known|]
  | |- safe _ (pushStored _) _ _ _ => apply safe_pushStored; [safe_known|]
  | HS : HonestStore _ |- safe _ pop _ _ _ => apply (safe_pop _ (HonestStore0 := HS)); [lia|intros ? ?]
  | |- safe _ popStored _ _ _ => apply safe_popStored; [lia|intros ? ?]
  | |- _ => safe_step
  end.
Ltac op_walk := repeat op_step.

Section Instructions.
Context {W : Type} {H : Host W} {S : Storage} {C : Cipher} {R : Rendering} {F : Fpu}.
Context (p : Program) (K : Origin) `{!HonestStore K}.
Hypothesis pool_known : Forall (known K) (p_constants p).

#[local] Notation known := (known K).
#[local] Notation good := (good K).
#[local] Notation safe := (safe (W := W) K).
#[local] Notation post A := (A -> Z -> list Frame -> Prop).

Lemma safe_pushGlobal i z fs (Q : post unit) : Q tt (z + 1) fs -> safe (pushGlobal i) z fs Q.
Proof.
  intros HQ. unfold pushGlobal. apply safe_get_vals. intros v [? Hgl ? ? ?] Hfl _ _. op_step; [op_walk|].
  destruct (globals v !! Z.to_nat i) as [o|] eqn:E; [|op_walk].
  apply safe_pushStored; [|done]. exact (known_lookup K _ _ _ Hgl E).
Qed.

Lemma safe_setGlobal i z fs (Q : post unit) : 0 < z -> Q tt (z - 1) fs -> safe (setGlobalStored i) z fs Q.
Proof.
  intros Hz HQ. unfold setGlobalStored. do 2 op_step. apply safe_get_vals. intros v [? Hgl ? ? ?] Hfl Ez Ef.
  destruct (_ || _); [op_walk|]. apply safe_set_vals; [|done|cbn; by rewrite Ez, Ef].
  split; cbn; try done. by apply Forall_insert.
Qed.

Lemma safe_opened n from z fs (Q : post (list Object)) :
  (forall l, Forall known l -> length l = n -> Q l z fs) -> safe (opened_slots n from) z fs Q.
Proof.
  revert from Q. induction n as [|n IH]; intros from Q HQ; cbn [opened_slots]; [op_step; by apply HQ|].
  op_walk. apply IH. intros l Hl Hn. op_step. apply HQ; [by constructor|simpl; lia].
Qed.

Lemma safe_raw n from z fs (Q : post (list Object)) :
  (forall l, Forall known l -> length l = n -> Q l z fs) -> safe (raw_slots n from) z fs Q.
Proof.
  revert from Q. induction n as [|n IH]; intros from Q HQ; cbn [raw_slots]; [op_step; by apply HQ|].
  op_walk. apply IH. intros l Hl Hn. op_step. apply HQ; [by constructor|simpl; lia].
Qed.

Lemma safe_currentFrame f rest z (Q : post Frame) : Q f z (f :: rest) -> safe currentFrame z (f :: rest) Q.
Proof. intros HQ. unfold currentFrame. apply safe_get_vals. intros v _ Hfl _ ->. by op_step. Qed.

Lemma safe_set_ip ip f rest z (Q : post unit) : Q tt z (with_ip f ip :: rest) -> safe (set_ip ip) z (f :: rest) Q.
Proof.
  intros HQ. unfold set_ip. apply safe_get_vals. intros v [? ? ? ? Hf] Hfl Hz E. rewrite E. rewrite E in Hf.
  destruct Hfl as [H0 Hb]. rewrite E in Hb. apply Forall_cons in Hf as [? ?], Hb as [? ?].
  apply safe_set_vals; [split; cbn; try done; by constructor|split; [done|by constructor]|cbn; by rewrite Hz].
Qed.

(** The probes leave the values alone. *)
Lemma safe_register f z fs (Q : post unit) : Q tt z fs -> safe (registerFrameIntegrity f) z fs Q.
Proof. intros HQ. unfold registerFrameIntegrity. op_walk. Qed.

Lemma safe_tamper m z fs (Q : post unit) : Q tt z fs -> safe (ApplyTamperResponse p m) z fs Q.
Proof. intros HQ. unfold ApplyTamperResponse. op_walk. Qed.

Lemma safe_controlFlow st f z fs (Q : post unit) :
  st <> "vm-decode"%string -> Q tt z fs -> safe (verifyFrameControlFlow p st f) z fs Q.
Proof. intros Hst HQ. unfold verifyFrameControlFlow. op_walk. by apply safe_tamper. Qed.

Lemma safe_integrity st f z fs (Q : post unit) :
  st <> "vm-decode"%string -> Q tt z fs -> safe (verifyFrameIntegrity p st f) z fs Q.
Proof.
  intros Hst HQ. unfold verifyFrameIntegrity. do 3 op_step. destruct (map_get _ _); [|apply safe_register]; op_walk; by apply safe_tamper.
Qed.

Lemma safe_verify l z fs (Q : post unit) : Q tt z fs -> safe (verify_frames p l) z fs Q.
Proof.
  revert Q. induction l as [|f l IH]; intros Q HQ; cbn [verify_frames]; [op_walk|].
  apply safe_bind, safe_controlFlow; [done|]. apply safe_bind, safe_integrity; [done|]. by apply IH.
Qed.

Lemma safe_probes f rest z (Q : post unit) : Q tt z (f :: rest) -> safe (runIntegrityProbes p) z (f :: rest) Q.
Proof.
  intros HQ. unfold runIntegrityProbes. do 3 op_step.
  assert (forall q, safe (if nextSweepAt q <=? stepCount q
     then f ← currentFrame; verifyFrameControlFlow p "vm-cfi-sweep" f;; verifyActiveFramesIntegrity p;; q ← get_probes;
          let '(n, j) := nextSweepInterval (integrityJitter q) in
          set_probes (Prb (stepCount q) j (nextIntegrityAt q) (u64 (stepCount q + n)) (frameIntegrity q) (mapped q))
     else mret tt) z (f :: rest) Q) as Hsweep.
  { intros q'. destruct (_ <=? _); [|by op_walk]. apply safe_bind, safe_currentFrame, safe_bind, safe_controlFlow; [done|].
    unfold verifyActiveFramesIntegrity. apply safe_bind, safe_get_vals. intros v _ Hfl _ _. apply safe_verify. op_walk. }
  destruct (_ <=? _).
  - apply safe_bind, safe_currentFrame, safe_bind, safe_controlFlow; [done|]. apply safe_bind, safe_integrity; [done|]. do 2 op_step. op_step. op_step.
    do 2 op_step. apply Hsweep.
  - do 3 op_step. apply Hsweep.
Qed.

(** Operators. *)
Lemma safe_refuse o z fs (Q : post unit) : known o -> Q tt (z + 1) fs -> safe (push_or_refuse o) z fs Q.
Proof. intros Ho HQ. destruct o; cbn [push_or_refuse]; op_walk. Qed.

Lemma bitwise_known sym l r : known (BitwiseInfix sym l r).
Proof. unfold BitwiseInfix, negative_shift, infixError. repeat case_match; auto with known. Qed.
Lemma bitwise_not_known o : known (BitwiseNot o).
Proof. unfold BitwiseNot, infixError. case_match; auto with known. Qed.

Lemma safe_binary op f rest z (Q : post unit) :
  2 <= z -> Q tt (z - 1) (f :: rest) -> safe (execBinaryOperation op) z (f :: rest) Q.
Proof.
  intros Hz HQ. unfold execBinaryOperation. do 8 op_step.
  assert (forall l r, safe (binary_dispatch op l r) (z - 1 - 1) (f :: rest) Q) as Hd.
  { intros l r. apply (binary_cases (fun m => safe m (z - 1 - 1) (f :: rest) Q)).
    - intros ? ?. unfold execBinaryIntegerOperation. destruct (bitwiseOperatorSymbol op).
      + apply safe_refuse; [apply bitwise_known|safe_done].
      + destruct op; op_walk.
    - intros ? ?. unfold execBinaryStringOperation. op_walk.
    - intros ? ? ? ?. destruct op; unfold execBinaryBytesOperation; op_walk.
    - destruct (_ && _); [destruct op; unfold execBinaryFloatOperation; op_walk|].
      apply safe_bind, safe_currentFrame. op_walk. }
  unfold binary_checked. destruct (bitwiseOperatorSymbol op); [|apply Hd]. op_step; [apply Hd|].
  apply safe_refuse; [|safe_done]. unfold BitwiseOperandError, infixError. auto with known.
Qed.

Lemma safe_bang z fs (Q : post unit) : 0 < z -> Q tt z fs -> safe execBangOperation z fs Q.
Proof. intros Hz HQ. unfold execBangOperation. op_walk. Qed.

Lemma safe_minus z fs (Q : post unit) : 0 < z -> Q tt z fs -> safe execMinusOperation z fs Q.
Proof. intros Hz HQ. unfold execMinusOperation. op_walk. Qed.

Lemma safe_bitnot z fs (Q : post unit) : 0 < z -> Q tt z fs -> safe execBitNotOperation z fs Q.
Proof. intros Hz HQ. unfold execBitNotOperation. do 4 op_step. apply safe_refuse; [apply bitwise_not_known|safe_done]. Qed.

Lemma safe_equality op l r b z fs (Q : post unit) : Q tt (z + 1) fs -> safe (equality_only op l r b) z fs Q.
Proof. intros HQ. unfold equality_only, comparisonRefusal. destruct op; op_walk. Qed.

Lemma safe_comparison_dispatch op l r z fs (Q : post unit) :
  Q tt (z + 1) fs -> safe (comparison_dispatch op l r) z fs Q.
Proof.
  intros HQ. set (rest := if IsNumeric l && IsNumeric r then execFloatComparison op l r else
    if is_equality op && (HoldsFunction l || HoldsFunction r)
      then push (Boolean (eqb (ValuesEqual apart l r) (bool_decide (op = OpEqual))))
    else if bool_decide (Type_ l = BYTES_OBJ \/ Type_ r = BYTES_OBJ) then execBytesComparison op l r
    else if bool_decide (Type_ l = ERROR_OBJ \/ Type_ r = ERROR_OBJ) then execErrorComparison op l r
    else if bool_decide (Type_ l = ENUM_VALUE_OBJ \/ Type_ r = ENUM_VALUE_OBJ) then execEnumComparison op l r
    else if bool_decide (Type_ l = STRUCT_OBJ \/ Type_ r = STRUCT_OBJ) then execStructComparison op l r
    else if bool_decide (Type_ l = Type_ r) && is_equality op &&
            bool_decide (Type_ l = ARRAY_OBJ \/ Type_ l = HASH_OBJ)
      then push (Boolean (eqb (ValuesEqual apart l r) (bool_decide (op = OpEqual))))
    else rendered_comparison op l r : M W unit).
  assert (safe rest z fs Q) as Hrest.
  { subst rest. destruct (_ && _); [unfold execFloatComparison, comparisonRefusal; op_walk|].
    op_step; [op_walk|]. do 4 (op_step; [by apply safe_equality|]). op_step; [op_walk|].
    unfold rendered_comparison, comparisonRefusal. op_walk. }
  destruct l; try exact Hrest; destruct r; try exact Hrest.
  cbn [comparison_dispatch]. unfold execIntegerComparison, comparisonRefusal. op_walk.
Qed.

Lemma safe_comparison op z fs (Q : post unit) : 2 <= z -> Q tt (z - 1) fs -> safe (execComparison op) z fs Q.
Proof. intros Hz HQ. unfold execComparison. do 8 op_step. apply safe_comparison_dispatch. safe_done. Qed.

(** Indexing. *)
Lemma known_related r : Forall (fun e : list Z * Object => known e.2) r -> known (relatedHash r).
Proof.
  intros Hr. unfold relatedHash. apply known_hash, Forall_fmap. eapply Forall_impl; [exact Hr|].
  intros [n v] Hv. cbn in *. split; [auto with known|]. destruct v; auto with known.
Qed.

Lemma known_fields (l : list (list Z * Object)) : Forall known l.*2 <-> Forall (fun e => known e.2) l.
Proof. by rewrite Forall_fmap. Qed.

Lemma known_error_field i r name :
  known (Error i r) -> known (default Null (error_field i r name)).
Proof.
  intros Hk%known_below%known_fields. unfold error_field.
  repeat case_bool_decide; cbn; auto using known_related with known.
  apply known_array, Forall_fmap, Forall_true. intros ?. cbn. auto with known.
Qed.

Lemma safe_push_at {A} (l : list A) i g z fs (Q : post unit) :
  (forall x, x ∈ l -> known (g x)) -> Q tt (z + 1) fs -> safe (push_at l i g) z fs Q.
Proof.
  intros Hl HQ. unfold push_at. destruct (IndexOf _ _); [|op_walk]. op_step. apply safe_of_option. intros x Hx.
  apply (safe_push K); [|done]. apply Hl. by eapply list_elem_of_lookup_2.
Qed.

Lemma safe_hash_index l i z fs (Q : post unit) :
  known (Hash l) -> Q tt (z + 1) fs -> safe (execHashIndex l i) z fs Q.
Proof.
  intros Hl%known_hash_inv HQ. unfold execHashIndex. do 2 op_step. destruct (hash_key i) as [k|]; [|op_walk].
  destruct (map_get k l) as [[a b]|] eqn:Eg; [|op_walk]. apply (safe_push K); [|done].
  by destruct (map_get_known (fun e : Object * Object => known e.1 /\ known e.2) _ _ _ Hl Eg).
Qed.

Lemma safe_index l i z fs (Q : post unit) : known l -> Q tt (z + 1) fs -> safe (execIndexOperation l i) z fs Q.
Proof.
  intros Hl HQ. unfold execIndexOperation. op_step. op_step.
  destruct l; destruct i; try solve [op_walk]; try (by apply safe_hash_index); try (apply safe_push_at; [|done]);
    try (apply (safe_push K); [by apply known_error_field|done]);
    try (apply Forall_forall; exact (known_below _ _ Hl)). intros ? _. auto with known.
Qed.

Lemma safe_set_index o i v z fs (Q : post Object) :
  known o -> known i -> known v -> (forall r, known r -> Q r z fs) -> safe (execSetIndex o i v) z fs Q.
Proof.
  intros Ho Hi Hv HQ. unfold execSetIndex. destruct o; try solve [op_walk].
  - destruct i; op_walk. apply known_array, Forall_insert; [exact (known_below _ _ Ho)|done].
  - destruct (hash_key i); op_walk. apply known_hash. apply known_hash_inv in Ho.
    apply (map_set_known (fun e : Object * Object => known e.1 /\ known e.2)); [exact Ho|done].
Qed.

(** Containers. *)
Lemma safe_build_pairs n l acc z fs (Q : post Object) :
  (length l <= n)%nat -> Forall known l -> known (Hash acc) -> (forall r, known r -> Q r z fs) ->
  safe (build_pairs l acc) z fs Q.
Proof.
  revert l acc. induction n as [|n IH]; intros l acc Hn Hl Ha HQ.
  - destruct l; [cbn [build_pairs]; op_walk|simpl in Hn; lia].
  - destruct l as [|k [|v l]]; cbn [build_pairs]; [op_walk..|].
    inversion_clear Hl as [|? ? Hk Hl1]. inversion_clear Hl1 as [|? ? Hv Hl2].
    destruct (hash_key k); [|op_walk]. apply IH; [simpl in Hn; lia|done| |done].
    apply known_hash. apply known_hash_inv in Ha.
    apply (map_set_known (fun e : Object * Object => known e.1 /\ known e.2)); [exact Ha|done].
Qed.

Lemma safe_push_all l z fs (Q : post unit) :
  Forall known l -> Q tt (z + zlen l) fs -> safe (push_all l) z fs Q.
Proof.
  revert z. induction l as [|o l IH]; intros z Hl HQ; cbn [push_all].
  - op_step. by rewrite Z.add_0_r in HQ.
  - inversion_clear Hl. op_walk. apply IH; [done|]. unfold zlen in *. simpl in HQ.
    replace (z + 1 + Z.of_nat (length l)) with (z + Z.of_nat (Datatypes.S (length l))) by lia. exact HQ.
Qed.

Lemma known_destructure o n : known o -> Forall known (destructureValues o n).
Proof.
  intros Ho. unfold destructureValues.
  assert (forall l, Forall known l -> Forall known ((fun i => or_null (l !! i)) <$> seq 0 n)) as Hs.
  { intros l Hl. apply Forall_fmap, Forall_true. intros i. cbn. destruct (l !! i) as [x|] eqn:E; cbn; [|auto with known].
    pose proof (known_lookup _ _ _ _ Hl E). destruct x; auto with known. }
  assert (Forall known ((fun i => if (i =? 0)%nat then o else Null) <$> seq 0 n)) as Hn.
  { apply Forall_fmap, Forall_true. intros i. cbn. destruct (i =? 0)%nat; auto with known. }
  destruct o; try exact Hn; try (apply Hs; exact (known_below _ _ Ho)). apply Forall_replicate. auto with known.
Qed.

Lemma length_destructure o n : length (destructureValues o n) = n.
Proof. destruct o; cbn [destructureValues]; rewrite ?length_fmap, ?length_seq, ?length_replicate; done. Qed.

Lemma safe_getField o name z fs (Q : post unit) : known o -> Q tt (z + 1) fs -> safe (getField o name) z fs Q.
Proof.
  intros Ho HQ. unfold getField. destruct o; try solve [op_walk].
  - destruct (map_get name Fields) eqn:E; op_walk.
    apply known_below, known_fields in Ho. by apply (map_get_known (fun o => known o) _ _ _ Ho E).
  - apply (safe_push K); [by apply known_error_field|done].
Qed.

Lemma safe_setField o v name z fs (Q : post unit) :
  known o -> known v -> Q tt (z + 1) fs -> safe (setField o v name) z fs Q.
Proof.
  intros Ho Hv HQ. unfold setField. destruct o; try solve [op_walk].
  destruct (map_get name Fields) eqn:E; op_walk.
  apply known_below, known_fields in Ho.
  apply known_struct, known_fields, (map_set_known (fun o => known o)); done.
Qed.

Lemma safe_pop_fields names acc z fs (Q : post (list (list Z * Object))) :
  zlen names <= z -> Forall (fun e => known e.2) acc ->
  (forall l, Forall (fun e => known e.2) l -> Q l (z - zlen names) fs) -> safe (pop_fields names acc) z fs Q.
Proof.
  revert z acc. induction names as [|n names IH]; intros z acc Hz Ha HQ; cbn [pop_fields].
  - op_step. rewrite Z.sub_0_r in HQ. by apply HQ.
  - unfold zlen in *. cbn [length] in *. op_step. op_step. apply IH; [lia|by apply (map_set_known (fun o => known o))|].
    intros l Hl. replace (z - 1 - Z.of_nat (length names)) with (z - Z.of_nat (Datatypes.S (length names))) by lia.
    by apply HQ.
Qed.

Lemma safe_makeStruct tn n z fs (Q : post unit) :
  0 <= n <= z -> Q tt (z - n + 1) fs -> safe (makeStruct p tn n) z fs Q.
Proof.
  intros Hz HQ. unfold makeStruct. destruct (Z.eqb_spec (zlen (bytes <$> default [] (StructDefs (p_bc p) !! of_bytes tn))) n) as [E|E];
    [|op_walk].
  assert (zlen (rev (bytes <$> default [] (StructDefs (p_bc p) !! of_bytes tn))) = n) as Er
    by (unfold zlen in *; by rewrite length_rev).
  op_step. apply safe_pop_fields; [lia|done|]. intros l Hl. rewrite Er.
  apply (safe_push K); [|done]. by apply known_struct, known_fields.
Qed.

Lemma safe_enumValue tn tag z fs (Q : post unit) : Q tt (z + 1) fs -> safe (enumValue p tn tag) z fs Q.
Proof. intros HQ. unfold enumValue. op_walk. Qed.

(** Slots and variables. *)
Lemma safe_gather op ip what n z fs (Q : post (list Object)) :
  n <= z -> (forall l, Forall known l -> Q l z fs) -> safe (gather op ip what n) z fs Q.
Proof.
  intros Hn HQ. unfold gather. op_step. rewrite (proj2 (Z.ltb_ge _ _)) by lia. do 2 op_step.
  apply safe_opened. intros l Hl _. by apply HQ.
Qed.

Lemma safe_drop_slots n z fs (Q : post unit) : n <= z -> Q tt (z - n) fs -> safe (drop_slots n) z fs Q.
Proof. intros Hn HQ. unfold drop_slots. op_walk. Qed.

Lemma safe_local_slot op ip i f rest z (Q : post Z) :
  (forall n, Q n z (f :: rest)) -> safe (local_slot op ip i) z (f :: rest) Q.
Proof. intros HQ. unfold local_slot. apply safe_bind, safe_currentFrame. op_walk. Qed.

Lemma safe_free_variable op ip i f rest z (Q : post Object) :
  (forall o, known o -> Q o z (f :: rest)) -> safe (free_variable op ip i) z (f :: rest) Q.
Proof.
  intros HQ. unfold free_variable, currentFrame. apply safe_bind, safe_get_vals. intros v [? ? ? ? Hf] Hfl _ E.
  rewrite E in *. op_step. destruct (f_free f !! Z.to_nat i) as [o|] eqn:Eo; [|op_walk]. op_step. apply HQ.
  inversion_clear Hf as [|? ? [_ Hfree] _]. by eapply known_lookup.
Qed.

Lemma safe_cell_get l z fs (Q : post Object) : (forall o, known o -> Q o z fs) -> safe (cell_get l) z fs Q.
Proof.
  intros HQ. unfold cell_get. apply safe_get_vals. intros v [? ? Hc ? ?] Hfl _ _. op_step. apply HQ.
  by eapply known_lookup.
Qed.

Lemma safe_pop_raw z fs (Q : post (Object * Object)) :
  0 < z -> (forall r o, known o -> Q (r, o) (z - 1) fs) -> safe pop_raw z fs Q.
Proof. intros Hz HQ. unfold pop_raw. op_walk. by apply HQ. Qed.

Lemma safe_constantAt i z fs (Q : post Object) : (forall o, known o -> Q o z fs) -> safe (constantAt p i) z fs Q.
Proof.
  intros HQ. unfold constantAt. destruct (i <? 0); [op_walk|].
  destruct (p_constants p !! Z.to_nat i) as [o|] eqn:E; [|op_walk]. op_step. apply HQ. by eapply known_lookup.
Qed.

Lemma safe_constantString what i z fs (Q : post (list Z)) :
  (forall s, Q s z fs) -> safe (constantString p what i) z fs Q.
Proof.
  intros HQ. unfold constantString. destruct (i <? 0); [op_walk|].
  destruct (p_constants p !! Z.to_nat i) as [o|] eqn:E; [|op_walk].
  apply safe_bind, (safe_use K); [by eapply known_lookup|]. intros v _. op_walk.
Qed.

Lemma safe_builtinTableIndex i z fs (Q : post Z) : (forall n, Q n z fs) -> safe (builtinTableIndex p i) z fs Q.
Proof. intros HQ. unfold builtinTableIndex. op_walk. Qed.

Lemma safe_pushClosure i n z fs (Q : post unit) :
  0 <= n <= z -> Q tt (z - n + 1) fs -> safe (pushClosure p i n) z fs Q.
Proof.
  intros Hn HQ. unfold pushClosure. apply safe_bind, safe_constantAt. intros o Ho. destruct o; try solve [op_walk].
  op_step. rewrite (proj2 (Z.ltb_ge n 0)), (proj2 (Z.ltb_ge (z - n) 0)) by lia. cbn [orb].
  apply safe_bind, safe_raw. intros l Hl _. op_walk. apply known_closure; [exact (known_here _ _ Ho)|done].
Qed.

(** Loops. *)
Lemma known_index_keys {A} (l : list A) : Forall known (index_keys l).
Proof.
  unfold index_keys. apply Forall_lookup_2. intros i o Ho. rewrite list_lookup_imap in Ho.
  destruct (l !! i); simplify_eq/=. auto with known.
Qed.

Lemma known_iterator o it : known o -> NewIterator o = Some it -> cursor_known K it.
Proof.
  intros Ho E. destruct o; simplify_eq/=; (split; cbn; [try apply known_index_keys|]).
  - apply Forall_fmap, Forall_true. intros ?. cbn. auto with known.
  - apply Forall_fmap, Forall_true. intros ?. cbn. auto with known.
  - exact (known_below _ _ Ho).
  - apply known_hash_inv in Ho. rewrite (SortedPairs_pairs Pairs). rewrite <- list_fmap_compose. apply Forall_fmap.
    eapply Forall_impl; [exact Ho|]. by intros ? [? ?].
  - apply known_hash_inv in Ho. rewrite (SortedPairs_pairs Pairs). rewrite <- list_fmap_compose. apply Forall_fmap.
    eapply Forall_impl; [exact Ho|]. by intros ? [? ?].
Qed.

Lemma known_next it key value it' :
  cursor_known K it -> Next it = Ret (Some (key, value, it')) -> known key /\ known value /\ cursor_known K it'.
Proof.
  intros [Hk Hv] E. unfold Next in E. destruct (_ <=? _); [done|].
  destruct (it_Keys it !! _) as [k|] eqn:Ek; [|done]. destruct (it_Values it !! _) as [v|] eqn:Ev; [|done].
  injection E as <- <- <-. split; [exact (known_lookup _ _ _ _ Hk Ek)|].
  split; [exact (known_lookup _ _ _ _ Hv Ev)|done].
Qed.

Lemma safe_iterInit ip z fs (Q : post unit) : 0 < z -> Q tt z fs -> safe (iterInit ip) z fs Q.
Proof.
  intros Hz HQ. unfold iterInit. do 5 op_step.
  assert (forall x, known x -> safe match NewIterator x with
      | None => failf [text "cannot iterate over "; type_text x]
      | Some it => loc ← new_cursor it; push (Iterator loc)
      end (z - 1) fs Q) as Hn.
  { intros x Hx. destruct (NewIterator x) as [it|] eqn:E; [|op_walk]. apply safe_bind, safe_new_cursor; [by eapply known_iterator|].
    intros a. op_walk. }
  match goal with Hv : known ?v |- safe (match ?v with _ => _ end) _ _ _ => specialize (Hn v Hv); destruct v; try exact Hn end.
Qed.

(** Calls. *)
Lemma safe_box_slots bp n l z fs (Q : post unit) : Q tt z fs -> safe (box_slots bp n l) z fs Q.
Proof.
  revert Q. induction l as [|i l IH]; intros Q HQ; cbn [box_slots]; [op_walk|].
  apply safe_get_vals. intros v [Hs ? ? ? ?] Hfl _ _. op_step. op_step; [op_step; by apply IH|]. op_step.
  apply safe_new_cell; [destruct (i <? n); [by apply known_total|auto with known]|]. intros a. op_step. by apply IH.
Qed.

Lemma safe_pushFrame f z fs (Q : post unit) :
  frame_known K f -> 0 <= f_bp f -> Q tt z (f :: fs) -> safe (pushFrame f) z fs Q.
Proof.
  intros Hf Hb HQ. unfold pushFrame. apply safe_get_vals. intros v [] [H0 Hbs] <- <-. op_step; [op_walk|]. op_step.
  apply safe_set_vals; [split; cbn; try done; by constructor|split; [done|by constructor]|]. by apply safe_register.
Qed.

Lemma safe_callClosure c n z fs (Q : post unit) :
  K (c_fn c) -> Forall known (c_free c) -> n <= z -> 0 <= NumLocals (fn_obj (c_fn c)) ->
  Q tt (z - n + NumLocals (fn_obj (c_fn c))) (AFrame (c_fn c) (c_free c) (c_id c) (-1) (z - n) :: fs) ->
  safe (callClosure c n) z fs Q.
Proof.
  intros Hf Hl Hn Hloc HQ. unfold callClosure. op_step; [|op_walk]. op_step. op_step.
  apply safe_pushFrame; [by split|cbn; lia|].
  do 4 op_step. by apply safe_box_slots.
Qed.

Lemma known_decorated bc fr o : known o -> known (decorateError bc fr o).
Proof.
  intros Ho. destruct o; try done; cbn [decorateError].
  - apply known_error. exact (known_below _ _ Ho).
  - apply known_multi, Forall_fmap. eapply Forall_impl; [exact (known_below _ _ Ho)|]. intros v Hv. cbn.
    destruct v; try done. apply known_error. exact (known_below _ _ Hv).
Qed.
End Instructions.

(* ------------------------------------------------------------------ *)
(** ** The runtime's storage is honest *)

Section Sealing.
Context {C : Cipher} {G : Gob} (k : sealKey) (functions : FnPtr -> Prop).

(** Sealed errors of a run under the key [k]. *)
Definition under_key : Origin :=
  From functions (fun v s i r =>
    forall x, xorAtSeed k v (if s =? 0 then seed k else s) = Some x -> encodeError i r = Some x).

#[local] Notation known := (known under_key).

Lemma known_wrap k' t mark payload : t <> ERROR_OBJ -> known (wrap k' t mark payload).
Proof. intros Ht. constructor; [done..|]. intros v s m E. unfold wrap in E. congruence. Qed.

Lemma known_mapM {A B} (P : A -> Prop) (Q : B -> Prop) (f : A -> option B) l l' :
  Forall (fun a => P a -> forall b, f a = Some b -> Q b) l -> Forall P l -> mapM f l = Some l' -> Forall Q l'.
Proof.
  intros Hf Hl E. apply mapM_Some in E. induction E as [|a b l l' Hab _ IH]; [done|].
  inversion_clear Hf. inversion_clear Hl. constructor; [by auto|by apply IH].
Qed.

Lemma opened_mapM {A B} (f : A -> opening B) l l' :
  mapM f l = Opened l' -> Forall2 (fun a b => f a = Opened b) l l'.
Proof.
  revert l'. induction l as [|a l IH]; intros l' E; cbn in E; [injection E as <-; constructor|].
  destruct (f a) as [b| |] eqn:Ea; try done. cbn in E. destruct (mapM f l) as [bs| |]; try done. cbn in E.
  injection E as <-. constructor; [done|by apply IH].
Qed.

Lemma known_opened {A B} (P : A -> Prop) (Q : B -> Prop) (f : A -> opening B) l l' :
  Forall (fun a => P a -> forall b, f a = Opened b -> Q b) l -> Forall P l -> mapM f l = Opened l' -> Forall Q l'.
Proof.
  intros Hf Hl E. apply opened_mapM in E. induction E as [|a b l l' Hab _ IH]; [done|].
  inversion_clear Hf. inversion_clear Hl. constructor; [by auto|by apply IH].
Qed.

Lemma encrypt_known : key_ok k -> forall o, known o -> forall o', encryptObject k o = Some o' -> known o'.
Proof.
  intros Hk. apply (Object_ind' (fun o => known o -> forall o', encryptObject k o = Some o' -> known o'));
    [|intros l IH Ho o' E|intros l IH Ho o' E|intros n order l IH Ho o' E|intros n t v IH Ho o' E|intros i l IH Ho o' E
     |intros l IH Ho o' E|intros f l id IH Ho o' E].
  - intros o. destruct o; try exact I; intros Ho o' E; cbn in E; simplify_eq; try done;
      try (apply fmap_Some in E as (x & _ & ->)); try (by apply known_wrap); auto with known.
  - cbn [encryptObject] in E. apply fmap_Some in E as (l' & E & ->). apply known_array. exact (known_mapM _ _ _ _ _ IH (known_below _ _ Ho) E).
  - cbn [encryptObject] in E. apply fmap_Some in E as (l' & E & ->). apply known_hash. apply known_hash_inv in Ho.
    refine (known_mapM (fun e => known e.2.1 /\ known e.2.2) _ _ _ _ _ Ho E). eapply Forall_impl; [exact IH|]. intros [h [a b]] [Ia Ib] [Ha Hb] e Ee. cbn in *.
    apply bind_Some in Ee as (a' & Ea & Ee). apply bind_Some in Ee as (b' & Eb & Ee). injection Ee as <-. cbn. auto.
  - cbn [encryptObject] in E. apply fmap_Some in E as (l' & E & ->). apply known_struct, known_fields.
    pose proof (proj1 (known_fields _ _) (known_below _ _ Ho)) as Hl.
    refine (known_mapM (fun e => known e.2) _ _ _ _ _ Hl E). eapply Forall_impl; [exact IH|]. intros [m x] Ix Hx e Ee. cbn in *.
    apply bind_Some in Ee as (x' & Ex & Ee). injection Ee as <-. cbn. auto.
  - pose proof (known_below _ _ Ho) as Hv. cbn in Hv. inversion_clear Hv as [|? ? Hv0 _]. specialize (IH Hv0).
    cbn in E. destruct v; try (apply fmap_Some in E as (x & Ex & ->); apply known_enum; by apply IH). by injection E as <-.
  - cbn in E. apply bind_Some in E as (x & Ex & E). apply fmap_Some in E as (pl & Epl & ->).
    constructor; [done..|]. intros v s m Ev. unfold wrap in Ev. injection Ev as <- <- <-. exists i, l.
    split; [|exact (known_below _ _ Ho)]. cbn. intros y Ey. unfold xorPayload in Epl. case_bool_decide as Hx0.
    + injection Epl as <-. rewrite xorAtSeed_secure in Ey by done. destruct (_ =? 0); done.
    + destruct (xor_opens k k x pl Hk (opens_for_refl k Hk) Epl) as [_ Ey']. congruence.
  - cbn [encryptObject] in E. apply fmap_Some in E as (l' & E & ->). apply known_multi. exact (known_mapM _ _ _ _ _ IH (known_below _ _ Ho) E).
  - cbn [encryptObject] in E. apply fmap_Some in E as (l' & E & ->). apply known_closure; [exact (known_here _ _ Ho)|].
    exact (known_mapM _ _ _ _ _ IH (known_below _ _ Ho) E).
Qed.

Context `{!HonestGob under_key}.

Lemma open_encrypted_known v t s mark w :
  known (Encrypted v t s mark) -> open_encrypted k (Encrypted v t s mark) v t s mark = Opened w -> known w.
Proof.
  intros Ho E. unfold open_encrypted in E. do 3 (case_bool_decide; [injection E as <-; by auto with known|]).
  destruct (xorAtSeed _ _ _) as [x|] eqn:Ex; [|done]. destruct t; cbn in E; try (injection E as <-; by auto with known);
    try (case_match; simplify_eq; by auto with known).
  destruct (decodeError x) as [[i r]|] eqn:Ed; [|done]. injection E as <-. destruct Ho as [_ _ Hmade].
  destruct (Hmade _ _ _ eq_refl) as (i0 & r0 & Hm & Hr0). apply known_error. eapply carried; [by apply Hm|exact Ed|exact Hr0].
Qed.

Lemma decrypt_known : forall o, known o -> forall o', decryptObject k o = Opened o' -> known o'.
Proof.
  apply (Object_ind' (fun o => known o -> forall o', decryptObject k o = Opened o' -> known o'));
    [|intros l IH Ho o' E|intros l IH Ho o' E|intros n order l IH Ho o' E|intros n t v IH Ho o' E|done
     |intros l IH Ho o' E|intros f l id IH Ho o' E].
  - intros o. destruct o; try exact I; intros Ho o' E; cbn in E; simplify_eq; try done.
    + destruct (xorPayload _ _); simplify_eq. auto with known.
    + by eapply open_encrypted_known.
  - cbn [decryptObject] in E. destruct (mapM _ l) as [l'| |] eqn:El; try done. injection E as <-. apply known_array.
    exact (known_opened _ _ _ _ _ IH (known_below _ _ Ho) El).
  - cbn [decryptObject] in E. destruct (mapM _ l) as [l'| |] eqn:El; try done. injection E as <-. apply known_hash.
    apply known_hash_inv in Ho. refine (known_opened (fun e => known e.2.1 /\ known e.2.2) _ _ _ _ _ Ho El).
    eapply Forall_impl; [exact IH|]. intros [h [a b]] [Ia Ib] [Ha Hb] e Ee. cbn in *.
    destruct (decryptObject k a) as [a'| |]; try done. cbn in Ee. destruct (decryptObject k b) as [b'| |]; try done.
    cbn in Ee. injection Ee as <-. cbn. auto.
  - cbn [decryptObject] in E. destruct (mapM _ l) as [l'| |] eqn:El; try done. injection E as <-.
    apply known_struct, known_fields. pose proof (proj1 (known_fields _ _) (known_below _ _ Ho)) as Hl.
    refine (known_opened (fun e => known e.2) _ _ _ _ _ Hl El). eapply Forall_impl; [exact IH|].
    intros [m x] Ix Hx e Ee. cbn in *. destruct (decryptObject k x) as [x'| |]; try done. cbn in Ee. injection Ee as <-.
    cbn. auto.
  - pose proof (known_below _ _ Ho) as Hv. cbn in Hv. inversion_clear Hv as [|? ? Hv0 _]. specialize (IH Hv0).
    cbn [decryptObject] in E.
    destruct v; try (by injection E as <-); destruct (decryptObject k _) as [x| |] eqn:Ex; try done; injection E as <-;
      apply known_enum; by apply IH.
  - cbn [decryptObject] in E. destruct (mapM _ l) as [l'| |] eqn:El; try done. injection E as <-. apply known_multi.
    exact (known_opened _ _ _ _ _ IH (known_below _ _ Ho) El).
  - cbn [decryptObject] in E. destruct (mapM _ l) as [l'| |] eqn:El; try done. injection E as <-.
    apply known_closure; [exact (known_here _ _ Ho)|]. exact (known_opened _ _ _ _ _ IH (known_below _ _ Ho) El).
Qed.

Lemma sealed_honest : key_ok k -> @HonestStore (sealed k) under_key.
Proof.
  intros Hk. split; cbn.
  - intros o Ho. destruct (encryptObject k o) as [o'|] eqn:E; [by eapply encrypt_known|done].
  - intros o v Ho E. destruct (decryptObject k o) as [o'| |] eqn:Ed; simplify_eq; [by eapply decrypt_known|done].
Qed.
End Sealing.
