(* ===== verification/VmSafety.v ===== *)
(** * Typed code never faults

    [fault.go] says of the faults the machine raises (a pop with nothing on the
    stack, a return from no frame) that none can happen to a program this
    toolchain compiled.  Here is the proof: a machine whose functions all have
    typed streams ([StackTyping.v]) always stands on an instruction, with the
    operands the typing promises between its locals and its stack pointer, and
    every instruction does to the stack what its effect says.  The programs the
    code generator emits are such programs, once sealed. *)

From stdpp Require Import base list list_numbers numbers gmap strings.
From Stdlib Require Import ZArith Lia.
From S2P Require Import Prelude Code Stream LineTable Polymorphic Padding Mutation StackTyping Link Lexer Index Float64 Sha256.
From S2P Require Import Object HashOrder Numeric Equality Keystream Seal Traceback Machine Operations Vm VmFacts VmLogic.

(* ------------------------------------------------------------------ *)
(** ** Reading operands of a stream at rest *)

Section Operands.
Context {W : Type} {H : Host W} {S : Storage} {C : Cipher} {R : Rendering}.
Context (p : Program) (enc : Z -> Z).

Lemma length_spelled l : length (spelled enc l) = length (encode l).
Proof.
  induction l as [|i l IH]; [done|]. cbn [spelled encode]. rewrite !length_app, length_spelled_instr, length_instr_bytes. lia.
Qed.

(** The bytes of the operands of an instruction. *)
Lemma spelled_operands A i B :
  drop (Datatypes.S (length (encode A))) (spelled enc (A ++ i :: B)) =
  operands_bytes (iwidths i) (iargs i) ++ spelled enc B.
Proof.
  rewrite spelled_app. cbn [spelled]. unfold spelled_instr. rewrite <- length_spelled.
  rewrite <- (Nat.add_1_r (length _)), <- drop_drop, drop_app_length. done.
Qed.

Lemma slice_at_rest l off n :
  zlen (spelled enc l) <= 2 ^ 38 -> (0 < n)%nat -> (off + n <= length (encode l))%nat ->
  XORAt (instructionStream p) (take n (drop off (at_rest p enc l))) (Z.of_nat off) =
  Some (take n (drop off (spelled enc l))).
Proof.
  intros Hl Hn Ho. pose proof (length_spelled l) as Hs. unfold zlen in Hl. unfold at_rest.
  rewrite XORKeyStream_drop, XORKeyStream_take, Z.add_0_l.
  rewrite XORAt_some; [by rewrite XORKeyStream_twice| |lia].
  intros E. apply (f_equal length) in E. rewrite length_XORKeyStream, length_take, length_drop in E. simpl in E. lia.
Qed.

Lemma byte_at_rest l off b :
  zlen (spelled enc l) <= 2 ^ 38 -> spelled enc l !! off = Some b ->
  XOROneAt (instructionStream p) (at_rest p enc l !!! off) (Z.of_nat off) = Some b.
Proof. intros Hl Hb. by apply XOROneAt_sealed. Qed.

Lemma zlen_rest l : zlen (at_rest p enc l) = Z.of_nat (length (encode l)).
Proof. rewrite zlen_at_rest. unfold zlen. by rewrite length_spelled. Qed.

(** The operand bytes of an instruction, at their offset. *)
Lemma operand_slice A i B k n :
  (k + n <= nsum (iwidths i))%nat ->
  take n (drop (length (encode A) + 1 + k) (spelled enc (A ++ i :: B))) =
  take n (drop k (operands_bytes (iwidths i) (iargs i))).
Proof.
  intros Hk. rewrite Nat.add_1_r, <- drop_drop, spelled_operands, drop_app_le, take_app_le; [done|..];
    rewrite ?length_drop, length_operands_bytes; lia.
Qed.

Lemma encode_room A i B : (length (encode A) + 1 + nsum (iwidths i) <= length (encode (A ++ i :: B)))%nat.
Proof.
  rewrite encode_app. cbn [encode]. rewrite !length_app, length_instr_bytes. unfold instr_width, def_width, iwidths. lia.
Qed.

Lemma u16_value a : 0 <= a <= 0xFFFF -> u16 (Uint16 [a / 256; a mod 256] 0) = a.
Proof.
  intros Ha. unfold Uint16, u16. cbn. rewrite <- Z_div_mod_eq_full. apply Z.mod_small. lia.
Qed.

Lemma read16 A i B k a off (s : VM W) :
  zlen (spelled enc (A ++ i :: B)) <= 2 ^ 38 -> (k + 2 <= nsum (iwidths i))%nat ->
  take 2 (drop k (operands_bytes (iwidths i) (iargs i))) = [a / 256; a mod 256] -> 0 <= a <= 0xFFFF ->
  off = Z.of_nat (length (encode A) + 1 + k) ->
  readUint16 p (at_rest p enc (A ++ i :: B)) off s = (Ok a, s).
Proof.
  intros Hl Hk Hb Ha ->. unfold readUint16. pose proof (encode_room A i B). rewrite zlen_rest.
  replace ((_ <? 0) || _) with false by (symmetry; apply orb_false_iff; split; apply Z.ltb_ge; lia).
  rewrite Nat2Z.id, slice_at_rest by (done || lia). rewrite operand_slice, Hb by done.
  by rewrite u16_value.
Qed.

Lemma read8 A i B k a off (s : VM W) :
  zlen (spelled enc (A ++ i :: B)) <= 2 ^ 38 -> (k + 1 <= nsum (iwidths i))%nat ->
  take 1 (drop k (operands_bytes (iwidths i) (iargs i))) = [a] -> 0 <= a <= 0xFF ->
  off = Z.of_nat (length (encode A) + 1 + k) ->
  readUint8 p (at_rest p enc (A ++ i :: B)) off s = (Ok a, s).
Proof.
  intros Hl Hk Hb Ha ->. unfold readUint8. pose proof (encode_room A i B). rewrite zlen_rest.
  replace ((_ <? 0) || _) with false by (symmetry; apply orb_false_iff; split; [apply Z.ltb_ge|apply Z.leb_gt]; lia).
  rewrite Nat2Z.id, (byte_at_rest _ _ a); [|done|].
  - unfold u8. cbn. rewrite Z.mod_small by lia. done.
  - pose proof (operand_slice A i B k 1 Hk) as E. rewrite Hb in E.
    pose proof (f_equal (fun l => l !! 0%nat) E) as E0. cbn [lookup list_lookup] in E0. rewrite lookup_take_lt, lookup_drop, Nat.add_0_r in E0 by lia. done.
Qed.
End Operands.

(* ------------------------------------------------------------------ *)
(** ** One instruction *)

(** The loop has nothing left to do in the innermost frame. *)
Definition ended (fs : list Frame) : Prop :=
  match fs with [] => False | f :: _ => zlen (frame_ins f) - 1 <= f_ip f end.

(** [call z fs] either came back to where it was made or left an ended frame. *)
Definition since (z : Z) (fs : list Frame) (z' : Z) (fs' : list Frame) : Prop :=
  z <= z' /\ (fs' = fs /\ z' = z \/ ended fs').

Lemma since_refl z fs : since z fs z fs.
Proof. split; [lia|by left]. Qed.

Lemma since_trans z fs z1 fs1 z2 fs2 : since z fs z1 fs1 -> since z1 fs1 z2 fs2 -> since z fs z2 fs2.
Proof. intros [H1 [[-> ->]|E1]] [H2 [[-> ->]|E2]]; split; try lia; by (left + right). Qed.

Lemma since_frames z fs z' fs' : fs <> [] -> since z fs z' fs' -> fs' <> [].
Proof. by intros Hf [_ [[-> _]|E]]; [|destruct fs']. Qed.

Section Callbacks.
Context {W : Type} {H : Host W} {S : Storage} {C : Cipher} {R : Rendering} {F : Fpu}.
Context (p : Program) (K : Origin) `{!HonestStore K} `{!HonestHost K}.
Context (sync : callee -> list Object -> M W Object).

#[local] Notation known := (known K).
#[local] Notation safe := (safe (W := W) K).
#[local] Notation post A := (A -> Z -> list Frame -> Prop).

Definition callee_known (c : callee) : Prop := K (c_fn c) /\ Forall known (c_free c).

(** What a builtin may do to the machine it calls back into. *)
Definition sync_safe : Prop := forall c args z fs (Q : post Object),
  0 <= z -> fs <> [] -> callee_known c -> Forall known args ->
  (forall o z' fs', known o -> since z fs z' fs' -> Q o z' fs') -> safe (sync c args) z fs Q.

Hypothesis sync_ok : sync_safe.

Lemma safe_callElement c o i z fs (Q : post Object) :
  0 <= z -> fs <> [] -> callee_known c -> known o ->
  (forall o z' fs', known o -> since z fs z' fs' -> Q o z' fs') -> safe (callElement sync c o i) z fs Q.
Proof.
  intros Hz Hf Hc Ho HQ. unfold callElement. destruct (_ =? _); apply sync_ok; try done; auto 6 with known.
Qed.

Lemma safe_call_each c l i z fs (Q : post (list Object)) :
  0 <= z -> fs <> [] -> callee_known c -> Forall known l ->
  (forall rs z' fs', Forall known rs -> since z fs z' fs' -> Q rs z' fs') -> safe (call_each sync c l i) z fs Q.
Proof.
  intros Hz Hf Hc Hl. revert i z fs Q Hz Hf. induction Hl as [|o l Ho _ IH]; intros i z fs Q Hz Hf HQ; cbn [call_each].
  - op_step. apply HQ; [done|apply since_refl].
  - op_step. apply safe_callElement; try done. intros r z1 fs1 Hr H1. op_step.
    apply IH; [destruct H1; lia|by eapply since_frames|]. intros rs z2 fs2 Hrs H2. op_step.
    apply HQ; [by constructor|by eapply since_trans].
Qed.

Lemma safe_reduce c acc l z fs (Q : post Object) :
  0 <= z -> fs <> [] -> callee_known c -> Forall known l -> known acc ->
  (forall o z' fs', known o -> since z fs z' fs' -> Q o z' fs') -> safe (reduce_loop sync c acc l) z fs Q.
Proof.
  intros Hz Hf Hc Hl. revert acc z fs Q Hz Hf. induction Hl as [|o l Ho _ IH]; intros acc z fs Q Hz Hf Ha HQ; cbn [reduce_loop].
  - op_step. apply HQ; [done|apply since_refl].
  - op_step. apply sync_ok; try done; [auto|]. intros r z1 fs1 Hr H1.
    apply IH; [destruct H1; lia|by eapply since_frames|done|]. intros o' z2 fs2 Ho' H2.
    apply HQ; [done|by eapply since_trans].
Qed.

Lemma safe_arguments op args z fs (Q : post (Object + (list Object * callee))) :
  Forall known args -> (forall e, known e -> Q (inl e) z fs) ->
  (forall l c, Forall known l -> callee_known c -> Q (inr (l, c)) z fs) -> safe (arrayAndCallback op args) z fs Q.
Proof.
  intros Ha He Hl. unfold arrayAndCallback, vmErrorf, infixError.
  destruct args as [|a [|f [|? ?]]]; try solve [op_walk; apply He; auto with known].
  inversion_clear Ha as [|? ? Hka Ha1]. inversion_clear Ha1 as [|? ? Hkf _].
  destruct a; try solve [op_walk; apply He; auto with known].
  destruct f; try solve [op_walk; apply He; auto with known]. op_step; op_step; [apply He; auto with known|].
  apply Hl; [exact (known_below _ _ Hka)|]. exact (known_closure_inv _ _ _ _ Hkf).
Qed.

Lemma Forall_zip_left {A B} (P : A -> Prop) (l : list A) (k : list B) (test : B -> bool) :
  Forall P l -> Forall P (zip l k ≫= fun e => if test e.2 then [e.1] else []).
Proof.
  intros Hl. revert k. induction Hl as [|x l Hx _ IH]; intros [|y k]; cbn; try constructor.
  apply Forall_app. split; [destruct (test y); by repeat constructor|apply IH].
Qed.

Lemma safe_native kind args z fs (Q : post Object) :
  0 <= z -> fs <> [] -> Forall known args ->
  (forall o z' fs', known o -> since z fs z' fs' -> Q o z' fs') -> safe (applyExecutorNative sync kind args) z fs Q.
Proof.
  intros Hz Hf Ha HQ.
  assert (forall op (k : list Object -> M W Object) (build : list Object -> list Object -> Object),
    (forall l rs, Forall known l -> Forall known rs -> known (build l rs)) ->
    safe (a ← arrayAndCallback op args;
          match a with inl e => mret e | inr (l, c) => rs ← call_each sync c l 0; mret (build l rs) end) z fs Q) as Hm.
  { intros op k build Hb. op_step. apply safe_arguments; [done| |].
    - intros e He. op_step. apply HQ; [done|apply since_refl].
    - intros l c Hl Hc. op_step. apply safe_call_each; try done. intros rs z1 fs1 Hrs H1. op_step. by apply HQ; [apply Hb|]. }
  destruct kind; cbn [applyExecutorNative].
  - apply (Hm _ (fun _ => panic) (fun _ rs => Array rs)). auto with known.
  - apply (Hm _ (fun _ => panic) (fun l rs => Array (zip l rs ≫= fun e => if IsTruthy e.2 then [e.1] else []))).
    intros l rs Hl _. apply known_array. by apply Forall_zip_left.
  - unfold hoReduce, vmErrorf, infixError.
    assert (forall i, Q (Error i []) z fs) as Hfail by (intros i; apply HQ; [auto with known|apply since_refl]).
    destruct args as [|a [|f [|acc [|? ?]]]]; try solve [op_step; apply Hfail].
    inversion_clear Ha as [|? ? Hka Ha1]. inversion_clear Ha1 as [|? ? Hkf Ha2]. inversion_clear Ha2 as [|? ? Hacc _].
    destruct a; try solve [op_walk; apply Hfail]. destruct f; try solve [op_walk; apply Hfail].
    op_step; [|op_step; apply Hfail]. apply safe_reduce; try done; [exact (known_closure_inv _ _ _ _ Hkf)|exact (known_below _ _ Hka)].
  - apply (Hm _ (fun _ => panic) (fun _ _ => Null)). auto with known.
Qed.

Lemma safe_ask {A} (g : W -> A * W) z fs (Q : post A) :
  (forall w, Q (g w).1 z fs) -> safe (ask_world g) z fs Q.
Proof. intros HQ s Hg Hc <- <-. unfold ask_world. specialize (HQ (world s)). by destruct (g (world s)). Qed.

Lemma safe_callBuiltin addr n z fs (Q : post unit) :
  0 <= n -> n + 1 <= z -> fs <> [] ->
  (forall z' fs', since (z - n) fs z' fs' -> Q tt z' fs') -> safe (callBuiltin p sync addr n) z fs Q.
Proof.
  intros Hn Hz Hf HQ. unfold callBuiltin. do 2 op_step. apply (safe_opened K). intros args Ha _.
  assert (forall o z' fs', known o -> since z fs z' fs' -> safe (v ← get_vals;
      let result := decorateError (p_bc p) (vm_traceback p v) (nil_to_null o) in
      n0 ← get_sp; set_sp (n0 - n - 1);; push result) z' fs' Q) as Hend.
  { intros o z1 fs1 Ho [Hz1 H1]. op_step. cbv zeta. do 3 op_step. apply (safe_push K).
    - apply known_decorated. destruct o; try exact Ho. by apply known_leaf.
    - apply HQ. split; [lia|]. destruct H1 as [[-> ->]|?]; [left; split; [done|lia]|by right]. }
  op_step. destruct (ExecutorNativeKind addr) as [kind|].
  - apply safe_native; [lia|done..|]. intros o z1 fs1 Ho H1. by apply Hend.
  - op_step. intros s Hg Hc <- <-. unfold ask_world. destruct (call_builtin addr args (world s)) as [r w] eqn:E.
    split; [done|]. split; [done|]. destruct r as [o|]; [|apply safe_panic]. apply safe_of_option. intros o' [= <-].
    apply Hend; [by eapply answers_known|apply since_refl].
Qed.
End Callbacks.

Section Typed.
Context {W : Type} {H : Host W} {S : Storage} {C : Cipher} {R : Rendering} {F : Fpu}.
Context (p : Program) (enc : Z -> Z) (K : Origin) `{!HonestStore K} `{!HonestHost K}.
Hypothesis pool_known : Forall (known K) (p_constants p).

#[local] Notation known := (known K).
#[local] Notation safe := (safe (W := W) K).
#[local] Notation post A := (A -> Z -> list Frame -> Prop).

(** A function's stream at rest is typed. *)
Definition fn_typed (fn : CompiledFunction) : Prop :=
  0 <= NumLocals fn /\
  exists l N, Forall instr_ok l /\ fn_Instructions fn = at_rest p enc l /\ zlen (spelled enc l) <= 2 ^ 38 /\
    typed_stream true N (encode l).

Hypothesis typed_K : forall fn, K fn -> fn_typed (fn_obj fn).

Section At.
Context (sync : callee -> list Object -> M W Object) (sync_ok : sync_safe K sync).
Context (before after : list instr) (i : instr) (f : Frame) (rest : list Frame) (z : Z).
Hypothesis Hok : instr_ok i.
Hypothesis Hlen : zlen (spelled enc (before ++ i :: after)) <= 2 ^ 38.
Hypothesis Hpops : Z.of_nat (pops i) <= z.
Hypothesis Hip : f_ip f = Z.of_nat (length (encode before)).

#[local] Notation ip := (Z.of_nat (length (encode before))).
#[local] Notation ins := (at_rest p enc (before ++ i :: after)).
#[local] Notation here := (f :: rest).

(** Where control is after the instruction, and how deep the stack. *)
Inductive goes (z' : Z) (fs' : list Frame) : Prop :=
| goes_on :
    falls i = true -> z' = z - Z.of_nat (pops i) + Z.of_nat (pushes i) ->
    fs' = with_ip f (ip + Z.of_nat (instr_width i) - 1) :: rest -> goes z' fs'
| goes_to t :
    target i = Some t -> z' = z - Z.of_nat (pops i) + match iop i with OpIterNext => 1 | _ => 0 end ->
    fs' = with_ip f (Z.of_nat t - 1) :: rest -> goes z' fs'
| goes_in c :
    iop i = OpCall -> callee_known K c ->
    z' = z - Z.of_nat (operand i 0) + NumLocals (fn_obj (c_fn c)) ->
    fs' = AFrame (c_fn c) (c_free c) (c_id c) (-1) (z - Z.of_nat (operand i 0))
          :: with_ip f (ip + Z.of_nat (instr_width i) - 1) :: rest -> goes z' fs'
| goes_out :
    iop i = OpReturn \/ iop i = OpReturnValue ->
    z' = Z.max 0 (f_bp f - 1) + (if rest then 0 else 1) -> fs' = rest -> goes z' fs'
| goes_stuck :
    iop i = OpCall -> z - Z.of_nat (operand i 0) <= z' -> ended fs' -> goes z' fs'.

Lemma args_one w : iwidths i = [w] -> exists a, iargs i = [a] /\ operand_fits w a.
Proof.
  intros Hw. destruct Hok as [Hl [_ Hf]]. rewrite Hw in Hl, Hf. destruct (iargs i) as [|a [|? ?]]; try done.
  exists a. split; [done|]. by apply (Hf 0%nat).
Qed.

Lemma args_two w v : iwidths i = [w; v] -> exists a b, iargs i = [a; b] /\ operand_fits w a /\ operand_fits v b.
Proof.
  intros Hw. destruct Hok as [Hl [_ Hf]]. rewrite Hw in Hl, Hf. destruct (iargs i) as [|a [|b [|? ?]]]; try done.
  exists a, b. split; [done|]. split; [by apply (Hf 0%nat)|by apply (Hf 1%nat)].
Qed.

Lemma room k : k < Z.of_nat (instr_width i) -> zlen ins <=? ip + k = false.
Proof.
  intros Hk. apply Z.leb_gt. rewrite zlen_rest. pose proof (encode_room before i after).
  unfold instr_width, def_width, iwidths in *. lia.
Qed.

Lemma safe_read16 k off a fs z0 (Q : post Z) :
  off = ip + 1 + Z.of_nat k -> (k + 2 <= nsum (iwidths i))%nat ->
  take 2 (drop k (operands_bytes (iwidths i) (iargs i))) = [a / 256; a mod 256] -> operand_fits 2 a ->
  Q a z0 fs -> safe (readUint16 p ins off) z0 fs Q.
Proof.
  intros -> Hk Hb Ha HQ s Hg Hc <- <-. rewrite (read16 p enc before i after k a) by (done || lia). done.
Qed.

Lemma safe_read8 k off a fs z0 (Q : post Z) :
  off = ip + 1 + Z.of_nat k -> (k + 1 <= nsum (iwidths i))%nat ->
  take 1 (drop k (operands_bytes (iwidths i) (iargs i))) = [a] -> operand_fits 1 a ->
  Q a z0 fs -> safe (readUint8 p ins off) z0 fs Q.
Proof.
  intros -> Hk Hb Ha HQ s Hg Hc <- <-. rewrite (read8 p enc before i after k a) by (done || lia). done.
Qed.

Lemma safe_operand16 op (Q : post Z) :
  iwidths i = [2%nat] ->
  (forall a, iargs i = [a] -> 0 <= a <= 0xFFFF -> Q a z (with_ip f (ip + 2) :: rest)) ->
  safe (operand16 p op ip ins) z here Q /\ safe (operand16_at p op ip ins) z here Q.
Proof.
  intros Hw HQ. destruct (args_one 2 Hw) as (a & Ea & Ha). unfold operand16, operand16_at.
  rewrite (room 2) by (unfold instr_width, def_width; unfold iwidths in Hw; rewrite Hw; simpl; lia).
  split.
  - do 2 op_step. op_step. apply (safe_read16 0 _ a); [lia|by rewrite Hw|by rewrite Hw, Ea|done|].
    op_step. apply safe_set_ip. op_step. by apply HQ.
  - do 2 op_step. op_step. op_step. apply (safe_read16 0 _ a); [lia|by rewrite Hw|by rewrite Hw, Ea|done|].
    op_step. apply safe_set_ip. op_step. by apply HQ.
Qed.

Lemma safe_operand8 op (Q : post Z) :
  iwidths i = [1%nat] ->
  (forall a, iargs i = [a] -> 0 <= a <= 0xFF -> Q a z (with_ip f (ip + 1) :: rest)) ->
  safe (operand8 p op ip ins) z here Q.
Proof.
  intros Hw HQ. destruct (args_one 1 Hw) as (a & Ea & Ha). unfold operand8.
  rewrite (room 1) by (unfold instr_width, def_width; unfold iwidths in Hw; rewrite Hw; simpl; lia).
  do 2 op_step. op_step. apply (safe_read8 0 _ a); [lia|by rewrite Hw|by rewrite Hw, Ea|done|].
  op_step. apply safe_set_ip. op_step. by apply HQ.
Qed.

Lemma enough a b : effect i = (a, b) -> Z.of_nat a <= z.
Proof. intros E. unfold pops in Hpops. by rewrite E in Hpops. Qed.

Lemma with_ip_self : with_ip f (ip + 0) = f.
Proof. rewrite Z.add_0_r, <- Hip. by destruct f. Qed.

Lemma goes_straight a b n z' fs' :
  effect i = (a, b) -> falls i = true -> Z.of_nat (instr_width i) = n + 1 ->
  z' = z - Z.of_nat a + Z.of_nat b -> fs' = with_ip f (ip + n) :: rest -> goes z' fs'.
Proof.
  intros E Hf Hw -> ->. apply goes_on; [done| |rewrite Hw; f_equal; f_equal; lia]. unfold pops, pushes. by rewrite E.
Qed.

(** Every instruction does what its effect says. *)
Ltac types Ei a b :=
  let Ee := fresh "Ee" in
  assert (effect i = (a, b)) as Ee by (unfold effect; by rewrite Ei);
  pose proof (enough _ _ Ee) as Henough; rewrite Ei; cbn [exec_op].
Ltac arrive n :=
  match goal with
  | Ei : iop i = _, Ee : effect i = _ |- goes _ _ =>
      eapply (goes_straight _ _ n); [exact Ee|unfold falls; by rewrite Ei
        |unfold instr_width, def_width; by rewrite Ei|lia|try reflexivity; by rewrite with_ip_self]
  end.
Ltac widths := match goal with Ei : iop i = _ |- _ => unfold iwidths; by rewrite Ei end.

#[local] Notation goal := (safe (exec_op p sync (iop i) ip ins) z here (fun _ => goes)).

Lemma safe_constants op :
  iop i = op -> op ∈ [OpTrue; OpFalse; OpNull; OpBreak; OpContinue] -> goal.
Proof.
  intros Ei Hop. rewrite !elem_of_cons, elem_of_nil in Hop.
  destruct Hop as [->|[->|[->|[->|[->|[]]]]]]; types Ei 0%nat 1%nat; apply (safe_push K); auto with known; arrive 0.
Qed.

Lemma safe_operators op :
  iop i = op -> op ∈ [OpAdd; OpSub; OpMul; OpDiv; OpMod; OpBitAnd; OpBitOr; OpBitXor; OpShiftLeft; OpShiftRight;
                      OpEqual; OpUnEqual; OpGreater; OpGreaterEqual; OpLess; OpLessEqual] -> goal.
Proof.
  intros Ei Hop. rewrite !elem_of_cons, elem_of_nil in Hop.
  repeat (destruct Hop as [->|Hop]; [types Ei 2%nat 1%nat; apply safe_at;
    first [apply (safe_binary K)|apply (safe_comparison K)]; [lia|]; arrive 0|]). done.
Qed.

Lemma safe_unary op : iop i = op -> op ∈ [OpBang; OpMinus; OpBitNot; OpIterInit] -> goal.
Proof.
  intros Ei Hop. rewrite !elem_of_cons, elem_of_nil in Hop.
  destruct Hop as [->|[->|[->|[->|[]]]]]; types Ei 1%nat 1%nat; first [apply (safe_iterInit K)|apply safe_at];
    try first [apply (safe_bang K)|apply (safe_minus K)|apply (safe_bitnot K)]; try lia; arrive 0.
Qed.

Lemma safe_checks op : iop i = op -> op ∈ [OpChkDbg; OpChkSnd] -> goal.
Proof.
  intros Ei Hop. rewrite !elem_of_cons, elem_of_nil in Hop.
  destruct Hop as [->|[->|[]]]; types Ei 0%nat 0%nat; unfold on_ChkDbg, on_ChkSnd; op_step; apply safe_ask; intros w; op_walk; arrive 0.
Qed.

Lemma safe_stack op : iop i = op -> op ∈ [OpPop; OpDup; OpIndex; OpSetIndex; OpCurrentClosure; OpMatchFail] -> goal.
Proof.
  intros Ei Hop. rewrite !elem_of_cons, elem_of_nil in Hop. destruct Hop as [->|[->|[->|[->|[->|[->|[]]]]]]].
  - types Ei 1%nat 0%nat. op_walk. arrive 0.
  - types Ei 1%nat 2%nat. unfold on_Dup. op_step. rewrite (proj2 (Z.leb_gt _ _)) by lia. op_walk. arrive 0.
  - types Ei 2%nat 1%nat. unfold on_Index. do 4 op_step. apply (safe_index K); [done|]. arrive 0.
  - types Ei 3%nat 1%nat. unfold on_SetIndex. do 9 op_step. apply (safe_pop_raw K); [lia|]. intros r c Hc. do 4 op_step.
    apply (safe_set_index K); [done..|]. intros x Hx. op_walk. arrive 0.
  - types Ei 0%nat 1%nat. unfold on_CurrentClosure, currentFrame. op_step. apply safe_get_vals. intros v [? ? ? ? Hf] _ _ E.
    rewrite E in *. inversion_clear Hf as [|? ? [Hfn Hfree] _]. op_walk; [by apply known_closure|]. arrive 0.
  - types Ei 1%nat 0%nat. unfold on_MatchFail. op_walk.
Qed.

(** The first operand, read as the dispatch reads it. *)
Ltac read_operand a Ea Ha :=
  op_step; first [apply safe_operand16; [widths|] | apply safe_operand8; [widths|]]; intros a Ea Ha;
  try (assert (operand i 0 = Z.to_nat a) as Eo by (unfold operand; by rewrite Ea)).

Lemma safe_variables op :
  iop i = op -> op ∈ [OpConstant; OpGetGlobal; OpGetLocal; OpGetBuiltin; OpGetFree; OpGetLocalCell; OpCaptureLocal;
                      OpCaptureFree] -> goal.
Proof.
  intros Ei Hop. rewrite !elem_of_cons, elem_of_nil in Hop.
  destruct Hop as [->|[->|[->|[->|[->|[->|[->|[->|[]]]]]]]]]; types Ei 0%nat 1%nat.
  - unfold on_Constant. read_operand a Ea Ha. do 2 op_step. apply (safe_constantAt p K); [done|]. intros o Ho.
    op_step. arrive 2.
  - unfold on_GetGlobal. read_operand a Ea Ha. do 2 op_step. apply safe_pushGlobal. arrive 2.
  - unfold on_GetLocal. read_operand a Ea Ha. op_step. apply safe_local_slot. intros n. op_walk. arrive 1.
  - unfold on_GetBuiltin. read_operand a Ea Ha. op_step. apply safe_builtinTableIndex. intros n. op_walk. arrive 2.
  - unfold on_GetFree. read_operand a Ea Ha. op_step. apply safe_free_variable. intros o Ho. op_step.
    destruct o; try (op_step; op_walk; arrive 1). apply safe_cell_get. intros x Hx. op_step. arrive 1.
  - unfold on_LocalCell. read_operand a Ea Ha. op_step. apply safe_local_slot. intros n. do 2 op_step.
    destruct o; try solve [op_walk]. op_step. apply safe_cell_get. intros x Hx. op_step. arrive 1.
  - unfold on_LocalCell. read_operand a Ea Ha. op_step. apply safe_local_slot. intros n. do 2 op_step.
    destruct o; try solve [op_walk]. op_step. arrive 1.
  - unfold on_CaptureFree. read_operand a Ea Ha. op_step. apply safe_free_variable. intros o Ho. op_step. arrive 1.
Qed.

Lemma safe_assignments op : iop i = op -> op ∈ [OpSetGlobal; OpSetLocal; OpSetLocalCell; OpSetFree] -> goal.
Proof.
  intros Ei Hop. rewrite !elem_of_cons, elem_of_nil in Hop. destruct Hop as [->|[->|[->|[->|[]]]]]; types Ei 1%nat 0%nat.
  - unfold on_SetGlobal. read_operand a Ea Ha. do 2 op_step. apply safe_setGlobal; [lia|]. arrive 2.
  - unfold on_SetLocal. read_operand a Ea Ha. op_step. apply safe_local_slot. intros n. op_walk. arrive 1.
  - unfold on_LocalCell. read_operand a Ea Ha. op_step. apply safe_local_slot. intros n. do 2 op_step.
    destruct o; try solve [op_walk]. op_walk. arrive 1.
  - unfold on_SetFree. read_operand a Ea Ha. op_step. apply safe_free_variable. intros o Ho.
    destruct o; try solve [op_walk]. op_walk. arrive 1.
Qed.

Lemma safe_builders op : iop i = op -> op ∈ [OpArray; OpConcat; OpHash; OpMultiValue] -> goal.
Proof.
  intros Ei Hop. rewrite !elem_of_cons, elem_of_nil in Hop.
  destruct Hop as [->|[->|[->|[->|[]]]]]; types Ei (operand i 0) 1%nat.
  - unfold on_Array. read_operand a Ea Ha. op_step. apply (safe_gather K); [lia|]. intros l Hl. op_step.
    apply safe_drop_slots; [lia|]. op_walk. arrive 2.
  - unfold on_Concat. read_operand a Ea Ha. op_step. apply (safe_gather K); [lia|]. intros l Hl. op_step.
    apply safe_drop_slots; [lia|]. op_walk. arrive 2.
  - unfold on_Hash. read_operand a Ea Ha. do 2 op_step; [op_walk|]. op_step. op_step. apply (safe_opened K). intros l Hl _.
    op_step. apply (safe_build_pairs K (length l)); [lia|done|by apply known_hash|]. intros h Hh. op_step.
    apply safe_drop_slots; [lia|]. op_step. arrive 2.
  - unfold on_MultiValue. read_operand a Ea Ha. do 2 op_step; [op_walk|]. op_step. apply (safe_opened K). intros l Hl _.
    op_step. apply safe_drop_slots; [lia|]. op_step. arrive 2.
Qed.

Lemma safe_fields op : iop i = op -> op ∈ [OpGetField; OpSetField; OpDestructure] -> goal.
Proof.
  intros Ei Hop. rewrite !elem_of_cons, elem_of_nil in Hop. destruct Hop as [->|[->|[->|[]]]].
  - types Ei 1%nat 1%nat. unfold on_GetField. read_operand a Ea Ha. op_step.
    apply (safe_constantString p K); [done|]. intros name. do 2 op_step. apply (safe_getField K); [done|]. arrive 2.
  - types Ei 2%nat 1%nat. unfold on_SetField. read_operand a Ea Ha. op_step.
    apply (safe_constantString p K); [done|]. intros name. do 3 op_step. apply (safe_pop_raw K); [lia|]. intros r c Hc.
    op_step. assert (forall Q : post unit, Q tt (z - 1 - 1) (with_ip f (ip + 2) :: rest) ->
      safe (match c with
            | Struct _ _ fields => match map_get name fields with Some _ => owned r | None => mret tt end
            | _ => mret tt end) (z - 1 - 1) (with_ip f (ip + 2) :: rest) Q) as Hg.
    { intros Q HQ. destruct c; op_walk. }
    apply Hg. apply (safe_setField K); [done..|]. arrive 2.
  - types Ei 1%nat (operand i 0). unfold on_Destructure. read_operand a Ea Ha. do 2 op_step.
    apply (safe_push_all K); [by apply known_destructure|]. unfold zlen. rewrite length_destructure. arrive 2.
Qed.

Lemma safe_jumps op : iop i = op -> op ∈ [OpJump; OpJumpFalse] -> goal.
Proof.
  intros Ei Hop. rewrite !elem_of_cons, elem_of_nil in Hop.
  assert (forall a, iargs i = [a] -> op = OpJump \/ op = OpJumpFalse -> target i = Some (Z.to_nat a)) as Ht.
  { intros a Ea Ho. unfold target. rewrite Ei. destruct Ho as [->| ->]; cbn; by rewrite Ea. }
  destruct Hop as [->|[->|[]]].
  - types Ei 0%nat 0%nat. unfold on_Jump. read_operand a Ea Ha. apply safe_set_ip.
    eapply goes_to; [by apply Ht; [|left]|unfold pops; rewrite Ee, Ei; cbn; lia|]. cbn. f_equal. unfold with_ip. f_equal. lia.
  - types Ei 1%nat 0%nat. unfold on_JumpFalse. read_operand a Ea Ha. do 3 op_step; [op_step; arrive 2|]. apply safe_set_ip.
    eapply goes_to; [by apply Ht; [|right]|unfold pops; rewrite Ee, Ei; cbn; lia|]. cbn. f_equal. unfold with_ip. f_equal. lia.
Qed.

(** Two operands. *)
Ltac read_operands Ei a b Ha Hb :=
  destruct (args_two 2 1) as (a & b & Eab & Ha & Hb); [widths|];
  assert (iwidths i = [2; 1]%nat) as Ew by widths;
  rewrite (room 3) by (unfold instr_width, def_width; rewrite Ei; cbn; lia); do 3 op_step; try apply safe_at;
  apply (safe_read16 0 _ a); [lia|rewrite Ew; cbn; lia|by rewrite Ew, Eab|done|];
  op_step; try apply safe_at; apply (safe_read8 2 _ b); [lia|rewrite Ew; cbn; lia|by rewrite Ew, Eab|done|];
  assert (operand i 1 = Z.to_nat b) as Eo by (unfold operand; by rewrite Eab).

Lemma safe_pairs op : iop i = op -> op ∈ [OpClosure; OpMakeStruct] -> goal.
Proof.
  intros Ei Hop. rewrite !elem_of_cons, elem_of_nil in Hop.
  destruct Hop as [->|[->|[]]]; types Ei (operand i 1) 1%nat.
  - unfold on_Closure. read_operands Ei a b Ha Hb. op_step. apply safe_set_ip. cbn in Hb. apply (safe_pushClosure p K); [done|lia|].
    arrive 3.
  - unfold on_MakeStruct. read_operands Ei a b Ha Hb. op_step. apply safe_set_ip. op_step.
    apply (safe_constantString p K); [done|]. intros name. cbn in Hb. apply (safe_makeStruct p K); [lia|]. arrive 3.
Qed.

Lemma safe_enum : iop i = OpEnumValue -> goal.
Proof.
  intros Ei. types Ei 0%nat 1%nat. unfold on_EnumValue.
  destruct (args_two 2 2) as (a & b & Eab & Ha & Hb); [widths|]. assert (iwidths i = [2; 2]%nat) as Ew by widths.
  rewrite (room 4) by (unfold instr_width, def_width; rewrite Ei; cbn; lia). do 2 op_step. op_step.
  apply (safe_read16 0 _ a); [lia|rewrite Ew; cbn; lia|by rewrite Ew, Eab|done|]. op_step.
  apply (safe_read16 2 _ b); [lia|rewrite Ew; cbn; lia|by rewrite Ew, Eab|done|]. op_step. apply safe_set_ip. op_step.
  apply (safe_constantString p K); [done|]. intros name. op_step. apply (safe_constantString p K); [done|]. intros tag.
  apply (safe_enumValue p K). arrive 4.
Qed.

Lemma safe_iterNext : iop i = OpIterNext -> goal.
Proof.
  intros Ei. types Ei 1%nat (if (operand i 1 =? 2)%nat then 3 else 2)%nat. unfold iterNext. read_operands Ei a b Ha Hb.
  op_step. apply safe_set_ip. apply safe_get_vals. intros v Hg _ Hz Hf. rewrite Hz, (proj2 (Z.ltb_ge _ _)) by lia.
  destruct (stack v !!! Z.to_nat (z - 1)); try solve [op_walk]. do 2 op_step.
  assert (cursor_known K a0) as Hc by (eapply Forall_lookup_1; [exact (good_cursors _ _ Hg)|done]).
  destruct (Next a0) as [[[[key value] it']|]|] eqn:En; [|apply safe_set_ip|op_walk].
  - destruct (known_next K _ _ _ _ Hc En) as (Hk & Hv & Hc'). op_step. apply safe_cursor_set; [done|]. cbn in Hb.
    rewrite Eo in Ee. destruct (Z.eqb_spec b 2) as [->|Hne].
    + do 3 op_step. arrive 3.
    + rewrite (proj2 (Nat.eqb_neq _ _)) in Ee by lia.
      op_step; [unfold Primary; by destruct (KeyIsPrimary a0)|]. arrive 3.
  - apply (goes_to _ _ (Z.to_nat a)); [unfold target; rewrite Ei; cbn; by rewrite Eab|unfold pops; rewrite Ee, Ei; cbn; lia|].
    cbn. f_equal. unfold with_ip. f_equal. cbn in Ha. lia.
Qed.

Lemma safe_return o z0 (Q : post unit) :
  known o -> Q tt (Z.max 0 (f_bp f - 1) + (if rest then 0 else 1)) rest -> safe (return_with o) z0 here Q.
Proof.
  intros Ho HQ. unfold return_with, popFrame, settleProgramResult. op_step. apply safe_get_vals. intros v [? ? ? ? Hf] [Hsp Hbs] Hz E.
  rewrite E in *. inversion_clear Hf. inversion_clear Hbs. op_step. apply safe_set_vals; [by split|by split|]. cbn [with_frames sp frames]. do 5 op_step.
  apply safe_get_vals. intros v' _ _ Hz' Hf'. rewrite Hz', Hf'. destruct rest as [|g rest']; cbn [bool_decide andb].
  - rewrite bool_decide_eq_true_2, (proj2 (Z.ltb_lt _ _)) by (done || lia). cbn. op_step. safe_done.
  - rewrite bool_decide_eq_false_2 by done. cbn. op_step. safe_done.
Qed.

Lemma safe_returns op : iop i = op -> op ∈ [OpReturn; OpReturnValue] -> goal.
Proof.
  intros Ei Hop. rewrite !elem_of_cons, elem_of_nil in Hop. destruct Hop as [->|[->|[]]].
  - types Ei 0%nat 0%nat. apply safe_return; [auto with known|]. by apply goes_out; [left|..].
  - types Ei 1%nat 0%nat. unfold on_ReturnValue. do 2 op_step. apply safe_return; [done|]. by apply goes_out; [right|..].
Qed.

Lemma safe_execCall n fs (Q : post unit) :
  0 <= n -> n + 1 <= z -> fs <> [] ->
  (forall c, callee_known K c -> Q tt (z - n + NumLocals (fn_obj (c_fn c)))
     (AFrame (c_fn c) (c_free c) (c_id c) (-1) (z - n) :: fs)) ->
  (forall z' fs', since (z - n) fs z' fs' -> Q tt z' fs') ->
  safe (execCall p sync n) z fs Q.
Proof.
  intros Hn Hz Hf Hin Hout. unfold execCall. apply safe_get_vals. intros v [Hs ? ? ? ?] _ Ez _. rewrite Ez. op_step; [op_walk|].
  pose proof (known_total K _ (Z.to_nat (z - 1 - n)) Hs) as Ho.
  destruct (stack v !!! Z.to_nat (z - 1 - n)); try solve [op_walk].
  - destruct (known_closure_inv _ _ _ _ Ho). apply safe_callClosure; [done..|cbn; lia|by apply typed_K|]. by apply Hin.
  - by apply (safe_callBuiltin p K sync sync_ok).
Qed.

Lemma safe_call : iop i = OpCall -> goal.
Proof.
  intros Ei. types Ei (Datatypes.S (operand i 0)) 1%nat. unfold on_Call.
  destruct (args_one 1) as (a & Ea & Ha); [widths|]. assert (operand i 0 = Z.to_nat a) as Eo by (unfold operand; by rewrite Ea).
  assert (iwidths i = [1%nat]) as Ew by widths. cbn in Ha.
  assert (Z.of_nat (instr_width i) = 2) as Ewd by (unfold instr_width, def_width; by rewrite Ei).
  rewrite (room 1) by lia. do 4 op_step. apply (safe_read8 0 _ a); [lia|by rewrite Ew|by rewrite Ew, Ea|done|]. op_step.
  apply safe_set_ip. op_step. apply safe_execCall; [lia..|done| |].
  - intros c Hc. eapply goes_in; [done|exact Hc|rewrite Eo; f_equal; lia|].
    rewrite Eo, Ewd, Z2Nat.id by lia. f_equal. f_equal. f_equal. lia.
  - intros z' fs' [Hle [[-> ->]|Hst]]; [arrive 1|]. apply goes_stuck; [done|lia|done].
Qed.

Ltac listed := solve [repeat first [apply list_elem_of_here | apply list_elem_of_further]].

Lemma safe_exec : goal.
Proof.
  destruct (iop i) eqn:Ei; rewrite <- Ei;
    first [ by apply safe_call | by apply safe_iterNext | by apply safe_enum
          | eapply safe_constants; [exact Ei|listed]
          | eapply safe_operators; [exact Ei|listed]
          | eapply safe_unary; [exact Ei|listed]
          | eapply safe_checks; [exact Ei|listed]
          | eapply safe_stack; [exact Ei|listed]
          | eapply safe_variables; [exact Ei|listed]
          | eapply safe_assignments; [exact Ei|listed]
          | eapply safe_builders; [exact Ei|listed]
          | eapply safe_fields; [exact Ei|listed]
          | eapply safe_jumps; [exact Ei|listed]
          | eapply safe_pairs; [exact Ei|listed]
          | eapply safe_returns; [exact Ei|listed] ].
Qed.
End At.

(* ------------------------------------------------------------------ *)
(** ** Where the machine stands *)

Hypothesis undoes : forall op, decodeOpcode p (enc (opcode_byte op)) = opcode_byte op.

(** A frame is about to run an instruction of its typed stream at depth [d]. *)
Definition resting (f : Frame) (d : nat) : Prop :=
  -1 <= f_ip f /\
  exists l N D e, Forall instr_ok l /\ frame_ins f = at_rest p enc l /\ zlen (spelled enc l) <= 2 ^ 38 /\
    stream true N (encode l) D ∅ e /\ D !! Z.to_nat (f_ip f + 1) = Some d.

Definition locals (f : Frame) : Z := NumLocals (fn_obj (f_fn f)).

(** The stack above a frame's base is its locals and the operands its typing
    promises. *)
Definition at_depth (f : Frame) (z : Z) : Prop :=
  0 <= locals f /\ exists d, resting f d /\ z = f_bp f + locals f + Z.of_nat d.

(** The frames above those a call was made from, the outermost one's base at
    [b]: each caller goes on where its callee's result will lie. *)
Fixpoint laid (b : Z) (fs : list Frame) (z : Z) : Prop :=
  match fs with
  | [] => False
  | f :: rest =>
      at_depth f z /\
      match rest with [] => f_bp f = b | _ => 1 <= f_bp f /\ laid b rest (f_bp f) end
  end.

Definition based (b : Z) (bottom : list Frame) : Prop := bottom = [] /\ b = 0 \/ bottom <> [] /\ 1 <= b.

Lemma at_depth_base f z : at_depth f z -> f_bp f <= z.
Proof. intros (Hl & d & _ & ->). lia. Qed.

Lemma laid_base b f fs z : laid b (f :: fs) z -> b <= f_bp f.
Proof.
  revert f z. induction fs as [|g fs IH]; intros f z; cbn [laid]; [intros [_ ->]; lia|].
  intros (_ & _ & Hg). pose proof (IH _ _ Hg). destruct Hg as [Hg _]. apply at_depth_base in Hg. lia.
Qed.

Lemma laid_move b f f' fs z z' :
  laid b (f :: fs) z -> f_bp f' = f_bp f -> at_depth f' z' -> laid b (f' :: fs) z'.
Proof. intros [_ Hr] Eb Hd. cbn [laid]. rewrite Eb. by split. Qed.

Lemma fresh_frame c bp z :
  K (c_fn c) -> z = bp + NumLocals (fn_obj (c_fn c)) -> at_depth (AFrame (c_fn c) (c_free c) (c_id c) (-1) bp) z.
Proof.
  intros (Hn & l & N & Hl & Hi & Hs & D & e & Ht & H0)%typed_K ->. split; [done|]. exists 0%nat.
  split; [|unfold locals; cbn; lia]. split; [cbn; lia|]. by exists l, N, D, e.
Qed.

(** The instruction a frame is about to run, and where it may go. *)
Lemma resting_instr f d :
  resting f d -> f_ip f < zlen (frame_ins f) - 1 ->
  exists A i B, frame_ins f = at_rest p enc (A ++ i :: B) /\ f_ip f + 1 = Z.of_nat (length (encode A)) /\
    instr_ok i /\ zlen (spelled enc (A ++ i :: B)) <= 2 ^ 38 /\ (pops i <= d)%nat /\
    (falls i = true -> resting (with_ip f (f_ip f + Z.of_nat (instr_width i))) (depth_after i d)) /\
    (forall t, target i = Some t -> resting (with_ip f (Z.of_nat t - 1)) (depth_jumped i d)).
Proof.
  intros [Hip (l & N & D & e & Hl & Hi & Hs & Ht & Hd)] Hlt.
  destruct Ht as (l' & Hok & E & He & Hstarts & Hat & HP). apply encode_inj in E as <-; [|done..].
  destruct (Hstarts (Z.to_nat (f_ip f + 1))) as [Hend|[i Hati]]; [by eexists| |].
  { rewrite Hi, zlen_rest in Hlt. lia. }
  pose proof Hati as (A & B & -> & Hpos). destruct (Hat _ _ Hati) as (d' & Hd' & Hp & Hf & Hj & _).
  assert (d' = d) as -> by congruence. exists A, i, B.
  assert (instr_ok i) by (apply Forall_app in Hl as [_ HB]; by inversion_clear HB).
  pose proof (instr_width_pos i) as Hw.
  split_and!; [done|lia|done|done|by apply Hp|..].
  - intros Hfa. specialize (Hf Hfa). split; [cbn; lia|]. exists (A ++ i :: B), N, D, e.
    split_and!; [done|done|done|by exists (A ++ i :: B)|]. cbn [f_ip with_ip].
    replace (Z.to_nat (f_ip f + Z.of_nat (instr_width i) + 1)) with (Z.to_nat (f_ip f + 1) + instr_width i)%nat by lia. done.
  - intros t Htg. specialize (Hj t Htg). rewrite lookup_empty in Hj. destruct Hj as (dt & Hdt & Eq). rewrite Eq in Hdt by done.
    split; [cbn; lia|]. exists (A ++ i :: B), N, D, e. split_and!; [done|done|done|by exists (A ++ i :: B)|].
    cbn [f_ip with_ip]. replace (Z.to_nat (Z.of_nat t - 1 + 1)) with t by lia. done.
Qed.

(** Where an instruction leaves the machine. *)
Definition arrived (b : Z) (bottom : list Frame) (z : Z) (fs : list Frame) : Prop :=
  (exists top, fs = top ++ bottom /\ laid b top z) \/
  (fs = bottom /\ z = (if bottom then 0 else b)) \/
  (ended fs /\ b <= z).


Lemma step_is_safe sync b bottom f top z :
  sync_safe K sync -> based b bottom -> laid b (f :: top) z -> f_ip f < zlen (frame_ins f) - 1 ->
  safe (step p sync) z (f :: top ++ bottom) (fun _ => arrived b bottom).
Proof.
  intros Hsync Hb Hlaid Hlt. pose proof (laid_base _ _ _ _ Hlaid) as Hbase. pose proof Hlaid as [(Hloc & d & Hr & Ez) Htop].
  destruct (resting_instr _ _ Hr Hlt) as (A & i & B & Hins & Hip & Hok & Hlen & Hp & Hnext & Hjump).
  assert (0 <= b) as Hb0 by (destruct Hb as [[_ ->]|[_ ?]]; lia).
  unfold step. op_step. apply safe_probes. op_step. apply safe_currentFrame. op_step. apply safe_set_ip. do 4 op_step. cbv zeta.
  rewrite Hins, Hip. pose proof (opcode_at_rest p enc undoes A i B Hlen) as Hop. unfold zlen at 1 in Hop.
  rewrite length_spelled in Hop. rewrite Hop, opcode_of_byte_byte.
  eapply safe_mono.
  { apply (safe_exec sync Hsync A B i); [done|done|lia|cbn; lia]. }
  intros [] z' fs' Hg. destruct Hg as [Hf -> ->|t Ht -> ->|c Ec Hc -> ->|Ei -> ->|Ec Hz Hst].
  - left. exists (with_ip f (f_ip f + Z.of_nat (instr_width i)) :: top). split.
    + cbn. f_equal. unfold with_ip. f_equal. lia.
    + eapply laid_move; [exact Hlaid|done|]. split; [done|]. eexists. split; [by apply Hnext|].
      unfold depth_after, locals in *. cbn. lia.
  - left. exists (with_ip f (Z.of_nat t - 1) :: top). split; [done|].
    eapply laid_move; [exact Hlaid|done|]. split; [done|]. eexists. split; [by apply Hjump|].
    unfold depth_jumped, locals in *. cbn. destruct (iop i); lia.
  - assert (pops i = Datatypes.S (operand i 0)) as Epop by (unfold pops, effect; by rewrite Ec).
    assert (pushes i = 1%nat) as Epush by (unfold pushes, effect; by rewrite Ec).
    left. eexists (_ :: with_ip f (f_ip f + Z.of_nat (instr_width i)) :: top). split.
    + cbn. f_equal. f_equal. unfold with_ip. f_equal. lia.
    + split; [by apply fresh_frame; [apply Hc|]|]. cbn [f_bp]. split; [lia|].
      eapply laid_move; [exact Hlaid|done|]. split; [done|]. eexists. split; [apply Hnext; unfold falls; by rewrite Ec|].
      unfold depth_after, locals in *. cbn. lia.
  - destruct top as [|g top].
    + right. left. split; [done|]. cbn. rewrite Htop. destruct Hb as [[-> ->]|[Hne Hb1]]; [done|].
      destruct bottom; [done|]. lia.
    + left. exists (g :: top). split; [done|]. destruct Htop as [Hb1 Htop]. cbn [app].
      replace (Z.max 0 _ + 1) with (f_bp f) by (cbn; lia). exact Htop.
  - right. right. split; [done|].
    assert (pops i = Datatypes.S (operand i 0)) as Epop by (unfold pops, effect; by rewrite Ec). lia.
Qed.

(** A callback, over a loop that is safe. *)
Lemma safe_sync loop :
  (forall b bottom top z, based b bottom -> laid b top z ->
     safe (loop (length bottom)) z (top ++ bottom) (fun _ z' fs' =>
       (fs' = bottom /\ z' = (if bottom then 0 else b)) \/ (ended fs' /\ b <= z'))) ->
  sync_safe K (CallClosureSync p loop).
Proof.
  intros Hloop c args z fs Q Hz Hf [Hc Hfree] Hargs HQ. unfold CallClosureSync.
  assert (forall A (m : M W A) z fs (Q : post A), safe m z fs Q -> safe (restoring m) z fs Q) as Hrestore.
  { intros A m z0 fs0 Q0 Hm s Hg Hc0 E1 E2. specialize (Hm s Hg Hc0 E1 E2). unfold restoring. destruct (m s) as [[] s']; try done.
    destruct Hm as [[[_ Hbs] Hr] _]. split; [|done]. split; [|exact Hr]. split; [apply Hc0|]. by apply Forall_drop. }
  assert (forall A (m : M W A) z fs (Q : post A), safe m z fs Q -> safe (contain p m) z fs Q) as Hcontain.
  { intros A m z0 fs0 Q0 Hm s Hg Hc0 E1 E2. specialize (Hm s Hg Hc0 E1 E2). unfold contain.
    destruct (m s) as [[] s']; destruct Hm as [[Hfl Hr] Hok]; try done. split; [|done]. split; [done|]. apply not_elem_of_cons. by split. }
  apply Hrestore. apply safe_get_vals. intros v _ _ Ez Ef. rewrite Ez, Ef. do 2 op_step.
  op_step. apply (safe_push_all K); [done|]. op_step. apply safe_callClosure; [done..|lia|by apply typed_K|]. op_step. apply Hcontain.
  eapply safe_mono.
  { apply (Hloop (z + 1) fs [_]); [right; split; [done|lia]|]. split; [|cbn; lia]. apply fresh_frame; [done|]. cbn. lia. }
  intros [] z' fs' Hend. op_step.
  assert (z < z' /\ (fs' = fs /\ z' - 1 = z \/ ended fs')) as [Hlt Hs].
  { destruct Hend as [[-> ->]|[He Hle]]; [|split; [lia|by right]]. destruct fs; [done|]. split; [lia|left; split; [done|lia]]. }
  rewrite (proj2 (Z.leb_gt _ _)) by lia. op_step. apply HQ; [done|]. split; [lia|done].
Qed.

Lemma safe_run fuel b bottom z fs :
  based b bottom -> arrived b bottom z fs ->
  safe (run p fuel (length bottom)) z fs (fun _ z' fs' =>
    (fs' = bottom /\ z' = (if bottom then 0 else b)) \/ (ended fs' /\ b <= z')).
Proof.
  revert b bottom z fs. induction fuel as [|fuel IH]; intros b bottom z fs Hb Ha; [by intros s|].
  cbn [run]. apply safe_get_vals. intros v _ _ _ Ef.
  destruct (running (length bottom) v) eqn:Er.
  - unfold running in Er. rewrite Ef in Er. destruct fs as [|f fs]; [done|].
    apply andb_prop in Er as [Hn%Nat.ltb_lt Hlt%Z.ltb_lt].
    destruct Ha as [(top & E & Hl)|[[E _]|[He _]]]; [|rewrite E in Hn; lia|cbn in He; lia].
    destruct top as [|g top]; [done|]. injection E as <- ->. op_step. eapply safe_mono.
    + apply step_is_safe; try done. apply safe_sync. intros b' bottom' top' z0 Hb' Hl'. apply IH; [done|]. left. by exists top'.
    + intros [] z' fs' Ha. by apply IH.
  - op_step. destruct Ha as [(top & E & Hl)|[Hd|He]]; [|by left|by right]. right.
    destruct top as [|f top]; [done|]. unfold running in Er. rewrite Ef, E in Er. cbn in Er.
    rewrite length_app, (proj2 (Nat.leb_le _ _)) in Er by lia.
    apply Z.ltb_ge in Er. subst fs. split; [done|].
    pose proof (laid_base _ _ _ _ Hl). destruct Hl as [Hl _]. apply at_depth_base in Hl. lia.
Qed.

(** The machine [New] builds. *)
Lemma New_good globals (w : W) :
  K (main_fn p) -> Forall known globals -> good K (vals (New p globals w)).
Proof.
  intros Hm Hg. unfold New. destruct (nextSweepInterval _) as [n j]. split; cbn; try done.
  - apply Forall_replicate. auto with known.
  - by repeat constructor.
Qed.

Lemma New_calm globals (w : W) : calm (New p globals w).
Proof.
  unfold New. destruct (nextSweepInterval _) as [n j]. split; [|apply not_elem_of_nil]. split; cbn; [lia|].
  by repeat constructor.
Qed.

Lemma New_laid globals (w : W) :
  K (main_fn p) -> let v := vals (New p globals w) in laid 0 (frames v) (sp v).
Proof.
  intros Hm. unfold New. destruct (nextSweepInterval _) as [n j]. cbn. split; [|done].
  by apply (fresh_frame (Callee (main_fn p) [] None) 0 0).
Qed.

(** No fault, in the program or in a callback.  A callback's loop contains its
    faults ([containFault]) and hands on an error like any other; but it records
    each under the stage "vm-decode", and nothing else is recorded there. *)
Definition faultless {A} (r : result A) (s : VM W) : Prop := (forall m, r <> Faulted m) /\ "vm-decode" ∉ recorded s.

(** What the end of a run that was not cut short looks like. *)
Definition run_over (v : Values) : Prop := (frames v = [] /\ sp v = 0) \/ (ended (frames v) /\ 0 <= sp v).

Lemma typed_run fuel globals (w : W) :
  K (main_fn p) -> Forall known globals ->
  let '(r, s) := run p fuel 0 (New p globals w) in
  faultless r s /\ floored (vals s) /\ (r = Ok tt -> run_over (vals s)).
Proof.
  intros Hm Hg. pose proof (safe_run fuel 0 [] (sp (vals (New p globals w))) (frames (vals (New p globals w)))) as Hr.
  specialize (Hr ltac:(by left)). specialize (Hr ltac:(left; exists (frames (vals (New p globals w))); split; [by rewrite app_nil_r|by apply New_laid])).
  specialize (Hr _ (New_good globals w Hm Hg) (New_calm globals w) eq_refl eq_refl). cbn [length] in Hr.
  destruct (run p fuel 0 _) as [r s']. destruct Hr as [[Hfl Hrec] Hr].
  split; [split; [by intros m ->|done]|]. split; [done|]. intros ->. by destruct Hr.
Qed.
End Typed.
