(* ===== verification/CompiledRuns.v ===== *)
(** * Compiled programs never fault

    The code generator's invariant ([CompilerFacts.v]) and the machine's
    ([VmSafety.v]) meet here: what [Compiler.ByteCode] hands on, sealed by
    [EncryptByteCode], runs on the machine without a fault.  [fault.go] states it as
    the reason the machine may treat a fault as its own bug. *)

From stdpp Require Import base list list_numbers numbers gmap strings.
From Stdlib Require Import ZArith Lia.
From S2P Require Import Prelude Code Stream LineTable Polymorphic Padding Mutation StackTyping Link Lexer Index Float64 Sha256.
From S2P Require Import SymbolTable Ast Compiler CompilerLogic CompilerFacts Compiled.
From S2P Require Import Object HashOrder Numeric Equality Keystream Seal Traceback Machine Operations Vm VmFacts VmLogic VmSafety.

(** The program of a machine: the bytecode with its stream and pool sealed. *)
Definition shipped `{Cipher} `{Gob} (bc : ByteCode) (pool : list Object) (password : list Z) (secure enforce : bool)
    (table : list nat) : Program :=
  let '(ins, pool) := EncryptByteCode (Instructions bc) pool password in
  Prog (BC ins (imap pool_entry_of pool) (StructDefs bc) (EnumDefs bc) (LuaPatches bc) (Version bc) (BuiltinNames bc)
           (OpcodeMap bc) (SourceFile bc) (bc_LineTable bc) (bc_MacroTable bc) (bc_EndTable bc) (SourceText bc)
           (ModuleSpans bc) (bc_GlobalNames bc) (legacyRegistry bc))
       pool (effective_password (Instructions bc) password) secure enforce table.

(** The key the runtime makes for it, and the functions it has. *)
Definition runtime_key `{Cipher} (p : Program) : sealKey :=
  SealKey (inslen p) (p_password p) (Some (instructionStream p)).

Definition functions_of (p : Program) (f : FnPtr) : Prop :=
  fn_obj f = fn_obj (main_fn p) \/ exists g, CompiledFn g ∈ p_constants p /\ fn_obj f = fn_obj g.

Definition origin_of `{Cipher} `{Gob} (p : Program) : Origin := under_key (runtime_key p) (functions_of p).

Section Shipped.
Context {C : Cipher} {G : Gob}.
Context (bc : ByteCode) (pool : list Object) (password : list Z) (secure enforce : bool) (table : list nat).

#[local] Notation p := (shipped bc pool password secure enforce table).
#[local] Notation n := (zlen (Instructions bc)).
#[local] Notation secret := (effective_password (Instructions bc) password).

Hypothesis main_fits : zlen (Instructions bc) <= 2 ^ 38.
Hypothesis pool_fits : Forall stream_fits pool.

Lemma shipped_inslen : inslen p = n.
Proof. unfold inslen, shipped, EncryptByteCode. cbn. apply sealed_stream_length. Qed.

Lemma shipped_stream : instructionStream p = NewXORStream n secret.
Proof. unfold instructionStream. by rewrite shipped_inslen. Qed.

Lemma shipped_key : key_ok (runtime_key p).
Proof.
  unfold key_ok, runtime_key, seed. cbn [sk_stream sk_length sk_password]. rewrite shipped_stream, shipped_inslen.
  rewrite i64_id; [done|]. unfold is_i64, zlen in *. lia.
Qed.

Lemma rest_of ins l : ins = encode l -> default ins (SecureXOR ins n secret) = at_rest p id l.
Proof. intros ->. rewrite seal_stream. unfold at_rest. f_equal. symmetry. apply shipped_stream. Qed.

Lemma typed_at_rest N fn ins :
  typed_stream true N ins -> zlen ins <= 2 ^ 38 -> 0 <= NumLocals fn ->
  fn_Instructions fn = default ins (SecureXOR ins n secret) -> fn_typed p id fn.
Proof.
  intros Ht Hs Hn Hi. split; [done|]. pose proof Ht as (D & d & (l & Hl & E & _) & _). exists l, N.
  split_and!; [done|by rewrite Hi; apply rest_of|change (spelled id l) with (encode l); by rewrite <- E|by rewrite <- E].
Qed.

Lemma shipped_typed N :
  typed_stream true N (Instructions bc) -> Forall (object_ok true N) pool ->
  forall fn, functions_of p fn -> fn_typed p id (fn_obj fn).
Proof.
  intros Hm Hp fn [->|(g & Hg & ->)].
  - by eapply typed_at_rest; [exact Hm|done| |].
  - unfold shipped, EncryptByteCode in Hg. cbn in Hg. apply list_elem_of_fmap in Hg as (o & Eg & Ho).
    rewrite Forall_forall in Hp, pool_fits. specialize (Hp o Ho). specialize (pool_fits o Ho).
    destruct o as [| | | | |s| | | | | | | |f| | | | | | | | |]; try done; cbn [seal_constant] in Eg.
    { cbn in Eg. by destruct (xorPayload _ s). }
    injection Eg as ->. destruct Hp as [Ht Hn]. eapply typed_at_rest; [exact Ht|done| |apply seal_fn_stream].
    unfold seal_fn. by destruct (SecureXOR _ _ _).
Qed.

Lemma shipped_known N : Forall (object_ok true N) pool -> Forall (known (origin_of p)) (p_constants p).
Proof.
  intros Hp. apply Forall_forall. intros o Ho.
  assert (forall g, o = CompiledFn g -> known (origin_of p) o) as Hfn.
  { intros g ->. apply known_leaf; [done..|]. right. by exists g. }
  unfold shipped, EncryptByteCode in Ho. cbn in Ho. apply list_elem_of_fmap in Ho as (c & -> & Hc).
  rewrite Forall_forall in Hp. specialize (Hp c Hc). destruct c; try done; cbn [seal_constant] in *.
  - cbn. destruct (xorPayload _ Value); cbn; [by apply known_wrap|auto with known].
  - by eapply Hfn.
Qed.
End Shipped.

(** C12: Typed code never faults.  Over any storage and any host that bring the
    machine no function but the program's, a program whose functions, main one
    included, have typed streams at rest (sealed, under any permutation of the
    opcodes its table undoes) runs, for every number of instructions, without a
    fault: no pop finds the stack empty and no return finds no frame, and not in a
    callback either, where the fault would be contained and handed on as an error
    but recorded as "vm-decode".  However the run ends, the stack pointer and the
    frames' bases are not below the stack; and when it ends with success either the
    program returned, with nothing left on the stack, or it reached the end of a
    stream.  (The run may end with an error of the program or a panic; the model also
    stops, with [Shared], at a write into a container that could not be opened.) *)
Theorem typed_programs_never_fault {W : Type} `{Host W} `{Storage} `{Cipher} `{Rendering} `{Fpu}
    (p : Program) (enc : Z -> Z) (K : Origin) (fuel : nat) (globals : list Object) (w : W) :
  HonestStore K -> HonestHost K -> Forall (known K) (p_constants p) -> Forall (known K) globals ->
  (forall op, Machine.decodeOpcode p (enc (opcode_byte op)) = opcode_byte op) ->
  (forall fn, K fn -> fn_typed p enc (fn_obj fn)) -> K (main_fn p) ->
  let '(r, s) := run p fuel 0 (Vm.New p globals w) in
  faultless r s /\ floored (vals s) /\ (r = Ok tt -> run_over (vals s)).
Proof. intros HS HH Hp Hg Hu Ht Hm. by apply (typed_run p enc K). Qed.

(** C2: Compiled programs never fault.  A compiler built by any sequence of lines,
    modules and programs (none with a folded assignment whose value leaves a loop)
    hands its bytecode on; sealed by [EncryptByteCode] under any password and put in
    a machine over the runtime's storage, with any host whose builtins answer no
    function the program does not have, it runs for any number of instructions
    without a fault: no pop with nothing on the stack, no return from no frame, in
    the program or, where it would be contained but recorded, in a callback.  However
    the run ends, with success, an error of the program, a panic or (in the model) a
    write into a container that could not be opened, the stack pointer and the
    frames' bases are not below the stack; and a run that succeeded has returned,
    leaving nothing on the stack, or stands at the end of a stream. *)
Theorem compiled_programs_never_fault {W : Type} `{Host W} `{Cipher} `{Gob} `{Rendering} `{Fpu}
    (builtins : list string) (draw : nat -> option Z) (c c' : Compiler) (file source : list Z) (spans : list ModuleSpan)
    (bc : ByteCode) (password : list Z) (secure enforce : bool) (table : list nat) (fuel : nat)
    (globals : list Object) (w : W) :
  built true builtins draw c -> ByteCode_ file source spans c = (Accept bc, c') ->
  zlen (Instructions bc) <= 2 ^ 38 -> Forall stream_fits (constants c') ->
  let p := shipped bc (constants c') password secure enforce table in
  let S := sealed (runtime_key p) in
  HonestGob (origin_of p) -> HonestHost (origin_of p) -> Forall (known (origin_of p)) globals ->
  let '(r, s) := run p fuel 0 (Vm.New p globals w) in
  faultless r s /\ floored (vals s) /\ (r = Ok tt -> run_over (vals s)).
Proof.
  intros Hc E Hm Hf p S HG HH Hg. pose proof (ByteCode_wp true file source spans c (built_idle _ _ _ _ Hc)) as Hw.
  unfold wp in Hw. rewrite E in Hw. destruct Hw as ([Ht _] & EC & Emap & Hpool).
  rewrite EC, length_imap in Ht.
  apply (typed_run p id (origin_of p) (HonestStore0 := sealed_honest _ _ (shipped_key bc _ password secure enforce table Hm))).
  - by eapply shipped_known.
  - by eapply shipped_typed.
  - intros op. unfold Machine.decodeOpcode, p, shipped. cbn. by rewrite Emap.
  - by left.
  - done.
Qed.

(* ------------------------------------------------------------------ *)
(** ** A program, from its tree to its result *)

Module Sample.
#[local] Existing Instances counting_cipher sample_gob no_cells quiet_fpu.
#[local] Existing Instance VmFacts.Sample.host.

Lemma gob_is_honest K : HonestGob K.
Proof. intros i r x i' r' _ E _. cbn in E. by injection E as _ <-. Qed.

Lemma host_is_honest K : HonestHost K.
Proof. intros addr args v o v' _ E. cbn in E. injection E as <- _. by apply known_leaf. Qed.

Definition code : option (ByteCode * list Object) :=
  match ByteCode_ [] [] [] (compiled_from summing) with
  | (Accept bc, c) => Some (bc, constants c)
  | _ => None
  end.

Definition bc : ByteCode := Eval vm_compute in from_option fst (bare_program [] [] [] [] []) code.
Definition pool : list Object := Eval vm_compute in from_option snd [] code.

(** [summing] of [Compiled.v]: its last expression is [add(5)] after [add(1)]. *)
Definition program : Program := shipped bc pool [112] true false [].
#[local] Instance storage : Storage := sealed (runtime_key program).

Example summed :
  let r := Vm.Run program 100 (Vm.New program [] tt) in
  (r.1, LastPoppedStackElement (vals r.2)) = (Ok tt, Some (Integer 6)).
Proof. vm_compute. reflexivity. Qed.

Lemma bc_is_built : exists c', ByteCode_ [] [] [] (compiled_from summing) = (Accept bc, c') /\ constants c' = pool.
Proof.
  destruct (ByteCode_ [] [] [] (compiled_from summing)) as [r c'] eqn:E. exists c'.
  assert ((ByteCode_ [] [] [] (compiled_from summing)).1 = Accept bc) as E1 by (vm_compute; reflexivity).
  assert (constants (ByteCode_ [] [] [] (compiled_from summing)).2 = pool) as E2 by (vm_compute; reflexivity).
  rewrite E in E1, E2. split; [exact (f_equal (fun a => (a, c')) E1)|exact E2].
Qed.

Lemma pool_is_ok : typed_stream true (length pool) (Instructions bc) /\ Forall (object_ok true (length pool)) pool.
Proof.
  destruct bc_is_built as (c' & E & Ep).
  assert (built true [] no_draws (compiled_from summing)) as Hb by (apply built_sample; vm_compute; reflexivity).
  pose proof (ByteCode_wp true [] [] [] _ (built_idle _ _ _ _ Hb)) as Hw.
  unfold wp in Hw. rewrite E in Hw. destruct Hw as ([Ht _] & EC & _ & Hpool). rewrite EC, length_imap, Ep in Ht.
  rewrite Ep in Hpool. exact (conj Ht Hpool).
Qed.

Lemma pool_fits : zlen (Instructions bc) <= 2 ^ 38 /\ Forall stream_fits pool.
Proof. split; [vm_compute; discriminate|]. repeat constructor; vm_compute; discriminate. Qed.

Lemma typed_programs_never_fault_witness :
  let '(r, s) := run program 100 0 (Vm.New program [] tt) in
  faultless r s /\ floored (vals s) /\ (r = Ok tt -> run_over (vals s)).
Proof.
  destruct pool_is_ok as [Ht Hp]. destruct pool_fits as [Hm Hf].
  apply (typed_programs_never_fault program id (origin_of program)).
  - apply sealed_honest; [apply gob_is_honest|]. by apply shipped_key.
  - apply host_is_honest.
  - by eapply shipped_known.
  - constructor.
  - reflexivity.
  - by eapply shipped_typed.
  - by left.
Defined.

Lemma compiled_programs_never_fault_witness :
  let '(r, s) := run program 100 0 (Vm.New program [] tt) in
  faultless r s /\ floored (vals s) /\ (r = Ok tt -> run_over (vals s)).
Proof.
  destruct bc_is_built as (c' & E & Ep). unfold program, storage. rewrite <- Ep.
  apply (compiled_programs_never_fault [] no_draws (compiled_from summing) c' [] [] [] bc [112] true false []).
  - apply built_sample; vm_compute; reflexivity.
  - exact E.
  - apply pool_fits.
  - rewrite Ep. apply pool_fits.
  - apply gob_is_honest.
  - apply host_is_honest.
  - constructor.
Defined.
End Sample.
